(* ===== verification/_CoqProject ===== *)
-Q . S2P
Prelude.v
Shared.v
Bytes.v
BloomFilter.v
BitwiseTrie.v
IpFilter.v
MemoryCache.v
CachePointer.v
Llhttp.v
HeaderFields.v
HttpRequestParser.v
HttpResponseParser.v
HttpMessageBuilder.v
PersistentCache.v
HttpCache.v
Sockets.v
HttpConnectionIo.v
HttpConn.v
Timer.v
RingBuffer.v
ThreadsafeQueue.v
ThreadPool.v
PoolTasks.v
SharedPool.v
PoolStop.v
Poller.v
SocketOps.v
HttpProxy.v
ProxySockets.v
HpServer.v
ServerInvariant.v
ServerAnswers.v
ServerProperties.v
System.v
ServerThreads.v
ThreadsInvariant.v
ThreadsMeasure.v
ThreadsProperties.v
Main.v
LogEntry.v
Logger.v
Lifecycle.v
ProcessExit.v
