(* ===== verification/Prelude.v ===== *)
(** * hpserver: a verified model of the HTTP proxy server

    ** The program

    hpserver is a forward HTTP proxy: one thread runs an epoll loop over the
    client connections; complete requests are handed to worker pools, which
    talk to the upstream servers; results come back through a queue and an
    eventfd, and are written to the clients.  Around it are an IP blacklist, a
    two-level response cache, idle timers and an asynchronous logger.

    ** Files and what they model (paths under src/src)

    - [Prelude]: byte strings, machine-width integers, tactics, the hint
      database [hp] and the generic lemmas; [Bytes]: the parts of <cctype>,
      std::string and the strto*/sto* family that the sources use.
    - [BloomFilter] (util/bloom_filter.h), [BitwiseTrie] (util/bitwise_trie.h),
      [IpFilter] (net/core/ip_filter): the blacklist; [IpFilter] composes the
      other two as the code does, with the list file as an argument.
    - [MemoryCache] (util/memory_cache.h): the weighted LRU cache; list
      iterators are node identities, weights are size_t with wrap-around.
      [CachePointer]: how long the pointers that [get] answers live.
    - [PersistentCache] (net/http/persistent_cache), [HttpCache]
      (net/http/http_cache): the database level with freshness and conditional
      requests, and both levels composed.  RocksDB and the protobuf encoding are
      interfaces ([Class]es) with their documented laws and a concrete instance.
    - [Llhttp]: the interface of the third-party tokenizer: buffers to
      callbacks.  [HeaderFields], [HttpRequestParser], [HttpResponseParser]
      (net/http): the callback state machines; [HttpMessageBuilder]
      (net/http/http_message_builder): the messages the proxy writes.
    - [Sockets]: the system-call interface of the models: scripts of what recv
      and send will answer.  [HttpConnectionIo], [HttpConn] (net/http): the
      buffered socket, and the connection that glues it to the parser.
    - [Timer] (util/timer.h): lazy-deletion timers over an abstract
      std::priority_queue, with callbacks that may use the timer.
    - [RingBuffer] (util/ring_buffer.h), [ThreadsafeQueue]
      (util/threadsafe_queue.h), [ThreadPool] (util/thread_pool.h), [Logger]
      (logger): the concurrent parts, as step machines in which each critical
      section is split at its accesses to shared memory; a schedule is any
      sequence of thread steps, a blocked step changes nothing.  [Logger]
      contains the machine of [RingBuffer]; [LogEntry] is the text it writes.
      [PoolTasks] accounts for the tasks of the pool, [PoolStop] has its
      shutdown.
    - [Shared]: the contracts, as [Class]es, of the objects the server's threads
      share: a FIFO queue, a task pool and an eventfd, with the fuel their inner
      steps use up.  [ThreadsafeQueue] and [SharedPool] (over [ThreadPool])
      discharge the first two.
    - [Poller] (net/core/poller), [SocketOps] (net/core/socket_ops): the epoll
      wrapper over an interest list, and the ownership of descriptors.
    - [HttpProxy] (net/proxy/http_proxy): connecting, forwarding with retries,
      and the CONNECT relay.  [ProxySockets] runs the same functions over the
      socket objects and pollers they create.
    - [HpServer] (hpserver): construction, start-up and the event loop; it
      composes [HttpConn], [Timer], [Poller], [IpFilter] and
      [HttpMessageBuilder].  Ghost fields number the connections and record
      what arrived, which requests were read and what was queued for whom.
      [ServerInvariant] proves the loop's invariant, [ServerAnswers] that no
      request of a live connection is lost, [ServerProperties] the theorems.
    - [System]: the closure of a worker task (hpserver.cpp), and the loop
      composed with the workers that run [HttpProxy].
    - [ServerThreads]: the same as interleaved threads: the loop and the workers
      step one access to a shared object at a time, inside the contracts of
      [Shared].  [ThreadsInvariant] has the invariant, [ThreadsMeasure] the
      measure by which steps without new input end, [ThreadsProperties] the
      theorems and runs with the code's own queue and pools.
    - [Main] (main.cpp): the command line.
    - [Lifecycle]: what the start-up and the destructors do with descriptors.
      [ProcessExit]: the end of a process whose start-up failed, the product of
      the machines of both pools and of the logger with the main thread.

    State is a [Record] per class with the source's field names, operations are
    functions that return the new state, failures are [option]s, sums or the
    -1 of the code; the Rocq comment before each definition names the lines it
    translates.

    ** What the theorems show

    - End to end ([requests_served]): over every run of the loop and the
      workers, what arrives is split into the requests read, each request is
      answered at most once, with a failure report or what an upstream sent
      after it received the forwarded request, and every connection is sent in
      order what was queued for it; each answer goes to the connection that
      asked, unless a connection was closed under its task, and what happens
      then ([stale_response_delivered]).  The same under every interleaving of
      the threads ([interleavings_accounted]), where no task or result is ever
      stranded ([work_never_stranded]); without new input they come to rest with
      everything done and every live connection answered ([work_completes]).
    - The server: over every sequence of events it does not get stuck and its
      tables stay consistent, unsent output is waited for, and blacklisted
      addresses get no connection ([server_invariant]); expired connections,
      and only those, are closed ([idle_connections_closed]).
    - The wire: any segmentation of input is parsed to the same request or
      response, output bytes are neither lost nor reordered, forwarded requests
      and generated responses read back, tunnels relay in order, forwarding
      ends and is right when it reports success.
    - The data structures refine their specifications: LRU list, finite maps
      and sets, a map of deadlines, bounded and unbounded FIFOs under every
      interleaving; the caches serve what was stored and nothing else.
    - The threads: every accepted task is run, handed out or discarded by a
      [stop(false)], [stop] always returns, the log is written in order and its
      destructor always returns with everything written, descriptors have one owner, and a proxy job leaves none behind; where a
      notification can be lost there is a schedule that shows it.
    - The process: a start-up is all or nothing ([start_up_all_or_nothing]), and
      one that fails ends the program, with every thread joined
      ([failed_start_exits]).
    - Requests are well typed, whatever the tokenizer does.
    - Error paths: sticky parse errors, malformed lists, overflow of lifetimes,
      ambiguous cache keys, command lines.

    ** Bounds and fuel

    Loops over scripts, buffers and heaps carry fuel computed from the data
    (the size of the script, buffer or heap, plus one).  Where exhaustion is a
    distinct result ([None]) the theorems prove it does not occur; elsewhere a
    lemma shows that the fuel given is enough.  Sizes that index allocated
    memory are [nat]; counters, weights, ports, deadlines and configuration
    values are [Z] with their wrap-around or range checks written out.

    ** Not modelled

    llhttp, RocksDB and the generated protobuf code (interfaces); the kernel
    and the resolver (arguments); signals, so not the SIGPIPE a send without
    MSG_NOSIGNAL can raise; failures for want of memory, in the program or in
    [epoll_ctl]; relaxed memory orders:
    the step machines are sequentially consistent, which the locks and the
    acquire/release pairs of the sources justify; the text of the caller's log
    messages and of usage output; the destruction of a server with connections
    or tasks, which the program never does: the loop has no exit. *)

From Stdlib Require Export ZArith Lia Ascii String.
From stdpp Require Export prelude gmap strings list fin_maps.

(** ** Bytes and literals

    A [std::string] or [std::string_view] is its list of bytes. *)

Abbreviation bytes := (list ascii).

(** [bs "..."] is the byte sequence of a string literal of the source. *)
Definition bs (s : string) : bytes := list_ascii_of_string s.
Arguments bs : simpl never.

Definition CR : ascii := "013"%char.
Definition LF : ascii := "010"%char.
Definition CRLF : bytes := [CR; LF].

#[export] Instance ascii_countable : Countable ascii.
Proof.
  refine (inj_countable' N_of_ascii ascii_of_N _).
  intros c. apply ascii_N_embedding.
Defined.

(** ** Machine-width integers

    Unsigned arithmetic is reduction modulo the width; signed overflow is
    undefined behaviour in C++ and is modelled by [None]. *)

Declare Scope hp_scope.
Delimit Scope hp_scope with hp.

Definition u16 (z : Z) : Z := z mod 2 ^ 16.
Definition u32 (z : Z) : Z := z mod 2 ^ 32.
Definition u64 (z : Z) : Z := z mod 2 ^ 64.

Notation "a +64 b" := (u64 (a + b)%Z) (at level 50, left associativity) : hp_scope.
Notation "a -64 b" := (u64 (a - b)%Z) (at level 50, left associativity) : hp_scope.

Definition INT_MIN : Z := - 2 ^ 31.
Definition INT_MAX : Z := 2 ^ 31 - 1.
Definition INT64_MIN : Z := - 2 ^ 63.
Definition INT64_MAX : Z := 2 ^ 63 - 1.
Definition UINT_MAX : Z := 2 ^ 32 - 1.
Definition SIZE_MAX : Z := 2 ^ 64 - 1.

Definition in_int64 (z : Z) : bool := (INT64_MIN <=? z)%Z && (z <=? INT64_MAX)%Z.

(** Signed 64-bit addition; [None] is the undefined overflow. *)
Definition add_i64 (a b : Z) : option Z :=
  if in_int64 (a + b)%Z then Some (a + b)%Z else None.

(** ** Development tactics *)

Create HintDb hp.

(** Case analysis on every [if] and [match] of a hypothesis or the goal, then
    the congruence clean-up of stdpp. *)
Ltac hp_cases :=
  repeat (case_match || case_decide || case_bool_decide); simplify_eq/=.

(** Turn boolean tests of the source into propositions. *)
Ltac hp_bool :=
  repeat match goal with
  | H : _ && _ = true |- _ => apply andb_true_iff in H as [? ?]
  | H : _ || _ = false |- _ => apply orb_false_iff in H as [? ?]
  | H : negb _ = true |- _ => apply negb_true_iff in H
  | H : negb _ = false |- _ => apply negb_false_iff in H
  | H : (_ <? _)%Z = true |- _ => apply Z.ltb_lt in H
  | H : (_ <? _)%Z = false |- _ => apply Z.ltb_ge in H
  | H : (_ <=? _)%Z = true |- _ => apply Z.leb_le in H
  | H : (_ <=? _)%Z = false |- _ => apply Z.leb_gt in H
  | H : (_ =? _)%Z = true |- _ => apply Z.eqb_eq in H
  | H : (_ =? _)%Z = false |- _ => apply Z.eqb_neq in H
  | H : (_ <? _)%nat = true |- _ => apply Nat.ltb_lt in H
  | H : (_ <? _)%nat = false |- _ => apply Nat.ltb_ge in H
  | H : (_ <=? _)%nat = true |- _ => apply Nat.leb_le in H
  | H : (_ <=? _)%nat = false |- _ => apply Nat.leb_gt in H
  | H : (_ =? _)%nat = true |- _ => apply Nat.eqb_eq in H
  | H : (_ =? _)%nat = false |- _ => apply Nat.eqb_neq in H
  | H : bool_decide _ = true |- _ => apply bool_decide_eq_true in H
  | H : bool_decide _ = false |- _ => apply bool_decide_eq_false in H
  end.

(** ** Integer lemmas *)

Lemma u16_range z : (0 <= u16 z < 2 ^ 16)%Z.
Proof. apply Z.mod_pos_bound; lia. Qed.

Lemma u32_range z : (0 <= u32 z < 2 ^ 32)%Z.
Proof. apply Z.mod_pos_bound; lia. Qed.

Lemma u64_range z : (0 <= u64 z < 2 ^ 64)%Z.
Proof. apply Z.mod_pos_bound; lia. Qed.

Lemma u16_small z : (0 <= z < 2 ^ 16)%Z -> u16 z = z.
Proof. apply Z.mod_small. Qed.

Lemma u32_small z : (0 <= z < 2 ^ 32)%Z -> u32 z = z.
Proof. apply Z.mod_small. Qed.

Lemma u64_small z : (0 <= z < 2 ^ 64)%Z -> u64 z = z.
Proof. apply Z.mod_small. Qed.

Lemma u64_add_l a b : u64 (u64 a + b) = u64 (a + b).
Proof. apply Zplus_mod_idemp_l. Qed.

Lemma u64_sub_l a b : u64 (u64 a - b) = u64 (a - b).
Proof. apply Zminus_mod_idemp_l. Qed.

Lemma add_i64_Some a b c : add_i64 a b = Some c <->
  c = (a + b)%Z /\ (INT64_MIN <= a + b <= INT64_MAX)%Z.
Proof.
  unfold add_i64, in_int64. split.
  - intros H. case_match; simplify_eq. hp_bool. lia.
  - intros [-> [H1 H2]]. apply Z.leb_le in H1, H2. by rewrite H1, H2.
Qed.

#[export] Hint Resolve u16_range u32_range u64_range : hp.

(** ** List lemmas *)

Lemma prefix_of_app_inv {A} (p a b : list A) :
  p ++ a = p ++ b -> a = b.
Proof. apply app_inv_head. Qed.

Lemma foldl_snoc {A B} (f : B -> A -> B) (b : B) (l : list A) (x : A) :
  foldl f b (l ++ [x]) = f (foldl f b l) x.
Proof. by rewrite foldl_app. Qed.

(** An invariant of the accumulator of a left fold. *)
Lemma foldl_invariant {A B} (P : B -> Prop) (f : B -> A -> B) (l : list A) (b : B) :
  P b -> (forall b x, x ∈ l -> P b -> P (f b x)) -> P (foldl f b l).
Proof.
  revert b; induction l as [|x l IH]; intros b Hb Hstep; simpl; [done|].
  apply IH; [apply Hstep; [constructor|done]|].
  intros b' y Hy. apply Hstep. by constructor.
Qed.

Lemma list_lookup_replicate_lt {A} (x : A) n i : i < n -> replicate n x !! i = Some x.
Proof. intros H. apply lookup_replicate. done. Qed.

Section filter.
Context {A B : Type}.

Lemma filter_all (P : A -> Prop) `{!forall x, Decision (P x)} (l : list A) :
  Forall P l -> filter P l = l.
Proof.
  induction 1 as [|x l Hx _ IH]; [done|]. by rewrite filter_cons_True, IH.
Qed.

Lemma filter_ext_elem (P Q : A -> Prop)
    `{!forall x, Decision (P x), !forall x, Decision (Q x)} (l : list A) :
  (forall x, x ∈ l -> P x <-> Q x) -> filter P l = filter Q l.
Proof.
  induction l as [|x l IH]; intros Hx; [done|]. rewrite !filter_cons.
  rewrite IH by set_solver. pose proof (Hx x ltac:(set_solver)).
  repeat case_decide; tauto.
Qed.

Lemma filter_fmap (f : A -> B) (P : B -> Prop) `{!forall x, Decision (P x)} (l : list A) :
  filter P (f <$> l) = f <$> filter (fun x => P (f x)) l.
Proof.
  induction l as [|x l IH]; [done|]. rewrite fmap_cons, !filter_cons, IH.
  by case_decide.
Qed.

End filter.

(** ** Map lemmas *)

Lemma map_size_insert_le `{Countable K} {A} (m : gmap K A) k x : size (<[k := x]> m) <= S (size m).
Proof. rewrite map_size_insert. destruct (m !! k); simpl; lia. Qed.

Lemma map_size_delete_le `{Countable K} {A} (m : gmap K A) k : size (delete k m) <= size m.
Proof. rewrite map_size_delete. destruct (m !! k); simpl; lia. Qed.

(** The values of the entries with key [g], in order. *)
Definition gather {A B} (key : A -> nat) (val : A -> list B) (g : nat) (l : list A) : list B :=
  mjoin (val <$> filter (fun e => key e = g) l).

Lemma gather_app {A B} (key : A -> nat) (val : A -> list B) g l1 l2 :
  gather key val g (l1 ++ l2) = gather key val g l1 ++ gather key val g l2.
Proof. unfold gather. by rewrite filter_app, fmap_app, join_app. Qed.

Lemma gather_one {A B} (key : A -> nat) (val : A -> list B) g e :
  gather key val g [e] = if decide (key e = g) then val e else [].
Proof. unfold gather. rewrite filter_cons. destruct (decide _); simpl; by rewrite ?app_nil_r. Qed.

(** A key that has not been given out yet. *)
Lemma gather_fresh {A B} (key : A -> nat) (val : A -> list B) g l :
  (forall e, e ∈ l -> (key e < g)%nat) -> gather key val g l = [].
Proof.
  induction l as [|e l IH]; intros Hl; [done|]. change (e :: l) with ([e] ++ l) in *.
  rewrite gather_app, gather_one, IH by (intros e' ?; apply Hl; set_solver).
  rewrite decide_False; [done|]. specialize (Hl e ltac:(left)). lia.
Qed.

(** Reading one component of a computed result. *)
Lemma observe_Some {A B} (F : A -> B) (o : option A) x v : o = Some x -> F <$> o = Some v -> F x = v.
Proof. intros -> [= <-]. done. Qed.

Lemma ran_Some {A} (o : option A) : (if o then true else false) = true -> exists x, o = Some x.
Proof. destruct o; [eauto|done]. Qed.

(** Induction by pairs of elements. *)
Lemma list_pair_ind {A} (P : list A -> Prop) :
  P [] -> (forall x, P [x]) -> (forall x y l, P l -> P (x :: y :: l)) -> forall l, P l.
Proof. intros H0 H1 H2. fix IH 1. intros [|x [|y l]]; [exact H0|exact (H1 x)|exact (H2 x y l (IH l))]. Qed.

(** What one element adds to a sum. *)
Lemma sum_list_insert (l : list nat) i x y :
  l !! i = Some x -> (sum_list (<[i := y]> l) + x = sum_list l + y)%nat.
Proof.
  revert i. induction l as [|z l IH]; intros i Hi; [done|].
  destruct i as [|i]; simpl in *; unfold id in *; [injection Hi as ->; lia|]. specialize (IH i Hi). lia.
Qed.

(** Changing a function at one place changes its sum by as much. *)
Lemma sum_update (f g : nat -> nat) n i :
  (i < n)%nat -> (forall j, j <> i -> g j = f j) ->
  (sum_list (g <$> seq 0 n) + f i = sum_list (f <$> seq 0 n) + g i)%nat.
Proof.
  intros Hi Hg. assert (forall m k, (i < m \/ m + k <= i)%nat -> sum_list (g <$> seq m k) = sum_list (f <$> seq m k)) as Heq.
  { intros m k. revert m. induction k as [|k IH]; intros m Hm; [done|]. simpl.
    rewrite Hg, IH by lia. done. }
  replace n with (i + S (n - i - 1))%nat by lia.
  rewrite seq_app, <- cons_seq, !fmap_app, !fmap_cons, !sum_list_with_app, !Nat.add_0_l.
  cbn [sum_list_with]. rewrite (Heq 0%nat i), (Heq (S i)) by lia. unfold id. lia.
Qed.

Lemma length_not_nil {A} (l : list A) n : length l = S n -> l <> [].
Proof. by destruct l. Qed.

(** ** Steps that come to rest

    [step a s] is the step of action [a], [None] when it is not enabled. *)

Section runs.
Context {S A : Type} (step : A -> S -> option S).

(** A schedule in which every action is enabled when its turn comes. *)
Fixpoint steps_run (s : S) (acts : list A) : option S :=
  match acts with
  | [] => Some s
  | a :: acts => s' ← step a s; steps_run s' acts
  end.

(** By actions that are [ok], only a bounded number of steps is possible from
    [s], in whatever order; one of them is possible until [final]; so every
    schedule that goes on as long as it can ends in [final], and there is one. *)
Definition comes_to_rest (ok : A -> Prop) (final : S -> Prop) (s : S) : Prop :=
  (exists bound, forall acts s', Forall ok acts -> steps_run s acts = Some s' ->
     (length acts <= bound)%nat /\ (final s' \/ exists a, ok a /\ is_Some (step a s'))) /\
  (exists acts s', Forall ok acts /\ steps_run s acts = Some s' /\ final s').

Variable ok : A -> Prop.
Variable final : S -> Prop.
Variable inv : S -> Prop.
Variable fuel : S -> nat.
Hypothesis step_fuel : forall a s s', inv s -> ok a -> step a s = Some s' -> inv s' /\ (fuel s' < fuel s)%nat.
Hypothesis step_live : forall s, inv s -> final s \/ exists a, ok a /\ is_Some (step a s).

Lemma steps_bounded acts s s' :
  inv s -> Forall ok acts -> steps_run s acts = Some s' -> inv s' /\ (length acts <= fuel s)%nat.
Proof.
  intros Hi Ha. revert s Hi. induction Ha as [|a acts Ha _ IH]; intros s Hi Hr; cbn [steps_run length] in *.
  { injection Hr as <-. split; [done|lia]. }
  destruct (step a s) as [s1|] eqn:E; [|done]. destruct (step_fuel a s s1 Hi Ha E) as [Hi1 Hf].
  destruct (IH s1 Hi1 Hr). split; [done|lia].
Qed.

Lemma steps_end s : inv s -> exists acts s', Forall ok acts /\ steps_run s acts = Some s' /\ final s'.
Proof.
  remember (fuel s) as n eqn:En. revert s En. induction (lt_wf n) as [n _ IH]. intros s -> Hi.
  destruct (step_live s Hi) as [Hf|(a & Ha & s1 & E)]; [by exists [], s|].
  destruct (step_fuel a s s1 Hi Ha E) as [Hi1 Hlt].
  destruct (IH _ Hlt s1 eq_refl Hi1) as (acts & s' & H1 & H2 & H3).
  exists (a :: acts), s'. split_and!; [by constructor| |done]. cbn [steps_run]. by rewrite E.
Qed.

Lemma fuel_comes_to_rest s : inv s -> comes_to_rest ok final s.
Proof.
  intros Hi. split; [|by apply steps_end]. exists (fuel s). intros acts s' Ha Hr.
  destruct (steps_bounded acts s s' Hi Ha Hr) as [Hi' Hl]. split; [done|by apply step_live].
Qed.

End runs.
