(* ===== verification/Shared.v ===== *)
(** * Shared: what the event loop relies on about the objects it shares

    The loop and the worker threads meet in three places: the queue of results
    ([threadsafe_queue]), the pools of tasks ([thread_pool]) and the eventfd the
    workers signal.  Each is a class: an object whose operations are begun by a
    thread, move by steps of any thread inside it, and are answered at one step,
    their linearization point, as a sequential object would answer there.
    [ThreadsafeQueue] and [ThreadPool] discharge the first two; the third is
    the kernel's, with its documented laws and a demonstration instance.
    [ServerThreads] is proved against the classes. *)

From S2P Require Import Prelude.

Local Open Scope Z_scope.

(** ** A FIFO queue *)

Inductive queue_op (T : Type) := OpPush (x : T) | OpPop.
Arguments OpPush {T}.
Arguments OpPop {T}.

(** A pop of an empty queue is answered [Popped None]. *)
Inductive queue_answer (T : Type) := Pushed | Popped (x : option T).
Arguments Pushed {T}.
Arguments Popped {T}.

(** The sequential object. *)
Definition fifo {T} (op : queue_op T) (q : list T) : queue_answer T * list T :=
  match op, q with
  | OpPush x, _ => (Pushed, q ++ [x])
  | OpPop, [] => (Popped None, [])
  | OpPop, x :: q' => (Popped (Some x), q')
  end.

(** [sq_repr s q P]: the object [s] holds [q], and [P] are the operations begun
    and not yet answered, by thread.  A blocked thread is [None]; while an
    operation is under way, or cannot be begun, some thread inside can move.
    Every step uses up [sq_fuel], of which a begun operation brings [sq_cost]. *)
Class SharedQueue (T : Type) := {
  sq : Type;
  sq_act : Type;
  sq_new : sq;
  sq_begin : nat -> queue_op T -> sq -> option sq;
  sq_step : sq_act -> sq -> option (sq * option (nat * queue_answer T));
  sq_repr : sq -> list T -> gmap nat (queue_op T) -> Prop;
  sq_cost : nat;
  sq_fuel : sq -> nat;
  sq_new_repr : sq_repr sq_new [] ∅;
  sq_begin_repr : forall s q P tid op s',
    sq_repr s q P -> P !! tid = None -> sq_begin tid op s = Some s' -> sq_repr s' q (<[tid := op]> P);
  sq_step_repr : forall s q P a s' r,
    sq_repr s q P -> sq_step a s = Some (s', r) ->
    match r with
    | None => sq_repr s' q P
    | Some (tid, ans) => exists op q', P !! tid = Some op /\ fifo op q = (ans, q') /\ sq_repr s' q' (delete tid P)
    end;
  sq_live : forall s q P tid op,
    sq_repr s q P -> P !! tid = Some op \/ sq_begin tid op s = None -> exists a, is_Some (sq_step a s);
  sq_begin_fuel : forall s tid op s', sq_begin tid op s = Some s' -> (sq_fuel s' <= sq_fuel s + sq_cost)%nat;
  sq_step_fuel : forall s q P a s' r,
    sq_repr s q P -> sq_step a s = Some (s', r) -> (sq_fuel s' < sq_fuel s)%nat;
}.

(** ** A pool of workers *)

(** The verdict on a submission, or worker [w] about to run [x]. *)
Inductive pool_answer (T : Type) := Verdict (accepted : bool) | Given (w : nat) (x : T).
Arguments Verdict {T}.
Arguments Given {T}.

(** [tp_repr n s q o F]: [q] are the tasks accepted and not yet given to one of
    the [n] workers, in any order, [o] the submission under way (one thread
    submits) and [F] the workers that are fetching; the others run a task.
    [tp_inner] are the steps that threads make by themselves; a spurious wake-up
    is not one.  While a submission is under way, or cannot be begun, some thread
    inside can move; so it can while a task waits and every worker is fetching.
    Inner steps end: each uses up [tp_fuel], of which a submission or a fetch
    brings [tp_cost]. *)
Class TaskPool (T : Type) := {
  tp : Type;
  tp_act : Type;
  tp_inner : tp_act -> Prop;
  tp_new : nat -> Z -> tp;
  tp_submit : T -> tp -> option tp;
  tp_fetch : nat -> tp -> option tp;
  tp_step : tp_act -> tp -> option (tp * option (pool_answer T));
  tp_repr : nat -> tp -> list T -> option T -> gset nat -> Prop;
  tp_cost : nat;
  tp_fuel : tp -> nat;
  tp_new_repr : forall n max, tp_repr n (tp_new n max) [] None ∅;
  tp_submit_repr : forall n s q F x s',
    tp_repr n s q None F -> tp_submit x s = Some s' -> tp_repr n s' q (Some x) F;
  tp_fetch_repr : forall n s q o F w s',
    tp_repr n s q o F -> tp_fetch w s = Some s' -> w ∉ F /\ (w < n)%nat /\ tp_repr n s' q o ({[w]} ∪ F);
  tp_step_repr : forall n s q o F a s' r,
    tp_repr n s q o F -> tp_step a s = Some (s', r) ->
    match r with
    | None => tp_repr n s' q o F
    | Some (Verdict b) => exists x, o = Some x /\ tp_repr n s' (if b then q ++ [x] else q) None F
    | Some (Given w x) => w ∈ F /\ exists q', q ≡ₚ x :: q' /\ tp_repr n s' q' o (F ∖ {[w]})
    end;
  tp_live : forall n s q o F x,
    tp_repr n s q o F -> is_Some o \/ tp_submit x s = None -> exists a, tp_inner a /\ is_Some (tp_step a s);
  tp_fetch_live : forall n s q o F w,
    tp_repr n s q o F -> w ∉ F -> (w < n)%nat -> is_Some (tp_fetch w s);
  tp_work : forall n s q o F,
    tp_repr n s q o F -> (0 < n)%nat -> q <> [] ->
    (exists a, tp_inner a /\ is_Some (tp_step a s)) \/ exists w, (w < n)%nat /\ w ∉ F;
  tp_submit_fuel : forall x s s', tp_submit x s = Some s' -> (tp_fuel s' <= tp_fuel s + tp_cost)%nat;
  tp_fetch_fuel : forall w s s', tp_fetch w s = Some s' -> (tp_fuel s' <= tp_fuel s + tp_cost)%nat;
  tp_step_fuel : forall n s q o F a s' r,
    tp_repr n s q o F -> tp_inner a -> tp_step a s = Some (s', r) -> (tp_fuel s' < tp_fuel s)%nat;
}.

(** ** An eventfd watched edge-triggered *)

(** The largest count (eventfd(2)). *)
Definition EFD_MAX : Z := 2 ^ 64 - 2.

(** [efd_count] is the counter, [efd_edge] an edge that epoll has not reported.
    A write of 1 adds to the counter and raises the edge; at the largest count
    it fails and does nothing (eventfd(2), EFD_NONBLOCK).  A read of a positive
    counter clears it, a read of 0 fails, and neither raises the edge.  A report
    consumes the edge and leaves the counter (epoll(7), EPOLLET). *)
Class EventFd := {
  efd : Type;
  efd_new : efd;
  efd_count : efd -> Z;
  efd_edge : efd -> bool;
  efd_write : efd -> efd;
  efd_read : efd -> Z * efd;
  efd_report : efd -> efd;
  efd_new_count : efd_count efd_new = 0;
  efd_write_ok : forall e, efd_count e < EFD_MAX ->
    efd_count (efd_write e) = efd_count e + 1 /\ efd_edge (efd_write e) = true;
  efd_write_full : forall e, EFD_MAX <= efd_count e -> efd_write e = e;
  efd_read_ok : forall e, 0 < efd_count e ->
    (efd_read e).1 = 8 /\ efd_count (efd_read e).2 = 0;
  efd_read_empty : forall e, efd_count e = 0 -> efd_read e = (-1, e);
  efd_read_edge : forall e, efd_edge (efd_read e).2 = true -> efd_edge e = true;
  efd_report_count : forall e, efd_count (efd_report e) = efd_count e;
  efd_report_edge : forall e, efd_edge (efd_report e) = false;
  efd_nonneg : forall e, 0 <= efd_count e;
}.

(** [epoll_wait] reports it as readable. *)
Definition efd_ready `{EventFd} (e : efd) : bool := efd_edge e && (0 <? efd_count e).

(** Either raised the counter or found it positive. *)
Lemma efd_write_pos `{EventFd} e : 0 < efd_count (efd_write e).
Proof.
  pose proof (efd_nonneg e). destruct (Z.lt_ge_cases (efd_count e) EFD_MAX) as [Hl|Hl].
  - destruct (efd_write_ok e Hl). lia.
  - rewrite (efd_write_full e Hl). unfold EFD_MAX in Hl. lia.
Qed.

(** A write raises the edge, or changes nothing. *)
Lemma efd_write_edge `{EventFd} e : efd_edge (efd_write e) = true \/ (efd_write e = e /\ 0 < efd_count e).
Proof.
  destruct (Z.lt_ge_cases (efd_count e) EFD_MAX) as [Hl|Hl].
  - left. by apply efd_write_ok.
  - right. rewrite (efd_write_full e Hl). unfold EFD_MAX in Hl. split; [done|lia].
Qed.

(** The counter and the edge, as eventfd(2) and epoll(7) describe them. *)
Record demo_efd := mk_demo_efd { de_count : N; de_edge : bool }.

#[export] Program Instance demo_eventfd : EventFd := {
  efd := demo_efd;
  efd_new := mk_demo_efd 0 false;
  efd_count e := Z.of_N (de_count e);
  efd_edge := de_edge;
  efd_write e := if Z.of_N (de_count e) <? EFD_MAX then mk_demo_efd (de_count e + 1) true else e;
  efd_read e := if (de_count e =? 0)%N then (-1, e) else (8, mk_demo_efd 0 (de_edge e));
  efd_report e := mk_demo_efd (de_count e) false;
}.
Next Obligation. done. Qed.
Next Obligation.
  intros e He. cbv beta. apply Z.ltb_lt in He as ->. cbn [de_count de_edge]. split; [lia|done].
Qed.
Next Obligation. intros e He. cbv beta. by apply Z.ltb_ge in He as ->. Qed.
Next Obligation. intros e He. cbv beta in *. destruct (N.eqb_spec (de_count e) 0) as [E|]; [rewrite E in He; lia|done]. Qed.
Next Obligation. intros e He. cbv beta in *. destruct (N.eqb_spec (de_count e) 0); [done|lia]. Qed.
Next Obligation. intros e. cbv beta. destruct (de_count e =? 0)%N; exact id. Qed.
Next Obligation. done. Qed.
Next Obligation. done. Qed.
Next Obligation. intros e. simpl. lia. Qed.
