(* ===== verification/Bytes.v ===== *)
(** * Bytes: the parts of [std::string], [<cctype>] and [<cstdlib>] the sources use

    Searching and slicing of byte strings, the "C" locale's [tolower] and
    [isspace], [std::to_string] on integers, and the number scanners
    [strtoul], [strtoull], [std::stoi] and [std::stoll] with their overflow
    behaviour.  The lemmas are the round trip between printing and scanning,
    and the facts on line structure (no CR, no LF) the HTTP components share. *)

From S2P Require Import Prelude.

Local Open Scope Z_scope.

(** ** Characters *)

Definition code (c : ascii) : Z := Z.of_N (N_of_ascii c).
Definition char_of (z : Z) : ascii := ascii_of_N (Z.to_N z).

Definition is_upper (c : ascii) : bool := (65 <=? code c) && (code c <=? 90).
Definition is_digit (c : ascii) : bool := (48 <=? code c) && (code c <=? 57).

(** [std::isspace] in the "C" locale: space, \t, \n, \v, \f, \r. *)
Definition isspace (c : ascii) : bool :=
  (code c =? 32) || ((9 <=? code c) && (code c <=? 13)).

(** [std::tolower] in the "C" locale. *)
Definition tolower (c : ascii) : ascii :=
  if is_upper c then char_of (code c + 32) else c.

Definition lower (s : bytes) : bytes := tolower <$> s.

(** ** Searching and slicing *)

(** [s.find(c)]; [None] is [npos]. *)
Fixpoint find_char (c : ascii) (s : bytes) : option nat :=
  match s with
  | [] => None
  | x :: s' => if decide (x = c) then Some 0%nat else S <$> find_char c s'
  end.

(** [s.find(c, pos)]. *)
Definition find_char_from (c : ascii) (s : bytes) (pos : nat) : option nat :=
  (Nat.add pos) <$> find_char c (drop pos s).

(** [s.rfind(c)]. *)
Fixpoint rfind_char (c : ascii) (s : bytes) : option nat :=
  match s with
  | [] => None
  | x :: s' =>
      match rfind_char c s' with
      | Some n => Some (S n)
      | None => if decide (x = c) then Some 0%nat else None
      end
  end.

Definition starts_with (p s : bytes) : bool := bool_decide (p `prefix_of` s).

(** [s.find(p)] for a substring. *)
Fixpoint find_sub (p s : bytes) : option nat :=
  if starts_with p s then Some 0%nat else
  match s with
  | [] => None
  | _ :: s' => S <$> find_sub p s'
  end.

(** [s.find(p, pos)]. *)
Definition find_sub_from (p s : bytes) (pos : nat) : option nat :=
  (Nat.add pos) <$> find_sub p (drop pos s).

(** [s.substr(pos, n)]. *)
Definition substr (s : bytes) (pos n : nat) : bytes := take n (drop pos s).

(** Length as a [size_t]. *)
Definition size_of (s : bytes) : Z := Z.of_nat (length s).

(** ** Printing integers *)

Definition digit_char (d : Z) : ascii := char_of (48 + d).
Definition digit_val (c : ascii) : Z := code c - 48.

Fixpoint digits_aux (fuel : nat) (n : Z) (acc : bytes) : bytes :=
  match fuel with
  | O => acc
  | S f =>
      if n <? 10 then digit_char n :: acc
      else digits_aux f (n / 10) (digit_char (n mod 10) :: acc)
  end.

(** A number of [log2 n + 1] bits has at most that many decimal digits. *)
Definition digits (n : Z) : bytes := digits_aux (S (Z.to_nat (Z.log2 n))) n [].

(** [std::to_string]. *)
Definition to_string (z : Z) : bytes :=
  if z <? 0 then "-"%char :: digits (- z) else digits z.

(** ** Scanning integers *)

Fixpoint skip_space (s : bytes) : bytes :=
  match s with
  | c :: s' => if isspace c then skip_space s' else s
  | [] => []
  end.

Fixpoint span_digits (s : bytes) : bytes * bytes :=
  match s with
  | c :: s' => if is_digit c then let '(d, r) := span_digits s' in (c :: d, r) else ([], s)
  | [] => ([], [])
  end.

Definition digits_value (acc : Z) (s : bytes) : Z :=
  foldl (fun a c => a * 10 + digit_val c) acc s.

Definition scan_sign (s : bytes) : bool * bytes :=
  match s with
  | c :: s' =>
      if decide (c = "-"%char) then (true, s')
      else if decide (c = "+"%char) then (false, s') else (false, s)
  | [] => (false, [])
  end.

(** The common scanner of [strtol] and its relatives in base 10: sign,
    magnitude and unread rest; [None] when there is no digit. *)
Definition scan_int (s : bytes) : option (bool * Z * bytes) :=
  let '(neg, s1) := scan_sign (skip_space s) in
  match span_digits s1 with
  | ([], _) => None
  | (d, r) => Some (neg, digits_value 0 d, r)
  end.

(** [strtoul]/[strtoull] with a 64-bit result: the value, whether [errno] is
    set to [ERANGE], and the unread rest ([None]: no conversion). *)
Definition strtoull (s : bytes) : Z * bool * option bytes :=
  match scan_int s with
  | None => (0, false, None)
  | Some (neg, m, r) =>
      if SIZE_MAX <? m then (SIZE_MAX, true, Some r)
      else (if neg then u64 (- m) else m, false, Some r)
  end.

Definition strtoul (s : bytes) : Z := (strtoull s).1.1.

Inductive std_exn := invalid_argument | out_of_range.

Definition sto_signed (lo hi : Z) (s : bytes) : std_exn + Z :=
  match scan_int s with
  | None => inl invalid_argument
  | Some (neg, m, _) =>
      let v := if neg then - m else m in
      if (v <? lo) || (hi <? v) then inl out_of_range else inr v
  end.

Definition stoi : bytes -> std_exn + Z := sto_signed INT_MIN INT_MAX.
Definition stoll : bytes -> std_exn + Z := sto_signed INT64_MIN INT64_MAX.

Arguments to_string : simpl never.
Arguments strtoul : simpl never.
Arguments strtoull : simpl never.
Arguments sto_signed : simpl never.
Arguments stoi : simpl never.
Arguments stoll : simpl never.

(** ** Line structure *)

Definition line_safe (c : ascii) : Prop := c <> CR /\ c <> LF.

(** No CR and no LF: the text stays on one line of an HTTP head. *)
Definition one_line (s : bytes) : Prop := Forall line_safe s.

#[export] Instance line_safe_dec c : Decision (line_safe c).
Proof. apply _. Defined.

#[export] Instance one_line_dec s : Decision (one_line s).
Proof. apply _. Defined.

(** ** Character lemmas *)

Lemma code_range c : 0 <= code c < 256.
Proof. unfold code. pose proof (N_ascii_bounded c). lia. Qed.

Lemma code_char_of z : 0 <= z < 256 -> code (char_of z) = z.
Proof. intros H. unfold code, char_of. rewrite N_ascii_embedding; lia. Qed.

Lemma code_inj c d : code c = code d -> c = d.
Proof.
  unfold code. intros H. rewrite <- (ascii_N_embedding c), <- (ascii_N_embedding d).
  f_equal. lia.
Qed.

Lemma tolower_idemp c : tolower (tolower c) = tolower c.
Proof.
  unfold tolower, is_upper. pose proof (code_range c).
  destruct ((65 <=? code c) && (code c <=? 90)) eqn:E; [|by rewrite E].
  hp_bool. rewrite code_char_of by lia.
  replace (_ && _) with false; [done|]. symmetry. apply andb_false_iff.
  right. apply Z.leb_gt. lia.
Qed.

Lemma lower_idemp s : lower (lower s) = lower s.
Proof.
  unfold lower. rewrite <- list_fmap_compose. apply list_fmap_ext.
  intros _ c _. apply tolower_idemp.
Qed.

Lemma lower_nil_iff s : lower s = [] <-> s = [].
Proof. by destruct s. Qed.

Lemma is_digit_digit_char d : 0 <= d < 10 -> is_digit (digit_char d) = true.
Proof.
  intros H. unfold is_digit, digit_char. rewrite code_char_of by lia.
  apply andb_true_iff; split; apply Z.leb_le; lia.
Qed.

Lemma digit_val_char d : 0 <= d < 10 -> digit_val (digit_char d) = d.
Proof. intros H. unfold digit_val, digit_char. rewrite code_char_of; lia. Qed.

Lemma is_digit_line_safe c : is_digit c = true -> line_safe c.
Proof. intros H. split; intros ->; discriminate. Qed.

Lemma is_digit_not_space c : is_digit c = true -> isspace c = false.
Proof.
  unfold is_digit, isspace. intros H. hp_bool.
  apply orb_false_iff; split; [apply Z.eqb_neq; lia|].
  apply andb_false_iff. right. apply Z.leb_gt; lia.
Qed.

(** ** Search lemmas *)

Lemma find_char_None c s : find_char c s = None <-> c ∉ s.
Proof.
  induction s as [|x s IH]; simpl; [set_solver|].
  case_decide as Hx; [set_solver|].
  rewrite fmap_None, IH. set_solver.
Qed.

Lemma find_char_app c s1 s2 :
  c ∉ s1 -> find_char c (s1 ++ c :: s2) = Some (length s1).
Proof.
  induction s1 as [|x s IH]; simpl; intros Hc; [by rewrite decide_True|].
  rewrite decide_False by set_solver. rewrite IH; [done|set_solver].
Qed.

Lemma find_char_Some c s n : find_char c s = Some n ->
  s = take n s ++ c :: drop (S n) s /\ c ∉ take n s.
Proof.
  revert n; induction s as [|x s IH]; simpl; intros n H; [done|].
  case_decide as Hx; simplify_eq/=; [set_solver|].
  apply fmap_Some in H as (m & Hm & ->). apply IH in Hm as [Hs Hn].
  simpl. split; [by rewrite <- Hs|set_solver].
Qed.

Lemma rfind_char_None c s : rfind_char c s = None <-> c ∉ s.
Proof.
  induction s as [|x s IH]; simpl; [set_solver|].
  destruct (rfind_char c s) eqn:E.
  - split; [done|]. intros Hn. assert (c ∉ s) as H by set_solver.
    apply IH in H. done.
  - case_decide; [set_solver|]. apply proj1 in IH. specialize (IH eq_refl). set_solver.
Qed.

Lemma rfind_char_app c s1 s2 :
  c ∉ s2 -> rfind_char c (s1 ++ c :: s2) = Some (length s1).
Proof.
  intros Hc. induction s1 as [|x s IH]; simpl.
  - apply rfind_char_None in Hc. rewrite Hc. by rewrite decide_True.
  - by rewrite IH.
Qed.

(** ** Decimal lemmas *)

Lemma digits_value_app acc s1 s2 :
  digits_value acc (s1 ++ s2) = digits_value (digits_value acc s1) s2.
Proof. apply foldl_app. Qed.

Lemma digits_aux_S f n acc :
  digits_aux (S f) n acc =
    if n <? 10 then digit_char n :: acc
    else digits_aux f (n / 10) (digit_char (n mod 10) :: acc).
Proof. done. Qed.

Lemma digits_aux_spec f n acc :
  0 <= n < 2 ^ Z.of_nat (S f) ->
  digits_value 0 (digits_aux (S f) n acc) = digits_value n acc /\
  exists d, digits_aux (S f) n acc = d ++ acc /\ d <> [] /\
            Forall (fun c => is_digit c = true) d.
Proof.
  revert n acc; induction f as [|f IH]; intros n acc Hn.
  - change (2 ^ Z.of_nat 1) with 2 in Hn. simpl.
    destruct (n <? 10) eqn:E; hp_bool; [|lia].
    split; [unfold digits_value; simpl; by rewrite digit_val_char by lia|].
    exists [digit_char n]. split_and!; [done..|].
    constructor; [apply is_digit_digit_char; lia|done].
  - rewrite (digits_aux_S (S f)). destruct (n <? 10) eqn:E; hp_bool.
    + split; [unfold digits_value; simpl; by rewrite digit_val_char by lia|].
      exists [digit_char n]. split_and!; [done..|].
      constructor; [apply is_digit_digit_char; lia|done].
    + pose proof (Z.mod_pos_bound n 10 ltac:(lia)) as Hm.
      pose proof (Z.div_mod n 10 ltac:(lia)) as Hd.
      assert (2 ^ Z.of_nat (S (S f)) = 2 * 2 ^ Z.of_nat (S f)) as Hp.
      { rewrite (Nat2Z.inj_succ (S f)), Z.pow_succ_r; lia. }
      destruct (IH (n / 10) (digit_char (n mod 10) :: acc)) as [Hv (d & Hd1 & Hd2 & Hd3)].
      { split; [apply Z.div_pos; lia|]. apply Z.div_lt_upper_bound; lia. }
      split.
      * rewrite Hv. unfold digits_value; simpl. rewrite digit_val_char by lia.
        f_equal. lia.
      * rewrite Hd1. exists (d ++ [digit_char (n mod 10)]).
        split_and!; [by rewrite <- app_assoc|by destruct d|].
        apply Forall_app; split; [done|].
        constructor; [apply is_digit_digit_char; lia|done].
Qed.

Lemma digits_fuel n : 0 <= n -> 0 <= n < 2 ^ Z.of_nat (S (Z.to_nat (Z.log2 n))).
Proof.
  intros Hn. split; [done|].
  rewrite Nat2Z.inj_succ, Z2Nat.id by apply Z.log2_nonneg.
  destruct (decide (n = 0)) as [->|]; [done|]. apply Z.log2_spec. lia.
Qed.

Lemma digits_value_digits n : 0 <= n -> digits_value 0 (digits n) = n.
Proof. intros Hn. apply digits_aux_spec, digits_fuel, Hn. Qed.

Lemma digits_all n : 0 <= n -> Forall (fun c => is_digit c = true) (digits n).
Proof.
  intros Hn. destruct (digits_aux_spec _ n [] (digits_fuel n Hn)) as [_ (d & Hd & _ & H)].
  unfold digits. by rewrite Hd, app_nil_r.
Qed.

Lemma digits_nonempty n : 0 <= n -> digits n <> [].
Proof.
  intros Hn. destruct (digits_aux_spec _ n [] (digits_fuel n Hn)) as [_ (d & Hd & H & _)].
  unfold digits. by rewrite Hd, app_nil_r.
Qed.

Lemma to_string_nonneg n : 0 <= n -> to_string n = digits n.
Proof. intros Hn. unfold to_string. destruct (n <? 0) eqn:E; hp_bool; [lia|done]. Qed.

Lemma to_string_inj a b : 0 <= a -> 0 <= b -> to_string a = to_string b -> a = b.
Proof.
  intros Ha Hb. rewrite !to_string_nonneg by done. intros H.
  apply (f_equal (digits_value 0)) in H. by rewrite !digits_value_digits in H.
Qed.

Lemma to_string_one_line z : one_line (to_string z).
Proof.
  unfold to_string, one_line. destruct (z <? 0) eqn:E; hp_bool.
  - constructor; [split; discriminate|].
    eapply Forall_impl; [apply digits_all; lia|]. apply is_digit_line_safe.
  - eapply Forall_impl; [apply digits_all; lia|]. apply is_digit_line_safe.
Qed.

(** A text whose first byte, if any, is not a digit. *)
Definition no_digit_head (r : bytes) : Prop :=
  match r with c :: _ => is_digit c = false | [] => True end.

Lemma span_digits_app d r :
  Forall (fun c => is_digit c = true) d -> no_digit_head r ->
  span_digits (d ++ r) = (d, r).
Proof.
  induction 1 as [|c d Hc _ IH]; intros Hr; simpl.
  - destruct r as [|c r]; simpl in *; [done|]. by rewrite Hr.
  - by rewrite Hc, IH.
Qed.

Lemma span_digits_all s d r :
  span_digits s = (d, r) ->
  Forall (fun c => is_digit c = true) d /\ no_digit_head r /\ s = d ++ r.
Proof.
  revert d r. induction s as [|c s IH]; simpl; intros d r Hs; [by simplify_eq|].
  destruct (is_digit c) eqn:Ec; [|simplify_eq; by repeat split].
  destruct (span_digits s) as [d' r'] eqn:E. simplify_eq.
  destruct (IH d' r eq_refl) as (? & ? & ->). split_and!; [by constructor|done|done].
Qed.

Lemma digits_value_nonneg acc d :
  0 <= acc -> Forall (fun c => is_digit c = true) d -> 0 <= digits_value acc d.
Proof.
  intros Ha Hd. revert acc Ha. induction Hd as [|c d Hc _ IH]; intros acc Ha; [done|].
  unfold digits_value; simpl. apply IH. unfold is_digit, digit_val in *. hp_bool. lia.
Qed.

(** Scanning what was printed gives the number back, whatever non-digit
    follows it. *)
Lemma scan_int_to_string n r :
  0 <= n -> no_digit_head r -> scan_int (to_string n ++ r) = Some (false, n, r).
Proof.
  intros Hn Hr. rewrite to_string_nonneg by done.
  pose proof (digits_all n Hn) as Hall. pose proof (digits_nonempty n Hn) as Hne.
  pose proof (digits_value_digits n Hn) as Hv.
  pose proof (span_digits_app _ r Hall Hr) as Hs.
  destruct (digits n) as [|c d]; [done|].
  apply Forall_cons in Hall as [Hc _].
  unfold scan_int. simpl (_ ++ _) in *. simpl (skip_space _).
  rewrite is_digit_not_space by done. simpl (scan_sign _).
  rewrite !decide_False by (intros ->; discriminate).
  rewrite Hs. by rewrite Hv.
Qed.

Lemma strtoul_to_string n : 0 <= n <= SIZE_MAX -> strtoul (to_string n) = n.
Proof.
  intros Hn. unfold strtoul, strtoull.
  rewrite <- (app_nil_r (to_string n)), scan_int_to_string by (done || lia).
  destruct (SIZE_MAX <? n) eqn:E; hp_bool; simpl; lia.
Qed.

Lemma sto_signed_to_string lo hi n r :
  0 <= n -> no_digit_head r -> lo <= n <= hi ->
  sto_signed lo hi (to_string n ++ r) = inr n.
Proof.
  intros Hn Hr Hb. unfold sto_signed. rewrite scan_int_to_string by done. simpl.
  destruct ((n <? lo) || (hi <? n)) eqn:E; [|done].
  apply orb_true_iff in E as [E|E]; hp_bool; lia.
Qed.

(** ** Line lemmas *)

Lemma one_line_app s1 s2 : one_line (s1 ++ s2) <-> one_line s1 /\ one_line s2.
Proof. apply Forall_app. Qed.

Lemma one_line_cons c s : one_line (c :: s) <-> line_safe c /\ one_line s.
Proof. apply Forall_cons. Qed.

Lemma one_line_no_CR s : one_line s -> CR ∉ s.
Proof. intros H Hin. by destruct (proj1 (Forall_forall _ _) H _ Hin). Qed.

#[export] Hint Resolve to_string_one_line : hp.
