(* ===== verification/BloomFilter.v ===== *)
(** * BloomFilter: [bloom_filter] of src/src/util/bloom_filter.h

    A bit vector with three FNV-1a hashes in 64-bit wrap-around arithmetic.
    The theorems: queries are exactly "every hashed position was set by some
    added element", so there are no false negatives, and [clear] forgets. *)

From S2P Require Import Prelude Bytes.

Local Open Scope Z_scope.

(* src/src/util/bloom_filter.h:53-53 bloom_filter *)
Record bloom_filter := mk_bloom { bits_ : list bool }.

(** The vector's size is fixed by the constructor; with size 0 the index
    [hash % bits_.size()] would divide by zero, so the laws below ask for a
    positive size (the only caller passes 1024). *)
(* src/src/util/bloom_filter.h:15-15 bloom_filter::bloom_filter *)
Definition bloom_new (size : nat) : bloom_filter := mk_bloom (replicate size false).

(* src/src/util/bloom_filter.h:36-43 bloom_filter::fnv1a_hash *)
Definition fnv1a_hash (data : bytes) (seed : Z) : Z :=
  foldl (fun hash c => u64 (Z.lxor hash (code c) * 1099511628211)) seed data.

(* src/src/util/bloom_filter.h:45-51 bloom_filter::compute_hashes *)
Definition compute_hashes (data : bytes) : list Z :=
  [fnv1a_hash data 0xcbf29ce484222325;
   fnv1a_hash data 0x811c9dc5;
   fnv1a_hash data 0x100000001b3].

(** [hash % bits_.size()]. *)
Definition slot (n : nat) (hash : Z) : nat := Z.to_nat (hash mod Z.of_nat n).

Definition set_bit (b : list bool) (hash : Z) : list bool :=
  <[slot (length b) hash := true]> b.

Definition get_bit (b : list bool) (hash : Z) : bool :=
  default false (b !! slot (length b) hash).

(* src/src/util/bloom_filter.h:17-22 bloom_filter::add *)
Definition bloom_add (f : bloom_filter) (data : bytes) : bloom_filter :=
  mk_bloom (foldl set_bit (bits_ f) (compute_hashes data)).

(* src/src/util/bloom_filter.h:24-29 bloom_filter::contains *)
Definition bloom_contains (f : bloom_filter) (data : bytes) : bool :=
  forallb (get_bit (bits_ f)) (compute_hashes data).

(* src/src/util/bloom_filter.h:31-33 bloom_filter::clear *)
Definition bloom_clear (f : bloom_filter) : bloom_filter :=
  mk_bloom (replicate (length (bits_ f)) false).

(** ** Specification: the positions an element occupies *)

Definition positions (n : nat) (data : bytes) : list nat :=
  slot n <$> compute_hashes data.

(** ** Lemmas *)

Lemma slot_lt n h : (0 < n)%nat -> (slot n h < n)%nat.
Proof.
  intros Hn. unfold slot. pose proof (Z.mod_pos_bound h (Z.of_nat n) ltac:(lia)). lia.
Qed.

Lemma length_set_bit b h : length (set_bit b h) = length b.
Proof. apply length_insert. Qed.

Lemma length_foldl_set_bit b hs : length (foldl set_bit b hs) = length b.
Proof.
  revert b; induction hs as [|h hs IH]; intros b; simpl; [done|].
  by rewrite IH, length_set_bit.
Qed.

Lemma foldl_set_bit_lookup b hs i :
  foldl set_bit b hs !! i = Some true <->
  b !! i = Some true \/ ((i < length b)%nat /\ i ∈ (slot (length b) <$> hs)).
Proof.
  revert b; induction hs as [|h hs IH]; intros b; simpl; [set_solver|].
  rewrite IH, length_set_bit. unfold set_bit.
  rewrite elem_of_cons. destruct (decide (slot (length b) h = i)) as [<-|Hne].
  - destruct (decide (slot (length b) h < length b)%nat).
    + rewrite list_lookup_insert_eq by done. naive_solver.
    + rewrite list_insert_ge by lia. naive_solver lia.
  - rewrite list_lookup_insert_ne by done. naive_solver.
Qed.

Lemma bits_bloom_add f d :
  bits_ (bloom_add f d) = foldl set_bit (bits_ f) (compute_hashes d).
Proof. done. Qed.

Lemma length_bloom_add f d : length (bits_ (bloom_add f d)) = length (bits_ f).
Proof. apply length_foldl_set_bit. Qed.

Lemma length_bloom_adds f ds :
  length (bits_ (foldl bloom_add f ds)) = length (bits_ f).
Proof.
  revert f; induction ds as [|d ds IH]; intros f; simpl; [done|].
  by rewrite IH, length_bloom_add.
Qed.

Lemma get_bit_true b h : get_bit b h = true <-> b !! slot (length b) h = Some true.
Proof.
  unfold get_bit. destruct (b !! _) as [[]|]; simpl; naive_solver.
Qed.

Lemma bloom_contains_true f d :
  bloom_contains f d = true <->
  forall i, i ∈ positions (length (bits_ f)) d -> bits_ f !! i = Some true.
Proof.
  unfold bloom_contains, positions. rewrite forallb_forall. split.
  - intros H i Hi. apply list_elem_of_fmap in Hi as (h & -> & Hh).
    apply get_bit_true, H, list_elem_of_In, Hh.
  - intros H h Hh. apply get_bit_true, H, list_elem_of_fmap.
    exists h. split; [done|]. by apply list_elem_of_In.
Qed.

Lemma bloom_adds_lookup f ds i :
  bits_ (foldl bloom_add f ds) !! i = Some true <->
  bits_ f !! i = Some true \/
  ((i < length (bits_ f))%nat /\
   exists d, d ∈ ds /\ i ∈ positions (length (bits_ f)) d).
Proof.
  revert f; induction ds as [|d ds IH]; intros f; simpl; [set_solver|].
  rewrite IH, length_bloom_add, bits_bloom_add, foldl_set_bit_lookup.
  fold (positions (length (bits_ f)) d).
  setoid_rewrite elem_of_cons. naive_solver.
Qed.

(** Adding never removes an element. *)
Lemma bloom_contains_mono f d d' :
  bloom_contains f d = true -> bloom_contains (bloom_add f d') d = true.
Proof.
  rewrite !bloom_contains_true, length_bloom_add. intros H i Hi.
  rewrite bits_bloom_add. apply foldl_set_bit_lookup. left. by apply H.
Qed.

Lemma bloom_contains_add f d :
  (0 < length (bits_ f))%nat -> bloom_contains (bloom_add f d) d = true.
Proof.
  intros Hn. rewrite bloom_contains_true, length_bloom_add. intros i Hi.
  rewrite bits_bloom_add. apply foldl_set_bit_lookup. right. split; [|done].
  apply list_elem_of_fmap in Hi as (h & -> & _). by apply slot_lt.
Qed.

(** The exact answer of a filter built from an empty one. *)
Lemma bloom_new_adds_contains n ds d :
  (0 < n)%nat ->
  bloom_contains (foldl bloom_add (bloom_new n) ds) d = true <->
  forall i, i ∈ positions n d -> exists d', d' ∈ ds /\ i ∈ positions n d'.
Proof.
  intros Hn. rewrite bloom_contains_true, length_bloom_adds. simpl.
  rewrite length_replicate. apply forall_proper; intros i.
  assert (i ∈ positions n d -> (i < n)%nat) as Hlt.
  { intros Hi. apply list_elem_of_fmap in Hi as (h & -> & _). by apply slot_lt. }
  assert (replicate n false !! i <> Some true) as Hf.
  { intros [? ?]%lookup_replicate. done. }
  rewrite bloom_adds_lookup. simpl. rewrite length_replicate. naive_solver.
Qed.

(** C19: a Bloom filter query after any additions is true exactly when each of
    the element's three hash positions was set by some added element; in
    particular every added element is reported (no false negatives), and a
    cleared filter reports nothing. *)
Theorem bloom_filter_exact n ds d :
  (0 < n)%nat ->
  (bloom_contains (foldl bloom_add (bloom_new n) ds) d = true <->
   forall i, i ∈ positions n d -> exists d', d' ∈ ds /\ i ∈ positions n d') /\
  (d ∈ ds -> bloom_contains (foldl bloom_add (bloom_new n) ds) d = true) /\
  bloom_contains (bloom_clear (foldl bloom_add (bloom_new n) ds)) d = false.
Proof.
  intros Hn. pose proof (bloom_new_adds_contains n ds d Hn) as Hex.
  split_and!; [done|intros Hd; apply Hex; eauto|].
  apply not_true_iff_false. rewrite bloom_contains_true. simpl.
  rewrite length_replicate, length_bloom_adds. simpl. rewrite length_replicate.
  intros H. specialize (H (slot n (fnv1a_hash d 0xcbf29ce484222325))).
  unfold positions in H. simpl in H.
  rewrite list_lookup_replicate_lt in H by (by apply slot_lt).
  assert (Some false = Some true) by (apply H; set_solver). done.
Qed.

Lemma bloom_filter_exact_witness :
  bloom_contains (foldl bloom_add (bloom_new 64) [bs "10.0.0.1"; bs "10.0.0.2"])
    (bs "10.0.0.2") = true.
Proof.
  refine (proj1 (proj2 (bloom_filter_exact 64 _ _ ltac:(lia))) _).
  apply list_elem_of_In. right. left. reflexivity.
Defined.
