(* ===== verification/BitwiseTrie.v ===== *)
(** * BitwiseTrie: [bitwise_trie<T>] of src/src/util/bitwise_trie.h

    A 32-level binary trie on [uint32_t] keys.  The pointer walk of the source
    becomes a structural walk over the remaining bit positions 31..0; an
    in-place update of the node reached is the rebuilt path.  The trie refines
    a finite map from keys to values: [trie_repr] is the abstraction and each
    operation simulates the map operation. *)

From S2P Require Import Prelude.

Local Open Scope Z_scope.

Section trie.
Context {T : Type}.

(* src/src/util/bitwise_trie.h:15-18 bitwise_trie::node *)
Inductive node := Node (child0 child1 : option node) (value : option T).

(** A freshly made node: [std::make_unique<node>()]. *)
Definition node_new : node := Node None None None.

(** [(key >> i) & 1]. *)
Definition bit (key : Z) (i : nat) : bool := Z.land (Z.shiftr key (Z.of_nat i)) 1 =? 1.

Definition value_of (n : node) : option T := let '(Node _ _ v) := n in v.

(** [children[bit]]. *)
Definition child (n : node) (b : bool) : option node :=
  let '(Node c0 c1 _) := n in if b then c1 else c0.

Definition set_child (n : node) (b : bool) (c : node) : node :=
  let '(Node c0 c1 v) := n in if b then Node c0 (Some c) v else Node (Some c) c1 v.

Definition set_value (n : node) (v : option T) : node :=
  let '(Node c0 c1 _) := n in Node c0 c1 v.

(** [k] bits are left: the loop is at [i = k - 1]. *)
(* src/src/util/bitwise_trie.h:34-44 bitwise_trie::search *)
Fixpoint search_from (k : nat) (current : node) (key : Z) : option T :=
  match k with
  | O => value_of current
  | S i =>
      match child current (bit key i) with
      | None => None
      | Some c => search_from i c key
      end
  end.

(* src/src/util/bitwise_trie.h:49-59 bitwise_trie::insert *)
Fixpoint insert_from (k : nat) (current : node) (key : Z) (value : T) : node :=
  match k with
  | O => set_value current (Some value)
  | S i =>
      let c := default node_new (child current (bit key i)) in
      set_child current (bit key i) (insert_from i c key value)
  end.

(* src/src/util/bitwise_trie.h:64-76 bitwise_trie::remove *)
Fixpoint remove_from (k : nat) (current : node) (key : Z) : node * bool :=
  match k with
  | O => (set_value current None, bool_decide (is_Some (value_of current)))
  | S i =>
      match child current (bit key i) with
      | None => (current, false)
      | Some c =>
          let '(c', existed) := remove_from i c key in
          (set_child current (bit key i) c', existed)
      end
  end.

(* src/src/util/bitwise_trie.h:78-80 bitwise_trie *)
Record bitwise_trie := mk_trie { root_ : node }.

(* src/src/util/bitwise_trie.h:21-21 bitwise_trie::bitwise_trie *)
Definition trie_new : bitwise_trie := mk_trie node_new.

(* src/src/util/bitwise_trie.h:34-44 bitwise_trie::search *)
Definition trie_search (t : bitwise_trie) (key : Z) : option T := search_from 32 (root_ t) key.

(* src/src/util/bitwise_trie.h:49-59 bitwise_trie::insert *)
Definition trie_insert (t : bitwise_trie) (key : Z) (value : T) : bitwise_trie :=
  mk_trie (insert_from 32 (root_ t) key value).

(* src/src/util/bitwise_trie.h:64-76 bitwise_trie::remove *)
Definition trie_remove (t : bitwise_trie) (key : Z) : bitwise_trie * bool :=
  let '(r, existed) := remove_from 32 (root_ t) key in (mk_trie r, existed).

(** ** Specification: a finite map on 32-bit keys *)

Definition is_u32 (key : Z) : Prop := 0 <= key < 2 ^ 32.

Definition trie_repr (t : bitwise_trie) (m : gmap Z T) : Prop :=
  forall key, is_u32 key -> trie_search t key = m !! key.

(** The client's operations as a trace, run on both levels. *)
Inductive trie_op := OpInsert (key : Z) (v : T) | OpRemove (key : Z).

Definition op_key (o : trie_op) : Z :=
  match o with OpInsert k _ | OpRemove k => k end.

Definition trie_step (t : bitwise_trie) (o : trie_op) : bitwise_trie :=
  match o with
  | OpInsert k v => trie_insert t k v
  | OpRemove k => (trie_remove t k).1
  end.

Definition map_step (m : gmap Z T) (o : trie_op) : gmap Z T :=
  match o with
  | OpInsert k v => <[k := v]> m
  | OpRemove k => delete k m
  end.

(** The two keys take the same path below the top [32 - k] bits. *)
Fixpoint same_path (k : nat) (a b : Z) : bool :=
  match k with
  | O => true
  | S i => eqb (bit a i) (bit b i) && same_path i a b
  end.

(** ** Lemmas *)

Lemma bit_testbit key i : bit key i = Z.testbit key (Z.of_nat i).
Proof.
  unfold bit. rewrite (Z.land_ones _ 1) by lia. change (2 ^ 1) with 2.
  rewrite <- Z.bit0_mod, Z.shiftr_spec by lia. rewrite Z.add_0_l.
  destruct (Z.testbit key (Z.of_nat i)); reflexivity.
Qed.

Lemma same_path_bits k a b :
  same_path k a b = true <-> forall i, (i < k)%nat -> bit a i = bit b i.
Proof.
  induction k as [|k IH]; simpl; [split; [lia|done]|].
  rewrite andb_true_iff, eqb_true_iff, IH. split.
  - intros [H1 H2] i Hi. destruct (decide (i = k)) as [->|]; [done|]. apply H2. lia.
  - intros H. split; [apply H; lia|]. intros i Hi. apply H. lia.
Qed.

Lemma u32_high_bits a n : is_u32 a -> 32 <= n -> Z.testbit a n = false.
Proof.
  intros Ha Hn. rewrite <- (Z.mod_small a (2 ^ 32)) by done.
  apply Z.mod_pow2_bits_high. lia.
Qed.

Lemma same_path_u32 a b : is_u32 a -> is_u32 b -> same_path 32 a b = bool_decide (a = b).
Proof.
  intros Ha Hb. apply eq_true_iff_eq. rewrite same_path_bits, bool_decide_eq_true.
  split; [|by intros ->]. intros H. apply Z.bits_inj'. intros n Hn.
  destruct (decide (n < 32)) as [Hlt|Hge].
  - specialize (H (Z.to_nat n) ltac:(lia)). by rewrite !bit_testbit, Z2Nat.id in H by lia.
  - by rewrite !u32_high_bits by (done || lia).
Qed.

Lemma child_set_child n b b' c :
  child (set_child n b c) b' = if eqb b b' then Some c else child n b'.
Proof. by destruct n, b, b'. Qed.

Lemma search_node_new k key : search_from k node_new key = None.
Proof. destruct k; [done|]. simpl. by destruct (bit key k). Qed.

Lemma search_default k o key :
  search_from k (default node_new o) key =
    match o with Some c => search_from k c key | None => None end.
Proof. destruct o; [done|]. apply search_node_new. Qed.

Lemma search_insert_from k n a v b :
  search_from k (insert_from k n a v) b =
    if same_path k a b then Some v else search_from k n b.
Proof.
  revert n; induction k as [|k IH]; intros n; simpl; [by destruct n|].
  rewrite child_set_child. destruct (eqb (bit a k) (bit b k)) eqn:E; simpl; [|done].
  apply eqb_prop in E. rewrite IH, search_default, E. done.
Qed.

Lemma remove_from_spec k n a :
  (remove_from k n a).2 = bool_decide (is_Some (search_from k n a)) /\
  forall b, search_from k (remove_from k n a).1 b =
    if same_path k a b then None else search_from k n b.
Proof.
  revert n; induction k as [|k IH]; intros n; simpl; [by destruct n|].
  destruct (child n (bit a k)) as [c|] eqn:Ec; simpl.
  - specialize (IH c). destruct (remove_from k c a) as [c' ex]; simpl in *.
    destruct IH as [-> IH]. split; [done|]. intros b. rewrite child_set_child.
    destruct (eqb (bit a k) (bit b k)) eqn:E; simpl; [|done].
    apply eqb_prop in E. rewrite IH, <- E, Ec. done.
  - split; [done|]. intros b.
    destruct (eqb (bit a k) (bit b k)) eqn:E; simpl; [|done].
    apply eqb_prop in E. rewrite <- E, Ec. by destruct (same_path k a b).
Qed.

Lemma trie_search_insert t a v b :
  is_u32 a -> is_u32 b ->
  trie_search (trie_insert t a v) b = if decide (a = b) then Some v else trie_search t b.
Proof.
  intros Ha Hb. unfold trie_search, trie_insert; cbn [root_].
  rewrite search_insert_from, same_path_u32 by done. by repeat case_decide.
Qed.

Lemma trie_remove_existed t a :
  (trie_remove t a).2 = bool_decide (is_Some (trie_search t a)).
Proof.
  unfold trie_remove, trie_search. destruct (remove_from_spec 32 (root_ t) a) as [H _].
  by destruct (remove_from 32 (root_ t) a).
Qed.

Lemma trie_search_remove t a b :
  is_u32 a -> is_u32 b ->
  trie_search (trie_remove t a).1 b = if decide (a = b) then None else trie_search t b.
Proof.
  intros Ha Hb. unfold trie_remove, trie_search.
  destruct (remove_from_spec 32 (root_ t) a) as [_ H]. specialize (H b).
  destruct (remove_from 32 (root_ t) a) as [r ex]; cbn [root_ fst snd] in *.
  rewrite H, same_path_u32 by done. by repeat case_decide.
Qed.

Lemma trie_new_repr : trie_repr trie_new ∅.
Proof. intros key _. unfold trie_search. rewrite search_node_new. by rewrite lookup_empty. Qed.

Lemma trie_step_repr t m o :
  is_u32 (op_key o) -> trie_repr t m -> trie_repr (trie_step t o) (map_step m o).
Proof.
  intros Hk Hr key Hkey. destruct o as [k v|k]; simpl in *.
  - rewrite trie_search_insert, lookup_insert by done. case_decide; [done|by apply Hr].
  - rewrite trie_search_remove, lookup_delete by done. case_decide; [done|by apply Hr].
Qed.

End trie.

Arguments node : clear implicits.
Arguments bitwise_trie : clear implicits.
Arguments trie_op : clear implicits.
#[export] Hint Resolve trie_new_repr : hp.

(** C18: every sequence of insertions and removals on the trie refines the
    same sequence on a finite map from 32-bit keys: [search] returns the map's
    value for every key, and [remove] reports whether the key was bound. *)
Theorem trie_refines_map {T} (ops : list (trie_op T)) (key : Z) :
  Forall (fun o => is_u32 (op_key o)) ops -> is_u32 key ->
  let t := foldl trie_step trie_new ops in
  let m := foldl map_step ∅ ops in
  trie_search t key = m !! key /\
  (trie_remove t key).2 = bool_decide (is_Some (m !! key)).
Proof.
  intros Hops Hkey t m.
  assert (trie_repr t m) as Hr.
  { unfold t, m. generalize (@trie_new T) (∅ : gmap Z T) (@trie_new_repr T).
    induction Hops as [|o ops Ho _ IH]; intros t0 m0 H0; simpl; [done|].
    apply IH, trie_step_repr; done. }
  rewrite trie_remove_existed, (Hr key Hkey). done.
Qed.

Lemma trie_refines_map_witness :
  let t := foldl trie_step trie_new [OpInsert 7 true; OpInsert 4294967295 false; OpRemove 7] in
  trie_search t 4294967295 = Some false /\ (trie_remove t 7).2 = false.
Proof.
  assert (Forall (fun o => is_u32 (op_key o))
    [OpInsert 7 true; OpInsert 4294967295 false; OpRemove 7]) as H.
  { repeat constructor; simpl; lia. }
  split.
  - rewrite (proj1 (trie_refines_map _ 4294967295 H ltac:(unfold is_u32; lia))). reflexivity.
  - rewrite (proj2 (trie_refines_map _ 7 H ltac:(unfold is_u32; lia))). reflexivity.
Defined.
