(* ===== verification/IpFilter.v ===== *)
(** * IpFilter: [ip_filter] of src/src/net/core/ip_filter.{h,cpp}

    The blacklist of client addresses: a trie with exact membership behind a
    Bloom filter.  [inet_pton] (libc) is a parameter; [std::stoi] may throw,
    so [add_cidr] and [init] return [std_exn + ip_filter].  The theorems: the
    filter blocks exactly the added addresses, a /24../32 range is covered
    exactly, a shorter mask blocks one address only, and a malformed mask
    escapes as an exception. *)

From S2P Require Import Prelude Bytes BloomFilter BitwiseTrie.

Local Open Scope Z_scope.

(* src/src/net/core/ip_filter.h:35-38 ip_filter *)
Record ip_filter := mk_ip_filter {
  trie_ : bitwise_trie bool;
  bloom_filter_ : bloom_filter;
  ip_list_path_ : bytes;
}.

(* src/src/net/core/ip_filter.cpp:13-14 ip_filter::ip_filter *)
Definition ip_filter_new (bloom_size : nat) : ip_filter :=
  mk_ip_filter trie_new (bloom_new bloom_size) [].

(** The object representation of a [uint32_t] on a little-endian host: the
    bytes behind [reinterpret_cast<const char*>(&ip)]. *)
(* src/src/net/core/ip_filter.cpp:19-19 ip_filter::add_ip *)
Definition ip_bytes (ip : Z) : bytes :=
  [char_of (ip mod 256); char_of (ip / 256 mod 256);
   char_of (ip / 65536 mod 256); char_of (ip / 16777216 mod 256)].

(* src/src/net/core/ip_filter.cpp:17-21 ip_filter::add_ip *)
Definition add_ip (f : ip_filter) (ip : Z) : ip_filter :=
  mk_ip_filter (trie_insert (trie_ f) ip true)
               (bloom_add (bloom_filter_ f) (ip_bytes ip))
               (ip_list_path_ f).

(* src/src/net/core/ip_filter.cpp:53-59 ip_filter::is_blocked *)
Definition is_blocked (f : ip_filter) (ip : Z) : bool :=
  if negb (bloom_contains (bloom_filter_ f) (ip_bytes ip)) then false
  else bool_decide (is_Some (trie_search (trie_ f) ip)).

(** [ntohl] on a little-endian host: the four bytes reversed. *)
Definition ntohl (n : Z) : Z :=
  (n mod 256) * 16777216 + (n / 256 mod 256) * 65536 +
  (n / 65536 mod 256) * 256 + (n / 16777216 mod 256).

(** The C string at the start of a buffer: the bytes before the first NUL. *)
Fixpoint c_str (s : bytes) : bytes :=
  match s with
  | c :: s' => if decide (c = "000"%char) then [] else c :: c_str s'
  | [] => []
  end.

Section cidr.

(** libc's [inet_pton(AF_INET, text, &addr)]: the address in network byte
    order as a [uint32_t], or [None] when the text is not an IPv4 address. *)
Context (inet_pton : bytes -> option Z).

(** The loop [for (i = 0; i < num_ips; ++i) add_ip(base_ip + i)]. *)
(* src/src/net/core/ip_filter.cpp:43-47 ip_filter::add_cidr *)
Definition add_range (f : ip_filter) (base_ip : Z) (num_ips : nat) : ip_filter :=
  foldl (fun f i => add_ip f (u32 (base_ip + Z.of_nat i))) f (seq 0 num_ips).

(* src/src/net/core/ip_filter.cpp:23-51 ip_filter::add_cidr *)
Definition add_cidr (f : ip_filter) (cidr : bytes) : std_exn + ip_filter :=
  match find_char "/" cidr with
  | None =>
      match inet_pton (c_str cidr) with
      | Some ip => inr (add_ip f (ntohl ip))
      | None => inr f
      end
  | Some slash_pos =>
      let ip_part := substr cidr 0 slash_pos in
      match stoi (drop (slash_pos + 1) cidr) with
      | inl e => inl e
      | inr mask =>
          match inet_pton (c_str ip_part) with
          | None => inr f
          | Some n =>
              let ip_addr := ntohl n in
              if (mask <=? 0) || (32 <? mask) then inr f
              else if 24 <=? mask then
                let num_ips := Z.shiftl 1 (32 - mask) in
                let base_ip := Z.land ip_addr (u32 (Z.shiftl 0xFFFFFFFF (32 - mask))) in
                inr (add_range f base_ip (Z.to_nat num_ips))
              else inr (add_ip f ip_addr)
          end
      end
  end.

(** One line of the list file: blank lines and comments are skipped. *)
(* src/src/net/core/ip_filter.cpp:72-75 ip_filter::init *)
Definition load_line (f : ip_filter) (line : bytes) : std_exn + ip_filter :=
  match line with
  | [] => inr f
  | c :: _ => if decide (c = "#"%char) then inr f else add_cidr f line
  end.

Fixpoint load_lines (f : ip_filter) (lines : list bytes) : std_exn + ip_filter :=
  match lines with
  | [] => inr f
  | l :: ls =>
      match load_line f l with
      | inl e => inl e
      | inr f' => load_lines f' ls
      end
  end.

(** [open_file] is the file system: the lines of a readable file. *)
(* src/src/net/core/ip_filter.cpp:61-76 ip_filter::init *)
Definition ip_filter_init (open_file : bytes -> option (list bytes))
    (f : ip_filter) (path : bytes) : std_exn + ip_filter :=
  match path with
  | [] => inr f
  | _ =>
      let f := mk_ip_filter (trie_ f) (bloom_filter_ f) path in
      match open_file path with
      | None => inr f
      | Some lines => load_lines f lines
      end
  end.

End cidr.

(** ** Specification: the set of blocked addresses *)

Definition blocks (f : ip_filter) (S : gset Z) : Prop :=
  (0 < length (bits_ (bloom_filter_ f)))%nat /\
  (forall ip, is_u32 ip -> is_Some (trie_search (trie_ f) ip) <-> ip ∈ S) /\
  (forall ip, ip ∈ S -> bloom_contains (bloom_filter_ f) (ip_bytes ip) = true).

(** ** Lemmas *)

Lemma blocks_new n : (0 < n)%nat -> blocks (ip_filter_new n) ∅.
Proof.
  intros Hn. split_and!; simpl.
  - by rewrite length_replicate.
  - intros ip Hip. rewrite (trie_new_repr ip Hip), lookup_empty.
    split; [by intros [? ?]|set_solver].
  - set_solver.
Qed.

Lemma blocks_add_ip f S ip :
  is_u32 ip -> blocks f S -> blocks (add_ip f ip) ({[ip]} ∪ S).
Proof.
  intros Hip (Hn & Ht & Hb). split_and!; cbn [trie_ bloom_filter_ add_ip].
  - by rewrite length_bloom_add.
  - intros ip' Hip'. rewrite trie_search_insert by done.
    case_decide as Heq; [set_solver|]. rewrite (Ht ip' Hip'). set_solver.
  - intros ip' Hin. destruct (decide (ip' = ip)) as [->|].
    + by apply bloom_contains_add.
    + apply bloom_contains_mono, Hb. set_solver.
Qed.

Lemma blocks_adds n ips :
  (0 < n)%nat -> Forall is_u32 ips ->
  blocks (foldl add_ip (ip_filter_new n) ips) (list_to_set ips).
Proof.
  intros Hn Hips.
  assert (forall f S, blocks f S -> blocks (foldl add_ip f ips) (list_to_set ips ∪ S)) as Hg.
  { induction Hips as [|x l Hx _ IH]; intros f S Hb; simpl.
    - by rewrite (left_id_L ∅ (∪)).
    - replace ({[x]} ∪ list_to_set l ∪ S) with
        (list_to_set l ∪ ({[x]} ∪ S) : gset Z) by set_solver.
      by apply IH, blocks_add_ip. }
  rewrite <- (right_id_L ∅ (∪) (list_to_set ips)). by apply Hg, blocks_new.
Qed.

Lemma blocks_is_blocked f S ip :
  blocks f S -> is_u32 ip -> is_blocked f ip = bool_decide (ip ∈ S).
Proof.
  intros (Hn & Ht & Hb) Hip. unfold is_blocked. specialize (Ht ip Hip).
  destruct (decide (ip ∈ S)) as [Hin|Hout].
  - rewrite (Hb ip Hin). simpl. apply bool_decide_ext, Ht.
  - rewrite (bool_decide_eq_false_2 (ip ∈ S)) by done.
    case_match; [done|]. apply bool_decide_eq_false_2. by rewrite Ht.
Qed.

Lemma blocks_path f S p :
  blocks f S -> blocks (mk_ip_filter (trie_ f) (bloom_filter_ f) p) S.
Proof. done. Qed.

(** The addresses the range loop adds. *)
Definition range_set (base : Z) (n : nat) : gset Z :=
  list_to_set ((fun i => u32 (base + Z.of_nat i)) <$> seq 0 n).

Lemma blocks_add_range f S base n :
  blocks f S -> blocks (add_range f base n) (range_set base n ∪ S).
Proof.
  intros Hb. unfold add_range, range_set.
  assert (forall l f S, blocks f S ->
    blocks (foldl (fun f i => add_ip f (u32 (base + Z.of_nat i))) f l)
      (list_to_set ((fun i => u32 (base + Z.of_nat i)) <$> l) ∪ S)) as Hgen.
  { intros l. induction l as [|i l IH]; intros f' S' Hb'; simpl.
    - by rewrite (left_id_L ∅ (∪)).
    - replace ({[u32 (base + Z.of_nat i)]} ∪ _ ∪ S') with
        (list_to_set ((fun i => u32 (base + Z.of_nat i)) <$> l) ∪
          ({[u32 (base + Z.of_nat i)]} ∪ S') : gset Z) by set_solver.
      apply IH, blocks_add_ip; [apply u32_range|done]. }
  by apply Hgen.
Qed.

Lemma ntohl_u32 n : is_u32 (ntohl n).
Proof.
  unfold is_u32, ntohl.
  pose proof (Z.mod_pos_bound n 256 ltac:(lia)).
  pose proof (Z.mod_pos_bound (n / 256) 256 ltac:(lia)).
  pose proof (Z.mod_pos_bound (n / 65536) 256 ltac:(lia)).
  pose proof (Z.mod_pos_bound (n / 16777216) 256 ltac:(lia)). lia.
Qed.

(** Masking off the low [k] bits of a 32-bit word. *)
Lemma land_mask a k :
  is_u32 a -> 0 <= k <= 8 ->
  Z.land a (u32 (Z.shiftl 0xFFFFFFFF k)) = a / 2 ^ k * 2 ^ k.
Proof.
  intros Ha Hk. rewrite <- Z.shiftr_div_pow2, <- Z.shiftl_mul_pow2 by lia.
  apply Z.bits_inj'. intros n Hn. unfold u32.
  rewrite Z.land_spec. destruct (decide (n < 32)) as [Hlt|Hge].
  - rewrite Z.mod_pow2_bits_low by lia.
    change 0xFFFFFFFF with (Z.ones 32).
    destruct (decide (n < k)).
    + rewrite !Z.shiftl_spec_low by lia. apply andb_false_r.
    + rewrite !Z.shiftl_spec, Z.ones_spec_low, Z.shiftr_spec by lia.
      rewrite andb_true_r. f_equal. lia.
  - rewrite (u32_high_bits a n) by (done || lia).
    rewrite Z.shiftl_spec, Z.shiftr_spec by lia.
    rewrite (u32_high_bits a (n - k + k)) by (done || lia). done.
Qed.

(** The loop of a mask of 24 or more covers exactly one aligned block. *)
Lemma range_set_block a k ip :
  is_u32 a -> is_u32 ip -> 0 <= k <= 8 ->
  ip ∈ range_set (a / 2 ^ k * 2 ^ k) (Z.to_nat (2 ^ k)) <-> ip / 2 ^ k = a / 2 ^ k.
Proof.
  intros Ha Hip Hk. unfold is_u32 in *.
  assert (0 < 2 ^ k) as Hp by (apply Z.pow_pos_nonneg; lia).
  assert (2 ^ 32 = 2 ^ (32 - k) * 2 ^ k) as H32.
  { rewrite <- Z.pow_add_r by lia. f_equal. lia. }
  pose proof (Z.div_pos a (2 ^ k) ltac:(lia) Hp) as Ha0.
  assert (a / 2 ^ k < 2 ^ (32 - k)) as Ha1 by (apply Z.div_lt_upper_bound; lia).
  unfold range_set. rewrite elem_of_list_to_set, list_elem_of_fmap. split.
  - intros (i & -> & Hi). apply elem_of_seq in Hi.
    rewrite u32_small by nia.
    rewrite Z.add_comm, Z.div_add by lia. rewrite Z.div_small by lia. lia.
  - intros Heq. pose proof (Z.div_mod ip (2 ^ k) ltac:(lia)) as Hd.
    pose proof (Z.mod_pos_bound ip (2 ^ k) Hp) as Hm.
    exists (Z.to_nat (ip mod 2 ^ k)). split.
    + rewrite u32_small by lia. rewrite Z2Nat.id by lia. lia.
    + apply elem_of_seq. lia.
Qed.

Section laws.
Context (inet_pton : bytes -> option Z).

(** What one textual entry contributes to the blocked set. *)
Lemma add_cidr_mask f S text mask ip_text :
  blocks f S ->
  find_char "/" text = Some (length ip_text) -> take (length ip_text) text = ip_text ->
  stoi (drop (length ip_text + 1) text) = inr mask ->
  1 <= mask <= 32 ->
  forall n, inet_pton (c_str ip_text) = Some n ->
  exists f', add_cidr inet_pton f text = inr f' /\
    forall ip, is_u32 ip ->
      is_blocked f' ip = bool_decide (ip ∈ S) ||
        (if 24 <=? mask then ip / 2 ^ (32 - mask) =? ntohl n / 2 ^ (32 - mask)
         else ip =? ntohl n).
Proof.
  intros Hb Hfind Htake Hstoi Hmask n Hn.
  unfold add_cidr. rewrite Hfind, Hstoi. unfold substr. rewrite drop_0, Htake, Hn.
  destruct ((mask <=? 0) || (32 <? mask)) eqn:E.
  { apply orb_true_iff in E as [E|E]; hp_bool; lia. }
  pose proof (ntohl_u32 n) as Hu.
  destruct (24 <=? mask) eqn:E24; hp_bool; eexists; (split; [done|]); intros ip Hip.
  - rewrite land_mask, Z.shiftl_1_l by (done || lia).
    rewrite (blocks_is_blocked _ _ ip (blocks_add_range _ _ _ _ Hb) Hip).
    apply eq_true_iff_eq.
    rewrite bool_decide_eq_true, orb_true_iff, bool_decide_eq_true, Z.eqb_eq, elem_of_union.
    rewrite range_set_block by (done || lia). tauto.
  - rewrite (blocks_is_blocked _ _ ip (blocks_add_ip _ _ _ Hu Hb) Hip).
    apply eq_true_iff_eq.
    rewrite bool_decide_eq_true, orb_true_iff, bool_decide_eq_true, Z.eqb_eq. set_solver.
Qed.

Lemma load_lines_throws lines1 line lines2 e :
  (forall f, load_line inet_pton f line = inl e) ->
  forall f, exists e', load_lines inet_pton f (lines1 ++ line :: lines2) = inl e'.
Proof.
  intros Hl. induction lines1 as [|l ls IH]; intros f; simpl.
  - rewrite Hl. eauto.
  - destruct (load_line inet_pton f l); [eauto|apply IH].
Qed.

Lemma load_line_bad_mask line slash e c :
  find_char "/" line = Some slash -> head line = Some c -> c <> "#"%char ->
  stoi (drop (slash + 1) line) = inl e ->
  forall f, load_line inet_pton f line = inl e.
Proof.
  intros Hs Hh Hc He f. destruct line as [|c' line]; [done|]. injection Hh as ->.
  unfold load_line. rewrite decide_False by done. unfold add_cidr. by rewrite Hs, He.
Qed.

End laws.

(** C16: after any sequence of [add_ip] calls on a fresh filter of positive
    Bloom size, an address is blocked exactly when it was added: the Bloom
    filter in front never hides an added address, and the trie behind it
    removes every false positive. *)
Theorem ip_filter_exact n ips ip :
  (0 < n)%nat -> Forall is_u32 ips -> is_u32 ip ->
  is_blocked (foldl add_ip (ip_filter_new n) ips) ip = bool_decide (ip ∈ ips).
Proof.
  intros Hn Hips Hip.
  rewrite (blocks_is_blocked _ _ ip (blocks_adds n ips Hn Hips) Hip).
  apply bool_decide_ext. set_solver.
Qed.

Lemma ip_filter_exact_witness :
  is_blocked (foldl add_ip (ip_filter_new 1024) [0x7F000001; 0x0A000001]) 0x0A000001 = true.
Proof.
  rewrite (ip_filter_exact 1024 [0x7F000001; 0x0A000001] 0x0A000001).
  - reflexivity.
  - lia.
  - repeat constructor; lia.
  - unfold is_u32; lia.
Defined.

(** C17: loading a CIDR entry "address/mask".  For a mask from 24 to 32 the
    newly blocked addresses are exactly those sharing the first [mask] bits
    with the address; for a mask from 1 to 23 only the single address written
    in the entry becomes blocked, not the range. *)
Theorem add_cidr_exact (inet_pton : bytes -> option Z) n ips ip_text mask addr ip :
  (0 < n)%nat -> Forall is_u32 ips -> is_u32 ip ->
  "/"%char ∉ ip_text -> inet_pton (c_str ip_text) = Some addr -> 1 <= mask <= 32 ->
  let f := foldl add_ip (ip_filter_new n) ips in
  exists f', add_cidr inet_pton f (ip_text ++ bs "/" ++ to_string mask) = inr f' /\
    is_blocked f' ip =
      bool_decide (ip ∈ ips) ||
      (if 24 <=? mask then ip / 2 ^ (32 - mask) =? ntohl addr / 2 ^ (32 - mask)
       else ip =? ntohl addr).
Proof.
  intros Hn Hips Hip Hs Haddr Hmask f.
  pose proof (blocks_adds n ips Hn Hips : blocks f (list_to_set ips)) as Hb.
  destruct (add_cidr_mask inet_pton f _ (ip_text ++ bs "/" ++ to_string mask) mask ip_text
              Hb) with (n := addr) as (f' & Hf' & Hall); try done.
  - by apply find_char_app.
  - by rewrite take_app_length.
  - rewrite drop_app_add. simpl. unfold stoi. 
    rewrite <- (app_nil_r (to_string mask)).
    apply sto_signed_to_string; [lia|done|unfold INT_MIN, INT_MAX; lia].
  - exists f'. split; [done|]. rewrite (Hall ip Hip). f_equal. apply bool_decide_ext. set_solver.
Qed.

(** A concrete address parser for the witnesses: it knows two texts. *)
Definition demo_pton (s : bytes) : option Z :=
  if decide (s = bs "192.168.1.0") then Some 0x0001A8C0
  else if decide (s = bs "10.0.0.0") then Some 0x0000000A else None.

Lemma add_cidr_exact_witness :
  exists f', add_cidr demo_pton (foldl add_ip (ip_filter_new 64) [])
               (bs "192.168.1.0" ++ bs "/" ++ to_string 24) = inr f' /\
    is_blocked f' 0xC0A80164 = true.
Proof.
  destruct (add_cidr_exact demo_pton 64 [] (bs "192.168.1.0") 24 0x0001A8C0 0xC0A80164)
    as (f' & H1 & H2).
  - lia.
  - constructor.
  - unfold is_u32; lia.
  - apply (bool_decide_unpack _). vm_compute. exact I.
  - reflexivity.
  - lia.
  - exists f'. split; [exact H1|]. rewrite H2. reflexivity.
Defined.

(** One line of the list file with a '/' whose mask does not scan as an
    [int] (no digits, or out of range) makes [init] end with an uncaught
    [std::invalid_argument] or [std::out_of_range], whatever the other lines
    are: the list is not loaded past that line and no filter is returned. *)
Theorem init_bad_mask_throws (inet_pton : bytes -> option Z) open_file f path
    lines1 line lines2 slash e c :
  path <> [] -> open_file path = Some (lines1 ++ line :: lines2) ->
  find_char "/" line = Some slash -> head line = Some c -> c <> "#"%char ->
  stoi (drop (slash + 1) line) = inl e ->
  exists e', ip_filter_init inet_pton open_file f path = inl e'.
Proof.
  intros Hp Ho Hs Hh Hc He. unfold ip_filter_init. destruct path as [|p path]; [done|].
  rewrite Ho. by apply load_lines_throws with e, load_line_bad_mask with slash c.
Qed.

Lemma init_bad_mask_throws_witness :
  exists e', ip_filter_init demo_pton (fun _ => Some [bs "# list"; bs "10.0.0.0/"])
               (ip_filter_new 1024) (bs "/config/blocked_ips.txt") = inl e'.
Proof.
  apply (init_bad_mask_throws demo_pton _ _ _ [bs "# list"] (bs "10.0.0.0/") [] 8
           invalid_argument "1").
  - discriminate.
  - reflexivity.
  - reflexivity.
  - reflexivity.
  - discriminate.
  - reflexivity.
Defined.
