(* ===== verification/MemoryCache.v ===== *)
(** * MemoryCache: [memory_cache<Key, Value>] of src/src/util/memory_cache.h

    An LRU cache: a [std::list] of nodes in recency order and an
    [unordered_map] from keys to list iterators, with an entry bound and a
    weight bound.  Iterators are modelled by node identities, so that [splice],
    [erase] and the in-place update go through the iterator stored in the map,
    as in the source; weights are [size_t] sums modulo 2^64.

    The specification is a plain recency list of pairs; the refinement theorem
    runs any trace of operations on both. *)

From S2P Require Import Prelude.

Local Open Scope Z_scope.

Section cache.
Context {K V : Type} `{Countable K}.

(* src/src/util/memory_cache.h:158-162 memory_cache::node *)
Record node := mk_node { key : K; value : V; weight : Z }.

(** A list iterator is the identity of the node it points to. *)
Abbreviation iter := nat.

(* src/src/util/memory_cache.h:164-171 memory_cache *)
Record memory_cache := mk_cache {
  max_entries_ : Z;
  max_bytes_ : Z;
  weight_fn_ : V -> Z;
  lru_list_ : list (iter * node);
  map_ : gmap K iter;
  total_weight_ : Z;
  next_iter : iter;  (** allocation of list nodes *)
}.

(* src/src/util/memory_cache.h:57-66 memory_cache::memory_cache *)
Definition cache_new (max_entries max_bytes : Z) (weight_fn : V -> Z) : memory_cache :=
  mk_cache max_entries max_bytes weight_fn [] ∅ 0 0.

(** [size] is the value type's [size()], if it has one that converts to
    [size_t]; [sizeof_T] is the size of the type. *)
(* src/src/util/memory_cache.h:24-35 default_weight_fn *)
Definition default_weight_fn (size : option (V -> Z)) (sizeof_T : Z) (v : V) : Z :=
  match size with Some size => size v | None => sizeof_T end.

(** The constructor without a weight function. *)
(* src/src/util/memory_cache.h:57-59 memory_cache::memory_cache *)
Definition cache_default (size : option (V -> Z)) (sizeof_T max_entries max_bytes : Z) : memory_cache :=
  cache_new max_entries max_bytes (default_weight_fn size sizeof_T).

(** ** [std::list] through iterators

    [deref] of a dangling iterator is undefined in C++; here it is [None] and
    the operations below then leave the list alone.  [cache_ok] excludes it. *)

Fixpoint deref (it : iter) (l : list (iter * node)) : option node :=
  match l with
  | [] => None
  | (a, n) :: l' => if decide (a = it) then Some n else deref it l'
  end.

Definition erase_it (it : iter) (l : list (iter * node)) : list (iter * node) :=
  filter (fun p => p.1 <> it) l.

(** [lru_list_.splice(lru_list_.begin(), lru_list_, it)]. *)
Definition splice_front (it : iter) (l : list (iter * node)) : list (iter * node) :=
  match deref it l with
  | Some n => (it, n) :: erase_it it l
  | None => l
  end.

(** Assignment to the node behind an iterator. *)
Definition set_node (it : iter) (n : node) (l : list (iter * node)) : list (iter * node) :=
  (fun p => if decide (p.1 = it) then (it, n) else p) <$> l.

Definition with_list (c : memory_cache) (l : list (iter * node)) : memory_cache :=
  mk_cache (max_entries_ c) (max_bytes_ c) (weight_fn_ c) l (map_ c)
           (total_weight_ c) (next_iter c).

(** ** Operations *)

(* src/src/util/memory_cache.h:81-88 memory_cache::get *)
Definition cache_get (c : memory_cache) (k : K) : option V * memory_cache :=
  match map_ c !! k with
  | None => (None, c)
  | Some it =>
      let c' := with_list c (splice_front it (lru_list_ c)) in
      (value <$> deref it (lru_list_ c'), c')
  end.

(** The callback runs on caller state [S]. *)
(* src/src/util/memory_cache.h:99-109 memory_cache::with_value *)
Definition with_value {S} (c : memory_cache) (k : K) (fn : V -> S -> S) (s : S)
  : bool * memory_cache * S :=
  match map_ c !! k with
  | None => (false, c, s)
  | Some it =>
      let c' := with_list c (splice_front it (lru_list_ c)) in
      match deref it (lru_list_ c') with
      | Some n => (true, c', fn (value n) s)
      | None => (true, c', s)
      end
  end.

(** One iteration of the eviction loop: drop the least recently used node. *)
(* src/src/util/memory_cache.h:197-200 memory_cache::evict_if_needed *)
Definition evict_one (c : memory_cache) : memory_cache :=
  match last (lru_list_ c) with
  | None => c
  | Some (_, back) =>
      mk_cache (max_entries_ c) (max_bytes_ c) (weight_fn_ c)
        (removelast (lru_list_ c)) (delete (key back) (map_ c))
        (u64 (total_weight_ c - weight back)) (next_iter c)
  end.

(* src/src/util/memory_cache.h:195-196 memory_cache::evict_if_needed *)
Definition needs_evict (c : memory_cache) : bool :=
  negb (bool_decide (lru_list_ c = [] :> list (iter * node))) &&
  ((max_entries_ c <? Z.of_nat (size (map_ c))) || (max_bytes_ c <? total_weight_ c)).

(** The [while] loop; every iteration pops a node, so the list's length is
    enough fuel (lemma [evict_if_needed_done]). *)
(* src/src/util/memory_cache.h:194-202 memory_cache::evict_if_needed *)
Fixpoint evict_loop (fuel : nat) (c : memory_cache) : memory_cache :=
  match fuel with
  | O => c
  | S f => if needs_evict c then evict_loop f (evict_one c) else c
  end.

(* src/src/util/memory_cache.h:194-202 memory_cache::evict_if_needed *)
Definition evict_if_needed (c : memory_cache) : memory_cache :=
  evict_loop (length (lru_list_ c)) c.

(* src/src/util/memory_cache.h:173-192 memory_cache::do_put *)
Definition do_put (c : memory_cache) (k : K) (v : V) : memory_cache :=
  let new_weight := weight_fn_ c v in
  match map_ c !! k with
  | Some it =>
      match deref it (lru_list_ c) with
      | Some n =>
          let n' := mk_node (key n) v new_weight in
          let total := u64 (u64 (total_weight_ c - weight n) + new_weight) in
          evict_if_needed
            (mk_cache (max_entries_ c) (max_bytes_ c) (weight_fn_ c)
               (splice_front it (set_node it n' (lru_list_ c)))
               (map_ c) total (next_iter c))
      | None => c
      end
  | None =>
      evict_if_needed
        (mk_cache (max_entries_ c) (max_bytes_ c) (weight_fn_ c)
           ((next_iter c, mk_node k v new_weight) :: lru_list_ c)
           (<[k := next_iter c]> (map_ c))
           (u64 (total_weight_ c + new_weight)) (S (next_iter c)))
  end.

(* src/src/util/memory_cache.h:112-127 memory_cache::put *)
Definition cache_put (c : memory_cache) (k : K) (v : V) : memory_cache :=
  if (max_entries_ c =? 0) || (max_bytes_ c =? 0) then c else do_put c k v.

(* src/src/util/memory_cache.h:130-139 memory_cache::erase *)
Definition cache_erase (c : memory_cache) (k : K) : bool * memory_cache :=
  match map_ c !! k with
  | None => (false, c)
  | Some it =>
      match deref it (lru_list_ c) with
      | Some n =>
          (true, mk_cache (max_entries_ c) (max_bytes_ c) (weight_fn_ c)
                   (erase_it it (lru_list_ c)) (delete k (map_ c))
                   (u64 (total_weight_ c - weight n)) (next_iter c))
      | None => (true, c)
      end
  end.

(* src/src/util/memory_cache.h:142-146 memory_cache::clear *)
Definition cache_clear (c : memory_cache) : memory_cache :=
  mk_cache (max_entries_ c) (max_bytes_ c) (weight_fn_ c) [] ∅ 0 (next_iter c).

(* src/src/util/memory_cache.h:148-148 memory_cache::size *)
Definition cache_size (c : memory_cache) : Z := Z.of_nat (size (map_ c)).

(* src/src/util/memory_cache.h:149-155 memory_cache *)
Definition cache_limits (c : memory_cache) : Z * Z * Z := (total_weight_ c, max_entries_ c, max_bytes_ c).

(** ** Specification: a recency list *)

Record lru_config := mk_config { cfg_entries : Z; cfg_bytes : Z; cfg_weight : V -> Z }.

(** The longest prefix within the remaining budgets. *)
Fixpoint keep_fitting {A} (wt : A -> Z) (entries budget : Z) (l : list A) : list A :=
  match l with
  | [] => []
  | x :: l' =>
      if (1 <=? entries) && (wt x <=? budget)
      then x :: keep_fitting wt (entries - 1) (budget - wt x) l'
      else []
  end.

Definition spec_find (k : K) (l : list (K * V)) : option V :=
  snd <$> (list_find (fun p => p.1 = k) l ≫= fun ip => Some ip.2).

Definition spec_without (k : K) (l : list (K * V)) : list (K * V) :=
  filter (fun p => p.1 <> k) l.

Definition spec_touch (k : K) (l : list (K * V)) : list (K * V) :=
  match spec_find k l with
  | Some v => (k, v) :: spec_without k l
  | None => l
  end.

Definition spec_put (cfg : lru_config) (k : K) (v : V) (l : list (K * V)) : list (K * V) :=
  if (cfg_entries cfg =? 0) || (cfg_bytes cfg =? 0) then l
  else keep_fitting (fun p => cfg_weight cfg p.2) (cfg_entries cfg) (cfg_bytes cfg)
         ((k, v) :: spec_without k l).

(** ** Invariant and abstraction *)

Definition sum_weights (l : list (iter * node)) : Z :=
  foldr (fun p acc => weight p.2 + acc) 0 l.
Arguments sum_weights : simpl never.

Definition entries (c : memory_cache) : list (K * V) :=
  (fun p => (key p.2, value p.2)) <$> lru_list_ c.

Definition config_of (c : memory_cache) : lru_config :=
  mk_config (max_entries_ c) (max_bytes_ c) (weight_fn_ c).

Definition config_ok (cfg : lru_config) : Prop :=
  0 <= cfg_entries cfg /\ 0 <= cfg_bytes cfg /\ forall v, 0 <= cfg_weight cfg v.

(** A value whose weight cannot push the running total past [size_t]. *)
Definition fits (cfg : lru_config) (v : V) : Prop :=
  cfg_weight cfg v + cfg_bytes cfg < 2 ^ 64.

(** What holds at every point of every operation. *)
Record cache_core (c : memory_cache) : Prop := {
  core_iters : NoDup (lru_list_ c).*1;
  core_keys : NoDup ((fun p => key p.2) <$> lru_list_ c);
  core_fresh : forall a n, (a, n) ∈ lru_list_ c -> (a < next_iter c)%nat;
  core_map : forall k a, map_ c !! k = Some a <->
               exists n, (a, n) ∈ lru_list_ c /\ key n = k;
  core_weight : forall a n, (a, n) ∈ lru_list_ c -> weight n = weight_fn_ c (value n);
  core_total : total_weight_ c = sum_weights (lru_list_ c);
  core_bound : sum_weights (lru_list_ c) < 2 ^ 64;
}.

(** What holds between operations: the bounds too. *)
Definition cache_ok (c : memory_cache) : Prop :=
  cache_core c /\
  Z.of_nat (length (lru_list_ c)) <= max_entries_ c /\
  total_weight_ c <= max_bytes_ c.

(** ** Traces *)

Inductive cache_op := OpGet (k : K) | OpPut (k : K) (v : V) | OpErase (k : K) | OpClear.

Inductive cache_out := OutValue (v : option V) | OutBool (b : bool) | OutUnit.

Definition cache_step (c : memory_cache) (o : cache_op) : cache_out * memory_cache :=
  match o with
  | OpGet k => let '(v, c') := cache_get c k in (OutValue v, c')
  | OpPut k v => (OutUnit, cache_put c k v)
  | OpErase k => let '(b, c') := cache_erase c k in (OutBool b, c')
  | OpClear => (OutUnit, cache_clear c)
  end.

Definition op_fits (cfg : lru_config) (o : cache_op) : Prop :=
  match o with OpPut _ v => fits cfg v | _ => True end.

Definition spec_step (cfg : lru_config) (l : list (K * V)) (o : cache_op)
  : cache_out * list (K * V) :=
  match o with
  | OpGet k => (OutValue (spec_find k l), spec_touch k l)
  | OpPut k v => (OutUnit, spec_put cfg k v l)
  | OpErase k => (OutBool (bool_decide (is_Some (spec_find k l))), spec_without k l)
  | OpClear => (OutUnit, [])
  end.

Fixpoint run {St} (step : St -> cache_op -> cache_out * St) (s : St) (ops : list cache_op)
  : list cache_out * St :=
  match ops with
  | [] => ([], s)
  | o :: ops' =>
      let '(x, s1) := step s o in
      let '(xs, s2) := run step s1 ops' in (x :: xs, s2)
  end.

(** ** Lemmas on the list and its iterators *)

Lemma deref_Some_elem it l n : deref it l = Some n -> (it, n) ∈ l.
Proof.
  induction l as [|[a m] l IH]; simpl; [done|].
  case_decide; intros; simplify_eq; [left|right; auto].
Qed.

Lemma deref_elem it n l : NoDup l.*1 -> (it, n) ∈ l -> deref it l = Some n.
Proof.
  induction l as [|[a m] l IH]; simpl; intros Hnd Hin; [by apply elem_of_nil in Hin|].
  apply NoDup_cons in Hnd as [Ha Hnd]. apply elem_of_cons in Hin as [?|Hin]; simplify_eq.
  - by rewrite decide_True.
  - case_decide; simplify_eq; [|by apply IH].
    destruct Ha. apply list_elem_of_fmap. by exists (it, n).
Qed.

Lemma erase_it_perm it n l :
  NoDup l.*1 -> (it, n) ∈ l -> l ≡ₚ (it, n) :: erase_it it l.
Proof.
  induction l as [|[a m] l IH]; simpl; intros Hnd Hin; [by apply elem_of_nil in Hin|].
  apply NoDup_cons in Hnd as [Ha Hnd]. unfold erase_it. rewrite filter_cons; simpl.
  apply elem_of_cons in Hin as [?|Hin]; simplify_eq.
  - rewrite decide_False by naive_solver. f_equiv.
    rewrite filter_all; [done|]. apply Forall_forall. intros [b p] Hp Heq. simpl in *.
    destruct Ha. apply list_elem_of_fmap. exists (b, p). by subst.
  - rewrite decide_True.
    + rewrite (IH Hnd Hin) at 1. apply Permutation_swap.
    + intros ->. destruct Ha. apply list_elem_of_fmap. by exists (it, n).
Qed.

Lemma splice_front_perm it n l :
  NoDup l.*1 -> (it, n) ∈ l -> splice_front it l ≡ₚ l.
Proof.
  intros Hnd Hin. unfold splice_front. rewrite (deref_elem it n) by done.
  symmetry. by apply erase_it_perm.
Qed.

(** Among nodes with distinct keys, dropping an iterator is dropping its key. *)
Lemma erase_it_without it n l :
  NoDup l.*1 -> NoDup ((fun p => key p.2) <$> l) -> (it, n) ∈ l ->
  (fun p => (key p.2, value p.2)) <$> erase_it it l =
  spec_without (key n) ((fun p => (key p.2, value p.2)) <$> l).
Proof.
  intros Hi Hk Hin. unfold spec_without, erase_it. rewrite filter_fmap. f_equal.
  apply filter_ext_elem. intros [a m] Ham. simpl. split; intros Hne Heq.
  - destruct Hne. apply list_elem_of_lookup in Hin as [i Hin], Ham as [j Ham].
    assert (i = j) as ->; [|naive_solver].
    eapply (NoDup_lookup _ _ _ (key n) Hk).
    + by rewrite list_lookup_fmap, Hin.
    + by rewrite list_lookup_fmap, Ham, <- Heq.
  - destruct Hne. subst. pose proof (deref_elem _ _ _ Hi Hin). pose proof (deref_elem _ _ _ Hi Ham).
    by simplify_eq.
Qed.

#[local] Instance sum_weights_proper : Proper ((≡ₚ) ==> (=)) sum_weights.
Proof.
  intros l1 l2 Hp. unfold sum_weights. induction Hp; simpl; lia.
Qed.

Lemma sum_weights_app l1 l2 : sum_weights (l1 ++ l2) = sum_weights l1 + sum_weights l2.
Proof. induction l1 as [|p l IH]; simpl; [done|]. unfold sum_weights in *; simpl. lia. Qed.

Lemma sum_weights_cons p l : sum_weights (p :: l) = weight p.2 + sum_weights l.
Proof. done. Qed.

(** ** Lemmas on the specification *)

Lemma spec_find_fmap k l :
  spec_find k ((fun p : iter * node => (key p.2, value p.2)) <$> l) =
    (fun p => value p.2) <$> (list_find (fun p => key p.2 = k) l ≫= fun ip => Some ip.2).
Proof.
  unfold spec_find. induction l as [|p l IH]; [done|]. rewrite fmap_cons. simpl.
  case_decide; [done|].
  destruct (list_find _ (_ <$> l)), (list_find _ l); naive_solver.
Qed.

Lemma keep_fitting_all {A} (wt : A -> Z) e b (l : list A) :
  (forall x, 0 <= wt x) -> Z.of_nat (length l) <= e -> foldr (fun x a => wt x + a) 0 l <= b ->
  keep_fitting wt e b l = l.
Proof.
  intros Hwt. assert (forall l' : list A, 0 <= foldr (fun x a => wt x + a) 0 l') as Hs.
  { induction l' as [|x l' IH']; simpl; [lia|]. specialize (Hwt x). lia. }
  revert e b. induction l as [|x l IH]; simpl; intros e b He Hb; [done|].
  specialize (Hs l). replace (_ && _) with true; [f_equal; apply IH; lia|].
  symmetry. apply andb_true_iff; split; apply Z.leb_le; lia.
Qed.

Lemma keep_fitting_snoc {A} (wt : A -> Z) e b (l : list A) x :
  (forall y, 0 <= wt y) ->
  e < Z.of_nat (length (l ++ [x])) \/ b < foldr (fun y a => wt y + a) 0 (l ++ [x]) ->
  keep_fitting wt e b (l ++ [x]) = keep_fitting wt e b l.
Proof.
  intros Hwt. revert e b. induction l as [|y l IH]; simpl; intros e b Hun.
  - replace (_ && _) with false; [done|]. symmetry. apply andb_false_iff.
    destruct Hun; [left|right]; apply Z.leb_gt; lia.
  - destruct (_ && _) eqn:E; [|done]. f_equal. apply IH. destruct Hun; [left|right]; lia.
Qed.

Lemma keep_fitting_prefix {A} (wt : A -> Z) e b (l : list A) :
  keep_fitting wt e b l `prefix_of` l.
Proof.
  revert e b. induction l as [|x l IH]; simpl; intros e b; [done|].
  case_match; [by apply prefix_cons|apply prefix_nil].
Qed.

Lemma keep_fitting_fmap {A B} (f : A -> B) (wt : B -> Z) e b (l : list A) :
  keep_fitting wt e b (f <$> l) = f <$> keep_fitting (fun x => wt (f x)) e b l.
Proof.
  revert e b. induction l as [|x l IH]; simpl; intros e b; [done|].
  case_match; [|done]. by rewrite IH.
Qed.

(** ** The core invariant *)

(** Only the order of the recency list may change. *)
Lemma cache_core_perm c l :
  cache_core c -> l ≡ₚ lru_list_ c -> cache_core (with_list c l).
Proof.
  intros [H1 H2 H3 H4 H5 H6 H7] Hp. constructor; simpl.
  - by rewrite Hp.
  - by rewrite Hp.
  - intros a n. rewrite Hp. apply H3.
  - intros k a. rewrite H4. by setoid_rewrite Hp.
  - intros a n. rewrite Hp. apply H5.
  - by rewrite Hp.
  - by rewrite Hp.
Qed.

Lemma core_map_size c : cache_core c -> size (map_ c) = length (lru_list_ c).
Proof.
  intros Hc. assert (dom (map_ c) = list_to_set ((fun p => key p.2) <$> lru_list_ c)) as Hd.
  { apply set_eq. intros k. rewrite elem_of_dom, elem_of_list_to_set, list_elem_of_fmap. split.
    - intros [a (n & Hn & <-)%(core_map _ Hc)]. by exists (a, n).
    - intros ([a n] & -> & Hin). exists a. apply (core_map _ Hc). eauto. }
  rewrite <- size_dom, Hd, size_list_to_set by apply (core_keys _ Hc). by rewrite length_fmap.
Qed.

Lemma core_map_None c k :
  cache_core c -> map_ c !! k = None -> forall a n, (a, n) ∈ lru_list_ c -> key n <> k.
Proof.
  intros Hc Hk a n Hin Heq. assert (map_ c !! k = Some a) by (apply (core_map _ Hc); eauto).
  congruence.
Qed.

(** The iterator found in the map is never dangling. *)
Lemma core_deref c k it :
  cache_core c -> map_ c !! k = Some it ->
  exists n, deref it (lru_list_ c) = Some n /\ (it, n) ∈ lru_list_ c /\ key n = k.
Proof.
  intros Hc (n & Hin & Hk)%(core_map _ Hc).
  exists n. split; [|done]. apply deref_elem; [apply Hc|done].
Qed.

Lemma core_find c k :
  cache_core c ->
  spec_find k (entries c) =
    match map_ c !! k with
    | Some it => value <$> deref it (lru_list_ c)
    | None => None
    end.
Proof.
  intros Hc. unfold entries. rewrite spec_find_fmap.
  destruct (list_find (fun p => key p.2 = k) (lru_list_ c)) as [[i [a n]]|] eqn:E.
  - apply list_find_Some in E as (Hi & Hk & _). simpl in Hk.
    apply list_elem_of_lookup_2 in Hi.
    assert (map_ c !! k = Some a) as -> by (apply (core_map _ Hc); eauto).
    rewrite (deref_elem a n) by (done || apply Hc). done.
  - apply list_find_None in E. destruct (map_ c !! k) as [it|] eqn:Em; [|done].
    destruct (core_deref c k it Hc Em) as (n & _ & Hin & Hk).
    rewrite Forall_forall in E. by destruct (E _ Hin).
Qed.

Lemma core_without c k :
  cache_core c ->
  match map_ c !! k with
  | Some it => (fun p => (key p.2, value p.2)) <$> erase_it it (lru_list_ c)
  | None => entries c
  end = spec_without k (entries c).
Proof.
  intros Hc. destruct (map_ c !! k) as [it|] eqn:Em.
  - destruct (core_deref c k it Hc Em) as (n & _ & Hin & <-).
    by apply erase_it_without; [apply Hc..|].
  - unfold spec_without. symmetry. apply filter_all, Forall_forall.
    intros [k' v] ([a n] & ? & Hin)%list_elem_of_fmap. simplify_eq/=.
    by apply (core_map_None c k Hc Em a n).
Qed.

Lemma splice_front_entries c k it n :
  cache_core c -> map_ c !! k = Some it -> deref it (lru_list_ c) = Some n ->
  (fun p => (key p.2, value p.2)) <$> splice_front it (lru_list_ c) =
    (k, value n) :: spec_without k (entries c).
Proof.
  intros Hc Hm Hd. pose proof (core_without c k Hc) as Hw. rewrite Hm in Hw.
  unfold splice_front. rewrite Hd, fmap_cons, Hw. simpl.
  apply deref_Some_elem in Hd as Hin.
  destruct (core_deref c k it Hc Hm) as (n' & Hd' & _ & <-). by simplify_eq.
Qed.

(** ** Eviction *)

Lemma sum_weights_nonneg wf l :
  (forall v, 0 <= wf v) -> (forall a n, (a, n) ∈ l -> weight n = wf (value n)) ->
  0 <= sum_weights l.
Proof.
  intros Hw. induction l as [|[a n] l IH]; intros Hl; [done|].
  rewrite sum_weights_cons. specialize (Hl a n ltac:(set_solver)) as Hn. simpl.
  specialize (Hw (value n)). specialize (IH ltac:(set_solver)). lia.
Qed.

Lemma evict_one_core c p l :
  cache_core c -> lru_list_ c = l ++ [p] -> (forall v, 0 <= weight_fn_ c v) ->
  cache_core (evict_one c) /\ lru_list_ (evict_one c) = l.
Proof.
  intros [H1 H2 H3 H4 H5 H6 H7] Hl Hw. destruct p as [a n].
  unfold evict_one. rewrite Hl, last_snoc, removelast_last. simpl. split; [|done].
  rewrite Hl in H1, H2, H3, H4, H5, H6, H7. rewrite sum_weights_app in H6, H7.
  rewrite fmap_app in H1. rewrite fmap_app in H2.
  apply NoDup_app in H1 as (H1a & H1b & H1c). apply NoDup_app in H2 as (H2a & H2b & H2c).
  change (sum_weights [(a, n)]) with (weight n + 0) in *.
  pose proof (sum_weights_nonneg (weight_fn_ c) l Hw ltac:(set_solver)) as Hs.
  assert (0 <= weight n) as Hn by (rewrite (H5 a n) by set_solver; apply Hw).
  constructor; simpl; [done|done|set_solver| |set_solver| |lia].
  - intros k b. rewrite lookup_delete_Some, H4. split.
    + intros (Hk & m & Hm & <-). exists m. split; [|done]. set_solver.
    + intros (m & Hm & <-). split; [|set_solver].
      intros Heq. eapply (H2b (key m)); [apply list_elem_of_fmap; by exists (b, m)|].
      rewrite <- Heq. set_solver.
  - rewrite u64_small; lia.
Qed.

Lemma needs_evict_iff c :
  cache_core c ->
  needs_evict c = true <->
  lru_list_ c <> [] /\
  (max_entries_ c < Z.of_nat (length (lru_list_ c)) \/
   max_bytes_ c < sum_weights (lru_list_ c)).
Proof.
  intros Hc. unfold needs_evict.
  rewrite andb_true_iff, negb_true_iff, bool_decide_eq_false, orb_true_iff, !Z.ltb_lt.
  by rewrite (core_map_size c Hc), (core_total c Hc).
Qed.

(** The loop keeps exactly the longest prefix that fits, and stops because no
    more eviction is needed. *)
Lemma evict_loop_spec l c :
  cache_core c -> lru_list_ c = l -> (forall v, 0 <= weight_fn_ c v) ->
  0 <= max_entries_ c -> 0 <= max_bytes_ c ->
  let c' := evict_loop (length l) c in
  cache_core c' /\ needs_evict c' = false /\ config_of c' = config_of c /\
  next_iter c' = next_iter c /\
  lru_list_ c' = keep_fitting (fun p => weight_fn_ c (value p.2))
                   (max_entries_ c) (max_bytes_ c) l.
Proof.
  revert c. induction l as [|p l IH] using rev_ind; intros c Hc Hl Hw He Hb; simpl.
  - split_and!; [done| |done..]. apply not_true_iff_false.
    rewrite needs_evict_iff by done. naive_solver.
  - rewrite length_app, Nat.add_comm. simpl.
    assert (foldr (fun q a => weight_fn_ c (value q.2) + a) 0 (l ++ [p]) =
            sum_weights (l ++ [p])) as Hsum.
    { rewrite <- Hl. pose proof (core_weight _ Hc) as Hwt. clear -Hwt. unfold sum_weights.
      induction (lru_list_ c) as [|[a n] l' IH']; simpl; [done|].
      rewrite IH' by set_solver. by rewrite (Hwt a n) by set_solver. }
    destruct (needs_evict c) eqn:En.
    + apply needs_evict_iff in En as [_ Hun]; [|done]. rewrite Hl in Hun.
      destruct (evict_one_core c p l Hc Hl Hw) as [Hc1 Hl1].
      assert (config_of (evict_one c) = config_of c /\ next_iter (evict_one c) = next_iter c)
        as [Hcfg Hnx].
      { unfold evict_one. rewrite Hl, last_snoc. by destruct p. }
      unfold config_of in Hcfg. injection Hcfg as E1 E2 E3.
      destruct (IH (evict_one c) Hc1 Hl1) as (I1 & I2 & I3 & I4 & I5).
      { by rewrite E3. } { by rewrite E1. } { by rewrite E2. }
      split_and!; [done|done| |congruence|].
      * rewrite I3. unfold config_of. congruence.
      * rewrite I5, E1, E2, E3. symmetry. apply keep_fitting_snoc; [done|].
        rewrite Hsum. done.
    + split_and!; [done..|]. rewrite Hl. symmetry. apply keep_fitting_all; [done| |].
      * apply not_true_iff_false in En. rewrite needs_evict_iff, Hl in En by done.
        apply Z.nlt_ge. intros Hlt. apply En. split; [by destruct l|by left].
      * rewrite Hsum. apply not_true_iff_false in En.
        rewrite needs_evict_iff, Hl in En by done.
        apply Z.nlt_ge. intros Hlt. apply En. split; [by destruct l|by right].
Qed.

(** The fuel of [evict_if_needed] is enough: the loop condition is false at
    the end, and the result satisfies the bounds. *)
Lemma evict_if_needed_spec c :
  cache_core c -> config_ok (config_of c) ->
  cache_ok (evict_if_needed c) /\ config_of (evict_if_needed c) = config_of c /\
  entries (evict_if_needed c) =
    keep_fitting (fun p => weight_fn_ c p.2) (max_entries_ c) (max_bytes_ c) (entries c).
Proof.
  intros Hc (He & Hb & Hw). simpl in *.
  destruct (evict_loop_spec (lru_list_ c) c Hc eq_refl) as (I1 & I2 & I3 & _ & I5);
    [intros v; apply Hw|done|done|].
  fold (evict_if_needed c) in *. split_and!; [|done|].
  - pose proof I3 as Hcfg. unfold config_of in Hcfg. injection Hcfg as E1 E2 E3.
    split; [done|]. rewrite (core_total _ I1), E1, E2.
    apply not_true_iff_false in I2. rewrite needs_evict_iff, E1, E2 in I2 by done.
    destruct (decide (lru_list_ (evict_if_needed c) = [])) as [Hn|Hn].
    { rewrite Hn. unfold sum_weights. simpl. lia. }
    assert (forall P : Prop, ~ (lru_list_ (evict_if_needed c) <> [] /\ P) -> ~ P) as Hnot by tauto.
    apply Hnot in I2. lia.
  - unfold entries. by rewrite I5, keep_fitting_fmap.
Qed.

(** ** Each operation simulates its specification *)

Lemma cache_get_ok c k :
  cache_ok c ->
  let '(v, c') := cache_get c k in
  v = spec_find k (entries c) /\ cache_ok c' /\ config_of c' = config_of c /\
  entries c' = spec_touch k (entries c).
Proof.
  intros [Hc Hbd]. unfold cache_get, spec_touch. rewrite (core_find c k Hc).
  destruct (map_ c !! k) as [it|] eqn:Hm; [|done].
  destruct (core_deref c k it Hc Hm) as (n & Hd & Hin & Hk).
  pose proof (splice_front_perm it n _ (core_iters _ Hc) Hin) as Hp.
  rewrite Hd. simpl. split_and!; [|split|done|].
  - rewrite (deref_elem it n); [done|by rewrite Hp; apply Hc|by rewrite Hp].
  - by apply cache_core_perm.
  - simpl. by rewrite Hp.
  - by apply splice_front_entries.
Qed.

Lemma deref_set_node it n l : is_Some (deref it l) -> deref it (set_node it n l) = Some n.
Proof.
  intros [m Hm]. induction l as [|[a p] l IH]; simpl in *; [done|].
  case_decide; simplify_eq/=; [by rewrite decide_True|]. rewrite decide_False; auto.
Qed.

Lemma erase_set_node it n l : erase_it it (set_node it n l) = erase_it it l.
Proof.
  unfold erase_it, set_node. induction l as [|[a p] l IH]; [done|].
  rewrite fmap_cons, !filter_cons, IH. simpl. destruct (decide (a = it)) as [->|]; simpl.
  - by rewrite !decide_False by naive_solver.
  - by rewrite !decide_True by done.
Qed.

(** Replacing the value behind the iterator, with the total adjusted. *)
Lemma update_core c k it n v :
  cache_core c -> map_ c !! k = Some it -> deref it (lru_list_ c) = Some n ->
  total_weight_ c <= max_bytes_ c -> config_ok (config_of c) -> fits (config_of c) v ->
  cache_core (mk_cache (max_entries_ c) (max_bytes_ c) (weight_fn_ c)
    ((it, mk_node (key n) v (weight_fn_ c v)) :: erase_it it (lru_list_ c)) (map_ c)
    (u64 (u64 (total_weight_ c - weight n) + weight_fn_ c v)) (next_iter c)).
Proof.
  intros Hc Hm Hd Hbd (_ & _ & Hw) Hfit. unfold fits in Hfit. simpl in *.
  pose proof (deref_Some_elem _ _ _ Hd) as Hin.
  pose proof (erase_it_perm it n _ (core_iters _ Hc) Hin) as Hp.
  destruct Hc as [H1 H2 H3 H4 H5 H6 H7]. rewrite Hp in H1, H2. simpl in H1, H2.
  assert (forall a m, (a, m) ∈ lru_list_ c <-> (a, m) = (it, n) \/ (a, m) ∈ erase_it it (lru_list_ c))
    as Hel by (intros a m; rewrite Hp at 1; apply elem_of_cons).
  assert (sum_weights (lru_list_ c) = weight n + sum_weights (erase_it it (lru_list_ c))) as Hs
    by (by rewrite Hp at 1).
  assert (0 <= sum_weights (erase_it it (lru_list_ c))) as Hs0.
  { apply (sum_weights_nonneg (weight_fn_ c)); [intros; apply Hw|].
    intros a m Ham. apply (H5 a), Hel. by right. }
  pose proof (Hw v). pose proof (Hw (value n)). rewrite <- (H5 it n Hin) in *.
  constructor; simpl; [done|done| | | | |].
  - intros a m Ham. apply elem_of_cons in Ham as [?|?]; simplify_eq.
    + by apply (H3 it n).
    + eapply H3, Hel. by right.
  - intros k' a. rewrite H4. setoid_rewrite Hel. setoid_rewrite elem_of_cons.
    naive_solver.
  - intros a m Ham. apply elem_of_cons in Ham as [?|?]; simplify_eq/=; [done|].
    apply (H5 a), Hel. by right.
  - rewrite sum_weights_cons, u64_add_l. simpl. rewrite u64_small; lia.
  - rewrite sum_weights_cons. simpl. lia.
Qed.

Lemma insert_core c k v :
  cache_core c -> map_ c !! k = None ->
  total_weight_ c <= max_bytes_ c -> config_ok (config_of c) -> fits (config_of c) v ->
  cache_core (mk_cache (max_entries_ c) (max_bytes_ c) (weight_fn_ c)
    ((next_iter c, mk_node k v (weight_fn_ c v)) :: lru_list_ c)
    (<[k := next_iter c]> (map_ c))
    (u64 (total_weight_ c + weight_fn_ c v)) (S (next_iter c))).
Proof.
  intros Hc Hm Hbd (_ & _ & Hw) Hfit. unfold fits in Hfit. simpl in *.
  pose proof (core_map_None c k Hc Hm) as Hk. destruct Hc as [H1 H2 H3 H4 H5 H6 H7].
  pose proof (sum_weights_nonneg (weight_fn_ c) _ Hw H5).
  pose proof (Hw v).
  constructor; simpl.
  - apply NoDup_cons. split; [|done]. intros ([a n] & Ha & Hin)%list_elem_of_fmap.
    simpl in Ha. pose proof (H3 a n Hin). lia.
  - apply NoDup_cons. split; [|done]. intros ([a n] & Ha & Hin)%list_elem_of_fmap.
    by apply (Hk a n Hin).
  - intros a n Ham. apply elem_of_cons in Ham as [?|Hin]; simplify_eq; [lia|].
    pose proof (H3 a n Hin). lia.
  - intros k' a. rewrite lookup_insert_Some, H4. setoid_rewrite elem_of_cons. split.
    + intros [[-> <-]|[Hne (n & Hn & <-)]]; [|by eauto].
      eexists. split; [by left|done].
    + intros (n & [?|Hn] & <-); simplify_eq/=; [by left|]. right.
      split; [|by eauto]. intros ->. by apply (Hk a n Hn).
  - intros a n Ham. apply elem_of_cons in Ham as [?|?]; simplify_eq/=; [done|]. by apply (H5 a).
  - rewrite sum_weights_cons. simpl. rewrite u64_small; lia.
  - rewrite sum_weights_cons. simpl. lia.
Qed.

Lemma cache_put_ok c k v :
  cache_ok c -> config_ok (config_of c) -> fits (config_of c) v ->
  cache_ok (cache_put c k v) /\ config_of (cache_put c k v) = config_of c /\
  entries (cache_put c k v) = spec_put (config_of c) k v (entries c).
Proof.
  intros [Hc [Hlen Hbd]] Hcfg Hfit. unfold cache_put, spec_put. simpl.
  destruct ((max_entries_ c =? 0) || (max_bytes_ c =? 0)) eqn:Hz; [done|].
  unfold do_put. pose proof (core_without c k Hc) as Hwo.
  destruct (map_ c !! k) as [it|] eqn:Hm.
  - destruct (core_deref c k it Hc Hm) as (n & Hd & Hin & Hk). rewrite Hd.
    unfold splice_front. rewrite deref_set_node, erase_set_node by (by rewrite Hd).
    pose proof (update_core c k it n v Hc Hm Hd Hbd Hcfg Hfit) as Hc'.
    destruct (evict_if_needed_spec _ Hc' Hcfg) as (R1 & R2 & R3).
    split_and!; [done|done|]. rewrite R3. cbn [max_entries_ max_bytes_ weight_fn_]. f_equal.
    unfold entries at 1. cbn [lru_list_]. rewrite fmap_cons, Hwo. simpl. by rewrite Hk.
  - pose proof (insert_core c k v Hc Hm Hbd Hcfg Hfit) as Hc'.
    destruct (evict_if_needed_spec _ Hc' Hcfg) as (R1 & R2 & R3).
    split_and!; [done|done|]. rewrite R3. cbn [max_entries_ max_bytes_ weight_fn_]. f_equal.
    unfold entries at 1. cbn [lru_list_]. rewrite fmap_cons. fold (entries c). by rewrite <- Hwo.
Qed.

Lemma cache_erase_ok c k :
  cache_ok c -> config_ok (config_of c) ->
  let '(b, c') := cache_erase c k in
  b = bool_decide (is_Some (spec_find k (entries c))) /\ cache_ok c' /\
  config_of c' = config_of c /\ entries c' = spec_without k (entries c).
Proof.
  intros [Hc [Hlen Hbd]] (He & Hb & Hw). unfold cache_erase. simpl in *.
  pose proof (core_without c k Hc) as Hwo. rewrite (core_find c k Hc).
  destruct (map_ c !! k) as [it|] eqn:Hm; [|done].
  destruct (core_deref c k it Hc Hm) as (n & Hd & Hin & Hk). rewrite Hd. simpl.
  pose proof (erase_it_perm it n _ (core_iters _ Hc) Hin) as Hp.
  split_and!; [done| |done|done]. destruct Hc as [H1 H2 H3 H4 H5 H6 H7].
  rewrite Hp in H1, H2, Hlen. simpl in H1, H2, Hlen.
  apply NoDup_cons in H1 as [H1a H1b]. apply NoDup_cons in H2 as [H2a H2b].
  assert (forall a m, (a, m) ∈ lru_list_ c <-> (a, m) = (it, n) \/ (a, m) ∈ erase_it it (lru_list_ c))
    as Hel by (intros a m; rewrite Hp at 1; apply elem_of_cons).
  assert (sum_weights (lru_list_ c) = weight n + sum_weights (erase_it it (lru_list_ c))) as Hs
    by (by rewrite Hp at 1).
  pose proof (sum_weights_nonneg (weight_fn_ c) (erase_it it (lru_list_ c))
    Hw ltac:(naive_solver)) as Hs0.
  pose proof (Hw (value n)) as Hwn. rewrite <- (H5 it n Hin) in Hwn.
  split; [constructor|]; simpl; [done|done| | | | | |].
  - intros a m Ham. eapply H3, Hel. by right.
  - intros k' a. rewrite lookup_delete_Some, H4. setoid_rewrite Hel. split.
    + intros (Hne & m & [?|Hm'] & <-); simplify_eq; eauto.
    + intros (m & Hm' & <-). split; [|eauto]. intros Heq. apply H2a.
      apply list_elem_of_fmap. exists (a, m). simpl. split; [congruence|done].
  - intros a m Ham. apply (H5 a), Hel. by right.
  - rewrite u64_small; lia.
  - lia.
  - rewrite u64_small; lia.
Qed.

Lemma cache_clear_ok c :
  config_ok (config_of c) -> cache_ok (cache_clear c) /\ config_of (cache_clear c) = config_of c.
Proof.
  intros (He & Hb & _). simpl in *. split; [|done]. split; [|simpl; lia]. constructor; simpl.
  - apply NoDup_nil_2.
  - apply NoDup_nil_2.
  - intros a n Hin. by apply elem_of_nil in Hin.
  - intros k a. rewrite lookup_empty. split; [done|]. intros (n & Hin & _).
    by apply elem_of_nil in Hin.
  - intros a n Hin. by apply elem_of_nil in Hin.
  - done.
  - unfold sum_weights; simpl; lia.
Qed.

Lemma cache_step_ok c o :
  cache_ok c -> config_ok (config_of c) -> op_fits (config_of c) o ->
  let '(x, c') := cache_step c o in
  cache_ok c' /\ config_of c' = config_of c /\
  spec_step (config_of c) (entries c) o = (x, entries c').
Proof.
  intros Hok Hcfg Hfit. destruct o as [k|k v|k|]; simpl.
  - pose proof (cache_get_ok c k Hok) as Hg. destruct (cache_get c k) as [v c'].
    destruct Hg as (-> & ? & ? & ->). done.
  - destruct (cache_put_ok c k v Hok Hcfg Hfit) as (? & ? & ->). done.
  - pose proof (cache_erase_ok c k Hok Hcfg) as Hg. destruct (cache_erase c k) as [b c'].
    destruct Hg as (-> & ? & ? & ->). done.
  - by destruct (cache_clear_ok c Hcfg).
Qed.

Lemma cache_new_ok cfg :
  config_ok cfg -> cache_ok (cache_new (cfg_entries cfg) (cfg_bytes cfg) (cfg_weight cfg)).
Proof.
  intros Hcfg.
  by apply (cache_clear_ok (cache_new (cfg_entries cfg) (cfg_bytes cfg) (cfg_weight cfg))).
Qed.

Lemma run_ok ops c :
  cache_ok c -> config_ok (config_of c) -> Forall (op_fits (config_of c)) ops ->
  let '(xs, c') := run cache_step c ops in
  cache_ok c' /\ config_of c' = config_of c /\
  run (spec_step (config_of c)) (entries c) ops = (xs, entries c').
Proof.
  revert c. induction ops as [|o ops IH]; intros c Hok Hcfg Hf; simpl; [done|].
  apply Forall_cons in Hf as [Ho Hf]. pose proof (cache_step_ok c o Hok Hcfg Ho) as Hs.
  destruct (cache_step c o) as [x c1]. destruct Hs as (Hok1 & Hcfg1 & ->).
  specialize (IH c1 Hok1). rewrite Hcfg1 in IH. specialize (IH Hcfg Hf).
  destruct (run cache_step c1 ops) as [xs c2]. destruct IH as (? & ? & ->). done.
Qed.

(** [with_value] is [get] with the value handed to the callback. *)
Lemma with_value_get {S} c k (fn : V -> S -> S) s :
  cache_ok c ->
  with_value c k fn s =
    (bool_decide (is_Some (spec_find k (entries c))), (cache_get c k).2,
     match spec_find k (entries c) with Some v => fn v s | None => s end).
Proof.
  intros Hok. pose proof (cache_get_ok c k Hok) as Hg. destruct Hok as [Hc _].
  unfold with_value, cache_get in *. destruct (map_ c !! k) as [it|] eqn:Hm.
  - destruct Hg as (<- & _). destruct (core_deref c k it Hc Hm) as (n & Hd & Hin & _).
    pose proof (splice_front_perm it n _ (core_iters _ Hc) Hin) as Hp. simpl.
    rewrite (deref_elem it n); [done|by rewrite Hp; apply Hc|by rewrite Hp].
  - by destruct Hg as (<- & _).
Qed.

End cache.

Arguments memory_cache : clear implicits.
Arguments memory_cache K V {_ _}.
Arguments node : clear implicits.
Arguments lru_config : clear implicits.
Arguments cache_op : clear implicits.
Arguments cache_out : clear implicits.
#[export] Hint Resolve cache_new_ok : hp.

(** C6: the memory cache refines an LRU recency list.  For every trace of get,
    put, erase and clear on a fresh cache, each answer and the final contents
    (most recent first) are those of the recency list (for values whose weight
    plus the byte budget is below 2^64), in which get moves the
    entry to the front and put keeps the longest prefix within both budgets;
    and the bookkeeping is exact at the end: no dangling iterator, at most
    [max_entries] entries, a total weight of at most [max_bytes] that did not
    wrap around. *)
Theorem cache_refines_lru {K V} `{Countable K} (cfg : lru_config V) (ops : list (cache_op K V)) :
  config_ok cfg -> Forall (op_fits cfg) ops ->
  let '(xs, c) := run cache_step (cache_new (cfg_entries cfg) (cfg_bytes cfg) (cfg_weight cfg)) ops in
  run (spec_step cfg) [] ops = (xs, entries c) /\ cache_ok c /\
  cache_size c <= cfg_entries cfg /\ total_weight_ c <= cfg_bytes cfg /\
  total_weight_ c = sum_weights (lru_list_ c).
Proof.
  intros Hcfg Hfit. set (c0 := cache_new _ _ _).
  assert (config_of c0 = cfg) as Hc0 by (by destruct cfg).
  pose proof (run_ok ops c0 (cache_new_ok cfg Hcfg)) as Hr. rewrite Hc0 in Hr.
  specialize (Hr Hcfg Hfit). destruct (run cache_step c0 ops) as [xs c].
  destruct Hr as (Hok & Hcc & Hrun). pose proof Hok as [Hcore [Hlen Hbd]].
  apply (f_equal cfg_entries) in Hcc as He. apply (f_equal cfg_bytes) in Hcc as Hb. simpl in He, Hb.
  unfold cache_size. rewrite (core_map_size c Hcore).
  split_and!; [done|done|lia|lia|apply Hcore].
Qed.

Definition demo_cfg : lru_config nat := mk_config 2 10 (fun n => Z.of_nat (n mod 8)).

Definition demo_ops : list (cache_op nat nat) :=
  [OpPut 1%nat 3%nat; OpPut 2%nat 4%nat; OpGet 1%nat; OpPut 3%nat 5%nat; OpGet 2%nat].

Lemma cache_refines_lru_witness :
  (let '(xs, c) := run cache_step (cache_new 2 10 (fun n => Z.of_nat (n mod 8))) demo_ops in
   run (spec_step demo_cfg) [] demo_ops = (xs, entries c) /\ cache_ok c /\
   cache_size c <= 2 /\ total_weight_ c <= 10 /\
   total_weight_ c = sum_weights (lru_list_ c)) /\
  (run (spec_step demo_cfg) [] demo_ops).1 =
    [OutUnit; OutUnit; OutValue (Some 3%nat); OutUnit; OutValue None].
Proof.
  split; [|reflexivity]. apply (cache_refines_lru demo_cfg demo_ops).
  - split_and!; simpl; [lia|lia|]. intros v. lia.
  - repeat constructor.
Defined.
