(* ===== verification/CachePointer.v ===== *)
(** * CachePointer: how long a pointer from [memory_cache::get] lives

    [get] answers a pointer into a list node.  Its documentation promises that
    the pointer stays valid until the entry is evicted or erased.  Nodes have
    identities in [MemoryCache], so a pointer is one of them and dereferencing a
    dangling one is [None]; the theorem makes the promise exact. *)

From S2P Require Import Prelude MemoryCache.

Local Open Scope Z_scope.

Section pointer.
Context {K V : Type} `{Countable K}.
Implicit Types (c : memory_cache K V) (k : K) (p : nat).

(** [get]: the pointer it answers, and the cache with the node in front. *)
(* src/src/util/memory_cache.h:81-88 memory_cache::get *)
Definition get_pointer c k : option nat * memory_cache K V :=
  match map_ c !! k with
  | None => (None, c)
  | Some it => (Some it, with_list c (splice_front it (lru_list_ c)))
  end.

(** [*ptr]; [None] is a dangling pointer. *)
Definition read_pointer c p : option V := value <$> deref p (lru_list_ c).

(** ** Specification: the key is there after every operation *)

Fixpoint always_present (cfg : lru_config V) (k : K) (l : list (K * V)) (ops : list (cache_op K V)) : bool :=
  bool_decide (is_Some (spec_find k l)) &&
  match ops with [] => true | o :: ops => always_present cfg k (spec_step cfg l o).2 ops end.

(** ** Lemmas *)

(** Identities are never used twice: what an operation adds is new. *)
Record ids_step c c' : Prop := {
  is_old : forall p, p ∈ (lru_list_ c').*1 -> (p < next_iter c)%nat -> p ∈ (lru_list_ c).*1;
  is_next : (next_iter c <= next_iter c')%nat;
  is_map : forall k p q, map_ c !! k = Some p -> map_ c' !! k = Some q -> q = p;
}.

Lemma ids_refl c : ids_step c c.
Proof. constructor; [done|lia|]. intros k p q E1 E2. by rewrite E1 in E2; simplify_eq. Qed.

Lemma removelast_sub {A} (l : list A) x : x ∈ removelast l -> x ∈ l.
Proof.
  induction l as [|y l IH]; [done|]. destruct l as [|z l]; [by intros ?%elem_of_nil|].
  change (removelast (y :: z :: l)) with (y :: removelast (z :: l)). set_solver.
Qed.

Lemma evict_one_ids c0 c : ids_step c0 c -> ids_step c0 (evict_one c).
Proof.
  intros [H1 H2 H3]. unfold evict_one. destruct (last (lru_list_ c)) as [[a back]|]; [|done].
  constructor; cbn [lru_list_ next_iter map_]; [|done|].
  - intros p ([x n] & -> & Hin%removelast_sub)%list_elem_of_fmap Hp. apply H1; [|done].
    apply list_elem_of_fmap. by exists (x, n).
  - intros k p q E1 [_ E2]%lookup_delete_Some. by eapply H3.
Qed.

Lemma evict_loop_ids fuel c0 c : ids_step c0 c -> ids_step c0 (evict_loop fuel c).
Proof.
  revert c. induction fuel as [|f IH]; intros c Hc; cbn [evict_loop]; [done|].
  destruct (needs_evict c); [|done]. by apply IH, evict_one_ids.
Qed.

Lemma erase_it_sub p a (l : list (nat * node K V)) : p ∈ (erase_it a l).*1 -> p ∈ l.*1.
Proof.
  intros ([x n] & -> & [_ Hin]%list_elem_of_filter)%list_elem_of_fmap. apply list_elem_of_fmap. by exists (x, n).
Qed.

Lemma splice_front_sub p a (l : list (nat * node K V)) : p ∈ (splice_front a l).*1 -> p ∈ l.*1.
Proof.
  unfold splice_front. destruct (deref a l) as [n|] eqn:E; [|done]. cbn [fmap list_fmap].
  intros [->|Hp]%elem_of_cons; [|by eapply erase_it_sub]. simpl.
  apply list_elem_of_fmap. exists (a, n). split; [done|]. by apply deref_Some_elem.
Qed.

Lemma set_node_ids a n (l : list (nat * node K V)) : (set_node a n l).*1 = l.*1.
Proof.
  unfold set_node. rewrite <- list_fmap_compose. apply list_fmap_ext. intros i [x m] _. simpl.
  by case_decide as E; [rewrite E|].
Qed.

Lemma cache_step_ids c o : ids_step c (cache_step c o).2.
Proof.
  destruct o as [k|k v|k|]; simpl.
  - unfold cache_get. destruct (map_ c !! k) as [a|]; [|apply ids_refl]. constructor; simpl; [|lia|].
    + intros p Hp _. by eapply splice_front_sub.
    + intros k' p q E1 E2. by simplify_eq.
  - unfold cache_put. destruct (_ || _); [apply ids_refl|]. unfold do_put.
    destruct (map_ c !! k) as [a|] eqn:Em; [destruct (deref a (lru_list_ c)); [|apply ids_refl]|];
      apply evict_loop_ids; constructor; cbn [lru_list_ next_iter map_]; try lia.
    + intros p Hp%splice_front_sub _. by rewrite set_node_ids in Hp.
    + intros k' p q E1 E2. by simplify_eq.
    + cbn [fmap list_fmap]. intros p [->|Hp]%elem_of_cons Hl; [simpl in Hl; lia|done].
    + intros k' p q E1 [[-> _]|[_ E2]]%lookup_insert_Some; by simplify_eq.
  - unfold cache_erase. destruct (map_ c !! k) as [a|]; [|apply ids_refl].
    destruct (deref a (lru_list_ c)); [|apply ids_refl]. constructor; cbn [snd lru_list_ next_iter map_]; [|lia|].
    + intros p Hp _. by eapply erase_it_sub.
    + intros k' p q E1 [_ E2]%lookup_delete_Some. by simplify_eq.
  - constructor; simpl; [|lia|].
    + by intros p ?%elem_of_nil.
    + intros k' p q E1 E2. by rewrite lookup_empty in E2.
Qed.

(** A pointer whose node is gone stays dangling. *)
Lemma dangling_run ops c p :
  (p < next_iter c)%nat -> p ∉ (lru_list_ c).*1 -> read_pointer (run cache_step c ops).2 p = None.
Proof.
  revert c. induction ops as [|o ops IH]; intros c Hp Hn; cbn [run snd].
  - unfold read_pointer. destruct (deref p (lru_list_ c)) as [n|] eqn:E; [|done]. exfalso. apply Hn.
    apply list_elem_of_fmap. exists (p, n). split; [done|]. by apply deref_Some_elem.
  - pose proof (cache_step_ids c o) as [H1 H2 _]. destruct (cache_step c o) as [x c1]. cbn [snd] in *.
    specialize (IH c1). destruct (run cache_step c1 ops) as [xs c2]. cbn [snd] in *.
    apply IH; [lia|]. intros Hin. by apply Hn, H1.
Qed.

(** The node of a key that is gone is gone. *)
Lemma node_gone c c' k p :
  cache_core c -> cache_core c' -> ids_step c c' -> map_ c !! k = Some p -> map_ c' !! k = None ->
  (forall q, map_ c' !! q = Some p -> map_ c !! q = Some p) -> p ∉ (lru_list_ c').*1.
Proof.
  intros Hc Hc' Hs Hm Hm' Hk ([x n] & -> & Hin)%list_elem_of_fmap. simpl in *.
  assert (map_ c' !! key n = Some x) as Hx by (apply (core_map _ Hc'); by eexists).
  pose proof (Hk _ Hx) as Hx'. apply (core_map _ Hc) in Hm as (n1 & I1 & <-), Hx' as (n2 & I2 & E2).
  pose proof (deref_elem _ _ _ (core_iters _ Hc) I1) as D1. rewrite (deref_elem _ _ _ (core_iters _ Hc) I2) in D1.
  simplify_eq. congruence.
Qed.

(** An identity in the new map that is old was there for the same key. *)
Lemma cache_step_map_old c o q p :
  cache_core c -> map_ (cache_step c o).2 !! q = Some p -> (p < next_iter c)%nat -> map_ c !! q = Some p.
Proof.
  assert (forall fuel c', map_ (evict_loop fuel c') !! q = Some p -> map_ c' !! q = Some p) as Hev.
  { intros fuel. induction fuel as [|f IH]; intros c'; cbn [evict_loop]; [done|].
    destruct (needs_evict c'); [|done]. intros E%IH. unfold evict_one in E.
    destruct (last (lru_list_ c')) as [[a b]|]; [|done]. cbn [map_] in E. by apply lookup_delete_Some in E as [_ ?]. }
  intros Hc. destruct o as [k|k v|k|]; simpl.
  - unfold cache_get. destruct (map_ c !! k); done.
  - unfold cache_put. destruct (_ || _); [done|]. unfold do_put.
    destruct (map_ c !! k) as [a|] eqn:Em; [destruct (deref a (lru_list_ c)); [|done]|]; intros E%Hev; [done|].
    cbn [map_] in E. apply lookup_insert_Some in E as [[-> <-]|[_ ?]]; [lia|done].
  - unfold cache_erase. destruct (map_ c !! k) as [a|]; [|done]. destruct (deref a (lru_list_ c)); [|done].
    cbn [snd map_]. by intros [_ ?]%lookup_delete_Some.
  - simpl. by rewrite lookup_empty.
Qed.

Lemma pointer_run ops c k p :
  cache_ok c -> config_ok (config_of c) -> Forall (op_fits (config_of c)) ops -> map_ c !! k = Some p ->
  read_pointer (run cache_step c ops).2 p =
  if always_present (config_of c) k (entries c) ops then spec_find k (entries (run cache_step c ops).2) else None.
Proof.
  revert c. induction ops as [|o ops IH]; intros c Hok Hcfg Hf Hm; cbn [run always_present].
  - pose proof (core_find c k (proj1 Hok)) as Hfind. rewrite Hm in Hfind.
    destruct (core_deref c k p (proj1 Hok) Hm) as (n & Hd & _ & _). rewrite Hd in Hfind. cbn [snd].
    unfold read_pointer. rewrite Hd, Hfind. by rewrite bool_decide_true by (by eexists).
  - pose proof (core_find c k (proj1 Hok)) as Hfind. rewrite Hm in Hfind.
    destruct (core_deref c k p (proj1 Hok) Hm) as (n & Hd & Hin & _). rewrite Hd in Hfind.
    rewrite (bool_decide_true (is_Some (spec_find k (entries c)))) by (rewrite Hfind; by eexists). cbn [andb].
    apply Forall_cons in Hf as [Ho Hf]. pose proof (cache_step_ok c o Hok Hcfg Ho) as Hs.
    pose proof (cache_step_ids c o) as Hids. pose proof (cache_step_map_old c o) as Hold.
    destruct (cache_step c o) as [x c1]. destruct Hs as (Hok1 & Hcfg1 & ->). cbn [snd] in *.
    rewrite <- Hcfg1 in Hcfg, Hf. pose proof (core_fresh _ (proj1 Hok) _ _ Hin) as Hfresh.
    destruct (map_ c1 !! k) as [p1|] eqn:Hm1.
    + assert (p1 = p) as -> by (by eapply (is_map _ _ Hids)). specialize (IH c1 Hok1 Hcfg Hf Hm1).
      rewrite <- Hcfg1. destruct (run cache_step c1 ops) as [xs c2]. exact IH.
    + assert (p ∉ (lru_list_ c1).*1) as Hgone.
      { eapply node_gone; [apply Hok|apply Hok1|done|done|done|]. intros q Hq. apply Hold; [apply Hok|done|done]. }
      pose proof (dangling_run ops c1 p ltac:(pose proof (is_next _ _ Hids); lia) Hgone) as Hd1.
      assert (always_present (config_of c) k (entries c1) ops = false) as ->.
      { pose proof (core_find c1 k (proj1 Hok1)) as Hf1. rewrite Hm1 in Hf1. destruct ops; cbn [always_present]; rewrite Hf1;
          by rewrite bool_decide_false by (by intros []). }
      destruct (run cache_step c1 ops) as [xs c2]. exact Hd1.
Qed.

(** Reading through the pointer is what [cache_get] answers. *)
Lemma get_pointer_get c k :
  cache_get c k = ((get_pointer c k).1 ≫= read_pointer (get_pointer c k).2, (get_pointer c k).2) /\
  map_ (get_pointer c k).2 = map_ c /\ (get_pointer c k).1 = map_ c !! k.
Proof. unfold get_pointer, cache_get. by destruct (map_ c !! k). Qed.

End pointer.

(** C7: a pointer is valid exactly as long as promised.  Take the pointer that
    [get] answers in any state a trace reaches, and go on with any trace.  As
    long as the key has not left the cache, evicted by a put, erased or cleared,
    the pointer reads what the cache has for the key, also after puts that
    replaced the value and gets and puts that moved other entries around it; and
    once the key has left, the pointer is dangling for good, also when the same
    key is inserted again. *)
Theorem pointer_valid_while_present {K V} `{Countable K} (cfg : lru_config V)
    (before after : list (cache_op K V)) k p :
  config_ok cfg -> Forall (op_fits cfg) before -> Forall (op_fits cfg) after ->
  let '(ptr, c) := get_pointer (run cache_step (cache_new (cfg_entries cfg) (cfg_bytes cfg) (cfg_weight cfg)) before).2 k in
  ptr = Some p ->
  let c' := (run cache_step c after).2 in
  read_pointer c' p =
    if always_present cfg k (entries c) after then spec_find k (entries c') else None.
Proof.
  intros Hcfg Hb Ha. set (c0 := cache_new _ _ _). assert (config_of c0 = cfg) as Hc0 by (by destruct cfg).
  pose proof (run_ok before c0 (cache_new_ok cfg Hcfg)) as Hr. rewrite Hc0 in Hr. specialize (Hr Hcfg Hb).
  destruct (run cache_step c0 before) as [xs c]. cbn [snd]. destruct Hr as (Hok & Hcc & _).
  destruct (get_pointer_get c k) as (Hg & Hm & Hp). pose proof (cache_get_ok c k Hok) as Hgo. rewrite Hg in Hgo.
  destruct (get_pointer c k) as [ptr c1]. cbn [fst snd] in *. destruct Hgo as (_ & Hok1 & Hcc1 & _). intros ->.
  assert (config_of c1 = cfg) as E by congruence. rewrite <- E.
  apply pointer_run; [done|by rewrite E..|by rewrite Hm].
Qed.

Local Close Scope Z_scope.

(** The pointer to key 1 survives a replacement and an eviction of another key;
    then key 1 is evicted and comes back elsewhere. *)
Lemma pointer_valid_while_present_witness :
  let put k v := OpPut (K := nat) (V := nat) k v in
  let '(ptr, c) := get_pointer (run cache_step (cache_new 2%Z 10%Z (fun n => Z.of_nat (n mod 8))) [put 1 3; put 2 4]).2 1 in
  let a1 := [put 1 5; put 3 1] in
  let a2 := [put 2 1; put 3 1; put 1 6] in
  ptr = Some 0 /\
  read_pointer (run cache_step c a1).2 0 = Some 5 /\
  read_pointer (run cache_step c a2).2 0 = None /\ spec_find 1 (entries (run cache_step c a2).2) = Some 6.
Proof.
  cbn zeta. pose proof (fun a Ha => pointer_valid_while_present demo_cfg
    [OpPut 1 3; OpPut 2 4] a 1 0 ltac:(split_and!; simpl; [lia|lia|intros v; lia])
    ltac:(repeat constructor) Ha) as Hv. cbn zeta in Hv. change (cache_new _ _ _) with
    (cache_new (K := nat) (cfg_entries demo_cfg) (cfg_bytes demo_cfg) (cfg_weight demo_cfg)).
  assert ((get_pointer (run cache_step (cache_new (K := nat) (cfg_entries demo_cfg) (cfg_bytes demo_cfg)
    (cfg_weight demo_cfg)) [OpPut 1 3; OpPut 2 4]).2 1).1 = Some 0) as Ep by (vm_compute; reflexivity).
  assert (entries (get_pointer (run cache_step (cache_new (K := nat) (cfg_entries demo_cfg) (cfg_bytes demo_cfg)
    (cfg_weight demo_cfg)) [OpPut 1 3; OpPut 2 4]).2 1).2 = [(1, 3); (2, 4)]) as Ee by (vm_compute; reflexivity).
  assert (forall a2, a2 = [OpPut 2 1; OpPut 3 1; OpPut 1 6] ->
    spec_find 1 (entries (run cache_step (get_pointer (run cache_step (cache_new (K := nat) (cfg_entries demo_cfg)
      (cfg_bytes demo_cfg) (cfg_weight demo_cfg)) [OpPut 1 3; OpPut 2 4]).2 1).2 a2).2) = Some 6) as E2
    by (intros a2 ->; vm_compute; reflexivity).
  assert (forall a1, a1 = [OpPut 1 5; OpPut 3 1] ->
    spec_find 1 (entries (run cache_step (get_pointer (run cache_step (cache_new (K := nat) (cfg_entries demo_cfg)
      (cfg_bytes demo_cfg) (cfg_weight demo_cfg)) [OpPut 1 3; OpPut 2 4]).2 1).2 a1).2) = Some 5) as E1
    by (intros a1 ->; vm_compute; reflexivity).
  destruct (get_pointer _ 1) as [ptr c]. cbn [fst snd] in *. split_and!; [done| | |by apply E2].
  - rewrite (Hv [OpPut 1 5; OpPut 3 1] ltac:(repeat constructor) Ep), Ee, (E1 _ eq_refl). vm_compute. reflexivity.
  - rewrite (Hv [OpPut 2 1; OpPut 3 1; OpPut 1 6] ltac:(repeat constructor) Ep), Ee. vm_compute. reflexivity.
Defined.
