(* ===== verification/Llhttp.v ===== *)
(** * Llhttp: the interface of the vendored llhttp parser

    llhttp (src/third_party/llhttp) is generated C and is not modelled; the
    two parser classes are proved against this interface.  Every callback the
    repository registers returns 0, so the callback sequence of one
    [llhttp_execute] call is a function of the parser state and the data: an
    execution yields the list of callback invocations, the [llhttp_errno_t]
    and the next parser state.  The data a callback reads off [llhttp_t]
    (method, status, keep-alive, content length) is carried by the event. *)

From S2P Require Import Prelude.

(** What [on_headers_complete] may read from [llhttp_t]. *)
Record head_info := mk_head_info {
  hi_method : bytes;          (** [llhttp_method_name(parser->method)] *)
  hi_is_connect : bool;       (** [parser->method == HTTP_CONNECT] *)
  hi_status_code : Z;         (** [llhttp_get_status_code(parser)] *)
  hi_should_keep_alive : bool;
  hi_content_length : Z;      (** [parser->content_length], a [uint64_t] *)
}.

Inductive event :=
  | EvMessageBegin
  | EvUrl (at_ : bytes)
  | EvVersion (at_ : bytes)
  | EvStatus (at_ : bytes)
  | EvHeaderField (at_ : bytes)
  | EvHeaderValue (at_ : bytes)
  | EvHeadersComplete (info : head_info)
  | EvBody (at_ : bytes)
  | EvMessageComplete.

Definition HPE_OK : Z := 0.
Definition HPE_INVALID_EOF_STATE : Z := 14.
Definition HPE_PAUSED : Z := 21.
Definition HPE_PAUSED_UPGRADE : Z := 22.

Class Llhttp := {
  llhttp_t : Type;
  llhttp_init : llhttp_t;
  llhttp_execute : llhttp_t -> bytes -> list event * Z * llhttp_t;
  llhttp_finish : llhttp_t -> list event * Z * llhttp_t;
  llhttp_reset : llhttp_t -> llhttp_t;
  llhttp_resume_after_upgrade : llhttp_t -> llhttp_t;
  llhttp_errno_name : Z -> bytes;
  (** the error reason; a null reason is [None] *)
  llhttp_get_error_reason : llhttp_t -> option bytes;
}.

(** What [llhttp_finish] can answer (its documented behaviour, by the parser's
    [finish] mark): between messages there is nothing to do; a body that runs to
    the end of the stream is completed; anywhere else the stream was cut. *)
Inductive finish_mark := HTTP_FINISH_SAFE | HTTP_FINISH_SAFE_WITH_CB | HTTP_FINISH_UNSAFE.

Definition finish_answer (m : finish_mark) : list event * Z :=
  match m with
  | HTTP_FINISH_SAFE => ([], HPE_OK)
  | HTTP_FINISH_SAFE_WITH_CB => ([EvMessageComplete], HPE_OK)
  | HTTP_FINISH_UNSAFE => ([], HPE_INVALID_EOF_STATE)
  end.

(** A scripted instance for the witnesses: each [execute] consumes the next
    scripted answer, whatever the data. *)
Definition scripted_execute (s : list (list event * Z)) (_ : bytes)
  : list event * Z * list (list event * Z) :=
  match s with
  | (evs, err) :: s' => (evs, err, s')
  | [] => ([], HPE_OK, [])
  end.

Definition scripted (s : list (list event * Z)) : Llhttp := {|
  llhttp_t := list (list event * Z);
  llhttp_init := s;
  llhttp_execute := scripted_execute;
  llhttp_finish p := scripted_execute p [];
  llhttp_reset _ := s;
  llhttp_resume_after_upgrade p := p;
  llhttp_errno_name _ := bs "HPE_INVALID_METHOD";
  llhttp_get_error_reason _ := Some (bs "Invalid method encountered");
|}.
