(* ===== verification/HeaderFields.v ===== *)
(** * HeaderFields: the streaming header collection of both parser classes

    [http_request_parser] and [http_response_parser] carry the same three
    members ([current_header_field_], [current_header_value_],
    [parsing_last_was_value_]) and the same code to turn the field and value
    fragments llhttp delivers into a map with lower-case keys.  The lemma
    [collect_headers] shows that any fragmentation of the header lines gives
    the same map: names lower-cased, later duplicates win. *)

From S2P Require Import Prelude Bytes Llhttp.

Abbreviation headers := (gmap bytes bytes).

(* src/src/net/http/http_request_parser.h:75-77 http_request_parser *)
Record pending_header := mk_pending {
  current_header_field_ : bytes;
  current_header_value_ : bytes;
  parsing_last_was_value_ : bool;
}.

Definition pending_none : pending_header := mk_pending [] [] false.

(* src/src/net/http/http_request_parser.cpp:168-173 http_request_parser::to_lower_ascii *)
Definition to_lower_ascii (value : bytes) : bytes := lower value.

(* src/src/net/http/http_request_parser.cpp:138-145 http_request_parser::finish_pending_header *)
Definition finish_pending_header (p : pending_header) (m : headers) : headers :=
  match current_header_field_ p with
  | [] => m
  | _ => <[to_lower_ascii (current_header_field_ p) := current_header_value_ p]> m
  end.

(* src/src/net/http/http_request_parser.cpp:92-104 http_request_parser::on_header_field_cb *)
Definition header_field (p : pending_header) (m : headers) (at_ : bytes)
  : pending_header * headers :=
  let '(p, m) :=
    if parsing_last_was_value_ p
    then (mk_pending [] [] false, finish_pending_header p m)
    else (p, m) in
  (mk_pending (current_header_field_ p ++ at_) (current_header_value_ p)
     (parsing_last_was_value_ p), m).

(* src/src/net/http/http_request_parser.cpp:106-112 http_request_parser::on_header_value_cb *)
Definition header_value (p : pending_header) (at_ : bytes) : pending_header :=
  mk_pending (current_header_field_ p) (current_header_value_ p ++ at_) true.

(** ** Specification *)

(** One header line as llhttp delivers it: fragments of the name, then
    fragments of the value. *)
Record header_line := mk_line { name_frags : list bytes; value_frags : list bytes }.

Definition line_events (l : header_line) : list event :=
  (EvHeaderField <$> name_frags l) ++ (EvHeaderValue <$> value_frags l).

(** llhttp reports a name and a value for each line (the value possibly
    empty), and a name is not empty. *)
Definition line_ok (l : header_line) : Prop :=
  concat (name_frags l) <> [] /\ value_frags l <> [].

Definition line_binding (l : header_line) : bytes * bytes :=
  (lower (concat (name_frags l)), concat (value_frags l)).

(** The header map the lines denote. *)
Definition headers_of (ls : list header_line) : headers :=
  foldl (fun m l => <[(line_binding l).1 := (line_binding l).2]> m) ∅ ls.

(** The state threaded by the header callbacks. *)
Definition header_event (st : pending_header * headers) (e : event) : pending_header * headers :=
  match e with
  | EvHeaderField s => header_field st.1 st.2 s
  | EvHeaderValue s => (header_value st.1 s, st.2)
  | _ => st
  end.

(** ** Iteration over an [unordered_map]

    The standard leaves the iteration order open: a range-for visits every
    binding once.  Clients are proved for any order with this law. *)

Class HeaderOrder := {
  header_order : headers -> list (bytes * bytes);
  header_order_perm : forall m, header_order m ≡ₚ map_to_list m;
}.

#[export] Instance default_order : HeaderOrder :=
  {| header_order := map_to_list; header_order_perm m := Permutation_refl _ |}.

(** ** Lemmas *)

Lemma header_order_elem `{HeaderOrder} m k v :
  (k, v) ∈ header_order m <-> m !! k = Some v.
Proof. rewrite header_order_perm. apply elem_of_map_to_list. Qed.

Lemma header_order_keys `{HeaderOrder} m : NoDup (header_order m).*1.
Proof. rewrite header_order_perm. apply NoDup_fst_map_to_list. Qed.


Lemma field_frags_fold fs f m :
  foldl header_event (mk_pending f [] false, m) (EvHeaderField <$> fs) =
    (mk_pending (f ++ concat fs) [] false, m).
Proof.
  revert f. induction fs as [|x fs IH]; intros f; simpl; [by rewrite app_nil_r|].
  unfold header_field; simpl. by rewrite IH, app_assoc.
Qed.

Lemma value_frags_more vs f v m :
  foldl header_event (mk_pending f v true, m) (EvHeaderValue <$> vs) =
    (mk_pending f (v ++ concat vs) true, m).
Proof.
  revert v. induction vs as [|x vs IH]; intros v; simpl; [by rewrite app_nil_r|].
  unfold header_value; simpl. by rewrite IH, app_assoc.
Qed.

Lemma value_frags_fold vs f v b m :
  vs <> [] ->
  foldl header_event (mk_pending f v b, m) (EvHeaderValue <$> vs) =
    (mk_pending f (v ++ concat vs) true, m).
Proof.
  destruct vs as [|x vs]; [done|]. intros _. simpl. unfold header_value; simpl.
  by rewrite value_frags_more, app_assoc.
Qed.

(** Where the collection is ready for a new line: at the start, or with a
    finished line still pending. *)
Definition ready (p : pending_header) : Prop := p = pending_none \/ parsing_last_was_value_ p = true.

Lemma header_field_ready p m x :
  ready p -> header_field p m x = (mk_pending x [] false, finish_pending_header p m).
Proof. intros [->|H]; [done|]. unfold header_field. by rewrite H. Qed.

Lemma line_fold p m l :
  ready p -> line_ok l ->
  foldl header_event (p, m) (line_events l) =
    (mk_pending (concat (name_frags l)) (concat (value_frags l)) true,
     finish_pending_header p m).
Proof.
  intros Hr [Hn Hv]. unfold line_events. rewrite foldl_app.
  destruct (name_frags l) as [|x fs]; [done|]. simpl.
  rewrite header_field_ready by done. rewrite field_frags_fold.
  by rewrite value_frags_fold.
Qed.

Lemma finish_line l m :
  line_ok l ->
  finish_pending_header
    (mk_pending (concat (name_frags l)) (concat (value_frags l)) true) m =
  <[(line_binding l).1 := (line_binding l).2]> m.
Proof.
  intros [Hn _]. unfold finish_pending_header. simpl.
  by destruct (concat (name_frags l)).
Qed.

(** Any sequence of header lines, in any fragmentation, leaves after the final
    flush the map of the lines. *)
Lemma collect_headers_gen ls p m :
  ready p -> Forall line_ok ls ->
  let st := foldl header_event (p, m) (mjoin (line_events <$> ls)) in
  ready st.1 /\
  finish_pending_header st.1 st.2 =
    foldl (fun m l => <[(line_binding l).1 := (line_binding l).2]> m)
      (finish_pending_header p m) ls.
Proof.
  intros Hr Hls. revert p m Hr. induction Hls as [|l ls Hl _ IH]; intros p m Hr; simpl; [done|].
  rewrite foldl_app, line_fold by done.
  destruct (IH (mk_pending (concat (name_frags l)) (concat (value_frags l)) true)
              (finish_pending_header p m)) as [H1 H2]; [by right|].
  split; [done|]. etransitivity; [exact H2|]. by rewrite finish_line.
Qed.

Lemma collect_headers ls :
  Forall line_ok ls ->
  let st := foldl header_event (pending_none, ∅) (mjoin (line_events <$> ls)) in
  ready st.1 /\ finish_pending_header st.1 st.2 = headers_of ls.
Proof. intros Hls. apply (collect_headers_gen ls pending_none ∅); [by left|done]. Qed.

(** The callbacks of header lines are field and value callbacks only. *)
Definition is_header_event (e : event) : Prop :=
  match e with EvHeaderField _ | EvHeaderValue _ => True | _ => False end.

Lemma line_events_headers_only ls : Forall is_header_event (mjoin (line_events <$> ls)).
Proof.
  apply Forall_forall. intros e (l & He & Hl)%list_elem_of_join.
  apply list_elem_of_fmap in Hl as (ln & -> & _). unfold line_events in He.
  apply elem_of_app in He as [He|He]; apply list_elem_of_fmap in He as (? & -> & _); done.
Qed.

(** The last line with a given name decides the value. *)
Lemma headers_of_lookup ls k :
  headers_of ls !! k =
    snd <$> last (filter (fun b => b.1 = k) (line_binding <$> ls)).
Proof.
  unfold headers_of. induction ls as [|l ls IH] using rev_ind; [done|].
  rewrite foldl_snoc, lookup_insert, fmap_app, filter_app.
  assert (filter (fun b : bytes * bytes => b.1 = k) (line_binding <$> [l]) =
          if decide ((line_binding l).1 = k) then [line_binding l] else []) as ->.
  { simpl. rewrite filter_cons. by repeat case_decide. }
  case_decide; [by rewrite last_snoc|by rewrite app_nil_r].
Qed.

Lemma headers_of_lower ls k v : headers_of ls !! k = Some v -> lower k = k.
Proof.
  unfold headers_of. induction ls as [|l ls IH] using rev_ind; [done|].
  rewrite foldl_snoc, lookup_insert. case_decide as Hk; [|done].
  intros _. rewrite <- Hk. apply lower_idemp.
Qed.
