(* ===== verification/HttpRequestParser.v ===== *)
(** * HttpRequestParser: [http_request_parser] of src/src/net/http/http_request_parser.{h,cpp}

    The callbacks llhttp invokes, [parse] with its three outcomes, the
    post-processing of the head (chunked, host, port) and [reset].  The
    theorems: any chunking of the input and any fragmentation of the tokens
    assembles the same request; [parse_host_port] inverts the printed forms and
    truncates over-large ports; an error is sticky; of two pipelined messages
    in one buffer only the second survives. *)

From S2P Require Import Prelude Bytes Llhttp HeaderFields.

Local Open Scope Z_scope.

(* src/src/net/http/http_request_parser.h:12-17 http_request_parser::parse_state *)
Inductive parse_state := kReadingRequest | kMessageComplete | kUpgradedTunnel | kParseError.

#[export] Instance parse_state_eq_dec : EqDecision parse_state.
Proof. solve_decision. Defined.

(* src/src/net/http/http_request_parser.h:19-31 http_request_parser::request_info *)
Record request_info := mk_request {
  method : bytes;
  url : bytes;
  version : bytes;
  host : bytes;
  port : Z;             (** [uint16_t] *)
  content_length : Z;   (** [uint64_t] *)
  chunked : bool;
  keep_alive : bool;
  is_connect : bool;
  hdrs : headers;       (** [headers] *)
  body : bytes;
}.

#[export] Instance request_info_eq_dec : EqDecision request_info.
Proof. solve_decision. Defined.

(** [request_info{}]. *)
Definition request_default : request_info :=
  mk_request [] [] [] [] 0 0 false false false ∅ [].

(** ** Host and port *)

(** The loop dropping spaces at the back. *)
Definition trim_back (s : bytes) : bytes := reverse (skip_space (reverse s)).

(* src/src/net/http/http_request_parser.cpp:175-217 http_request_parser::parse_host_port *)
Definition parse_host_port (host_port : bytes) : bytes * Z :=
  let host_port := trim_back (skip_space host_port) in
  match host_port with
  | [] => ([], 0)
  | c :: _ =>
      if decide (c = "["%char) then
        match find_char "]" host_port with
        | None => (host_port, 0)
        | Some end_ =>
            let host := substr host_port 1 (end_ - 1) in
            if (end_ + 2 <=? length host_port)%nat &&
               bool_decide (host_port !! (end_ + 1)%nat = Some ":"%char)
            then (host, u16 (strtoul (drop (end_ + 2) host_port)))
            else (host, 0)
        end
      else
        match rfind_char ":" host_port with
        | None => (host_port, 0)
        | Some colon_pos =>
            if decide (find_char ":" host_port <> Some colon_pos) then (host_port, 0)
            else (substr host_port 0 colon_pos, u16 (strtoul (drop (colon_pos + 1) host_port)))
        end
  end.

(* src/src/net/http/http_request_parser.cpp:147-166 http_request_parser::post_process_headers *)
Definition post_process_headers (r : request_info) : request_info :=
  let chunked' :=
    match hdrs r !! bs "transfer-encoding" with
    | Some te => bool_decide (is_Some (find_sub (bs "chunked") (to_lower_ascii te)))
    | None => chunked r
    end in
  let '(host', port') :=
    if is_connect r then parse_host_port (url r)
    else match hdrs r !! bs "host" with
         | Some h =>
             let '(hh, pp) := parse_host_port h in (hh, if pp =? 0 then 80 else pp)
         | None => (host r, port r)
         end in
  mk_request (method r) (url r) (version r) host' port' (content_length r)
    chunked' (keep_alive r) (is_connect r) (hdrs r) (body r).

(** ** The parser object *)

Section parser.
Context `{L : Llhttp}.

(* src/src/net/http/http_request_parser.h:68-77 http_request_parser *)
Record http_request_parser := mk_parser {
  parser_ : llhttp_t;
  parse_state_ : parse_state;
  parse_error_ : bytes;
  request_ : request_info;
  pending_ : pending_header;
}.

(* src/src/net/http/http_request_parser.cpp:51-64 http_request_parser::init_parser *)
Definition parser_new : http_request_parser :=
  mk_parser llhttp_init kReadingRequest [] request_default pending_none.

(* src/src/net/http/http_request_parser.h:37-40 http_request_parser::is_message_complete *)
Definition is_message_complete (s : http_request_parser) : bool :=
  match parse_state_ s with kMessageComplete | kUpgradedTunnel => true | _ => false end.

(* src/src/net/http/http_request_parser.h:41-41 http_request_parser::is_connect_tunnel *)
Definition is_connect_tunnel (s : http_request_parser) : bool :=
  bool_decide (parse_state_ s = kUpgradedTunnel).

(* src/src/net/http/http_request_parser.h:42-42 http_request_parser::has_parse_error *)
Definition has_parse_error (s : http_request_parser) : bool :=
  bool_decide (parse_state_ s = kParseError).

Definition with_request (s : http_request_parser) (r : request_info) : http_request_parser :=
  mk_parser (parser_ s) (parse_state_ s) (parse_error_ s) r (pending_ s).

Definition with_state (s : http_request_parser) (st : parse_state) : http_request_parser :=
  mk_parser (parser_ s) st (parse_error_ s) (request_ s) (pending_ s).

(* src/src/net/http/http_request_parser.cpp:66-71 http_request_parser::clear_request_runtime *)
Definition clear_request_runtime (s : http_request_parser) : http_request_parser :=
  mk_parser (parser_ s) (parse_state_ s) (parse_error_ s) request_default pending_none.

(* src/src/net/http/http_request_parser.cpp:73-78 http_request_parser::on_message_begin_cb *)
Definition on_message_begin_cb (s : http_request_parser) : http_request_parser :=
  with_state (clear_request_runtime s) kReadingRequest.

(* src/src/net/http/http_request_parser.cpp:80-84 http_request_parser::on_url_cb *)
Definition on_url_cb (s : http_request_parser) (at_ : bytes) : http_request_parser :=
  let r := request_ s in
  with_request s (mk_request (method r) (url r ++ at_) (version r) (host r) (port r)
    (content_length r) (chunked r) (keep_alive r) (is_connect r) (hdrs r) (body r)).

(* src/src/net/http/http_request_parser.cpp:86-90 http_request_parser::on_version_cb *)
Definition on_version_cb (s : http_request_parser) (at_ : bytes) : http_request_parser :=
  let r := request_ s in
  with_request s (mk_request (method r) (url r) (version r ++ at_) (host r) (port r)
    (content_length r) (chunked r) (keep_alive r) (is_connect r) (hdrs r) (body r)).

Definition with_headers (s : http_request_parser) (p : pending_header) (m : headers)
  : http_request_parser :=
  let r := request_ s in
  mk_parser (parser_ s) (parse_state_ s) (parse_error_ s)
    (mk_request (method r) (url r) (version r) (host r) (port r) (content_length r)
       (chunked r) (keep_alive r) (is_connect r) m (body r)) p.

(* src/src/net/http/http_request_parser.cpp:92-104 http_request_parser::on_header_field_cb *)
Definition on_header_field_cb (s : http_request_parser) (at_ : bytes) : http_request_parser :=
  let '(p, m) := header_field (pending_ s) (hdrs (request_ s)) at_ in with_headers s p m.

(* src/src/net/http/http_request_parser.cpp:106-112 http_request_parser::on_header_value_cb *)
Definition on_header_value_cb (s : http_request_parser) (at_ : bytes) : http_request_parser :=
  with_headers s (header_value (pending_ s) at_) (hdrs (request_ s)).

(* src/src/net/http/http_request_parser.cpp:114-124 http_request_parser::on_headers_complete_cb *)
Definition on_headers_complete_cb (s : http_request_parser) (i : head_info)
  : http_request_parser :=
  let r := request_ s in
  with_request s (post_process_headers
    (mk_request (hi_method i) (url r) (version r) (host r) (port r) (hi_content_length i)
       (chunked r) (hi_should_keep_alive i) (hi_is_connect i)
       (finish_pending_header (pending_ s) (hdrs r)) (body r))).

(* src/src/net/http/http_request_parser.cpp:126-130 http_request_parser::on_body_cb *)
Definition on_body_cb (s : http_request_parser) (at_ : bytes) : http_request_parser :=
  let r := request_ s in
  with_request s (mk_request (method r) (url r) (version r) (host r) (port r)
    (content_length r) (chunked r) (keep_alive r) (is_connect r) (hdrs r) (body r ++ at_)).

(* src/src/net/http/http_request_parser.cpp:132-136 http_request_parser::on_message_complete_cb *)
Definition on_message_complete_cb (s : http_request_parser) : http_request_parser :=
  with_state s kMessageComplete.

(** The dispatch of llhttp through [settings_]; [on_status] is not registered. *)
(* src/src/net/http/http_request_parser.cpp:52-60 http_request_parser::init_parser *)
Definition on_event (s : http_request_parser) (e : event) : http_request_parser :=
  match e with
  | EvMessageBegin => on_message_begin_cb s
  | EvUrl at_ => on_url_cb s at_
  | EvVersion at_ => on_version_cb s at_
  | EvStatus _ => s
  | EvHeaderField at_ => on_header_field_cb s at_
  | EvHeaderValue at_ => on_header_value_cb s at_
  | EvHeadersComplete i => on_headers_complete_cb s i
  | EvBody at_ => on_body_cb s at_
  | EvMessageComplete => on_message_complete_cb s
  end.

Definition with_parser (s : http_request_parser) (p : llhttp_t) : http_request_parser :=
  mk_parser p (parse_state_ s) (parse_error_ s) (request_ s) (pending_ s).

(** [errno_name], then ": reason" when there is a reason. *)
(* src/src/net/http/http_request_parser.cpp:33-38 http_request_parser::parse *)
Definition error_text (err : Z) (p : llhttp_t) : bytes :=
  llhttp_errno_name err ++
  match llhttp_get_error_reason p with
  | Some (c :: r) => bs ": " ++ c :: r
  | _ => []
  end.

(* src/src/net/http/http_request_parser.cpp:15-40 http_request_parser::parse *)
Definition parse (s : http_request_parser) (data : bytes) : bool * http_request_parser :=
  if has_parse_error s || bool_decide (data = []) then (negb (has_parse_error s), s)
  else
    let '(evs, err, p) := llhttp_execute (parser_ s) data in
    let s := with_parser (foldl on_event s evs) p in
    if err =? HPE_OK then (true, s)
    else if err =? HPE_PAUSED_UPGRADE then
      (true, with_parser (with_state s kUpgradedTunnel) (llhttp_resume_after_upgrade p))
    else
      (false, mk_parser p kParseError (error_text err p) (request_ s) (pending_ s)).

(* src/src/net/http/http_request_parser.cpp:42-49 http_request_parser::reset_for_next_message *)
Definition reset_for_next_message (s : http_request_parser) : http_request_parser :=
  let s := clear_request_runtime s in
  mk_parser (llhttp_reset (parser_ s)) kReadingRequest [] (request_ s) (pending_ s).

(** ** Specification: a message and its request *)

(** The callbacks of one well-formed message, in llhttp's order, with every
    token in arbitrary fragments. *)
Record message := mk_message {
  m_url : list bytes;
  m_version : list bytes;
  m_lines : list header_line;
  m_info : head_info;
  m_body : list bytes;
}.

Definition message_events (m : message) : list event :=
  EvMessageBegin :: (EvUrl <$> m_url m) ++ (EvVersion <$> m_version m) ++
  mjoin (line_events <$> m_lines m) ++
  EvHeadersComplete (m_info m) :: (EvBody <$> m_body m) ++ [EvMessageComplete].

Definition request_of (m : message) : request_info :=
  let i := m_info m in
  let r := post_process_headers
    (mk_request (hi_method i) (concat (m_url m)) (concat (m_version m)) [] 0
       (hi_content_length i) false (hi_should_keep_alive i) (hi_is_connect i)
       (headers_of (m_lines m)) []) in
  mk_request (method r) (url r) (version r) (host r) (port r) (content_length r)
    (chunked r) (keep_alive r) (is_connect r) (hdrs r) (concat (m_body m)).

(** Feeding a list of buffers: the callbacks they produce when every
    [llhttp_execute] returns [HPE_OK].  [parse] skips empty buffers. *)
Fixpoint execute_all (p : llhttp_t) (chunks : list bytes) : option (list event * llhttp_t) :=
  match chunks with
  | [] => Some ([], p)
  | d :: ds =>
      if bool_decide (d = []) then execute_all p ds else
      let '(evs, err, p1) := llhttp_execute p d in
      if err =? HPE_OK then
        '(evs', p') ← execute_all p1 ds; Some (evs ++ evs', p')
      else None
  end.

Fixpoint parse_all (s : http_request_parser) (chunks : list bytes) : bool * http_request_parser :=
  match chunks with
  | [] => (true, s)
  | d :: ds =>
      let '(ok, s1) := parse s d in
      if ok then parse_all s1 ds else (false, s1)
  end.

(** What the types of [request_info]'s members promise, and the headers keep:
    machine-width numbers, names in lower case. *)
Record request_typed (r : request_info) : Prop := {
  t_port : 0 <= port r < 2 ^ 16;
  t_length : 0 <= content_length r < 2 ^ 64;
  t_names : forall k v, hdrs r !! k = Some v -> lower k = k;
}.

(** [content_length] of [llhttp_t] is a [uint64_t]. *)
Definition event_typed (e : event) : Prop :=
  match e with EvHeadersComplete i => 0 <= hi_content_length i < 2 ^ 64 | _ => True end.

(** A set of tokenizer states that are never left and whose events are typed. *)
Record typed_tokenizer (good : llhttp_t -> Prop) : Prop := {
  tt_init : good llhttp_init;
  tt_execute : forall p d evs err p', good p -> llhttp_execute p d = (evs, err, p') ->
    Forall event_typed evs /\ good p';
  tt_reset : forall p, good p -> good (llhttp_reset p);
  tt_resume : forall p, good p -> good (llhttp_resume_after_upgrade p);
}.

(** The uses of a parser object: more data, or the next message. *)
Inductive parser_use := UseParse (data : bytes) | UseReset.

Definition parser_step (s : http_request_parser) (u : parser_use) : http_request_parser :=
  match u with
  | UseParse data => (parse s data).2
  | UseReset => reset_for_next_message s
  end.

(** ** Lemmas *)

Lemma parse_host_port_range s : 0 <= (parse_host_port s).2 < 2 ^ 16.
Proof.
  assert (0 <= 0 < 2 ^ 16) by lia. unfold parse_host_port. repeat case_match; simpl; try done; apply u16_range.
Qed.

Lemma finish_pending_names p m :
  (forall k v, m !! k = Some v -> lower k = k) ->
  forall k v, finish_pending_header p m !! k = Some v -> lower k = k.
Proof.
  intros Hm k v. unfold finish_pending_header. destruct (current_header_field_ p); [by apply Hm|].
  intros [[<- _]|[_ Hk]]%lookup_insert_Some; [apply lower_idemp|by eapply Hm].
Qed.

Lemma post_process_typed r : request_typed r -> request_typed (post_process_headers r).
Proof.
  intros [T1 T2 T3]. unfold post_process_headers. pose proof (parse_host_port_range (url r)).
  destruct (is_connect r); [by destruct (parse_host_port (url r))|].
  destruct (hdrs r !! bs "host") as [h|]; [|done]. pose proof (parse_host_port_range h).
  destruct (parse_host_port h) as [hh pp]. constructor; simpl in *; [|done|done]. by destruct (pp =? 0).
Qed.

Lemma request_default_typed : request_typed request_default.
Proof. constructor; simpl; [lia|lia|]. intros k v. by rewrite lookup_empty. Qed.

Lemma on_event_typed s e :
  request_typed (request_ s) -> event_typed e -> request_typed (request_ (on_event s e)).
Proof.
  intros [T1 T2 T3] He. destruct e; try done; simpl.
  - unfold on_header_field_cb, header_field. destruct (parsing_last_was_value_ _); [|done].
    constructor; [done|done|]. by apply finish_pending_names.
  - apply post_process_typed. constructor; [done|done|]. by apply finish_pending_names.
Qed.

Lemma on_events_typed s evs :
  request_typed (request_ s) -> Forall event_typed evs -> request_typed (request_ (foldl on_event s evs)).
Proof.
  intros Hs He. revert s Hs. induction He as [|e evs He _ IH]; intros s Hs; [done|].
  by apply IH, on_event_typed.
Qed.

Lemma on_events_state s evs :
  parser_ (foldl on_event s evs) = parser_ s /\
  (parse_state_ s <> kParseError -> parse_state_ (foldl on_event s evs) <> kParseError).
Proof.
  revert s. induction evs as [|e evs IH]; intros s; simpl; [done|].
  destruct (IH (on_event s e)) as [H1 H2]. rewrite H1.
  assert (parser_ (on_event s e) = parser_ s /\
          (parse_state_ s <> kParseError -> parse_state_ (on_event s e) <> kParseError)) as [H3 H4].
  { destruct e; simpl; try done. unfold on_header_field_cb. by destruct (header_field _ _ _). }
  split; [done|auto].
Qed.

Lemma on_event_with_parser s p e :
  on_event (with_parser s p) e = with_parser (on_event s e) p.
Proof.
  destruct e; simpl; try done. unfold on_header_field_cb; simpl.
  by destruct (header_field _ _ _).
Qed.

Lemma on_events_with_parser s p evs :
  foldl on_event (with_parser s p) evs = with_parser (foldl on_event s evs) p.
Proof.
  revert s. induction evs as [|e evs IH]; intros s; simpl; [done|].
  by rewrite on_event_with_parser, IH.
Qed.

Lemma has_parse_error_false s : has_parse_error s = false <-> parse_state_ s <> kParseError.
Proof. apply bool_decide_eq_false. Qed.

(** Feeding buffers one by one is running all their callbacks at once. *)
Lemma parse_all_execute s chunks evs p :
  has_parse_error s = false ->
  execute_all (parser_ s) chunks = Some (evs, p) ->
  parse_all s chunks = (true, with_parser (foldl on_event s evs) p).
Proof.
  revert s evs. induction chunks as [|d ds IH]; simpl; intros s evs Hs Hex.
  - simplify_eq. by destruct s.
  - unfold parse. rewrite Hs. simpl. destruct (bool_decide (d = [])) eqn:Hd; simpl.
    + by apply IH.
    + destruct (llhttp_execute (parser_ s) d) as [[evs1 err] p1].
      destruct (err =? HPE_OK); [|done].
      destruct (execute_all p1 ds) as [[evs2 p2]|] eqn:Hex2; simplify_eq/=.
      rewrite (IH _ evs2); [|apply has_parse_error_false; simpl|done].
      * by rewrite on_events_with_parser, foldl_app.
      * apply on_events_state, has_parse_error_false, Hs.
Qed.

Lemma url_frags_fold s fs :
  foldl on_event s (EvUrl <$> fs) =
    with_request s (let r := request_ s in
      mk_request (method r) (url r ++ concat fs) (version r) (host r) (port r)
        (content_length r) (chunked r) (keep_alive r) (is_connect r) (hdrs r) (body r)).
Proof.
  revert s. induction fs as [|x fs IH]; intros s; simpl.
  - rewrite app_nil_r. destruct s as [? ? ? [] ?]; done.
  - rewrite IH. unfold on_url_cb, with_request; simpl. by rewrite app_assoc.
Qed.

Lemma version_frags_fold s fs :
  foldl on_event s (EvVersion <$> fs) =
    with_request s (let r := request_ s in
      mk_request (method r) (url r) (version r ++ concat fs) (host r) (port r)
        (content_length r) (chunked r) (keep_alive r) (is_connect r) (hdrs r) (body r)).
Proof.
  revert s. induction fs as [|x fs IH]; intros s; simpl.
  - rewrite app_nil_r. destruct s as [? ? ? [] ?]; done.
  - rewrite IH. unfold on_version_cb, with_request; simpl. by rewrite app_assoc.
Qed.

Lemma body_frags_fold s fs :
  foldl on_event s (EvBody <$> fs) =
    with_request s (let r := request_ s in
      mk_request (method r) (url r) (version r) (host r) (port r)
        (content_length r) (chunked r) (keep_alive r) (is_connect r) (hdrs r)
        (body r ++ concat fs)).
Proof.
  revert s. induction fs as [|x fs IH]; intros s; simpl.
  - rewrite app_nil_r. destruct s as [? ? ? [] ?]; done.
  - rewrite IH. unfold on_body_cb, with_request; simpl. by rewrite app_assoc.
Qed.

Lemma header_events_fold s ls :
  foldl on_event s (mjoin (line_events <$> ls)) =
    let st := foldl header_event (pending_ s, hdrs (request_ s)) (mjoin (line_events <$> ls)) in
    with_headers s st.1 st.2.
Proof.
  pose proof (line_events_headers_only ls) as Hall.
  revert s. induction Hall as [|e evs He _ IH]; intros s; simpl.
  - unfold with_headers. destruct s as [? ? ? [] ?]; done.
  - rewrite IH. destruct e; try done; simpl.
    unfold on_header_field_cb. by destruct (header_field _ _ _) as [p m].
Qed.

(** Running one message's callbacks from any state: the previous message is
    forgotten and the request is the message's. *)
Lemma message_fold s m :
  Forall line_ok (m_lines m) ->
  let s' := foldl on_event s (message_events m) in
  parse_state_ s' = kMessageComplete /\ request_ s' = request_of m /\
  parse_error_ s' = parse_error_ s.
Proof.
  intros Hls. unfold message_events. cbn [foldl on_event].
  rewrite !foldl_app, url_frags_fold, version_frags_fold, header_events_fold.
  cbn [foldl on_event]. rewrite foldl_app, body_frags_fold. cbn [foldl on_event].
  pose proof (collect_headers _ Hls) as [_ Hc]. cbn zeta in Hc |- *. simpl.
  set (st := foldl header_event _ _) in *.
  change (foldl header_event (pending_none, ∅) (mjoin (line_events <$> m_lines m))) with st in Hc.
  unfold on_headers_complete_cb, with_headers, with_request. simpl.
  rewrite Hc. unfold request_of. split_and!; [done| |done].
  unfold post_process_headers; cbn [hdrs is_connect url host port].
  destruct (hi_is_connect (m_info m)); [by destruct (parse_host_port (concat (m_url m)))|].
  destruct (headers_of (m_lines m) !! bs "host") as [h|]; [by destruct (parse_host_port h)|done].
Qed.

End parser.

Arguments message_events : simpl never.
Arguments request_of : simpl never.

(** ** [parse_host_port] on printed forms *)

(** A host name as the source expects it next to a port. *)
Definition plain_host (h : bytes) : Prop :=
  Forall (fun c => isspace c = false /\ c <> ":"%char /\ c <> "["%char /\ c <> "]"%char) h.

#[export] Instance plain_host_dec h : Decision (plain_host h).
Proof. apply _. Defined.

Lemma skip_space_id s : (forall c, head s = Some c -> isspace c = false) -> skip_space s = s.
Proof. destruct s as [|c s]; [done|]. intros H. simpl. by rewrite (H c). Qed.

Lemma trim_back_id s : (forall c, last s = Some c -> isspace c = false) -> trim_back s = s.
Proof.
  intros H. unfold trim_back. rewrite skip_space_id, reverse_involutive; [done|].
  intros c Hc. apply H. by rewrite head_reverse in Hc.
Qed.

Lemma last_digits n : 0 <= n -> exists c, last (to_string n) = Some c /\ is_digit c = true.
Proof.
  intros Hn. rewrite to_string_nonneg by done.
  pose proof (digits_nonempty n Hn) as Hne. pose proof (digits_all n Hn) as Hall.
  destruct (last (digits n)) as [c|] eqn:E; [|by apply last_None in E].
  exists c. split; [done|]. apply last_Some_elem_of in E. rewrite Forall_forall in Hall. auto.
Qed.

Lemma colon_not_digits n : 0 <= n -> ":"%char ∉ to_string n.
Proof.
  intros Hn. rewrite to_string_nonneg by done. intros Hin.
  pose proof (proj1 (Forall_forall _ _) (digits_all n Hn) _ Hin). done.
Qed.

Lemma no_trim_port s n :
  0 <= n -> (forall c, head s = Some c -> isspace c = false) -> s <> [] ->
  trim_back (skip_space (s ++ to_string n)) = s ++ to_string n.
Proof.
  intros Hn Hh Hne. destruct (last_digits n Hn) as (d & Hd & Hdd).
  rewrite skip_space_id, trim_back_id; [done| |].
  - intros c Hc. rewrite last_app, Hd in Hc. simplify_eq. by apply is_digit_not_space.
  - intros c Hc. destruct s; [done|]. simpl in Hc. by apply Hh.
Qed.

Lemma parse_host_port_plain h n :
  h <> [] -> plain_host h -> 0 <= n <= SIZE_MAX ->
  parse_host_port (h ++ ":"%char :: to_string n) = (h, u16 n).
Proof.
  intros Hne Hp Hn. unfold parse_host_port.
  assert (forall c, head h = Some c -> isspace c = false) as Hh.
  { intros c Hc. destruct h as [|c' h]; [done|]. apply Forall_cons in Hp as [[? _] _].
    by simplify_eq/=. }
  assert (":"%char ∉ h) as Hcol.
  { intros Hin. by destruct (proj1 (Forall_forall _ _) Hp _ Hin) as (_ & ? & _). }
  assert (trim_back (skip_space (h ++ ":"%char :: to_string n)) = h ++ ":"%char :: to_string n)
    as ->.
  { change (":"%char :: to_string n) with ([":"%char] ++ to_string n). rewrite app_assoc.
    apply no_trim_port; [lia|by destruct h|by destruct h]. }
  destruct h as [|c h]; [done|]. cbn [app].
  rewrite decide_False by (apply Forall_cons in Hp; naive_solver).
  change (c :: h ++ ":"%char :: to_string n) with ((c :: h) ++ ":"%char :: to_string n).
  rewrite rfind_char_app by (apply colon_not_digits; lia).
  rewrite find_char_app by done. rewrite decide_False by naive_solver.
  unfold substr. rewrite drop_0, take_app_length, drop_app_add. simpl.
  by rewrite drop_0, strtoul_to_string by lia.
Qed.

Lemma parse_host_port_bracket h n :
  plain_host h -> 0 <= n <= SIZE_MAX ->
  parse_host_port ("["%char :: h ++ "]"%char :: ":"%char :: to_string n) = (h, u16 n).
Proof.
  intros Hp Hn. unfold parse_host_port.
  assert ("]"%char ∉ "["%char :: h) as Hbr.
  { intros [?|Hin]%elem_of_cons; [done|].
    by destruct (proj1 (Forall_forall _ _) Hp _ Hin) as (_ & _ & _ & ?). }
  set (hp := "["%char :: h ++ "]"%char :: ":"%char :: to_string n).
  assert (hp = ("["%char :: h ++ ["]"%char; ":"%char]) ++ to_string n) as Hhp.
  { unfold hp. simpl. by rewrite <- app_assoc. }
  assert (trim_back (skip_space hp) = hp) as ->.
  { rewrite Hhp. apply no_trim_port; [lia|naive_solver|done]. }
  assert (find_char "]" hp = Some (S (length h))) as Hfind.
  { apply (find_char_app "]" ("["%char :: h)); done. }
  assert (hp !! (S (length h) + 1)%nat = Some ":"%char) as Hcol.
  { change hp with (("["%char :: h) ++ "]"%char :: ":"%char :: to_string n).
    rewrite lookup_app_r by (simpl; lia). simpl.
    by replace (length h + 1 - length h)%nat with 1%nat by lia. }
  assert (drop (S (length h) + 2) hp = to_string n) as Hdrop.
  { rewrite Hhp. apply drop_app_length'. simpl. rewrite length_app. simpl. lia. }
  rewrite Hfind, Hdrop, Hcol. unfold hp at 1. cbn [app].
  rewrite decide_True by done. rewrite bool_decide_true by done.
  replace (_ <=? _)%nat with true; simpl.
  - rewrite strtoul_to_string by lia. unfold substr, hp. simpl.
    rewrite Nat.sub_0_r, drop_0, take_app_length. done.
  - symmetry. apply Nat.leb_le. subst hp. simpl. rewrite length_app. simpl. lia.
Qed.

(** C34: the authority printed as "host:port" (a host without spaces, colons
    and brackets) parses back to the host and the port reduced modulo 2^16 —
    so a port below 65536 round-trips and a larger one is silently truncated;
    the bracketed form "[host]:port" parses back likewise. *)
Theorem parse_host_port_roundtrip h n :
  h <> [] -> plain_host h -> 0 <= n <= SIZE_MAX ->
  parse_host_port (h ++ bs ":" ++ to_string n) = (h, u16 n) /\
  parse_host_port (bs "[" ++ h ++ bs "]:" ++ to_string n) = (h, u16 n).
Proof.
  intros Hne Hp Hn. split; [by apply parse_host_port_plain|by apply parse_host_port_bracket].
Qed.

Lemma parse_host_port_roundtrip_witness :
  parse_host_port (bs "example.com:8080") = (bs "example.com", 8080) /\
  parse_host_port (bs "example.com:65616") = (bs "example.com", 80).
Proof.
  split.
  - apply (parse_host_port_roundtrip (bs "example.com") 8080);
      [discriminate|apply (bool_decide_unpack _); vm_compute; exact I|unfold SIZE_MAX; lia].
  - apply (parse_host_port_roundtrip (bs "example.com") 65616);
      [discriminate|apply (bool_decide_unpack _); vm_compute; exact I|unfold SIZE_MAX; lia].
Defined.

(** C10: incremental parsing is insensitive to buffering.  If the buffers fed to
    [parse], in any chunking (empty buffers included), make llhttp deliver the
    callbacks of one message with its tokens in any fragmentation, then every
    [parse] call succeeds, the message is complete and the request is the
    message's: URL, version and body concatenated, headers keyed by their
    lower-cased names with the last duplicate winning, host, port and chunked
    derived from them. *)
Theorem parse_chunks_assemble `{Llhttp} (s : http_request_parser) chunks m p :
  has_parse_error s = false -> Forall line_ok (m_lines m) ->
  execute_all (parser_ s) chunks = Some (message_events m, p) ->
  let '(ok, s') := parse_all s chunks in
  ok = true /\ is_message_complete s' = true /\ request_ s' = request_of m /\
  forall k, hdrs (request_ s') !! k =
    snd <$> last (filter (fun b => b.1 = k) (line_binding <$> m_lines m)).
Proof.
  intros Hs Hls Hex. rewrite (parse_all_execute s chunks _ p) by done.
  destruct (message_fold s m Hls) as (H1 & H2 & _).
  split_and!; [done|unfold is_message_complete, with_parser; cbn [parse_state_]; by rewrite H1|done|].
  intros k. unfold with_parser; cbn [request_]. rewrite H2, <- headers_of_lookup.
  unfold request_of, post_process_headers; cbn [hdrs is_connect url host port].
  destruct (hi_is_connect (m_info m)); [by destruct (parse_host_port (concat (m_url m)))|].
  destruct (headers_of (m_lines m) !! bs "host") as [h|]; [by destruct (parse_host_port h)|done].
Qed.

(** A GET in two buffers, split inside a header name. *)
Definition demo_info : head_info := mk_head_info (bs "GET") false 0 true 0.
Definition demo_message : message :=
  mk_message [bs "http://h/"; bs "x"] [bs "1.1"]
    [mk_line [bs "Ho"; bs "st"] [bs "h:81"]; mk_line [bs "X-A"] [[]]] demo_info [].
Definition demo_llhttp : Llhttp :=
  scripted [(take 4 (message_events demo_message), HPE_OK);
            (drop 4 (message_events demo_message), HPE_OK)].

Lemma parse_chunks_assemble_witness :
  let '(ok, s') := @parse_all demo_llhttp (@parser_new demo_llhttp) [bs "GET "; []; bs "rest"] in
  ok = true /\ is_message_complete s' = true /\ request_ s' = request_of demo_message /\
  forall k, hdrs (request_ s') !! k =
    snd <$> last (filter (fun b => b.1 = k) (line_binding <$> m_lines demo_message)).
Proof.
  apply (@parse_chunks_assemble demo_llhttp _ _ demo_message []).
  - reflexivity.
  - repeat constructor; discriminate.
  - reflexivity.
Defined.

(** A parse error is sticky.  When llhttp reports any error other than the
    upgrade pause, [parse] returns false with the error recorded, and every
    later [parse] returns false and leaves the parser unchanged until
    [reset_for_next_message], which clears the request and the error. *)
Theorem parse_error_sticky `{Llhttp} (s : http_request_parser) data evs err p :
  has_parse_error s = false -> data <> [] ->
  llhttp_execute (parser_ s) data = (evs, err, p) ->
  err <> HPE_OK -> err <> HPE_PAUSED_UPGRADE ->
  let '(ok, s1) := parse s data in
  ok = false /\ has_parse_error s1 = true /\ parse_error_ s1 = error_text err p /\
  (forall more, parse_all s1 more = (bool_decide (more = []), s1)) /\
  has_parse_error (reset_for_next_message s1) = false /\
  request_ (reset_for_next_message s1) = request_default.
Proof.
  intros Hs Hd Hex H1 H2. unfold parse. rewrite Hs, bool_decide_false by done. simpl. rewrite Hex.
  destruct (err =? HPE_OK) eqn:E1; hp_bool; [done|].
  destruct (err =? HPE_PAUSED_UPGRADE) eqn:E2; hp_bool; [done|].
  split_and!; try done. intros [|d more]; done.
Qed.

Definition demo_bad_llhttp : Llhttp := scripted [([], 6)].

Lemma parse_error_sticky_witness :
  let '(ok, s1) := @parse demo_bad_llhttp (@parser_new demo_bad_llhttp) (bs "???") in
  ok = false /\ has_parse_error s1 = true /\ parse_error_ s1 = @error_text demo_bad_llhttp 6 [] /\
  (forall more, parse_all s1 more = (bool_decide (more = []), s1)) /\
  has_parse_error (reset_for_next_message s1) = false /\
  request_ (reset_for_next_message s1) = request_default.
Proof.
  apply (@parse_error_sticky demo_bad_llhttp _ _ [] 6 []);
    [reflexivity|discriminate|reflexivity|discriminate|discriminate].
Defined.

(** C40: the requests a parser holds are well typed.  Whatever data it is fed and
    whatever tokens llhttp makes of it (also after errors, resets and trailers),
    the port is a [uint16_t], the length a [uint64_t], and every header is
    stored under a name in lower case, so that the lookups of the other
    components find it. *)
Theorem requests_well_typed `{Llhttp} good (uses : list parser_use) :
  typed_tokenizer good -> request_typed (request_ (foldl parser_step parser_new uses)).
Proof.
  intros [G1 G2 G3 G4].
  assert (request_typed (request_ parser_new) /\ good (parser_ parser_new)) as Hs
    by (split; [apply request_default_typed|done]).
  revert Hs. generalize parser_new as s. induction uses as [|u uses IH]; intros s [Hs Hg]; [done|]. apply IH.
  destruct u as [d|]; [|split; [apply request_default_typed|by apply G3]]. simpl. unfold parse.
  destruct (_ || _); [done|]. destruct (llhttp_execute _ d) as [[evs err] p] eqn:E.
  destruct (G2 _ _ _ _ _ Hg E) as [He Hp]. pose proof (on_events_typed s evs Hs He).
  repeat case_match; simpl; auto.
Qed.

Lemma requests_well_typed_witness :
  let s := foldl (@parser_step demo_llhttp) (@parser_new demo_llhttp)
             [UseParse (bs "GET "); UseParse (bs "rest")] in
  request_ s = request_of demo_message /\ request_typed (request_ s).
Proof.
  split; [reflexivity|].
  apply (@requests_well_typed demo_llhttp (Forall (fun a => Forall event_typed a.1))).
  assert (Forall (fun a => Forall event_typed a.1) (@llhttp_init demo_llhttp)) as Hi
    by (repeat constructor; simpl; lia).
  constructor; [exact Hi| |intros; exact Hi|done].
  intros p d evs err p' Hp E. destruct Hp as [|[evs0 err0] p0 Hp]; simpl in E; injection E as <- <- <-; done.
Defined.

(** Of two complete messages delivered by one [llhttp_execute] call (two
    pipelined requests in one read), only the second survives: after [parse]
    the parser reports one complete message, whose request is the second's. *)
Theorem pipelined_first_lost `{Llhttp} (s : http_request_parser) data m1 m2 p :
  has_parse_error s = false -> data <> [] ->
  Forall line_ok (m_lines m1) -> Forall line_ok (m_lines m2) ->
  llhttp_execute (parser_ s) data = (message_events m1 ++ message_events m2, HPE_OK, p) ->
  let '(ok, s') := parse s data in
  ok = true /\ is_message_complete s' = true /\ request_ s' = request_of m2.
Proof.
  intros Hs Hd _ Hl2 Hex. unfold parse. rewrite Hs, bool_decide_false by done. simpl. rewrite Hex.
  cbn [Z.eqb HPE_OK]. rewrite foldl_app.
  destruct (message_fold (foldl on_event s (message_events m1)) m2 Hl2) as (H1 & H2 & _).
  split_and!; [done|unfold is_message_complete, with_parser; cbn [parse_state_]; by rewrite H1|done].
Qed.

Definition demo_message2 : message :=
  mk_message [bs "http://h/second"] [bs "1.1"] [mk_line [bs "Host"] [bs "h"]] demo_info [].
Definition demo_pipelined : Llhttp :=
  scripted [(message_events demo_message ++ message_events demo_message2, HPE_OK)].

Lemma pipelined_first_lost_witness :
  let '(ok, s') := @parse demo_pipelined (@parser_new demo_pipelined) (bs "two requests") in
  ok = true /\ is_message_complete s' = true /\ request_ s' = request_of demo_message2.
Proof.
  apply (@pipelined_first_lost demo_pipelined _ _ demo_message demo_message2 []);
    [reflexivity|discriminate|repeat constructor; discriminate|repeat constructor; discriminate|
     reflexivity].
Defined.
