(* ===== verification/HttpResponseParser.v ===== *)
(** * HttpResponseParser: [http_response_parser] of src/src/net/http/http_response_parser.{h,cpp}

    The response twin of the request parser: the status line callback, a
    [parse] that ignores input once the message is complete, and [finish] for
    responses that end with the stream.  The theorem: any chunking assembles
    the response, and [finish] completes a response llhttp accepts at EOF. *)

From S2P Require Import Prelude Bytes Llhttp HeaderFields.

Local Open Scope Z_scope.

(* src/src/net/http/http_response_parser.h:12-17 http_response_parser::parse_state *)
Inductive parse_state := kReadingResponse | kMessageComplete | kUpgradedTunnel | kParseError.

#[export] Instance resp_parse_state_eq_dec : EqDecision parse_state.
Proof. solve_decision. Defined.

(* src/src/net/http/http_response_parser.h:19-28 http_response_parser::response_info *)
Record response_info := mk_response {
  status_code : Z;      (** [int] *)
  reason_phrase : bytes;
  version : bytes;
  content_length : Z;   (** [uint64_t] *)
  chunked : bool;
  keep_alive : bool;
  hdrs : headers;       (** [headers] *)
  body : bytes;
}.

(** [response_info{}]. *)
Definition response_default : response_info := mk_response 0 [] [] 0 false false ∅ [].

(* src/src/net/http/http_response_parser.cpp:171-176 http_response_parser::to_lower_ascii *)
Definition resp_to_lower_ascii (value : bytes) : bytes := lower value.

(* src/src/net/http/http_response_parser.cpp:163-169 http_response_parser::post_process_headers *)
Definition post_process_headers (r : response_info) : response_info :=
  match hdrs r !! bs "transfer-encoding" with
  | Some te =>
      mk_response (status_code r) (reason_phrase r) (version r) (content_length r)
        (bool_decide (is_Some (find_sub (bs "chunked") (resp_to_lower_ascii te))))
        (keep_alive r) (hdrs r) (body r)
  | None => r
  end.

Section parser.
Context `{L : Llhttp}.

(* src/src/net/http/http_response_parser.h:67-76 http_response_parser *)
Record http_response_parser := mk_parser {
  parser_ : llhttp_t;
  parse_state_ : parse_state;
  parse_error_ : bytes;
  response_ : response_info;
  pending_ : pending_header;
}.

(* src/src/net/http/http_response_parser.cpp:69-82 http_response_parser::init_parser *)
Definition parser_new : http_response_parser :=
  mk_parser llhttp_init kReadingResponse [] response_default pending_none.

(* src/src/net/http/http_response_parser.h:34-37 http_response_parser::is_message_complete *)
Definition is_message_complete (s : http_response_parser) : bool :=
  match parse_state_ s with kMessageComplete | kUpgradedTunnel => true | _ => false end.

(* src/src/net/http/http_response_parser.h:39-39 http_response_parser::has_parse_error *)
Definition has_parse_error (s : http_response_parser) : bool :=
  bool_decide (parse_state_ s = kParseError).

Definition with_response (s : http_response_parser) (r : response_info) : http_response_parser :=
  mk_parser (parser_ s) (parse_state_ s) (parse_error_ s) r (pending_ s).

Definition with_state (s : http_response_parser) (st : parse_state) : http_response_parser :=
  mk_parser (parser_ s) st (parse_error_ s) (response_ s) (pending_ s).

Definition with_parser (s : http_response_parser) (p : llhttp_t) : http_response_parser :=
  mk_parser p (parse_state_ s) (parse_error_ s) (response_ s) (pending_ s).

Definition with_headers (s : http_response_parser) (p : pending_header) (m : headers)
  : http_response_parser :=
  let r := response_ s in
  mk_parser (parser_ s) (parse_state_ s) (parse_error_ s)
    (mk_response (status_code r) (reason_phrase r) (version r) (content_length r)
       (chunked r) (keep_alive r) m (body r)) p.

(* src/src/net/http/http_response_parser.cpp:84-89 http_response_parser::clear_response_runtime *)
Definition clear_response_runtime (s : http_response_parser) : http_response_parser :=
  mk_parser (parser_ s) (parse_state_ s) (parse_error_ s) response_default pending_none.

(* src/src/net/http/http_response_parser.cpp:91-96 http_response_parser::on_message_begin_cb *)
Definition on_message_begin_cb (s : http_response_parser) : http_response_parser :=
  with_state (clear_response_runtime s) kReadingResponse.

(* src/src/net/http/http_response_parser.cpp:98-102 http_response_parser::on_status_cb *)
Definition on_status_cb (s : http_response_parser) (at_ : bytes) : http_response_parser :=
  let r := response_ s in
  with_response s (mk_response (status_code r) (reason_phrase r ++ at_) (version r)
    (content_length r) (chunked r) (keep_alive r) (hdrs r) (body r)).

(* src/src/net/http/http_response_parser.cpp:104-108 http_response_parser::on_version_cb *)
Definition on_version_cb (s : http_response_parser) (at_ : bytes) : http_response_parser :=
  let r := response_ s in
  with_response s (mk_response (status_code r) (reason_phrase r) (version r ++ at_)
    (content_length r) (chunked r) (keep_alive r) (hdrs r) (body r)).

(* src/src/net/http/http_response_parser.cpp:110-122 http_response_parser::on_header_field_cb *)
Definition on_header_field_cb (s : http_response_parser) (at_ : bytes) : http_response_parser :=
  let '(p, m) := header_field (pending_ s) (hdrs (response_ s)) at_ in with_headers s p m.

(* src/src/net/http/http_response_parser.cpp:124-130 http_response_parser::on_header_value_cb *)
Definition on_header_value_cb (s : http_response_parser) (at_ : bytes) : http_response_parser :=
  with_headers s (header_value (pending_ s) at_) (hdrs (response_ s)).

(** Ends with [finish_pending_header] (lines 154-161), as in the request parser. *)
(* src/src/net/http/http_response_parser.cpp:132-140 http_response_parser::on_headers_complete_cb *)
Definition on_headers_complete_cb (s : http_response_parser) (i : head_info)
  : http_response_parser :=
  let r := response_ s in
  with_response s (post_process_headers
    (mk_response (hi_status_code i) (reason_phrase r) (version r) (hi_content_length i)
       (chunked r) (hi_should_keep_alive i)
       (finish_pending_header (pending_ s) (hdrs r)) (body r))).

(* src/src/net/http/http_response_parser.cpp:142-146 http_response_parser::on_body_cb *)
Definition on_body_cb (s : http_response_parser) (at_ : bytes) : http_response_parser :=
  let r := response_ s in
  with_response s (mk_response (status_code r) (reason_phrase r) (version r)
    (content_length r) (chunked r) (keep_alive r) (hdrs r) (body r ++ at_)).

(* src/src/net/http/http_response_parser.cpp:148-152 http_response_parser::on_message_complete_cb *)
Definition on_message_complete_cb (s : http_response_parser) : http_response_parser :=
  with_state s kMessageComplete.

(** The dispatch of llhttp through [settings_]; [on_url] is not registered. *)
(* src/src/net/http/http_response_parser.cpp:70-78 http_response_parser::init_parser *)
Definition on_event (s : http_response_parser) (e : event) : http_response_parser :=
  match e with
  | EvMessageBegin => on_message_begin_cb s
  | EvUrl _ => s
  | EvVersion at_ => on_version_cb s at_
  | EvStatus at_ => on_status_cb s at_
  | EvHeaderField at_ => on_header_field_cb s at_
  | EvHeaderValue at_ => on_header_value_cb s at_
  | EvHeadersComplete i => on_headers_complete_cb s i
  | EvBody at_ => on_body_cb s at_
  | EvMessageComplete => on_message_complete_cb s
  end.

(* src/src/net/http/http_response_parser.cpp:33-38 http_response_parser::parse *)
Definition error_text (err : Z) (p : llhttp_t) : bytes :=
  llhttp_errno_name err ++
  match llhttp_get_error_reason p with
  | Some (c :: r) => bs ": " ++ c :: r
  | _ => []
  end.

(* src/src/net/http/http_response_parser.cpp:15-40 http_response_parser::parse *)
Definition parse (s : http_response_parser) (data : bytes) : bool * http_response_parser :=
  if has_parse_error s || is_message_complete s || bool_decide (data = [])
  then (negb (has_parse_error s), s)
  else
    let '(evs, err, p) := llhttp_execute (parser_ s) data in
    let s := with_parser (foldl on_event s evs) p in
    if err =? HPE_OK then (true, s)
    else if err =? HPE_PAUSED_UPGRADE then
      (true, with_parser (with_state s kUpgradedTunnel) (llhttp_resume_after_upgrade p))
    else
      (false, mk_parser p kParseError (error_text err p) (response_ s) (pending_ s)).

(* src/src/net/http/http_response_parser.cpp:42-58 http_response_parser::finish *)
Definition finish (s : http_response_parser) : bool * http_response_parser :=
  if has_parse_error s || is_message_complete s then (negb (has_parse_error s), s)
  else
    let '(evs, err, p) := llhttp_finish (parser_ s) in
    let s := with_parser (foldl on_event s evs) p in
    if (err =? HPE_OK) || (err =? HPE_PAUSED) then
      (true, if decide (parse_state_ s <> kUpgradedTunnel)
             then with_state s kMessageComplete else s)
    else
      (false, mk_parser p kParseError (llhttp_errno_name err) (response_ s) (pending_ s)).

(* src/src/net/http/http_response_parser.cpp:60-67 http_response_parser::reset_for_next_message *)
Definition reset_for_next_message (s : http_response_parser) : http_response_parser :=
  let s := clear_response_runtime s in
  mk_parser (llhttp_reset (parser_ s)) kReadingResponse [] (response_ s) (pending_ s).

(** ** Specification *)

(** The callbacks of one response head and body; the end of the message is
    separate, since a response without a length ends with the stream. *)
Record message := mk_message {
  m_version : list bytes;
  m_status : list bytes;
  m_lines : list header_line;
  m_info : head_info;
  m_body : list bytes;
}.

Definition message_open (m : message) : list event :=
  EvMessageBegin :: (EvVersion <$> m_version m) ++ (EvStatus <$> m_status m) ++
  mjoin (line_events <$> m_lines m) ++
  EvHeadersComplete (m_info m) :: (EvBody <$> m_body m).

Definition message_events (m : message) : list event := message_open m ++ [EvMessageComplete].

Definition response_of (m : message) : response_info :=
  let i := m_info m in
  let r := post_process_headers
    (mk_response (hi_status_code i) (concat (m_status m)) (concat (m_version m))
       (hi_content_length i) false (hi_should_keep_alive i) (headers_of (m_lines m)) []) in
  mk_response (status_code r) (reason_phrase r) (version r) (content_length r)
    (chunked r) (keep_alive r) (hdrs r) (concat (m_body m)).

Fixpoint execute_all (p : llhttp_t) (chunks : list bytes) : option (list event * llhttp_t) :=
  match chunks with
  | [] => Some ([], p)
  | d :: ds =>
      if bool_decide (d = []) then execute_all p ds else
      let '(evs, err, p1) := llhttp_execute p d in
      if err =? HPE_OK then
        '(evs', p') ← execute_all p1 ds; Some (evs ++ evs', p')
      else None
  end.

Fixpoint parse_all (s : http_response_parser) (chunks : list bytes) : bool * http_response_parser :=
  match chunks with
  | [] => (true, s)
  | d :: ds =>
      let '(ok, s1) := parse s d in
      if ok then parse_all s1 ds else (false, s1)
  end.

(** ** Lemmas *)

Lemma resp_on_event_with_parser s p e :
  on_event (with_parser s p) e = with_parser (on_event s e) p.
Proof.
  destruct e; simpl; try done. unfold on_header_field_cb; simpl.
  by destruct (header_field _ _ _).
Qed.

Lemma resp_on_events_with_parser s p evs :
  foldl on_event (with_parser s p) evs = with_parser (foldl on_event s evs) p.
Proof.
  revert s. induction evs as [|e evs IH]; intros s; simpl; [done|].
  by rewrite resp_on_event_with_parser, IH.
Qed.

(** Without the completion callback the parser keeps reading. *)
Lemma resp_fold_reading s evs :
  EvMessageComplete ∉ evs -> parse_state_ s = kReadingResponse ->
  parse_state_ (foldl on_event s evs) = kReadingResponse.
Proof.
  revert s. induction evs as [|e evs IH]; intros s Hn Hs; simpl; [done|].
  apply IH; [set_solver|]. destruct e; simpl; try done; [|set_solver].
  unfold on_header_field_cb. by destruct (header_field _ _ _).
Qed.

Lemma message_open_no_complete m : EvMessageComplete ∉ message_open m.
Proof.
  unfold message_open. rewrite elem_of_cons, !elem_of_app, elem_of_cons, !list_elem_of_fmap.
  intros [?|[(?&?&_)|[(?&?&_)|[Hl|[?|(?&?&_)]]]]]; try done.
  by apply (proj1 (Forall_forall _ _) (line_events_headers_only _)) in Hl.
Qed.

Lemma resp_version_fold s fs :
  foldl on_event s (EvVersion <$> fs) =
    with_response s (let r := response_ s in
      mk_response (status_code r) (reason_phrase r) (version r ++ concat fs)
        (content_length r) (chunked r) (keep_alive r) (hdrs r) (body r)).
Proof.
  revert s. induction fs as [|x fs IH]; intros s; simpl.
  - rewrite app_nil_r. destruct s as [? ? ? [] ?]; done.
  - rewrite IH. unfold on_version_cb, with_response; simpl. by rewrite app_assoc.
Qed.

Lemma resp_status_fold s fs :
  foldl on_event s (EvStatus <$> fs) =
    with_response s (let r := response_ s in
      mk_response (status_code r) (reason_phrase r ++ concat fs) (version r)
        (content_length r) (chunked r) (keep_alive r) (hdrs r) (body r)).
Proof.
  revert s. induction fs as [|x fs IH]; intros s; simpl.
  - rewrite app_nil_r. destruct s as [? ? ? [] ?]; done.
  - rewrite IH. unfold on_status_cb, with_response; simpl. by rewrite app_assoc.
Qed.

Lemma resp_body_fold s fs :
  foldl on_event s (EvBody <$> fs) =
    with_response s (let r := response_ s in
      mk_response (status_code r) (reason_phrase r) (version r)
        (content_length r) (chunked r) (keep_alive r) (hdrs r) (body r ++ concat fs)).
Proof.
  revert s. induction fs as [|x fs IH]; intros s; simpl.
  - rewrite app_nil_r. destruct s as [? ? ? [] ?]; done.
  - rewrite IH. unfold on_body_cb, with_response; simpl. by rewrite app_assoc.
Qed.

Lemma resp_header_fold s ls :
  foldl on_event s (mjoin (line_events <$> ls)) =
    let st := foldl header_event (pending_ s, hdrs (response_ s)) (mjoin (line_events <$> ls)) in
    with_headers s st.1 st.2.
Proof.
  pose proof (line_events_headers_only ls) as Hall.
  revert s. induction Hall as [|e evs He _ IH]; intros s; simpl.
  - unfold with_headers. destruct s as [? ? ? [] ?]; done.
  - rewrite IH. destruct e; try done; simpl.
    unfold on_header_field_cb. by destruct (header_field _ _ _) as [p m].
Qed.

Lemma message_open_fold s m :
  Forall line_ok (m_lines m) ->
  let s' := foldl on_event s (message_open m) in
  parse_state_ s' = kReadingResponse /\ response_ s' = response_of m.
Proof.
  intros Hls. unfold message_open. cbn [foldl on_event].
  rewrite !foldl_app, resp_version_fold, resp_status_fold, resp_header_fold.
  cbn [foldl on_event]. rewrite resp_body_fold.
  pose proof (collect_headers _ Hls) as [_ Hc]. cbn zeta in Hc |- *. simpl.
  set (st := foldl header_event _ _) in *.
  change (foldl header_event (pending_none, ∅) (mjoin (line_events <$> m_lines m))) with st in Hc.
  unfold on_headers_complete_cb, with_headers, with_response. simpl. rewrite Hc.
  split; [done|]. unfold response_of, post_process_headers; cbn [hdrs].
  by destruct (headers_of (m_lines m) !! bs "transfer-encoding").
Qed.

Lemma resp_parse_complete s chunks :
  parse_state_ s = kMessageComplete -> parse_all s chunks = (true, s).
Proof.
  intros Hs. induction chunks as [|d ds IH]; simpl; [done|].
  unfold parse, has_parse_error, is_message_complete. rewrite Hs. simpl. done.
Qed.

Lemma resp_parse_reading s d evs p :
  parse_state_ s = kReadingResponse -> d <> [] ->
  llhttp_execute (parser_ s) d = (evs, HPE_OK, p) ->
  parse s d = (true, with_parser (foldl on_event s evs) p).
Proof.
  intros Hs Hd Hex. unfold parse, has_parse_error, is_message_complete.
  by rewrite Hs, (bool_decide_false _ Hd), Hex.
Qed.

(** Feeding buffers that do not complete the message. *)
Lemma resp_parse_all_open s chunks evs p :
  parse_state_ s = kReadingResponse -> EvMessageComplete ∉ evs ->
  execute_all (parser_ s) chunks = Some (evs, p) ->
  parse_all s chunks = (true, with_parser (foldl on_event s evs) p).
Proof.
  revert s evs. induction chunks as [|d ds IH]; cbn [execute_all parse_all]; intros s evs Hs Hn Hex.
  - simplify_eq. by destruct s.
  - destruct (bool_decide (d = [])) eqn:Hd.
    + hp_bool. subst d. unfold parse, has_parse_error, is_message_complete. rewrite Hs. simpl.
      by apply IH.
    + destruct (llhttp_execute (parser_ s) d) as [[evs1 err] p1] eqn:E.
      destruct (err =? HPE_OK) eqn:Eo; [|done]. hp_bool. subst err.
      destruct (execute_all p1 ds) as [[evs2 p2]|] eqn:Hex2; simplify_eq/=.
      rewrite (resp_parse_reading s d evs1 p1) by done.
      rewrite (IH _ evs2); [by rewrite resp_on_events_with_parser, foldl_app| |set_solver|done].
      apply resp_fold_reading; [set_solver|done].
Qed.

(** Feeding buffers whose last callback completes the message; what follows
    the completion in further buffers is not parsed. *)
Lemma resp_parse_all_complete s chunks pre p :
  parse_state_ s = kReadingResponse -> EvMessageComplete ∉ pre ->
  execute_all (parser_ s) chunks = Some (pre ++ [EvMessageComplete], p) ->
  exists p', parse_all s chunks =
    (true, with_parser (foldl on_event s (pre ++ [EvMessageComplete])) p').
Proof.
  revert s pre. induction chunks as [|d ds IH]; cbn [execute_all parse_all]; intros s pre Hs Hn Hex.
  - by destruct pre.
  - destruct (bool_decide (d = [])) eqn:Hd.
    + hp_bool. subst d. unfold parse, has_parse_error, is_message_complete. rewrite Hs. simpl.
      by apply IH.
    + destruct (llhttp_execute (parser_ s) d) as [[evs1 err] p1] eqn:E.
      destruct (err =? HPE_OK) eqn:Eo; [|done]. hp_bool. subst err.
      destruct (execute_all p1 ds) as [[evs2 p2]|] eqn:Hex2; simplify_eq/=.
      rewrite (resp_parse_reading s d evs1 p1) by done.
      destruct evs2 as [|x evs2 _] using rev_ind.
      * rewrite app_nil_r in *. subst evs1. exists p1. apply resp_parse_complete.
        unfold with_parser; cbn [parse_state_]. by rewrite foldl_snoc.
      * rewrite app_assoc in *.
        match goal with H : _ ++ [x] = _ |- _ => apply app_inj_tail in H as [<- ->] end.
        destruct (IH (with_parser (foldl on_event s evs1) p1) evs2) as [p' Hp'];
          [apply resp_fold_reading; [set_solver|done]|set_solver|done|].
        exists p'. rewrite Hp', resp_on_events_with_parser, <- foldl_app, <- app_assoc. done.
Qed.

End parser.

(** C20: the response parser assembles a response from any chunking.  A message
    completed by llhttp is complete with the response of its callbacks, and
    [finish] does not change it.  A message left open at the end of the stream
    is incomplete until [finish]: when its body runs to the end of the stream,
    [llhttp_finish] completes it and [finish] succeeds with the same response;
    when the stream was cut inside it, [finish] fails, the parser reports an
    error and every later call fails. *)
Theorem response_assembled `{Llhttp} (s : http_response_parser) chunks m p :
  parse_state_ s = kReadingResponse -> Forall line_ok (m_lines m) ->
  let '(ok, s') := parse_all s chunks in
  (execute_all (parser_ s) chunks = Some (message_events m, p) ->
     ok = true /\ is_message_complete s' = true /\ response_ s' = response_of m /\
     finish s' = (true, s')) /\
  (execute_all (parser_ s) chunks = Some (message_open m, p) ->
     ok = true /\ is_message_complete s' = false /\ response_ s' = response_of m /\
     (forall p', llhttp_finish p = (finish_answer HTTP_FINISH_SAFE_WITH_CB, p') ->
       exists s'', finish s' = (true, s'') /\ is_message_complete s'' = true /\
                   response_ s'' = response_of m) /\
     (forall p', llhttp_finish p = (finish_answer HTTP_FINISH_UNSAFE, p') ->
       exists s'', finish s' = (false, s'') /\ has_parse_error s'' = true /\
                   is_message_complete s'' = false /\ finish s'' = (false, s'') /\
                   forall d, parse s'' d = (false, s''))).
Proof.
  intros Hs Hls. destruct (parse_all s chunks) as [ok s'] eqn:Ep. split; intros Hex.
  - destruct (resp_parse_all_complete s chunks (message_open m) p Hs
                (message_open_no_complete m) Hex) as [p' Hp'].
    rewrite Hp' in Ep. simplify_eq. destruct (message_open_fold s m Hls) as [_ H2].
    rewrite foldl_snoc. unfold finish, is_message_complete, has_parse_error, with_parser.
    cbn [parse_state_ on_event on_message_complete_cb with_state response_]. by rewrite H2.
  - rewrite (resp_parse_all_open s chunks _ p Hs (message_open_no_complete m) Hex) in Ep.
    simplify_eq. destruct (message_open_fold s m Hls) as [H1 H2].
    remember (foldl on_event s (message_open m)) as s1 eqn:Es1. clear Es1.
    unfold finish, is_message_complete, has_parse_error. simpl. rewrite H1, H2.
    split_and!; [done..| |]; intros p' Hf; simpl; rewrite Hf; simpl.
    + eexists. by split_and!.
    + by eexists.
Qed.

Definition demo_resp_info : head_info := mk_head_info [] false 200 false 0.
Definition demo_resp : message :=
  mk_message [bs "1.1"] [bs "O"; bs "K"] [mk_line [bs "ETag"] [bs "v1"]] demo_resp_info
    [bs "hello"; bs " world"].
Definition demo_resp_llhttp : Llhttp :=
  scripted [(take 3 (message_events demo_resp), HPE_OK);
            (drop 3 (message_events demo_resp), HPE_OK)].

(** The same message without a length, ended by the end of the stream, and a
    message cut there. *)
Definition demo_open_llhttp (m : finish_mark) : Llhttp :=
  scripted [(message_open demo_resp, HPE_OK); finish_answer m].

Lemma response_assembled_witness :
  (let '(ok, s) := @parse_all demo_resp_llhttp (@parser_new demo_resp_llhttp)
                     [bs "HTTP/1.1 2"; bs "00 OK"; bs "late"] in
   ok = true /\ is_message_complete s = true /\ body (response_ s) = bs "hello world") /\
  (let '(ok, s) := @parse_all (demo_open_llhttp HTTP_FINISH_SAFE_WITH_CB) parser_new [bs "HTTP/1.1 200 OK"] in
   is_message_complete s = false /\
   exists s', finish s = (true, s') /\ is_message_complete s' = true /\ body (response_ s') = bs "hello world") /\
  (let '(ok, s) := @parse_all (demo_open_llhttp HTTP_FINISH_UNSAFE) parser_new [bs "HTTP/1.1 200 OK"] in
   exists s', finish s = (false, s') /\ has_parse_error s' = true).
Proof.
  assert (Forall line_ok (m_lines demo_resp)) as Hl by (repeat constructor; discriminate).
  split_and!.
  - pose proof (@response_assembled demo_resp_llhttp (@parser_new demo_resp_llhttp)
      [bs "HTTP/1.1 2"; bs "00 OK"; bs "late"] demo_resp [] eq_refl Hl) as Ht.
    destruct (@parse_all demo_resp_llhttp _ _) as [ok s].
    destruct (proj1 Ht ltac:(vm_compute; reflexivity)) as (H1 & H2 & H3 & _).
    split_and!; [done..|]. rewrite H3. reflexivity.
  - pose proof (@response_assembled (demo_open_llhttp HTTP_FINISH_SAFE_WITH_CB) parser_new
      [bs "HTTP/1.1 200 OK"] demo_resp [finish_answer HTTP_FINISH_SAFE_WITH_CB] eq_refl Hl) as Ht.
    destruct (@parse_all (demo_open_llhttp HTTP_FINISH_SAFE_WITH_CB) _ _) as [ok s].
    destruct (proj2 Ht ltac:(vm_compute; reflexivity)) as (_ & H2 & _ & H4 & _). split; [done|].
    destruct (H4 [] eq_refl) as (s' & F1 & F2 & F3). exists s'. split_and!; [done..|]. rewrite F3. reflexivity.
  - pose proof (@response_assembled (demo_open_llhttp HTTP_FINISH_UNSAFE) parser_new
      [bs "HTTP/1.1 200 OK"] demo_resp [finish_answer HTTP_FINISH_UNSAFE] eq_refl Hl) as Ht.
    destruct (@parse_all (demo_open_llhttp HTTP_FINISH_UNSAFE) _ _) as [ok s].
    destruct (proj2 Ht ltac:(vm_compute; reflexivity)) as (_ & _ & _ & _ & H5).
    destruct (H5 [] eq_refl) as (s' & F1 & F2 & _). by exists s'.
Defined.
