(* ===== verification/HttpMessageBuilder.v ===== *)
(** * HttpMessageBuilder: src/src/net/http/http_message_builder.cpp

    The builders of proxy responses and of the upstream request.  A small
    reference reader of HTTP messages (start line, header lines, body) is the
    specification: the theorems read a built message back, so no input can
    inject a line, the declared length is the body's, and the forwarded request
    carries the end-to-end headers only. *)

From S2P Require Import Prelude Bytes Llhttp HeaderFields HttpRequestParser.

Local Open Scope Z_scope.

(* src/src/net/http/http_message_builder.cpp:9-22 sanitize_header_token *)
Definition sanitize_header_token (value fallback : bytes) : bytes :=
  let out := filter (fun c => ~ (c = CR \/ c = LF)) value in
  match out with [] => fallback | _ => out end.

(* src/src/net/http/http_message_builder.cpp:24-31 sanitize_body *)
Definition sanitize_body (body : bytes) : bytes :=
  (fun c => if decide (c = CR) then " "%char else c) <$> body.

(** [std::string(url.substr(path_pos))] of the first '/' after the scheme. *)
Definition path_after (url : bytes) (host_begin : nat) : bytes :=
  match find_char_from "/" url host_begin with
  | None => bs "/"
  | Some path_pos => drop path_pos url
  end.

(* src/src/net/http/http_message_builder.cpp:33-69 build_origin_form *)
Definition build_origin_form (url : bytes) : bytes :=
  if starts_with (bs "http://") url then path_after url 7
  else if starts_with (bs "https://") url then path_after url 8
  else match url with
       | [] => bs "/"
       | c :: _ =>
           if decide (url = bs "*") then url
           else if decide (c <> "/"%char) then "/"%char :: url
           else url
       end.

(* src/src/net/http/http_message_builder.cpp:71-75 is_hop_by_hop_header *)
Definition is_hop_by_hop_header (key : bytes) : bool :=
  bool_decide (key ∈ [bs "connection"; bs "proxy-connection"; bs "keep-alive"; bs "te";
                      bs "trailer"; bs "transfer-encoding"; bs "upgrade"]).

(** One header line. *)
Definition header_line_text (kv : bytes * bytes) : bytes :=
  kv.1 ++ bs ": " ++ kv.2 ++ CRLF.

(* src/src/net/http/http_message_builder.cpp:81-104 build_plain_text_response *)
Definition build_plain_text_response (status_code : Z) (reason_phrase body : bytes)
    (close_connection : bool) : bytes :=
  let reason := sanitize_header_token reason_phrase (bs "Unknown") in
  let payload := sanitize_body body in
  bs "HTTP/1.1 " ++ to_string status_code ++ bs " " ++ reason ++ CRLF ++
  bs "Content-Type: text/plain; charset=utf-8" ++ CRLF ++
  bs "Content-Length: " ++ to_string (size_of payload) ++ CRLF ++
  bs "Connection: " ++ (if close_connection then bs "close" else bs "keep-alive") ++ CRLF ++
  CRLF ++ payload.

(* src/src/net/http/http_message_builder.cpp:106-113 build_service_unavailable_response *)
Definition build_service_unavailable_response (detail : bytes) : bytes :=
  let message := bs "proxy upstream unavailable" in
  let message := match detail with [] => message | _ => message ++ bs ": " ++ detail end in
  build_plain_text_response 503 (bs "Service Unavailable") message true.

(* src/src/net/http/http_message_builder.cpp:115-122 build_forbidden_response *)
Definition build_forbidden_response (detail : bytes) : bytes :=
  let message := bs "request forbidden" in
  let message := match detail with [] => message | _ => message ++ bs ": " ++ detail end in
  build_plain_text_response 403 (bs "Forbidden") message true.

(* src/src/net/http/http_message_builder.cpp:124-135 build_connect_established_response *)
Definition build_connect_established_response (proxy_agent : bytes) : bytes :=
  let safe_agent := sanitize_header_token proxy_agent (bs "hpserver") in
  bs "HTTP/1.1 200 Connection Established" ++ CRLF ++
  bs "Proxy-Agent: " ++ safe_agent ++ CRLF ++ CRLF.

(** The loop over [req.headers]: the text so far and the two flags. *)
(* src/src/net/http/http_message_builder.cpp:154-173 build_forward_proxy_request *)
Definition forward_header (st : bytes * bool * bool) (kv : bytes * bytes) : bytes * bool * bool :=
  let '(out, has_host_header, has_content_length_header) := st in
  if is_hop_by_hop_header kv.1 then st
  else (out ++ header_line_text kv,
        has_host_header || bool_decide (kv.1 = bs "host"),
        has_content_length_header || bool_decide (kv.1 = bs "content-length")).

(* src/src/net/http/http_message_builder.cpp:137-195 build_forward_proxy_request *)
Definition build_forward_proxy_request `{HeaderOrder} (req : request_info) : bytes :=
  if bool_decide (method req = []) || bool_decide (host req = []) || is_connect req then []
  else
    let target := build_origin_form (url req) in
    let version := match version req with [] => bs "1.1" | v => v end in
    let out := method req ++ bs " " ++ target ++ bs " HTTP/" ++ version ++ CRLF in
    let '(out, has_host_header, has_content_length_header) :=
      foldl forward_header (out, false, false) (header_order (hdrs req)) in
    let out :=
      if has_host_header then out
      else out ++ bs "host: " ++ host req ++
           (if negb (port req =? 0) && negb (port req =? 80)
            then bs ":" ++ to_string (port req) else []) ++ CRLF in
    let out :=
      if negb has_content_length_header && negb (bool_decide (body req = []))
      then out ++ bs "content-length: " ++ to_string (size_of (body req)) ++ CRLF
      else out in
    out ++ bs "connection: close" ++ CRLF ++ CRLF ++ body req.

(** ** Reference reader *)

(** The text up to the first CRLF and the rest. *)
Fixpoint read_line (s : bytes) : option (bytes * bytes) :=
  match s with
  | [] => None
  | c :: s' =>
      match s' with
      | d :: r =>
          if decide (c = CR /\ d = LF) then Some ([], r)
          else '(l, r') ← read_line s'; Some (c :: l, r')
      | [] => None
      end
  end.

(** "name: value". *)
Definition read_header (l : bytes) : option (bytes * bytes) :=
  n ← find_char ":" l; Some (take n l, drop (n + 2) l).

(** Header lines up to the empty line; the rest is the body.  Each line
    consumes input, so the length of the text is enough fuel. *)
Fixpoint read_headers (fuel : nat) (s : bytes) : option (list (bytes * bytes) * bytes) :=
  match fuel with
  | O => None
  | S f =>
      '(l, r) ← read_line s;
      match l with
      | [] => Some ([], r)
      | _ => h ← read_header l; '(hs, b) ← read_headers f r; Some (h :: hs, b)
      end
  end.

(** Start line, header list and body of an HTTP/1 message. *)
Definition read_message (s : bytes) : option (bytes * list (bytes * bytes) * bytes) :=
  '(start, r) ← read_line s; '(hs, b) ← read_headers (length r) r; Some (start, hs, b).

(** A header that stays one line and splits at its colon. *)
Definition header_safe (kv : bytes * bytes) : Prop :=
  kv.1 <> [] /\ one_line kv.1 /\ ":"%char ∉ kv.1 /\ one_line kv.2.

#[export] Instance header_safe_dec kv : Decision (header_safe kv).
Proof. unfold header_safe. apply _. Defined.

(** The header list a forwarded request must carry. *)
Definition forwarded_headers (ord : list (bytes * bytes)) (req : request_info)
  : list (bytes * bytes) :=
  let kept := filter (fun kv => is_hop_by_hop_header kv.1 = false) ord in
  kept ++
  (if decide (bs "host" ∈ kept.*1) then []
   else [(bs "host", host req ++
          (if negb (port req =? 0) && negb (port req =? 80)
           then bs ":" ++ to_string (port req) else []))]) ++
  (if decide (bs "content-length" ∈ kept.*1 \/ body req = []) then []
   else [(bs "content-length", to_string (size_of (body req)))]) ++
  [(bs "connection", bs "close")].

(** ** Lemmas: the reader *)

Lemma read_line_cons c d r :
  ~ (c = CR /\ d = LF) ->
  read_line (c :: d :: r) = '(l, r') ← read_line (d :: r); Some (c :: l, r').
Proof. intros Hn. cbn [read_line]. by rewrite decide_False. Qed.

Lemma read_line_app l r : one_line l -> read_line (l ++ CRLF ++ r) = Some (l, r).
Proof.
  induction 1 as [|c l [Hc1 Hc2] Hl IH]; [done|].
  change ((c :: l) ++ CRLF ++ r) with (c :: (l ++ CRLF ++ r)).
  destruct (l ++ CRLF ++ r) as [|d t] eqn:E; [by destruct l|].
  rewrite read_line_cons by naive_solver. by rewrite IH.
Qed.

Lemma read_header_app k v : ":"%char ∉ k -> read_header (k ++ bs ": " ++ v) = Some (k, v).
Proof.
  intros Hk. unfold read_header. change (bs ": " ++ v) with (":"%char :: " "%char :: v).
  rewrite find_char_app by done. simpl. by rewrite take_app_length, drop_app_add.
Qed.

Lemma header_lines_cons kv hs :
  mjoin (header_line_text <$> kv :: hs) =
    header_line_text kv ++ mjoin (header_line_text <$> hs).
Proof. done. Qed.

Lemma header_lines_one kv : mjoin (header_line_text <$> [kv]) = kv.1 ++ bs ": " ++ kv.2 ++ CRLF.
Proof. apply app_nil_r. Qed.

Lemma read_headers_app hs body fuel :
  Forall header_safe hs -> (length hs < fuel)%nat ->
  read_headers fuel (mjoin (header_line_text <$> hs) ++ CRLF ++ body) = Some (hs, body).
Proof.
  intros Hhs. revert fuel. induction Hhs as [|[k v] hs (Hk1 & Hk2 & Hk3 & Hv) _ IH];
    intros [|fuel] Hf; simpl in Hf; try lia; [done|].
  rewrite header_lines_cons. unfold header_line_text at 1. cbn [fst snd] in *.
  rewrite <- !app_assoc. cbn [read_headers].
  rewrite (app_assoc k), (app_assoc (k ++ bs ": ")).
  assert (one_line ((k ++ bs ": ") ++ v)) as H1.
  { rewrite !one_line_app. split_and!; [done| |done].
    by apply (bool_decide_unpack _). }
  rewrite read_line_app by done. rewrite <- app_assoc. cbn [mbind option_bind].
  destruct (k ++ bs ": " ++ v) eqn:E; [by destruct k|]. rewrite <- E.
  rewrite read_header_app by done. cbn [mbind option_bind].
  rewrite IH by lia. done.
Qed.

Lemma length_header_lines hs :
  (length hs <= length (mjoin (header_line_text <$> hs)))%nat.
Proof.
  induction hs as [|kv hs IH]; [done|]. rewrite header_lines_cons, length_app.
  unfold header_line_text at 1. rewrite !length_app. simpl. lia.
Qed.

(** Reading a rendered message back. *)
Lemma read_message_app start hs body :
  one_line start -> Forall header_safe hs ->
  read_message (start ++ CRLF ++ mjoin (header_line_text <$> hs) ++ CRLF ++ body) =
    Some (start, hs, body).
Proof.
  intros Hs Hhs. unfold read_message. rewrite read_line_app by done. cbn [mbind option_bind].
  rewrite read_headers_app; [done|done|].
  rewrite !length_app. pose proof (length_header_lines hs). simpl. lia.
Qed.

(** ** Lemmas: sanitizing *)

Lemma sanitize_header_token_one_line v f : one_line f -> one_line (sanitize_header_token v f).
Proof.
  intros Hf. unfold sanitize_header_token.
  assert (one_line (filter (fun c => ~ (c = CR \/ c = LF)) v)) as H.
  { apply Forall_forall. intros c [Hc _]%list_elem_of_filter. split; tauto. }
  by destruct (filter _ v).
Qed.

Lemma length_sanitize_body b : size_of (sanitize_body b) = size_of b.
Proof. unfold size_of, sanitize_body. by rewrite length_fmap. Qed.

Lemma sanitize_body_no_CR b : CR ∉ sanitize_body b.
Proof. intros (c & Hc & _)%list_elem_of_fmap. case_decide; [done|congruence]. Qed.

Lemma bs_one_line s : bool_decide (one_line (bs s)) = true -> one_line (bs s).
Proof. apply bool_decide_eq_true. Qed.

(** A literal of the source without CR and LF. *)
Ltac lit_one_line := apply bs_one_line; vm_compute; reflexivity.

(** ** Lemmas: the forwarding loop *)

Lemma forward_fold out hh hc ord :
  let kept := filter (fun kv => is_hop_by_hop_header kv.1 = false) ord in
  foldl forward_header (out, hh, hc) ord =
    (out ++ mjoin (header_line_text <$> kept),
     hh || bool_decide (bs "host" ∈ kept.*1),
     hc || bool_decide (bs "content-length" ∈ kept.*1)).
Proof.
  revert out hh hc. induction ord as [|kv ord IH]; intros out hh hc; cbn [foldl].
  - by rewrite app_nil_r, !orb_false_r.
  - unfold forward_header at 2. rewrite filter_cons.
    destruct (is_hop_by_hop_header kv.1) eqn:Eh.
    + rewrite decide_False by done. apply IH.
    + rewrite decide_True by done. rewrite IH, header_lines_cons, fmap_cons.
      rewrite <- app_assoc. f_equal; [f_equal|]; rewrite <- orb_assoc; f_equal;
        apply eq_true_iff_eq; rewrite orb_true_iff, !bool_decide_eq_true, elem_of_cons;
        naive_solver.
Qed.

Lemma starts_with_app p s : starts_with p (p ++ s) = true.
Proof. apply bool_decide_true. by eexists. Qed.

Lemma not_http s : starts_with (bs "http://") (bs "https://" ++ s) = false.
Proof. apply bool_decide_false. intros [k Hk]. discriminate Hk. Qed.

Lemma path_after_spec scheme authority path n :
  length scheme = n -> "/"%char ∉ authority ->
  path_after (scheme ++ authority ++ "/"%char :: path) n = "/"%char :: path /\
  path_after (scheme ++ authority) n = bs "/".
Proof.
  intros Hn Ha. unfold path_after, find_char_from.
  rewrite !drop_app_length' by done. rewrite find_char_app by done. simpl.
  assert (find_char "/" authority = None) as -> by (by apply find_char_None). simpl.
  split; [|done]. rewrite app_assoc. apply drop_app_length'. rewrite length_app. lia.
Qed.

Lemma path_after_head url n :
  exists rest, path_after url n = "/"%char :: rest.
Proof.
  unfold path_after, find_char_from.
  destruct (find_char "/" (drop n url)) as [m|] eqn:E; simpl; [|by eexists].
  apply find_char_Some in E as [E _].
  rewrite <- drop_drop, E, drop_app_length'; [by eexists|].
  assert (m <= length (drop n url))%nat as Hm.
  { apply (f_equal length) in E. rewrite length_app in E. simpl in E.
    rewrite length_take, !length_drop in *. lia. }
  rewrite length_take. lia.
Qed.

Lemma origin_form_head url :
  exists c rest, build_origin_form url = c :: rest /\
    (c = "/"%char \/ build_origin_form url = bs "*").
Proof.
  unfold build_origin_form.
  destruct (starts_with (bs "http://") url).
  { destruct (path_after_head url 7) as [r ->]. eauto. }
  destruct (starts_with (bs "https://") url).
  { destruct (path_after_head url 8) as [r ->]. eauto. }
  destruct url as [|c url]; [by eexists _, _; split; [|left]|].
  case_decide as E; [rewrite E; by eexists _, _; split; [|right]|].
  case_decide as Hc; [eauto|]. exists c, url. split; [done|]. left.
  destruct (decide (c = "/"%char)); [done|contradiction].
Qed.

Lemma one_line_drop n s : one_line s -> one_line (drop n s).
Proof. apply Forall_drop. Qed.

Lemma origin_form_one_line url : one_line url -> one_line (build_origin_form url).
Proof.
  intros Hu. unfold build_origin_form, path_after.
  repeat (case_match || case_decide); subst; try lit_one_line; try done;
    try (by apply one_line_drop).
  constructor; [split; discriminate|done].
Qed.

Lemma forwarded_headers_safe `{HeaderOrder} req :
  one_line (host req) ->
  (forall k v, hdrs req !! k = Some v -> header_safe (k, v)) ->
  Forall header_safe (forwarded_headers (header_order (hdrs req)) req).
Proof.
  intros Lh Hhs. unfold forwarded_headers. rewrite !Forall_app. split_and!.
  - apply Forall_forall. intros [k v] [_ Hin]%list_elem_of_filter.
    by apply Hhs, header_order_elem.
  - case_decide; [constructor|]. constructor; [|constructor].
    split_and!; cbn [fst snd]; [discriminate|lit_one_line| |].
    + apply (bool_decide_unpack _). vm_compute. exact I.
    + apply one_line_app. split; [done|]. case_match; [|constructor].
      apply one_line_app. split; [lit_one_line|apply to_string_one_line].
  - case_decide; [constructor|]. constructor; [|constructor].
    split_and!; cbn [fst snd]; [discriminate|lit_one_line| |apply to_string_one_line].
    apply (bool_decide_unpack _). vm_compute. exact I.
  - constructor; [|constructor]. apply (bool_decide_unpack _). vm_compute. exact I.
Qed.

Lemma build_forward_render `{HeaderOrder} req :
  method req <> [] -> host req <> [] -> is_connect req = false ->
  build_forward_proxy_request req =
    (method req ++ bs " " ++ build_origin_form (url req) ++ bs " HTTP/" ++
       match version req with [] => bs "1.1" | v => v end) ++ CRLF ++
    mjoin (header_line_text <$> forwarded_headers (header_order (hdrs req)) req) ++
    CRLF ++ body req.
Proof.
  intros Hm Hh Hc. unfold build_forward_proxy_request, forwarded_headers.
  rewrite !bool_decide_false, Hc by done. cbn [orb]. rewrite forward_fold.
  set (kept := filter _ _). cbn [orb]. rewrite !fmap_app, !join_app.
  assert (negb (bool_decide (bs "content-length" ∈ kept.*1)) && negb (bool_decide (body req = []))
    = negb (bool_decide (bs "content-length" ∈ kept.*1 \/ body req = []))) as ->.
  { repeat case_bool_decide; naive_solver. }
  destruct (decide (bs "host" ∈ kept.*1)) as [h|h];
    rewrite ?(bool_decide_true _ h), ?(bool_decide_false _ h);
    destruct (decide (bs "content-length" ∈ kept.*1 \/ body req = [])) as [c|c];
    rewrite ?(bool_decide_true _ c), ?(bool_decide_false _ c);
    cbn [negb]; rewrite ?header_lines_one; cbn [fst snd]; rewrite <- ?app_assoc; reflexivity.
Qed.

(** Every plain-text response (the 503 and 403 among them) reads back as a
    well-formed message: the status line carries the reason with CR and LF
    removed, the three headers follow, Content-Length is exactly the length of
    the body sent, and the body contains no CR — whatever bytes the caller
    passes, none can end the head or add a header line. *)
Theorem plain_text_response_reads_back status reason body close :
  read_message (build_plain_text_response status reason body close) =
    Some (bs "HTTP/1.1 " ++ to_string status ++ bs " " ++
            sanitize_header_token reason (bs "Unknown"),
          [(bs "Content-Type", bs "text/plain; charset=utf-8");
           (bs "Content-Length", to_string (size_of (sanitize_body body)));
           (bs "Connection", if close then bs "close" else bs "keep-alive")],
          sanitize_body body) /\
  size_of (sanitize_body body) = size_of body /\ CR ∉ sanitize_body body.
Proof.
  split; [|split; [apply length_sanitize_body|apply sanitize_body_no_CR]].
  rewrite <- read_message_app.
  - unfold build_plain_text_response. f_equal. rewrite <- !app_assoc. do 4 f_equal.
    rewrite !header_lines_cons. unfold header_line_text. cbn [fst snd].
    rewrite app_nil_r, <- !app_assoc. reflexivity.
  - rewrite !one_line_app. split_and!; [lit_one_line|apply to_string_one_line|lit_one_line|].
    apply sanitize_header_token_one_line. lit_one_line.
  - repeat constructor; try discriminate;
      try (apply (bool_decide_unpack _); vm_compute; exact I).
    + apply to_string_one_line.
    + destruct close; lit_one_line.
Qed.

(** C15: the upstream request built from a parsed client request reads back as
    "METHOD origin-form HTTP/version" with exactly the client's end-to-end
    headers (no hop-by-hop header survives), a host header (the client's, or
    one naming the target), a content-length for a body that had none, a final
    "connection: close", and the client's body — for any iteration order of the
    header map and any request whose parts are single lines. *)
Theorem forward_request_reads_back `{HeaderOrder} (req : request_info) :
  method req <> [] -> host req <> [] -> is_connect req = false ->
  one_line (method req) -> one_line (url req) -> one_line (version req) ->
  one_line (host req) ->
  (forall k v, hdrs req !! k = Some v -> header_safe (k, v)) ->
  let hs := forwarded_headers (header_order (hdrs req)) req in
  read_message (build_forward_proxy_request req) =
    Some (method req ++ bs " " ++ build_origin_form (url req) ++ bs " HTTP/" ++
            match version req with [] => bs "1.1" | v => v end, hs, body req) /\
  (forall k v, is_hop_by_hop_header k = true -> (k, v) ∈ hs ->
     (k, v) = (bs "connection", bs "close")) /\
  (forall k v, is_hop_by_hop_header k = false -> hdrs req !! k = Some v -> (k, v) ∈ hs) /\
  (exists v, (bs "host", v) ∈ hs).
Proof.
  intros Hm Hh Hc Lm Lu Lv Lh Hhs hs.
  assert (Forall header_safe hs) as Hsafe by by apply forwarded_headers_safe.
  split_and!.
  - rewrite build_forward_render by done. fold hs. apply read_message_app; [|done].
    rewrite !one_line_app. split_and!; [done|lit_one_line|by apply origin_form_one_line|
      lit_one_line|]. destruct (version req); [lit_one_line|done].
  - intros k v Hhop Hin. unfold hs, forwarded_headers in Hin.
    rewrite !elem_of_app in Hin. destruct Hin as [Hin|[Hin|[Hin|Hin]]].
    + apply list_elem_of_filter in Hin as [? _]. simpl in *. congruence.
    + case_decide; [by apply elem_of_nil in Hin|]. apply list_elem_of_singleton in Hin. simplify_eq.
    + case_decide; [by apply elem_of_nil in Hin|]. apply list_elem_of_singleton in Hin. simplify_eq.
    + by apply list_elem_of_singleton in Hin.
  - intros k v Hhop Hin. unfold hs, forwarded_headers. rewrite elem_of_app. left.
    apply list_elem_of_filter. split; [done|]. by apply header_order_elem.
  - unfold hs, forwarded_headers. set (kept := filter _ _).
    destruct (decide (bs "host" ∈ kept.*1)) as [Hin|_].
    + apply list_elem_of_fmap in Hin as ([k v] & Hk & Hin). simpl in Hk. subst k.
      exists v. rewrite elem_of_app. by left.
    + eexists. rewrite !elem_of_app. right. left. by apply list_elem_of_singleton.
Qed.

Definition demo_request : request_info :=
  mk_request (bs "POST") (bs "http://example.com/submit?x=1") (bs "1.1") (bs "example.com") 8080
    5 false true false
    (<[bs "proxy-connection" := bs "keep-alive"]> (<[bs "accept" := bs "*/*"]>
      (<[bs "te" := bs "trailers"]> ∅))) (bs "hello").

Lemma forward_request_reads_back_witness :
  read_message (build_forward_proxy_request demo_request) =
    Some (bs "POST /submit?x=1 HTTP/1.1",
          [(bs "accept", bs "*/*"); (bs "host", bs "example.com:8080");
           (bs "content-length", bs "5"); (bs "connection", bs "close")], bs "hello").
Proof.
  refine (eq_trans (proj1 (forward_request_reads_back demo_request _ _ _ _ _ _ _ _)) _);
    try discriminate; try (apply (bool_decide_unpack _); vm_compute; exact I); try reflexivity.
Defined.

(** The request target sent upstream is always in origin form: it begins
    with '/' or is "*"; for an absolute http or https URL it is the URL's path
    (with its query), or "/" when no '/' follows the authority. *)
Theorem origin_form_spec url scheme authority path :
  (exists c rest, build_origin_form url = c :: rest /\
     (c = "/"%char \/ build_origin_form url = bs "*")) /\
  (scheme = bs "http://" \/ scheme = bs "https://" -> "/"%char ∉ authority ->
     build_origin_form (scheme ++ authority ++ "/"%char :: path) = "/"%char :: path /\
     build_origin_form (scheme ++ authority) = bs "/").
Proof.
  split; [apply origin_form_head|].
  intros Hs Ha. unfold build_origin_form. destruct Hs as [-> | ->].
  - rewrite !starts_with_app. split; by apply path_after_spec.
  - rewrite !starts_with_app, !not_http. split; by apply path_after_spec.
Qed.

Lemma origin_form_spec_witness :
  build_origin_form (bs "https://" ++ bs "a.example:443" ++ "/"%char :: bs "p?q=1") =
    "/"%char :: bs "p?q=1" /\
  build_origin_form (bs "https://" ++ bs "a.example:443") = bs "/".
Proof.
  refine (proj2 (origin_form_spec [] (bs "https://") (bs "a.example:443") (bs "p?q=1")) _ _).
  - right. reflexivity.
  - apply (bool_decide_unpack _). vm_compute. exact I.
Defined.
