(* ===== verification/PersistentCache.v ===== *)
(** * PersistentCache: src/src/net/http/persistent_cache.{h,cpp}

    The L2 cache: responses as protobuf entries in RocksDB, with a freshness
    lifetime, conditional requests and the rebuilt response.  RocksDB and the
    protobuf codec are interfaces with their documented laws ([RocksDB],
    [EntryCodec]); llhttp is the parameter of the response parser; the wall
    clock is an argument.  Signed overflow in the freshness test is the outcome
    [None].  The theorems: a stored response is served back, byte-exact in its
    body, until its lifetime ends and never after; conditional requests answer
    304 exactly on a matching validator; a [max-age] near 2^63 makes the
    freshness test overflow. *)

From S2P Require Import Prelude Bytes Llhttp HeaderFields HttpRequestParser.
From S2P Require Import HttpMessageBuilder HttpResponseParser.

Local Open Scope Z_scope.

(** ** The stored entry and its interfaces *)

(* src/proto/http_cache.proto:10-20 HttpCacheEntry *)
Record HttpCacheEntry := mk_entry {
  e_status_code : Z;
  e_reason_phrase : bytes;
  e_last_modified : bytes;
  e_etag : bytes;
  e_stored_at_unix_sec : Z;
  e_ttl_sec : Z;
  e_headers : list (bytes * bytes);
  e_body : bytes;
  e_vary_headers : list bytes;
}.

Definition entry_default : HttpCacheEntry := mk_entry 0 [] [] [] 0 0 [] [] [].

(** The generated protobuf codec.  An entry is [encodable] when its [string]
    fields are valid UTF-8: those serialize and parse back to themselves. *)
Class EntryCodec := {
  SerializeToString : HttpCacheEntry -> option bytes;
  ParseFromString : bytes -> option HttpCacheEntry;
  encodable : HttpCacheEntry -> Prop;
  codec_roundtrip : forall e, encodable e ->
    exists s, SerializeToString e = Some s /\ ParseFromString s = Some e;
}.

(** An open RocksDB: [None] and [false] are statuses that are not ok. *)
Class RocksDB := {
  db : Type;
  db_Open : bytes -> option db;
  db_Get : db -> bytes -> option bytes;
  db_Put : db -> bytes -> bytes -> bool * db;
  db_Delete : db -> bytes -> bool * db;
  db_put_get : forall d k v k' d', db_Put d k v = (true, d') ->
    db_Get d' k' = if decide (k = k') then Some v else db_Get d k';
  (** a write that failed may still have reached its own key *)
  db_put_failed : forall d k v k' d', db_Put d k v = (false, d') ->
    db_Get d' k' = db_Get d k' \/ k = k' /\ db_Get d' k' = Some v;
  db_delete_get : forall d k k' d', db_Delete d k = (true, d') ->
    db_Get d' k' = if decide (k = k') then None else db_Get d k';
}.

(** ** Cache-Control and freshness *)

(* src/src/net/http/persistent_cache.cpp:26-34 to_lower_ascii *)
Definition pc_to_lower_ascii (value : bytes) : bytes :=
  (fun c => if is_upper c then char_of (code c + (97 - 65)) else c) <$> value.

(* src/src/net/http/persistent_cache.cpp:20-24 is_hop_by_hop_header *)
Definition pc_is_hop_by_hop_header (key : bytes) : bool :=
  bool_decide (key ∈ [bs "connection"; bs "proxy-connection"; bs "keep-alive"; bs "te";
                      bs "trailer"; bs "transfer-encoding"; bs "upgrade"]).

(** [start == 0] or the byte before it separates directives. *)
(* src/src/net/http/persistent_cache.cpp:44-45 parse_max_age *)
Definition valid_start (cc : bytes) (start : nat) : bool :=
  match start with
  | O => true
  | S p => bool_decide (cc !! p ∈ [Some ","%char; Some " "%char; Some ";"%char])
  end.

(** Every iteration that continues advances [pos], so the length of the text
    plus one is enough fuel (lemma [max_age_fuel]). *)
(* src/src/net/http/persistent_cache.cpp:36-65 parse_max_age *)
Fixpoint max_age_loop (fuel : nat) (cc : bytes) (pos : nat) : Z :=
  match fuel with
  | O => -1
  | S f =>
      if (pos <? length cc)%nat then
        match find_sub_from (bs "max-age=") cc pos with
        | None => -1
        | Some start =>
            if negb (valid_start cc start) then max_age_loop f cc (start + 8)
            else
              let val_begin := (start + 8)%nat in
              let digits := (span_digits (drop val_begin cc)).1 in
              match digits with
              | [] => -1
              | _ => match stoll digits with inr v => v | inl _ => -1 end
              end
        end
      else -1
  end.

(* src/src/net/http/persistent_cache.cpp:36-65 parse_max_age *)
Definition parse_max_age (cc : bytes) : Z := max_age_loop (S (length cc)) cc 0.

(* src/src/net/http/persistent_cache.cpp:67-80 compute_ttl *)
Definition compute_ttl (resp : response_info) : Z :=
  match hdrs resp !! bs "cache-control" with
  | Some cc =>
      let max_age := parse_max_age cc in
      if 0 <=? max_age then max_age
      else match hdrs resp !! bs "expires" with Some _ => 3600 | None => 3600 end
  | None => match hdrs resp !! bs "expires" with Some _ => 3600 | None => 3600 end
  end.

(** [now] is [now_unix_sec()]; [None] is the overflow of the [int64_t] sum. *)
(* src/src/net/http/persistent_cache.cpp:82-84 is_fresh *)
Definition is_fresh (entry : HttpCacheEntry) (now : Z) : option bool :=
  deadline ← add_i64 (e_stored_at_unix_sec entry) (e_ttl_sec entry);
  Some (now <=? deadline).

(** ** Conditional requests *)

(* src/src/net/http/persistent_cache.cpp:92-99 check_not_modified *)
Definition trim_quotes (s : bytes) : bytes :=
  let s := match s with c :: s' => if decide (c = "034"%char) then s' else s | [] => [] end in
  match last s with
  | Some c => if decide (c = "034"%char) then removelast s else s
  | None => s
  end.

(* src/src/net/http/persistent_cache.cpp:86-111 check_not_modified *)
Definition check_not_modified (req : request_info) (entry : HttpCacheEntry) : bool :=
  match HttpRequestParser.hdrs req !! bs "if-none-match", bool_decide (e_etag entry = []) with
  | Some inm, false =>
      bool_decide (trim_quotes (pc_to_lower_ascii inm) =
                   trim_quotes (pc_to_lower_ascii (e_etag entry)))
  | _, _ =>
      match HttpRequestParser.hdrs req !! bs "if-modified-since",
            bool_decide (e_last_modified entry = []) with
      | Some ims, false => bool_decide (ims = e_last_modified entry)
      | _, _ => false
      end
  end.

(** ** Rebuilding a response *)

(** The loop over the stored headers: the text so far and the flag. *)
(* src/src/net/http/persistent_cache.cpp:129-143 rebuild_response *)
Definition rebuild_header (st : bytes * bool) (h : bytes * bytes) : bytes * bool :=
  let '(response, has_content_length) := st in
  let key_lower := pc_to_lower_ascii h.1 in
  if pc_is_hop_by_hop_header key_lower then st
  else (response ++ h.1 ++ bs ": " ++ h.2 ++ CRLF,
        has_content_length || bool_decide (key_lower = bs "content-length")).

(* src/src/net/http/persistent_cache.cpp:113-154 rebuild_response *)
Definition rebuild_response (entry : HttpCacheEntry) : bytes :=
  let response := bs "HTTP/1.1 " ++ to_string (e_status_code entry) ++ bs " " ++
                  e_reason_phrase entry ++ CRLF in
  let '(response, has_content_length) :=
    foldl rebuild_header (response, false) (e_headers entry) in
  let response :=
    if has_content_length then response
    else response ++ bs "Content-Length: " ++ to_string (size_of (e_body entry)) ++ CRLF in
  response ++ CRLF ++ e_body entry.

(* src/src/net/http/persistent_cache.cpp:164-166 build_not_modified_response *)
Definition validator_header (key_lower : bytes) : bool :=
  bool_decide (key_lower ∈ [bs "etag"; bs "last-modified"; bs "cache-control"; bs "expires";
                            bs "vary"]).

(* src/src/net/http/persistent_cache.cpp:156-175 build_not_modified_response *)
Definition build_not_modified_response (entry : HttpCacheEntry) : bytes :=
  foldl (fun response h =>
           if validator_header (pc_to_lower_ascii h.1)
           then response ++ h.1 ++ bs ": " ++ h.2 ++ CRLF else response)
    (bs "HTTP/1.1 304 Not Modified" ++ CRLF) (e_headers entry) ++ CRLF.

(** ** Vary *)

(** [while (start < size && value[start] == ' ') ++start]. *)
Fixpoint skip_blanks (s : bytes) : bytes :=
  match s with
  | c :: s' => if decide (c = " "%char) then skip_blanks s' else s
  | [] => []
  end.

(** The loop on the unread rest of the value: [start] is dropped from the
    front, the name runs to the next ',' with blanks trimmed on both sides.
    Each iteration with input left drops at least one byte. *)
(* src/src/net/http/persistent_cache.cpp:177-198 parse_vary_headers *)
Fixpoint vary_loop (fuel : nat) (rest : bytes) : list bytes :=
  match fuel with
  | O => []
  | S f =>
      match rest with
      | [] => []
      | _ =>
          let rest := skip_blanks rest in
          let end_ := match find_char "," rest with Some n => n | None => length rest end in
          let name := reverse (skip_blanks (reverse (take end_ rest))) in
          (match name with [] => [] | _ => [pc_to_lower_ascii name] end) ++
          vary_loop f (drop (end_ + 1) rest)
      end
  end.

(* src/src/net/http/persistent_cache.cpp:177-198 parse_vary_headers *)
Definition parse_vary_headers (vary_value : bytes) : list bytes :=
  vary_loop (S (length vary_value)) vary_value.

(** ** Lookup and store *)

(* src/src/net/http/persistent_cache.h:19-23 persistent_cache::lookup_status *)
Inductive lookup_status := kMiss | kNotModified | kHit.

#[export] Instance pc_status_eq_dec : EqDecision lookup_status.
Proof. solve_decision. Defined.

(* src/src/net/http/persistent_cache.h:25-28 persistent_cache::lookup_result *)
Record lookup_result := mk_result { status : lookup_status; response : bytes }.

(** One header of the response copied into the entry. *)
(* src/src/net/http/persistent_cache.cpp:270-284 persistent_cache::impl::store *)
Definition store_header (e : HttpCacheEntry) (kv : bytes * bytes) : HttpCacheEntry :=
  let e := mk_entry (e_status_code e) (e_reason_phrase e) (e_last_modified e) (e_etag e)
             (e_stored_at_unix_sec e) (e_ttl_sec e) (e_headers e ++ [kv]) (e_body e)
             (e_vary_headers e) in
  if decide (kv.1 = bs "last-modified") then
    mk_entry (e_status_code e) (e_reason_phrase e) kv.2 (e_etag e)
      (e_stored_at_unix_sec e) (e_ttl_sec e) (e_headers e) (e_body e) (e_vary_headers e)
  else if decide (kv.1 = bs "etag") then
    mk_entry (e_status_code e) (e_reason_phrase e) (e_last_modified e) kv.2
      (e_stored_at_unix_sec e) (e_ttl_sec e) (e_headers e) (e_body e) (e_vary_headers e)
  else if decide (kv.1 = bs "vary") then
    mk_entry (e_status_code e) (e_reason_phrase e) (e_last_modified e) (e_etag e)
      (e_stored_at_unix_sec e) (e_ttl_sec e) (e_headers e) (e_body e)
      (e_vary_headers e ++ parse_vary_headers kv.2)
  else e.

(* src/src/net/http/persistent_cache.cpp:264-286 persistent_cache::impl::store *)
Definition entry_of `{HeaderOrder} (resp : response_info) (now : Z) : HttpCacheEntry :=
  let e := mk_entry (u32 (status_code resp)) (reason_phrase resp) [] [] now
             (compute_ttl resp) [] [] [] in
  let e := foldl store_header e (header_order (hdrs resp)) in
  mk_entry (e_status_code e) (e_reason_phrase e) (e_last_modified e) (e_etag e)
    (e_stored_at_unix_sec e) (e_ttl_sec e) (e_headers e) (body resp) (e_vary_headers e).

(** The response of an upstream text, when the parser accepts and completes it. *)
(* src/src/net/http/persistent_cache.cpp:248-259 persistent_cache::impl::store *)
Definition parse_upstream `{Llhttp} (upstream_response : bytes) : option response_info :=
  let '(ok, p) := parse parser_new upstream_response in
  if negb ok || has_parse_error p then None
  else
    let p := if is_message_complete p then p else (finish p).2 in
    if negb (is_message_complete p) || has_parse_error p then None
    else Some (response_ p).

Section cache.
Context `{Llhttp, HeaderOrder, EntryCodec, RocksDB}.

(** [db_]; the null pointer is [None]. *)
(* src/src/net/http/persistent_cache.cpp:300-301 persistent_cache::impl *)
Record persistent_cache := mk_pc { db_ : option db }.

(* src/src/net/http/persistent_cache.cpp:304-304 persistent_cache::persistent_cache *)
Definition pc_new : persistent_cache := mk_pc None.

(* src/src/net/http/persistent_cache.cpp:204-213 persistent_cache::impl::open *)
Definition pc_open (c : persistent_cache) (db_path : bytes) : bool * persistent_cache :=
  match db_Open db_path with
  | None => (false, c)
  | Some d => (true, mk_pc (Some d))
  end.

(* src/src/net/http/persistent_cache.cpp:215-215 persistent_cache::impl::ready *)
Definition pc_ready (c : persistent_cache) : bool := bool_decide (is_Some (db_ c)).

(** [None] is undefined behaviour: a null [db_] or an overflowing freshness sum. *)
(* src/src/net/http/persistent_cache.cpp:217-244 persistent_cache::impl::lookup *)
Definition pc_lookup (c : persistent_cache) (cache_key : bytes) (req : request_info) (now : Z)
  : option lookup_result :=
  d ← db_ c;
  match db_Get d cache_key with
  | None => Some (mk_result kMiss [])
  | Some raw_value =>
      match ParseFromString raw_value with
      | None => Some (mk_result kMiss [])
      | Some entry =>
          fresh ← is_fresh entry now;
          if negb fresh then Some (mk_result kMiss [])
          else if check_not_modified req entry then
            Some (mk_result kNotModified (build_not_modified_response entry))
          else Some (mk_result kHit (rebuild_response entry))
      end
  end.

(** Only reached with an open database ([http_cache::store] tests [ready()]);
    without one the model stores nothing. *)
(* src/src/net/http/persistent_cache.cpp:246-294 persistent_cache::impl::store *)
Definition pc_store (c : persistent_cache) (cache_key upstream_response : bytes) (now : Z)
  : bool * persistent_cache :=
  match db_ c, parse_upstream upstream_response with
  | Some d, Some resp =>
      if (status_code resp <? 200) || (300 <=? status_code resp) then (false, c)
      else match SerializeToString (entry_of resp now) with
           | None => (false, c)
           | Some serialized =>
               let '(ok, d') := db_Put d cache_key serialized in (ok, mk_pc (Some d'))
           end
  | _, _ => (false, c)
  end.

(* src/src/net/http/persistent_cache.cpp:296-298 persistent_cache::impl::erase *)
Definition pc_erase (c : persistent_cache) (cache_key : bytes) : bool * persistent_cache :=
  match db_ c with
  | None => (false, c)
  | Some d => let '(ok, d') := db_Delete d cache_key in (ok, mk_pc (Some d'))
  end.

(** *** The handle

    The public class owns the implementation through a [unique_ptr]; a handle
    that was moved from has none, and every call but [ready] is then undefined
    ([None]). *)

(* src/src/net/http/persistent_cache.h:39-41 persistent_cache *)
Definition pc_handle : Type := option persistent_cache.

(** The handle moved to, and the one moved from. *)
(* src/src/net/http/persistent_cache.cpp:306-307 persistent_cache::operator= *)
Definition handle_move (from : pc_handle) : pc_handle * pc_handle := (from, None).

(* src/src/net/http/persistent_cache.cpp:309-311 persistent_cache::open *)
Definition handle_open (h : pc_handle) (db_path : bytes) : option (bool * pc_handle) :=
  impl_ ← h; let '(ok, c) := pc_open impl_ db_path in Some (ok, Some c).

(* src/src/net/http/persistent_cache.cpp:313-315 persistent_cache::ready *)
Definition handle_ready (h : pc_handle) : bool := match h with Some impl_ => pc_ready impl_ | None => false end.

(* src/src/net/http/persistent_cache.cpp:317-321 persistent_cache::lookup *)
Definition handle_lookup (h : pc_handle) (cache_key : bytes) (req : request_info) (now : Z)
  : option lookup_result :=
  impl_ ← h; pc_lookup impl_ cache_key req now.

(* src/src/net/http/persistent_cache.cpp:323-326 persistent_cache::store *)
Definition handle_store (h : pc_handle) (cache_key upstream_response : bytes) (now : Z)
  : option (bool * pc_handle) :=
  impl_ ← h; let '(ok, c) := pc_store impl_ cache_key upstream_response now in Some (ok, Some c).

(* src/src/net/http/persistent_cache.cpp:328-330 persistent_cache::erase *)
Definition handle_erase (h : pc_handle) (cache_key : bytes) : option (bool * pc_handle) :=
  impl_ ← h; let '(ok, c) := pc_erase impl_ cache_key in Some (ok, Some c).

(** A handle that says it is ready can be used, and stays so; one that was
    moved from is not ready. *)
Lemma handle_ready_usable h key upstream now :
  handle_ready h = true ->
  (exists ok h', handle_store h key upstream now = Some (ok, h') /\ handle_ready h' = true) /\
  (exists ok h', handle_erase h key = Some (ok, h') /\ handle_ready h' = true) /\
  handle_ready (handle_move h).1 = true /\ handle_ready (handle_move h).2 = false.
Proof.
  destruct h as [[[d|]]|]; simpl; try done. intros _. split_and!; [| |done|done].
  - unfold handle_store, pc_store. simpl. destruct (parse_upstream upstream); [|by eexists _, _].
    destruct (_ || _); [by eexists _, _|]. destruct (SerializeToString _); [|by eexists _, _].
    destruct (db_Put _ _ _); by eexists _, _.
  - unfold handle_erase, pc_erase. simpl. destruct (db_Delete _ _); by eexists _, _.
Qed.

End cache.

Arguments persistent_cache : clear implicits.
Arguments persistent_cache {_}.

(** ** Instances for the witnesses *)

(** An in-memory database. *)
Program Definition map_db : RocksDB := {|
  db := gmap bytes bytes;
  db_Open _ := Some ∅;
  db_Get d k := d !! k;
  db_Put d k v := (true, <[k := v]> d);
  db_Delete d k := (true, delete k d);
|}.
Next Obligation. intros d k v k' d' ?. simpl in *. simplify_eq. apply lookup_insert. Qed.
Next Obligation. intros d k v k' d' ?. simpl in *. discriminate. Qed.
Next Obligation. intros d k k' d' ?. simpl in *. simplify_eq. apply lookup_delete. Qed.

(** A codec that knows one entry. *)
#[export] Instance entry_eq_dec : EqDecision HttpCacheEntry.
Proof. solve_decision. Defined.

Program Definition one_entry_codec (e0 : HttpCacheEntry) : EntryCodec := {|
  SerializeToString e := if decide (e = e0) then Some (bs "entry") else None;
  ParseFromString s := if decide (s = bs "entry") then Some e0 else None;
  encodable e := e = e0;
|}.
Next Obligation. intros e0 e ->. exists (bs "entry"). by rewrite !decide_True. Qed.

(** ** Lemmas: numbers in Cache-Control *)

Lemma scan_int_digits d :
  d <> [] -> Forall (fun c => is_digit c = true) d ->
  scan_int d = Some (false, digits_value 0 d, []).
Proof.
  intros Hne Hd. pose proof (span_digits_app d [] Hd I) as Hs. rewrite app_nil_r in Hs.
  destruct d as [|c d]; [done|]. apply Forall_cons in Hd as [Hc _].
  unfold scan_int. simpl (skip_space _). rewrite is_digit_not_space by done.
  simpl (scan_sign _). rewrite !decide_False by (intros ->; discriminate).
  by rewrite Hs.
Qed.

Lemma stoll_digits d :
  d <> [] -> Forall (fun c => is_digit c = true) d ->
  stoll d = if INT64_MAX <? digits_value 0 d then inl out_of_range else inr (digits_value 0 d).
Proof.
  intros Hne Hd. unfold stoll, sto_signed. rewrite scan_int_digits by done.
  pose proof (digits_value_nonneg 0 d ltac:(lia) Hd).
  destruct (digits_value 0 d <? INT64_MIN) eqn:E; [hp_bool; unfold INT64_MIN in *; lia|done].
Qed.

Lemma max_age_range fuel cc pos : -1 <= max_age_loop fuel cc pos <= INT64_MAX.
Proof.
  revert pos. induction fuel as [|f IH]; intros pos; simpl; [unfold INT64_MAX; lia|].
  destruct (pos <? length cc)%nat; [|unfold INT64_MAX; lia].
  destruct (find_sub_from _ cc pos) as [start|]; [|unfold INT64_MAX; lia].
  destruct (valid_start cc start); simpl; [|apply IH].
  destruct (span_digits (drop (start + 8) cc)) as [d r] eqn:E. simpl.
  apply span_digits_all in E as (Hd & _ & _).
  destruct d as [|c d]; [unfold INT64_MAX; lia|].
  rewrite stoll_digits by done.
  pose proof (digits_value_nonneg 0 (c :: d) ltac:(lia) Hd).
  destruct (INT64_MAX <? _) eqn:E2; hp_bool; unfold INT64_MAX in *; lia.
Qed.

Lemma find_sub_length p s n : find_sub p s = Some n -> (n + length p <= length s)%nat.
Proof.
  revert n. induction s as [|c s IH]; cbn [find_sub]; intros n.
  - destruct (starts_with p []) eqn:E; intros ?; simplify_eq.
    apply bool_decide_eq_true in E. apply prefix_length in E. simpl in *. lia.
  - destruct (starts_with p (c :: s)) eqn:E; intros Hn; simplify_eq.
    + apply bool_decide_eq_true in E. apply prefix_length in E. lia.
    + apply fmap_Some in Hn as (m & Hm & ->). apply IH in Hm. simpl. lia.
Qed.

Lemma find_sub_spec p s n :
  find_sub p s = Some n ->
  p `prefix_of` drop n s /\ (forall m, (m < n)%nat -> ~ p `prefix_of` drop m s).
Proof.
  revert n. induction s as [|c s IH]; cbn [find_sub]; intros n.
  - destruct (starts_with p []) eqn:E; unfold starts_with in E; intros ?; simplify_eq. hp_bool. split; [done|lia].
  - destruct (starts_with p (c :: s)) eqn:E; unfold starts_with in E; intros Hn; hp_bool; simplify_eq; [split; [done|lia]|].
    apply fmap_Some in Hn as (k & Hk & ->). apply IH in Hk as [? Hlt]. split; [done|].
    intros [|m] ?; [done|]. apply Hlt. lia.
Qed.

Lemma find_sub_none p s m : find_sub p s = None -> ~ p `prefix_of` drop m s.
Proof.
  revert m. induction s as [|c s IH]; cbn [find_sub]; intros m.
  - destruct (starts_with p []) eqn:E; [done|]. unfold starts_with in E. hp_bool. by rewrite drop_nil.
  - destruct (starts_with p (c :: s)) eqn:E; [done|]. unfold starts_with in E. hp_bool.
    intros Hn%fmap_None. destruct m as [|m]; [done|]. by apply IH.
Qed.

(** A [max-age=] directive of a Cache-Control value starts at offset [i]. *)
Definition directive_at (cc : bytes) (i : nat) : Prop :=
  bs "max-age=" `prefix_of` drop i cc /\ valid_start cc i = true.

Lemma prefix_drop_lookup (p s : bytes) i k c :
  p `prefix_of` drop i s -> p !! k = Some c -> s !! (i + k)%nat = Some c.
Proof.
  intros [r Hr] Hk. rewrite <- lookup_drop, Hr. by apply lookup_app_l_Some.
Qed.

(** The directive's name does not overlap itself. *)
Lemma max_age_no_overlap cc start j :
  bs "max-age=" `prefix_of` drop start cc -> (start < j < start + 8)%nat ->
  ~ bs "max-age=" `prefix_of` drop j cc.
Proof.
  intros Hs Hj Hp. pose proof (prefix_drop_lookup _ _ _ 0 "m"%char Hp eq_refl) as Hm.
  assert (exists k c, j = (start + k)%nat /\ bs "max-age=" !! k = Some c /\ c <> "m"%char)
    as (k & c & -> & Hk & Hc).
  { exists (j - start)%nat.
    assert (j = start + (j - start))%nat as Hsum by lia.
    assert (j - start = 1 \/ j - start = 2 \/ j - start = 3 \/ j - start = 4 \/
            j - start = 5 \/ j - start = 6 \/ j - start = 7)%nat as Hk by lia.
    destruct Hk as [E|[E|[E|[E|[E|[E|E]]]]]]; rewrite E in Hsum |- *;
      eexists; (split_and!; [exact Hsum|reflexivity|discriminate]). }
  pose proof (prefix_drop_lookup _ _ _ _ _ Hs Hk) as Hk'.
  rewrite Nat.add_0_r in Hm. congruence.
Qed.

(** The loop stops at the first directive at or after [pos]. *)
Lemma max_age_loop_first fuel cc pos i :
  (length cc - pos < fuel)%nat -> (pos <= i)%nat -> directive_at cc i ->
  (forall j, (pos <= j < i)%nat -> ~ directive_at cc j) ->
  max_age_loop fuel cc pos =
    match (span_digits (drop (i + 8) cc)).1 with
    | [] => -1
    | ds => match stoll ds with inr v => v | inl _ => -1 end
    end.
Proof.
  revert pos. induction fuel as [|f IH]; intros pos Hf Hpi Hi Hfirst; [lia|].
  destruct Hi as [Hp Hv].
  assert (i + 8 <= length cc)%nat as Hlen.
  { destruct Hp as [r Hr]. apply (f_equal length) in Hr.
    rewrite length_drop, length_app in Hr. change (length (bs "max-age=")) with 8%nat in Hr. lia. }
  cbn [max_age_loop]. rewrite (proj2 (Nat.ltb_lt _ _)) by lia.
  destruct (find_sub_from _ cc pos) as [start|] eqn:E.
  - apply fmap_Some in E as (m & Hm & ->). apply find_sub_spec in Hm as [Hm Hmin].
    rewrite drop_drop in Hm.
    assert (pos + m <= i)%nat.
    { destruct (decide (pos + m <= i)%nat) as [|Hn]; [done|].
      destruct (Hmin (i - pos)%nat); [lia|]. rewrite drop_drop.
      by replace (pos + (i - pos))%nat with i by lia. }
    destruct (valid_start cc (pos + m)) eqn:Ev; cbn [negb].
    + destruct (decide (pos + m = i)%nat) as [->|];
        [by destruct (span_digits _).1|].
      destruct (Hfirst (pos + m)%nat); [lia|done].
    + assert (pos + m <> i)%nat by congruence.
      apply IH; [lia| |done|intros j ?; apply Hfirst; lia].
      destruct (decide (pos + m + 8 <= i)%nat) as [|Hn]; [done|].
      destruct (max_age_no_overlap cc (pos + m) i); [done|lia|done].
  - apply fmap_None in E. destruct (find_sub_none _ _ (i - pos) E).
    rewrite drop_drop. by replace (pos + (i - pos))%nat with i by lia.
Qed.

Lemma max_age_loop_none fuel cc pos :
  (forall i, ~ directive_at cc i) -> max_age_loop fuel cc pos = -1.
Proof.
  intros Hno. revert pos. induction fuel as [|f IH]; intros pos; [done|]. cbn [max_age_loop].
  destruct (pos <? length cc)%nat; [|done].
  destruct (find_sub_from _ cc pos) as [start|] eqn:E; [|done].
  destruct (valid_start cc start) eqn:Ev; cbn [negb]; [|apply IH].
  apply fmap_Some in E as (m & Hm & ->). apply find_sub_spec in Hm as [Hm _].
  destruct (Hno (pos + m)%nat). split; [|done]. by rewrite drop_drop in Hm.
Qed.

(** The loop's fuel is enough: more fuel gives the same answer. *)
Lemma max_age_fuel f1 f2 cc pos :
  (length cc - pos < f1)%nat -> (length cc - pos < f2)%nat ->
  max_age_loop f1 cc pos = max_age_loop f2 cc pos.
Proof.
  revert f2 pos. induction f1 as [|f1 IH]; intros f2 pos H1 H2; [lia|].
  destruct f2 as [|f2]; [lia|]. simpl.
  destruct (pos <? length cc)%nat eqn:Ep; [|done]. hp_bool.
  destruct (find_sub_from _ cc pos) as [start|] eqn:E; [|done].
  destruct (valid_start cc start); simpl; [done|].
  apply fmap_Some in E as (m & Hm & ->). apply IH; lia.
Qed.

Lemma compute_ttl_range resp : 0 <= compute_ttl resp <= INT64_MAX.
Proof.
  unfold compute_ttl.
  assert (0 <= 3600 <= INT64_MAX) as H36 by (unfold INT64_MAX; lia).
  destruct (hdrs resp !! bs "cache-control") as [cc|]; [|by destruct (_ !! _)].
  pose proof (max_age_range (S (length cc)) cc 0). fold (parse_max_age cc) in *.
  destruct (0 <=? parse_max_age cc) eqn:E; hp_bool; [lia|by destruct (_ !! _)].
Qed.

(** ** Lemmas: the entry built by [store] *)

Lemma pc_to_lower_lower s : pc_to_lower_ascii s = lower s.
Proof. done. Qed.

Lemma store_headers_fold e l :
  NoDup l.*1 ->
  let e' := foldl store_header e l in
  e_status_code e' = e_status_code e /\ e_reason_phrase e' = e_reason_phrase e /\
  e_stored_at_unix_sec e' = e_stored_at_unix_sec e /\ e_ttl_sec e' = e_ttl_sec e /\
  e_headers e' = e_headers e ++ l /\
  e_etag e' = default (e_etag e) ((list_to_map l : headers) !! bs "etag") /\
  e_last_modified e' =
    default (e_last_modified e) ((list_to_map l : headers) !! bs "last-modified").
Proof.
  revert e. induction l as [|[k v] l IH]; intros e Hnd; cbn [foldl].
  - rewrite app_nil_r. by cbn [list_to_map foldr]; rewrite !lookup_empty.
  - rewrite fmap_cons in Hnd. apply NoDup_cons in Hnd as [Hk Hnd].
    destruct (IH (store_header e (k, v)) Hnd) as (I1 & I2 & I3 & I4 & I5 & I6 & I7).
    apply not_elem_of_list_to_map in Hk. simpl in Hk.
    cbn [list_to_map foldr fst snd]. rewrite !lookup_insert.
    rewrite I1, I2, I3, I4, I5, I6, I7. unfold store_header. simpl.
    repeat case_decide; simplify_eq; simpl; rewrite <- ?app_assoc; try done;
      by rewrite Hk.
Qed.

Lemma entry_of_spec `{HeaderOrder} resp now :
  let e := entry_of resp now in
  e_status_code e = u32 (status_code resp) /\ e_reason_phrase e = reason_phrase resp /\
  e_stored_at_unix_sec e = now /\ e_ttl_sec e = compute_ttl resp /\
  e_headers e = header_order (hdrs resp) /\ e_body e = body resp /\
  e_etag e = default [] (hdrs resp !! bs "etag") /\
  e_last_modified e = default [] (hdrs resp !! bs "last-modified").
Proof.
  pose (e0 := mk_entry (u32 (status_code resp)) (reason_phrase resp) [] [] now
                (compute_ttl resp) [] [] []).
  destruct (store_headers_fold e0 (header_order (hdrs resp)) (header_order_keys _))
    as (I1 & I2 & I3 & I4 & I5 & I6 & I7).
  assert ((list_to_map (header_order (hdrs resp)) : headers) = hdrs resp) as Hm.
  { rewrite <- (list_to_map_to_list (hdrs resp)) at 2.
    apply list_to_map_proper; [apply header_order_keys|apply header_order_perm]. }
  rewrite Hm in I6. rewrite Hm in I7.
  exact (conj I1 (conj I2 (conj I3 (conj I4 (conj I5 (conj eq_refl (conj I6 I7))))))).
Qed.

(** The lifetime is the max-age, or an hour. *)
Lemma compute_ttl_cases resp :
  (forall cc, hdrs resp !! bs "cache-control" = Some cc -> 0 <= parse_max_age cc ->
     compute_ttl resp = parse_max_age cc) /\
  ((forall cc, hdrs resp !! bs "cache-control" = Some cc -> parse_max_age cc < 0) ->
     compute_ttl resp = 3600).
Proof.
  unfold compute_ttl. destruct (hdrs resp !! bs "cache-control") as [cc|].
  - split; [intros ? [= <-] Hm; by rewrite (proj2 (Z.leb_le _ _) Hm)|]. intros Hm.
    rewrite (proj2 (Z.leb_gt _ _) (Hm cc eq_refl)). by destruct (_ !! _).
  - split; [done|]. intros _. by destruct (_ !! _).
Qed.

(** ** Lemmas: the rebuilt response *)

Lemma rebuild_fold out flag l :
  let kept := filter (fun h => pc_is_hop_by_hop_header (lower h.1) = false) l in
  foldl rebuild_header (out, flag) l =
    (out ++ mjoin (header_line_text <$> kept),
     flag || bool_decide (bs "content-length" ∈ (lower <$> kept.*1))).
Proof.
  revert out flag. induction l as [|h l IH]; intros out flag; cbn [foldl].
  - by rewrite app_nil_r, orb_false_r.
  - unfold rebuild_header at 2. rewrite pc_to_lower_lower, filter_cons.
    destruct (pc_is_hop_by_hop_header (lower h.1)) eqn:Eh.
    + rewrite decide_False by done. apply IH.
    + rewrite decide_True by done. rewrite IH, header_lines_cons, !fmap_cons.
      unfold header_line_text at 2. rewrite <- !app_assoc. f_equal.
      rewrite <- orb_assoc. f_equal. apply eq_true_iff_eq.
      rewrite orb_true_iff, !bool_decide_eq_true, elem_of_cons. naive_solver.
Qed.

(** The headers a rebuilt response carries. *)
Definition rebuilt_headers (e : HttpCacheEntry) : list (bytes * bytes) :=
  let kept := filter (fun h => pc_is_hop_by_hop_header (lower h.1) = false) (e_headers e) in
  kept ++ (if decide (bs "content-length" ∈ (lower <$> kept.*1)) then []
           else [(bs "Content-Length", to_string (size_of (e_body e)))]).

Lemma rebuild_reads_back e :
  one_line (e_reason_phrase e) -> Forall header_safe (e_headers e) ->
  read_message (rebuild_response e) =
    Some (bs "HTTP/1.1 " ++ to_string (e_status_code e) ++ bs " " ++ e_reason_phrase e,
          rebuilt_headers e, e_body e).
Proof.
  intros Hr Hh. unfold rebuild_response. rewrite rebuild_fold. cbn [orb].
  set (kept := filter _ _). rewrite <- read_message_app.
  - unfold rebuilt_headers. fold kept. rewrite fmap_app, join_app. f_equal.
    destruct (decide (bs "content-length" ∈ (lower <$> kept.*1))) as [h|h];
      rewrite ?(bool_decide_true _ h), ?(bool_decide_false _ h), ?header_lines_one;
      cbn [fst snd]; rewrite <- ?app_assoc; reflexivity.
  - rewrite !one_line_app. split_and!; [lit_one_line|apply to_string_one_line|lit_one_line|done].
  - unfold rebuilt_headers. fold kept. apply Forall_app. split.
    + apply Forall_forall. intros h [_ Hin]%list_elem_of_filter.
      by apply (proj1 (Forall_forall _ _) Hh).
    + case_decide; [constructor|]. constructor; [|constructor].
      split_and!; cbn [fst snd]; [discriminate|lit_one_line| |apply to_string_one_line].
      apply (bool_decide_unpack _). vm_compute. exact I.
Qed.

Lemma foldl_filter_lines out l :
  foldl (fun response h =>
           if validator_header (pc_to_lower_ascii h.1)
           then response ++ h.1 ++ bs ": " ++ h.2 ++ CRLF else response) out l =
  out ++ mjoin (header_line_text <$> filter (fun h => validator_header (lower h.1) = true) l).
Proof.
  revert out. induction l as [|h l IH]; intros out; cbn [foldl]; [by rewrite app_nil_r|].
  rewrite IH, filter_cons, pc_to_lower_lower.
  destruct (validator_header (lower h.1)).
  - rewrite decide_True, header_lines_cons by done. unfold header_line_text at 2.
    by rewrite <- !app_assoc.
  - by rewrite decide_False.
Qed.

(** ** Lemmas: store, then lookup *)

Section laws.
Context `{Llhttp, HeaderOrder, EntryCodec, RocksDB}.

Lemma pc_store_inv c key upstream now c' :
  pc_store c key upstream now = (true, c') ->
  exists d d' resp s, db_ c = Some d /\ db_ c' = Some d' /\
    parse_upstream upstream = Some resp /\ 200 <= status_code resp < 300 /\
    SerializeToString (entry_of resp now) = Some s /\ db_Put d key s = (true, d').
Proof.
  unfold pc_store. destruct (db_ c) as [d|]; [|done].
  destruct (parse_upstream upstream) as [resp|]; [|done].
  destruct ((status_code resp <? 200) || (300 <=? status_code resp)) eqn:E; [done|]. hp_bool.
  destruct (SerializeToString _) as [s|] eqn:Es; [|done].
  destruct (db_Put d key s) as [ok d'] eqn:Ep. intros ?. simplify_eq.
  exists d, d', resp, s. split_and!; try done; lia.
Qed.

(** What a later lookup sees of a stored entry. *)
Lemma stored_entry_lookup c key upstream now c' resp key' req t :
  pc_store c key upstream now = (true, c') -> parse_upstream upstream = Some resp ->
  encodable (entry_of resp now) ->
  pc_lookup c' key' req t =
    if decide (key = key') then
      fresh ← is_fresh (entry_of resp now) t;
      if negb fresh then Some (mk_result kMiss [])
      else if check_not_modified req (entry_of resp now)
           then Some (mk_result kNotModified (build_not_modified_response (entry_of resp now)))
           else Some (mk_result kHit (rebuild_response (entry_of resp now)))
    else pc_lookup c key' req t.
Proof.
  intros Hst Hp He. apply pc_store_inv in Hst as (d & d' & resp' & s & Hd & Hd' & Hp' & _ & Hs & Hput).
  simplify_eq. destruct (codec_roundtrip _ He) as (s' & Hs' & Hparse). simplify_eq.
  unfold pc_lookup. rewrite Hd, Hd'. simpl. rewrite (db_put_get _ _ _ _ _ Hput).
  case_decide; [by rewrite Hparse|done].
Qed.

End laws.

(** [resp] with an [Expires] header of value [v]. *)
Definition with_expires (resp : response_info) (v : bytes) : response_info :=
  mk_response (status_code resp) (reason_phrase resp) (version resp) (content_length resp)
    (chunked resp) (keep_alive resp) (<[bs "expires" := v]> (hdrs resp)) (body resp).

Lemma expires_ignored resp v : compute_ttl (with_expires resp v) = compute_ttl resp.
Proof.
  unfold compute_ttl, with_expires. cbn [hdrs]. rewrite lookup_insert_eq, lookup_insert_ne by discriminate.
  destruct (hdrs resp !! bs "cache-control"), (hdrs resp !! bs "expires"); done.
Qed.

(** C8: the L2 cache serves back what it stored, for its lifetime.  When [store]
    succeeds, the upstream text parsed to a complete 2xx response; from then on
    a lookup of the key at a time within the response's lifetime returns it (304
    when the client's validator matches, otherwise a hit), and after the
    lifetime a miss; other keys are untouched.  The lifetime is the max-age of
    Cache-Control, or an hour when there is none; an [Expires] header does not
    change it, although the README lists it as deciding freshness.  The rebuilt
    response reads back as the stored status, the end-to-end headers (a
    Content-Length added when missing) and exactly the stored body. *)
Theorem stored_response_served `{Llhttp, HeaderOrder, EntryCodec, RocksDB}
    c key upstream now0 c' resp :
  pc_store c key upstream now0 = (true, c') -> parse_upstream upstream = Some resp ->
  encodable (entry_of resp now0) -> 0 <= now0 -> now0 + compute_ttl resp <= INT64_MAX ->
  one_line (reason_phrase resp) -> (forall k v, hdrs resp !! k = Some v -> header_safe (k, v)) ->
  let e := entry_of resp now0 in
  200 <= status_code resp < 300 /\
  (forall cc, hdrs resp !! bs "cache-control" = Some cc -> 0 <= parse_max_age cc ->
     compute_ttl resp = parse_max_age cc) /\
  ((forall cc, hdrs resp !! bs "cache-control" = Some cc -> parse_max_age cc < 0) ->
     compute_ttl resp = 3600) /\
  (forall v, compute_ttl (with_expires resp v) = compute_ttl resp) /\
  (forall req now, now <= now0 + compute_ttl resp ->
     pc_lookup c' key req now =
       Some (if check_not_modified req e
             then mk_result kNotModified (build_not_modified_response e)
             else mk_result kHit (rebuild_response e))) /\
  (forall req now, now0 + compute_ttl resp < now ->
     pc_lookup c' key req now = Some (mk_result kMiss [])) /\
  (forall key' req now, key' <> key -> pc_lookup c' key' req now = pc_lookup c key' req now) /\
  read_message (rebuild_response e) =
    Some (bs "HTTP/1.1 " ++ to_string (status_code resp) ++ bs " " ++ reason_phrase resp,
          rebuilt_headers e, body resp).
Proof.
  intros Hst Hp He Hnow Hov Hr Hh e.
  destruct (pc_store_inv _ _ _ _ _ Hst) as (d & d' & resp' & s & _ & _ & Hp' & Hcode & _).
  assert (resp' = resp) as -> by congruence.
  destruct (entry_of_spec resp now0) as (I1 & I2 & I3 & I4 & I5 & I6 & _). fold e in I1, I2, I3, I4, I5, I6.
  pose proof (compute_ttl_range resp) as Httl.
  assert (forall t, is_fresh e t = Some (t <=? now0 + compute_ttl resp)) as Hfresh.
  { intros t. unfold is_fresh. rewrite I3, I4.
    rewrite (proj2 (add_i64_Some now0 (compute_ttl resp) (now0 + compute_ttl resp))); [done|].
    split; [done|]. unfold INT64_MIN. lia. }
  pose proof (fun key' req t => stored_entry_lookup c key upstream now0 c' resp key' req t Hst Hp He)
    as Hl. fold e in Hl. destruct (compute_ttl_cases resp) as [Hmax Hdef].
  split_and!; [lia|lia|exact Hmax|exact Hdef|by apply expires_ignored| | | |].
  - intros req now Hle. rewrite Hl, decide_True, Hfresh by done. simpl.
    rewrite (proj2 (Z.leb_le _ _) Hle). simpl. by destruct (check_not_modified req e).
  - intros req now Hlt. rewrite Hl, decide_True, Hfresh by done. simpl.
    by rewrite (proj2 (Z.leb_gt _ _) Hlt).
  - intros key' req now Hne. by rewrite Hl, decide_False.
  - rewrite rebuild_reads_back.
    + rewrite I1, I2, I6, u32_small by lia. done.
    + by rewrite I2.
    + rewrite I5. apply Forall_forall. intros [k v] Hin. by apply Hh, header_order_elem.
Qed.

Definition demo_l2_resp : HttpResponseParser.message :=
  HttpResponseParser.mk_message [bs "1.1"] [bs "OK"]
    [mk_line [bs "Cache-Control"] [bs "public, max-age=60"];
     mk_line [bs "Transfer-Encoding"] [bs "chunked"]; mk_line [bs "ETag"] [bs "v1"]]
    demo_resp_info [bs "hello"].
Definition demo_l2_llhttp : Llhttp :=
  scripted [(HttpResponseParser.message_events demo_l2_resp, HPE_OK)].
Definition demo_l2_info : response_info := response_of demo_l2_resp.
Definition demo_codec : EntryCodec := one_entry_codec (entry_of demo_l2_info 1000).

Lemma stored_response_served_witness :
  exists c', @pc_store demo_l2_llhttp _ demo_codec map_db (@mk_pc map_db (Some ∅))
               (bs "k") (bs "HTTP/1.1 200 OK...") 1000 = (true, c') /\
    @pc_lookup demo_codec map_db c' (bs "k") demo_request 1060 =
      Some (mk_result kHit (rebuild_response (entry_of demo_l2_info 1000))) /\
    @pc_lookup demo_codec map_db c' (bs "k") demo_request 1061 = Some (mk_result kMiss []) /\
    compute_ttl (with_expires demo_l2_info (bs "Thu, 01 Jan 1970 00:00:00 GMT")) = 60.
Proof.
  destruct (@pc_store demo_l2_llhttp _ demo_codec map_db (@mk_pc map_db (Some ∅))
              (bs "k") (bs "HTTP/1.1 200 OK...") 1000) as [ok c'] eqn:Hst.
  assert (ok = true) as ->.
  { change ok with (ok, c').1. rewrite <- Hst. vm_compute. reflexivity. }
  assert (compute_ttl demo_l2_info = 60) as Httl by (vm_compute; reflexivity).
  assert (check_not_modified demo_request (entry_of demo_l2_info 1000) = false) as Hnm
    by (vm_compute; reflexivity).
  exists c'. split; [reflexivity|].
  destruct (@stored_response_served demo_l2_llhttp _ demo_codec map_db _ _ _ _ _ demo_l2_info Hst)
    as (_ & _ & _ & Tx & T1 & T2 & _).
  - vm_compute. reflexivity.
  - reflexivity.
  - lia.
  - rewrite Httl. unfold INT64_MAX. lia.
  - apply (bool_decide_unpack _). vm_compute. exact I.
  - apply (bool_decide_unpack _). vm_compute. exact I.
  - rewrite Httl in T1. rewrite Httl in T2. split.
    + rewrite (T1 demo_request 1060) by lia. by rewrite Hnm.
    + split; [by apply (T2 demo_request 1061)|]. by rewrite Tx.
Defined.

(** The directive search.  [parse_max_age] reads the first [max-age=] that
    starts the value or follows ',', ' ' or ';' (an [s-max-age=] is passed
    over): its decimal number, -1 when the number does not fit in 64 bits or
    there are no digits, and -1 when there is no such directive. *)
Theorem max_age_first_directive cc :
  ((forall i, ~ directive_at cc i) -> parse_max_age cc = -1) /\
  (forall i, directive_at cc i -> (forall j, (j < i)%nat -> ~ directive_at cc j) ->
    (no_digit_head (drop (i + 8) cc) -> parse_max_age cc = -1) /\
    (forall n rest, 0 <= n -> drop (i + 8) cc = to_string n ++ rest -> no_digit_head rest ->
       parse_max_age cc = if INT64_MAX <? n then -1 else n)).
Proof.
  split; [intros; by apply max_age_loop_none|]. intros i Hi Hfirst.
  unfold parse_max_age.
  rewrite (max_age_loop_first _ cc 0 i) by (done || lia || intros j ?; apply Hfirst; lia).
  split.
  - intros Hd. rewrite <- (app_nil_l (drop _ _)). by rewrite span_digits_app.
  - intros n rest Hn -> Hr.
    rewrite to_string_nonneg, span_digits_app by (done || by apply digits_all). cbn [fst].
    pose proof (stoll_digits (digits n) (digits_nonempty n Hn) (digits_all n Hn)) as Hst.
    rewrite digits_value_digits in Hst by done. pose proof (digits_nonempty n Hn).
    destruct (digits n); [done|]. rewrite Hst. by destruct (INT64_MAX <? n).
Qed.

Lemma max_age_first_directive_witness :
  parse_max_age (bs "s-max-age=5, max-age=60, public") = 60.
Proof.
  destruct (max_age_first_directive (bs "s-max-age=5, max-age=60, public")) as [_ H].
  refine (proj2 (H 13%nat _ _) 60 (bs ", public") _ _ _).
  - split; apply (bool_decide_unpack _); vm_compute; exact I.
  - intros j Hj [Hp Hv]. do 13 (destruct j as [|j]; [revert Hp Hv; vm_compute; try discriminate;
      intros [? ?]; discriminate|]). lia.
  - lia.
  - reflexivity.
  - reflexivity.
Defined.

(** A lifetime the arithmetic cannot hold.  A stored response whose
    [max-age] reaches past the end of the 64-bit clock makes every later lookup
    of its key evaluate an overflowing [int64_t] sum: undefined behaviour. *)
Theorem huge_max_age_overflows `{Llhttp, HeaderOrder, EntryCodec, RocksDB}
    c key upstream now0 c' resp req now :
  pc_store c key upstream now0 = (true, c') -> parse_upstream upstream = Some resp ->
  encodable (entry_of resp now0) -> INT64_MAX < now0 + compute_ttl resp ->
  pc_lookup c' key req now = None.
Proof.
  intros Hst Hp He Hov. rewrite (stored_entry_lookup _ _ _ _ _ _ _ _ _ Hst Hp He).
  destruct (entry_of_spec resp now0) as (_ & _ & I3 & I4 & _).
  rewrite decide_True by done. unfold is_fresh. rewrite I3, I4.
  destruct (add_i64 now0 (compute_ttl resp)) as [z|] eqn:E; [|done].
  apply add_i64_Some in E. lia.
Qed.

Definition demo_huge_resp : HttpResponseParser.message :=
  HttpResponseParser.mk_message [bs "1.1"] [bs "OK"]
    [mk_line [bs "Cache-Control"] [bs "max-age=9223372036854775807"]]
    demo_resp_info [bs "hello"].

Lemma huge_max_age_overflows_witness :
  let codec := one_entry_codec (entry_of (response_of demo_huge_resp) 1) in
  let llh := scripted [(HttpResponseParser.message_events demo_huge_resp, HPE_OK)] in
  exists c', @pc_store llh _ codec map_db (@mk_pc map_db (Some ∅)) (bs "k") (bs "resp") 1 = (true, c')
    /\ @pc_lookup codec map_db c' (bs "k") demo_request 2 = None.
Proof.
  intros codec llh.
  destruct (@pc_store llh _ codec map_db (@mk_pc map_db (Some ∅)) (bs "k") (bs "resp") 1)
    as [ok c'] eqn:Hst.
  assert (ok = true) as ->.
  { change ok with (ok, c').1. rewrite <- Hst. vm_compute. reflexivity. }
  exists c'. split; [reflexivity|].
  apply (@huge_max_age_overflows llh _ codec map_db _ _ _ _ _ (response_of demo_huge_resp)
           demo_request 2 Hst); vm_compute; reflexivity.
Defined.

(** The headers a 304 repeats. *)
Definition not_modified_headers (e : HttpCacheEntry) : list (bytes * bytes) :=
  filter (fun h => validator_header (lower h.1) = true) (e_headers e).

(** C38: conditional requests.  A stored entry is answered 304 exactly when its
    ETag is non-empty and the client's If-None-Match is the same up to letter
    case and one pair of quotes, or, without that pair, when If-Modified-Since
    repeats its non-empty Last-Modified byte for byte; the 304 reads back as a
    status line, the validator headers and no body. *)
Theorem not_modified_exact req e :
  Forall header_safe (e_headers e) ->
  (check_not_modified req e = true <->
     (exists inm, HttpRequestParser.hdrs req !! bs "if-none-match" = Some inm /\ e_etag e <> [] /\
        trim_quotes (lower inm) = trim_quotes (lower (e_etag e))) \/
     ((HttpRequestParser.hdrs req !! bs "if-none-match" = None \/ e_etag e = []) /\
      e_last_modified e <> [] /\
      HttpRequestParser.hdrs req !! bs "if-modified-since" = Some (e_last_modified e))) /\
  read_message (build_not_modified_response e) =
    Some (bs "HTTP/1.1 304 Not Modified", not_modified_headers e, []).
Proof.
  intros Hh. split.
  - unfold check_not_modified. rewrite ?pc_to_lower_lower.
    destruct (HttpRequestParser.hdrs req !! bs "if-none-match") as [inm|] eqn:E1;
      destruct (HttpRequestParser.hdrs req !! bs "if-modified-since") as [ims|] eqn:E2;
      repeat case_bool_decide; naive_solver.
  - rewrite <- (read_message_app _ _ []); [|lit_one_line|].
    + unfold build_not_modified_response. f_equal.
      rewrite foldl_filter_lines. by rewrite app_nil_r, <- !app_assoc.
    + apply Forall_forall. intros h [_ Hin]%list_elem_of_filter.
      by apply (proj1 (Forall_forall _ _) Hh).
Qed.

Lemma not_modified_exact_witness :
  let e := entry_of demo_l2_info 1000 in
  let req := mk_request (bs "GET") (bs "/") (bs "1.1") (bs "h") 80 0 false true false
               {[bs "if-none-match" := bs "V1"]} [] in
  check_not_modified req e = true.
Proof.
  intros e req. destruct (not_modified_exact req e) as [H _].
  - apply (bool_decide_unpack _). vm_compute. exact I.
  - apply H. left. exists (bs "V1"). split_and!; vm_compute; reflexivity || discriminate.
Defined.
