(* ===== verification/HttpCache.v ===== *)
(** * HttpCache: src/src/net/http/http_cache.{h,cpp}

    The two-level response cache of the proxy: an LRU of whole responses
    ([MemoryCache]) in front of the persistent cache ([PersistentCache]).  Both
    levels are the models of their own files, so the theorems here are about
    the composition: where a hit can come from, what the first level may hold,
    what a store makes of later lookups, and when two requests share a key. *)

From S2P Require Import Prelude Bytes MemoryCache Llhttp HeaderFields HttpRequestParser.
From S2P Require Import HttpMessageBuilder HttpResponseParser PersistentCache.

Local Open Scope Z_scope.

(* src/src/net/http/http_cache.cpp:6-6 kL1MaxBodySize *)
Definition kL1MaxBodySize : Z := 64 * 1024.

(* src/src/net/http/http_cache.h:14-20 http_cache::lookup_status *)
Inductive hc_status := hc_kBypass | hc_kMiss | hc_kNotModified | hc_kHit | hc_kError.

#[export] Instance hc_status_eq_dec : EqDecision hc_status.
Proof. solve_decision. Defined.

(* src/src/net/http/http_cache.h:22-28 http_cache::lookup_result *)
Record hc_result := mk_hc_result {
  r_status : hc_status; r_key : bytes; r_response : bytes; r_detail : bytes;
}.

Definition hc_result_default : hc_result := mk_hc_result hc_kBypass [] [] [].

(* src/src/net/http/http_cache.cpp:93-95 http_cache::is_cacheable_request *)
Definition is_cacheable_request (req : request_info) : bool :=
  negb (is_connect req) && bool_decide (method req = bs "GET").

(* src/src/net/http/http_cache.cpp:97-115 http_cache::build_cache_key *)
Definition build_cache_key (req : request_info) : bytes :=
  let key := host req ++ bs ":" ++ to_string (port req) ++ bs "|" ++ method req ++
             bs "|" ++ url req in
  match HttpRequestParser.hdrs req !! bs "accept-encoding" with
  | Some v => key ++ bs "|" ++ v
  | None => key
  end.

Section cache.
Context `{Llhttp, HeaderOrder, EntryCodec, RocksDB}.

(** [l2_] is the [unique_ptr]; [l1_cache_] is [mutable] and changes in
    [lookup] too. *)
(* src/src/net/http/http_cache.h:43-44 http_cache *)
Record http_cache := mk_hc { l2_ : option persistent_cache; l1_cache_ : memory_cache bytes bytes }.

(** The default-constructed [memory_cache] is disabled and weighs by size. *)
(* src/src/net/http/http_cache.h:43-44 http_cache *)
Definition hc_new : http_cache := mk_hc None (cache_new 0 0 size_of).

(* src/src/net/http/http_cache.h:31-31 http_cache::ready *)
Definition hc_ready (c : http_cache) : bool :=
  match l2_ c with Some l2 => pc_ready l2 | None => false end.

(* src/src/net/http/http_cache.cpp:9-16 http_cache::open *)
Definition hc_open (c : http_cache) (db_path : bytes) : bool * http_cache :=
  let '(ok, l2) := pc_open pc_new db_path in
  if negb ok then (false, c) else (true, mk_hc (Some l2) (l1_cache_ c)).

(* src/src/net/http/http_cache.cpp:18-22 http_cache::configure_l1 *)
Definition configure_l1 (c : http_cache) (max_entries max_bytes : Z) : http_cache :=
  mk_hc (l2_ c) (cache_new max_entries max_bytes size_of).

(** [None] is undefined behaviour in the persistent cache. *)
(* src/src/net/http/http_cache.cpp:24-71 http_cache::lookup *)
Definition hc_lookup (c : http_cache) (req : request_info) (now : Z)
  : option (hc_result * http_cache) :=
  if negb (is_cacheable_request req) then Some (mk_hc_result hc_kBypass [] [] [], c)
  else
    let key := build_cache_key req in
    match l2_ c with
    | Some l2 =>
        if negb (pc_ready l2) then
          Some (mk_hc_result hc_kError key [] (bs "cache module is not initialized"), c)
        else
          let '(found, l1, response) :=
            with_value (l1_cache_ c) key (fun cached _ => cached) [] in
          let c := mk_hc (l2_ c) l1 in
          if (found : bool) then Some (mk_hc_result hc_kHit key response [], c)
          else
            l2_result ← pc_lookup l2 key req now;
            match PersistentCache.status l2_result with
            | kMiss => Some (mk_hc_result hc_kMiss key [] [], c)
            | kNotModified =>
                Some (mk_hc_result hc_kNotModified key (PersistentCache.response l2_result) [], c)
            | kHit =>
                let r := PersistentCache.response l2_result in
                let c := if size_of r <=? kL1MaxBodySize
                         then mk_hc (l2_ c) (cache_put (l1_cache_ c) key r) else c in
                Some (mk_hc_result hc_kHit key r [], c)
            end
    | None => Some (mk_hc_result hc_kError key [] (bs "cache module is not initialized"), c)
    end.

(* src/src/net/http/http_cache.cpp:73-91 http_cache::store *)
Definition hc_store (c : http_cache) (req : request_info) (upstream_response : bytes) (now : Z)
  : bool * http_cache :=
  match is_cacheable_request req, hc_ready c, l2_ c with
  | true, true, Some l2 =>
      let cache_key := build_cache_key req in
      let '(ok, l2') := pc_store l2 cache_key upstream_response now in
      let c := mk_hc (Some l2') (l1_cache_ c) in
      if negb ok then (false, c)
      else if size_of upstream_response <=? kL1MaxBodySize
           then (true, mk_hc (l2_ c) (cache_put (l1_cache_ c) cache_key upstream_response))
           else (true, c)
  | _, _, _ => (false, c)
  end.

(** ** Histories

    The states a server can bring the cache to, with what was handed to
    [hc_store]: key, upstream text, time, and whether the store reported
    success.  A byte budget within 64 KiB of 2^64 is excluded. *)

Definition history : Type := list (bytes * bytes * Z * bool).

Inductive hc_reach : http_cache -> history -> Prop :=
| reach_new : hc_reach hc_new []
| reach_open c h path : hc_reach c h -> hc_reach (hc_open c path).2 h
| reach_configure c h e b :
    hc_reach c h -> 0 <= e -> 0 <= b -> b + kL1MaxBodySize < 2 ^ 64 ->
    hc_reach (configure_l1 c e b) h
| reach_lookup c h req now r c' :
    hc_reach c h -> hc_lookup c req now = Some (r, c') -> hc_reach c' h
| reach_store c h req text now ok c' :
    hc_reach c h -> hc_store c req text now = (ok, c') ->
    hc_reach c' ((build_cache_key req, text, now, ok) :: h).

(** Where an entry of the persistent cache can come from: it was in the
    database when that was opened, or it is the entry of a complete 2xx response
    handed to [hc_store] under this key. *)
Definition entry_origin (h : history) (key : bytes) (e : HttpCacheEntry) : Prop :=
  (exists path d raw, db_Open path = Some d /\ db_Get d key = Some raw /\ ParseFromString raw = Some e) \/
  (exists text t ok resp raw, (key, text, t, ok) ∈ h /\ parse_upstream text = Some resp /\
     200 <= status_code resp < 300 /\ SerializeToString (entry_of resp t) = Some raw /\
     ParseFromString raw = Some e /\ (encodable (entry_of resp t) -> e = entry_of resp t)).

(** What the memory cache may hold under a key: a text stored under it, or the
    response rebuilt from such an entry when it was fresh. *)
Definition memory_origin (h : history) (key v : bytes) : Prop :=
  (exists t, (key, v, t, true) ∈ h) \/
  (exists e t, entry_origin h key e /\ is_fresh e t = Some true /\ v = rebuild_response e).

End cache.

Arguments http_cache : clear implicits.
Arguments http_cache {_}.

(** ** Lemmas: the first level *)

Lemma spec_find_elem {K V} `{EqDecision K} k (v : V) (l : list (K * V)) :
  spec_find k l = Some v -> (k, v) ∈ l.
Proof.
  unfold spec_find. destruct (list_find _ l) as [[i [k' v']]|] eqn:E; simpl; [|done].
  intros ?; simplify_eq. apply list_find_Some in E as (Hl & Hk & _). simpl in Hk. subst.
  by apply list_elem_of_lookup_2 in Hl.
Qed.

Lemma spec_touch_elem {K V} `{EqDecision K} k (p : K * V) (l : list (K * V)) :
  p ∈ spec_touch k l -> p ∈ l.
Proof.
  unfold spec_touch. destruct (spec_find k l) as [v|] eqn:E; [|done].
  intros [->|[_ ?]%list_elem_of_filter]%elem_of_cons; [by apply spec_find_elem|done].
Qed.

Lemma spec_put_elem {K V} `{EqDecision K} cfg k (v : V) p (l : list (K * V)) :
  p ∈ spec_put cfg k v l -> p = (k, v) \/ p ∈ l.
Proof.
  unfold spec_put. case_match; [by right|].
  intros Hp. eapply elem_of_prefix in Hp; [|apply keep_fitting_prefix].
  apply elem_of_cons in Hp as [?|[_ ?]%list_elem_of_filter]; auto.
Qed.

(** What a fresh put is found by: enough room for one entry of its weight. *)
Lemma spec_put_find {K V} `{EqDecision K} cfg k (v : V) (l : list (K * V)) :
  1 <= cfg_entries cfg -> 1 <= cfg_bytes cfg -> cfg_weight cfg v <= cfg_bytes cfg ->
  spec_find k (spec_put cfg k v l) = Some v.
Proof.
  intros He Hb Hw. unfold spec_put.
  rewrite (proj2 (Z.eqb_neq _ _)), (proj2 (Z.eqb_neq _ _)) by lia. cbn [orb keep_fitting].
  rewrite (proj2 (Z.leb_le 1 _)) by done. cbn [snd].
  rewrite (proj2 (Z.leb_le _ (cfg_bytes cfg))) by done. cbn [andb].
  unfold spec_find. simpl. by rewrite decide_True.
Qed.

Section laws.
Context `{Llhttp, HeaderOrder, EntryCodec, RocksDB}.

(** The first level is a well-formed LRU whose budget leaves room for one more
    cacheable object, and every pair it holds is small and satisfies [P]. *)
Definition l1_inv (P : bytes * bytes -> Prop) (l1 : memory_cache bytes bytes) : Prop :=
  cache_ok l1 /\ config_ok (config_of l1) /\ weight_fn_ l1 = size_of /\
  max_bytes_ l1 + kL1MaxBodySize < 2 ^ 64 /\
  Forall (fun kv => size_of kv.2 <= kL1MaxBodySize /\ P kv) (entries l1).

Lemma l1_inv_mono P Q l1 : (forall kv, P kv -> Q kv) -> l1_inv P l1 -> l1_inv Q l1.
Proof.
  intros HPQ (?&?&?&?& HF). split_and!; try done.
  eapply Forall_impl; [exact HF|]. naive_solver.
Qed.

Lemma l1_inv_new P e b :
  0 <= e -> 0 <= b -> b + kL1MaxBodySize < 2 ^ 64 -> l1_inv P (cache_new e b size_of).
Proof.
  intros He Hb Hr. assert (config_ok (mk_config e b size_of)) as Hc.
  { split_and!; simpl; [done|done|]. unfold size_of. lia. }
  split_and!; try done. by apply (cache_new_ok (mk_config e b size_of)).
Qed.

Lemma l1_inv_get P l1 k : l1_inv P l1 -> l1_inv P (cache_get l1 k).2.
Proof.
  intros (Hok & Hcfg & Hw & Hb & HF). pose proof (cache_get_ok l1 k Hok) as Hg.
  destruct (cache_get l1 k) as [v c']. destruct Hg as (_ & Hok' & Hcfg' & He).
  pose proof (f_equal cfg_bytes Hcfg') as E1. pose proof (f_equal cfg_weight Hcfg') as E2.
  simpl in *. unfold l1_inv. rewrite Hcfg', E1, E2. split_and!; try done.
  rewrite He. apply Forall_forall. intros p Hp%spec_touch_elem.
  by apply (proj1 (Forall_forall _ _) HF).
Qed.

Lemma l1_inv_put P l1 k v :
  l1_inv P l1 -> size_of v <= kL1MaxBodySize -> P (k, v) -> l1_inv P (cache_put l1 k v).
Proof.
  intros (Hok & Hcfg & Hw & Hb & HF) Hv HP.
  destruct (cache_put_ok l1 k v Hok Hcfg) as (Hok' & Hcfg' & He).
  { unfold fits. simpl. rewrite Hw. lia. }
  pose proof (f_equal cfg_bytes Hcfg') as E1. pose proof (f_equal cfg_weight Hcfg') as E2.
  simpl in *. unfold l1_inv. rewrite Hcfg', E1, E2. split_and!; try done.
  rewrite He. apply Forall_forall. intros p [->|Hp]%spec_put_elem; [done|].
  by apply (proj1 (Forall_forall _ _) HF).
Qed.

(** A lookup that passed the guards: a first-level hit, or the second level. *)
Lemma hc_lookup_ready c req now l2 :
  is_cacheable_request req = true -> l2_ c = Some l2 -> pc_ready l2 = true ->
  cache_ok (l1_cache_ c) ->
  let key := build_cache_key req in
  let l1' := (cache_get (l1_cache_ c) key).2 in
  hc_lookup c req now =
    match spec_find key (entries (l1_cache_ c)) with
    | Some v => Some (mk_hc_result hc_kHit key v [], mk_hc (Some l2) l1')
    | None =>
        r ← pc_lookup l2 key req now;
        match PersistentCache.status r with
        | kMiss => Some (mk_hc_result hc_kMiss key [] [], mk_hc (Some l2) l1')
        | kNotModified => Some (mk_hc_result hc_kNotModified key (PersistentCache.response r) [],
                                mk_hc (Some l2) l1')
        | kHit => Some (mk_hc_result hc_kHit key (PersistentCache.response r) [],
                        if size_of (PersistentCache.response r) <=? kL1MaxBodySize
                        then mk_hc (Some l2) (cache_put l1' key (PersistentCache.response r))
                        else mk_hc (Some l2) l1')
        end
    end.
Proof.
  intros Hc Hl2 Hr Hok key l1'. unfold hc_lookup. rewrite Hc, Hl2, Hr. cbn [negb].
  rewrite (with_value_get _ _ _ _ Hok). fold key. fold l1'.
  destruct (spec_find key (entries (l1_cache_ c))); [done|]. by cbn [l1_cache_].
Qed.

(** The guards of a lookup. *)
Lemma hc_lookup_guards c req now :
  (is_cacheable_request req = false /\ hc_lookup c req now = Some (hc_result_default, c)) \/
  (is_cacheable_request req = true /\ hc_ready c = false /\
   hc_lookup c req now =
     Some (mk_hc_result hc_kError (build_cache_key req) [] (bs "cache module is not initialized"), c)) \/
  (is_cacheable_request req = true /\ exists l2, l2_ c = Some l2 /\ pc_ready l2 = true).
Proof.
  unfold hc_lookup, hc_ready. destruct (is_cacheable_request req); [right|by left].
  destruct (l2_ c) as [l2|]; [|by left]. destruct (pc_ready l2) eqn:E; [right; eauto|by left].
Qed.

(** Every entry of the persistent cache has an origin. *)
Definition l2_inv (h : history) (c : http_cache) : Prop :=
  forall l2 d key raw e, l2_ c = Some l2 -> db_ l2 = Some d -> db_Get d key = Some raw ->
    ParseFromString raw = Some e -> entry_origin h key e.

Lemma entry_origin_mono h h' key e : h ⊆ h' -> entry_origin h key e -> entry_origin h' key e.
Proof.
  intros Hh [?|(text & t & ok & resp & raw & Hin & ?)]; [by left|]. right. exists text, t, ok, resp, raw.
  split; [by apply Hh|done].
Qed.

Lemma memory_origin_mono h h' key v : h ⊆ h' -> memory_origin h key v -> memory_origin h' key v.
Proof.
  intros Hh [[t Ht]|(e & t & He & ?)]; [left; exists t; by apply Hh|]. right. exists e, t.
  split; [by eapply entry_origin_mono|done].
Qed.

(** What the second level answers. *)
Lemma pc_lookup_hit l2 key req now r :
  pc_lookup l2 key req now = Some (mk_result kHit r) ->
  exists d raw e, db_ l2 = Some d /\ db_Get d key = Some raw /\ ParseFromString raw = Some e /\
    is_fresh e now = Some true /\ check_not_modified req e = false /\ r = rebuild_response e.
Proof.
  unfold pc_lookup. destruct (db_ l2) as [d|]; [|done]. simpl.
  destruct (db_Get d key) as [raw|] eqn:Eg; [|by intros [= ?]].
  destruct (ParseFromString raw) as [e|] eqn:Ep; [|by intros [= ?]].
  destruct (is_fresh e now) as [[]|] eqn:Ef; simpl; [|by intros [= ?]|done].
  destruct (check_not_modified req e) eqn:Ec; [by intros [= ?]|]. intros [= <-]. by exists d, raw, e.
Qed.

(** The second level after a store. *)
Lemma pc_store_origin l2 key text now ok l2' d' k raw :
  pc_store l2 key text now = (ok, l2') -> db_ l2' = Some d' -> db_Get d' k = Some raw ->
  (exists d, db_ l2 = Some d /\ db_Get d k = Some raw) \/
  (k = key /\ exists resp, parse_upstream text = Some resp /\ 200 <= status_code resp < 300 /\
     SerializeToString (entry_of resp now) = Some raw).
Proof.
  unfold pc_store. destruct (db_ l2) as [d|] eqn:Ed; [|intros; simplify_eq/=; congruence].
  destruct (parse_upstream text) as [resp|]; [|intros; simplify_eq; eauto].
  destruct ((status_code resp <? 200) || (300 <=? status_code resp)) eqn:Es; [intros; simplify_eq; eauto|].
  hp_bool.
  destruct (SerializeToString (entry_of resp now)) as [s|] eqn:Ess; [|intros; simplify_eq; eauto].
  destruct (db_Put d key s) as [ok' d1] eqn:Ep. intros ? ? Hg. simplify_eq/=. destruct ok.
  - rewrite (db_put_get _ _ _ _ _ Ep) in Hg. case_decide; [|eauto]. simplify_eq. right. split; [done|].
    exists resp. split_and!; [done|lia|lia|done].
  - destruct (db_put_failed _ _ _ k _ Ep) as [Hk|[-> Hk]]; rewrite Hk in Hg; [eauto|]. simplify_eq.
    right. split; [done|]. exists resp. split_and!; [done|lia|lia|done].
Qed.

Lemma hc_lookup_l2 c req now r c' : hc_lookup c req now = Some (r, c') -> l2_ c' = l2_ c.
Proof.
  unfold hc_lookup. destruct (is_cacheable_request req); [|by intros [= <- <-]]. simpl.
  destruct (l2_ c) as [l2|] eqn:El; [|by intros [= <- <-]].
  destruct (pc_ready l2); simpl; [|by intros [= <- <-]].
  destruct (with_value _ _ _ _) as [[[] l1] resp]; [by intros [= <- <-]|].
  destruct (pc_lookup _ _ _ _) as [[[] rr]|]; simpl; try done; intros [= <- <-]; [done..|by case_match].
Qed.

Lemma hc_lookup_inv h c req now r c' :
  l2_inv h c -> l1_inv (fun kv => memory_origin h kv.1 kv.2) (l1_cache_ c) ->
  hc_lookup c req now = Some (r, c') ->
  l1_inv (fun kv => memory_origin h kv.1 kv.2) (l1_cache_ c') /\
  (r_status r = hc_kHit ->
     memory_origin h (build_cache_key req) (r_response r) /\
     ((build_cache_key req, r_response r) ∈ entries (l1_cache_ c) \/
      exists e, entry_origin h (build_cache_key req) e /\ is_fresh e now = Some true /\
        check_not_modified req e = false /\ r_response r = rebuild_response e)).
Proof.
  intros HL2 Hinv Hl.
  destruct (hc_lookup_guards c req now) as [[_ E]|[(_ & _ & E)|(Hc & l2 & Hl2 & Hr)]].
  1, 2: rewrite E in Hl; by simplify_eq.
  rewrite (hc_lookup_ready c req now l2 Hc Hl2 Hr (proj1 Hinv)) in Hl.
  pose proof (l1_inv_get _ _ (build_cache_key req) Hinv) as Hg.
  destruct (spec_find _ _) as [v|] eqn:Ef.
  - simplify_eq. split; [done|]. intros _. simpl. apply spec_find_elem in Ef. split; [|by left].
    destruct Hinv as (_ & _ & _ & _ & HF). by apply (proj1 (Forall_forall _ _) HF) in Ef as [_ ?].
  - destruct (pc_lookup _ _ _ _) as [[st resp]|] eqn:El; [|done]. simpl in Hl.
    assert (st = kHit -> exists e, entry_origin h (build_cache_key req) e /\ is_fresh e now = Some true /\
        check_not_modified req e = false /\ resp = rebuild_response e) as HQ.
    { intros ->. apply pc_lookup_hit in El as (d & raw & e & Ed & Eg & Ep & ?).
      exists e. split; [by eapply HL2|done]. }
    destruct st; simplify_eq; split; try done.
    + destruct (HQ eq_refl) as (e & He & Hfr & _ & ->). case_match; [|done]. hp_bool.
      apply l1_inv_put; [done|done|]. right. by exists e, now.
    + intros _. destruct (HQ eq_refl) as (e & He & Hfr & Hc' & Hre). split; [|right; by exists e].
      right. by exists e, now.
Qed.

Lemma hc_store_inv h c req text now ok c' :
  let h' := (build_cache_key req, text, now, ok) :: h in
  l2_inv h c -> l1_inv (fun kv => memory_origin h kv.1 kv.2) (l1_cache_ c) ->
  hc_store c req text now = (ok, c') ->
  l2_inv h' c' /\ l1_inv (fun kv => memory_origin h' kv.1 kv.2) (l1_cache_ c').
Proof.
  intros h' HL2 Hinv Hs. assert (h ⊆ h') as Hsub by (intros x Hx; by right).
  assert (l1_inv (fun kv => memory_origin h' kv.1 kv.2) (l1_cache_ c)) as HQ.
  { eapply l1_inv_mono; [|exact Hinv]. intros kv. by apply memory_origin_mono. }
  assert (l2_inv h' c) as HL2a.
  { intros l2 d key raw e ????. eapply entry_origin_mono; [exact Hsub|]. by eapply HL2. }
  unfold hc_store in Hs.
  destruct (is_cacheable_request req), (hc_ready c), (l2_ c) as [l2|] eqn:El2; simplify_eq; try done.
  destruct (pc_store l2 _ text now) as [ok' l2'] eqn:Est.
  assert (forall l1, ok = ok' -> l2_inv h' (mk_hc (Some l2') l1)) as Hl2.
  { intros l1 -> l2'' d key raw e [= <-] Hd Hg Hp.
    destruct (pc_store_origin _ _ _ _ _ _ _ _ _ Est Hd Hg) as [(d0 & Hd0 & Hg0)|(-> & resp & R1 & R2 & R3)].
    - by eapply HL2a.
    - right. exists text, now, ok', resp, raw. split_and!; [by left|done|lia|lia|done|done|].
      intros He. destruct (codec_roundtrip _ He) as (s & Hs1 & Hs2). congruence. }
  destruct ok'; simpl in Hs; [|simplify_eq; by split; [apply Hl2|]].
  destruct (size_of text <=? kL1MaxBodySize) eqn:E; simplify_eq; (split; [by apply Hl2|]); [|done]. hp_bool.
  apply l1_inv_put; [done|done|]. left. exists now. by left.
Qed.

Lemma hc_reach_inv c h :
  hc_reach c h -> l2_inv h c /\ l1_inv (fun kv => memory_origin h kv.1 kv.2) (l1_cache_ c).
Proof.
  induction 1 as [|c h path _ [I2 I1]|c h e b _ [I2 I1] He Hb Hr|c h req now r c' _ [I2 I1] Hl
                 |c h req text now ok c' _ [I2 I1] Hs].
  - split; [done|]. apply l1_inv_new; unfold kL1MaxBodySize; lia.
  - unfold hc_open. destruct (pc_open pc_new path) as [[] l2] eqn:E; [|done]. split; [|done].
    unfold pc_open in E. destruct (db_Open path) as [d0|] eqn:Eo; simplify_eq.
    intros l2' d key raw e0 [= <-] [= <-] Hg Hp. left. by exists path, d0, raw.
  - split; [exact I2|by apply l1_inv_new].
  - split; [|by eapply hc_lookup_inv]. intros l2 d key raw e El. rewrite (hc_lookup_l2 _ _ _ _ _ Hl) in El.
    by eapply I2.
  - by eapply hc_store_inv.
Qed.

End laws.

(** ** Lemmas: keys *)

Lemma split_first (c : ascii) (a b a' b' : bytes) :
  c ∉ a -> c ∉ a' -> a ++ c :: b = a' ++ c :: b' -> a = a' /\ b = b'.
Proof.
  revert a'. induction a as [|x a IH]; intros [|x' a'] Ha Ha' He; simplify_eq/=; [done| | |].
  - set_solver.
  - set_solver.
  - destruct (IH a') as [-> ->]; set_solver.
Qed.

Lemma split_first_only (c : ascii) (a a' b' : bytes) :
  c ∉ a -> a <> a' ++ c :: b'.
Proof. intros Ha ->. set_solver. Qed.

Lemma digits_no_char n c : 0 <= n -> is_digit c = false -> c ∉ to_string n.
Proof.
  intros Hn Hc Hin. rewrite to_string_nonneg in Hin by done.
  pose proof (proj1 (Forall_forall _ _) (digits_all n Hn) c Hin) as E. simpl in E. congruence.
Qed.

(** "host:port" is read from the right: the port holds no colon. *)
Lemma host_port_inj h h' p p' :
  0 <= p -> 0 <= p' -> h ++ ":"%char :: to_string p = h' ++ ":"%char :: to_string p' ->
  h = h' /\ p = p'.
Proof.
  intros Hp Hp' He. apply (f_equal reverse) in He.
  rewrite !reverse_app, !reverse_cons, <- !app_assoc in He. simpl in He.
  apply split_first in He as [E1 E2].
  - split; [by apply (inj reverse)|]. apply to_string_inj; [done|done|by apply (inj reverse)].
  - rewrite elem_of_reverse. by apply digits_no_char.
  - rewrite elem_of_reverse. by apply digits_no_char.
Qed.

(** The part of the key after the method: the URL and the optional encoding. *)
Definition key_tail (u : bytes) (o : option bytes) : bytes :=
  match o with Some v => u ++ "|"%char :: v | None => u end.

Lemma key_tail_inj u u' o o' :
  "|"%char ∉ u -> "|"%char ∉ u' -> key_tail u o = key_tail u' o' -> u = u' /\ o = o'.
Proof.
  intros Hu Hu'. destruct o as [v|], o' as [v'|]; simpl; intros E.
  - by apply split_first in E as [-> ->].
  - by destruct (split_first_only "|" u' u v Hu').
  - by destruct (split_first_only "|" u u' v' Hu).
  - done.
Qed.

Lemma cache_key_shape req :
  method req = bs "GET" ->
  build_cache_key req =
    (host req ++ ":"%char :: to_string (port req)) ++ "|"%char ::
    (bs "GET|" ++ key_tail (url req) (HttpRequestParser.hdrs req !! bs "accept-encoding")).
Proof.
  intros Hm. unfold build_cache_key. rewrite Hm. destruct (_ !! _); cbn [key_tail];
    rewrite <- ?app_assoc; simpl; by rewrite <- ?app_assoc.
Qed.

(** C9: a hit is never invented.  In every reachable state, a hit under a key
    returns either what the memory cache holds under it, or the response rebuilt
    from an entry of the persistent cache that is fresh now and does not match
    the request's validators.  What the memory cache holds is a text that was
    stored under that very key, or such a rebuilt response; and an entry of the
    persistent cache was in the database when it was opened, or is the entry of
    a complete 2xx response stored under that key.  The memory cache keeps its
    LRU bookkeeping and byte budget, and holds nothing above 64 KiB. *)
Theorem cache_hits_sound `{Llhttp, HeaderOrder, EntryCodec, RocksDB} c h req now r c' :
  hc_reach c h -> hc_lookup c req now = Some (r, c') ->
  (r_status r = hc_kHit ->
     memory_origin h (build_cache_key req) (r_response r) /\
     ((build_cache_key req, r_response r) ∈ entries (l1_cache_ c) \/
      exists e, entry_origin h (build_cache_key req) e /\ is_fresh e now = Some true /\
        check_not_modified req e = false /\ r_response r = rebuild_response e)) /\
  cache_ok (l1_cache_ c') /\ total_weight_ (l1_cache_ c') <= max_bytes_ (l1_cache_ c') /\
  (forall k v, (k, v) ∈ entries (l1_cache_ c') -> size_of v <= kL1MaxBodySize /\ memory_origin h k v).
Proof.
  intros Hr Hl. destruct (hc_reach_inv _ _ Hr) as [HL2 HL1].
  destruct (hc_lookup_inv _ _ _ _ _ _ HL2 HL1 Hl) as [Hi Hhit].
  split_and!; [done|apply Hi|apply Hi|]. intros k v Hkv. destruct Hi as (_ & _ & _ & _ & HF).
  by apply (proj1 (Forall_forall _ _) HF) in Hkv.
Qed.

Definition demo_get : request_info :=
  mk_request (bs "GET") (bs "/a") (bs "1.1") (bs "example.com") 80 0 false true false
    {[bs "accept-encoding" := bs "gzip"]} [].
Definition demo_hc : @http_cache map_db :=
  configure_l1 (@mk_hc map_db (Some (@mk_pc map_db (Some ∅))) (cache_new 0 0 size_of)) 8 1000.

Section demo_hits.
#[local] Existing Instances demo_l2_llhttp demo_codec map_db.

(** A response stored at 1000 with a lifetime of 60 seconds, with the memory
    cache configured before ([true]) or after the store, so that it starts
    empty. *)
Definition demo_stored (before : bool) : option (@http_cache map_db) :=
  let c := (hc_open hc_new (bs "db")).2 in
  let c := if before then configure_l1 c 8 1000 else c in
  let '(ok, c) := hc_store c demo_get (bs "HTTP/1.1 200 OK...") 1000 in
  if (ok : bool) then Some (if before then c else configure_l1 c 8 1000) else None.

Definition demo_hit (before : bool) : option (hc_result * @http_cache map_db) :=
  c ← demo_stored before; hc_lookup c demo_get 1010.

Lemma demo_hit_stored before x :
  demo_hit before = Some x -> exists c, demo_stored before = Some c /\ hc_lookup c demo_get 1010 = Some x.
Proof. apply bind_Some. Qed.

Definition demo_history : history :=
  [(build_cache_key demo_get, bs "HTTP/1.1 200 OK...", 1000, true)].

Lemma demo_stored_reach before c : demo_stored before = Some c -> hc_reach c demo_history.
Proof.
  unfold demo_stored. set (c0 := (hc_open hc_new (bs "db")).2).
  assert (forall c h, hc_reach c h -> hc_reach (configure_l1 c 8 1000) h) as Hcfg
    by (intros; apply reach_configure; [done|lia|lia|vm_compute; reflexivity]).
  assert (hc_reach (if before then configure_l1 c0 8 1000 else c0) []) as H0.
  { destruct before; [apply Hcfg|]; apply reach_open, reach_new. }
  destruct (hc_store _ demo_get _ 1000) as [ok c1] eqn:E. destruct ok; [|done]. intros [= <-].
  assert (hc_reach c1 demo_history) as H1 by exact (reach_store _ _ _ _ _ _ _ H0 E).
  destruct before; [done|by apply Hcfg].
Qed.

(** Hits of both levels: the stored text from the memory cache, and, when that
    is empty, the response rebuilt from the persistent cache, which enters the
    memory cache. *)
Lemma cache_hits_sound_witness :
  (exists r c', demo_hit true = Some (r, c') /\ r_status r = hc_kHit /\
     r_response r = bs "HTTP/1.1 200 OK..." /\
     memory_origin demo_history (build_cache_key demo_get) (r_response r)) /\
  (exists r c', demo_hit false = Some (r, c') /\ r_status r = hc_kHit /\
     r_response r = rebuild_response (entry_of demo_l2_info 1000) /\
     (exists e, entry_origin demo_history (build_cache_key demo_get) e /\
        is_fresh e 1010 = Some true /\ r_response r = rebuild_response e) /\
     (build_cache_key demo_get, r_response r) ∈ entries (l1_cache_ c') /\
     memory_origin demo_history (build_cache_key demo_get) (r_response r)).
Proof.
  split.
  - destruct (ran_Some (demo_hit true)) as [[r c'] E]; [vm_compute; reflexivity|].
    exists r, c'. split; [done|].
    assert (r_status r = hc_kHit) as Hs by (apply (observe_Some (fun x => r_status x.1) _ _ _ E); vm_compute; reflexivity).
    assert (r_response r = bs "HTTP/1.1 200 OK...") as Hr
      by (apply (observe_Some (fun x => r_response x.1) _ _ _ E); vm_compute; reflexivity).
    apply demo_hit_stored in E as (c & Ec & El).
    destruct (cache_hits_sound c demo_history demo_get 1010 r c' (demo_stored_reach true c Ec) El) as (H1 & _).
    split_and!; [done|done|]. by apply H1.
  - destruct (ran_Some (demo_hit false)) as [[r c'] E]; [vm_compute; reflexivity|].
    exists r, c'. split; [done|].
    assert (r_status r = hc_kHit) as Hs by (apply (observe_Some (fun x => r_status x.1) _ _ _ E); vm_compute; reflexivity).
    assert (r_response r = rebuild_response (entry_of demo_l2_info 1000)) as Hr
      by (apply (observe_Some (fun x => r_response x.1) _ _ _ E); vm_compute; reflexivity).
    assert (entries (l1_cache_ c') = [(build_cache_key demo_get, r_response r)]) as He.
    { rewrite Hr. apply (observe_Some (fun x => entries (l1_cache_ x.2)) _ _ _ E). vm_compute. reflexivity. }
    apply demo_hit_stored in E as (c & Ec & El).
    destruct (cache_hits_sound c demo_history demo_get 1010 r c' (demo_stored_reach false c Ec) El) as (H1 & _ & _ & H4).
    assert (entries (l1_cache_ c) = []) as Hn.
    { apply (observe_Some (fun c => entries (l1_cache_ c)) _ _ _ Ec). vm_compute. reflexivity. }
    destruct (H1 Hs) as [_ [Hin|(e & Ho & Hf & _ & Hre)]].
    { exfalso. rewrite Hn in Hin. inversion Hin. }
    assert ((build_cache_key demo_get, r_response r) ∈ entries (l1_cache_ c')) as Hin by (rewrite He; left).
    split; [exact Hs|]. split; [exact Hr|]. split; [exists e; exact (conj Ho (conj Hf Hre))|].
    split; [exact Hin|]. exact (proj2 (H4 _ _ Hin)).
Defined.
End demo_hits.

(** C37: storing makes later lookups hit.  After a successful store of a
    response of at most 64 KiB, with a memory cache that has room for it, every
    lookup under the same key returns exactly the stored text -- at whatever
    time and whatever the validators of the request, since the memory cache
    knows neither lifetimes nor conditions. *)
Theorem stored_response_hits `{Llhttp, HeaderOrder, EntryCodec, RocksDB}
    c h req text now0 c' req' now :
  hc_reach c h -> hc_store c req text now0 = (true, c') ->
  size_of text <= kL1MaxBodySize ->
  1 <= max_entries_ (l1_cache_ c) -> 1 <= max_bytes_ (l1_cache_ c) ->
  size_of text <= max_bytes_ (l1_cache_ c) ->
  is_cacheable_request req' = true -> build_cache_key req' = build_cache_key req ->
  exists c'', hc_lookup c' req' now =
    Some (mk_hc_result hc_kHit (build_cache_key req) text [], c'').
Proof.
  intros Hreach Hs Hsz He Hb Hfit Hc Hk.
  destruct (hc_reach_inv _ _ Hreach) as (_ & Hok & Hcfg & Hw & Hroom & _). unfold hc_store in Hs.
  destruct (is_cacheable_request req); [|done]. destruct (hc_ready c); [|done].
  destruct (l2_ c) as [l2|]; [|done].
  destruct (pc_store l2 _ text now0) as [ok l2'] eqn:Est. destruct ok; [|done]. simpl in Hs.
  rewrite (proj2 (Z.leb_le _ _) Hsz) in Hs. simplify_eq.
  destruct (cache_put_ok (l1_cache_ c) (build_cache_key req) text Hok Hcfg) as (Hok' & _ & Hent).
  { unfold fits. simpl. rewrite Hw. lia. }
  apply pc_store_inv in Est as (d & d' & resp & s & _ & Hd' & _).
  eexists. rewrite (hc_lookup_ready _ _ _ l2').
  - cbn [l1_cache_]. rewrite Hent, Hk.
    rewrite spec_put_find; [done|done|done|]. simpl. by rewrite Hw.
  - done.
  - done.
  - unfold pc_ready. rewrite Hd'. by apply bool_decide_eq_true; eauto.
  - done.
Qed.

Lemma stored_response_hits_witness :
  exists c' c'', @hc_store demo_l2_llhttp _ demo_codec map_db
      (configure_l1 (@hc_open map_db hc_new (bs "db")).2 8 1000) demo_get (bs "HTTP/1.1 200 OK...") 1000
    = (true, c') /\
    @hc_lookup demo_codec map_db c' demo_get 999999 =
      Some (mk_hc_result hc_kHit (build_cache_key demo_get) (bs "HTTP/1.1 200 OK...") [], c'').
Proof.
  pose proof (@reach_configure demo_l2_llhttp _ demo_codec map_db _ _ 8 1000
    (@reach_open demo_l2_llhttp _ demo_codec map_db _ _ (bs "db")
       (@reach_new demo_l2_llhttp _ demo_codec map_db)) ltac:(lia) ltac:(lia)
    ltac:(vm_compute; reflexivity)) as Hr.
  destruct (@hc_store demo_l2_llhttp _ demo_codec map_db _ demo_get (bs "HTTP/1.1 200 OK...") 1000)
    as [ok c'] eqn:E.
  assert (ok = true) as -> by (change ok with (ok, c').1; rewrite <- E; vm_compute; reflexivity).
  destruct (@stored_response_hits demo_l2_llhttp _ demo_codec map_db _ _ demo_get _ _ _ demo_get 999999 Hr E)
    as [c'' Hh]; [vm_compute; discriminate|vm_compute; discriminate|vm_compute; discriminate
                 |vm_compute; discriminate|reflexivity|reflexivity|].
  exists c', c''. split; [reflexivity|exact Hh].
Defined.

(** The cache key separates requests, as long as no host or URL contains
    '|': two GET requests share a key only when host, port, URL and
    Accept-Encoding agree. *)
Theorem cache_key_injective req req' :
  method req = bs "GET" -> method req' = bs "GET" -> 0 <= port req -> 0 <= port req' ->
  "|"%char ∉ host req -> "|"%char ∉ host req' -> "|"%char ∉ url req -> "|"%char ∉ url req' ->
  build_cache_key req = build_cache_key req' ->
  host req = host req' /\ port req = port req' /\ url req = url req' /\
  HttpRequestParser.hdrs req !! bs "accept-encoding" =
    HttpRequestParser.hdrs req' !! bs "accept-encoding".
Proof.
  intros Hm Hm' Hp Hp' Hh Hh' Hu Hu'. rewrite !cache_key_shape by done.
  intros He. apply split_first in He as [E1 E2].
  - apply host_port_inj in E1 as [-> ->]; [|done|done].
    apply app_inv_head in E2. by apply key_tail_inj in E2 as [-> ->].
  - rewrite elem_of_app, elem_of_cons. pose proof (digits_no_char (port req) "|" Hp eq_refl).
    naive_solver.
  - rewrite elem_of_app, elem_of_cons. pose proof (digits_no_char (port req') "|" Hp' eq_refl).
    naive_solver.
Qed.

Lemma cache_key_injective_witness :
  host demo_get = host demo_get /\ url demo_get = url demo_get.
Proof.
  refine ((fun H => conj (proj1 H) (proj1 (proj2 (proj2 H))))
            (cache_key_injective demo_get demo_get _ _ _ _ _ _ _ _ _));
    try reflexivity; try (simpl; lia);
    try (apply (bool_decide_unpack _); vm_compute; exact I).
Defined.

(** With a '|' in the URL the key is ambiguous: a request for "/a|gzip"
    without Accept-Encoding has the key of a request for "/a" that accepts
    gzip, so each is answered from the other's cache entry. *)
Theorem cache_key_collision h p :
  let req u hs := mk_request (bs "GET") u (bs "1.1") h p 0 false true false hs [] in
  build_cache_key (req (bs "/a|gzip") ∅) =
  build_cache_key (req (bs "/a") {[bs "accept-encoding" := bs "gzip"]}).
Proof.
  intros req. rewrite !cache_key_shape by done. cbn. rewrite lookup_empty, lookup_singleton_eq.
  reflexivity.
Qed.
