(* ===== verification/Sockets.v ===== *)
(** * Sockets: the system-call interface of the models

    The kernel is not under src/: what its calls will answer is an argument of
    the models, as a script per socket.  A receive script lists the segments
    that arrive and what ends them; a send script lists how many bytes each
    [send] accepts.  An exhausted script answers as an idle non-blocking socket
    does: [recv] gives [EAGAIN], [send] accepts everything.  [recv] never
    returns more than it is asked for, [send] never accepts more than it is
    given, and end-of-file is sticky: the documented behaviour of the calls. *)

From S2P Require Import Prelude.

Local Open Scope Z_scope.

(** ** errno *)

Definition ENOENT : Z := 2.
Definition EINTR : Z := 4.
Definition EIO : Z := 5.
Definition EBADF : Z := 9.
Definition EAGAIN : Z := 11.
Definition EWOULDBLOCK : Z := EAGAIN.
Definition EINVAL : Z := 22.
Definition EPIPE : Z := 32.
Definition ECONNABORTED : Z := 103.
Definition ECONNRESET : Z := 104.
Definition ENOTCONN : Z := 107.
Definition ETIMEDOUT : Z := 110.
Definition EHOSTUNREACH : Z := 113.
Definition EINPROGRESS : Z := 115.

Definition would_block (e : Z) : bool := (e =? EAGAIN) || (e =? EWOULDBLOCK).

(** ** Receiving *)

Inductive recv_answer := RData (b : bytes) | REof | RErr (e : Z).

(** [recv(fd, buf, max, 0)]. *)
Definition recv (max : nat) (rx : list recv_answer) : recv_answer * list recv_answer :=
  match rx with
  | [] => (RErr EAGAIN, [])
  | RData [] :: rx' => (REof, rx')
  | RData b :: rx' =>
      if (length b <=? max)%nat then (RData b, rx')
      else (RData (take max b), RData (drop max b) :: rx')
  | REof :: _ => (REof, rx)
  | RErr e :: rx' => (RErr e, rx')
  end.

(** A bound on the number of calls until the script answers something else
    than data. *)
Definition rx_size (rx : list recv_answer) : nat :=
  foldr (fun a n => (n + match a with RData b => S (length b) | _ => 1 end)%nat) 0%nat rx.

(** How a stream of data ends. *)
Inductive rx_end := EndEof | EndErr (e : Z).

(** The data before the first end, the end, and the rest of the script: what a
    loop of [recv] calls reads, whatever its buffer size. *)
Fixpoint rx_stream (rx : list recv_answer) : bytes * rx_end * list recv_answer :=
  match rx with
  | [] => ([], EndErr EAGAIN, [])
  | RData [] :: rx' => ([], EndEof, rx')
  | RData b :: rx' => let '(d, e, r) := rx_stream rx' in (b ++ d, e, r)
  | REof :: _ => ([], EndEof, rx)
  | RErr e :: rx' => ([], EndErr e, rx')
  end.

(** All the data a peer will have sent before it closes: what any number of
    [recv] loops can read. *)
Fixpoint rx_data (rx : list recv_answer) : bytes :=
  match rx with
  | [] => []
  | RData b :: rx' => b ++ rx_data rx'
  | REof :: _ => []
  | RErr _ :: rx' => rx_data rx'
  end.

(** A script in which data is data: [recv] answers 0 only at the end. *)
Definition rx_wf (rx : list recv_answer) : Prop := Forall (fun a => a <> RData []) rx.

(** ** Sending *)

(** [SAccept n] accepts up to [n + 1] bytes: a stream [send] of a non-empty
    buffer never returns 0. *)
Inductive send_answer := SAccept (n : nat) | SErr (e : Z).

(** What the peer has been sent, and what the next calls will accept. *)
Record wire := mk_wire { tx : list send_answer; sent : bytes }.

(** [send(fd, data, size, flags)]: the accepted count, or the errno. *)
Definition send (data : bytes) (w : wire) : (Z + nat) * wire :=
  match tx w with
  | [] => (inr (length data), mk_wire [] (sent w ++ data))
  | SAccept n :: t =>
      let k := (S n `min` length data)%nat in
      (inr k, mk_wire t (sent w ++ take k data))
  | SErr e :: t => (inl e, mk_wire t (sent w))
  end.

(** ** Lemmas *)

(** What has arrived stays, whatever follows. *)
Lemma prefix_of_rx_data x rx more : x `prefix_of` rx_data rx -> x `prefix_of` rx_data (rx ++ more).
Proof.
  intros Hx. trans (rx_data rx); [done|]. clear Hx. induction rx as [|[b| |e] rx IH]; simpl.
  - apply prefix_nil.
  - by apply prefix_app.
  - done.
  - done.
Qed.

(** One call moves data from the script to the caller, whatever follows. *)
Lemma recv_rx_more max rx more :
  let '(a, rx') := recv max rx in
  rx_data (rx ++ more) = match a with RData b => b | _ => [] end ++ rx_data (rx' ++ more).
Proof.
  destruct rx as [|[[|c b]| |e] rx]; cbn [recv]; try done. destruct (_ <=? _)%nat; [done|].
  cbn [app rx_data]. by rewrite (assoc_L (++)), take_drop.
Qed.

(** One call splits the stream. *)
Lemma recv_data max rx b rx' :
  (0 < max)%nat -> recv max rx = (RData b, rx') ->
  b <> [] /\ (length b <= max)%nat /\ (rx_size rx' < rx_size rx)%nat /\
  rx_stream rx = let '(d, e, r) := rx_stream rx' in (b ++ d, e, r).
Proof.
  intros Hmax. destruct rx as [|[[|c b']| |e] rx0]; cbn [recv]; intros H; simplify_eq.
  destruct (length (c :: b') <=? max)%nat eqn:E; simplify_eq; hp_bool; simpl in *.
  - split_and!; [done|lia|lia|done].
  - destruct max as [|max]; [lia|]. simpl. split_and!; [done|..].
    + rewrite length_take. lia.
    + rewrite length_drop. lia.
    + destruct (drop max b') as [|c' d'] eqn:Ed.
      { apply (f_equal length) in Ed. rewrite length_drop in Ed. simpl in *. lia. }
      destruct (rx_stream rx0) as [[d e] r]. rewrite <- (take_drop max b') at 1.
      rewrite Ed. by rewrite <- app_assoc.
Qed.

Lemma recv_eof max rx rx' : recv max rx = (REof, rx') -> rx_stream rx = ([], EndEof, rx').
Proof.
  destruct rx as [|[[|c b']| |e] rx0]; cbn [recv]; intros H; simplify_eq; try done.
  by destruct (_ <=? _)%nat.
Qed.

Lemma recv_err max rx e rx' :
  recv max rx = (RErr e, rx') -> rx_stream rx = ([], EndErr e, rx').
Proof.
  destruct rx as [|[[|c b']| |e'] rx0]; cbn [recv]; intros H; simplify_eq; try done.
  by destruct (_ <=? _)%nat.
Qed.

(** One call takes its data off the script, and shortens it unless the script
    is exhausted or at its end. *)
Lemma recv_rx_data max rx a rx' :
  (0 < max)%nat -> recv max rx = (a, rx') ->
  rx_data rx = match a with RData b => b | _ => [] end ++ rx_data rx' /\
  (rx_size rx' < rx_size rx \/ a = REof \/ (rx = [] /\ rx' = [] /\ a = RErr EAGAIN))%nat /\
  (rx_wf rx -> rx_wf rx' /\ (a = REof -> rx_data rx = [])).
Proof.
  intros Hmax. unfold rx_wf. destruct rx as [|[[|c b']| |e] rx0]; cbn [recv]; intros H; simplify_eq; simpl.
  - split_and!; [done|by right; right|done].
  - split_and!; [done|by right; left|]. intros Hf. by apply Forall_cons in Hf as [? ?].
  - destruct (length (c :: b') <=? max)%nat eqn:E; simplify_eq; hp_bool; simpl in *.
    + split_and!; [done|left; lia|]. intros Hf. apply Forall_cons in Hf as [_ Hf]. done.
    + destruct max as [|max]; [lia|]. simpl in *. split_and!.
      * by rewrite (assoc_L (++)), take_drop.
      * left. rewrite length_drop. lia.
      * intros Hf. apply Forall_cons in Hf as [_ Hf]. split; [|done]. constructor; [|done].
        intros [= Hd]. apply (f_equal length) in Hd. rewrite length_drop in Hd. simpl in Hd. lia.
  - split_and!; [done|by right; left|done].
  - split_and!; [done|left; lia|]. intros Hf. by apply Forall_cons in Hf as [_ ?].
Qed.

(** [send] accepts a prefix, not empty when there is data. *)
Lemma send_accept data w n w' :
  send data w = (inr n, w') ->
  (n <= length data)%nat /\ (data <> [] -> 0 < n)%nat /\ sent w' = sent w ++ take n data /\
  tx w' `suffix_of` tx w.
Proof.
  unfold send. destruct (tx w) as [|[k|e] t] eqn:Et; intros H; simplify_eq; cbn [sent tx].
  - rewrite take_ge by lia. split_and!; try done. destruct data; [done|simpl; lia].
  - split_and!; [lia| |done|by apply suffix_cons_r]. destruct data; [done|cbn [length]; lia].
Qed.

Lemma send_err data w e w' :
  send data w = (inl e, w') ->
  sent w' = sent w /\ SErr e ∈ tx w /\ tx w' `suffix_of` tx w /\
  (length (tx w') < length (tx w))%nat.
Proof.
  unfold send. destruct (tx w) as [|[k|e'] t] eqn:Et; intros H; simplify_eq; simpl.
  split_and!; [done|by left|by apply suffix_cons_r|lia].
Qed.

#[export] Hint Resolve recv_eof recv_err : hp.
