(* ===== verification/HttpConnectionIo.v ===== *)
(** * HttpConnectionIo: src/src/net/http/http_connection_io.{h,cpp}

    The buffered, non-blocking ends of a client connection.  The theorems: one
    [read_from_socket] drains exactly what has arrived; whatever the partial
    sends, the bytes on the wire followed by the bytes still queued are the
    bytes queued, in order, and a flush stops only when drained, blocked or
    failed. *)

From S2P Require Import Prelude Sockets.

Local Open Scope Z_scope.

(* src/src/net/http/http_connection_io.cpp:7-7 kReadChunkSize *)
Definition kReadChunkSize : nat := Z.to_nat 8192.

(* src/src/net/http/http_connection_io.h:26-31 http_connection_io *)
Record http_connection_io := mk_io {
  io_fd : Z;                (** [sock_.get_fd()] *)
  read_buffer_ : bytes;
  write_buffer_ : bytes;
  write_offset_ : nat;
}.

(* src/src/net/http/http_connection_io.cpp:10-10 http_connection_io::http_connection_io *)
Definition io_new (fd : Z) : http_connection_io := mk_io fd [] [] 0.

(* src/src/net/http/http_connection_io.h:14-14 http_connection_io::valid *)
Definition io_valid (io : http_connection_io) : bool := 0 <=? io_fd io.

(** The receive loop; -1 with its errno is [inl].  Every call returns data from
    the script or ends the loop, so [rx_size] calls are enough (lemma
    [read_loop_stream]). *)
(* src/src/net/http/http_connection_io.cpp:18-37 http_connection_io::read_from_socket *)
Fixpoint read_loop (fuel : nat) (buf : bytes) (total : Z) (rx : list recv_answer)
  : (Z + Z) * bytes * list recv_answer :=
  match fuel with
  | O => (inr total, buf, rx)
  | S f =>
      match recv kReadChunkSize rx with
      | (RData b, rx') => read_loop f (buf ++ b) (total + Z.of_nat (length b)) rx'
      | (REof, rx') => (inr total, buf, rx')
      | (RErr e, rx') => if would_block e then (inr total, buf, rx') else (inl e, buf, rx')
      end
  end.

(* src/src/net/http/http_connection_io.cpp:12-38 http_connection_io::read_from_socket *)
Definition io_read_from_socket (io : http_connection_io) (rx : list recv_answer)
  : (Z + Z) * http_connection_io * list recv_answer :=
  if negb (io_valid io) then (inl EBADF, io, rx)
  else
    let '(r, buf, rx') := read_loop (S (rx_size rx)) (read_buffer_ io) 0 rx in
    (r, mk_io (io_fd io) buf (write_buffer_ io) (write_offset_ io), rx').

(* src/src/net/http/http_connection_io.cpp:40-45 http_connection_io::queue_write *)
Definition io_queue_write (io : http_connection_io) (data : bytes) : http_connection_io :=
  match data with
  | [] => io
  | _ => mk_io (io_fd io) (read_buffer_ io) (write_buffer_ io ++ data) (write_offset_ io)
  end.

(** The send loop on the offset; each successful call advances it. *)
(* src/src/net/http/http_connection_io.cpp:54-69 http_connection_io::flush_to_socket *)
Fixpoint flush_loop (fuel : nat) (buf : bytes) (off : nat) (total : Z) (w : wire)
  : (Z + Z) * nat * wire :=
  match fuel with
  | O => (inl 0, off, w)
  | S f =>
      if (off <? length buf)%nat then
        match send (drop off buf) w with
        | (inr n, w') =>
            if (0 <? n)%nat then flush_loop f buf (off + n) (total + Z.of_nat n) w'
            else (inl 0, off, w')
        | (inl e, w') => if would_block e then (inr total, off, w') else (inl e, off, w')
        end
      else (inr total, off, w)
  end.

(** The loop's early [return -1] leaves the buffer; [break] and the loop's end
    fall through to the release of a fully sent buffer. *)
(* src/src/net/http/http_connection_io.cpp:47-77 http_connection_io::flush_to_socket *)
Definition io_flush_to_socket (io : http_connection_io) (w : wire)
  : (Z + Z) * http_connection_io * wire :=
  if negb (io_valid io) then (inl EBADF, io, w)
  else
    let buf := write_buffer_ io in
    let '(r, off, w') :=
      flush_loop (S (length buf - write_offset_ io)) buf (write_offset_ io) 0 w in
    match r with
    | inl e => (inl e, mk_io (io_fd io) (read_buffer_ io) buf off, w')
    | inr total =>
        if (off =? length buf)%nat
        then (inr total, mk_io (io_fd io) (read_buffer_ io) [] 0, w')
        else (inr total, mk_io (io_fd io) (read_buffer_ io) buf off, w')
    end.

(* src/src/net/http/http_connection_io.cpp:79-91 http_connection_io::take_write_buffer *)
Definition io_take_write_buffer (io : http_connection_io) : bytes * http_connection_io :=
  if (write_offset_ io =? 0)%nat
  then (write_buffer_ io, mk_io (io_fd io) (read_buffer_ io) [] 0)
  else (drop (write_offset_ io) (write_buffer_ io), mk_io (io_fd io) (read_buffer_ io) [] 0).

(* src/src/net/http/http_connection_io.cpp:93-95 http_connection_io::has_pending_write *)
Definition io_has_pending_write (io : http_connection_io) : bool :=
  (write_offset_ io <? length (write_buffer_ io))%nat.

(* src/src/net/http/http_connection_io.cpp:97-108 http_connection_io::consume_read_bytes *)
Definition io_consume_read_bytes (io : http_connection_io) (n : nat) : http_connection_io :=
  if (n =? 0)%nat then io
  else if (length (read_buffer_ io) <=? n)%nat
       then mk_io (io_fd io) [] (write_buffer_ io) (write_offset_ io)
       else mk_io (io_fd io) (drop n (read_buffer_ io)) (write_buffer_ io) (write_offset_ io).

(** ** Specification *)

(** The bytes queued and not yet sent. *)
Definition pending (io : http_connection_io) : bytes := drop (write_offset_ io) (write_buffer_ io).

Definition io_ok (io : http_connection_io) : Prop :=
  (write_offset_ io <= length (write_buffer_ io))%nat.

Inductive io_op := IoQueue (data : bytes) | IoFlush.

Definition io_step (st : http_connection_io * wire) (o : io_op) : http_connection_io * wire :=
  let '(io, w) := st in
  match o with
  | IoQueue data => (io_queue_write io data, w)
  | IoFlush => let '(_, io', w') := io_flush_to_socket io w in (io', w')
  end.

Definition queued (ops : list io_op) : bytes :=
  mjoin ((fun o => match o with IoQueue d => d | IoFlush => [] end) <$> ops).

(** ** Lemmas *)

Lemma read_loop_stream fuel buf total rx :
  (rx_size rx < fuel)%nat ->
  read_loop fuel buf total rx =
    let '(d, e, rx') := rx_stream rx in
    let n := total + Z.of_nat (length d) in
    (match e with
     | EndEof => inr n
     | EndErr err => if would_block err then inr n else inl err
     end, buf ++ d, rx').
Proof.
  revert buf total rx. induction fuel as [|f IH]; intros buf total rx Hf; [lia|].
  cbn [read_loop]. destruct (recv kReadChunkSize rx) as [[b| |e] rx'] eqn:E.
  - apply recv_data in E as (_ & _ & Hlt & ->); [|unfold kReadChunkSize; lia].
    rewrite IH by lia. destruct (rx_stream rx') as [[d e] r].
    rewrite length_app, Nat2Z.inj_add, Z.add_assoc, <- app_assoc. done.
  - rewrite (recv_eof _ _ _ E). by rewrite Z.add_0_r, app_nil_r.
  - rewrite (recv_err _ _ _ _ E). rewrite Z.add_0_r, app_nil_r. by destruct (would_block e).
Qed.

Lemma has_pending_spec io : io_has_pending_write io = true <-> pending io <> [].
Proof.
  unfold io_has_pending_write, pending. rewrite Nat.ltb_lt. split.
  - intros Hlt E. apply (f_equal length) in E. rewrite length_drop in E. simpl in E. lia.
  - intros Hne. destruct (decide (write_offset_ io < length (write_buffer_ io))%nat); [done|].
    destruct Hne. apply drop_ge. lia.
Qed.

Lemma queue_write_pending io data :
  io_ok io -> io_ok (io_queue_write io data) /\
  pending (io_queue_write io data) = pending io ++ data.
Proof.
  unfold io_ok, pending. destruct data as [|c d]; simpl; [by rewrite app_nil_r|]. intros Hok.
  split; [rewrite length_app; lia|]. by rewrite drop_app_le.
Qed.

(** The loop moves a prefix of the unsent part to the wire, and stops with the
    buffer drained, at a full socket, or at an error of the socket. *)
Lemma flush_loop_spec fuel buf off total w r off' w' :
  (off <= length buf)%nat -> (length buf - off < fuel)%nat ->
  flush_loop fuel buf off total w = (r, off', w') ->
  (off <= off' <= length buf)%nat /\
  sent w' ++ drop off' buf = sent w ++ drop off buf /\
  match r with
  | inr n => n = total + Z.of_nat (off' - off) /\
             (off' = length buf \/ exists e, would_block e = true /\ SErr e ∈ tx w)
  | inl e => would_block e = false /\ SErr e ∈ tx w
  end.
Proof.
  revert off total w. induction fuel as [|f IH]; intros off total w Hoff Hf; [lia|].
  cbn [flush_loop]. destruct (off <? length buf)%nat eqn:El; hp_bool.
  - destruct (send (drop off buf) w) as [[e|n] w1] eqn:Es.
    + apply send_err in Es as (Hs & Hin & _). destruct (would_block e) eqn:Ee;
        intros ?; simplify_eq; rewrite Hs; (split_and!; [lia|lia|done|..]); [lia|right; eauto|done|done].
    + apply send_accept in Es as (Hn & Hpos & Hs & Hsuf). rewrite length_drop in Hn.
      assert (0 < n)%nat as Hn0.
      { apply Hpos. intros Hd%(f_equal length). rewrite length_drop in Hd. simpl in Hd. lia. }
      rewrite (proj2 (Nat.ltb_lt 0 n)) by done. intros Hl.
      destruct (IH (off + n)%nat (total + Z.of_nat n) w1 ltac:(lia) ltac:(lia) Hl) as (Ho & Hc & Hr).
      assert (forall e, SErr e ∈ tx w1 -> SErr e ∈ tx w) as Hin.
      { intros e He. destruct Hsuf as [k ->]. apply elem_of_app. by right. }
      split_and!; [lia|lia| |].
      * rewrite Hc, Hs, <- app_assoc. f_equal. rewrite <- drop_drop. apply take_drop.
      * destruct r as [e|m]; [naive_solver|]. destruct Hr as [-> Hr]. split; [lia|].
        destruct Hr as [?|(e & ? & ?)]; eauto.
  - intros ?; simplify_eq. split_and!; [lia|lia|done|lia|left; lia].
Qed.

Lemma flush_spec io w r io' w' :
  io_ok io -> io_flush_to_socket io w = (r, io', w') ->
  io_ok io' /\ io_fd io' = io_fd io /\ read_buffer_ io' = read_buffer_ io /\
  sent w' ++ pending io' = sent w ++ pending io /\
  match r with
  | inr n => n = Z.of_nat (length (pending io)) - Z.of_nat (length (pending io')) /\
             (pending io' = [] \/ exists e, would_block e = true /\ SErr e ∈ tx w)
  | inl e => e = EBADF /\ io_valid io = false \/ would_block e = false /\ SErr e ∈ tx w
  end.
Proof.
  intros Hok. unfold io_flush_to_socket, io_ok, pending in *.
  destruct (io_valid io) eqn:Ev; cbn [negb]; [|intros ?; simplify_eq; naive_solver].
  destruct (flush_loop _ _ _ _ w) as [[r0 off] w0] eqn:El.
  apply flush_loop_spec in El as (Ho & Hc & Hr); [|done|lia].
  destruct r0 as [e|n].
  - intros ?; simplify_eq; simpl. split_and!; auto. lia.
  - destruct Hr as [-> Hr]. destruct (off =? length (write_buffer_ io))%nat eqn:Eo; hp_bool;
      intros ?; simplify_eq; simpl; rewrite ?length_drop.
    + rewrite drop_all, app_nil_r in Hc. rewrite app_nil_r. split_and!; auto; simpl; lia.
    + split_and!; auto; try lia. destruct Hr as [?|?]; [lia|by right].
Qed.

(** C36: one read drains the socket.  Whatever the segmentation of the stream
    and the 8192-byte chunks of the loop, [read_from_socket] on a valid
    descriptor appends exactly the bytes that arrived before the stream would
    block, ended or failed; it returns their number, or -1 and the errno of a
    failure (the bytes read before a failure stay in the buffer). *)
Theorem read_drains_socket io rx :
  io_valid io = true ->
  let '(d, e, rx') := rx_stream rx in
  io_read_from_socket io rx =
    (match e with
     | EndErr err => if would_block err then inr (Z.of_nat (length d)) else inl err
     | EndEof => inr (Z.of_nat (length d))
     end,
     mk_io (io_fd io) (read_buffer_ io ++ d) (write_buffer_ io) (write_offset_ io), rx').
Proof.
  intros Hv. unfold io_read_from_socket. rewrite Hv. cbn [negb].
  rewrite read_loop_stream by lia. by destruct (rx_stream rx) as [[d e] rx'].
Qed.

Lemma read_drains_socket_witness :
  io_read_from_socket (mk_io 7 (bs "GET ") [] 0) [RData (bs "/ HT"); RData (bs "TP/1.1"); RErr EAGAIN; REof]
  = (inr 10, mk_io 7 (bs "GET / HTTP/1.1") [] 0, [REof]).
Proof.
  exact (read_drains_socket (mk_io 7 (bs "GET ") [] 0)
    [RData (bs "/ HT"); RData (bs "TP/1.1"); RErr EAGAIN; REof] eq_refl).
Defined.

(** C12: no byte is lost, repeated or reordered on the way out.  For every
    sequence of [queue_write] and [flush_to_socket] and every behaviour of the
    socket (partial sends, full buffers, errors), the bytes sent followed by
    the bytes still pending are the bytes that were there followed by those
    queued; the write offset stays inside the buffer; and [has_pending_write]
    tells whether anything is pending. *)
Theorem output_stream_in_order io w ops :
  io_ok io ->
  let '(io', w') := foldl io_step (io, w) ops in
  io_ok io' /\ sent w' ++ pending io' = sent w ++ pending io ++ queued ops /\
  (io_has_pending_write io' = true <-> pending io' <> []).
Proof.
  revert io w. induction ops as [|o ops IH]; intros io w Hok; cbn [foldl].
  - unfold queued. simpl. rewrite app_nil_r. split_and!; [done|done|apply has_pending_spec..].
  - destruct o as [data|]; cbn [io_step].
    + destruct (queue_write_pending io data Hok) as [Hok' Hp]. specialize (IH _ w Hok').
      destruct (foldl io_step _ ops) as [io' w']. destruct IH as (? & -> & ?).
      by rewrite Hp, <- !app_assoc.
    + destruct (io_flush_to_socket io w) as [[r io1] w1] eqn:Ef.
      destruct (flush_spec _ _ _ _ _ Hok Ef) as (Hok1 & _ & _ & Hc & _).
      specialize (IH io1 w1 Hok1). destruct (foldl io_step _ ops) as [io' w'].
      destruct IH as (? & -> & ?). rewrite !app_assoc, Hc. split_and!; [done| |done..].
      unfold queued. simpl. by rewrite <- !app_assoc.
Qed.

Lemma output_stream_in_order_witness :
  let '(io', w') := foldl io_step (io_new 7, mk_wire [SAccept 2; SErr EAGAIN] [])
    [IoQueue (bs "hello "); IoFlush; IoQueue (bs "world"); IoFlush] in
  sent w' ++ pending io' = bs "hello world".
Proof.
  pose proof (output_stream_in_order (io_new 7) (mk_wire [SAccept 2; SErr EAGAIN] [])
    [IoQueue (bs "hello "); IoFlush; IoQueue (bs "world"); IoFlush] (Nat.le_refl 0)) as H.
  destruct (foldl io_step _ _) as [io' w']. apply H.
Defined.
