(* ===== verification/HttpConn.v ===== *)
(** * HttpConn: src/src/net/http/http_conn.{h,cpp}

    A client connection: the buffered socket of [HttpConnectionIo] and the
    incremental parser of [HttpRequestParser], glued by [parse_offset_], the
    number of buffered bytes already handed to the parser.  The theorem carries
    the parser's own theorem to the socket: whatever the segmentation of the
    stream over readiness events, the request read is the message sent. *)

From S2P Require Import Prelude Sockets HttpConnectionIo Llhttp HeaderFields HttpRequestParser.

Local Open Scope Z_scope.

Section conn.
Context `{L : Llhttp}.

(* src/src/net/http/http_conn.h:44-47 http_conn *)
Record http_conn := mk_conn {
  io_ : http_connection_io;
  conn_parser_ : http_request_parser;
  parse_offset_ : nat;
}.

(* src/src/net/http/http_conn.cpp:4-4 http_conn::http_conn *)
Definition conn_new (fd : Z) : http_conn := mk_conn (io_new fd) parser_new 0.

Definition with_io (c : http_conn) (io : http_connection_io) : http_conn :=
  mk_conn io (conn_parser_ c) (parse_offset_ c).

(* src/src/net/http/http_conn.cpp:6-8 http_conn::read_from_socket *)
Definition conn_read_from_socket (c : http_conn) (rx : list recv_answer)
  : (Z + Z) * http_conn * list recv_answer :=
  let '(r, io, rx') := io_read_from_socket (io_ c) rx in (r, with_io c io, rx').

(* src/src/net/http/http_conn.cpp:10-10 http_conn::queue_write *)
Definition conn_queue_write (c : http_conn) (data : bytes) : http_conn :=
  with_io c (io_queue_write (io_ c) data).

(* src/src/net/http/http_conn.cpp:12-12 http_conn::has_pending_write *)
Definition conn_has_pending_write (c : http_conn) : bool := io_has_pending_write (io_ c).

(* src/src/net/http/http_conn.cpp:14-14 http_conn::flush_to_socket *)
Definition conn_flush_to_socket (c : http_conn) (w : wire) : (Z + Z) * http_conn * wire :=
  let '(r, io, w') := io_flush_to_socket (io_ c) w in (r, with_io c io, w').

(* src/src/net/http/http_conn.cpp:16-16 http_conn::take_write_buffer *)
Definition conn_take_write_buffer (c : http_conn) : bytes * http_conn :=
  let '(out, io) := io_take_write_buffer (io_ c) in (out, with_io c io).

(* src/src/net/http/http_conn.cpp:18-32 http_conn::parse_available_data *)
Definition parse_available_data (c : http_conn) : bool * http_conn :=
  let buf := read_buffer_ (io_ c) in
  if has_parse_error (conn_parser_ c) || (length buf <=? parse_offset_ c)%nat
  then (negb (has_parse_error (conn_parser_ c)), c)
  else
    let remain := drop (parse_offset_ c) buf in
    let '(ok, p) := parse (conn_parser_ c) remain in
    if negb ok then (false, mk_conn (io_ c) p (parse_offset_ c))
    else (true, mk_conn (io_ c) p (length buf)).

(* src/src/net/http/http_conn.cpp:34-41 http_conn::reset_for_next_message *)
Definition conn_reset_for_next_message (c : http_conn) : http_conn :=
  let io := if (0 <? parse_offset_ c)%nat
            then io_consume_read_bytes (io_ c) (parse_offset_ c) else io_ c in
  mk_conn io (reset_for_next_message (conn_parser_ c)) 0.

(** What the event loop does with a readable connection: read all, parse all. *)
Definition pump (c : http_conn) (rx : list recv_answer) : bool * http_conn :=
  let '(_, c, _) := conn_read_from_socket c rx in parse_available_data c.

Fixpoint pump_all (c : http_conn) (rxs : list (list recv_answer)) : bool * http_conn :=
  match rxs with
  | [] => (true, c)
  | rx :: rxs' => let '(ok, c1) := pump c rx in if ok then pump_all c1 rxs' else (false, c1)
  end.

(** Everything buffered has been parsed. *)
Definition conn_caught_up (c : http_conn) : Prop :=
  parse_offset_ c = length (read_buffer_ (io_ c)).

Definition segment (rx : list recv_answer) : bytes := (rx_stream rx).1.1.

(** ** Lemmas *)

Lemma pump_parse c rx :
  io_valid (io_ c) = true -> conn_caught_up c ->
  let '(ok, p) := parse (conn_parser_ c) (segment rx) in
  let '(ok', c') := pump c rx in
  ok' = ok /\ conn_parser_ c' = p /\ io_fd (io_ c') = io_fd (io_ c) /\
  read_buffer_ (io_ c') = read_buffer_ (io_ c) ++ segment rx /\
  (ok = true -> conn_caught_up c').
Proof.
  intros Hv Hcu. unfold pump, conn_read_from_socket, io_read_from_socket. rewrite Hv. cbn [negb].
  rewrite read_loop_stream by lia. unfold segment, conn_caught_up in *.
  destruct (rx_stream rx) as [[d e] rx']. cbn [fst]. unfold parse_available_data, with_io. simpl.
  unfold parse. destruct (has_parse_error (conn_parser_ c)) eqn:Ee; simpl; [done|].
  rewrite Hcu, length_app, drop_app_length.
  destruct d as [|b d]; simpl.
  - rewrite (proj2 (Nat.leb_le _ _)) by lia. simpl. rewrite app_nil_r. split_and!; done.
  - rewrite (proj2 (Nat.leb_gt _ _)) by lia. simpl.
    destruct (llhttp_execute _ _) as [[evs err] p]; simpl.
    destruct (err =? HPE_OK); simpl; [by rewrite length_app|].
    destruct (err =? HPE_PAUSED_UPGRADE); simpl; [by rewrite length_app|done].
Qed.

Lemma pump_all_parse_all c rxs :
  io_valid (io_ c) = true -> conn_caught_up c ->
  let '(ok, p) := parse_all (conn_parser_ c) (segment <$> rxs) in
  let '(ok', c') := pump_all c rxs in
  ok' = ok /\ conn_parser_ c' = p /\
  (ok = true -> conn_caught_up c' /\
     read_buffer_ (io_ c') = read_buffer_ (io_ c) ++ mjoin (segment <$> rxs)).
Proof.
  revert c. induction rxs as [|rx rxs IH]; intros c Hv Hcu; simpl.
  - by rewrite app_nil_r.
  - pose proof (pump_parse c rx Hv Hcu) as Hp.
    destruct (parse (conn_parser_ c) (segment rx)) as [ok p].
    destruct (pump c rx) as [ok' c1]. destruct Hp as (-> & <- & Hfd & Hb & Hc1).
    destruct ok; [|done]. specialize (IH c1).
    assert (io_valid (io_ c1) = true) as Hv1 by (by unfold io_valid in *; rewrite Hfd).
    specialize (IH Hv1 (Hc1 eq_refl)). destruct (parse_all _ _) as [ok2 p2].
    destruct (pump_all c1 rxs) as [ok' c']. destruct IH as (-> & -> & Hd).
    split_and!; [done|done|]. intros E. destruct (Hd E) as [? ->].
    by rewrite Hb, <- app_assoc.
Qed.

End conn.

Arguments http_conn : clear implicits.
Arguments http_conn {_}.

(** C11: from the wire to the request.  A connection that has parsed all it has
    read, fed by any number of readiness events with any segmentation of the
    stream, hands each byte to the parser exactly once: if those segments make
    llhttp deliver the callbacks of one message, every pump succeeds, the
    connection holds that message's request and has nothing left unparsed; and
    [reset_for_next_message] then leaves an empty read buffer and a parser
    ready for the next message. *)
Theorem request_read_from_socket `{Llhttp} c rxs m p :
  io_valid (io_ c) = true -> conn_caught_up c -> has_parse_error (conn_parser_ c) = false ->
  Forall line_ok (m_lines m) ->
  execute_all (parser_ (conn_parser_ c)) (segment <$> rxs) = Some (message_events m, p) ->
  let '(ok, c') := pump_all c rxs in
  ok = true /\ is_message_complete (conn_parser_ c') = true /\
  request_ (conn_parser_ c') = request_of m /\
  read_buffer_ (io_ c') = read_buffer_ (io_ c) ++ mjoin (segment <$> rxs) /\
  conn_caught_up c' /\
  let c'' := conn_reset_for_next_message c' in
  read_buffer_ (io_ c'') = [] /\ conn_caught_up c'' /\
  request_ (conn_parser_ c'') = request_default /\
  is_message_complete (conn_parser_ c'') = false.
Proof.
  intros Hv Hcu He Hls Hex. pose proof (pump_all_parse_all c rxs Hv Hcu) as Hp.
  rewrite (parse_all_execute _ _ _ p He Hex) in Hp.
  destruct (pump_all c rxs) as [ok c']. destruct Hp as (-> & Hpar & Hd).
  destruct (Hd eq_refl) as [Hcu' Hb]. destruct (message_fold (conn_parser_ c) m Hls) as (H1 & H2 & _).
  rewrite Hpar. unfold is_message_complete at 1, with_parser. cbn [parse_state_ request_].
  rewrite H1. assert (read_buffer_ (io_ (conn_reset_for_next_message c')) = []) as Hr.
  { unfold conn_reset_for_next_message. simpl. unfold conn_caught_up in Hcu'.
    destruct (0 <? parse_offset_ c')%nat eqn:E; hp_bool.
    - unfold io_consume_read_bytes. rewrite (proj2 (Nat.eqb_neq _ _)) by lia.
      by rewrite (proj2 (Nat.leb_le _ _)) by lia.
    - apply nil_length_inv. lia. }
  split_and!; try done. unfold conn_caught_up. by rewrite Hr.
Qed.

Lemma request_read_from_socket_witness :
  let '(ok, c') := @pump_all demo_llhttp (@conn_new demo_llhttp 7)
    [[RData (bs "GE"); RData (bs "T ")]; [RErr EAGAIN]; [RData (bs "rest")]] in
  ok = true /\ request_ (conn_parser_ c') = request_of demo_message.
Proof.
  pose proof (@request_read_from_socket demo_llhttp (@conn_new demo_llhttp 7)
    [[RData (bs "GE"); RData (bs "T ")]; [RErr EAGAIN]; [RData (bs "rest")]] demo_message []
    eq_refl eq_refl eq_refl) as Hr.
  destruct (pump_all _ _) as [ok c']. destruct Hr as (-> & _ & -> & _).
  - repeat constructor; discriminate.
  - reflexivity.
  - done.
Defined.
