(* ===== verification/Timer.v ===== *)
(** * Timer: [timer] of src/src/util/timer.h

    Lazy-deletion timers: a map from ids to entries and a heap of nodes in
    which removed or re-armed timers leave stale nodes behind.  The heap is
    [std::priority_queue], given by its contract ([PriorityQueue]; ties are
    broken in any way); time is a [Z] of nanoseconds read from a clock that the
    world [W] carries, one reading per [now()] call; callbacks are data ([CB])
    run by [invoke], which may itself use the timer.

    The theorems: every live timer keeps a heap node, whatever the order of
    operations and compactions, and the heap stays within a constant factor of
    the live timers; [tick] fires no timer early, leaves no overdue timer
    behind, and terminates when callbacks only remove timers; the poll timeout
    never sleeps past the next deadline. *)

From Stdlib Require Import Sorting.Sorted.
From S2P Require Import Prelude.

Local Open Scope Z_scope.

(* src/src/util/timer.h:100-106 timer::node *)
Record node := mk_node { n_id : Z; n_expires_at : Z; n_version : Z }.

#[export] Instance node_eq_dec : EqDecision node.
Proof. solve_decision. Defined.

(** [std::priority_queue<node, std::vector<node>, std::greater<node>>]: the top
    is a node of least [expires_at]. *)
Class PriorityQueue := {
  pq : Type;
  pq_elems : pq -> list node;
  pq_empty : pq;
  pq_push : node -> pq -> pq;
  pq_top : pq -> option node;
  pq_pop : pq -> pq;
  pq_empty_elems : pq_elems pq_empty = [];
  pq_push_elems n q : pq_elems (pq_push n q) ≡ₚ n :: pq_elems q;
  pq_top_None q : pq_top q = None -> pq_elems q = [];
  pq_top_Some q n : pq_top q = Some n ->
    pq_elems q ≡ₚ n :: pq_elems (pq_pop q) /\
    forall m, m ∈ pq_elems q -> n_expires_at n <= n_expires_at m;
}.

Section timer.
Context `{PriorityQueue} {CB W : Type}.
Context (now : W -> Z * W).

(* src/src/util/timer.h:108-112 timer::entry *)
Record entry := mk_entry { e_expires_at : Z; e_callback : option CB; e_version : Z }.

(* src/src/util/timer.h:152-153 timer *)
Record timer := mk_timer { heap_ : pq; entries_ : gmap Z entry }.

(* src/src/util/timer.h:16-16 timer::timer *)
Definition timer_new : timer := mk_timer pq_empty ∅.

(* src/src/util/timer.h:97-97 timer::kCompactMinHeapSize *)
Definition kCompactMinHeapSize : Z := 4096.
(* src/src/util/timer.h:98-98 timer::kCompactRatioThreshold *)
Definition kCompactRatioThreshold : Z := 4.

(** [std::chrono::milliseconds(ms)] in nanoseconds. *)
Definition milliseconds (ms : Z) : Z := ms * 1000000.

Definition heap_size (t : timer) : Z := Z.of_nat (length (pq_elems (heap_ t))).

(** The top's entry is live: same version and deadline. *)
(* src/src/util/timer.h:117-119 timer::discard_stale_top *)
Definition live (es : gmap Z entry) (n : node) : bool :=
  match es !! n_id n with
  | Some e => (e_version e =? n_version n) && (e_expires_at e =? n_expires_at n)
  | None => false
  end.

(** Every iteration pops a node: the heap's size is enough fuel. *)
(* src/src/util/timer.h:114-124 timer::discard_stale_top *)
Fixpoint discard_loop (fuel : nat) (t : timer) : timer :=
  match fuel with
  | O => t
  | S f =>
      match pq_top (heap_ t) with
      | None => t
      | Some top =>
          if live (entries_ t) top then t
          else discard_loop f (mk_timer (pq_pop (heap_ t)) (entries_ t))
      end
  end.

(* src/src/util/timer.h:114-124 timer::discard_stale_top *)
Definition discard_stale_top (t : timer) : timer :=
  discard_loop (length (pq_elems (heap_ t))) t.

(** The rebuilt heap; the order of the [unordered_map] does not matter, the
    laws of the queue only speak of its elements. *)
(* src/src/util/timer.h:145-148 timer::maybe_compact_heap *)
Definition rebuild (es : gmap Z entry) : pq :=
  foldr (fun kv q => pq_push (mk_node kv.1 (e_expires_at kv.2) (e_version kv.2)) q)
    pq_empty (map_to_list es).

(** Popping until empty is the empty queue. *)
(* src/src/util/timer.h:126-150 timer::maybe_compact_heap *)
Definition maybe_compact_heap (t : timer) : timer :=
  if heap_size t <? kCompactMinHeapSize then t
  else
    let live_count := Z.of_nat (size (entries_ t)) in
    if live_count =? 0 then mk_timer pq_empty (entries_ t)
    else if heap_size t <=? u64 (live_count * kCompactRatioThreshold) then t
    else mk_timer (rebuild (entries_ t)) (entries_ t).

(** A new entry is default-constructed first: its [expires_at] reads the clock
    once more and its version is 0. *)
(* src/src/util/timer.h:19-31 timer::add *)
Definition add (t : timer) (w : W) (id timeout_ms : Z) (callback : option CB) : timer * W :=
  if id <? 0 then (t, w)
  else
    let '(n, w) := now w in
    let expire := n + milliseconds timeout_ms in
    let '(version, w) := match entries_ t !! id with
                         | Some e => (u64 (e_version e + 1), w)
                         | None => (1, (now w).2)
                         end in
    (maybe_compact_heap
       (mk_timer (pq_push (mk_node id expire version) (heap_ t))
          (<[id := mk_entry expire callback version]> (entries_ t))), w).

(* src/src/util/timer.h:33-44 timer::adjust *)
Definition adjust (t : timer) (w : W) (id timeout_ms : Z) : timer * W :=
  match entries_ t !! id with
  | None => (t, w)
  | Some e =>
      let version := u64 (e_version e + 1) in
      let '(n, w) := now w in
      let expire := n + milliseconds timeout_ms in
      (maybe_compact_heap
         (mk_timer (pq_push (mk_node id expire version) (heap_ t))
            (<[id := mk_entry expire (e_callback e) version]> (entries_ t))), w)
  end.

(* src/src/util/timer.h:46-49 timer::remove *)
Definition remove (t : timer) (id : Z) : timer :=
  maybe_compact_heap (mk_timer (heap_ t) (delete id (entries_ t))).

(* src/src/util/timer.h:90-90 timer::contains *)
Definition contains (t : timer) (id : Z) : bool := bool_decide (is_Some (entries_ t !! id)).

(* src/src/util/timer.h:92-92 timer::empty *)
Definition empty (t : timer) : bool := bool_decide (entries_ t = ∅).

(* src/src/util/timer.h:94-94 timer::size *)
Definition timer_size (t : timer) : Z := Z.of_nat (size (entries_ t)).

(** A timer that fired: its id, its entry and the clock reading. *)
Record firing := mk_firing { f_id : Z; f_entry : entry; f_now : Z }.

(** Running a callback on the world and the timer itself. *)
Context (invoke : CB -> W -> timer -> W * timer).

(** The loop of [tick], with the list of the timers fired; [None] is an
    exhausted fuel (theorem [tick_correct] gives enough). *)
(* src/src/util/timer.h:51-76 timer::tick *)
Fixpoint tick_loop (fuel : nat) (w : W) (t : timer) : option (list firing * W * timer) :=
  match fuel with
  | O => None
  | S f =>
      let t := discard_stale_top t in
      match pq_top (heap_ t) with
      | None => Some ([], w, t)
      | Some current =>
          let '(n, w) := now w in
          if n <? n_expires_at current then Some ([], w, t)
          else
            match entries_ t !! n_id current with
            | None => tick_loop f w (mk_timer (pq_pop (heap_ t)) (entries_ t))
            | Some e =>
                let t := mk_timer (pq_pop (heap_ t)) (delete (n_id current) (entries_ t)) in
                let '(w, t) := match e_callback e with
                               | Some cb => invoke cb w t
                               | None => (w, t)
                               end in
                '(fs, w, t) ← tick_loop f w t;
                Some (mk_firing (n_id current) e n :: fs, w, t)
            end
      end
  end.

(* src/src/util/timer.h:51-76 timer::tick *)
Definition tick (w : W) (t : timer) : option (list firing * W * timer) :=
  tick_loop (S (length (pq_elems (heap_ t)))) w t.

(** [duration_cast] truncates towards zero; the cast to [int] is exact for
    timeouts that were given as an [int] of milliseconds. *)
(* src/src/util/timer.h:78-88 timer::get_next_timeout_ms *)
Definition get_next_timeout_ms (w : W) (t : timer) : option (Z * list firing * W * timer) :=
  '(fs, w, t) ← tick w t;
  let t := discard_stale_top t in
  match pq_top (heap_ t) with
  | None => Some (-1, fs, w, t)
  | Some top =>
      let '(n, w) := now w in
      let diff := (n_expires_at top - n) ÷ 1000000 in
      Some (if 0 <? diff then diff else 0, fs, w, t)
  end.

(** ** Invariant *)

(** Every live timer has its node in the heap. *)
Definition timer_ok (t : timer) : Prop :=
  forall id e, entries_ t !! id = Some e ->
    mk_node id (e_expires_at e) (e_version e) ∈ pq_elems (heap_ t).

(** The heap is small, or within a constant factor of the live timers. *)
Definition heap_bounded (t : timer) : Prop :=
  heap_size t <= kCompactMinHeapSize \/
  heap_size t <= kCompactRatioThreshold * timer_size t.

(** What the server's callbacks do: the callback of timer [id] touches no other
    timer, keeps the invariant and does not turn the clock back. *)
Definition own_timer_only (id : Z) (cb : CB) : Prop :=
  forall w t w' t', invoke cb w t = (w', t') ->
    (timer_ok t -> timer_ok t') /\ (entries_ t !! id = None -> entries_ t' = entries_ t) /\
    (timer_ok t -> length (pq_elems (heap_ t')) <= length (pq_elems (heap_ t)))%nat /\
    (now w).1 <= (now w').1.

Definition callbacks_own_only (t : timer) : Prop :=
  forall id e cb, entries_ t !! id = Some e -> e_callback e = Some cb -> own_timer_only id cb.

(** Successive readings of the clock do not decrease. *)
Definition steady : Prop := forall w, (now w).1 <= (now (now w).2).1.

(** ** Specification: a map of deadlines *)

Inductive timer_op :=
| TAdd (id timeout_ms : Z) (cb : option CB)
| TAdjust (id timeout_ms : Z)
| TRemove (id : Z).

Definition timer_step (st : timer * W) (o : timer_op) : timer * W :=
  let '(t, w) := st in
  match o with
  | TAdd id ms cb => add t w id ms cb
  | TAdjust id ms => adjust t w id ms
  | TRemove id => (remove t id, w)
  end.

Definition deadlines_step (st : gmap Z (Z * option CB) * W) (o : timer_op)
  : gmap Z (Z * option CB) * W :=
  let '(m, w) := st in
  match o with
  | TAdd id ms cb =>
      if id <? 0 then (m, w)
      else (<[id := ((now w).1 + milliseconds ms, cb)]> m,
            if decide (is_Some (m !! id)) then (now w).2 else (now (now w).2).2)
  | TAdjust id ms =>
      match m !! id with
      | None => (m, w)
      | Some (_, cb) => (<[id := ((now w).1 + milliseconds ms, cb)]> m, (now w).2)
      end
  | TRemove id => (delete id m, w)
  end.

Definition deadlines (t : timer) : gmap Z (Z * option CB) :=
  (fun e => (e_expires_at e, e_callback e)) <$> entries_ t.

(** ** Lemmas *)

Lemma rebuild_elems es n :
  n ∈ pq_elems (rebuild es) <->
  exists e, es !! n_id n = Some e /\ n = mk_node (n_id n) (e_expires_at e) (e_version e).
Proof.
  unfold rebuild. setoid_rewrite <- elem_of_map_to_list.
  induction (map_to_list es) as [|[k e] l IH]; simpl.
  - rewrite pq_empty_elems. split; [by intros ?%elem_of_nil|]. by intros (e & ?%elem_of_nil & _).
  - rewrite pq_push_elems, elem_of_cons, IH. split.
    + intros [->|(e' & Hin & Hn)]; [exists e; simpl; split; [left|done]|exists e'; split; [by right|done]].
    + intros (e' & [?|Hin]%elem_of_cons & Hn); simplify_eq; [by left|right; eauto].
Qed.

Lemma rebuild_length es : length (pq_elems (rebuild es)) = size es.
Proof.
  unfold rebuild. rewrite <- length_map_to_list.
  induction (map_to_list es) as [|kv l IH]; simpl; [by rewrite pq_empty_elems|].
  rewrite (Permutation_length (pq_push_elems _ _)). simpl. by rewrite IH.
Qed.

Lemma maybe_compact_entries t : entries_ (maybe_compact_heap t) = entries_ t.
Proof. unfold maybe_compact_heap. by repeat case_match. Qed.

Lemma maybe_compact_ok t : timer_ok t -> timer_ok (maybe_compact_heap t).
Proof.
  intros Hok. unfold maybe_compact_heap. case_match; [done|].
  case_match; [|case_match; [done|]]; intros id e He; simpl in *.
  - hp_bool. assert (size (entries_ t) = 0%nat) as Hs by lia.
    apply map_size_empty_inv in Hs. by rewrite Hs, lookup_empty in He.
  - apply rebuild_elems. simpl. eauto.
Qed.

Lemma maybe_compact_bounded t :
  timer_size t * kCompactRatioThreshold < 2 ^ 64 -> heap_bounded (maybe_compact_heap t).
Proof.
  intros Hsz. unfold heap_bounded, maybe_compact_heap, timer_size, kCompactRatioThreshold in *.
  destruct (heap_size t <? kCompactMinHeapSize) eqn:E1; hp_bool; [left; lia|].
  destruct (_ =? 0) eqn:E2; hp_bool.
  - left. unfold heap_size, kCompactMinHeapSize. simpl. rewrite pq_empty_elems. simpl. lia.
  - rewrite u64_small by lia.
    destruct (heap_size t <=? _) eqn:E3; hp_bool; right; [lia|].
    unfold heap_size; simpl. rewrite rebuild_length. lia.
Qed.

Lemma maybe_compact_length t :
  timer_ok t ->
  (length (pq_elems (heap_ (maybe_compact_heap t))) <= length (pq_elems (heap_ t)))%nat.
Proof.
  intros Hok. unfold maybe_compact_heap.
  destruct (heap_size t <? kCompactMinHeapSize) eqn:E1; [lia|].
  destruct (Z.of_nat (size (entries_ t)) =? 0); simpl; [rewrite pq_empty_elems; simpl; lia|].
  destruct (heap_size t <=? _) eqn:E3; simpl; [lia|]. hp_bool. rewrite rebuild_length.
  unfold heap_size, kCompactRatioThreshold in *.
  pose proof (submseteq_length ((fun kv => mk_node kv.1 (e_expires_at kv.2) (e_version kv.2)) <$>
    map_to_list (entries_ t)) (pq_elems (heap_ t))) as Hl.
  rewrite length_fmap, length_map_to_list in Hl. apply Hl. apply NoDup_submseteq.
  - apply NoDup_fmap_2_strong; [|apply NoDup_map_to_list].
    intros [k1 e1] [k2 e2] H1%elem_of_map_to_list H2%elem_of_map_to_list He. simplify_eq/=.
    congruence.
  - intros n ([k e] & -> & Hin%elem_of_map_to_list)%list_elem_of_fmap. by apply Hok.
Qed.

Lemma discard_loop_spec fuel t :
  timer_ok t -> (length (pq_elems (heap_ t)) <= fuel)%nat ->
  let t' := discard_loop fuel t in
  entries_ t' = entries_ t /\ timer_ok t' /\
  (length (pq_elems (heap_ t')) <= length (pq_elems (heap_ t)))%nat /\
  (forall top, pq_top (heap_ t') = Some top -> live (entries_ t) top = true).
Proof.
  revert t. induction fuel as [|f IH]; intros t Hok Hf; simpl.
  - split_and!; try done. intros top Htop. apply pq_top_Some in Htop as [Hp _].
    apply Permutation_length in Hp. simpl in Hp. lia.
  - destruct (pq_top (heap_ t)) as [top|] eqn:Et; [|split_and!; try done; by rewrite Et].
    destruct (live (entries_ t) top) eqn:El; [split_and!; try done; rewrite Et; by intros ? [= <-]|].
    apply pq_top_Some in Et as [Hp _]. pose proof (Permutation_length Hp) as Hlen. simpl in Hlen.
    destruct (IH (mk_timer (pq_pop (heap_ t)) (entries_ t))) as (I1 & I2 & I3 & I4).
    + intros id e He. simpl in *. apply Hok in He as Hin. rewrite Hp, elem_of_cons in Hin.
      destruct Hin as [<-|]; [|done]. unfold live in El. simpl in El. rewrite He in El.
      by rewrite !Z.eqb_refl in El.
    + simpl. lia.
    + simpl in *. split_and!; try done. lia.
Qed.

Lemma live_entry es n :
  live es n = true -> exists e, es !! n_id n = Some e /\ e_expires_at e = n_expires_at n.
Proof.
  unfold live. destruct (es !! n_id n) as [e|]; [|done]. intros. hp_bool. eauto.
Qed.

(** The top of a heap of live timers bounds every deadline. *)
Lemma top_least t top id e :
  timer_ok t -> pq_top (heap_ t) = Some top -> entries_ t !! id = Some e ->
  n_expires_at top <= e_expires_at e.
Proof.
  intros Hok Ht He. apply pq_top_Some in Ht as [_ Hmin]. apply (Hmin _ (Hok _ _ He)).
Qed.

Lemma no_top_no_entries t : timer_ok t -> pq_top (heap_ t) = None -> entries_ t = ∅.
Proof.
  intros Hok Ht. apply pq_top_None in Ht. apply map_empty. intros id.
  destruct (entries_ t !! id) as [e|] eqn:He; [|done]. apply Hok in He. rewrite Ht in He.
  by apply elem_of_nil in He.
Qed.

(** Erasing the top's entry and popping it keeps the invariant. *)
Lemma pop_fired_ok t top :
  timer_ok t -> pq_top (heap_ t) = Some top ->
  let t' := mk_timer (pq_pop (heap_ t)) (delete (n_id top) (entries_ t)) in
  timer_ok t' /\ length (pq_elems (heap_ t)) = S (length (pq_elems (heap_ t'))).
Proof.
  intros Hok Ht. apply pq_top_Some in Ht as [Hp _]. split; [|by apply Permutation_length in Hp].
  intros id e He. simpl in *. apply lookup_delete_Some in He as [Hne He]. apply Hok in He.
  rewrite Hp, elem_of_cons in He. by destruct He as [<-|].
Qed.

(** What a run of the loop has done. *)
Definition tick_post (w : W) (t : timer) (fs : list firing) (t' : timer) : Prop :=
  timer_ok t' /\
  (length (pq_elems (heap_ t')) <= length (pq_elems (heap_ t)))%nat /\
  (forall f, f ∈ fs -> entries_ t !! f_id f = Some (f_entry f) /\
                       e_expires_at (f_entry f) <= f_now f) /\
  NoDup (f_id <$> fs) /\
  (forall id, entries_ t' !! id = if decide (id ∈ f_id <$> fs) then None else entries_ t !! id) /\
  (forall id e, entries_ t' !! id = Some e -> (now w).1 < e_expires_at e).

(** The run after one firing, carried back over it. *)
Lemma tick_post_fire w w2 t t3 fs t' id e n :
  entries_ t !! id = Some e -> entries_ t3 = delete id (entries_ t) -> e_expires_at e <= n ->
  (now w).1 <= (now w2).1 ->
  (length (pq_elems (heap_ t3)) <= length (pq_elems (heap_ t)))%nat ->
  tick_post w2 t3 fs t' -> tick_post w t (mk_firing id e n :: fs) t'.
Proof.
  intros He H3 Hn Hw Hl (P1 & P2 & P3 & P4 & P5 & P6). split_and!; [done|lia| | | |].
  - intros f [->|Hf]%elem_of_cons; [done|]. apply P3 in Hf as [Hf ?]. split; [|done].
    rewrite H3, lookup_delete_Some in Hf. apply Hf.
  - simpl. apply NoDup_cons. split; [|done]. intros (f & Hid & Hf)%list_elem_of_fmap.
    apply P3 in Hf as [Hf _]. rewrite H3, <- Hid, lookup_delete_eq in Hf. done.
  - intros k. rewrite P5, H3. simpl. destruct (decide (k = id)) as [->|Hk].
    + rewrite lookup_delete_eq, (decide_True (P := id ∈ _ :: _)) by left. by case_decide.
    + rewrite lookup_delete_ne by done. repeat case_decide; set_solver.
  - intros k e' Hk. apply P6 in Hk. lia.
Qed.

Lemma tick_loop_correct fuel w t :
  steady -> timer_ok t -> callbacks_own_only t -> (length (pq_elems (heap_ t)) < fuel)%nat ->
  exists fs w' t', tick_loop fuel w t = Some (fs, w', t') /\ tick_post w t fs t'.
Proof.
  intros Hst. revert w t. induction fuel as [|f IH]; intros w t Hok Hcb Hf; [lia|]. cbn [tick_loop].
  destruct (discard_loop_spec (length (pq_elems (heap_ t))) t Hok (Nat.le_refl _))
    as (D1 & D2 & D3 & D4). fold (discard_stale_top t) in *. set (t1 := discard_stale_top t) in *.
  assert ((forall id e, entries_ t !! id = Some e -> (now w).1 < e_expires_at e) ->
          tick_post w t [] t1) as Hstop.
  { intros Hlate. split_and!; [done|done|by intros ? ?%elem_of_nil|apply NoDup_nil_2| |].
    - intros id. rewrite decide_False by (by intros ?%elem_of_nil). by rewrite D1.
    - rewrite D1. done. }
  destruct (pq_top (heap_ t1)) as [top|] eqn:Et.
  2:{ exists [], w, t1. split; [done|]. apply Hstop. intros id e He.
      rewrite <- D1, (no_top_no_entries t1 D2 Et), lookup_empty in He. done. }
  destruct (now w) as [n w1] eqn:En. cbn [fst] in Hstop.
  destruct (n <? n_expires_at top) eqn:Elt; hp_bool.
  - exists [], w1, t1. split; [done|]. apply Hstop.
    intros id e He. rewrite <- D1 in He. pose proof (top_least t1 top id e D2 Et He). lia.
  - destruct (live_entry _ _ (D4 _ eq_refl)) as (e & He & Hexp). rewrite D1, He.
    destruct (pop_fired_ok t1 top D2 Et) as [Hok2 Hlen]. rewrite D1 in *. cbn zeta in *.
    set (t2 := mk_timer _ _) in *.
    assert (exists w2 t3, match e_callback e with Some cb => invoke cb w1 t2 | None => (w1, t2) end
              = (w2, t3) /\ timer_ok t3 /\ entries_ t3 = delete (n_id top) (entries_ t) /\
              (length (pq_elems (heap_ t3)) <= length (pq_elems (heap_ t2)))%nat /\
              n <= (now w2).1) as (w2 & t3 & -> & Hok3 & E3 & L3 & M3).
    { pose proof (Hst w) as Hm. rewrite En in Hm. simpl in Hm.
      destruct (e_callback e) as [cb|] eqn:Ecb; [|exists w1, t2; done].
      destruct (invoke cb w1 t2) as [w2 t3] eqn:Ei.
      destruct (Hcb _ _ _ He Ecb _ _ _ _ Ei) as (C1 & C2 & C3 & C4).
      exists w2, t3. split_and!; [done|auto| |auto|lia].
      apply C2. unfold t2. simpl. apply lookup_delete_eq. }
    destruct (IH w2 t3 Hok3) as (fs & w' & t' & -> & Hpost).
    { intros id e' cb Hid. rewrite E3, lookup_delete_Some in Hid. destruct Hid as [_ Hid]. by apply (Hcb id e' cb). }
    { lia. }
    eexists _, w', t'. split; [done|]. eapply tick_post_fire; [done|done|lia| |lia|done].
    by rewrite En.
Qed.

(** An invariant of the world and the live timers, kept by a clock reading and by
    each firing, is kept by [tick]. *)
Lemma tick_loop_invariant (I : W -> gmap Z entry -> Prop) fuel w t fs w' t' :
  (forall w es, I w es -> I (now w).2 es) ->
  (forall w t id e, I w (entries_ t) -> entries_ t !! id = Some e ->
     forall q, let t2 := mk_timer q (delete id (entries_ t)) in
     let '(w', t') := match e_callback e with Some cb => invoke cb w t2 | None => (w, t2) end in
     I w' (entries_ t')) ->
  I w (entries_ t) -> tick_loop fuel w t = Some (fs, w', t') -> I w' (entries_ t').
Proof.
  intros Hnow Hfire. revert w t fs. induction fuel as [|f IH]; intros w t fs Hi Ht; [done|].
  cbn [tick_loop] in Ht. assert (entries_ (discard_stale_top t) = entries_ t) as Hd.
  { unfold discard_stale_top. generalize (length (pq_elems (heap_ t))) as k. intros k. clear.
    revert t. induction k as [|k IH]; intros t; simpl; [done|].
    destruct (pq_top (heap_ t)); [|done]. destruct (live _ _); [done|]. by rewrite IH. }
  set (t1 := discard_stale_top t) in *. rewrite <- Hd in Hi.
  destruct (pq_top (heap_ t1)) as [top|]; [|by simplify_eq].
  pose proof (Hnow w (entries_ t1) Hi) as Hi1. destruct (now w) as [n w1]. simpl in Hi1.
  destruct (n <? n_expires_at top); [by simplify_eq|].
  destruct (entries_ t1 !! n_id top) as [e|] eqn:He.
  - specialize (Hfire w1 t1 _ _ Hi1 He (pq_pop (heap_ t1))). cbn zeta in Hfire.
    destruct (match e_callback e with Some _ => _ | None => _ end) as [w2 t2].
    destruct (tick_loop f w2 t2) as [[[fs' w3] t3]|] eqn:E; simplify_eq/=. by apply (IH w2 t2 fs').
  - by eapply IH in Ht.
Qed.

(** A measure of the world above every clock reading and never decreasing is,
    after [tick], above the readings the firings were judged by. *)
Lemma tick_loop_readings (m : W -> Z) fuel w t fs w' t' :
  (forall w, (now w).1 <= m (now w).2) -> (forall w, m w <= m (now w).2) ->
  (forall cb w t, m w <= m (invoke cb w t).1) ->
  tick_loop fuel w t = Some (fs, w', t') -> m w <= m w' /\ Forall (fun f => f_now f <= m w') fs.
Proof.
  intros Hr Hn Hi. revert w t fs. induction fuel as [|f IH]; intros w t fs Ht; [done|].
  cbn [tick_loop] in Ht. set (t1 := discard_stale_top t) in *. specialize (Hr w). specialize (Hn w).
  destruct (pq_top (heap_ t1)) as [top|]; [|simplify_eq; split; [lia|constructor]].
  destruct (now w) as [n w1]. simpl in Hr, Hn.
  destruct (n <? n_expires_at top); [simplify_eq; split; [lia|constructor]|].
  destruct (entries_ t1 !! n_id top) as [e|].
  - set (t2 := mk_timer _ _) in *.
    assert (m w1 <= m (match e_callback e with Some cb => invoke cb w1 t2 | None => (w1, t2) end).1) as Hle
      by (destruct (e_callback e); simpl; [apply Hi|lia]).
    destruct (match e_callback e with Some _ => _ | None => _ end) as [w2 t3]. simpl in Hle.
    destruct (tick_loop f w2 t3) as [[[fs' w3] t4]|] eqn:E; simplify_eq/=.
    apply IH in E as [E1 E2]. split; [lia|]. constructor; [simpl; lia|done].
  - apply IH in Ht as [E1 E2]. split; [lia|done].
Qed.

(** Arming a timer: the new node joins the heap with its entry. *)
Lemma arm_ok t id e :
  timer_ok t ->
  let t' := maybe_compact_heap
    (mk_timer (pq_push (mk_node id (e_expires_at e) (e_version e)) (heap_ t))
       (<[id := e]> (entries_ t))) in
  timer_ok t' /\ deadlines t' = <[id := (e_expires_at e, e_callback e)]> (deadlines t) /\
  entries_ t' = <[id := e]> (entries_ t).
Proof.
  intros Hok t'. split; [|split; [|apply maybe_compact_entries]].
  - apply maybe_compact_ok. intros k e' Hk. simpl in *. rewrite pq_push_elems, elem_of_cons.
    apply lookup_insert_Some in Hk as [[<- <-]|[_ Hk]]; [by left|right; by apply Hok].
  - unfold deadlines, t'. rewrite maybe_compact_entries. simpl. by rewrite fmap_insert.
Qed.

Lemma remove_ok t id :
  timer_ok t ->
  timer_ok (remove t id) /\ entries_ (remove t id) = delete id (entries_ t) /\
  (length (pq_elems (heap_ (remove t id))) <= length (pq_elems (heap_ t)))%nat.
Proof.
  intros Hok. assert (timer_ok (mk_timer (heap_ t) (delete id (entries_ t)))) as Hd.
  { intros k e Hk. simpl in *. apply lookup_delete_Some in Hk as [_ Hk]. by apply Hok. }
  split_and!; [by apply maybe_compact_ok|apply maybe_compact_entries|by apply (maybe_compact_length _ Hd)].
Qed.

Lemma timer_step_ok t w o :
  timer_ok t -> timer_size t < 2 ^ 61 -> heap_bounded t ->
  let '(t', w') := timer_step (t, w) o in
  timer_ok t' /\ deadlines_step (deadlines t, w) o = (deadlines t', w') /\
  timer_size t' <= timer_size t + 1 /\ heap_bounded t'.
Proof.
  intros Hok Hsz Hb. unfold timer_size in *. destruct o as [id ms cb|id ms|id]; simpl.
  - unfold add. destruct (id <? 0); [split_and!; [done|done|lia|done]|].
    destruct (now w) as [n w']. cbn [fst snd].
    set (vw := match entries_ t !! id with Some _ => _ | None => _ end).
    assert ((if decide (is_Some (deadlines t !! id)) then w' else (now w').2) = vw.2) as ->.
    { unfold vw, deadlines. rewrite lookup_fmap. by destruct (entries_ t !! id). }
    destruct vw as [ver w2]. cbn [snd].
    destruct (arm_ok t id (mk_entry (n + milliseconds ms) cb ver) Hok) as (A1 & A2 & A3).
    simpl in *. rewrite A2, A3. pose proof (map_size_insert_le (entries_ t) id
      (mk_entry (n + milliseconds ms) cb ver)). split_and!; [done|done|lia|].
    apply maybe_compact_bounded. unfold timer_size, kCompactRatioThreshold. simpl. lia.
  - unfold adjust, deadlines at 1. rewrite lookup_fmap.
    destruct (entries_ t !! id) as [e|] eqn:He; simpl; [|split_and!; [done|done|lia|done]].
    destruct (now w) as [n w'].
    destruct (arm_ok t id (mk_entry (n + milliseconds ms) (e_callback e) (u64 (e_version e + 1))) Hok)
      as (A1 & A2 & A3).
    simpl in *. rewrite A2, A3. pose proof (map_size_insert_le (entries_ t) id
      (mk_entry (n + milliseconds ms) (e_callback e) (u64 (e_version e + 1)))).
    split_and!; [done|done|lia|].
    apply maybe_compact_bounded. unfold timer_size, kCompactRatioThreshold. simpl. lia.
  - destruct (remove_ok t id Hok) as (R1 & R2 & _). unfold deadlines. rewrite R2.
    pose proof (map_size_delete_le (entries_ t) id). split_and!; [done|by rewrite fmap_delete|lia|].
    + apply maybe_compact_bounded. unfold timer_size, kCompactRatioThreshold. simpl. lia.
Qed.

Lemma timer_new_ok : timer_ok timer_new /\ heap_bounded timer_new /\ timer_size timer_new = 0.
Proof.
  split_and!; [|left|done].
  - intros id e He. simpl in He. by rewrite lookup_empty in He.
  - unfold heap_size, kCompactMinHeapSize. simpl. rewrite pq_empty_elems. simpl. lia.
Qed.

Lemma timer_run_ok ops t w :
  timer_ok t -> timer_size t + Z.of_nat (length ops) < 2 ^ 61 -> heap_bounded t ->
  let '(t', w') := foldl timer_step (t, w) ops in
  timer_ok t' /\ foldl deadlines_step (deadlines t, w) ops = (deadlines t', w') /\ heap_bounded t'.
Proof.
  revert t w. induction ops as [|o ops IH]; intros t w Hok Hsz Hb; [done|]. simpl in Hsz.
  cbn [foldl]. pose proof (timer_step_ok t w o Hok ltac:(unfold timer_size in *; lia) Hb) as Hs.
  destruct (timer_step (t, w) o) as [t1 w1]. destruct Hs as (Hok1 & -> & Hsz1 & Hb1).
  apply IH; [done|lia|done].
Qed.

End timer.

Arguments entry : clear implicits.
Arguments timer : clear implicits.
Arguments timer {_} _.

(** A concrete queue: an insertion-sorted list. *)
Fixpoint sorted_insert (n : node) (l : list node) : list node :=
  match l with
  | [] => [n]
  | m :: l' => if n_expires_at n <=? n_expires_at m then n :: l else m :: sorted_insert n l'
  end.

Definition sorted_nodes (l : list node) : Prop :=
  StronglySorted (fun a b => n_expires_at a <= n_expires_at b) l.

Lemma sorted_insert_perm n l : sorted_insert n l ≡ₚ n :: l.
Proof.
  induction l as [|m l IH]; simpl; [done|]. case_match; [done|]. rewrite IH. apply Permutation_swap.
Qed.

Lemma sorted_insert_sorted n l : sorted_nodes l -> sorted_nodes (sorted_insert n l).
Proof.
  induction 1 as [|m l Hs IH Hm]; simpl; [repeat constructor|].
  destruct (_ <=? _) eqn:E; hp_bool.
  - constructor; [by constructor|]. constructor; [done|]. eapply Forall_impl; [exact Hm|]. simpl; lia.
  - constructor; [done|]. rewrite sorted_insert_perm. constructor; [lia|done].
Qed.

#[export] Program Instance sorted_queue : PriorityQueue := {|
  pq := { l : list node | sorted_nodes l };
  pq_elems q := proj1_sig q;
  pq_empty := exist _ [] (SSorted_nil _);
  pq_push n q := exist _ (sorted_insert n (proj1_sig q)) (sorted_insert_sorted n _ (proj2_sig q));
  pq_top q := head (proj1_sig q);
  pq_pop q := exist _ (tail (proj1_sig q)) _;
|}.
Next Obligation. intros [[|m l] Hs]; simpl; [constructor|by inversion Hs]. Qed.
Next Obligation. done. Qed.
Next Obligation. intros n [l Hs]. apply sorted_insert_perm. Qed.
Next Obligation. by intros [[|m l] Hs]. Qed.
Next Obligation.
  intros [[|m l] Hs] n; simpl; [done|]. intros [= <-]. split; [done|].
  apply StronglySorted_inv in Hs as [_ Hm]. intros x [->|Hx]%elem_of_cons; [lia|].
  by apply (proj1 (Forall_forall _ _) Hm).
Qed.

(** C14: the timer is a map of deadlines.  For every sequence of add, adjust
    and remove (fewer than 2^61) the live timers are exactly those of a plain
    map from ids to deadline and callback; every live timer keeps its node in
    the heap through stale nodes, version wrap-around and compaction; and the
    heap never outgrows max(4096, 4 * live timers). *)
Theorem timer_refines_deadlines `{PriorityQueue} {CB W} (now : W -> Z * W)
    (ops : list (@timer_op CB)) (w : W) :
  Z.of_nat (length ops) < 2 ^ 61 ->
  let '(t, w') := foldl (timer_step now) (timer_new, w) ops in
  foldl (deadlines_step now) (∅, w) ops = (deadlines t, w') /\
  timer_ok t /\ heap_bounded t /\ (forall id, contains t id = true <-> is_Some (deadlines t !! id)).
Proof.
  intros Hlen. pose proof (timer_run_ok now ops timer_new w) as Hr.
  destruct (foldl (timer_step now) (timer_new, w) ops) as [t w'].
  destruct Hr as (H1 & H2 & H3).
  - apply timer_new_ok.
  - rewrite (proj2 (proj2 timer_new_ok)). lia.
  - apply timer_new_ok.
  - unfold deadlines in H2 at 1. simpl in H2. rewrite fmap_empty in H2. split_and!; try done.
    intros id. unfold contains, deadlines. rewrite bool_decide_eq_true, lookup_fmap.
    by rewrite fmap_is_Some.
Qed.

(** The clock of the witnesses advances one millisecond per reading. *)
Definition demo_now (w : Z) : Z * Z := (w, w + 1000000).

Lemma timer_refines_deadlines_witness :
  let '(t, _) := foldl (timer_step demo_now) (timer_new, 0)
    [TAdd 5 10 (Some 1%nat); TAdd 6 3 None; TAdjust 5 20; TRemove 6; TAdd (-1) 1 None] in
  contains t 5 = true /\ contains t 6 = false.
Proof.
  pose proof (timer_refines_deadlines demo_now
    [TAdd 5 10 (Some 1%nat); TAdd 6 3 None; TAdjust 5 20; TRemove 6; TAdd (-1) 1 None] 0 ltac:(simpl; lia))
    as Hr.
  destruct (foldl (timer_step demo_now) _ _) as [t w'] eqn:E. destruct Hr as (Hd & _ & _ & Hc).
  apply (f_equal fst) in Hd. simpl in Hd. split.
  - apply Hc. rewrite <- Hd. vm_compute. eauto.
  - apply not_true_iff_false. rewrite Hc, <- Hd. vm_compute. by intros [? ?].
Defined.

(** C13: [tick] fires exactly the due timers.  With a steady clock and
    callbacks that touch no other timer, [tick] terminates; every timer it
    fires was live and its deadline had passed at the clock reading it was
    judged by, none fires twice; every other timer stays as it was; and no
    timer that was due when [tick] began is left. *)
Theorem tick_correct `{PriorityQueue} {CB W} (now : W -> Z * W)
    (invoke : CB -> W -> timer CB -> W * timer CB) w t :
  steady now -> timer_ok t -> callbacks_own_only now invoke t ->
  exists fs w' t', tick now invoke w t = Some (fs, w', t') /\ timer_ok t' /\
    (forall f, f ∈ fs -> entries_ t !! f_id f = Some (f_entry f) /\
                         e_expires_at (f_entry f) <= f_now f) /\
    NoDup (f_id <$> fs) /\
    (forall id, entries_ t' !! id = if decide (id ∈ f_id <$> fs) then None else entries_ t !! id) /\
    (forall id e, entries_ t !! id = Some e -> e_expires_at e <= (now w).1 -> id ∈ f_id <$> fs).
Proof.
  intros Hst Hok Hcb. unfold tick.
  destruct (tick_loop_correct now invoke _ w t Hst Hok Hcb (Nat.lt_succ_diag_r _))
    as (fs & w' & t' & -> & P1 & _ & P3 & P4 & P5 & P6).
  exists fs, w', t'. split_and!; try done. intros id e He Hdue.
  destruct (decide (id ∈ f_id <$> fs)) as [|Hn]; [done|].
  assert (entries_ t' !! id = Some e) as He' by (by rewrite P5, decide_False).
  apply P6 in He'. lia.
Qed.

(** Callbacks that close connection [id], as far as the timer is concerned. *)
Definition demo_invoke (id : Z) (w : Z) (t : timer Z) : Z * timer Z := (w, remove t id).

Definition demo_timer : timer Z :=
  (foldl (timer_step demo_now) (timer_new, 0)
     [TAdd 5 10 (Some 5); TAdd 6 300 None; TAdd 7 1 (Some 7); TAdjust 5 20]).1.

Lemma demo_timer_ok : timer_ok demo_timer.
Proof.
  pose proof (timer_run_ok demo_now
    [TAdd 5 10 (Some 5); TAdd 6 300 None; TAdd 7 1 (Some 7); TAdjust 5 20] timer_new 0) as Hr.
  unfold demo_timer. destruct (foldl _ _ _) as [t w']. apply Hr.
  - apply timer_new_ok.
  - rewrite (proj2 (proj2 timer_new_ok)). simpl. lia.
  - apply timer_new_ok.
Qed.

Lemma demo_callbacks : callbacks_own_only demo_now demo_invoke demo_timer.
Proof.
  intros id e cb He Hcb.
  assert (map_Forall (fun id e => e_callback e = None \/ e_callback e = Some id) (entries_ demo_timer))
    as Hall by (apply (bool_decide_unpack _); vm_compute; exact I).
  destruct (Hall id e He) as [?|?]; simplify_eq. intros w t w' t' [= <- <-].
  split_and!; [apply remove_ok| |apply remove_ok|lia].
  intros Hn. unfold remove. rewrite maybe_compact_entries. by apply delete_id.
Qed.

Lemma demo_steady : steady demo_now.
Proof. intros w. simpl. lia. Qed.

Lemma tick_correct_witness :
  exists fs w' t', tick demo_now demo_invoke 30000000 demo_timer = Some (fs, w', t') /\
    f_id <$> fs = [7; 5] /\ contains t' 6 = true /\ contains t' 5 = false.
Proof.
  destruct (tick_correct demo_now demo_invoke 30000000 demo_timer demo_steady demo_timer_ok
    demo_callbacks) as (fs & w' & t' & E & _ & _ & _ & He & _).
  assert (f_id <$> fs = [7; 5]) as Hfs.
  { apply (f_equal (fmap (fun x : list (firing) * Z * timer Z => f_id <$> x.1.1))) in E.
    vm_compute in E. by injection E. }
  exists fs, w', t'. split_and!; [exact E|exact Hfs| |].
  - apply bool_decide_eq_true. rewrite He, Hfs. vm_compute. eauto.
  - apply bool_decide_eq_false. rewrite He, Hfs. vm_compute. by intros [? ?].
Defined.

(** C39: the event loop sleeps long enough and not too long.
    [get_next_timeout_ms] answers -1 exactly when no timer is live after the
    tick; otherwise it is the time from its clock reading to the earliest live
    deadline, in whole milliseconds rounded down, and 0 when that has passed. *)
Theorem next_timeout_earliest `{PriorityQueue} {CB W} (now : W -> Z * W)
    (invoke : CB -> W -> timer CB -> W * timer CB) w t :
  steady now -> timer_ok t -> callbacks_own_only now invoke t ->
  exists r fs w' t', get_next_timeout_ms now invoke w t = Some (r, fs, w', t') /\ timer_ok t' /\
    (r = -1 <-> entries_ t' = ∅) /\
    (entries_ t' <> ∅ ->
     exists w2 id e, now w2 = ((now w2).1, w') /\ entries_ t' !! id = Some e /\
       (forall id' e', entries_ t' !! id' = Some e' -> e_expires_at e <= e_expires_at e') /\
       r = Z.max 0 ((e_expires_at e - (now w2).1) / 1000000)).
Proof.
  intros Hst Hok Hcb. unfold get_next_timeout_ms, tick.
  destruct (tick_loop_correct now invoke _ w t Hst Hok Hcb (Nat.lt_succ_diag_r _))
    as (fs & w' & t' & -> & P1 & _). simpl.
  destruct (discard_loop_spec (length (pq_elems (heap_ t'))) t' P1 (Nat.le_refl _))
    as (D1 & D2 & _ & D4). fold (discard_stale_top t') in *.
  destruct (pq_top (heap_ (discard_stale_top t'))) as [top|] eqn:Et.
  - destruct (live_entry _ _ (D4 _ eq_refl)) as (e & He & Hexp). rewrite <- D1 in He.
    destruct (now w') as [n w3] eqn:En. eexists _, fs, w3, _. split; [done|].
    assert ((if 0 <? (n_expires_at top - n) ÷ 1000000 then (n_expires_at top - n) ÷ 1000000 else 0)
            = Z.max 0 ((n_expires_at top - n) / 1000000)) as ->.
    { destruct (decide (0 <= n_expires_at top - n)) as [Hp|Hn].
      - rewrite Z.quot_div_nonneg by lia. case_match; hp_bool; lia.
      - pose proof (Z.quot_le_mono (n_expires_at top - n) 0 1000000 ltac:(lia) ltac:(lia)) as Hq.
        rewrite Z.quot_0_l in Hq by lia.
        pose proof (Z.div_lt_upper_bound (n_expires_at top - n) 1000000 0 ltac:(lia) ltac:(lia)).
        case_match; hp_bool; lia. }
    split_and!; [done| |].
    + split; [lia|]. intros E. by rewrite E, lookup_empty in He.
    + intros _. exists w', (n_id top), e. rewrite En. simpl. split_and!; [done|done| |by rewrite Hexp].
      intros id' e' He'. rewrite Hexp. by apply (top_least _ _ _ _ D2 Et He').
  - pose proof (no_top_no_entries _ D2 Et) as Hemp. eexists _, fs, w', _.
    by split_and!.
Qed.

Lemma next_timeout_earliest_witness :
  exists r fs w' t', get_next_timeout_ms demo_now demo_invoke 100000000 demo_timer
    = Some (r, fs, w', t') /\ r <> -1.
Proof.
  destruct (next_timeout_earliest demo_now demo_invoke 100000000 demo_timer demo_steady
    demo_timer_ok demo_callbacks) as (r & fs & w' & t' & E & _).
  exists r, fs, w', t'. split; [exact E|]. intros ->.
  apply (f_equal (fmap (fun x : Z * list firing * Z * timer Z => x.1.1.1))) in E.
  vm_compute in E. discriminate.
Defined.
