(* ===== verification/RingBuffer.v ===== *)
(** * RingBuffer: [ring_buffer<T>] of src/src/util/ring_buffer.h

    A bounded multi-producer multi-consumer queue: producers exclude each other
    by [tail_mutex_], consumers by [head_mutex_], and the two sides meet only in
    the atomic indices.  The model has both views: the operations as functions,
    and a step machine in which each side's critical section is split at its
    accesses to shared memory, so that every interleaving of any number of
    threads is a schedule.  The theorem: under every schedule the events are
    those of a bounded FIFO, and a slot is never written while it is read.

    Indices are [nat]: [capacity + 1] is the size of an allocated vector. *)

From S2P Require Import Prelude.

Section ring.
Context {T : Type}.

(* src/src/util/ring_buffer.h:74-84 ring_buffer *)
Record ring_buffer := mk_ring {
  capacity_ : nat;
  data_ : list T;
  head_ : nat;
  tail_ : nat;
}.

(** [data_(capacity + 1)] default-constructs its elements. *)
(* src/src/util/ring_buffer.h:14-15 ring_buffer::ring_buffer *)
Definition ring_new (default : T) (capacity : nat) : ring_buffer :=
  mk_ring capacity (replicate (capacity + 1) default) 0 0.

(* src/src/util/ring_buffer.h:20-20 ring_buffer::push *)
Definition next_index (r : ring_buffer) (i : nat) : nat := (i + 1) mod length (data_ r).

(** Both overloads: copying and moving in are the same here. *)
(* src/src/util/ring_buffer.h:17-43 ring_buffer::push *)
Definition ring_push (r : ring_buffer) (item : T) : bool * ring_buffer :=
  let next_tail := next_index r (tail_ r) in
  if next_tail =? head_ r then (false, r)
  else (true, mk_ring (capacity_ r) (<[tail_ r := item]> (data_ r)) (head_ r) next_tail).

(* src/src/util/ring_buffer.h:45-56 ring_buffer::pop *)
Definition ring_pop (r : ring_buffer) : option T * ring_buffer :=
  if head_ r =? tail_ r then (None, r)
  else (data_ r !! head_ r,
        mk_ring (capacity_ r) (data_ r) (next_index r (head_ r)) (tail_ r)).

(* src/src/util/ring_buffer.h:58-60 ring_buffer::empty *)
Definition ring_empty (r : ring_buffer) : bool := head_ r =? tail_ r.

(* src/src/util/ring_buffer.h:62-69 ring_buffer::size *)
Definition ring_size (r : ring_buffer) : nat :=
  if head_ r <=? tail_ r then tail_ r - head_ r else length (data_ r) - (head_ r - tail_ r).

(** ** The step machine

    Only the thread that holds a mutex is inside a critical section, so the
    state is the ring with the progress of the two holders; a thread waiting
    for a mutex does nothing. *)

(** Inside [push]: before the fullness test, before the write, before the
    publication of the tail. *)
(* src/src/util/ring_buffer.h:17-29 ring_buffer::push *)
Inductive push_pc := PushTest (item : T) | PushWrite (item : T) (next_tail : nat)
                   | PushPublish (item : T) (next_tail : nat).

(** Inside [pop]: before the emptiness test, before the read, before the
    publication of the head. *)
(* src/src/util/ring_buffer.h:45-56 ring_buffer::pop *)
Inductive pop_pc := PopTest | PopRead | PopPublish (current_head : nat) (item : option T).

(* src/src/util/ring_buffer.h:86-87 ring_buffer *)
Record ring_state := mk_rstate {
  ring : ring_buffer;
  tail_mutex_ : option (nat * push_pc);  (** holder and its progress *)
  head_mutex_ : option (nat * pop_pc);
}.

(** The linearization points. *)
Inductive ring_event :=
| EvPushed (tid : nat) (item : T)
| EvFull (tid : nat)
| EvPopped (tid : nat) (item : option T)
| EvEmpty (tid : nat).

Inductive ring_action :=
| BeginPush (tid : nat) (item : T) | StepPush
| BeginPop (tid : nat) | StepPop.

Definition with_ring (s : ring_state) (head tail : nat) (d : list T) : ring_buffer :=
  mk_ring (capacity_ (ring s)) d head tail.

(** One atomic step; [None] when it is not enabled. *)
(* src/src/util/ring_buffer.h:17-56 ring_buffer *)
Definition ring_step (a : ring_action) (s : ring_state) : option (ring_state * list ring_event) :=
  let r := ring s in
  match a with
  | BeginPush tid item =>
      match tail_mutex_ s with
      | None => Some (mk_rstate r (Some (tid, PushTest item)) (head_mutex_ s), [])
      | Some _ => None
      end
  | StepPush =>
      match tail_mutex_ s with
      | None => None
      | Some (tid, PushTest item) =>
          let next_tail := next_index r (tail_ r) in
          if next_tail =? head_ r
          then Some (mk_rstate r None (head_mutex_ s), [EvFull tid])
          else Some (mk_rstate r (Some (tid, PushWrite item next_tail)) (head_mutex_ s), [])
      | Some (tid, PushWrite item next_tail) =>
          Some (mk_rstate (with_ring s (head_ r) (tail_ r) (<[tail_ r := item]> (data_ r)))
                  (Some (tid, PushPublish item next_tail)) (head_mutex_ s), [])
      | Some (tid, PushPublish item next_tail) =>
          Some (mk_rstate (with_ring s (head_ r) next_tail (data_ r)) None (head_mutex_ s),
                [EvPushed tid item])
      end
  | BeginPop tid =>
      match head_mutex_ s with
      | None => Some (mk_rstate r (tail_mutex_ s) (Some (tid, PopTest)), [])
      | Some _ => None
      end
  | StepPop =>
      match head_mutex_ s with
      | None => None
      | Some (tid, PopTest) =>
          if head_ r =? tail_ r
          then Some (mk_rstate r (tail_mutex_ s) None, [EvEmpty tid])
          else Some (mk_rstate r (tail_mutex_ s) (Some (tid, PopRead)), [])
      | Some (tid, PopRead) =>
          Some (mk_rstate r (tail_mutex_ s) (Some (tid, PopPublish (head_ r) (data_ r !! head_ r))), [])
      | Some (tid, PopPublish h item) =>
          Some (mk_rstate (with_ring s (next_index r h) (tail_ r) (data_ r)) (tail_mutex_ s) None,
                [EvPopped tid item])
      end
  end.

(** A schedule; steps that are not enabled are skipped (the thread is blocked). *)
Definition ring_exec (st : ring_state * list ring_event) (a : ring_action)
  : ring_state * list ring_event :=
  match ring_step a st.1 with
  | Some (s', evs) => (s', st.2 ++ evs)
  | None => st
  end.

Definition ring_init (default : T) (capacity : nat) : ring_state :=
  mk_rstate (ring_new default capacity) None None.

(** ** Specification: a bounded FIFO *)

Definition fifo_step (capacity : nat) (q : option (list T)) (e : ring_event) : option (list T) :=
  q ← q;
  match e with
  | EvPushed _ x => if length q <? capacity then Some (q ++ [x]) else None
  | EvFull _ => if length q =? capacity then Some q else None
  | EvPopped _ item => match q, item with x :: q', Some _ => Some q' | _, _ => None end
  | EvEmpty _ => match q with [] => Some [] | _ => None end
  end.

(** The items popped, in order. *)
Definition popped (evs : list ring_event) : list T :=
  omap (fun e => match e with EvPopped _ x => x | _ => None end) evs.

Definition pushed (evs : list ring_event) : list T :=
  omap (fun e => match e with EvPushed _ x => Some x | _ => None end) evs.

(** ** Invariant *)

(** The ring holds [q] from the head on. *)
Record repr (r : ring_buffer) (q : list T) : Prop := {
  repr_size : length (data_ r) = capacity_ r + 1;
  repr_head : head_ r < length (data_ r);
  repr_len : length q <= capacity_ r;
  repr_tail : tail_ r = (head_ r + length q) mod length (data_ r);
  repr_data : forall i x, q !! i = Some x ->
    data_ r !! ((head_ r + i) mod length (data_ r)) = Some x;
}.

Definition push_inv (r : ring_buffer) (q : list T) (pc : push_pc) : Prop :=
  match pc with
  | PushTest _ => True
  | PushWrite _ nt => nt = next_index r (tail_ r) /\ length q < capacity_ r
  | PushPublish x nt =>
      nt = next_index r (tail_ r) /\ length q < capacity_ r /\ data_ r !! tail_ r = Some x
  end.

Definition pop_inv (r : ring_buffer) (q : list T) (pc : pop_pc) : Prop :=
  match pc with
  | PopTest => True
  | PopRead => q <> []
  | PopPublish h item => h = head_ r /\ item = head q /\ q <> []
  end.

Record ring_inv (s : ring_state) (evs : list ring_event) (q : list T) : Prop := {
  inv_repr : repr (ring s) q;
  inv_push : forall tid pc, tail_mutex_ s = Some (tid, pc) -> push_inv (ring s) q pc;
  inv_pop : forall tid pc, head_mutex_ s = Some (tid, pc) -> pop_inv (ring s) q pc;
  inv_fifo : foldl (fifo_step (capacity_ (ring s))) (Some []) evs = Some q;
  inv_order : pushed evs = popped evs ++ q;
}.

(** ** Lemmas *)

Lemma wrap_mod n a i : a < n -> i < n -> (a + i) mod n = if a + i <? n then a + i else a + i - n.
Proof.
  intros Ha Hi. destruct (a + i <? n) eqn:E; hp_bool; [by apply Nat.mod_small|].
  symmetry. apply (Nat.mod_unique _ _ 1); lia.
Qed.

Lemma repr_tail_lt r q : repr r q -> tail_ r < length (data_ r).
Proof. intros [H1 H2 H3 H4 H5]. rewrite H4. apply Nat.mod_upper_bound. lia. Qed.

(** The tests of the code decide fullness and emptiness. *)
Lemma full_test r q : repr r q -> next_index r (tail_ r) = head_ r <-> length q = capacity_ r.
Proof.
  intros Hr. pose proof (repr_tail_lt r q Hr) as Ht. destruct Hr as [H1 H2 H3 H4 H5].
  unfold next_index. rewrite wrap_mod in H4 by lia. destruct (capacity_ r) as [|c] eqn:Ec.
  - rewrite H1. split; [lia|]. intros _. change (0 + 1) with 1. rewrite Nat.mod_1_r. lia.
  - rewrite wrap_mod by lia. repeat case_match; hp_bool; lia.
Qed.

Lemma empty_test r q : repr r q -> head_ r = tail_ r <-> q = [].
Proof.
  intros [H1 H2 H3 H4 H5]. rewrite wrap_mod in H4 by lia. rewrite H4.
  destruct (head_ r + length q <? length (data_ r)) eqn:E; hp_bool;
    (split; [intros ?; apply nil_length_inv; lia|intros ->; simpl in *; lia]).
Qed.

Lemma size_test r q : repr r q -> ring_size r = length q.
Proof.
  intros Hr. pose proof (repr_tail_lt r q Hr). destruct Hr as [H1 H2 H3 H4 H5].
  rewrite wrap_mod in H4 by lia. unfold ring_size. repeat case_match; hp_bool; lia.
Qed.

(** Writing the slot at the tail touches no element of the queue. *)
Lemma repr_write r q x :
  repr r q -> repr (mk_ring (capacity_ r) (<[tail_ r := x]> (data_ r)) (head_ r) (tail_ r)) q.
Proof.
  intros Hr. pose proof (repr_tail_lt r q Hr) as Ht. destruct Hr as [H1 H2 H3 H4 H5].
  constructor; simpl; rewrite ?length_insert; try done. intros i y Hi.
  pose proof (lookup_lt_Some _ _ _ Hi). rewrite list_lookup_insert_ne; [by apply H5|].
  rewrite H4, !wrap_mod by lia. repeat case_match; hp_bool; lia.
Qed.

(** Publishing the tail appends the written slot. *)
Lemma repr_publish_tail r q x :
  repr r q -> length q < capacity_ r -> data_ r !! tail_ r = Some x ->
  repr (mk_ring (capacity_ r) (data_ r) (head_ r) (next_index r (tail_ r))) (q ++ [x]).
Proof.
  intros Hr Hq Hx. pose proof (repr_tail_lt r q Hr) as Ht. destruct Hr as [H1 H2 H3 H4 H5].
  constructor; simpl; try done.
  - rewrite length_app. simpl. lia.
  - unfold next_index. rewrite length_app, H4. simpl. rewrite Nat.Div0.add_mod_idemp_l. f_equal. lia.
  - intros i y [Hi|[Hi Hy]]%lookup_app_Some; [by apply H5|].
    apply list_lookup_singleton_Some in Hy as [Hy ->].
    replace i with (length q) by lia. by rewrite <- H4.
Qed.

(** Publishing the head drops the first element. *)
Lemma repr_publish_head r q x :
  repr r (x :: q) ->
  repr (mk_ring (capacity_ r) (data_ r) (next_index r (head_ r)) (tail_ r)) q.
Proof.
  intros [H1 H2 H3 H4 H5]. simpl in H3. unfold next_index. constructor; simpl; try done.
  - apply Nat.mod_upper_bound. lia.
  - lia.
  - rewrite H4. simpl. rewrite Nat.Div0.add_mod_idemp_l. f_equal. lia.
  - intros i y Hi. rewrite Nat.Div0.add_mod_idemp_l. rewrite <- (H5 (S i) y Hi). f_equal. f_equal. lia.
Qed.

Lemma pushed_snoc evs e : pushed (evs ++ [e]) = pushed evs ++ pushed [e].
Proof. apply omap_app. Qed.

Lemma popped_snoc evs e : popped (evs ++ [e]) = popped evs ++ popped [e].
Proof. apply omap_app. Qed.

(** The producer's facts survive whatever the consumer does, and conversely. *)
Lemma push_inv_shrink r r' q q' pc :
  data_ r' = data_ r -> tail_ r' = tail_ r -> capacity_ r' = capacity_ r ->
  length q' <= length q -> push_inv r q pc -> push_inv r' q' pc.
Proof.
  unfold push_inv, next_index. intros -> -> -> Hl. destruct pc; [done| |]; intuition lia.
Qed.

Lemma pop_inv_grow r r' q x pc :
  head_ r' = head_ r -> pop_inv r q pc -> pop_inv r' (q ++ [x]) pc.
Proof.
  unfold pop_inv. intros ->. destruct pc; [done| |].
  - by destruct q.
  - destruct q; naive_solver.
Qed.

Lemma ring_step_inv a s evs q s' es :
  ring_inv s evs q -> ring_step a s = Some (s', es) ->
  exists q', ring_inv s' (evs ++ es) q' /\ capacity_ (ring s') = capacity_ (ring s).
Proof.
  intros [Hr Hpu Hpo Hf Ho] Hs.
  destruct a as [tid item| |tid|]; simpl in Hs.
  - destruct (tail_mutex_ s); simplify_eq. exists q. rewrite app_nil_r. split; [|done].
    constructor; simpl; try done. by intros ? ? [= <- <-].
  - destruct (tail_mutex_ s) as [[tid [item|item nt|item nt]]|] eqn:Et; simplify_eq.
    + destruct (next_index _ _ =? head_ _) eqn:E; hp_bool; simplify_eq; exists q.
      * apply (full_test _ _ Hr) in E. split; [|done].
        constructor; rewrite ?pushed_snoc, ?popped_snoc; simpl; rewrite ?app_nil_r; try done.
        rewrite foldl_snoc, Hf. simpl. by rewrite E, Nat.eqb_refl.
      * rewrite app_nil_r. split; [|done]. constructor; simpl; try done.
        intros ? ? [= <- <-]. simpl. split; [done|].
        assert (length q <> capacity_ (ring s)) by (rewrite <- full_test by done; done).
        pose proof (repr_len _ _ Hr). lia.
    + destruct (Hpu _ _ eq_refl) as [-> Hlt]. exists q. rewrite app_nil_r. split; [|done].
      pose proof (repr_tail_lt _ _ Hr). constructor; simpl; try done.
      * by apply repr_write.
      * intros ? ? [= <- <-]. unfold push_inv, next_index, with_ring. cbn [data_ tail_ capacity_]. rewrite length_insert.
        split_and!; [done|done|]. by apply list_lookup_insert_eq.
    + destruct (Hpu _ _ eq_refl) as (-> & Hlt & Hd). exists (q ++ [item]). split; [|done].
      constructor; simpl; try done.
      * by apply repr_publish_tail.
      * intros ? ? E. eapply pop_inv_grow; [|by eapply Hpo]. done.
      * rewrite foldl_snoc, Hf. simpl. by rewrite (proj2 (Nat.ltb_lt _ _) Hlt).
      * by rewrite pushed_snoc, popped_snoc, app_nil_r, app_assoc, Ho.
  - destruct (head_mutex_ s); simplify_eq. exists q. rewrite app_nil_r. split; [|done].
    constructor; simpl; try done. by intros ? ? [= <- <-].
  - destruct (head_mutex_ s) as [[tid [| |h item]]|] eqn:Eh; simplify_eq.
    + destruct (head_ _ =? tail_ _) eqn:E; hp_bool; simplify_eq; exists q.
      * apply (empty_test _ _ Hr) in E as ->. split; [|done].
        constructor; rewrite ?pushed_snoc, ?popped_snoc; simpl; rewrite ?app_nil_r in *; try done.
        by rewrite foldl_snoc, Hf.
      * rewrite app_nil_r. split; [|done]. constructor; simpl; try done.
        intros ? ? [= <- <-]. simpl. by rewrite <- (empty_test _ _ Hr).
    + exists q. rewrite app_nil_r. split; [|done]. constructor; simpl; try done.
      intros ? ? [= <- <-]. pose proof (Hpo _ _ eq_refl) as Hne. simpl in *.
      split_and!; [done| |done]. destruct q as [|x q]; [done|]. simpl.
      rewrite <- (repr_data _ _ Hr 0 x eq_refl). f_equal.
      rewrite Nat.add_0_r. symmetry. apply Nat.mod_small, Hr.
    + destruct (Hpo _ _ eq_refl) as (-> & -> & Hne). destruct q as [|x q]; [done|].
      exists q. split; [|done]. constructor; simpl; try done.
      * by apply (repr_publish_head _ _ x).
      * intros ? ? E. eapply push_inv_shrink; [..|by eapply Hpu]; simpl; try done. lia.
      * by rewrite foldl_snoc, Hf.
      * rewrite pushed_snoc, popped_snoc, app_nil_r. simpl. by rewrite Ho, <- app_assoc.
Qed.

(** What a step shows says how the queue changes. *)
Lemma ring_step_queue a s evs q s' es :
  ring_inv s evs q -> ring_step a s = Some (s', es) ->
  exists q', ring_inv s' (evs ++ es) q' /\ q ++ pushed es = popped es ++ q' /\
    foldl (fifo_step (capacity_ (ring s))) (Some q) es = Some q'.
Proof.
  intros Hi Hs. destruct (ring_step_inv a s evs q s' es Hi Hs) as (q' & Hi' & Hc). exists q'.
  split; [done|]. pose proof (inv_order _ _ _ Hi') as Ho. pose proof (inv_fifo _ _ _ Hi') as Hf.
  unfold pushed, popped in Ho. rewrite !omap_app in Ho. fold (pushed evs) (popped evs) in Ho.
  rewrite (inv_order _ _ _ Hi), <- !app_assoc in Ho. apply app_inv_head in Ho.
  rewrite foldl_app, Hc, (inv_fifo _ _ _ Hi) in Hf. done.
Qed.

(** A step of the pop goes on inside it, or answers nothing on an empty queue,
    or takes the first item. *)
Lemma step_pop_cases s evs q s' es :
  ring_inv s evs q -> ring_step StepPop s = Some (s', es) ->
  exists q', ring_inv s' (evs ++ es) q' /\ q = popped es ++ q' /\ pushed es = [] /\
    tail_mutex_ s' = tail_mutex_ s /\
    match es with
    | [] => exists tid pc pc', head_mutex_ s = Some (tid, pc) /\ head_mutex_ s' = Some (tid, pc') /\
              match pc, pc' with PopTest, PopRead | PopRead, PopPublish _ _ => True | _, _ => False end
    | _ => head_mutex_ s' = None /\
           ((exists tid, head_mutex_ s = Some (tid, PopTest)) /\ q = [] \/
            (exists tid h item, head_mutex_ s = Some (tid, PopPublish h item)) /\ exists x, q = x :: q')
    end.
Proof.
  intros Hi Es. destruct (ring_step_queue _ _ _ _ _ _ Hi Es) as (q' & Hi' & Hq & Hf). exists q'.
  split; [done|]. clear Hi Hi'. simpl in Es.
  destruct (head_mutex_ s) as [[tid [| |h item]]|]; [destruct (_ =? _)|..]; simplify_eq/=; rewrite ?app_nil_r in *.
  - split_and!; try done. left. split; [by eexists|]. by destruct q.
  - split_and!; try done. by eexists _, _, _.
  - split_and!; try done. by eexists _, _, _.
  - destruct q as [|x q], item; simplify_eq. split_and!; try done. right. split; [by eexists _, _, _|by exists x].
Qed.

Lemma ring_exec_inv acts s evs q :
  ring_inv s evs q ->
  exists q', ring_inv (foldl ring_exec (s, evs) acts).1 (foldl ring_exec (s, evs) acts).2 q' /\
    capacity_ (ring (foldl ring_exec (s, evs) acts).1) = capacity_ (ring s).
Proof.
  revert s evs q. induction acts as [|a acts IH]; intros s evs q Hi; cbn [foldl]; [eauto|].
  unfold ring_exec at 2 4 6. simpl. destruct (ring_step a s) as [[s' es]|] eqn:E; [|by eapply IH].
  destruct (ring_step_inv _ _ _ _ _ _ Hi E) as (q' & Hi' & Hc).
  destruct (IH _ _ _ Hi') as (q'' & ? & ?). exists q''. split; [done|congruence].
Qed.

Lemma ring_init_inv d capacity : ring_inv (ring_init d capacity) [] [].
Proof.
  constructor; simpl; try done. constructor; simpl; rewrite ?length_replicate; try lia.
  - rewrite Nat.mod_0_l; lia.
  - done.
Qed.

End ring.

Arguments ring_buffer : clear implicits.
Arguments ring_state : clear implicits.
Arguments ring_event : clear implicits.
Arguments ring_action : clear implicits.

Lemma ring_exec_Some {T} a (s : ring_state T) evs s' es :
  ring_step a s = Some (s', es) -> ring_exec (s, evs) a = (s', evs ++ es).
Proof. intros E. unfold ring_exec. simpl. by rewrite E. Qed.

Lemma ring_exec_None {T} a (s : ring_state T) evs :
  ring_step a s = None -> ring_exec (s, evs) a = (s, evs).
Proof. intros E. unfold ring_exec. simpl. by rewrite E. Qed.

(** Run the next step of a schedule whose test is decided by [E]. *)
Ltac ring_run E :=
  repeat (first
    [ erewrite ring_exec_Some by (simpl; rewrite ?E; reflexivity)
    | rewrite ring_exec_None by reflexivity ]); cbn [app].

(** A thread left alone does what the operation says. *)
Lemma push_uninterrupted {T} (s : ring_state T) tid x :
  tail_mutex_ s = None ->
  let '(s', evs) := foldl ring_exec (s, []) [BeginPush tid x; StepPush; StepPush; StepPush] in
  let '(ok, r) := ring_push (ring s) x in
  s' = mk_rstate r None (head_mutex_ s) /\
  evs = [if (ok : bool) then EvPushed tid x else EvFull tid].
Proof.
  destruct s as [r tm hm]. simpl. intros ->. unfold ring_push.
  destruct (next_index r (tail_ r) =? head_ r) eqn:E; cbn [foldl]; ring_run E; done.
Qed.

Lemma pop_uninterrupted {T} (s : ring_state T) tid :
  head_mutex_ s = None ->
  let '(s', evs) := foldl ring_exec (s, []) [BeginPop tid; StepPop; StepPop; StepPop] in
  let '(item, r) := ring_pop (ring s) in
  s' = mk_rstate r (tail_mutex_ s) None /\
  evs = [if ring_empty (ring s) then EvEmpty tid else EvPopped tid item].
Proof.
  destruct s as [r tm hm]. simpl. intros ->. unfold ring_pop, ring_empty.
  destruct (head_ r =? tail_ r) eqn:E; cbn [foldl]; ring_run E; done.
Qed.

(** The operations as functions act on the queue they hold. *)
Lemma ring_push_repr {T} (r : ring_buffer T) q x :
  repr r q ->
  ring_push r x = (bool_decide (length q < capacity_ r), (ring_push r x).2) /\
  repr (ring_push r x).2 (if bool_decide (length q < capacity_ r) then q ++ [x] else q) /\
  capacity_ (ring_push r x).2 = capacity_ r.
Proof.
  intros Hr. unfold ring_push. pose proof (full_test r q Hr) as Hf. pose proof (repr_len r q Hr) as Hl.
  destruct (next_index r (tail_ r) =? head_ r) eqn:E; hp_bool.
  - rewrite bool_decide_false by (apply Hf in E; lia). done.
  - assert (length q < capacity_ r) as Hlt by (destruct (decide (length q = capacity_ r)); [tauto|lia]).
    rewrite bool_decide_true by done. split_and!; [done| |done].
    pose proof (repr_publish_tail _ q x (repr_write r q x Hr) Hlt) as Hp. simpl in Hp. unfold next_index in *.
    simpl in Hp. rewrite length_insert in Hp. apply Hp. apply list_lookup_insert_eq. by apply (repr_tail_lt r q).
Qed.

Lemma ring_pop_repr {T} (r : ring_buffer T) q :
  repr r q -> (ring_pop r).1 = head q /\ repr (ring_pop r).2 (tail q) /\ capacity_ (ring_pop r).2 = capacity_ r.
Proof.
  intros Hr. unfold ring_pop. pose proof (empty_test r q Hr) as He.
  destruct (head_ r =? tail_ r) eqn:E; hp_bool.
  - apply He in E. by subst q.
  - destruct q as [|x q]; [by destruct E; apply He|]. simpl. split_and!; [|by apply (repr_publish_head _ _ x)|done].
    pose proof (repr_data r _ Hr 0 x eq_refl) as Hd. rewrite Nat.add_0_r in Hd.
    by rewrite Nat.mod_small in Hd by apply Hr.
Qed.

Lemma ring_empty_repr {T} (r : ring_buffer T) q : repr r q -> ring_empty r = bool_decide (q = []).
Proof.
  intros Hr. unfold ring_empty. apply eq_bool_prop_intro. rewrite !Is_true_true, Nat.eqb_eq, bool_decide_eq_true.
  exact (empty_test r q Hr).
Qed.

Lemma ring_new_repr {T} (d : T) n : repr (ring_new d n) [].
Proof.
  constructor; simpl; rewrite ?length_replicate; try lia; [by rewrite Nat.mod_small by lia|done].
Qed.

(** C25: the ring buffer is a linearizable bounded FIFO.  Under every schedule
    of any number of pushing and popping threads, the events (at the points
    where they take effect) are those of a FIFO of the given capacity: a push
    fails only when the queue is full at that point, a pop answers nothing only
    when it is empty, and the items popped are a prefix of those pushed, in
    order.  What is left has the size [size] computes, within the capacity; a
    thread about to write a slot and one about to read a slot never have the
    same slot; and a thread that runs alone performs the plain operation. *)
Theorem ring_linearizable {T} (default : T) capacity (acts : list (ring_action T)) :
  let '(s, evs) := foldl ring_exec (ring_init default capacity, []) acts in
  exists q,
    foldl (fifo_step capacity) (Some []) evs = Some q /\
    pushed evs = popped evs ++ q /\ length q <= capacity /\
    ring_size (ring s) = length q /\ (ring_empty (ring s) = true <-> q = []) /\
    (forall tid tid' x nt, tail_mutex_ s = Some (tid, PushWrite x nt) ->
       head_mutex_ s = Some (tid', PopRead) -> tail_ (ring s) <> head_ (ring s)) /\
    (tail_mutex_ s = None -> forall tid x,
       ring (foldl ring_exec (s, []) [BeginPush tid x; StepPush; StepPush; StepPush]).1 =
       (ring_push (ring s) x).2) /\
    (head_mutex_ s = None -> forall tid,
       ring (foldl ring_exec (s, []) [BeginPop tid; StepPop; StepPop; StepPop]).1 =
       (ring_pop (ring s)).2).
Proof.
  destruct (ring_exec_inv acts _ _ _ (ring_init_inv default capacity)) as (q & Hi & Hc).
  destruct (foldl ring_exec _ acts) as [s evs]. cbn [fst snd ring ring_init capacity_ ring_new] in *.
  destruct Hi as [Hr Hpu Hpo Hf Ho].
  rewrite Hc in Hf. exists q. split_and!; [done|done| | | | | |].
  - rewrite <- Hc. apply Hr.
  - by apply size_test.
  - unfold ring_empty. rewrite Nat.eqb_eq. exact (empty_test _ _ Hr).
  - intros tid tid' x nt _ Hp E. apply (Hpo _ _ Hp). by apply (empty_test _ _ Hr).
  - intros Hm tid x. pose proof (push_uninterrupted s tid x Hm) as Hu.
    destruct (foldl ring_exec (s, []) _) as [s' evs']. destruct (ring_push (ring s) x) as [ok r].
    by destruct Hu as [-> _].
  - intros Hm tid. pose proof (pop_uninterrupted s tid Hm) as Hu.
    destruct (foldl ring_exec (s, []) _) as [s' evs']. destruct (ring_pop (ring s)) as [it r].
    by destruct Hu as [-> _].
Qed.

(** Two producers and two consumers on a ring of one slot. *)
Lemma ring_linearizable_witness :
  let '(s, evs) := foldl ring_exec (ring_init 0 1, [])
    [BeginPush 1 7; StepPush; BeginPop 3; StepPop; StepPush; BeginPush 2 8; StepPush;
     BeginPush 2 8; StepPush; BeginPop 4; StepPop; StepPop; StepPop] in
  evs = [EvEmpty 3; EvPushed 1 7; EvFull 2; EvPopped 4 (Some 7)] /\ ring_size (ring s) = 0.
Proof.
  pose proof (ring_linearizable 0 1
    [BeginPush 1 7; StepPush; BeginPop 3; StepPop; StepPush; BeginPush 2 8; StepPush;
     BeginPush 2 8; StepPush; BeginPop 4; StepPop; StepPop; StepPop]) as H.
  destruct (foldl ring_exec _ _) as [s evs] eqn:E. destruct H as (q & _ & _ & _ & Hs & _).
  vm_compute in E. injection E as <- <-. split; reflexivity.
Defined.
