(* ===== verification/ThreadsafeQueue.v ===== *)
(** * ThreadsafeQueue: [threadsafe_queue<T>] of src/src/util/threadsafe_queue.h

    The two-lock linked queue with a dummy node: nodes live in a store and are
    reached by location, [head] owns the chain, [tail] is a raw pointer to the
    dummy.  Each critical section is split at its accesses to the nodes, so
    every interleaving of any number of threads is a schedule, including the
    sleeping and waking of [wait_pop] on the condition variable.

    The theorems: under every schedule the queue is a linearizable FIFO that
    touches no freed node; and [wait_pop] can sleep on a non-empty queue, since
    [push] notifies without holding the mutex the waiter tests under.  The
    instance of [SharedQueue] is what the server relies on: pushes and
    [try_pop]s by threads that do one operation at a time. *)

From S2P Require Import Prelude Shared.

Section queue.
Context {T : Type}.

(** A node: its data and the next location. *)
(* src/src/util/threadsafe_queue.h:45-48 threadsafe_queue::node *)
Record node := mk_node { n_data : option T; n_next : option nat }.

(** [new node]. *)
Definition node_new : node := mk_node None None.

(** Inside [push], after [tail_mtx] is taken: before the data, the next pointer
    and the tail are written; [p] is the new dummy. *)
(* src/src/util/threadsafe_queue.h:20-32 threadsafe_queue::push *)
Inductive push_pc := PutData (val : T) (p : nat) | PutNext (val : T) (p : nat)
                   | PutTail (val : T) (p : nat).

(** Inside a pop, after [head_mtx] is taken: before the test against
    [get_tail()], before the data are moved out, before [pop_head]; [wait]
    tells [wait_pop] from [try_pop]; [GoSleep] is about to wait. *)
(* src/src/util/threadsafe_queue.h:65-85 threadsafe_queue::try_pop_head *)
Inductive pop_pc := TestTail (wait : bool) | TakeData (wait : bool)
                  | PopHead (wait : bool) (res : option T) | GoSleep.

(* src/src/util/threadsafe_queue.h:42-52 threadsafe_queue *)
Record queue_state := mk_queue {
  nodes : gmap nat node;
  head : nat;
  tail : nat;
  next_loc : nat;                       (** allocation *)
  tail_mtx : option (nat * push_pc);    (** holder and its progress *)
  head_mtx : option (nat * pop_pc);
  unnotified : nat;                     (** pushers between unlock and [notify_one] *)
  sleepers : list nat;                  (** threads waiting on [data_cond] *)
  woken : list nat;                     (** notified, not yet holding [head_mtx] *)
}.

(* src/src/util/threadsafe_queue.h:11-11 threadsafe_queue::threadsafe_queue *)
Definition queue_new : queue_state :=
  mk_queue {[0 := node_new]} 0 0 1 None None 0 [] [].

(** The linearization points. *)
Inductive queue_event :=
| EvPush (tid : nat) (val : T)
| EvPop (tid : nat) (res : option T)
| EvNone (tid : nat).

Inductive queue_action :=
| BeginPush (tid : nat) (val : T) | StepPush | Notify (i : nat)
| BeginPop (tid : nat) (wait : bool) | StepPop | Wake (tid : nat)
| Spurious (i : nat).   (** a condition variable may wake on its own *)

Definition set_push (s : queue_state) (ns : gmap nat node) (tl : nat)
    (m : option (nat * push_pc)) (un : nat) : queue_state :=
  mk_queue ns (head s) tl (next_loc s) m (head_mtx s) un (sleepers s) (woken s).

Definition set_pop (s : queue_state) (ns : gmap nat node) (hd : nat)
    (m : option (nat * pop_pc)) (sl wk : list nat) : queue_state :=
  mk_queue ns hd (tail s) (next_loc s) (tail_mtx s) m (unnotified s) sl wk.

(** One step of [push]; allocation and the locking of [tail_mtx] come first,
    [notify_one] comes after the unlocking. *)
(* src/src/util/threadsafe_queue.h:20-32 threadsafe_queue::push *)
Definition push_step (s : queue_state) (tid : nat) (pc : push_pc)
  : queue_state * list queue_event :=
  match pc with
  | PutData val p =>
      (set_push s (alter (fun n => mk_node (Some val) (n_next n)) (tail s) (nodes s)) (tail s)
         (Some (tid, PutNext val p)) (unnotified s), [])
  | PutNext val p =>
      (set_push s (alter (fun n => mk_node (n_data n) (Some p)) (tail s) (nodes s)) (tail s)
         (Some (tid, PutTail val p)) (unnotified s), [])
  | PutTail val p => (set_push s (nodes s) p None (S (unnotified s)), [EvPush tid val])
  end.

(** One step of a pop.  The test needs [tail_mtx] ([get_tail]); [None] is a
    blocked thread.  [pop_head] moves the ownership and frees the old head. *)
(* src/src/util/threadsafe_queue.h:54-85 threadsafe_queue *)
Definition pop_step (s : queue_state) (tid : nat) (pc : pop_pc)
  : option (queue_state * list queue_event) :=
  let keep m := set_pop s (nodes s) (head s) m (sleepers s) (woken s) in
  match pc with
  | TestTail wait =>
      match tail_mtx s with
      | Some _ => None
      | None =>
          if head s =? tail s then
            if wait then Some (keep (Some (tid, GoSleep)), [])
            else Some (keep None, [EvNone tid])
          else Some (keep (Some (tid, TakeData wait)), [])
      end
  | TakeData wait =>
      Some (keep (Some (tid, PopHead wait (nodes s !! head s ≫= n_data))), [])
  | PopHead wait res =>
      match nodes s !! head s ≫= n_next with
      | Some hd =>
          Some (set_pop s (delete (head s) (nodes s)) hd None (sleepers s) (woken s),
                [EvPop tid res])
      | None => None
      end
  | GoSleep => Some (set_pop s (nodes s) (head s) None (sleepers s ++ [tid]) (woken s), [])
  end.

(* src/src/util/threadsafe_queue.h:20-85 threadsafe_queue *)
Definition queue_step (a : queue_action) (s : queue_state)
  : option (queue_state * list queue_event) :=
  match a with
  | BeginPush tid val =>
      match tail_mtx s with
      | Some _ => None
      | None =>
          let p := next_loc s in
          Some (mk_queue (<[p := node_new]> (nodes s)) (head s) (tail s) (S p)
                  (Some (tid, PutData val p)) (head_mtx s) (unnotified s) (sleepers s) (woken s), [])
      end
  | StepPush => '(tid, pc) ← tail_mtx s; Some (push_step s tid pc)
  | Notify i =>
      match unnotified s with
      | O => None
      | S n =>
          match sleepers s !! i with
          | Some tid =>
              Some (mk_queue (nodes s) (head s) (tail s) (next_loc s) (tail_mtx s) (head_mtx s) n
                      (delete i (sleepers s)) (tid :: woken s), [])
          | None =>
              match sleepers s with
              | [] => Some (mk_queue (nodes s) (head s) (tail s) (next_loc s) (tail_mtx s)
                              (head_mtx s) n [] (woken s), [])
              | _ => None
              end
          end
      end
  | BeginPop tid wait =>
      match head_mtx s with
      | Some _ => None
      | None => Some (set_pop s (nodes s) (head s) (Some (tid, TestTail wait)) (sleepers s) (woken s), [])
      end
  | StepPop => '(tid, pc) ← head_mtx s; pop_step s tid pc
  | Wake tid =>
      match head_mtx s with
      | Some _ => None
      | None =>
          if decide (tid ∈ woken s) then
            Some (set_pop s (nodes s) (head s) (Some (tid, TestTail true)) (sleepers s)
                    (filter (fun t => t <> tid) (woken s)), [])
          else None
      end
  | Spurious i =>
      tid ← sleepers s !! i;
      Some (set_pop s (nodes s) (head s) (head_mtx s) (delete i (sleepers s)) (tid :: woken s), [])
  end.

(** A schedule; a blocked step is skipped. *)
Definition queue_exec (st : queue_state * list queue_event) (a : queue_action)
  : queue_state * list queue_event :=
  match queue_step a st.1 with
  | Some (s', evs) => (s', st.2 ++ evs)
  | None => st
  end.

(* src/src/util/threadsafe_queue.h:34-37 threadsafe_queue::empty *)
Definition queue_empty (s : queue_state) : bool := head s =? tail s.

(** ** Specification: a FIFO *)

Definition fifo_step (q : option (list T)) (e : queue_event) : option (list T) :=
  q ← q;
  match e with
  | EvPush _ x => Some (q ++ [x])
  | EvPop _ (Some _) => match q with _ :: q' => Some q' | [] => None end
  | EvPop _ None => None
  | EvNone _ => match q with [] => Some [] | _ => None end
  end.

Definition popped (evs : list queue_event) : list T :=
  omap (fun e => match e with EvPop _ x => x | _ => None end) evs.

Definition pushed (evs : list queue_event) : list T :=
  omap (fun e => match e with EvPush _ x => Some x | _ => None end) evs.

(** ** Invariant *)

(** From [l] the chain of nodes holds [q] and ends at the dummy [t], visiting
    [locs]. *)
Inductive chain (ns : gmap nat node) : nat -> list T -> nat -> list nat -> Prop :=
| chain_nil t : chain ns t [] t [t]
| chain_cons l x q t l' locs :
    ns !! l = Some (mk_node (Some x) (Some l')) -> chain ns l' q t locs ->
    chain ns l (x :: q) t (l :: locs).

(** The dummy, as far as the holder of [tail_mtx] has filled it. *)
Definition dummy_inv (s : queue_state) (locs : list nat) : Prop :=
  match tail_mtx s with
  | None => nodes s !! tail s = Some node_new
  | Some (_, PutData x p) =>
      nodes s !! tail s = Some node_new /\ nodes s !! p = Some node_new /\ p ∉ locs /\ p < next_loc s
  | Some (_, PutNext x p) =>
      nodes s !! tail s = Some (mk_node (Some x) None) /\ nodes s !! p = Some node_new /\ p ∉ locs /\ p < next_loc s
  | Some (_, PutTail x p) =>
      nodes s !! tail s = Some (mk_node (Some x) (Some p)) /\ nodes s !! p = Some node_new /\ p ∉ locs /\ p < next_loc s
  end.

Definition pop_inv (s : queue_state) (q : list T) : Prop :=
  match head_mtx s with
  | Some (_, TakeData _) => q <> []
  | Some (_, PopHead _ res) => exists x q', q = x :: q' /\ res = Some x
  | _ => True
  end.

Record queue_inv (s : queue_state) (evs : list queue_event) (q : list T) (locs : list nat) : Prop := {
  q_chain : chain (nodes s) (head s) q (tail s) locs;
  q_nodup : NoDup locs;
  q_fresh : forall l, l ∈ locs -> l < next_loc s;
  q_dummy : dummy_inv s locs;
  q_pop : pop_inv s q;
  q_fifo : foldl fifo_step (Some []) evs = Some q;
  q_order : pushed evs = popped evs ++ q;
}.

(** ** Lemmas *)

Lemma chain_ends ns l q t locs :
  chain ns l q t locs -> exists locs', locs = locs' ++ [t] /\ (exists r, locs = l :: r).
Proof.
  induction 1 as [t|l x q t l' locs Hl Hc IH]; [exists []; eauto|].
  destruct IH as (locs' & -> & _). exists (l :: locs'). eauto.
Qed.

Lemma chain_empty ns l q t locs :
  chain ns l q t locs -> NoDup locs -> l = t <-> q = [].
Proof.
  intros Hc Hnd. split; [|by intros ->; inversion Hc]. intros He.
  destruct Hc as [|l x q t l' locs Hl Hc]; [done|]. subst l.
  apply NoDup_cons in Hnd as [Hn _]. destruct Hn.
  destruct (chain_ends _ _ _ _ _ Hc) as (locs' & -> & _). apply elem_of_app. right. by left.
Qed.

(** Changing nodes off the filled part of the chain. *)
Lemma chain_change ns ns' l q t locs :
  chain ns l q t locs -> NoDup locs ->
  (forall k, k ∈ locs -> k <> t -> ns' !! k = ns !! k) -> chain ns' l q t locs.
Proof.
  induction 1 as [t|l x q t l' locs Hl Hc IH]; intros Hnd Hsame; [constructor|].
  apply NoDup_cons in Hnd as [Hn Hnd]. econstructor; [|apply IH; [done|set_solver]].
  rewrite Hsame; [done|by left|]. intros ->. destruct Hn.
  destruct (chain_ends _ _ _ _ _ Hc) as (locs' & -> & _). set_solver.
Qed.

(** Linking a new dummy behind the filled tail. *)
Lemma chain_snoc ns l q t locs x p :
  chain ns l q t locs -> ns !! t = Some (mk_node (Some x) (Some p)) ->
  chain ns l (q ++ [x]) p (locs ++ [p]).
Proof.
  induction 1 as [t|l y q t l' locs Hl Hc IH]; intros Ht; simpl.
  - econstructor; [done|constructor].
  - econstructor; [done|by apply IH].
Qed.

Lemma pushed_app e1 e2 : pushed (e1 ++ e2) = pushed e1 ++ pushed e2.
Proof. apply omap_app. Qed.

Lemma popped_app e1 e2 : popped (e1 ++ e2) = popped e1 ++ popped e2.
Proof. apply omap_app. Qed.

(** Steps that touch neither nodes nor events. *)
Lemma inv_same s s' evs q locs :
  queue_inv s evs q locs ->
  nodes s' = nodes s -> head s' = head s -> tail s' = tail s -> next_loc s' = next_loc s ->
  tail_mtx s' = tail_mtx s -> pop_inv s' q -> queue_inv s' (evs ++ []) q locs.
Proof.
  intros [H1 H2 H3 H4 H5 H6 H7] E1 E2 E3 E4 E5 Hp. rewrite app_nil_r.
  constructor; rewrite ?E1, ?E2, ?E3, ?E4; try done.
  unfold dummy_inv in *. by rewrite E1, E3, E4, E5.
Qed.

Lemma tail_in_locs s evs q locs : queue_inv s evs q locs -> tail s ∈ locs.
Proof.
  intros Hi. destruct (chain_ends _ _ _ _ _ (q_chain _ _ _ _ Hi)) as (l & -> & _). set_solver.
Qed.

Lemma push_step_inv s evs q locs tid pc :
  queue_inv s evs q locs -> tail_mtx s = Some (tid, pc) ->
  let '(s', es) := push_step s tid pc in
  exists q' locs', queue_inv s' (evs ++ es) q' locs'.
Proof.
  intros Hi Hm. pose proof (tail_in_locs _ _ _ _ Hi) as Ht.
  destruct Hi as [H1 H2 H3 H4 H5 H6 H7]. unfold dummy_inv in H4. rewrite Hm in H4.
  destruct pc as [x p|x p|x p]; destruct H4 as (Hd & Hp & Hn & Hlt); simpl;
    assert (p <> tail s) as Hpt by (intros ->; done).
  - exists q, locs. rewrite app_nil_r. constructor; simpl; try done.
    + eapply chain_change; [done|done|]. intros k _ Hk. by apply lookup_alter_ne.
    + unfold dummy_inv. simpl. rewrite lookup_alter_eq, lookup_alter_ne, Hd by done. done.
  - exists q, locs. rewrite app_nil_r. constructor; simpl; try done.
    + eapply chain_change; [done|done|]. intros k _ Hk. by apply lookup_alter_ne.
    + unfold dummy_inv. simpl. rewrite lookup_alter_eq, lookup_alter_ne, Hd by done. done.
  - exists (q ++ [x]), (locs ++ [p]). constructor; simpl.
    + by eapply chain_snoc.
    + apply NoDup_app. split_and!; [done|set_solver|apply NoDup_singleton].
    + intros l [Hl|Hl]%elem_of_app; [by apply H3|]. apply list_elem_of_singleton in Hl as ->.
      done.
    + unfold dummy_inv. simpl. done.
    + unfold pop_inv in *. simpl. destruct (head_mtx s) as [[? []]|]; try done.
      * by destruct q.
      * destruct H5 as (y & q' & -> & ->). exists y, (q' ++ [x]). done.
    + by rewrite foldl_app, H6.
    + rewrite pushed_app, popped_app, H7. change (popped [EvPush tid x]) with (@nil T).
      by rewrite app_nil_r, <- app_assoc.
Qed.

Lemma pop_step_inv s evs q locs tid pc s' es :
  queue_inv s evs q locs -> head_mtx s = Some (tid, pc) -> pop_step s tid pc = Some (s', es) ->
  exists q' locs', queue_inv s' (evs ++ es) q' locs'.
Proof.
  intros Hi Hm Hs. pose proof Hi as [H1 H2 H3 H4 H5 H6 H7]. unfold pop_inv in H5. rewrite Hm in H5.
  destruct pc as [wait|wait|wait res|]; simpl in Hs.
  - destruct (tail_mtx s) eqn:Et; [done|].
    destruct (head s =? tail s) eqn:E; hp_bool.
    + apply (chain_empty _ _ _ _ _ H1 H2) in E. destruct wait; simplify_eq; exists [], locs.
      * eapply inv_same; try done.
      * constructor; simpl; try done; [by rewrite foldl_app, H6|].
        rewrite pushed_app, popped_app, H7. by rewrite !app_nil_r.
    + simplify_eq. exists q, locs. eapply inv_same; try done. unfold pop_inv. simpl.
      by intros Eq%(chain_empty _ _ _ _ _ H1 H2).
  - simplify_eq. exists q, locs. eapply inv_same; try done. unfold pop_inv. simpl.
    destruct H1 as [t|l x q t l' locs Hl Hc]; [done|]. rewrite Hl. simpl. eauto.
  - destruct H5 as (x & q' & -> & ->). inversion H1 as [|l y q0 t l' locs' Hl Hc]; subst.
    rewrite Hl in Hs. simpl in Hs. simplify_eq. apply NoDup_cons in H2 as [Hn Hnd].
    pose proof (chain_ends _ _ _ _ _ Hc) as (lo & Hlo & _).
    exists q', locs'. constructor; simpl; try done.
    + eapply chain_change; [done|done|]. intros k Hk _. apply lookup_delete_ne. intros E. by subst k.
    + intros k Hk. apply H3. by right.
    + assert (head s <> tail s) as Hht by (intros E; rewrite E in Hn; rewrite Hlo in Hn; set_solver).
      unfold dummy_inv in *. simpl. rewrite lookup_delete_ne by done.
      destruct (tail_mtx s) as [[? [? p|? p|? p]]|]; [..|done];
        destruct H4 as (Hd & Hp & Hnp & Hlt); rewrite lookup_delete_ne by set_solver;
        split_and!; try done; set_solver.
    + by rewrite foldl_app, H6.
    + rewrite pushed_app, popped_app, H7. simpl. by rewrite app_nil_r, <- app_assoc.
  - simplify_eq. exists q, locs. by eapply inv_same.
Qed.

Lemma queue_step_inv a s evs q locs s' es :
  queue_inv s evs q locs -> queue_step a s = Some (s', es) ->
  exists q' locs', queue_inv s' (evs ++ es) q' locs'.
Proof.
  intros Hi Hs. destruct a as [tid x| |i|tid wait| |tid|i]; simpl in Hs.
  - destruct (tail_mtx s) eqn:Et; [done|]. simplify_eq. exists q, locs. rewrite app_nil_r.
    pose proof (tail_in_locs _ _ _ _ Hi) as Ht. destruct Hi as [H1 H2 H3 H4 H5 H6 H7].
    unfold dummy_inv in H4. rewrite Et in H4.
    assert (forall k, k ∈ locs -> k <> next_loc s) as Hfr by (intros k Hk%H3; lia).
    constructor; simpl; try done.
    + eapply chain_change; [done|done|]. intros k Hk _. apply lookup_insert_ne. symmetry. by apply Hfr.
    + intros k Hk%H3. lia.
    + unfold dummy_inv. simpl. rewrite lookup_insert_eq, lookup_insert_ne by (symmetry; by apply Hfr).
      split_and!; [done|done| |lia]. intros Hin. by apply (Hfr _ Hin).
  - destruct (tail_mtx s) as [[tid pc]|] eqn:Et; [|done]. simpl in Hs.
    pose proof (push_step_inv _ _ _ _ _ _ Hi Et) as Hp. by destruct (push_step s tid pc); simplify_eq.
  - exists q, locs. destruct (unnotified s); [done|]. destruct (sleepers s !! i); simplify_eq.
    + by eapply inv_same; [..|apply (q_pop _ _ _ _ Hi)].
    + destruct (sleepers s); simplify_eq. by eapply inv_same; [..|apply (q_pop _ _ _ _ Hi)].
  - destruct (head_mtx s); simplify_eq. exists q, locs. by eapply inv_same.
  - destruct (head_mtx s) as [[tid pc]|] eqn:Eh; [|done]. by eapply pop_step_inv.
  - destruct (head_mtx s); [done|]. case_decide; simplify_eq. exists q, locs. by eapply inv_same.
  - destruct (sleepers s !! i); simplify_eq/=. exists q, locs.
    by eapply inv_same; [..|apply (q_pop _ _ _ _ Hi)].
Qed.

Lemma queue_exec_inv acts s evs q locs :
  queue_inv s evs q locs ->
  exists q' locs', queue_inv (foldl queue_exec (s, evs) acts).1 (foldl queue_exec (s, evs) acts).2 q' locs'.
Proof.
  revert s evs q locs. induction acts as [|a acts IH]; intros s evs q locs Hi; cbn [foldl]; [eauto|].
  destruct (queue_exec (s, evs) a) as [s1 evs1] eqn:E. unfold queue_exec in E. simpl in E.
  destruct (queue_step a s) as [[s' es]|] eqn:Es; simplify_eq; [|by eapply IH].
  destruct (queue_step_inv _ _ _ _ _ _ _ Hi Es) as (q' & locs' & Hi'). by eapply IH.
Qed.

Lemma queue_new_inv : queue_inv queue_new [] [] [0].
Proof.
  constructor; simpl; try done.
  - constructor.
  - apply NoDup_singleton.
  - intros l Hl%list_elem_of_singleton. lia.
Qed.

End queue.

Arguments node : clear implicits.
Arguments queue_state : clear implicits.
Arguments queue_event : clear implicits.
Arguments queue_action : clear implicits.

(** ** The queue as a shared object *)

Section shared.
Context {T : Type}.
Implicit Types (s : queue_state T) (q : list T) (es : list (queue_event T)).

(** [push] and [try_pop] begin by taking their mutex. *)
Definition sq_begin_action (tid : nat) (op : queue_op T) : queue_action T :=
  match op with OpPush x => BeginPush tid x | OpPop => BeginPop tid false end.

(** The answer is given at the linearization point. *)
Definition answer_of (evs : list (queue_event T)) : option (nat * queue_answer T) :=
  match evs with
  | EvPush tid _ :: _ => Some (tid, Pushed)
  | EvPop tid x :: _ => Some (tid, Popped x)
  | EvNone tid :: _ => Some (tid, Popped None)
  | [] => None
  end.

(** The steps of threads inside. *)
Inductive inside_step := InPush | InNotify (i : nat) | InPop.

Definition inside_action (a : inside_step) : queue_action T :=
  match a with InPush => StepPush | InNotify i => Notify i | InPop => StepPop end.

Definition pushing_value (pc : push_pc (T := T)) : T :=
  match pc with PutData x _ | PutNext x _ | PutTail x _ => x end.

(** The operations under way: those of the holders of the mutexes. *)
Definition under_way (s : queue_state T) : gmap nat (queue_op T) :=
  let popping := match head_mtx s with Some (tid, _) => {[tid := OpPop]} | None => ∅ end in
  match tail_mtx s with
  | Some (tid, pc) => <[tid := OpPush (pushing_value pc)]> popping
  | None => popping
  end.

Definition tries (pc : pop_pc (T := T)) : Prop :=
  match pc with TestTail w | TakeData w | PopHead w _ => w = false | GoSleep => False end.

(** No thread waits on the condition variable. *)
Record shared_inv (s : queue_state T) (q : list T) (P : gmap nat (queue_op T)) : Prop := {
  sh_inv : exists evs locs, queue_inv s evs q locs;
  sh_under_way : P = under_way s;
  sh_one : forall t t' pc pc', head_mtx s = Some (t, pc) -> tail_mtx s = Some (t', pc') -> t <> t';
  sh_tries : forall t pc, head_mtx s = Some (t, pc) -> tries pc;
  sh_awake : sleepers s = [];
}.

(** What a step adds to the history takes the FIFO from one state to the next. *)
Lemma queue_step_fifo a s evs q locs s' es :
  queue_inv s evs q locs -> queue_step a s = Some (s', es) ->
  exists q' locs', queue_inv s' (evs ++ es) q' locs' /\ foldl fifo_step (Some q) es = Some q'.
Proof.
  intros Hi Hs. destruct (queue_step_inv _ _ _ _ _ _ _ Hi Hs) as (q' & locs' & Hi').
  exists q', locs'. split; [done|]. pose proof (q_fifo _ _ _ _ Hi') as H.
  by rewrite foldl_app, (q_fifo _ _ _ _ Hi) in H.
Qed.

Lemma under_way_head s tid pc :
  head_mtx s = Some (tid, pc) -> (forall t pc, tail_mtx s = Some (t, pc) -> tid <> t) ->
  under_way s !! tid = Some OpPop.
Proof.
  intros Hh Hn. unfold under_way. rewrite Hh. destruct (tail_mtx s) as [[t p]|] eqn:E.
  - rewrite lookup_insert_ne by (symmetry; by eapply Hn). apply lookup_singleton_eq.
  - apply lookup_singleton_eq.
Qed.

Lemma shared_push_step s q P tid pc s' es :
  shared_inv s q P -> tail_mtx s = Some (tid, pc) -> push_step s tid pc = (s', es) ->
  match answer_of es with
  | None => shared_inv s' q P
  | Some (t, ans) => exists op q', P !! t = Some op /\ fifo op q = (ans, q') /\ shared_inv s' q' (delete t P)
  end.
Proof.
  intros [(evs & locs & Hi) -> H3 H4 H5] Ht Hs.
  destruct (queue_step_fifo StepPush s evs q locs s' es Hi) as (q' & locs' & Hi' & Hf).
  { simpl. rewrite Ht. simpl. by rewrite Hs. }
  assert (forall t pc', head_mtx s = Some (t, pc') -> t <> tid) as Hne by (intros; by eapply H3).
  destruct pc as [x p|x p|x p]; simpl in Hs; injection Hs as <- <-; simpl in *.
  - simplify_eq. constructor; simpl; try done; [by eauto|unfold under_way; by rewrite Ht|].
    intros t t' pc pc' Hh [= <- _]. by eapply Hne.
  - simplify_eq. constructor; simpl; try done; [by eauto|unfold under_way; by rewrite Ht|].
    intros t t' pc pc' Hh [= <- _]. by eapply Hne.
  - simplify_eq. exists (OpPush x), (q ++ [x]). unfold under_way at 1. rewrite Ht.
    split_and!; [by rewrite lookup_insert_eq|done|]. constructor; simpl; try done; [by eauto|].
    unfold under_way. rewrite Ht. simpl. rewrite delete_insert_id; [done|].
    destruct (head_mtx s) as [[t pc]|] eqn:E; [|done]. rewrite lookup_singleton_ne; [done|by eapply Hne].
Qed.

Lemma shared_pop_step s q P tid pc s' es :
  shared_inv s q P -> head_mtx s = Some (tid, pc) -> pop_step s tid pc = Some (s', es) ->
  match answer_of es with
  | None => shared_inv s' q P
  | Some (t, ans) => exists op q', P !! t = Some op /\ fifo op q = (ans, q') /\ shared_inv s' q' (delete t P)
  end.
Proof.
  intros [(evs & locs & Hi) -> H3 H4 H5] Hh Hs.
  destruct (queue_step_fifo StepPop s evs q locs s' es Hi) as (q' & locs' & Hi' & Hf).
  { simpl. by rewrite Hh. }
  pose proof (H4 _ _ Hh) as Hw.
  assert (forall t pc', tail_mtx s = Some (t, pc') -> tid <> t) as Hne by (intros; by eapply H3).
  pose proof (under_way_head s tid pc Hh Hne) as Hop.
  assert (tail_mtx s' = tail_mtx s) as Ht' by (destruct pc as [[]|[]|[]|]; simpl in Hs; hp_cases; done).
  assert (sleepers s' = []) as Hsl by (destruct pc as [[]|[]|[]|]; simpl in Hs; hp_cases; done).
  assert (forall m, head_mtx s' = Some (tid, m) -> tries m -> es = [] -> q' = q -> shared_inv s' q (under_way s)) as Hkeep.
  { intros m Hm Htr -> ->. constructor; [by eauto| | | |done].
    - unfold under_way. by rewrite Ht', Hm, Hh.
    - intros t t' p p'. rewrite Hm, Ht'. intros [= <- _]. apply Hne.
    - intros t p. rewrite Hm. by intros [= _ <-]. }
  assert (head_mtx s' = None -> shared_inv s' q' (delete tid (under_way s))) as Hdone.
  { intros Hm. constructor; [by eauto| |by rewrite Hm|by rewrite Hm|done].
    unfold under_way. rewrite Ht', Hm, Hh. destruct (tail_mtx s) as [[t p]|] eqn:E.
    - rewrite delete_insert_ne by (by eapply Hne). by rewrite delete_singleton_eq.
    - by rewrite delete_singleton_eq. }
  destruct pc as [w|w|w res|]; simpl in Hw; try done; subst; simpl in Hs.
  - destruct (tail_mtx s) eqn:Et; [done|]. destruct (head s =? tail s); simplify_eq/=.
    + exists OpPop, q'. split_and!; [done| |by apply Hdone]. destruct q; by simplify_eq.
    + by eapply Hkeep.
  - simplify_eq/=. by eapply Hkeep.
  - destruct (nodes s !! head s ≫= n_next); simplify_eq/=. exists OpPop, q'.
    split_and!; [done| |by apply Hdone]. destruct res; [|done]. destruct q; simplify_eq.
    pose proof (q_pop _ _ _ _ Hi) as Hp. unfold pop_inv in Hp. rewrite Hh in Hp.
    destruct Hp as (y & q1 & E & Hx). by simplify_eq.
Qed.

Lemma shared_step_inv s q P a s' es :
  shared_inv s q P -> queue_step (inside_action a) s = Some (s', es) ->
  match answer_of es with
  | None => shared_inv s' q P
  | Some (t, ans) => exists op q', P !! t = Some op /\ fifo op q = (ans, q') /\ shared_inv s' q' (delete t P)
  end.
Proof.
  intros Hi Hs. destruct a as [|i|]; simpl in Hs.
  - destruct (tail_mtx s) as [[tid pc]|] eqn:Et; simplify_eq/=.
    destruct (push_step s tid pc) eqn:Ep. simplify_eq. by eapply shared_push_step.
  - destruct Hi as [(evs & locs & Hi) -> H3 H4 H5].
    destruct (queue_step_fifo (Notify i) s evs q locs s' es Hi Hs) as (q' & locs' & Hi' & Hf).
    rewrite H5 in Hs. destruct (unnotified s); simplify_eq/=. constructor; simpl; try done. by eauto.
  - destruct (head_mtx s) as [[tid pc]|] eqn:Et; simplify_eq/=. by eapply shared_pop_step.
Qed.

Lemma shared_begin_inv s q P tid op s' es :
  shared_inv s q P -> P !! tid = None -> queue_step (sq_begin_action tid op) s = Some (s', es) ->
  shared_inv s' q (<[tid := op]> P).
Proof.
  intros [(evs & locs & Hi) -> H3 H4 H5] Hp Hs.
  destruct (queue_step_fifo _ s evs q locs s' es Hi Hs) as (q' & locs' & Hi' & Hf).
  unfold under_way in *. destruct op as [x|]; simpl in Hs.
  - destruct (tail_mtx s) eqn:Et; simplify_eq/=. constructor; simpl; try done; [by eauto|].
    intros t t' pc pc' Hh [= <- <-] ->. rewrite Hh in Hp. by rewrite lookup_singleton_eq in Hp.
  - destruct (head_mtx s) eqn:Eh; simplify_eq/=. constructor; simpl; try done; [by eauto| | |].
    + unfold under_way. simpl. destruct (tail_mtx s) as [[t pc]|] eqn:Et; [|done].
      assert (tid <> t) by (intros ->; by rewrite lookup_insert_eq in Hp).
      rewrite insert_insert_ne by done. done.
    + intros t t' pc pc' [= <- <-] Ht ->. rewrite Ht in Hp. by rewrite lookup_insert_eq in Hp.
    + by intros t pc [= <- <-].
Qed.

(** The holder of [tail_mtx] can always move, and then that of [head_mtx]. *)
Lemma shared_live s q P :
  shared_inv s q P -> is_Some (tail_mtx s) \/ is_Some (head_mtx s) ->
  exists a, is_Some (queue_step (inside_action a) s).
Proof.
  intros [(evs & locs & Hi) -> H3 H4 H5] Hm.
  destruct (tail_mtx s) as [[t pc]|] eqn:Et; [exists InPush; simpl; rewrite Et; by eexists|].
  destruct (head_mtx s) as [[t pc]|] eqn:Eh; [|by destruct Hm as [[]|[]]].
  exists InPop. simpl. rewrite Eh. simpl. pose proof (H4 _ _ eq_refl) as Hw.
  destruct pc as [w|w|w res|]; simpl in Hw; try done; subst; simpl.
  - rewrite Et. destruct (_ =? _); by eexists.
  - pose proof (q_pop _ _ _ _ Hi) as Hp. unfold pop_inv in Hp. rewrite Eh in Hp.
    destruct Hp as (x & q' & -> & _). pose proof (q_chain _ _ _ _ Hi) as Hc.
    inversion Hc as [|? ? ? ? ? ? Hl]; subst. rewrite Hl. simpl. by eexists.
Qed.

(** The steps left to the threads inside: to a pusher its writes, the unlocking
    and the notification, to a popper its test and the removal. *)
Definition push_fuel (pc : push_pc (T := T)) : nat :=
  match pc with PutData _ _ => 4 | PutNext _ _ => 3 | PutTail _ _ => 2 end.
Definition pop_fuel (pc : pop_pc (T := T)) : nat :=
  match pc with TestTail _ => 3 | TakeData _ => 2 | PopHead _ _ | GoSleep => 1 end.
Definition queue_fuel (s : queue_state T) : nat :=
  unnotified s + from_option (fun m => push_fuel m.2) 0 (tail_mtx s) +
  from_option (fun m => pop_fuel m.2) 0 (head_mtx s).

Lemma shared_begin_fuel s tid op s' es :
  queue_step (sq_begin_action tid op) s = Some (s', es) -> queue_fuel s' <= queue_fuel s + 4.
Proof.
  unfold queue_fuel. destruct op as [x|]; simpl.
  - destruct (tail_mtx s); intros; simplify_eq/=. lia.
  - destruct (head_mtx s); intros; simplify_eq/=. lia.
Qed.

Lemma shared_step_fuel s q P a s' es :
  shared_inv s q P -> queue_step (inside_action a) s = Some (s', es) -> queue_fuel s' < queue_fuel s.
Proof.
  intros [_ _ _ Ht Ha] Hs. unfold queue_fuel. destruct a as [|i|]; simpl in Hs.
  - destruct (tail_mtx s) as [[t []]|]; simplify_eq/=; lia.
  - rewrite Ha in Hs. destruct (unnotified s); simplify_eq/=. lia.
  - destruct (head_mtx s) as [[t pc]|]; [|done]. specialize (Ht _ _ eq_refl).
    destruct pc as [w|w|w res|]; simpl in *; try done; subst w; simpl in Hs.
    + destruct (tail_mtx s) eqn:Et; [done|]. destruct (_ =? _); simplify_eq/=; rewrite Et; simpl; lia.
    + simplify_eq/=. lia.
    + destruct (nodes s !! head s ≫= n_next); simplify_eq/=. lia.
Qed.

#[export] Program Instance threadsafe_shared_queue : SharedQueue T := {
  sq := queue_state T;
  sq_act := inside_step;
  sq_new := queue_new;
  sq_begin tid op s := fst <$> queue_step (sq_begin_action tid op) s;
  sq_step a s := '(s', es) ← queue_step (inside_action a) s; Some (s', answer_of es);
  sq_repr := shared_inv;
  sq_cost := 4;
  sq_fuel := queue_fuel;
}.
Next Obligation. constructor; simpl; try done. exists [], [0]. apply queue_new_inv. Qed.
Next Obligation.
  intros s q P tid op s' Hi Hp Hs. cbv beta in Hs. destruct (queue_step _ s) as [[s1 es]|] eqn:E; simplify_eq/=.
  by eapply shared_begin_inv.
Qed.
Next Obligation.
  intros s q P a s' r Hi Hs. cbv beta in Hs. destruct (queue_step _ s) as [[s1 es]|] eqn:E; simplify_eq/=.
  by eapply shared_step_inv.
Qed.
Next Obligation.
  intros s q P tid op Hi Hop. cbv beta in *. destruct (shared_live s q P Hi) as [a [[s' es] Ha]].
  - destruct Hop as [Hop|Hb].
    + rewrite (sh_under_way _ _ _ Hi) in Hop. unfold under_way in Hop.
      destruct (tail_mtx s); [by left|]. destruct (head_mtx s) as [[]|]; [by right|done].
    + destruct op as [x|]; simpl in Hb.
      * destruct (tail_mtx s); [by left|done].
      * destruct (head_mtx s); [by right|done].
  - exists a. rewrite Ha. by eexists.
Qed.
Next Obligation.
  intros s tid op s' Hs. cbv beta in *. destruct (queue_step _ s) as [[s1 es]|] eqn:E; simplify_eq/=.
  by eapply shared_begin_fuel.
Qed.
Next Obligation.
  intros s q P a s' r Hi Hs. cbv beta in *. destruct (queue_step _ s) as [[s1 es]|] eqn:E; simplify_eq/=.
  by eapply shared_step_fuel.
Qed.

End shared.

(** C26: the two-lock queue is a linearizable FIFO.  Under every schedule of any
    number of pushing and popping threads the events are those of a FIFO: no
    item is lost, duplicated or reordered, [try_pop] answers false only when
    the queue is empty at that point, and no thread reads a freed or unfilled
    node (every pop takes an item).  [empty] is exact when no push is under
    way. *)
Theorem queue_linearizable {T} (acts : list (queue_action T)) :
  let '(s, evs) := foldl queue_exec (queue_new, []) acts in
  exists q,
    foldl fifo_step (Some []) evs = Some q /\ pushed evs = popped evs ++ q /\
    (queue_empty s = true <-> q = []) /\
    (forall tid, EvPop tid None ∉ evs) /\
    (forall tid wait, head_mtx s = Some (tid, TakeData wait) ->
       exists x q' n, q = x :: q' /\ nodes s !! head s = Some n /\ n_data n = Some x).
Proof.
  destruct (queue_exec_inv acts _ _ _ _ (queue_new_inv (T := T))) as (q & locs & Hi).
  destruct (foldl queue_exec _ acts) as [s evs]. cbn [fst snd] in Hi.
  destruct Hi as [H1 H2 H3 H4 H5 H6 H7]. exists q. split_and!; [done|done| | |].
  - unfold queue_empty. rewrite Nat.eqb_eq. exact (chain_empty _ _ _ _ _ H1 H2).
  - intros tid Hin. clear -Hin H6. revert H6. generalize (Some (@nil T)).
    induction evs as [|e evs IH]; intros o; [by apply elem_of_nil in Hin|]. cbn [foldl].
    apply elem_of_cons in Hin as [<-|Hin]; [|by apply IH].
    destruct o as [q0|]; simpl; intros Hf; exfalso; clear -Hf;
      induction evs as [|e evs IH]; simpl in Hf; try done; by apply IH.
  - intros tid wait Hm. unfold pop_inv in H5. rewrite Hm in H5.
    destruct H1 as [t|l x q t l' locs Hl Hc]; [done|]. eauto 10.
Qed.

(** [wait_pop] has a lost wakeup.  There is a schedule after which the queue
    holds an item, a thread sleeps in [wait_pop], and nothing is left that
    would wake it: no notification is pending and no thread is under way.  The
    waiter found the queue empty and had not yet slept when the push notified. *)
Theorem wait_pop_lost_wakeup {T} (x : T) :
  exists acts,
    let '(s, evs) := foldl queue_exec (queue_new, []) acts in
    sleepers s = [1] /\ queue_empty s = false /\ unnotified s = 0 /\ woken s = [] /\
    tail_mtx s = None /\ head_mtx s = None /\ evs = [EvPush 2 x].
Proof.
  exists [BeginPop 1 true; StepPop; BeginPush 2 x; StepPush; StepPush; StepPush; Notify 0; StepPop].
  destruct (foldl queue_exec _ _) as [s evs] eqn:E. vm_compute in E. injection E as <- <-.
  repeat split.
Qed.

Lemma queue_linearizable_witness :
  let '(s, evs) := foldl queue_exec (queue_new, [])
    [BeginPush 1 7; StepPush; BeginPop 2 false; StepPush; StepPush; StepPop; StepPop; BeginPush 3 8;
     StepPush; StepPop; StepPush; StepPush] in
  evs = [EvPush 1 7; EvPop 2 (Some 7); EvPush 3 8] /\ queue_empty s = false.
Proof.
  pose proof (queue_linearizable
    [BeginPush 1 7; StepPush; BeginPop 2 false; StepPush; StepPush; StepPop; StepPop; BeginPush 3 8;
     StepPush; StepPop; StepPush; StepPush]) as H.
  destruct (foldl queue_exec _ _) as [s evs] eqn:E. destruct H as (q & _ & _ & He & _).
  vm_compute in E. injection E as <- <-. split; reflexivity.
Defined.
