(* ===== verification/ThreadPool.v ===== *)
(** * ThreadPool: [thread_pool] of src/src/util/thread_pool.h

    Workers, submitters and a stopping thread as one step machine: each thread
    is a program counter, and a step is one access to shared state (a mutex, an
    atomic, the task queue, a condition variable), so schedules are all the
    interleavings.  The task queue is the FIFO that [ThreadsafeQueue] proves
    linearizable; adjacent reads of monotone stop flags are one step.

    The invariant and its preservation are here, the theorem on tasks is in
    [PoolTasks].  The count of queued tasks, updated outside the lock, can
    drift: there is a schedule after which an idle pool with an empty queue
    counts as full and rejects every later submission. *)

From S2P Require Import Prelude.

Local Open Scope Z_scope.

Section pool.
Context {T : Type}.

(** [on_task_dequeued]: before [fetch_sub], before the [store(0)] taken when
    the previous count was 0, before [cv_not_full.notify_one]. *)
(* src/src/util/thread_pool.h:208-214 thread_pool::on_task_dequeued *)
Inductive dequeue_pc := DSub | DFix | DNotify.

(** A worker: about to [try_pop]; in [on_task_dequeued]; about to run the task;
    about to read its stop flag; about to lock [mtx]; holding it at the
    predicate of [cv.wait]; asleep; notified; returned. *)
(* src/src/util/thread_pool.h:174-206 thread_pool::set_thread *)
Inductive worker_pc :=
| WTryPop | WDequeued (d : dequeue_pc) (task : T) | WRun (task : T) | WFlag
| WLock | WPredicate | WAsleep | WNotified | WExit.

(** A submitter inside [push] or [try_push], holding [mtx]: before the test of
    the count, before the second test of the stop flags ([push] only), before
    the enqueueing, before [fetch_add], before [cv.notify_one]. *)
(* src/src/util/thread_pool.h:119-169 thread_pool::push *)
Inductive submit_pc := PTest | PStopTest | PEnqueue | PAdd | PNotify.

(* src/src/util/thread_pool.h:119-169 thread_pool::push *)
Record submitter := mk_submitter { s_tid : nat; s_blocking : bool; s_task : T; s_pc : submit_pc }.

(** The stopping thread: before storing flag [k], clearing the queue ([again] is
    the second clear), locking and notifying, joining, done. *)
(* src/src/util/thread_pool.h:85-117 thread_pool::stop *)
Inductive stop_pc :=
| SFlags (k : nat) | SClear (again : bool) | SDequeued (again : bool) (d : dequeue_pc)
| SNotifyAll | SJoin | SDone.

(** [mtx] is held across steps only by a submitter or a worker at its
    predicate. *)
Inductive owner := OSubmitter (p : submitter) | OWorker (w : nat).

(* src/src/util/thread_pool.h:218-238 thread_pool *)
Record thread_pool := mk_pool {
  task_queue : list T;
  queued_task_count : Z;               (** [atomic<size_t>] *)
  max_queue_size_ : Z;
  is_stopped : bool;
  is_done : bool;
  mtx : option owner;
  workers : list worker_pc;            (** [threads] *)
  stop_flags : list bool;
  waiting_thread_count : Z;
  not_full_asleep : list submitter;    (** waiting on [cv_not_full] *)
  not_full_notified : list submitter;
  stopper : option stop_pc;
  outside : list dequeue_pc;           (** threads inside [pop_task] *)
}.

(* src/src/util/thread_pool.h:24-38 thread_pool::thread_pool *)
Definition pool_new (thread_count : nat) (max_queue_size : Z) : thread_pool :=
  mk_pool [] 0 (if max_queue_size =? 0 then 1 else max_queue_size) false false None
    (replicate thread_count WTryPop) (replicate thread_count false) 0 [] [] None [].

(** ** Field updates *)

Definition set_queue (s : thread_pool) (q : list T) (n : Z) : thread_pool :=
  mk_pool q n (max_queue_size_ s) (is_stopped s) (is_done s) (mtx s) (workers s) (stop_flags s)
    (waiting_thread_count s) (not_full_asleep s) (not_full_notified s) (stopper s) (outside s).

Definition set_mtx (s : thread_pool) (m : option owner) : thread_pool :=
  mk_pool (task_queue s) (queued_task_count s) (max_queue_size_ s) (is_stopped s) (is_done s) m
    (workers s) (stop_flags s) (waiting_thread_count s) (not_full_asleep s) (not_full_notified s)
    (stopper s) (outside s).

Definition set_workers (s : thread_pool) (ws : list worker_pc) (waiting : Z) : thread_pool :=
  mk_pool (task_queue s) (queued_task_count s) (max_queue_size_ s) (is_stopped s) (is_done s)
    (mtx s) ws (stop_flags s) waiting (not_full_asleep s) (not_full_notified s) (stopper s) (outside s).

Definition set_worker (s : thread_pool) (w : nat) (pc : worker_pc) : thread_pool :=
  set_workers s (<[w := pc]> (workers s)) (waiting_thread_count s).

Definition set_not_full (s : thread_pool) (asleep notified : list submitter) : thread_pool :=
  mk_pool (task_queue s) (queued_task_count s) (max_queue_size_ s) (is_stopped s) (is_done s)
    (mtx s) (workers s) (stop_flags s) (waiting_thread_count s) asleep notified (stopper s) (outside s).

Definition set_stop (s : thread_pool) (stopped done : bool) (flags : list bool)
    (pc : option stop_pc) : thread_pool :=
  mk_pool (task_queue s) (queued_task_count s) (max_queue_size_ s) stopped done (mtx s)
    (workers s) flags (waiting_thread_count s) (not_full_asleep s) (not_full_notified s) pc (outside s).

Definition set_outside (s : thread_pool) (o : list dequeue_pc) : thread_pool :=
  mk_pool (task_queue s) (queued_task_count s) (max_queue_size_ s) (is_stopped s) (is_done s)
    (mtx s) (workers s) (stop_flags s) (waiting_thread_count s) (not_full_asleep s)
    (not_full_notified s) (stopper s) o.

(** ** Steps *)

(** What can be observed: a task enters or leaves the queue (taken by a worker,
    discarded by [stop] or handed out by [pop_task]), a worker starts it, a
    submission is refused. *)
Inductive pool_event :=
| EvQueued (task : T) | EvTaken (w : nat) (task : T) | EvDiscarded (task : T) | EvHanded (task : T)
| EvStarted (w : nat) (task : T) | EvRejected (tid : nat) | EvThrown (tid : nat).

(** [i] picks the thread a [notify_one] wakes, when several sleep. *)
Inductive pool_action :=
| Submit (tid : nat) (blocking : bool) (task : T)
| StepSubmit (i : nat)
| WakeSubmit (i : nat)
| StepWorker (w : nat) (i : nat)
| Stop (wait_for_tasks : bool)
| StepStop (i : nat)
| PopTask
| StepOutside (k : nat) (i : nat)
| Spurious (w : nat)             (** a condition variable may wake on its own *)
| SpuriousSubmit (i : nat).

(** [notify_one] on [cv]. *)
Definition notify_worker (s : thread_pool) (i : nat) : option thread_pool :=
  match workers s !! i with
  | Some WAsleep => Some (set_worker s i WNotified)
  | _ => if existsb (fun w => match w with WAsleep => true | _ => false end) (workers s)
         then None else Some s
  end.

(** [notify_one] on [cv_not_full]. *)
Definition notify_not_full (s : thread_pool) (i : nat) : option thread_pool :=
  match not_full_asleep s !! i with
  | Some p => Some (set_not_full s (delete i (not_full_asleep s)) (p :: not_full_notified s))
  | None => match not_full_asleep s with [] => Some s | _ => None end
  end.

(** One step of [on_task_dequeued]; [inr] is its end. *)
(* src/src/util/thread_pool.h:208-214 thread_pool::on_task_dequeued *)
Definition dequeued_step (s : thread_pool) (d : dequeue_pc) (i : nat)
  : option (thread_pool * option dequeue_pc) :=
  match d with
  | DSub =>
      let previous := queued_task_count s in
      Some (set_queue s (task_queue s) (u64 (previous - 1)),
            Some (if previous =? 0 then DFix else DNotify))
  | DFix => Some (set_queue s (task_queue s) 0, Some DNotify)
  | DNotify => s' ← notify_not_full s i; Some (s', None)
  end.

Definition stopping (s : thread_pool) : bool := is_stopped s || is_done s.

Definition with_pc (p : submitter) (pc : submit_pc) : option owner :=
  Some (OSubmitter (mk_submitter (s_tid p) (s_blocking p) (s_task p) pc)).

(* src/src/util/thread_pool.h:119-169 thread_pool::push *)
Definition submit_step (s : thread_pool) (p : submitter) (i : nat)
  : option (thread_pool * list pool_event) :=
  match s_pc p with
  | PTest =>
      if s_blocking p then
        if (queued_task_count s <? max_queue_size_ s) || stopping s
        then Some (set_mtx s (with_pc p PStopTest), [])
        else Some (set_mtx (set_not_full s (not_full_asleep s ++ [p]) (not_full_notified s)) None, [])
      else if (max_queue_size_ s <=? queued_task_count s) || stopping s
           then Some (set_mtx s None, [EvRejected (s_tid p)])
           else Some (set_mtx s (with_pc p PEnqueue), [])
  | PStopTest =>
      if stopping s then Some (set_mtx s None, [EvThrown (s_tid p)])
      else Some (set_mtx s (with_pc p PEnqueue), [])
  | PEnqueue =>
      Some (set_mtx (set_queue s (task_queue s ++ [s_task p]) (queued_task_count s)) (with_pc p PAdd),
            [EvQueued (s_task p)])
  | PAdd =>
      Some (set_mtx (set_queue s (task_queue s) (u64 (queued_task_count s + 1))) (with_pc p PNotify), [])
  | PNotify => s' ← notify_worker s i; Some (set_mtx s' None, [])
  end.

(** [try_pop] by a worker. *)
Definition take (s : thread_pool) (w : nat) : option (thread_pool * list pool_event) :=
  match task_queue s with
  | [] => None
  | task :: q =>
      Some (set_worker (set_queue s q (queued_task_count s)) w (WDequeued DSub task), [EvTaken w task])
  end.

(** The worker's loop.  [waiting_thread_count] counts from the locking before
    [cv.wait] to its return. *)
(* src/src/util/thread_pool.h:174-206 thread_pool::set_thread *)
Definition worker_step (s : thread_pool) (w : nat) (i : nat)
  : option (thread_pool * list pool_event) :=
  pc ← workers s !! w;
  let waiting := waiting_thread_count s in
  match pc with
  | WTryPop =>
      match take s w with
      | Some r => Some r
      | None => Some (set_worker s w WLock, [])
      end
  | WDequeued d task =>
      '(s', d') ← dequeued_step s d i;
      Some (set_worker s' w (match d' with Some d' => WDequeued d' task | None => WRun task end), [])
  | WRun task => Some (set_worker s w WFlag, [EvStarted w task])
  | WFlag => Some (set_worker s w (if default false (stop_flags s !! w) then WExit else WTryPop), [])
  | WLock =>
      match mtx s with
      | Some _ => None
      | None =>
          Some (set_mtx (set_workers s (<[w := WPredicate]> (workers s)) (waiting + 1))
                  (Some (OWorker w)), [])
      end
  | WPredicate =>
      match take s w with
      | Some (s', evs) => Some (set_mtx (set_workers s' (workers s') (waiting - 1)) None, evs)
      | None =>
          if is_done s || default false (stop_flags s !! w)
          then Some (set_mtx (set_workers s (<[w := WExit]> (workers s)) (waiting - 1)) None, [])
          else Some (set_mtx (set_worker s w WAsleep) None, [])
      end
  | WAsleep => None
  | WNotified =>
      match mtx s with
      | Some _ => None
      | None => Some (set_mtx (set_worker s w WPredicate) (Some (OWorker w)), [])
      end
  | WExit => None
  end.

(** [cv.notify_all]. *)
Definition wake_all (ws : list worker_pc) : list worker_pc :=
  (fun w => match w with WAsleep => WNotified | _ => w end) <$> ws.

(** [clear_queue], twice in [stop]. *)
(* src/src/util/thread_pool.h:48-54 thread_pool::clear_queue *)
Definition clear_step (s : thread_pool) (again : bool) : thread_pool * list pool_event :=
  match task_queue s with
  | [] => (set_stop s (is_stopped s) (is_done s) (stop_flags s)
             (Some (if again then SDone else SNotifyAll)), [])
  | task :: q =>
      (set_stop (set_queue s q (queued_task_count s)) (is_stopped s) (is_done s) (stop_flags s)
         (Some (SDequeued again DSub)), [EvDiscarded task])
  end.

(** [SDone] also clears [threads] and [stop_flags], which nobody reads again. *)
(* src/src/util/thread_pool.h:85-117 thread_pool::stop *)
Definition stop_step (s : thread_pool) (pc : stop_pc) (i : nat)
  : option (thread_pool * list pool_event) :=
  let goto s pc := set_stop s (is_stopped s) (is_done s) (stop_flags s) (Some pc) in
  match pc with
  | SFlags k =>
      Some (if (k <? length (stop_flags s))%nat
            then set_stop s (is_stopped s) (is_done s) (<[k := true]> (stop_flags s)) (Some (SFlags (S k)))
            else goto s (SClear false), [])
  | SClear again => Some (clear_step s again)
  | SDequeued again d =>
      '(s', d') ← dequeued_step s d i;
      Some (goto s' (match d' with Some d' => SDequeued again d' | None => SClear again end), [])
  | SNotifyAll =>
      match mtx s with
      | Some _ => None
      | None =>
          let s := set_workers s (wake_all (workers s)) (waiting_thread_count s) in
          Some (goto (set_not_full s [] (not_full_notified s ++ not_full_asleep s)) SJoin, [])
      end
  | SJoin =>
      if forallb (fun w => match w with WExit => true | _ => false end) (workers s)
      then Some (goto s (SClear true), []) else None
  | SDone => None
  end.

(** One step of one thread; [None] is a thread that cannot move.  [pop_task] is
    a pop and [on_task_dequeued] by a thread of the caller. *)
(* src/src/util/thread_pool.h:56-63 thread_pool::pop_task *)
Definition pool_step (a : pool_action) (s : thread_pool)
  : option (thread_pool * list pool_event) :=
  match a with
  | Submit tid blocking task =>
      match mtx s with
      | Some _ => None
      | None => Some (set_mtx s (Some (OSubmitter (mk_submitter tid blocking task PTest))), [])
      end
  | StepSubmit i =>
      match mtx s with
      | Some (OSubmitter p) => submit_step s p i
      | _ => None
      end
  | WakeSubmit i =>
      match mtx s, not_full_notified s !! i with
      | None, Some p =>
          Some (set_mtx (set_not_full s (not_full_asleep s) (delete i (not_full_notified s)))
                  (with_pc p PTest), [])
      | _, _ => None
      end
  | StepWorker w i => worker_step s w i
  | Stop wait_for_tasks =>
      match stopper s with
      | Some SDone | None =>
          if wait_for_tasks then
            if stopping s then None
            else Some (set_stop s (is_stopped s) true (stop_flags s) (Some SNotifyAll), [])
          else if is_stopped s then None
               else Some (set_stop s true (is_done s) (stop_flags s) (Some (SFlags 0)), [])
      | Some _ => None
      end
  | StepStop i => pc ← stopper s; stop_step s pc i
  | PopTask =>
      match task_queue s with
      | [] => None
      | task :: q =>
          Some (set_outside (set_queue s q (queued_task_count s)) (DSub :: outside s), [EvHanded task])
      end
  | StepOutside k i =>
      d ← outside s !! k;
      '(s', d') ← dequeued_step s d i;
      Some (set_outside s' (match d' with Some d' => <[k := d']> (outside s)
                            | None => delete k (outside s) end), [])
  | Spurious w =>
      match workers s !! w with
      | Some WAsleep => Some (set_worker s w WNotified, [])
      | _ => None
      end
  | SpuriousSubmit i =>
      match not_full_asleep s !! i with
      | Some p => Some (set_not_full s (delete i (not_full_asleep s)) (p :: not_full_notified s), [])
      | None => None
      end
  end.

(** A schedule; a thread that cannot move is skipped. *)
Definition pool_exec (st : thread_pool * list pool_event) (a : pool_action)
  : thread_pool * list pool_event :=
  match pool_step a st.1 with
  | Some (s', evs) => (s', st.2 ++ evs)
  | None => st
  end.

(** ** Observations *)

Definition queued (evs : list pool_event) : list T :=
  omap (fun e => match e with EvQueued t => Some t | _ => None end) evs.
Definition removed (evs : list pool_event) : list T :=
  omap (fun e => match e with EvTaken _ t | EvDiscarded t | EvHanded t => Some t | _ => None end) evs.
Definition taken (evs : list pool_event) : list T :=
  omap (fun e => match e with EvTaken _ t => Some t | _ => None end) evs.
Definition discarded (evs : list pool_event) : list T :=
  omap (fun e => match e with EvDiscarded t => Some t | _ => None end) evs.
Definition handed (evs : list pool_event) : list T :=
  omap (fun e => match e with EvHanded t => Some t | _ => None end) evs.
Definition started (evs : list pool_event) : list T :=
  omap (fun e => match e with EvStarted _ t => Some t | _ => None end) evs.

(** The task a worker holds and has not started. *)
Definition held (w : worker_pc) : option T :=
  match w with WDequeued _ t | WRun t => Some t | _ => None end.

Definition in_hand (s : thread_pool) : list T := omap held (workers s).

Definition awake (w : worker_pc) : Prop :=
  match w with WAsleep | WExit => False | _ => True end.

(** A submitter that has enqueued and not yet notified. *)
Definition about_to_notify (s : thread_pool) : Prop :=
  match mtx s with
  | Some (OSubmitter p) => s_pc p = PAdd \/ s_pc p = PNotify
  | _ => False
  end.

(** The stopping thread has passed the lock. *)
Definition past_lock (pc : option stop_pc) : bool :=
  match pc with Some SJoin | Some (SClear true) | Some (SDequeued true _) | Some SDone => true | _ => false end.

Definition joined (pc : option stop_pc) : bool :=
  match pc with Some (SClear true) | Some (SDequeued true _) | Some SDone => true | _ => false end.

Definition may_enqueue (s : thread_pool) : Prop :=
  match mtx s with
  | Some (OSubmitter p) => s_pc p = PEnqueue \/ s_pc p = PAdd \/ s_pc p = PNotify
  | _ => False
  end.

(** ** Invariant *)

Record pool_inv (s : thread_pool) (evs : list pool_event) : Prop := {
  inv_order : queued evs = removed evs ++ task_queue s;
  inv_hand : taken evs ≡ₚ started evs ++ in_hand s;
  inv_running : stopping s = false ->
    stopper s = None /\ Forall (fun w => w <> WExit) (workers s) /\ Forall (fun f => f = false) (stop_flags s);
  inv_awake : stopping s = false -> workers s <> [] -> task_queue s <> [] ->
    about_to_notify s \/ Exists awake (workers s);
  inv_stopper : stopper s <> None -> stopping s = true;
  inv_past : past_lock (stopper s) = true -> ~ may_enqueue s;
  inv_joined : joined (stopper s) = true -> Forall (fun w => w = WExit) (workers s);
  inv_done : stopper s = Some SDone -> task_queue s = [];
}.

(** ** Lemmas *)

(** The fields the invariant reads. *)
Definition same_core (s s' : thread_pool) : Prop :=
  task_queue s' = task_queue s /\ workers s' = workers s /\ stop_flags s' = stop_flags s /\
  is_stopped s' = is_stopped s /\ is_done s' = is_done s /\ stopper s' = stopper s /\ mtx s' = mtx s.

Lemma inv_core s s' evs : same_core s s' -> pool_inv s evs -> pool_inv s' evs.
Proof.
  intros (E1 & E2 & E3 & E4 & E5 & E6 & E7) [H1 H2 H3 H4 H5 H6 H7 H8].
  constructor; unfold in_hand, stopping, about_to_notify, may_enqueue in *;
    by rewrite ?E1, ?E2, ?E3, ?E4, ?E5, ?E6, ?E7.
Qed.

Lemma dequeued_step_core s d i s' d' : dequeued_step s d i = Some (s', d') -> same_core s s'.
Proof.
  destruct d; simpl; intros H; simplify_eq; [done|done|].
  unfold notify_not_full in H. repeat (case_match; simplify_eq/=; try done).
Qed.

Lemma obs_app {B} (f : pool_event -> option B) e1 e2 : omap f (e1 ++ e2) = omap f e1 ++ omap f e2.
Proof. apply omap_app. Qed.

(** Moving one worker moves one task in or out of hand. *)
Lemma hand_update ws w pc pc' :
  ws !! w = Some pc ->
  option_list (held pc') ++ omap held ws ≡ₚ option_list (held pc) ++ omap held (<[w := pc']> ws).
Proof.
  intros Hw. rewrite insert_take_drop by (by eapply lookup_lt_Some).
  rewrite <- (take_drop_middle ws w pc Hw) at 1. rewrite !omap_app. simpl.
  destruct (held pc), (held pc'); simpl; solve_Permutation.
Qed.

Lemma perm_balance (old new te st c c' : list T) :
  te ++ c = st ++ c' -> c' ++ old ≡ₚ c ++ new -> old ++ te ≡ₚ st ++ new.
Proof.
  intros Ht Hh. apply (Permutation_app_inv_l c).
  rewrite (Permutation_app_comm old te), (app_assoc c), (Permutation_app_comm c te), Ht.
  rewrite <- app_assoc, Hh. solve_Permutation.
Qed.

Lemma exists_awake_insert ws w pc :
  (w < length ws)%nat -> awake pc -> Exists awake (<[w := pc]> ws).
Proof.
  intros Hw Hp. apply Exists_exists. exists pc. split; [|done].
  apply list_elem_of_lookup. exists w. by apply list_lookup_insert_eq.
Qed.

(** The whole-machine view of a step of worker [w] from [pc] to [pc']. *)
Lemma worker_update_inv s s' evs es w pc pc' q :
  pool_inv s evs -> workers s !! w = Some pc -> workers s' = <[w := pc']> (workers s) ->
  stop_flags s' = stop_flags s -> is_stopped s' = is_stopped s -> is_done s' = is_done s ->
  stopper s' = stopper s -> task_queue s' = q -> pc <> WExit ->
  queued es = [] -> task_queue s = removed es ++ q ->
  taken es ++ option_list (held pc) = started es ++ option_list (held pc') ->
  (may_enqueue s' -> may_enqueue s) ->
  (stopping s = false -> pc' <> WExit /\ (q <> [] -> awake pc')) ->
  pool_inv s' (evs ++ es).
Proof.
  intros [H1 H2 H3 H4 H5 H6 H7 H8] Hw Ew Ef Es Ed Ep Eq Hne Hq Hr Ht Hm Hs.
  assert (stopping s' = stopping s) as Est by (unfold stopping; by rewrite Es, Ed).
  pose proof (hand_update _ _ _ pc' Hw) as Hh.
  constructor; unfold in_hand in *; rewrite ?Est, ?Ep, ?Ew, ?Ef, ?Eq.
  - unfold queued, removed in *. rewrite !obs_app, Hq, H1, app_nil_r, Hr. by rewrite app_assoc.
  - unfold taken, started in *. rewrite !obs_app, H2.
    by rewrite <- !app_assoc, (perm_balance _ _ _ _ _ _ Ht Hh).
  - intros E. destruct (H3 E) as (? & Hf & ?). split_and!; [done| |done].
    apply Forall_insert; [done|]. by apply Hs.
  - intros E _ Hne'. right. apply exists_awake_insert; [by eapply lookup_lt_Some|]. by apply Hs.
  - done.
  - intros E Hm'. by apply (H6 E), Hm.
  - intros E. specialize (H7 E). exfalso. apply Hne.
    by apply (proj1 (Forall_lookup _ _) H7 w).
  - intros E. rewrite E in H7. specialize (H7 eq_refl). exfalso. apply Hne.
    by apply (proj1 (Forall_lookup _ _) H7 w).
Qed.

(** Taking the first task. *)
Lemma take_spec s w s' es :
  take s w = Some (s', es) -> exists task q, task_queue s = task :: q /\ es = [EvTaken w task] /\
    s' = set_worker (set_queue s q (queued_task_count s)) w (WDequeued DSub task).
Proof. unfold take. destruct (task_queue s); intros; simplify_eq; eauto. Qed.

Lemma take_none s w : take s w = None -> task_queue s = [].
Proof. unfold take. by destruct (task_queue s). Qed.

Lemma worker_step_inv s evs w i s' es :
  pool_inv s evs -> worker_step s w i = Some (s', es) -> pool_inv s' (evs ++ es).
Proof.
  intros Hi Hs. unfold worker_step in Hs. destruct (workers s !! w) as [pc|] eqn:Hw; [|done].
  simpl in Hs. destruct pc as [|d task|task| | | | | |]; try done.
  - destruct (take s w) as [[s1 es1]|] eqn:Et; simplify_eq.
    + apply take_spec in Et as (task & q & Hq & -> & ->).
      by eapply (worker_update_inv s _ _ _ w WTryPop (WDequeued DSub task) q).
    + eapply (worker_update_inv s _ _ _ w WTryPop WLock (task_queue s)); done.
  - destruct (dequeued_step s d i) as [[s1 d']|] eqn:Ed; simplify_eq/=.
    apply dequeued_step_core in Ed as Hc. pose proof (inv_core _ _ _ Hc Hi) as Hi1.
    destruct Hc as (_ & Ew & _). rewrite <- Ew in Hw.
    destruct d' as [d'|].
    + by eapply (worker_update_inv s1 _ _ _ w _ (WDequeued d' task) (task_queue s1)).
    + by eapply (worker_update_inv s1 _ _ _ w _ (WRun task) (task_queue s1)).
  - simplify_eq. by eapply (worker_update_inv s _ _ _ w _ WFlag (task_queue s)).
  - simplify_eq. eapply (worker_update_inv s _ _ _ w WFlag _ (task_queue s)); try done.
    + by destruct (default false (stop_flags s !! w)).
    + intros E. destruct (inv_running _ _ Hi E) as (_ & _ & Hf).
      destruct (stop_flags s !! w) as [f|] eqn:Ef; simpl; [|done].
      by rewrite (proj1 (Forall_lookup _ _) Hf w f Ef).
  - destruct (mtx s) eqn:Em; simplify_eq.
    eapply (worker_update_inv s _ _ _ w WLock WPredicate (task_queue s)); done.
  - destruct (take s w) as [[s1 es1]|] eqn:Et; simplify_eq.
    + apply take_spec in Et as (task & q & Hq & -> & ->).
      by eapply (worker_update_inv s _ _ _ w WPredicate (WDequeued DSub task) q).
    + apply take_none in Et. destruct (is_done s || default false (stop_flags s !! w)) eqn:E; simplify_eq.
      * eapply (worker_update_inv s _ _ _ w WPredicate WExit []); try done.
        intros Es. destruct (inv_running _ _ Hi Es) as (_ & _ & Hf).
        unfold stopping in Es. hp_bool. exfalso. destruct (is_done s); [done|]. simpl in E.
        destruct (stop_flags s !! w) as [f|] eqn:Ef; [|done]. simpl in E. subst f.
        by specialize (proj1 (Forall_lookup _ _) Hf w true Ef).
      * by eapply (worker_update_inv s _ _ _ w WPredicate WAsleep []).
  - destruct (mtx s) eqn:Em; simplify_eq.
    eapply (worker_update_inv s _ _ _ w WNotified WPredicate (task_queue s)); done.
Qed.

Lemma obs_nil evs : evs ++ ([] : list pool_event) = evs.
Proof. apply app_nil_r. Qed.

(** Handing [mtx] over, or moving its holder on, without enqueueing. *)
Lemma set_mtx_inv s evs m :
  pool_inv s evs ->
  (about_to_notify s -> about_to_notify (set_mtx s m)) ->
  (may_enqueue (set_mtx s m) -> may_enqueue s \/ past_lock (stopper s) = false) ->
  pool_inv (set_mtx s m) evs.
Proof.
  intros [H1 H2 H3 H4 H5 H6 H7 H8] Ha Hm. constructor; try done.
  - intros E1 E2 E3. destruct (H4 E1 E2 E3) as [?|?]; [left; by apply Ha|by right].
  - intros E Hm'. destruct (Hm Hm') as [?|E']; [by apply (H6 E)|]. simpl in E. congruence.
Qed.

(** An observation that concerns no task. *)
Lemma no_task_event s evs es :
  queued es = [] -> removed es = [] -> taken es = [] -> started es = [] ->
  pool_inv s evs -> pool_inv s (evs ++ es).
Proof.
  intros Eq Er Et Es [H1 H2 H3 H4 H5 H6 H7 H8]. constructor; try done.
  - unfold queued, removed in *. by rewrite !obs_app, Eq, Er, !app_nil_r.
  - unfold taken, started in *. by rewrite !obs_app, Et, Es, !app_nil_r.
Qed.

Lemma not_past s evs : pool_inv s evs -> stopping s = false -> past_lock (stopper s) = false.
Proof. intros Hi E. destruct (inv_running _ _ Hi E) as (-> & _). done. Qed.

Lemma held_notified ws i :
  ws !! i = Some WAsleep -> omap held (<[i := WNotified]> ws) ≡ₚ omap held ws.
Proof. intros Hi. by pose proof (hand_update ws i WAsleep WNotified Hi) as Hh. Qed.

Lemma notify_worker_inv s evs i s' :
  pool_inv s evs -> notify_worker s i = Some s' ->
  pool_inv (set_mtx s' None) evs.
Proof.
  intros Hi Hn. unfold notify_worker in Hn. pose proof Hi as [H1 H2 H3 H4 H5 H6 H7 H8].
  assert (s' = set_worker s i WNotified /\ workers s !! i = Some WAsleep \/
          s' = s /\ existsb (fun w => match w with WAsleep => true | _ => false end) (workers s) = false)
    as [[-> Ha]|[-> Hno]].
  { destruct (workers s !! i) as [[]|] eqn:E; try (left; by simplify_eq);
      destruct (existsb _ _) eqn:Ex; simplify_eq; by right. }
  - constructor; try done.
    + unfold in_hand. simpl. by rewrite held_notified.
    + intros E. destruct (H3 E) as (? & Hf & ?). split_and!; [done|by apply Forall_insert|done].
    + intros E _ _. right. simpl. apply exists_awake_insert; [by eapply lookup_lt_Some|done].
    + by intros _ Hx.
    + intros E. specialize (H7 E). by pose proof (proj1 (Forall_lookup _ _) H7 i _ Ha).
  - constructor; try done.
    + intros E Hne _. right. simpl. destruct (H3 E) as (_ & Hf & _). simpl in Hne.
      destruct (workers s) as [|w ws]; [done|]. apply Exists_cons. left.
      apply Forall_cons in Hf as [Hx _]. destruct w; try done.
    + by intros _ Hx.
Qed.

Lemma submit_step_inv s evs p i s' es :
  pool_inv s evs -> mtx s = Some (OSubmitter p) -> submit_step s p i = Some (s', es) ->
  pool_inv s' (evs ++ es).
Proof.
  intros Hi Hm Hs. unfold submit_step in Hs. destruct (s_pc p) eqn:Ep; simpl in Hs.
  - assert (~ about_to_notify s) as Hna by (unfold about_to_notify; rewrite Hm, Ep; naive_solver).
    destruct (s_blocking p).
    + destruct (_ || stopping s); simplify_eq; rewrite app_nil_r.
      * apply set_mtx_inv; [done|by intros ?%Hna|]. unfold may_enqueue. simpl. naive_solver.
      * apply (set_mtx_inv (set_not_full s _ _)); [by eapply inv_core; [|exact Hi]|by intros ?%Hna|by intros []].
    + destruct (_ || stopping s) eqn:E; simplify_eq.
      * apply no_task_event; try done. apply set_mtx_inv; [done|by intros ?%Hna|by intros []].
      * hp_bool. rewrite app_nil_r. apply set_mtx_inv; [done|by intros ?%Hna|]. right. by eapply not_past.
  - assert (~ about_to_notify s) as Hna by (unfold about_to_notify; rewrite Hm, Ep; naive_solver).
    destruct (stopping s) eqn:E; simplify_eq.
    + apply no_task_event; try done. apply set_mtx_inv; [done|by intros ?%Hna|by intros []].
    + rewrite app_nil_r. apply set_mtx_inv; [done|by intros ?%Hna|]. right. by eapply not_past.
  - simplify_eq. assert (may_enqueue s) as Hme by (unfold may_enqueue; rewrite Hm; auto).
    destruct Hi as [H1 H2 H3 H4 H5 H6 H7 H8].
    assert (past_lock (stopper s) = false) as Hpl.
    { destruct (past_lock (stopper s)) eqn:E; [|done]. by destruct (H6 eq_refl). }
    constructor; try done.
    + unfold queued, removed in *. rewrite !obs_app, H1. simpl. by rewrite app_nil_r, app_assoc.
    + unfold taken, started in *. rewrite !obs_app, H2. simpl. by rewrite !app_nil_r.
    + intros _ _ _. left. by left.
    + simpl. congruence.
    + simpl. intros E. rewrite E in Hpl. done.
  - simplify_eq. rewrite app_nil_r. assert (may_enqueue s) as Hme by (unfold may_enqueue; rewrite Hm; auto).
    apply (set_mtx_inv (set_queue s _ _)); [by eapply inv_core; [|exact Hi]| |by left].
    intros _. by right.
  - destruct (notify_worker s i) as [s1|] eqn:En; simplify_eq/=. rewrite app_nil_r.
    by eapply notify_worker_inv.
Qed.

Lemma held_wake_all ws : omap held (wake_all ws) = omap held ws.
Proof.
  unfold wake_all. induction ws as [|w ws IH]; [done|].
  destruct w; simpl; first [exact IH|f_equal; exact IH].
Qed.

(** A step of the stopping thread: the queue may lose its first task. *)
Lemma stop_move_inv s evs es q pc ws fl :
  pool_inv s evs -> stopping s = true ->
  queued es = [] -> task_queue s = removed es ++ q -> taken es = [] -> started es = [] ->
  omap held ws = omap held (workers s) ->
  (past_lock (Some pc) = true -> ~ may_enqueue s) ->
  (joined (Some pc) = true -> Forall (fun w => w = WExit) ws) ->
  (pc = SDone -> q = []) ->
  forall s', task_queue s' = q -> workers s' = ws -> stop_flags s' = fl -> stopping s' = true ->
    stopper s' = Some pc -> mtx s' = mtx s -> pool_inv s' (evs ++ es).
Proof.
  intros [H1 H2 H3 H4 H5 H6 H7 H8] Hst Hq Hr Ht Hsd Hh Hp Hj Hd s' E1 E2 E3 E4 E5 E6.
  constructor; unfold in_hand, may_enqueue, about_to_notify in *;
    rewrite ?E1, ?E2, ?E3, ?E4, ?E5, ?E6; try done.
  - unfold queued, removed in *. rewrite !obs_app, Hq, H1, app_nil_r, Hr. by rewrite app_assoc.
  - unfold taken, started in *. by rewrite !obs_app, H2, Ht, Hsd, !app_nil_r, Hh.
  - intros [= ->]. by apply Hd.
Qed.

Lemma stop_step_inv s evs pc i s' es :
  pool_inv s evs -> stopper s = Some pc -> stop_step s pc i = Some (s', es) ->
  pool_inv s' (evs ++ es).
Proof.
  intros Hi Hpc Hs. assert (stopping s = true) as Hst by (apply (inv_stopper _ _ Hi); by rewrite Hpc).
  pose proof Hi as [H1 H2 H3 H4 H5 H6 H7 H8]. rewrite Hpc in H6, H7, H8.
  destruct pc as [k|again|again d| | |]; simpl in Hs; simplify_eq.
  - destruct (k <? _)%nat; [by eapply (stop_move_inv s evs [] (task_queue s) (SFlags (S k)))|].
    by eapply (stop_move_inv s evs [] (task_queue s) (SClear false)).
  - unfold clear_step in Hs. destruct (task_queue s) as [|task q] eqn:Eq; simplify_eq.
    + destruct again.
      * by eapply (stop_move_inv s evs [] [] SDone).
      * by eapply (stop_move_inv s evs [] [] SNotifyAll).
    + by eapply (stop_move_inv s evs _ q (SDequeued again DSub)); try done; destruct again.
  - destruct (dequeued_step s d i) as [[s1 d']|] eqn:Ed; simplify_eq/=.
    apply dequeued_step_core in Ed as Hc. pose proof (inv_core _ _ _ Hc Hi) as Hi1.
    destruct Hc as (C1 & C2 & C3 & C4 & C5 & C6 & C7).
    assert (stopping s1 = true) as Hst1 by (unfold stopping in *; by rewrite C4, C5).
    assert (past_lock (Some (SDequeued again d)) = true -> ~ may_enqueue s1) as H6'
      by (unfold may_enqueue; by rewrite C7).
    assert (joined (Some (SDequeued again d)) = true -> Forall (fun w => w = WExit) (workers s1)) as H7'
      by (by rewrite C2).
    destruct d' as [d'|].
    + by eapply (stop_move_inv s1 evs [] (task_queue s1) (SDequeued again d')); try done; destruct again.
    + by eapply (stop_move_inv s1 evs [] (task_queue s1) (SClear again)); try done; destruct again.
  - destruct (mtx s) eqn:Em; simplify_eq.
    eapply (stop_move_inv s evs [] (task_queue s) SJoin (wake_all (workers s))); try done.
    + apply held_wake_all.
    + intros _ Hx. unfold may_enqueue in Hx. by rewrite Em in Hx.
  - destruct (forallb _ _) eqn:Ef; simplify_eq.
    eapply (stop_move_inv s evs [] (task_queue s) (SClear true) (workers s)); try done.
    intros _. apply Forall_forall. intros w Hw. rewrite forallb_forall in Ef.
    specialize (Ef w). destruct w; try done; (discriminate Ef || idtac); by specialize (Ef (proj1 (list_elem_of_In _ _) Hw)).
Qed.

Lemma pool_step_inv a s evs s' es :
  pool_inv s evs -> pool_step a s = Some (s', es) -> pool_inv s' (evs ++ es).
Proof.
  intros Hi Hs. destruct a as [tid b task|i|i|w i|wait|i| |k i|w|i]; simpl in Hs.
  - destruct (mtx s) eqn:Em; simplify_eq. rewrite app_nil_r. apply set_mtx_inv; [done| |].
    + unfold about_to_notify. by rewrite Em.
    + unfold may_enqueue. simpl. naive_solver.
  - destruct (mtx s) as [[p|]|] eqn:Em; try done. by eapply submit_step_inv.
  - destruct (mtx s) eqn:Em; [done|]. destruct (not_full_notified s !! i); simplify_eq. rewrite app_nil_r.
    apply (set_mtx_inv (set_not_full s _ _)); [by eapply inv_core; [|exact Hi]| |].
    + unfold about_to_notify. simpl. by rewrite Em.
    + unfold may_enqueue. simpl. naive_solver.
  - by eapply worker_step_inv.
  - assert (es = []) as -> by (repeat case_match; by simplify_eq).
    assert (exists st dn pc, s' = set_stop s st dn (stop_flags s) (Some pc) /\ st || dn = true /\
              past_lock (Some pc) = false /\ joined (Some pc) = false /\ pc <> SDone)
      as (st & dn & pc & -> & Hst & Hpl & Hj & Hsd).
    { destruct (stopper s) as [[]|]; try done; destruct wait;
        repeat case_match; simplify_eq; do 3 eexists; split_and!;
        try reflexivity; try done; by destruct (is_stopped s). }
    rewrite app_nil_r. destruct Hi as [H1 H2 H3 H4 H5 H6 H7 H8].
    constructor; try done; unfold stopping; cbn [stopper is_stopped is_done set_stop].
    all: intros E; rewrite ?Hst, ?Hpl, ?Hj in E; congruence.
  - destruct (stopper s) as [pc|] eqn:Ep; [|done]. by eapply stop_step_inv.
  - destruct (task_queue s) as [|task q] eqn:Eq; simplify_eq.
    destruct Hi as [H1 H2 H3 H4 H5 H6 H7 H8]. constructor; try done; simpl.
    + unfold queued, removed in *. rewrite !obs_app, H1, Eq. simpl. by rewrite app_nil_r, <- app_assoc.
    + unfold taken, started in *. rewrite !obs_app, H2. simpl. by rewrite !app_nil_r.
    + intros E Hne _. apply H4; [done|done|by rewrite Eq].
    + intros E. specialize (H8 E). congruence.
  - destruct (outside s !! k) as [d|]; [|done]. simpl in Hs.
    destruct (dequeued_step s d i) as [[s1 d']|] eqn:Ed; simplify_eq/=. rewrite app_nil_r.
    apply dequeued_step_core in Ed. eapply inv_core; [|exact Hi].
    by destruct Ed as (? & ? & ? & ? & ? & ? & ?).
  - destruct (workers s !! w) as [[]|] eqn:Ew; simplify_eq.
    by eapply (worker_update_inv s _ _ _ w WAsleep WNotified (task_queue s)).
  - destruct (not_full_asleep s !! i); simplify_eq. rewrite app_nil_r. by eapply inv_core; [|exact Hi].
Qed.

End pool.

Arguments thread_pool : clear implicits.
Arguments pool_event : clear implicits.
Arguments pool_action : clear implicits.
Arguments worker_pc : clear implicits.
Arguments submitter : clear implicits.
Arguments owner : clear implicits.

Lemma pool_exec_inv {T} (acts : list (pool_action T)) s evs :
  pool_inv s evs ->
  pool_inv (foldl pool_exec (s, evs) acts).1 (foldl pool_exec (s, evs) acts).2.
Proof.
  revert s evs. induction acts as [|a acts IH]; intros s evs Hi; cbn [foldl]; [done|].
  destruct (pool_exec (s, evs) a) as [s1 evs1] eqn:E. unfold pool_exec in E. simpl in E.
  destruct (pool_step a s) as [[s' es]|] eqn:Es; simplify_eq; [|by apply IH].
  apply IH. by eapply pool_step_inv.
Qed.

Lemma pool_new_inv {T} n max : pool_inv (pool_new (T := T) n max) [].
Proof.
  constructor; simpl; try done.
  - unfold in_hand. simpl. induction n; simpl; [done|exact IHn].
  - intros _. split_and!; [done|by apply Forall_replicate|by apply Forall_replicate].
Qed.

(** ** The count of queued tasks drifts *)

(** A pool of one worker whose queue is empty and whose count is at the limit;
    submitters may come and go, and waiting threads may wake and sleep again. *)
Record saturated {T} (s : thread_pool T) : Prop := {
  sat_queue : task_queue s = [];
  sat_count : queued_task_count s = max_queue_size_ s;
  sat_stop : stopping s = false /\ stopper s = None /\ stop_flags s = [false];
  sat_outside : outside s = [];
  sat_worker : mtx s = Some (OWorker 0) /\ workers s = [WPredicate] \/
    (workers s = [WAsleep] \/ workers s = [WNotified]) /\
    (mtx s = None \/ exists p, mtx s = Some (OSubmitter p) /\ s_pc p = PTest);
}.

Definition not_stop {T} (a : pool_action T) : Prop :=
  match a with Stop _ => False | _ => True end.

Definition rejection {T} (e : pool_event T) : Prop :=
  match e with EvRejected _ => True | _ => False end.

Lemma saturated_step {T} (s : thread_pool T) a s' es :
  saturated s -> not_stop a -> pool_step a s = Some (s', es) ->
  saturated s' /\ Forall rejection es.
Proof.
  intros [H1 H2 (H3 & H4 & H5) H6 H7] Ha Hs. destruct a as [tid b task|i|i|w i|wait|i| |k i|w|i]; simpl in Hs.
  - destruct H7 as [[Em _]|[Hw [Em|(p & Em & _)]]]; rewrite Em in Hs; simplify_eq. split; [|constructor].
    constructor; try done. right. split; [done|]. right. eexists. split; [reflexivity|done].
  - destruct H7 as [[Em _]|[Hw [Em|(p & Em & Ep)]]]; rewrite Em in Hs; try done.
    unfold submit_step in Hs. rewrite Ep, H3, H2, Z.ltb_irrefl, Z.leb_refl in Hs.
    destruct (s_blocking p); simplify_eq/=; (split; [|by repeat constructor]);
      (constructor; try done; right; split; [done|by left]).
  - destruct H7 as [[Em _]|[Hw [Em|(p & Em & _)]]]; rewrite Em in Hs; try done.
    destruct (not_full_notified s !! i); simplify_eq. split; [|constructor]. constructor; try done.
    right. split; [done|]. right. eexists. split; [reflexivity|done].
  - unfold worker_step in Hs. unfold stopping in H3. hp_bool.
    destruct H7 as [[Em Hw]|[[Hw|Hw] Hm]]; rewrite Hw in Hs; (destruct w as [|w]; [|done]); simpl in Hs.
    + unfold take in Hs. rewrite H1, H5 in Hs. destruct (is_done s) eqn:Ed; simplify_eq/=.
      split; [|constructor]. constructor; try done; simpl.
      { split_and!; [|done|done]. unfold stopping. simpl. by apply orb_false_iff. }
      rewrite Hw. right. split; [by left|by left].
    + done.
    + destruct Hm as [Em|(p & Em & _)]; rewrite Em in Hs; simplify_eq/=. split; [|constructor].
      constructor; try done; simpl.
      { split_and!; [|done|done]. unfold stopping. simpl. by apply orb_false_iff. }
      rewrite Hw. by left.
  - done.
  - by rewrite H4 in Hs.
  - by rewrite H1 in Hs.
  - by rewrite H6 in Hs.
  - destruct H7 as [[Em Hw]|[[Hw|Hw] Hm]]; rewrite Hw in Hs; (destruct w as [|w]; [|done]); simplify_eq/=.
    split; [|constructor]. constructor; try done; simpl. rewrite Hw. right. split; [by right|done].
  - destruct (not_full_asleep s !! i); simplify_eq. split; [|constructor]. by constructor.
Qed.

Lemma saturated_forever {T} (s : thread_pool T) evs acts :
  saturated s -> Forall not_stop acts ->
  exists es, (foldl pool_exec (s, evs) acts).2 = evs ++ es /\ Forall rejection es.
Proof.
  intros Hs Ha. revert s evs Hs. induction Ha as [|a acts Ha _ IH]; intros s evs Hs; cbn [foldl].
  - exists []. by rewrite app_nil_r.
  - destruct (pool_exec (s, evs) a) as [s1 evs1] eqn:E. unfold pool_exec in E. simpl in E.
    destruct (pool_step a s) as [[s' es]|] eqn:Es; simplify_eq; [|by apply IH].
    destruct (saturated_step _ _ _ _ Hs Ha Es) as [Hs' Hes].
    destruct (IH s1 (evs ++ es) Hs') as (es' & -> & Hes'). exists (es ++ es').
    split; [by rewrite app_assoc|by apply Forall_app].
Qed.

(** The worker takes the task between its enqueueing and the [fetch_add]. *)
Definition drift_schedule {T} (x : T) : list (pool_action T) :=
  [Submit 1 false x; StepSubmit 0; StepSubmit 0;
   StepWorker 0 0; StepWorker 0 0; StepWorker 0 0;
   StepSubmit 0; StepSubmit 0;
   StepWorker 0 0; StepWorker 0 0; StepWorker 0 0; StepWorker 0 0; StepWorker 0 0; StepWorker 0 0].

(** The count drifts and the pool saturates.  A worker that takes a task
    between its enqueueing and the count's [fetch_add] makes [on_task_dequeued]
    reset a count of 0 to 0 before the addition: with one worker and a limit of
    one, the task runs, the worker sleeps, the queue is empty, and yet the
    count stays at the limit: every later submission, under every schedule
    without a [stop], is refused (or a [push] sleeps for ever). *)
Theorem pool_count_drifts {T} (x : T) :
  let '(s, evs) := foldl pool_exec (pool_new 1 1, []) (drift_schedule x) in
  started evs = [x] /\ task_queue s = [] /\ workers s = [WAsleep] /\
  queued_task_count s = max_queue_size_ s /\
  forall acts, Forall not_stop acts ->
    exists es, (foldl pool_exec (s, evs) acts).2 = evs ++ es /\ Forall rejection es.
Proof.
  destruct (foldl pool_exec (pool_new 1 1, []) (drift_schedule x)) as [s evs] eqn:E.
  vm_compute in E. injection E as <- <-. split_and!; try reflexivity.
  intros acts Ha. apply saturated_forever; [|done]. constructor; try done. right. split; by left.
Qed.
