(* ===== verification/PoolTasks.v ===== *)
(** * PoolTasks: what becomes of the tasks of [thread_pool]

    Over the step machine of ThreadPool: every accepted task is accounted for,
    whichever way the pool is stopped.  [stop(true)] drains the queue: as long
    as [stop(false)] is not called, no task is discarded, because a worker
    returns only when it sees [done] under the lock with an empty queue, and
    from then on nobody can enqueue.  [stop(false)] discards what is queued. *)

From S2P Require Import Prelude ThreadPool.

Local Open Scope Z_scope.

Section tasks.
Context {T : Type}.
Implicit Types (s : thread_pool T) (evs es : list (pool_event T)).

(** Nothing is queued and nothing will be. *)
Definition drained s : Prop := is_done s = true /\ task_queue s = [] /\ ~ may_enqueue s.

(** Only [stop(false)] clears the queue before joining. *)
Definition clears s : Prop :=
  match stopper s with
  | Some (SFlags _) | Some (SClear false) | Some (SDequeued false _) => is_stopped s = true
  | _ => True
  end.

Record kept_inv s evs : Prop := {
  k_pool : pool_inv s evs;
  k_pred : forall w, workers s !! w = Some WPredicate -> mtx s = Some (OWorker w);
  k_flags : is_stopped s = false -> Forall (fun f => f = false) (stop_flags s);
  k_exit : is_stopped s = false -> WExit ∈ workers s -> drained s;
  k_clears : clears s;
  k_kept : is_stopped s = false -> workers s <> [] -> discarded evs = [];
}.

(** ** Lemmas *)

(** After [stop(false)] only the predicate's lock matters. *)
Lemma kept_stopped s evs :
  pool_inv s evs -> is_stopped s = true ->
  (forall w, workers s !! w = Some WPredicate -> mtx s = Some (OWorker w)) -> kept_inv s evs.
Proof.
  intros Hi Hs Hp. constructor; try done; try (rewrite Hs; done).
  unfold clears. destruct (stopper s) as [[|[]|[]| | |]|]; done.
Qed.

(** No worker comes to its predicate or returns. *)
Definition no_new s s' : Prop :=
  (forall w, workers s' !! w = Some WPredicate -> workers s !! w = Some WPredicate) /\
  (WExit ∈ workers s' -> WExit ∈ workers s) /\ (workers s' <> [] -> workers s <> []).

Lemma no_new_same s s' : workers s' = workers s -> no_new s s'.
Proof. intros E. unfold no_new. by rewrite E. Qed.

Lemma discarded_app evs es : discarded (evs ++ es) = discarded evs ++ discarded es.
Proof. apply omap_app. Qed.

Lemma kept_frame s evs s' es :
  kept_inv s evs -> pool_inv s' (evs ++ es) -> no_new s s' ->
  is_stopped s' = is_stopped s -> stop_flags s' = stop_flags s ->
  (is_done s = true -> is_done s' = true) ->
  (drained s -> task_queue s' = [] /\ ~ may_enqueue s') ->
  (forall w, mtx s = Some (OWorker w) -> mtx s' = Some (OWorker w)) -> clears s' ->
  (is_stopped s = false -> workers s <> [] -> discarded es = []) ->
  kept_inv s' (evs ++ es).
Proof.
  intros [_ H2 H3 H4 _ H6] Hi (N1 & N2 & N3) Es Ef Ed Hd Hm Hc He.
  constructor; rewrite ?Es, ?Ef; try done.
  - intros w Hw. by apply Hm, H2, N1.
  - intros Hst Hx. specialize (H4 Hst (N2 Hx)). destruct (Hd H4). destruct H4. split_and!; auto.
  - intros Hst Hne. rewrite discarded_app, H6, He by auto. done.
Qed.

(** What a step of worker [w] from [pc] to [pc'] does to the lock. *)
Definition lock_moves s s' w (pc pc' : worker_pc T) : Prop :=
  (mtx s' = mtx s /\ pc <> WPredicate /\ pc' <> WPredicate) \/
  (mtx s' = None /\ pc = WPredicate /\ pc' <> WPredicate) \/
  (mtx s = None /\ mtx s' = Some (OWorker w) /\ pc' = WPredicate).

Lemma kept_worker s evs s' es w pc pc' :
  kept_inv s evs -> pool_inv s' (evs ++ es) -> workers s !! w = Some pc ->
  workers s' = <[w := pc']> (workers s) ->
  is_stopped s' = is_stopped s -> stop_flags s' = stop_flags s -> is_done s' = is_done s ->
  stopper s' = stopper s -> discarded es = [] -> (task_queue s = [] -> task_queue s' = []) ->
  lock_moves s s' w pc pc' ->
  (is_stopped s = false -> pc' = WExit -> is_done s = true /\ task_queue s = [] /\ mtx s' = None) ->
  kept_inv s' (evs ++ es).
Proof.
  intros [_ H2 H3 H4 H5 H6] Hi Hw Ew Es Ef Ed Ep He Hq Hm Hx.
  assert (may_enqueue s' -> may_enqueue s) as Hme.
  { unfold may_enqueue. destruct Hm as [(-> & _)|[(-> & _)|(_ & -> & _)]]; done. }
  constructor; rewrite ?Es, ?Ef; try done.
  - intros k Hk. rewrite Ew in Hk. destruct (decide (k = w)) as [->|Hne].
    + rewrite list_lookup_insert_eq in Hk by (by eapply lookup_lt_Some). injection Hk as ->.
      by destruct Hm as [(_ & _ & ?)|[(_ & _ & ?)|(_ & ? & _)]].
    + rewrite list_lookup_insert_ne in Hk by done. apply H2 in Hk as Ek.
      destruct Hm as [(-> & _)|[(_ & -> & _)|(En & _)]]; [done| |congruence].
      apply H2 in Hw. congruence.
  - intros Hst Hin. rewrite Ew in Hin. apply list_elem_of_lookup in Hin as [k Hk].
    destruct (decide (k = w)) as [->|Hne].
    + rewrite list_lookup_insert_eq in Hk by (by eapply lookup_lt_Some). injection Hk as ->.
      destruct (Hx Hst eq_refl) as (D1 & D2 & D3). split_and!; [congruence|auto|].
      unfold may_enqueue. rewrite D3. tauto.
    + rewrite list_lookup_insert_ne in Hk by done.
      destruct (H4 Hst) as (D1 & D2 & D3); [apply list_elem_of_lookup; eauto|].
      split_and!; [congruence|auto|auto].
  - unfold clears in *. by rewrite Ep, Es.
  - intros Hst Hne. rewrite discarded_app, He, app_nil_r. apply H6; [done|]. intros En.
    by rewrite En in Hw.
Qed.

Lemma kept_worker_step s evs w i s' es :
  kept_inv s evs -> pool_inv s' (evs ++ es) -> worker_step s w i = Some (s', es) -> kept_inv s' (evs ++ es).
Proof.
  intros Hi Hp Hs. unfold worker_step in Hs. destruct (workers s !! w) as [pc|] eqn:Hw; [|done].
  cbn [mbind option_bind] in Hs. destruct pc as [|d task|task| | | | | |]; try done.
  - destruct (take s w) as [[s1 es1]|] eqn:Et; simplify_eq.
    + apply take_spec in Et as (task & q & Hq & -> & ->).
      eapply (kept_worker s evs _ _ w WTryPop (WDequeued DSub task)); try done; [by rewrite Hq|by left].
    + eapply (kept_worker s evs _ _ w WTryPop WLock); try done. by left.
  - destruct (dequeued_step s d i) as [[s1 d']|] eqn:Ed; simplify_eq/=.
    apply dequeued_step_core in Ed as (E1 & E2 & E3 & E4 & E5 & E6 & E7).
    eapply (kept_worker s evs _ [] w (WDequeued d task)
              (match d' with Some d' => WDequeued d' task | None => WRun task end)); simpl; try done.
    + by rewrite E2.
    + by rewrite E1.
    + left. rewrite <- E7. by destruct d'.
    + by destruct d'.
  - simplify_eq. eapply (kept_worker s evs _ _ w (WRun task) WFlag); try done. by left.
  - simplify_eq. eapply (kept_worker s evs _ _ w WFlag
      (if default false (stop_flags s !! w) then WExit else WTryPop)); try done.
    + left. by destruct (default false _).
    + intros Hst Hx. pose proof (k_flags _ _ Hi Hst) as Hf.
      destruct (stop_flags s !! w) as [f|] eqn:Ef; [|done]. simpl in Hx.
      by rewrite (proj1 (Forall_lookup _ _) Hf w f Ef) in Hx.
  - destruct (mtx s) eqn:Em; simplify_eq.
    eapply (kept_worker s evs _ _ w WLock WPredicate); try done. by right; right.
  - destruct (take s w) as [[s1 es1]|] eqn:Et; simplify_eq.
    + apply take_spec in Et as (task & q & Hq & -> & ->).
      eapply (kept_worker s evs _ _ w WPredicate (WDequeued DSub task)); try done; [by rewrite Hq|by right; left].
    + apply take_none in Et. destruct (is_done s || default false (stop_flags s !! w)) eqn:E; simplify_eq.
      * eapply (kept_worker s evs _ _ w WPredicate WExit); try done; [by right; left|].
        intros Hst _. split_and!; [|done|done]. pose proof (k_flags _ _ Hi Hst) as Hf.
        destruct (is_done s); [done|]. simpl in E. destruct (stop_flags s !! w) as [f|] eqn:Ef; [|done].
        simpl in E. subst f. by specialize (proj1 (Forall_lookup _ _) Hf w true Ef).
      * eapply (kept_worker s evs _ _ w WPredicate WAsleep); try done. by right; left.
  - destruct (mtx s) eqn:Em; simplify_eq.
    eapply (kept_worker s evs _ _ w WNotified WPredicate); try done. by right; right.
Qed.

(** Waking a worker that sleeps. *)
Lemma no_new_notified s s' i :
  workers s !! i = Some WAsleep -> workers s' = <[i := WNotified]> (workers s) -> no_new s s'.
Proof.
  intros Hi E. unfold no_new. rewrite E. split_and!.
  - intros w Hw. destruct (decide (w = i)) as [->|Hne]; [|by rewrite list_lookup_insert_ne in Hw].
    by rewrite list_lookup_insert_eq in Hw by (by eapply lookup_lt_Some).
  - intros [k Hk]%list_elem_of_lookup. apply list_elem_of_lookup. exists k.
    destruct (decide (k = i)) as [->|Hne]; [|by rewrite list_lookup_insert_ne in Hk].
    by rewrite list_lookup_insert_eq in Hk by (by eapply lookup_lt_Some).
  - intros _ En. by rewrite En in Hi.
Qed.

Lemma no_new_wake_all s s' : workers s' = wake_all (workers s) -> no_new s s'.
Proof.
  intros E. unfold no_new. rewrite E. unfold wake_all. split_and!.
  - intros w. rewrite list_lookup_fmap. destruct (workers s !! w) as [[]|]; simpl; congruence.
  - intros (x & Ex & Hx)%list_elem_of_fmap. by destruct x.
  - by destruct (workers s).
Qed.

Lemma drained_not_submitting s p :
  drained s -> mtx s = Some (OSubmitter p) -> s_pc p = PTest \/ s_pc p = PStopTest.
Proof. intros (_ & _ & Hm) E. unfold may_enqueue in Hm. rewrite E in Hm. destruct (s_pc p); tauto. Qed.

Lemma drained_stopping s : drained s -> stopping s = true.
Proof. intros (Hd & _). unfold stopping. rewrite Hd. apply orb_true_r. Qed.

Lemma kept_submit_step s evs p i s' es :
  kept_inv s evs -> pool_inv s' (evs ++ es) -> mtx s = Some (OSubmitter p) ->
  submit_step s p i = Some (s', es) -> kept_inv s' (evs ++ es).
Proof.
  intros Hi Hp Hm Hs.
  assert (forall w, mtx s = Some (OWorker w) -> mtx s' = Some (OWorker w)) as Hw by (by rewrite Hm).
  assert (stopper s' = stopper s /\ is_stopped s' = is_stopped s /\ stop_flags s' = stop_flags s /\
    is_done s' = is_done s /\ no_new s s' /\ discarded es = [] /\
    (drained s -> task_queue s' = [] /\ ~ may_enqueue s')) as (E1 & E2 & E3 & E4 & E5 & E6 & E7).
  { unfold submit_step in Hs. destruct (s_pc p) eqn:Epc.
    - repeat case_match; simplify_eq/=; split_and!; try done; try (by apply no_new_same); intros Hd;
        pose proof (drained_stopping s Hd) as Hds; unfold may_enqueue; simpl; hp_bool;
        (split; [apply Hd|try naive_solver]). congruence.
    - repeat case_match; simplify_eq/=; split_and!; try done; try (by apply no_new_same); intros Hd;
        pose proof (drained_stopping s Hd) as Hds; unfold may_enqueue; simpl; hp_bool;
        (split; [apply Hd|try naive_solver]). congruence.
    - simplify_eq. split_and!; try done; try (by apply no_new_same). intros Hd.
      destruct (drained_not_submitting s p Hd Hm); congruence.
    - simplify_eq. split_and!; try done; try (by apply no_new_same). intros Hd.
      destruct (drained_not_submitting s p Hd Hm); congruence.
    - destruct (notify_worker s i) as [s1|] eqn:En; simplify_eq/=.
      unfold notify_worker in En. split_and!; try (by hp_cases).
      + hp_cases; try (by apply no_new_same); by eapply no_new_notified.
      + intros Hd. destruct (drained_not_submitting s p Hd Hm); congruence. }
  eapply kept_frame; try done; [congruence|].
  pose proof (k_clears _ _ Hi) as Hc. unfold clears in *. by rewrite E1, E2.
Qed.

Lemma dequeued_workers s d i s' d' : dequeued_step s d i = Some (s', d') -> workers s' = workers s.
Proof. intros H. apply dequeued_step_core in H. apply H. Qed.

Lemma kept_stop_step s evs pc i s' es :
  kept_inv s evs -> pool_inv s' (evs ++ es) -> stopper s = Some pc -> stop_step s pc i = Some (s', es) ->
  kept_inv s' (evs ++ es).
Proof.
  intros Hi Hp Hpc Hs. pose proof (k_clears _ _ Hi) as Hc. unfold clears in Hc. rewrite Hpc in Hc.
  assert (forall x, stopper s' = Some x -> is_stopped s' = is_stopped s -> stop_flags s' = stop_flags s ->
    is_done s' = is_done s -> mtx s' = mtx s -> no_new s s' -> (task_queue s = [] -> task_queue s' = []) ->
    clears s' -> (is_stopped s = false -> workers s <> [] -> discarded es = []) ->
    kept_inv s' (evs ++ es)) as Hframe.
  { intros x Ex E1 E2 E3 E4 E5 E6 E7 E8. eapply kept_frame; try done; [congruence| |by rewrite E4].
    intros (D1 & D2 & D3). split; [auto|]. unfold may_enqueue in *. by rewrite E4. }
  destruct pc as [k|again|again d| | |]; simpl in Hs; simplify_eq.
  - apply kept_stopped; [done|by destruct (k <? _)%nat|]. intros w Hw. destruct (k <? _)%nat; by apply (k_pred _ _ Hi).
  - unfold clear_step in Hs. destruct (task_queue s) as [|task q] eqn:Eq; simplify_eq.
    + eapply Hframe; try done; try (by apply no_new_same); by destruct again.
    + eapply Hframe; try done; try (by apply no_new_same).
      intros Hst Hne. destruct again; [|congruence]. exfalso.
      pose proof (inv_joined _ _ (k_pool _ _ Hi)) as Hj. rewrite Hpc in Hj. specialize (Hj eq_refl).
      destruct (workers s) as [|x ws] eqn:Ew; [done|]. apply Forall_cons in Hj as [-> _].
      destruct (k_exit _ _ Hi Hst) as (_ & Hq & _); [rewrite Ew; left|]. congruence.
  - destruct (dequeued_step s d i) as [[s1 d']|] eqn:Ed; simplify_eq/=.
    apply dequeued_step_core in Ed as (E1 & E2 & E3 & E4 & E5 & E6 & E7).
    eapply Hframe; simpl; try done; try (by apply no_new_same); [congruence|].
    unfold clears. simpl. rewrite E4. by destruct d', again.
  - destruct (mtx s) eqn:Em; simplify_eq. eapply Hframe; try done. by apply no_new_wake_all.
  - destruct (forallb _ _); simplify_eq. eapply Hframe; try done; by apply no_new_same.
Qed.

Lemma kept_step a s evs s' es :
  kept_inv s evs -> pool_step a s = Some (s', es) -> kept_inv s' (evs ++ es).
Proof.
  intros Hi Hs. pose proof (pool_step_inv _ _ _ _ _ (k_pool _ _ Hi) Hs) as Hp.
  assert (forall m q, mtx s = None -> mtx s' = m -> task_queue s' = q -> workers s' = workers s ->
    is_stopped s' = is_stopped s -> stop_flags s' = stop_flags s -> is_done s' = is_done s ->
    stopper s' = stopper s -> q = task_queue s -> es = [] -> ~ may_enqueue s' -> kept_inv s' (evs ++ es)) as Hlock.
  { intros m q Em E1 E2 E3 E4 E5 E6 E7 -> -> Hm. eapply kept_frame; try done; try (by apply no_new_same); [congruence| | |].
    - intros Hd. split; [rewrite E2; apply Hd|done].
    - by rewrite Em.
    - pose proof (k_clears _ _ Hi) as Hc. unfold clears in *. by rewrite E7, E4. }
  assert (forall q, task_queue s' = q -> mtx s' = mtx s -> no_new s s' ->
    is_stopped s' = is_stopped s -> stop_flags s' = stop_flags s -> is_done s' = is_done s ->
    stopper s' = stopper s -> (task_queue s = [] -> q = []) -> discarded es = [] -> kept_inv s' (evs ++ es)) as Hside.
  { intros q E1 E2 E3 E4 E5 E6 E7 E8 E9. eapply kept_frame; try done; [congruence| |by rewrite E2|].
    - intros (D1 & D2 & D3). split; [rewrite E1; auto|]. unfold may_enqueue in *. by rewrite E2.
    - pose proof (k_clears _ _ Hi) as Hc. unfold clears in *. by rewrite E7, E4. }
  destruct a as [tid b task|i|i|w i|wait|i| |k i|w|i]; simpl in Hs.
  - destruct (mtx s) eqn:Em; simplify_eq. eapply Hlock; try done. unfold may_enqueue. simpl. naive_solver.
  - destruct (mtx s) as [[p|]|] eqn:Em; try done. by eapply kept_submit_step.
  - destruct (mtx s) eqn:Em; [done|]. destruct (not_full_notified s !! i); simplify_eq.
    eapply Hlock; try done. unfold may_enqueue. simpl. naive_solver.
  - by eapply kept_worker_step.
  - destruct wait.
    + assert (s' = set_stop s (is_stopped s) true (stop_flags s) (Some SNotifyAll) /\ es = []) as [-> ->]
        by (destruct (stopper s) as [[]|]; try done; destruct (stopping s); by simplify_eq).
      eapply kept_frame; try done; try (by apply no_new_same). intros (_ & ? & ?). by split.
    + assert (s' = set_stop s true (is_done s) (stop_flags s) (Some (SFlags 0)) /\ es = []) as [-> ->]
        by (destruct (stopper s) as [[]|]; try done; destruct (is_stopped s); by simplify_eq).
      by apply kept_stopped; [| |apply (k_pred _ _ Hi)].
  - destruct (stopper s) as [pc|] eqn:Ep; [|done]. by eapply kept_stop_step.
  - destruct (task_queue s) as [|task q] eqn:Eq; simplify_eq. eapply Hside; try done; by apply no_new_same.
  - destruct (outside s !! k) as [d|]; [|done]. cbn [mbind option_bind] in Hs.
    destruct (dequeued_step s d i) as [[s1 d']|] eqn:Ed; simplify_eq/=.
    apply dequeued_step_core in Ed as (E1 & E2 & E3 & E4 & E5 & E6 & E7).
    eapply Hside; try done; by apply no_new_same.
  - destruct (workers s !! w) as [[]|] eqn:Ew; simplify_eq. eapply Hside; try done. by eapply no_new_notified.
  - destruct (not_full_asleep s !! i); simplify_eq. eapply Hside; try done; by apply no_new_same.
Qed.

Lemma kept_exec acts s evs :
  kept_inv s evs -> kept_inv (foldl pool_exec (s, evs) acts).1 (foldl pool_exec (s, evs) acts).2.
Proof.
  revert s evs. induction acts as [|a acts IH]; intros s evs Hi; cbn [foldl]; [done|].
  destruct (pool_exec (s, evs) a) as [s1 evs1] eqn:E. unfold pool_exec in E. simpl in E.
  destruct (pool_step a s) as [[s' es]|] eqn:Es; simplify_eq; [|by apply IH].
  apply IH. by eapply kept_step.
Qed.

Lemma kept_new n max : kept_inv (pool_new (T := T) n max) [].
Proof.
  constructor; try done; [apply pool_new_inv| | |]; simpl.
  - intros w [? _]%lookup_replicate. done.
  - intros _. by apply Forall_replicate.
  - intros _ [? _]%elem_of_replicate. done.
Qed.

(** Workers are started once. *)
Lemma step_workers a s s' es : pool_step a s = Some (s', es) -> length (workers s') = length (workers s).
Proof.
  intros E. destruct a as [tid b task|i|i|w i|wait|i| |k i|w|i]; simpl in E; try (hp_cases; done).
  - destruct (mtx s) as [[p|]|]; try done. unfold submit_step in E. destruct (s_pc p); try (hp_cases; done).
    destruct (notify_worker s i) as [s1|] eqn:En; simplify_eq/=. unfold notify_worker in En.
    hp_cases; by rewrite ?length_insert.
  - unfold worker_step, take in E. destruct (workers s !! w) as [pc|]; [|done]. simpl in E.
    destruct pc; simpl in E; try (hp_cases; by rewrite ?length_insert).
    destruct (dequeued_step s d i) as [[s1 d']|] eqn:Ed; simplify_eq/=.
    rewrite (dequeued_workers _ _ _ _ _ Ed). by rewrite length_insert.
  - destruct (stopper s) as [pc|]; [|done]. simpl in E. unfold stop_step, clear_step in E.
    destruct pc; simpl in E; try (hp_cases; done).
    + destruct (dequeued_step s d i) as [[s1 d']|] eqn:Ed; simplify_eq/=.
      by rewrite (dequeued_workers _ _ _ _ _ Ed).
    + hp_cases. unfold wake_all. by rewrite length_fmap.
  - destruct (outside s !! k) as [d|]; [|done]. simpl in E.
    destruct (dequeued_step s d i) as [[s1 d']|] eqn:Ed; simplify_eq/=.
    by rewrite (dequeued_workers _ _ _ _ _ Ed).
  - hp_cases. by rewrite length_insert.
Qed.

Lemma exec_workers acts s evs :
  length (workers (foldl pool_exec (s, evs) acts).1) = length (workers s).
Proof.
  revert s evs. induction acts as [|a acts IH]; intros s evs; cbn [foldl]; [done|].
  destruct (pool_exec (s, evs) a) as [s1 evs1] eqn:E. rewrite IH. unfold pool_exec in E. simpl in E.
  destruct (pool_step a s) as [[s' es]|] eqn:Es; simplify_eq; [|done]. by eapply step_workers.
Qed.

(** What leaves the queue is taken, discarded or handed out. *)
Lemma removed_split evs : removed evs ≡ₚ taken evs ++ discarded evs ++ handed evs.
Proof.
  unfold removed, taken, discarded, handed. induction evs as [|e evs IH]; [done|].
  destruct e; simpl; rewrite ?IH; solve_Permutation.
Qed.

End tasks.

(** C27: every accepted task is accounted for, once.  Under every schedule of
    workers, submitters, [pop_task] callers and stoppers: tasks leave the queue
    in the order they entered it; each is queued, in a worker's hands, started,
    handed out by [pop_task] or discarded by a [stop], exactly once; as long as
    [stop(false)] has not been called, a pool with workers discards nothing, so
    that after [stop(true)] every task was started or handed out; while the pool
    is not stopping, a non-empty queue means that a worker is awake or the
    submitter that filled it is about to notify one; and when a [stop] has
    returned, nothing is queued, every worker has returned, and the tasks that
    [stop(false)] discarded will not run. *)
Theorem pool_tasks_conserved {T} n max (acts : list (pool_action T)) :
  let '(s, evs) := foldl pool_exec (pool_new n max, []) acts in
  queued evs = removed evs ++ task_queue s /\
  queued evs ≡ₚ started evs ++ in_hand s ++ handed evs ++ discarded evs ++ task_queue s /\
  ((0 < n)%nat -> is_stopped s = false -> discarded evs = []) /\
  (stopping s = false -> workers s <> [] -> task_queue s <> [] ->
     about_to_notify s \/ Exists awake (workers s)) /\
  (stopper s = Some SDone ->
     task_queue s = [] /\ Forall (fun w => w = WExit) (workers s) /\
     queued evs ≡ₚ started evs ++ handed evs ++ discarded evs /\
     forall w i, worker_step s w i = None).
Proof.
  pose proof (kept_exec acts _ _ (kept_new n max)) as Hi. pose proof (exec_workers acts (pool_new n max) []) as Hl.
  destruct (foldl pool_exec _ acts) as [s evs]. cbn [fst snd] in Hi, Hl.
  destruct Hi as [[H1 H2 H3 H4 H5 H6 H7 H8] _ _ _ _ H9].
  assert (queued evs ≡ₚ started evs ++ in_hand s ++ handed evs ++ discarded evs ++ task_queue s) as Hq.
  { rewrite H1, removed_split, H2. solve_Permutation. }
  split_and!; [done|done| |done|].
  - intros Hn Hst. apply H9; [done|]. intros E. rewrite E in Hl. simpl in Hl. rewrite length_replicate in Hl. lia.
  - intros E. specialize (H8 E). rewrite E in H7. specialize (H7 eq_refl). split_and!; [done|done| |].
    + assert (in_hand s = []) as Hh.
      { unfold in_hand. clear -H7. induction H7 as [|x ws -> _ IH]; [done|exact IH]. }
      by rewrite Hq, Hh, H8, app_nil_r.
    + intros w i. unfold worker_step. destruct (workers s !! w) as [pc|] eqn:Ew; [|done].
      by rewrite (proj1 (Forall_lookup _ _) H7 w pc Ew).
Qed.

(** Two tasks with one worker; it takes the first, and the pool is stopped. *)
Definition demo_stopped (wait_for_tasks : bool) : list (pool_action nat) :=
  [Submit 1 false 7%nat; StepSubmit 0; StepSubmit 0; StepSubmit 0; StepSubmit 0;
   Submit 2 true 8%nat; StepSubmit 0; StepSubmit 0; StepSubmit 0; StepSubmit 0; StepSubmit 0;
   StepWorker 0 0; StepWorker 0 0; StepWorker 0 0; StepWorker 0 0; Stop wait_for_tasks] ++
  replicate 9 (StepStop 0) ++ replicate 12 (StepWorker 0 0) ++ replicate 3 (StepStop 0).

Lemma pool_tasks_conserved_witness :
  (let '(s, evs) := foldl pool_exec (pool_new 1 4, []) (demo_stopped false) in
   stopper s = Some SDone /\ started evs = [7]%nat /\ discarded evs = [8]%nat) /\
  (let '(s, evs) := foldl pool_exec (pool_new 1 4, []) (demo_stopped true) in
   stopper s = Some SDone /\ started evs = [7; 8]%nat /\ discarded evs = []).
Proof.
  pose proof (pool_tasks_conserved 1 4 (demo_stopped false)) as Hf.
  pose proof (pool_tasks_conserved 1 4 (demo_stopped true)) as Ht.
  destruct (foldl pool_exec _ (demo_stopped false)) as [s evs] eqn:E. destruct Hf as (_ & _ & _ & _ & Hf).
  destruct (foldl pool_exec _ (demo_stopped true)) as [s' evs'] eqn:E'. destruct Ht as (_ & _ & Ht & _).
  vm_compute in E. injection E as <- <-. vm_compute in E'. injection E' as <- <-.
  specialize (Hf eq_refl). specialize (Ht ltac:(lia) eq_refl).
  split; (split_and!; [reflexivity|reflexivity|]); [reflexivity|exact Ht].
Defined.
