(* ===== verification/SharedPool.v ===== *)
(** * SharedPool: [thread_pool] as the server uses it

    The event loop submits with [try_push], never [push], and the workers fetch
    tasks; [stop] and [pop_task] are not used while the server runs.  Under
    these the step machine of [ThreadPool] is a [TaskPool]: the instance that
    discharges the interface of [Shared]. *)

From S2P Require Import Prelude Shared ThreadPool.

Local Open Scope Z_scope.

Section shared_pool.
Context {T : Type}.
Implicit Types (s : thread_pool T) (q : list T) (F : gset nat).

(** The steps of threads inside: the submitter, or a worker, which may also wake
    on its own. *)
Inductive pool_inside := InSubmit (i : nat) | InWorker (w i : nat) | InSpurious (w : nat).

Definition by_itself (a : pool_inside) : Prop :=
  match a with InSpurious _ => False | _ => True end.

(** The pool and the workers that are not running a task. *)
Definition shared_pool : Type := thread_pool T * gset nat.

(** The loop's [try_push]. *)
Definition pool_submit (x : T) (p : shared_pool) : option shared_pool :=
  '(s, _) ← pool_step (Submit 0 false x) p.1; Some (s, p.2).

(** A worker comes back for its next task. *)
Definition pool_fetch (w : nat) (p : shared_pool) : option shared_pool :=
  if decide (w ∉ p.2 /\ (w < length (workers p.1))%nat) then Some (p.1, {[w]} ∪ p.2) else None.

(** [EvStarted] is where a worker calls its task. *)
Definition pool_inside_step (a : pool_inside) (p : shared_pool)
  : option (shared_pool * option (pool_answer T)) :=
  let '(s, F) := p in
  match a with
  | InSubmit i =>
      '(s, es) ← pool_step (StepSubmit i) s;
      Some ((s, F), match es with
                    | [EvQueued _] => Some (Verdict true)
                    | [EvRejected _] => Some (Verdict false)
                    | _ => None
                    end)
  | InWorker w i =>
      if decide (w ∈ F) then
        '(s, es) ← pool_step (StepWorker w i) s;
        Some (match es with
              | [EvStarted _ x] => ((s, F ∖ {[w]}), Some (Given w x))
              | _ => ((s, F), None)
              end)
      else None
  | InSpurious w => '(s, _) ← pool_step (Spurious w) s; Some ((s, F), None)
  end.

(** The submission that has not been decided. *)
Definition undecided (s : thread_pool T) : option T :=
  match mtx s with
  | Some (OSubmitter p) =>
      match s_pc p with PTest | PStopTest | PEnqueue => Some (s_task p) | _ => None end
  | _ => None
  end.

(** [mtx] is held by a [try_push], or by a worker at its predicate. *)
Definition owner_ok (m : option (owner T)) (ws : list (worker_pc T)) : Prop :=
  match m with
  | Some (OSubmitter p) => s_blocking p = false /\ forall w, ws !! w <> Some WPredicate
  | Some (OWorker w0) => forall w, ws !! w = Some WPredicate <-> w = w0
  | None => forall w, ws !! w <> Some WPredicate
  end.

Record shared_pool_inv (n : nat) (s : thread_pool T) (q : list T) (F : gset nat) : Prop := {
  pr_inv : exists evs, pool_inv s evs;
  pr_len : length (workers s) = n;
  pr_bag : q ≡ₚ task_queue s ++ in_hand s;
  pr_run : stopping s = false;
  pr_out : forall w pc, w ∉ F -> workers s !! w = Some pc -> pc = WFlag \/ pc = WTryPop;
  pr_owner : owner_ok (mtx s) (workers s);
  pr_full : not_full_asleep s = [] /\ not_full_notified s = [];
  pr_fetching : forall w, w ∈ F -> (w < n)%nat;
}.

(** ** Lemmas *)

(** A worker that fetches moves from [pc] to [pc'], not to its predicate. *)
Lemma worker_moves n s q F s' evs es w pc pc' :
  shared_pool_inv n s q F -> w ∈ F -> workers s !! w = Some pc -> workers s' = <[w := pc']> (workers s) ->
  pool_inv s' (evs ++ es) -> stopping s' = stopping s ->
  not_full_asleep s' = not_full_asleep s -> not_full_notified s' = not_full_notified s ->
  owner_ok (mtx s') (<[w := pc']> (workers s)) ->
  forall q' F', task_queue s ++ option_list (held pc) ≡ₚ (task_queue s' ++ option_list (held pc')) ++ q' ->
    (F' = F \/ F' = F ∖ {[w]} /\ pc' = WFlag) ->
    exists r, q ≡ₚ q' ++ r /\ shared_pool_inv n s' r F'.
Proof.
  intros [H1 H2 H3 H4 H5 H6 [H7 H7'] H8] Hw Hpc Ew Hi Hst Ha Hn Ho q' F' Hq HF.
  exists (task_queue s' ++ in_hand s'). split.
  - rewrite H3. unfold in_hand. rewrite Ew. pose proof (hand_update _ _ _ pc' Hpc) as Hh.
    assert (option_list (held pc) ++ omap held (<[w:=pc']> (workers s)) ≡ₚ
            option_list (held pc') ++ omap held (workers s)) as Hh' by (by rewrite Hh).
    apply (Permutation_app_inv_l (option_list (held pc'))).
    transitivity (task_queue s ++ option_list (held pc) ++ omap held (<[w:=pc']> (workers s)));
      [rewrite Hh'; solve_Permutation|].
    rewrite (assoc_L (++)), Hq. solve_Permutation.
  - constructor; rewrite ?Ew, ?Hst, ?Ha, ?Hn; try done; [by eauto|by rewrite length_insert| |].
    + intros k pck Hk Hl. destruct (decide (k = w)) as [->|Hne].
      * rewrite list_lookup_insert_eq in Hl by (by eapply lookup_lt_Some). simplify_eq.
        destruct HF as [->|[-> ->]]; [done|by left].
      * rewrite list_lookup_insert_ne in Hl by done. apply (H5 k); [|done].
        destruct HF as [->|[-> _]]; set_solver.
    + intros k Hk. apply H8. destruct HF as [->|[-> _]]; set_solver.
Qed.

Lemma bag_perm n s q r F : q ≡ₚ r -> shared_pool_inv n s r F -> shared_pool_inv n s q F.
Proof. intros E []. constructor; try done. by rewrite E. Qed.

Lemma predicate_insert (ws : list (worker_pc T)) w pc k :
  is_Some (ws !! w) -> <[w := pc]> ws !! k = Some WPredicate ->
  k = w /\ pc = WPredicate \/ k <> w /\ ws !! k = Some WPredicate.
Proof.
  intros [x Hx] Hk. destruct (decide (k = w)) as [->|Hne].
  - left. rewrite list_lookup_insert_eq in Hk by (by eapply lookup_lt_Some). by simplify_eq.
  - right. by rewrite list_lookup_insert_ne in Hk.
Qed.

Lemma owner_keep m (ws : list (worker_pc T)) w pc pc' :
  owner_ok m ws -> ws !! w = Some pc -> pc <> WPredicate -> pc' <> WPredicate ->
  owner_ok m (<[w := pc']> ws).
Proof.
  intros Ho Hpc Hn Hn'. assert (forall k, <[w:=pc']> ws !! k = Some WPredicate -> ws !! k = Some WPredicate) as Hk.
  { intros k Hk. by destruct (predicate_insert ws w pc' k ltac:(eauto) Hk) as [[-> ?]|[]]. }
  destruct m as [[p|w0]|]; simpl in *; [split; [by apply Ho|]|intros k; split|]; try (intros k Hp; by apply Hk, Ho in Hp).
  - intros Hp. by apply Ho, Hk.
  - intros ->. assert (w <> w0). { intros ->. apply Hn. pose proof (proj2 (Ho w0) eq_refl). congruence. }
    rewrite list_lookup_insert_ne by done. by apply Ho.
Qed.

(** Worker [w] takes, or gives back, the mutex. *)
Lemma owner_take (ws : list (worker_pc T)) w :
  owner_ok None ws -> is_Some (ws !! w) -> owner_ok (Some (OWorker w)) (<[w := WPredicate]> ws).
Proof.
  intros Ho Hw k. split.
  - intros Hk. destruct (predicate_insert _ _ _ _ Hw Hk) as [[-> _]|[_ Hk']]; [done|]. by destruct (Ho k).
  - intros ->. apply list_lookup_insert_eq. destruct Hw. by eapply lookup_lt_Some.
Qed.

Lemma owner_give m (ws : list (worker_pc T)) w pc' :
  owner_ok m ws -> ws !! w = Some WPredicate -> pc' <> WPredicate ->
  m = Some (OWorker w) /\ owner_ok None (<[w := pc']> ws).
Proof.
  intros Ho Hw Hn. destruct m as [[p|w0]|]; simpl in Ho; [by destruct (proj2 Ho w)| |by destruct (Ho w)].
  apply Ho in Hw as Hw0. subst w0. split; [done|]. intros k Hk.
  destruct (predicate_insert ws w pc' k ltac:(eauto) Hk) as [[-> ?]|[? Hk']]; [done|]. by apply Ho in Hk'.
Qed.

Lemma worker_inside n s q F w i s' es :
  shared_pool_inv n s q F -> w ∈ F -> pool_step (StepWorker w i) s = Some (s', es) ->
  undecided s' = undecided s /\
  match es with
  | [EvStarted _ x] => exists q', q ≡ₚ x :: q' /\ shared_pool_inv n s' q' (F ∖ {[w]})
  | _ => shared_pool_inv n s' q F
  end.
Proof.
  intros Hi Hw Hs. destruct (pr_inv _ _ _ _ Hi) as [evs Hp].
  pose proof (pool_step_inv _ _ _ _ _ Hp Hs) as Hp'. pose proof (pr_owner _ _ _ _ Hi) as Ho.
  cbn [pool_step] in Hs. unfold worker_step in Hs. destruct (workers s !! w) as [pc|] eqn:Ew; [|done]. cbn [mbind option_bind] in Hs.
  assert (forall pc', workers s' = <[w := pc']> (workers s) -> stopping s' = stopping s ->
    not_full_asleep s' = not_full_asleep s -> not_full_notified s' = not_full_notified s ->
    owner_ok (mtx s') (<[w := pc']> (workers s)) ->
    task_queue s ++ option_list (held pc) ≡ₚ task_queue s' ++ option_list (held pc') ->
    shared_pool_inv n s' q F) as Hmove.
  { intros pc' E1 E2 E3 E4 E5 E6.
    destruct (worker_moves n s q F s' evs es w pc pc' Hi Hw Ew E1 Hp' E2 E3 E4 E5 [] F) as (r & Hr & Hi');
      [by rewrite app_nil_r|by left|]. by apply (bag_perm _ _ _ r). }
  assert (forall t q0, task_queue s = t :: q0 -> task_queue s ++ [] ≡ₚ q0 ++ [t]) as Hperm.
  { intros t q0 ->. rewrite app_nil_r. solve_Permutation. }
  destruct pc as [|d task|task| | | | | |]; unfold take in Hs.
  - destruct (task_queue s) as [|t q0] eqn:Eq; simplify_eq/=; (split; [done|]).
    + apply (Hmove WLock); try done; [by eapply owner_keep|]. simpl. by rewrite Eq.
    + apply (Hmove (WDequeued DSub t)); try done; [by eapply owner_keep|by apply Hperm].
  - destruct (dequeued_step s d i) as [[s1 d']|] eqn:Ed; simplify_eq/=.
    pose proof (dequeued_step_core _ _ _ _ _ Ed) as (E1 & E2 & E3 & E4 & E5 & E6 & E7).
    assert (not_full_asleep s1 = not_full_asleep s /\ not_full_notified s1 = not_full_notified s) as [E8 E9].
    { destruct (pr_full _ _ _ _ Hi) as [Ha _]. destruct d; simpl in Ed; simplify_eq/=; try done.
      unfold notify_not_full in Ed. rewrite Ha in Ed. by destruct i; simplify_eq/=. }
    split; [unfold undecided; simpl; by rewrite E7|].
    apply (Hmove (match d' with Some d' => WDequeued d' task | None => WRun task end)); simpl;
      [by rewrite E2|unfold stopping; simpl; by rewrite E4, E5|done|done| |by rewrite E1; destruct d'].
    rewrite E7. eapply owner_keep; [done|done|done|by destruct d'].
  - simplify_eq/=. split; [done|].
    destruct (worker_moves n s q F (set_worker s w WFlag) evs [EvStarted w task] w (WRun task) WFlag Hi Hw Ew)
      with (q' := [task]) (F' := F ∖ {[w]}) as (r & Hr & Hi'); try done; [by eapply owner_keep| |by right|].
    + simpl. by rewrite app_nil_r.
    + by exists r.
  - simplify_eq/=. split; [done|].
    destruct (inv_running _ _ Hp (pr_run _ _ _ _ Hi)) as (_ & _ & Hfl).
    assert (default false (stop_flags s !! w) = false) as Hf.
    { destruct (stop_flags s !! w) as [b|] eqn:Eb; [|done]. by apply (proj1 (Forall_lookup _ _) Hfl w). }
    rewrite Hf in Hmove |- *. apply (Hmove WTryPop); try done. by eapply owner_keep.
  - destruct (mtx s) eqn:Em; simplify_eq/=. split; [unfold undecided; simpl; by rewrite ?Em|].
    apply (Hmove WPredicate); try done. apply owner_take; [exact Ho|by rewrite Ew].
  - assert (forall pc', pc' <> WPredicate -> mtx s = Some (OWorker w) /\ owner_ok None (<[w := pc']> (workers s)))
      as Hg by (intros; by eapply owner_give).
    destruct (task_queue s) as [|t q0] eqn:Eq; simplify_eq/=.
    + destruct (is_done s || default false (stop_flags s !! w)); simplify_eq/=.
      * split; [unfold undecided; simpl; by rewrite (proj1 (Hg WExit ltac:(done)))|].
        apply (Hmove WExit); try done; [by apply Hg|]. simpl. by rewrite Eq.
      * split; [unfold undecided; simpl; by rewrite (proj1 (Hg WAsleep ltac:(done)))|].
        apply (Hmove WAsleep); try done; [by apply Hg|]. simpl. by rewrite Eq.
    + split; [unfold undecided; simpl; by rewrite (proj1 (Hg WAsleep ltac:(done)))|].
      apply (Hmove (WDequeued DSub t)); try done; [by apply Hg|by apply Hperm].
  - done.
  - destruct (mtx s) eqn:Em; simplify_eq/=. split; [unfold undecided; simpl; by rewrite ?Em|].
    apply (Hmove WPredicate); try done. apply owner_take; [exact Ho|by rewrite Ew].
  - done.
Qed.

Lemma spurious_inside n s q F w s' es :
  shared_pool_inv n s q F -> pool_step (Spurious w) s = Some (s', es) ->
  undecided s' = undecided s /\ shared_pool_inv n s' q F.
Proof.
  intros Hi Hs. destruct (pr_inv _ _ _ _ Hi) as [evs Hp]. pose proof (pool_step_inv _ _ _ _ _ Hp Hs) as Hp'.
  cbn [pool_step] in Hs. destruct (workers s !! w) as [[]|] eqn:Ew; simplify_eq. split; [done|].
  assert (w ∈ F) as Hw.
  { destruct (decide (w ∈ F)) as [|Hn]; [done|]. by destruct (pr_out _ _ _ _ Hi w _ Hn Ew). }
  destruct (worker_moves n s q F (set_worker s w WNotified) evs [] w WAsleep WNotified Hi Hw Ew)
    with (q' := @nil T) (F' := F) as (r & Hr & Hi'); try done;
    [eapply owner_keep; [apply (pr_owner _ _ _ _ Hi)|done|done|done]|by simpl; rewrite !app_nil_r|by left|].
  by apply (bag_perm _ _ _ r).
Qed.

(** [notify_one] on [cv] wakes at most a sleeping worker. *)
Lemma notify_worker_moves s i s' :
  notify_worker s i = Some s' ->
  s' = s \/ workers s !! i = Some WAsleep /\ s' = set_worker s i WNotified.
Proof. unfold notify_worker. intros. hp_cases; auto. Qed.

Lemma submit_inside n s q F i s' es :
  shared_pool_inv n s q F -> pool_step (StepSubmit i) s = Some (s', es) ->
  match es with
  | [EvQueued _] => exists x, undecided s = Some x /\ undecided s' = None /\ shared_pool_inv n s' (q ++ [x]) F
  | [EvRejected _] => exists x, undecided s = Some x /\ undecided s' = None /\ shared_pool_inv n s' q F
  | _ => undecided s' = undecided s /\ shared_pool_inv n s' q F
  end.
Proof.
  intros [[evs Hp] H2 H3 H4 H5 H6 [H7 H7'] H8] Hs. pose proof (pool_step_inv _ _ _ _ _ Hp Hs) as Hp'.
  cbn [pool_step] in Hs. destruct (mtx s) as [[p|]|] eqn:Em; [|done|done]. destruct H6 as [Hb Hw].
  unfold submit_step in Hs. rewrite Hb, H4 in Hs.
  assert (undecided s = match s_pc p with PTest | PStopTest | PEnqueue => Some (s_task p) | _ => None end) as Hu
    by (unfold undecided; by rewrite Em).
  destruct (s_pc p) eqn:Epc; simpl in Hs; rewrite ?orb_false_r in Hs.
  - destruct (_ <=? _)%Z; simplify_eq/=.
    + eexists. split_and!; [done|done|]. constructor; simpl; try done. by eauto.
    + split; [by rewrite Hu|]. constructor; simpl; try done. by eauto.
  - simplify_eq/=. split; [by rewrite Hu|]. constructor; simpl; try done. by eauto.
  - simplify_eq/=. eexists. split_and!; [done|done|]. constructor; simpl; try done; [by eauto|].
    unfold in_hand in *. simpl. rewrite H3. solve_Permutation.
  - simplify_eq/=. split; [by rewrite Hu|]. constructor; simpl; try done. by eauto.
  - destruct (notify_worker s i) as [s1|] eqn:En; simplify_eq/=.
    split; [by rewrite Hu|]. destruct (notify_worker_moves _ _ _ En) as [->|[Ea ->]]; constructor; simpl; try done; [by eauto|by eauto|..].
    + by rewrite length_insert.
    + pose proof (hand_update _ _ _ WNotified Ea) as Hh. unfold in_hand in *. simpl in Hh |- *. by rewrite H3, Hh.
    + intros w pc Hwf Hl. destruct (decide (w = i)) as [->|Hne].
      * by destruct (H5 i WAsleep Hwf Ea).
      * rewrite list_lookup_insert_ne in Hl by done. by eapply H5.
    + intros w Hwp. destruct (predicate_insert (workers s) i WNotified w ltac:(eauto) Hwp) as [[_ ?]|[_ ?]]; [done|].
      by eapply Hw.
Qed.

(** Whoever holds [mtx] can move. *)
Lemma owner_live n s q F :
  shared_pool_inv n s q F -> is_Some (mtx s) ->
  (exists i, is_Some (pool_step (StepSubmit i) s)) \/ exists w, w ∈ F /\ is_Some (pool_step (StepWorker w 0) s).
Proof.
  intros Hi [o Em]. pose proof (pr_owner _ _ _ _ Hi) as Ho. rewrite Em in Ho. destruct o as [p|w].
  - left. unfold pool_step. rewrite Em. unfold submit_step, with_pc, notify_worker. destruct (s_pc p).
    + exists 0%nat. destruct (s_blocking p); case_match; by eexists.
    + exists 0%nat. case_match; by eexists.
    + exists 0%nat. by eexists.
    + exists 0%nat. by eexists.
    + destruct (existsb (fun w => match w with WAsleep => true | _ => false end) (workers s)) eqn:E.
      * apply existsb_exists in E as (pc & Hin & Hpc). destruct pc; try done.
        apply list_elem_of_In, list_elem_of_lookup in Hin as [i Hin]. exists i. rewrite Hin. by eexists.
      * exists 0%nat. destruct (workers s !! 0%nat) as [[]|]; by eexists.
  - right. exists w. pose proof (proj2 (Ho w) eq_refl) as Hw. split.
    + destruct (decide (w ∈ F)) as [|Hn]; [done|]. by destruct (pr_out _ _ _ _ Hi w _ Hn Hw).
    + unfold pool_step, worker_step. rewrite Hw. simpl. destruct (take s w) as [[]|]; [by eexists|].
      destruct (is_done s || _); by eexists.
Qed.

(** A fetching worker that is awake can move, unless it waits for [mtx]. *)
Lemma awake_live n s q F w pc :
  shared_pool_inv n s q F -> workers s !! w = Some pc -> awake pc -> mtx s = None ->
  is_Some (pool_step (StepWorker w 0) s).
Proof.
  intros Hi Hw Ha Hm. unfold pool_step, worker_step. rewrite Hw, Hm. simpl.
  destruct pc as [|d task|task| | | | | |]; try done; try (by eexists).
  - destruct (take s w) as [[]|]; by eexists.
  - destruct (pr_full _ _ _ _ Hi) as [Hf _]. destruct d; simpl; [by eexists|by eexists|].
    unfold notify_not_full. rewrite Hf. simpl. by eexists.
  - destruct (take s w) as [[]|]; [by eexists|]. destruct (is_done s || _); by eexists.
Qed.

(** While a task waits, a worker is outside the pool or somebody inside moves. *)
Lemma pool_work n s q F :
  shared_pool_inv n s q F -> (0 < n)%nat -> q <> [] ->
  (exists i, is_Some (pool_step (StepSubmit i) s)) \/
  (exists w, w ∈ F /\ is_Some (pool_step (StepWorker w 0) s)) \/ exists w, (w < n)%nat /\ w ∉ F.
Proof.
  intros Hi Hn Hq. destruct (mtx s) as [o|] eqn:Em.
  { destruct (owner_live n s q F Hi) as [H|H]; [by rewrite Em|by left|by right; left]. }
  destruct (pr_inv _ _ _ _ Hi) as [evs Hp].
  assert (exists w pc, workers s !! w = Some pc /\ awake pc) as (w & pc & Hw & Ha).
  { destruct (task_queue s) as [|t q0] eqn:Eq.
    - destruct (in_hand s) as [|x l] eqn:Eh.
      { destruct Hq. apply Permutation_nil_r. rewrite (pr_bag _ _ _ _ Hi), Eq, Eh. done. }
      assert (x ∈ in_hand s) as Hx by (rewrite Eh; left). unfold in_hand in Hx.
      apply list_elem_of_omap in Hx as (pc & Hin & Hh). apply list_elem_of_lookup in Hin as [w Hw].
      exists w, pc. split; [done|]. by destruct pc.
    - destruct (inv_awake _ _ Hp (pr_run _ _ _ _ Hi)) as [Hab|Hex].
      + pose proof (pr_len _ _ _ _ Hi). by destruct (workers s); simpl in *; [lia|].
      + by rewrite Eq.
      + unfold about_to_notify in Hab. by rewrite Em in Hab.
      + apply Exists_exists in Hex as (pc & Hin & Ha). apply list_elem_of_lookup in Hin as [w Hw]. eauto. }
  right. destruct (decide (w ∈ F)) as [HF|HF].
  - left. exists w. split; [done|]. by eapply awake_live.
  - right. exists w. split; [|done]. rewrite <- (pr_len _ _ _ _ Hi). by eapply lookup_lt_Some.
Qed.

Definition shared_pool_repr (n : nat) (p : shared_pool) (q : list T) (o : option T) (F : gset nat) : Prop :=
  shared_pool_inv n p.1 q p.2 /\ o = undecided p.1 /\ F = p.2.

Lemma pool_submit_ok n p q F x p' :
  shared_pool_repr n p q None F -> pool_submit x p = Some p' -> shared_pool_repr n p' q (Some x) F.
Proof.
  intros ([[evs Hp] H2 H3 H4 H5 H6 [H7 H7'] H8] & _ & ->) Hs. destruct p as [s F]. unfold pool_submit in Hs. cbn [fst snd] in *.
  destruct (pool_step (Submit 0 false x) s) as [[s' es]|] eqn:E; [|done]. simplify_eq/=.
  pose proof (pool_step_inv (Submit 0 false x) _ _ _ _ Hp E) as Hp'. destruct (mtx s) eqn:Em; simplify_eq/=.
  split_and!; [|done|done]. constructor; simpl; try done. by eauto.
Qed.

Lemma pool_fetch_ok n p q o F w p' :
  shared_pool_repr n p q o F -> pool_fetch w p = Some p' ->
  w ∉ F /\ (w < n)%nat /\ shared_pool_repr n p' q o ({[w]} ∪ F).
Proof.
  intros ([H1 H2 H3 H4 H5 H6 H7 H8] & -> & ->) Hs. unfold pool_fetch in Hs. rewrite H2 in Hs.
  case_decide as Hd; simplify_eq/=. destruct Hd as [Hn Hl]. split_and!; [done|done|].
  split_and!; [|done|done]. constructor; simpl; try done.
  - intros k pc Hk. apply H5. set_solver.
  - intros k [->%elem_of_singleton|Hk]%elem_of_union; auto.
Qed.

Lemma pool_inside_ok n p q o F a p' r :
  shared_pool_repr n p q o F -> pool_inside_step a p = Some (p', r) ->
  match r with
  | None => shared_pool_repr n p' q o F
  | Some (Verdict b) => exists x, o = Some x /\ shared_pool_repr n p' (if b then q ++ [x] else q) None F
  | Some (Given w x) => w ∈ F /\ exists q', q ≡ₚ x :: q' /\ shared_pool_repr n p' q' o (F ∖ {[w]})
  end.
Proof.
  intros (Hi & -> & ->) Hs. destruct p as [s F]. simpl in Hi |- *. destruct a as [i|w i|w]; [| |destruct (pool_step (Spurious w) s) as [[s' es]|] eqn:E].
  - simpl in Hs. destruct (match mtx s with Some (OSubmitter p) => submit_step s p i | _ => None end) as [[s' es]|] eqn:E; simplify_eq/=.
    pose proof (submit_inside n s q F i s' es Hi E) as H.
    destruct es as [|[] []]; simpl in *; repeat split; try (by apply H); try (symmetry; by apply H).
    + destruct H as (x & Hx & Hn & Hi'). exists x. by split_and!.
    + destruct H as (x & Hx & Hn & Hi'). exists x. by split_and!.
  - simpl in Hs. case_decide as Hw; [|done].
    destruct (worker_step s w i) as [[s' es]|] eqn:E; [|done]. simplify_eq/=.
    destruct (worker_inside n s q F w i s' es Hi Hw E) as [Hu H].
    destruct es as [|[] []]; simplify_eq/=; try (by split_and!).
    split; [done|]. destruct H as (q' & Hq & Hi'). exists q'. by split_and!.
  - cbn [pool_inside_step] in Hs. rewrite E in Hs. simplify_eq/=.
    by destruct (spurious_inside n s q F w s' es Hi E) as [? ?].
  - cbn [pool_inside_step] in Hs. by rewrite E in Hs.
Qed.

Lemma pool_inside_live n p q o F :
  shared_pool_repr n p q o F ->
  (exists i, is_Some (pool_step (StepSubmit i) p.1)) \/
  (exists w, w ∈ p.2 /\ is_Some (pool_step (StepWorker w 0) p.1)) ->
  exists a, by_itself a /\ is_Some (pool_inside_step a p).
Proof.
  intros _ [[i [[s' es] H]]|(w & Hw & [[s' es] H])]; destruct p as [s F0].
  - exists (InSubmit i). split; [done|]. unfold pool_inside_step. simpl in H |- *. rewrite H. by eexists.
  - exists (InWorker w 0). split; [done|]. unfold pool_inside_step. simpl in Hw. rewrite decide_True by done. simpl in H |- *. rewrite H. by eexists.
Qed.

(** The steps left to the threads inside.  A queued task pays for the worker that
    will dequeue it, a submitter for the task and the worker it wakes. *)
Definition worker_fuel (pc : worker_pc T) : nat :=
  match pc with
  | WDequeued DSub _ => 9 | WDequeued DFix _ => 8 | WDequeued DNotify _ => 7
  | WRun _ => 6 | WFlag => 5 | WTryPop => 4 | WLock | WNotified => 3 | WPredicate => 2
  | WAsleep | WExit => 0
  end.
Definition owner_fuel (o : owner T) : nat :=
  match o with
  | OSubmitter p =>
      match s_pc p with PTest => 17 | PStopTest => 16 | PEnqueue => 15 | PAdd => 5 | PNotify => 4 end
  | OWorker _ => 0
  end.
Definition workers_fuel (ws : list (worker_pc T)) : nat := sum_list (worker_fuel <$> ws).
Definition pool_fuel (s : thread_pool T) : nat :=
  (workers_fuel (workers s) + 9 * length (task_queue s) + from_option owner_fuel 0 (mtx s))%nat.

Lemma workers_fuel_insert (ws : list (worker_pc T)) w pc pc' :
  ws !! w = Some pc ->
  (workers_fuel (<[w := pc']> ws) + worker_fuel pc = workers_fuel ws + worker_fuel pc')%nat.
Proof.
  intros Hw. unfold workers_fuel. rewrite list_fmap_insert.
  apply sum_list_insert. by rewrite list_lookup_fmap, Hw.
Qed.

(** A worker's step that does not touch the other workers. *)
Lemma step_fuel s s' w pc pc' :
  workers s !! w = Some pc -> workers s' = <[w := pc']> (workers s) ->
  (worker_fuel pc' + 9 * length (task_queue s') + from_option owner_fuel 0 (mtx s') <
   worker_fuel pc + 9 * length (task_queue s) + from_option owner_fuel 0 (mtx s))%nat ->
  (pool_fuel s' < pool_fuel s)%nat.
Proof.
  intros Hw Es Hl. unfold pool_fuel. rewrite Es.
  pose proof (workers_fuel_insert (workers s) w pc pc' Hw). lia.
Qed.

Lemma worker_step_fuel s w i s' es :
  pool_step (StepWorker w i) s = Some (s', es) -> (pool_fuel s' < pool_fuel s)%nat.
Proof.
  intros Hs. cbn [pool_step] in Hs. unfold worker_step in Hs.
  destruct (workers s !! w) as [pc|] eqn:Ew; [|done]. cbn [mbind option_bind] in Hs.
  destruct pc as [|d task|task| | | | | |]; unfold take in Hs; try done.
  - destruct (task_queue s) eqn:Eq; simplify_eq/=; (eapply step_fuel; [exact Ew|done|]); simpl; rewrite Eq; simpl; lia.
  - destruct (dequeued_step s d i) as [[s1 d']|] eqn:Ed; simplify_eq/=.
    pose proof (dequeued_step_core _ _ _ _ _ Ed) as (E1 & E2 & _ & _ & _ & _ & E7).
    eapply step_fuel; [exact Ew|by simpl; rewrite E2|]. simpl. rewrite E1, E7.
    destruct d; simpl in Ed; [destruct (_ =? _)| |destruct (notify_not_full s i)]; simplify_eq/=; lia.
  - simplify_eq/=. eapply step_fuel; [exact Ew|done|]. simpl. lia.
  - simplify_eq/=. eapply step_fuel; [exact Ew|done|]. simpl. destruct (default _ _); simpl; lia.
  - destruct (mtx s) eqn:Em; simplify_eq/=. eapply step_fuel; [exact Ew|done|]. simpl. rewrite Em. simpl. lia.
  - destruct (task_queue s) eqn:Eq; [destruct (is_done s || _)|]; simplify_eq/=;
      (eapply step_fuel; [exact Ew|done|]); simpl; rewrite Eq; simpl; lia.
  - destruct (mtx s) eqn:Em; simplify_eq/=. eapply step_fuel; [exact Ew|done|]. simpl. rewrite Em. simpl. lia.
Qed.

(** A submitter that does not wait for room. *)
Lemma submit_step_fuel s p i s' es :
  mtx s = Some (OSubmitter p) -> s_blocking p = false \/ stopping s = true ->
  submit_step s p i = Some (s', es) -> (pool_fuel s' < pool_fuel s)%nat.
Proof.
  intros Em Hb Hs. unfold submit_step in Hs. unfold pool_fuel. rewrite Em.
  destruct (s_pc p) eqn:Epc; cbn [from_option owner_fuel]; rewrite Epc.
  - destruct Hb as [Hb|Hb]; rewrite Hb, ?orb_true_r in Hs; [destruct (_ || _)|destruct (s_blocking p)]; simplify_eq/=; lia.
  - destruct (stopping s); simplify_eq/=; lia.
  - simplify_eq/=. rewrite length_app. simpl. lia.
  - simplify_eq/=. lia.
  - destruct (notify_worker s i) as [s1|] eqn:En; simplify_eq/=.
    destruct (notify_worker_moves _ _ _ En) as [->|[Ea ->]]; simpl; [lia|].
    pose proof (workers_fuel_insert (workers s) i WAsleep WNotified Ea) as Hf. simpl in Hf. lia.
Qed.

#[export] Program Instance thread_task_pool : TaskPool T := {
  tp := shared_pool;
  tp_act := pool_inside;
  tp_inner := by_itself;
  tp_new n max := (pool_new n max, ∅);
  tp_submit := pool_submit;
  tp_fetch := pool_fetch;
  tp_step := pool_inside_step;
  tp_repr := shared_pool_repr;
  tp_submit_repr := pool_submit_ok;
  tp_fetch_repr := pool_fetch_ok;
  tp_step_repr := pool_inside_ok;
  tp_cost := 17;
  tp_fuel p := pool_fuel p.1;
}.
Next Obligation.
  intros n max. split_and!; [|done|done]. constructor; simpl; try done.
  - exists []. apply pool_new_inv.
  - apply length_replicate.
  - unfold in_hand. simpl. induction n; simpl; [done|exact IHn].
  - intros w pc _ H. apply lookup_replicate in H as [-> _]. by right.
  - intros w H. by apply lookup_replicate in H as [? _].
Qed.
Next Obligation.
  intros n p q o F x Hr Ho. apply (pool_inside_live n p q o F Hr). destruct Hr as (Hi & -> & ->).
  apply (owner_live n p.1 q p.2 Hi). destruct Ho as [Ho|Ho].
  - unfold undecided in Ho. destruct (mtx p.1); [done|by destruct Ho].
  - unfold pool_submit in Ho. simpl in Ho. by destruct (mtx p.1).
Qed.
Next Obligation.
  intros n p q o F w (Hi & -> & ->) Hw Hn. unfold pool_fetch. rewrite decide_True; [by eexists|].
  by rewrite (pr_len _ _ _ _ Hi).
Qed.
Next Obligation.
  intros n p q o F Hr Hn Hq. pose proof Hr as (Hi & -> & ->).
  destruct (pool_work n p.1 q p.2 Hi Hn Hq) as [H|[H|H]]; [left|left|by right];
    apply (pool_inside_live n p q _ _ Hr); [by left|by right].
Qed.
Next Obligation.
  intros x p p' Hs. unfold pool_submit in Hs. cbv beta. destruct p as [s F]. cbn [fst snd] in *.
  destruct (pool_step (Submit 0 false x) s) as [[s' es]|] eqn:E; [|done]. simplify_eq/=.
  unfold pool_fuel. destruct (mtx s); simplify_eq/=. lia.
Qed.
Next Obligation.
  intros w p p' Hs. unfold pool_fetch in Hs. case_decide; simplify_eq/=. lia.
Qed.
Next Obligation.
  intros n p q o F a p' r (Hi & _ & _) Ha Hs. cbv beta. destruct p as [s F0]. cbn [fst] in *.
  destruct a as [i|w i|w]; [| |done]; cbn [pool_inside_step] in Hs.
  - pose proof (pr_owner _ _ _ _ Hi) as Ho. cbn [pool_step] in Hs. destruct (mtx s) as [[x|]|] eqn:Em; [|done|done].
    destruct (submit_step s x i) as [[s' es]|] eqn:E; [|done]. simplify_eq/=. destruct Ho as [Hb _].
    eapply submit_step_fuel; [exact Em|by left|exact E].
  - case_decide; [|done]. destruct (pool_step (StepWorker w i) s) as [[s' es]|] eqn:E; [|done].
    cbn [mbind option_bind] in Hs. assert (p'.1 = s') as ->.
    { by destruct es as [|[] []]; simplify_eq/=. }
    by eapply worker_step_fuel.
Qed.

End shared_pool.
