(* ===== verification/PoolStop.v ===== *)
(** * PoolStop: [stop] of [thread_pool] always returns

    Once [stop] has been called, the workers, the submitters, the callers of
    [pop_task] and the stopping thread can make only a bounded number of steps,
    and some of them can, until all have returned: the flags are stored before
    the lock is taken to notify, so no worker and no blocked [push] can go to
    sleep after the notification. *)

From S2P Require Import Prelude Shared ThreadPool SharedPool.

Local Open Scope Z_scope.

Section pool_stop.
Context {T : Type}.
Implicit Types (s : thread_pool T).

(** The steps of threads that are inside; new calls and spurious wake-ups are
    not. *)
Definition from_inside (a : pool_action T) : Prop :=
  match a with
  | StepSubmit _ | WakeSubmit _ | StepWorker _ _ | StepStop _ | StepOutside _ _ => True
  | _ => False
  end.

Definition pool_move (a : pool_action T) (s : thread_pool T) : option (thread_pool T) :=
  fst <$> pool_step a s.

(** Every call has returned: no task is left and no thread is inside. *)
Definition stop_returned (s : thread_pool T) : Prop :=
  stopper s = Some SDone /\ task_queue s = [] /\ Forall (fun w => w = WExit) (workers s) /\
  mtx s = None /\ not_full_asleep s = [] /\ not_full_notified s = [] /\ outside s = [].

(** ** Invariant *)

(** What the stopping thread has stored so far. *)
Definition stored (s : thread_pool T) : Prop :=
  match stopper s with
  | None => True
  | Some (SFlags k) => forall j, (j < k)%nat -> stop_flags s !! j <> Some false
  | Some _ => is_done s = true \/ Forall (fun f => f = true) (stop_flags s)
  end.

(** From the notification on nobody sleeps. *)
Record stop_inv (s : thread_pool T) : Prop := {
  st_pool : exists evs, pool_inv s evs;
  st_owner : forall w, mtx s = Some (OWorker w) -> workers s !! w = Some WPredicate;
  st_len : length (stop_flags s) = length (workers s);
  st_stored : stored s;
  st_awake : past_lock (stopper s) = true ->
    not_full_asleep s = [] /\ forall w, workers s !! w <> Some WAsleep;
}.

(** ** Lemmas *)

Lemma past_stopping s : stop_inv s -> past_lock (stopper s) = true -> stopping s = true.
Proof. intros [[evs Hi] _ _ _ _] Hp. apply (inv_stopper _ _ Hi). by destruct (stopper s). Qed.

(** After the notification a worker at its predicate does not go to sleep. *)
Lemma told_to_stop s w pc :
  stop_inv s -> past_lock (stopper s) = true -> workers s !! w = Some pc ->
  is_done s || default false (stop_flags s !! w) = true.
Proof.
  intros [_ _ Hl Hs _] Hp Hw. unfold stored in Hs.
  assert (is_done s = true \/ Forall (fun f => f = true) (stop_flags s)) as [->|Hf]; [|done|].
  { by destruct (stopper s) as [[]|]. }
  destruct (lookup_lt_is_Some_2 (stop_flags s) w) as [f Ef].
  { rewrite Hl. by eapply lookup_lt_Some. }
  rewrite Ef. rewrite (proj1 (Forall_lookup _ _) Hf w f Ef). simpl. by rewrite orb_true_r.
Qed.

(** A step of worker [w] from [pc] to [pc']. *)
Lemma worker_stop_inv s s' w pc pc' :
  stop_inv s -> (exists evs, pool_inv s' evs) -> workers s !! w = Some pc -> workers s' = <[w := pc']> (workers s) ->
  stop_flags s' = stop_flags s -> is_done s' = is_done s -> stopper s' = stopper s ->
  (not_full_asleep s = [] -> not_full_asleep s' = []) ->
  mtx s' = None \/ mtx s' = mtx s /\ pc <> WPredicate \/ mtx s' = Some (OWorker w) /\ pc' = WPredicate ->
  (past_lock (stopper s) = true -> pc' <> WAsleep) -> stop_inv s'.
Proof.
  intros [H1 H2 H3 H4 H5] Hi Hw Ew Ef Ed Ep Ha Hm Hn. constructor; rewrite ?Ew, ?Ef, ?Ep; try done.
  - intros k Hk. destruct Hm as [Hm|[[Hm Hne]|[Hm ->]]]; [congruence| |].
    + rewrite Hm in Hk. apply H2 in Hk. rewrite list_lookup_insert_ne; [done|]. intros ->. congruence.
    + rewrite Hm in Hk. injection Hk as <-. apply list_lookup_insert_eq. by eapply lookup_lt_Some.
  - by rewrite length_insert.
  - unfold stored in *. by rewrite Ep, Ef, Ed.
  - intros Hp. destruct (H5 Hp) as [A1 A2]. split; [by apply Ha|]. intros k.
    destruct (decide (k = w)) as [->|Hne]; [|by rewrite list_lookup_insert_ne].
    rewrite list_lookup_insert_eq by (by eapply lookup_lt_Some). intros [= E]. by apply Hn.
Qed.

(** A step that changes no worker and no flag. *)
Lemma other_stop_inv s s' :
  stop_inv s -> (exists evs, pool_inv s' evs) -> workers s' = workers s -> stop_flags s' = stop_flags s ->
  is_done s' = is_done s -> stopper s' = stopper s ->
  (past_lock (stopper s) = true -> not_full_asleep s = [] -> not_full_asleep s' = []) ->
  (forall w, mtx s' = Some (OWorker w) -> mtx s = Some (OWorker w)) -> stop_inv s'.
Proof.
  intros [H1 H2 H3 H4 H5] Hi Ew Ef Ed Ep Ha Hm. constructor; rewrite ?Ew, ?Ef, ?Ep; try done.
  - auto.
  - unfold stored in *. by rewrite Ep, Ef, Ed.
  - intros Hp. destruct (H5 Hp). split; auto.
Qed.

(** What [on_task_dequeued] does to the sleepers. *)
Lemma notify_not_full_spec s i s' :
  notify_not_full s i = Some s' ->
  s' = s /\ not_full_asleep s = [] \/
  exists p, not_full_asleep s !! i = Some p /\
    s' = set_not_full s (delete i (not_full_asleep s)) (p :: not_full_notified s).
Proof.
  unfold notify_not_full. destruct (not_full_asleep s !! i) as [p|] eqn:E; intros; simplify_eq; [by right; exists p|].
  destruct (not_full_asleep s) eqn:Ea; simplify_eq. by left.
Qed.

Lemma dequeued_asleep s d i s' d' :
  dequeued_step s d i = Some (s', d') -> not_full_asleep s = [] -> not_full_asleep s' = [].
Proof.
  destruct d; simpl; intros Hs Ha; simplify_eq; [done|done|].
  destruct (notify_not_full s i) as [s1|] eqn:E; simplify_eq/=.
  destruct (notify_not_full_spec _ _ _ E) as [[-> _]|(p & Hp & ->)]; [done|]. by rewrite Ha in Hp.
Qed.

Lemma worker_stop_step s w i s' es :
  stop_inv s -> pool_step (StepWorker w i) s = Some (s', es) -> stop_inv s'.
Proof.
  intros Hi Hs. assert (exists evs, pool_inv s' evs) as Hi'.
  { destruct (st_pool _ Hi) as [evs Hp]. eexists. by eapply pool_step_inv. }
  cbn [pool_step] in Hs. unfold worker_step in Hs. destruct (workers s !! w) as [pc|] eqn:Ew; [|done].
  cbn [mbind option_bind] in Hs.
  assert (forall pc', workers s' = <[w := pc']> (workers s) ->
    stop_flags s' = stop_flags s -> is_done s' = is_done s -> stopper s' = stopper s ->
    (not_full_asleep s = [] -> not_full_asleep s' = []) ->
    mtx s' = None \/ mtx s' = mtx s /\ pc <> WPredicate \/ mtx s' = Some (OWorker w) /\ pc' = WPredicate ->
    (past_lock (stopper s) = true -> pc' <> WAsleep) -> stop_inv s') as Hmove by (intros; by eapply worker_stop_inv).
  destruct pc as [|d task|task| | | | | |]; unfold take in Hs; try done.
  - destruct (task_queue s); simplify_eq/=;
      [apply (Hmove WLock)|apply (Hmove (WDequeued DSub t))]; try done; by right; left.
  - destruct (dequeued_step s d i) as [[s1 d']|] eqn:Ed; simplify_eq/=.
    pose proof (dequeued_step_core _ _ _ _ _ Ed) as (_ & E2 & E3 & E4 & E5 & E6 & E7).
    apply (Hmove (match d' with Some d' => WDequeued d' task | None => WRun task end)); simpl; try done.
    + by rewrite E2.
    + by eapply dequeued_asleep.
    + right; left. split; [done|by destruct d'].
    + by destruct d'.
  - simplify_eq/=. apply (Hmove WFlag); try done. by right; left.
  - simplify_eq/=. apply (Hmove (if default false (stop_flags s !! w) then WExit else WTryPop)); try done;
      [by right; left|by destruct (default _ _)].
  - destruct (mtx s) eqn:Em; simplify_eq/=. apply (Hmove WPredicate); try done. by right; right.
  - destruct (task_queue s) eqn:Eq; simplify_eq/=.
    + destruct (is_done s || _) eqn:Ed; simplify_eq/=; [apply (Hmove WExit)|apply (Hmove WAsleep)]; try done; try by left.
      intros Hp. by rewrite (told_to_stop s w _ Hi Hp Ew) in Ed.
    + apply (Hmove (WDequeued DSub t)); try done. by left.
  - destruct (mtx s) eqn:Em; simplify_eq/=. apply (Hmove WPredicate); try done. by right; right.
Qed.

Lemma submit_stop_step s i s' es :
  stop_inv s -> pool_step (StepSubmit i) s = Some (s', es) -> stop_inv s'.
Proof.
  intros Hi Hs. assert (exists evs, pool_inv s' evs) as Hi'.
  { destruct (st_pool _ Hi) as [evs Hp]. eexists. by eapply pool_step_inv. }
  cbn [pool_step] in Hs. destruct (mtx s) as [[p|]|] eqn:Em; [|done|done].
  unfold submit_step, with_pc in Hs. destruct (s_pc p).
  - destruct (s_blocking p).
    + destruct (_ || stopping s) eqn:E; simplify_eq/=; apply (other_stop_inv s); try done.
      intros Hp _. apply past_stopping in Hp; [|done]. rewrite Hp, orb_true_r in E. done.
    + destruct (_ || stopping s); simplify_eq/=; by apply (other_stop_inv s).
  - destruct (stopping s); simplify_eq/=; by apply (other_stop_inv s).
  - simplify_eq/=. by apply (other_stop_inv s).
  - simplify_eq/=. by apply (other_stop_inv s).
  - destruct (notify_worker s i) as [s1|] eqn:En; simplify_eq/=.
    destruct (notify_worker_moves _ _ _ En) as [->|[Ea ->]]; [by apply (other_stop_inv s)|].
    eapply (worker_stop_inv s _ i WAsleep WNotified); try done. by left.
Qed.

Lemma stop_stop_step s i s' es :
  stop_inv s -> pool_step (StepStop i) s = Some (s', es) -> stop_inv s'.
Proof.
  intros Hi Hs. assert (exists evs, pool_inv s' evs) as Hi'.
  { destruct (st_pool _ Hi) as [evs Hp]. eexists. by eapply pool_step_inv. }
  destruct Hi as [H1 H2 H3 H4 H5]. cbn [pool_step] in Hs. destruct (stopper s) as [pc|] eqn:Ep; [|done].
  cbn [mbind option_bind] in Hs. unfold stored in H4. rewrite Ep in H4.
  destruct pc as [k|again|again d| | |]; simpl in Hs.
  - destruct (k <? length (stop_flags s))%nat eqn:Ek; simplify_eq/=; (constructor; simpl; try done).
    + by rewrite length_insert.
    + unfold stored. simpl. intros j Hj. destruct (decide (j = k)) as [->|]; [rewrite list_lookup_insert_eq by (hp_bool; lia); done|].
      rewrite list_lookup_insert_ne by done. apply H4. lia.
    + right. apply Forall_lookup. intros j f Hf. hp_bool. simpl in Hf.
      pose proof (lookup_lt_Some _ _ _ Hf).
      destruct f; [done|]. by destruct (H4 j ltac:(lia)).
  - unfold clear_step in Hs. destruct (task_queue s); simplify_eq/=.
    + by destruct again; constructor.
    + by destruct again; constructor.
  - destruct (dequeued_step s d i) as [[s1 d']|] eqn:Ed; simplify_eq/=.
    pose proof (dequeued_step_core _ _ _ _ _ Ed) as (_ & E2 & E3 & E4 & E5 & E6 & E7).
    constructor; [done|..]; simpl; rewrite ?E2, ?E3, ?E7; try done.
    + unfold stored. simpl. rewrite ?E5. by destruct d'.
    + intros Hp. destruct H5 as [A1 A2]; [by destruct d', again|]. split; [by eapply dequeued_asleep|done].
  - destruct (mtx s) eqn:Em; simplify_eq/=. constructor; simpl; try done.
    + by rewrite Em.
    + unfold wake_all. by rewrite length_fmap.
    + intros _. split; [done|]. intros w. unfold wake_all. rewrite list_lookup_fmap.
      by destruct (workers s !! w) as [[]|].
  - destruct (forallb _ _); simplify_eq/=. by constructor.
  - done.
Qed.

Lemma pool_stop_step a s s' es : stop_inv s -> pool_step a s = Some (s', es) -> stop_inv s'.
Proof.
  intros Hi Hs. assert (exists evs, pool_inv s' evs) as Hi'.
  { destruct (st_pool _ Hi) as [evs Hp]. eexists. by eapply pool_step_inv. }
  destruct a as [tid b task|i|i|w i|wait|i| |k i|w|i].
  - simpl in Hs. destruct (mtx s) eqn:Em; simplify_eq. by apply (other_stop_inv s).
  - by eapply submit_stop_step.
  - simpl in Hs. destruct (mtx s) eqn:Em; [done|]. destruct (not_full_notified s !! i); simplify_eq.
    by apply (other_stop_inv s).
  - by eapply worker_stop_step.
  - simpl in Hs. destruct Hi as [H1 H2 H3 H4 H5].
    destruct (stopper s) as [[]|] eqn:Ep; try done; destruct wait; repeat case_match; simplify_eq/=;
      (constructor; simpl; try done); try (by left); intros j Hj; lia.
  - by eapply stop_stop_step.
  - simpl in Hs. destruct (task_queue s); simplify_eq. by apply (other_stop_inv s).
  - simpl in Hs. destruct (outside s !! k) as [d|]; [|done]. simpl in Hs.
    destruct (dequeued_step s d i) as [[s1 d']|] eqn:Ed; simplify_eq/=.
    pose proof (dequeued_step_core _ _ _ _ _ Ed) as (_ & E2 & E3 & E4 & E5 & E6 & E7).
    apply (other_stop_inv s); try done; simpl; [intros _; by eapply dequeued_asleep|by rewrite E7].
  - simpl in Hs. destruct (workers s !! w) as [[]|] eqn:Ew; simplify_eq.
    eapply (worker_stop_inv s _ w WAsleep WNotified); try done. by right; left.
  - simpl in Hs. destruct (not_full_asleep s !! i) eqn:Ea; simplify_eq.
    apply (other_stop_inv s); try done. intros _ E. by rewrite E in Ea.
Qed.

(** ** The measure *)

Definition dequeue_fuel (d : dequeue_pc) : nat :=
  match d with DSub => 3 | DFix => 2 | DNotify => 1 end.

(** [n] workers to wake, [f] flags to store. *)
Definition stopper_fuel (n f : nat) (pc : stop_pc) : nat :=
  match pc with
  | SFlags k => 3 * n + 5 + (f - k)
  | SClear false => 3 * n + 4
  | SDequeued false d => 3 * n + 4 + dequeue_fuel d
  | SNotifyAll => 3 * n + 3
  | SJoin => 2
  | SClear true => 1
  | SDequeued true d => 1 + dequeue_fuel d
  | SDone => 0
  end.

(** The threads other than the workers and the holder of [mtx]. *)
Definition others_fuel (s : thread_pool T) : nat :=
  19 * length (not_full_asleep s) + 18 * length (not_full_notified s) +
  sum_list (dequeue_fuel <$> outside s) +
  from_option (stopper_fuel (length (workers s)) (length (stop_flags s))) 0%nat (stopper s).

Definition stop_fuel (s : thread_pool T) : nat := pool_fuel s + others_fuel s.

Lemma others_same s s' :
  not_full_asleep s' = not_full_asleep s -> not_full_notified s' = not_full_notified s -> outside s' = outside s ->
  length (workers s') = length (workers s) -> stop_flags s' = stop_flags s -> stopper s' = stopper s ->
  others_fuel s' = others_fuel s.
Proof. unfold others_fuel. by intros -> -> -> -> -> ->. Qed.

(** A dequeuing thread's step, and what it does to the blocked submitters. *)
Lemma dequeued_fuel s d i s' d' :
  dequeued_step s d i = Some (s', d') ->
  (from_option dequeue_fuel 0%nat d' < dequeue_fuel d)%nat /\ outside s' = outside s /\ pool_fuel s' = pool_fuel s /\
  (others_fuel s' <= others_fuel s)%nat.
Proof.
  destruct d; simpl; intros Hs; simplify_eq/=.
  - split_and!; [destruct (_ =? _); simpl; lia|done|done|by rewrite (others_same s)].
  - split_and!; [lia|done|done|by rewrite (others_same s)].
  - destruct (notify_not_full s i) as [s1|] eqn:E; simplify_eq/=.
    destruct (notify_not_full_spec _ _ _ E) as [[-> _]|(p & Hp & ->)]; split_and!; try done; try lia.
    unfold others_fuel. simpl. pose proof (lookup_lt_Some _ _ _ Hp). rewrite length_delete by (by rewrite Hp). lia.
Qed.

Lemma worker_stop_fuel s w i s' es :
  pool_step (StepWorker w i) s = Some (s', es) -> (stop_fuel s' < stop_fuel s)%nat.
Proof.
  intros Hs. pose proof (worker_step_fuel s w i s' es Hs) as Hf. unfold stop_fuel.
  assert (others_fuel s' <= others_fuel s)%nat; [|lia].
  cbn [pool_step] in Hs. unfold worker_step in Hs. destruct (workers s !! w) as [pc|] eqn:Ew; [|done].
  cbn [mbind option_bind] in Hs.
  destruct pc as [|d task|task| | | | | |]; unfold take in Hs; try done.
  2:{ destruct (dequeued_step s d i) as [[s1 d']|] eqn:Ed; simplify_eq/=.
      destruct (dequeued_fuel _ _ _ _ _ Ed) as (_ & _ & _ & Ho).
      by rewrite (others_same s1) by (try done; simpl; by rewrite length_insert). }
  all: repeat case_match; simplify_eq/=; rewrite (others_same s); try done; simpl; by rewrite length_insert.
Qed.

Lemma submit_stop_fuel s i s' es :
  stopping s = true -> pool_step (StepSubmit i) s = Some (s', es) -> (stop_fuel s' < stop_fuel s)%nat.
Proof.
  intros Hst Hs. cbn [pool_step] in Hs. destruct (mtx s) as [[p|]|] eqn:Em; [|done|done].
  pose proof (submit_step_fuel s p i s' es Em (or_intror Hst) Hs) as Hf. unfold stop_fuel.
  rewrite (others_same s); [lia|..]; unfold submit_step in Hs; rewrite Hst, ?orb_true_r in Hs;
    destruct (s_pc p), (s_blocking p); simplify_eq/=; try done;
    destruct (notify_worker s i) as [s1|] eqn:En; simplify_eq/=;
    destruct (notify_worker_moves _ _ _ En) as [->|[_ ->]]; try done; simpl; by rewrite length_insert.
Qed.

Lemma wake_all_fuel (ws : list (worker_pc T)) : (workers_fuel (wake_all ws) <= workers_fuel ws + 3 * length ws)%nat.
Proof.
  unfold workers_fuel, wake_all. induction ws as [|pc ws IH]; [simpl; lia|].
  rewrite !fmap_cons. cbn [sum_list_with length]. unfold id in *.
  destruct pc as [|[]| | | | | | |]; cbn [worker_fuel]; lia.
Qed.

Lemma stopper_step_fuel s i s' es :
  pool_step (StepStop i) s = Some (s', es) -> (stop_fuel s' < stop_fuel s)%nat.
Proof.
  cbn [pool_step]. destruct (stopper s) as [pc|] eqn:Ep; [|done]. cbn [mbind option_bind]. intros Hs.
  unfold stop_fuel, pool_fuel, others_fuel. rewrite Ep. destruct pc as [k|again|again d| | |]; simpl in Hs.
  - destruct (k <? length (stop_flags s))%nat eqn:Ek; simplify_eq/=; hp_bool; rewrite ?length_insert; lia.
  - unfold clear_step in Hs. destruct (task_queue s) eqn:Eq; simplify_eq/=; rewrite ?Eq; destruct again; simpl; lia.
  - destruct (dequeued_step s d i) as [[s1 d']|] eqn:Ed; simplify_eq/=.
    pose proof (dequeued_step_core _ _ _ _ _ Ed) as (E1 & E2 & E3 & E4 & E5 & E6 & E7).
    destruct (dequeued_fuel _ _ _ _ _ Ed) as (Hd & _ & Hp & Ho). unfold others_fuel in Ho.
    rewrite E1, E2, E7 in *. rewrite E6, E3, Ep in Ho. simpl in Ho. simpl.
    destruct d' as [d'|]; simpl in Hd |- *; destruct again; simpl in *; lia.
  - destruct (mtx s) eqn:Em; simplify_eq/=. rewrite Em. simpl. pose proof (wake_all_fuel (workers s)).
    rewrite length_app. lia.
  - destruct (forallb _ _); simplify_eq/=. lia.
  - done.
Qed.

Lemma outside_step_fuel s k i s' es :
  pool_step (StepOutside k i) s = Some (s', es) -> (stop_fuel s' < stop_fuel s)%nat.
Proof.
  cbn [pool_step]. destruct (outside s !! k) as [d|] eqn:Ek; [|done]. cbn [mbind option_bind]. intros Hs.
  destruct (dequeued_step s d i) as [[s1 d']|] eqn:Ed; simplify_eq/=.
  destruct (dequeued_fuel _ _ _ _ _ Ed) as (Hd & Eo & Hp & Ho). unfold stop_fuel.
  assert (pool_fuel (set_outside s1 match d' with Some d' => <[k:=d']> (outside s) | None => delete k (outside s) end)
    = pool_fuel s1) as -> by done.
  assert (sum_list (dequeue_fuel <$> match d' with Some d' => <[k:=d']> (outside s) | None => delete k (outside s) end) <
    sum_list (dequeue_fuel <$> outside s))%nat as Hsum.
  { destruct d' as [d'|]; simpl in Hd.
    - rewrite list_fmap_insert. assert ((dequeue_fuel <$> outside s) !! k = Some (dequeue_fuel d)) as Hl
        by (by rewrite list_lookup_fmap, Ek).
      pose proof (sum_list_insert _ k _ (dequeue_fuel d') Hl). lia.
    - rewrite <- (take_drop_middle _ _ _ Ek) at 2. rewrite delete_take_drop, !fmap_app, fmap_cons, !sum_list_with_app.
      cbn [sum_list_with]. unfold id. lia. }
  unfold others_fuel in *. simpl. rewrite Eo in Ho. lia.
Qed.

Lemma stop_step_fuel a s s' :
  stopping s = true -> from_inside a -> pool_move a s = Some s' -> (stop_fuel s' < stop_fuel s)%nat.
Proof.
  intros Hst Ha Hm. unfold pool_move in Hm. destruct (pool_step a s) as [[s1 es]|] eqn:Hs; simplify_eq/=.
  destruct a as [| i|i|w i| |i| |k i| |]; try done.
  - by eapply submit_stop_fuel.
  - simpl in Hs. destruct (mtx s) eqn:Em; [done|]. destruct (not_full_notified s !! i) as [p|] eqn:Ei; simplify_eq.
    unfold stop_fuel, pool_fuel, others_fuel. simpl. rewrite Em. simpl.
    pose proof (lookup_lt_Some _ _ _ Ei). rewrite length_delete by (by rewrite Ei). lia.
  - by eapply worker_stop_fuel.
  - by eapply stopper_step_fuel.
  - by eapply outside_step_fuel.
Qed.

(** ** Progress *)

Lemma notify_not_full_live s : exists i, is_Some (notify_not_full s i).
Proof.
  unfold notify_not_full. exists 0%nat. destruct (not_full_asleep s); simpl; by eexists.
Qed.

Lemma dequeued_live s d : exists i, is_Some (dequeued_step s d i).
Proof.
  destruct d; simpl; [exists 0%nat; by eexists..|].
  destruct (notify_not_full_live s) as (i & s1 & E). exists i. rewrite E. by eexists.
Qed.

Lemma notify_worker_live s : exists i, is_Some (notify_worker s i).
Proof.
  unfold notify_worker. destruct (existsb _ (workers s)) eqn:E.
  - apply existsb_exists in E as (pc & Hin & Hpc). destruct pc; try done.
    apply list_elem_of_In, list_elem_of_lookup in Hin as [i Hi]. exists i. rewrite Hi. by eexists.
  - exists 0%nat. destruct (workers s !! 0%nat) as [[]|]; by eexists.
Qed.

Lemma moves a s : from_inside a -> is_Some (pool_step a s) -> exists a, from_inside a /\ is_Some (pool_move a s).
Proof. intros Ha [[s' es] E]. exists a. split; [done|]. unfold pool_move. rewrite E. by eexists. Qed.

(** Whoever holds [mtx] can move. *)
Lemma holder_moves s : stop_inv s -> is_Some (mtx s) -> exists a, from_inside a /\ is_Some (pool_move a s).
Proof.
  intros Hi [[p|w] Em].
  - assert (exists i, is_Some (submit_step s p i)) as [i Hs].
    { unfold submit_step. destruct (s_pc p); try (exists 0%nat; repeat case_match; by eexists).
      destruct (notify_worker_live s) as (i & s1 & E). exists i. rewrite E. by eexists. }
    apply (moves (StepSubmit i)); [done|]. simpl. by rewrite Em.
  - apply (moves (StepWorker w 0)); [done|]. simpl. unfold worker_step. rewrite (st_owner _ Hi w Em). simpl.
    destruct (take s w) as [[]|]; [by eexists|]. destruct (_ || _); by eexists.
Qed.

(** A worker that neither sleeps nor has returned can move when [mtx] is free. *)
Lemma awake_moves s w pc :
  mtx s = None -> workers s !! w = Some pc -> awake pc -> exists a, from_inside a /\ is_Some (pool_move a s).
Proof.
  intros Em Ew Ha. assert (exists i, is_Some (worker_step s w i)) as [i Hs]; [|by apply (moves (StepWorker w i))].
  unfold worker_step. rewrite Ew, Em. simpl. destruct pc as [|d task|task| | | | | |]; try done; try (exists 0%nat; by eexists).
  - exists 0%nat. destruct (take s w) as [[]|]; by eexists.
  - destruct (dequeued_live s d) as (i & [s1 d'] & E). exists i. rewrite E. by eexists.
  - exists 0%nat. destruct (take s w) as [[]|]; [by eexists|]. destruct (_ || _); by eexists.
Qed.

(** The stopping thread waits only for [mtx], and for workers that can move. *)
Lemma stopper_moves s pc :
  stop_inv s -> mtx s = None -> stopper s = Some pc -> pc <> SDone ->
  exists a, from_inside a /\ is_Some (pool_move a s).
Proof.
  intros Hi Em Ep Hn.
  assert ((exists i, is_Some (stop_step s pc i)) -> exists a, from_inside a /\ is_Some (pool_move a s)) as Hstop.
  { intros [i Hs]. apply (moves (StepStop i)); [done|]. simpl. by rewrite Ep. }
  destruct pc as [k|again|again d| | |]; try done.
  - apply Hstop. exists 0%nat. simpl. by eexists.
  - apply Hstop. exists 0%nat. simpl. by eexists.
  - apply Hstop. destruct (dequeued_live s d) as (i & [s1 d'] & E). exists i. simpl. rewrite E. by eexists.
  - apply Hstop. exists 0%nat. simpl. rewrite Em. by eexists.
  - destruct (forallb (fun w => match w with WExit => true | _ => false end) (workers s)) eqn:Ef.
    { apply Hstop. exists 0%nat. simpl. rewrite Ef. by eexists. }
    assert (exists w pc, workers s !! w = Some pc /\ awake pc) as (w & pc & Ew & Ha); [|by eapply awake_moves].
    destruct (st_awake _ Hi) as [_ Hno]; [by rewrite Ep|].
    clear -Ef Hno. revert Hno Ef. induction (workers s) as [|pc ws IH]; [done|]. intros Hno Ef.
    assert (awake pc \/ pc = WAsleep \/ pc = WExit) as [Ha|[-> | ->]] by (destruct pc; simpl; tauto);
      [by exists 0%nat, pc|by destruct (Hno 0%nat)|].
    destruct IH as (w & pc' & Hw & Ha'); [by intros w; apply (Hno (S w))|done|by exists (S w), pc'].
Qed.

Lemma stop_live s :
  stop_inv s -> stopper s <> None -> stop_returned s \/ exists a, from_inside a /\ is_Some (pool_move a s).
Proof.
  intros Hi Hp. destruct (mtx s) as [o|] eqn:Em; [right; apply holder_moves; [done|by rewrite Em]|].
  destruct (not_full_notified s) as [|p l] eqn:En.
  2:{ right. apply (moves (WakeSubmit 0)); [done|]. simpl. rewrite Em, En. simpl. by eexists. }
  destruct (outside s) as [|d l] eqn:Eo.
  2:{ right. destruct (dequeued_live s d) as (i & [s1 d'] & E). apply (moves (StepOutside 0 i)); [done|].
      simpl. rewrite Eo. simpl. rewrite E. by eexists. }
  destruct (stopper s) as [pc|] eqn:Ep; [|done].
  assert (pc = SDone \/ pc <> SDone) as [->|Hn] by (destruct pc; by (left + right)); [left|right; by eapply stopper_moves].
  destruct (st_pool _ Hi) as [evs Hpool]. split_and!; try done.
  - by apply (inv_done _ _ Hpool).
  - apply (inv_joined _ _ Hpool). by rewrite Ep.
  - apply (st_awake _ Hi). by rewrite Ep.
Qed.

Lemma stopper_stays a s s' es : pool_step a s = Some (s', es) -> stopper s <> None -> stopper s' <> None.
Proof.
  intros Hs Hp. destruct (stopper s) as [pc|] eqn:Ep; [clear Hp|done].
  destruct a as [tid b task|i|i|w i|wait|i| |k i|w|i]; simpl in Hs.
  - destruct (mtx s); simplify_eq/=. by rewrite Ep.
  - destruct (mtx s) as [[p|]|]; try done. unfold submit_step, with_pc in Hs.
    repeat case_match; simplify_eq/=; try (by rewrite Ep).
    destruct (notify_worker s i) eqn:En; simplify_eq/=.
    destruct (notify_worker_moves _ _ _ En) as [->|[_ ->]]; simpl; by rewrite Ep.
  - destruct (mtx s), (not_full_notified s !! i); simplify_eq/=. by rewrite Ep.
  - unfold worker_step, take in Hs. destruct (workers s !! w) as [[]|]; try done; simpl in Hs.
    2:{ destruct (dequeued_step s d i) as [[s1 d']|] eqn:Ed; simplify_eq/=.
        destruct (dequeued_step_core _ _ _ _ _ Ed) as (_ & _ & _ & _ & _ & -> & _). by rewrite Ep. }
    all: repeat case_match; simplify_eq/=; by rewrite Ep.
  - rewrite Ep in Hs. repeat case_match; by simplify_eq/=.
  - rewrite Ep in Hs. simpl in Hs. unfold stop_step, clear_step in Hs.
    destruct pc; repeat case_match; simplify_eq/=; try done.
    destruct (dequeued_step s d i) as [[s1 d']|]; by simplify_eq/=.
  - destruct (task_queue s); simplify_eq/=. by rewrite Ep.
  - destruct (outside s !! k) as [d|]; [|done]. simpl in Hs.
    destruct (dequeued_step s d i) as [[s1 d']|] eqn:Ed; simplify_eq/=.
    destruct (dequeued_step_core _ _ _ _ _ Ed) as (_ & _ & _ & _ & _ & -> & _). by rewrite Ep.
  - destruct (workers s !! w) as [[]|]; simplify_eq/=. by rewrite Ep.
  - destruct (not_full_asleep s !! i); simplify_eq/=. by rewrite Ep.
Qed.

Lemma pool_exec_stop acts s evs : stop_inv s -> stop_inv (foldl pool_exec (s, evs) acts).1.
Proof.
  revert s evs. induction acts as [|a acts IH]; intros s evs Hi; cbn [foldl]; [done|].
  unfold pool_exec at 2. simpl. destruct (pool_step a s) as [[s' es]|] eqn:Es; [|by apply IH].
  apply IH. by eapply pool_stop_step.
Qed.

Lemma pool_new_stop n max : stop_inv (pool_new (T := T) n max).
Proof.
  constructor; simpl; try done.
  - exists []. apply pool_new_inv.
  - by rewrite !length_replicate.
Qed.

End pool_stop.

(** C28: [stop] always returns.  From every state that any schedule of workers,
    submitters, blocked or not, [pop_task] callers and earlier stoppers reaches,
    once [stop] has been called the threads inside can make only a bounded number
    of steps, in whatever order, and as long as one of them has not returned some
    thread can; so in the end [stop] has returned, every worker has been joined,
    every blocked [push] has returned, and no task is left. *)
Theorem stop_returns_always {T} n max (acts : list (pool_action T)) :
  let s := (foldl pool_exec (pool_new n max, []) acts).1 in
  stopper s <> None -> comes_to_rest pool_move from_inside stop_returned s.
Proof.
  intros s Hp. apply (fuel_comes_to_rest _ _ _ (fun s => stop_inv s /\ stopper s <> None) stop_fuel).
  - intros a s0 s1 [Hi0 Hp0] Ha Hm. split; [|eapply stop_step_fuel; [|done|done]].
    + unfold pool_move in Hm. destruct (pool_step a s0) as [[s2 es]|] eqn:E; simplify_eq/=.
      split; [by eapply pool_stop_step|by eapply stopper_stays].
    + destruct (st_pool _ Hi0) as [evs Hpool]. by apply (inv_stopper _ _ Hpool).
  - intros s0 [Hi0 Hp0]. by apply stop_live.
  - split; [apply pool_exec_stop, pool_new_stop|done].
Qed.

(** A worker sleeps, a [push] is blocked on a full queue, and [stop(false)] has
    just been called. *)
Definition demo_stopping : list (pool_action nat) :=
  [StepWorker 0 0; StepWorker 0 0; StepWorker 0 0;
   Submit 1 true 7%nat; StepSubmit 0; StepSubmit 0; StepSubmit 0; StepSubmit 0; StepSubmit 0;
   Submit 2 true 8%nat; StepSubmit 0; Stop false].

Lemma stop_returns_always_witness :
  let s := (foldl pool_exec (pool_new 1 1, []) demo_stopping).1 in
  (length (not_full_asleep s), workers s) = (1%nat, [WNotified]) /\
  comes_to_rest pool_move from_inside stop_returned s.
Proof.
  cbn zeta. split; [vm_compute; reflexivity|].
  exact (stop_returns_always 1 1 demo_stopping ltac:(vm_compute; discriminate)).
Defined.
