(* ===== verification/Poller.v ===== *)
(** * Poller: src/src/net/core/poller.{h,cpp}

    The epoll wrapper: a valid instance has an interest list from descriptors
    to event masks.  The kernel's part of [epoll_ctl] is documented behaviour:
    adding a registered descriptor, changing or removing an unregistered one
    fails; closing a descriptor removes it.  That the kernel refuses a valid
    registration for want of memory or of watches is not modelled. *)

From S2P Require Import Prelude Sockets.

Local Open Scope Z_scope.

Definition EPOLLIN : Z := 1.
Definition EPOLLOUT : Z := 4.
Definition EPOLLERR : Z := 8.
Definition EPOLLHUP : Z := 16.
Definition EPOLLRDHUP : Z := 8192.
Definition EPOLLET : Z := 2 ^ 31.

(** A test of a mask, [(ev & bits) != 0]. *)
Definition has_event (ev bits : Z) : bool := negb (Z.land ev bits =? 0).

(* src/src/net/core/poller.h:8-10 poller *)
Record poller := mk_poller { epoll_fd_ : Z; interest : gmap Z Z }.

(** [epoll_create1] answered [fd], -1 on failure. *)
(* src/src/net/core/poller.cpp:7-11 poller::poller *)
Definition poller_new (fd : Z) : poller := mk_poller fd ∅.

(* src/src/net/core/poller.h:43-43 poller::valid *)
Definition poller_valid (p : poller) : bool := negb (epoll_fd_ p =? -1).

(** What a destroyed or overwritten instance closes. *)
(* src/src/net/core/poller.cpp:13-19 poller::~poller *)
Definition poller_closes (p : poller) : option Z :=
  if epoll_fd_ p =? -1 then None else Some (epoll_fd_ p).

(** Both moves leave -1 behind; the second closes what it overwrites, unless
    it is a self-move. *)
(* src/src/net/core/poller.cpp:21-23 poller::poller *)
Definition poller_move (other : poller) : poller * poller := (other, mk_poller (-1) ∅).

(* src/src/net/core/poller.cpp:25-37 poller::operator= *)
Definition poller_move_assign (self : bool) (p other : poller) : option Z * poller * poller :=
  if self then (None, p, p) else (poller_closes p, other, mk_poller (-1) ∅).

Inductive epoll_op := EPOLL_CTL_ADD | EPOLL_CTL_MOD | EPOLL_CTL_DEL.

(** [epoll_ctl]: whether it succeeds, and the interest list. *)
Definition epoll_ctl (op : epoll_op) (fd events : Z) (m : gmap Z Z) : bool * gmap Z Z :=
  match op, m !! fd with
  | EPOLL_CTL_ADD, None => (true, <[fd := events]> m)
  | EPOLL_CTL_MOD, Some _ => (true, <[fd := events]> m)
  | EPOLL_CTL_DEL, Some _ => (true, delete fd m)
  | _, _ => (false, m)
  end.

(** 0 on success, -1 on failure. *)
(* src/src/net/core/poller.cpp:39-68 poller::control *)
Definition control (p : poller) (op : epoll_op) (fd events : Z) : Z * poller :=
  if epoll_fd_ p =? -1 then (-1, p)
  else
    let '(ok, m) := epoll_ctl op fd events (interest p) in
    (if ok then 0 else -1, mk_poller (epoll_fd_ p) m).

(* src/src/net/core/poller.cpp:70-72 poller::add *)
Definition poller_add (p : poller) (fd events : Z) : Z * poller := control p EPOLL_CTL_ADD fd events.

(* src/src/net/core/poller.cpp:74-76 poller::modify *)
Definition poller_modify (p : poller) (fd events : Z) : Z * poller := control p EPOLL_CTL_MOD fd events.

(* src/src/net/core/poller.cpp:78-78 poller::remove *)
Definition poller_remove (p : poller) (fd : Z) : Z * poller := control p EPOLL_CTL_DEL fd 0.

(** The argument checks of [wait]; [answer] is [epoll_wait]'s. *)
(* src/src/net/core/poller.cpp:80-96 poller::wait *)
Definition poller_wait (p : poller) (events_is_null : bool) (max_events answer : Z) : Z :=
  if epoll_fd_ p =? -1 then -1
  else if events_is_null || (max_events <=? 0) then -1
  else answer.

Definition poller_ok (p : poller) : Prop := epoll_fd_ p <> -1.

Lemma poller_add_ok p fd ev :
  poller_ok p -> interest p !! fd = None ->
  poller_add p fd ev = (0, mk_poller (epoll_fd_ p) (<[fd := ev]> (interest p))).
Proof.
  unfold poller_ok, poller_add, control, epoll_ctl. intros Hp Hn.
  rewrite (proj2 (Z.eqb_neq _ _)) by done. by rewrite Hn.
Qed.

Lemma poller_modify_ok p fd ev :
  poller_ok p -> is_Some (interest p !! fd) ->
  poller_modify p fd ev = (0, mk_poller (epoll_fd_ p) (<[fd := ev]> (interest p))).
Proof.
  unfold poller_ok, poller_modify, control, epoll_ctl. intros Hp [e Hn].
  rewrite (proj2 (Z.eqb_neq _ _)) by done. by rewrite Hn.
Qed.

Lemma poller_remove_interest p fd :
  poller_ok p -> poller_ok (poller_remove p fd).2 /\
  interest (poller_remove p fd).2 = delete fd (interest p).
Proof.
  unfold poller_ok, poller_remove, control, epoll_ctl. intros Hp.
  rewrite (proj2 (Z.eqb_neq _ _)) by done. destruct (interest p !! fd) eqn:E; simpl; [done|].
  by rewrite delete_id.
Qed.
