(* ===== verification/SocketOps.v ===== *)
(** * SocketOps: src/src/net/core/socket_ops.{h,cpp}

    The owner of a descriptor: [socket_ops] closes what it holds when it is
    reset, assigned to or destroyed, and moves leave -1 behind.  The model has
    the objects of a program by identity, the kernel's table of open
    descriptors and, as ghost state, which open descriptors belong to someone
    else.  A [close] of a descriptor that is not open is recorded: it is the
    double close that, with descriptor reuse, closes a stranger's socket.

    The theorem: in every program that hands an object only descriptors it owns
    itself, no descriptor is closed twice, none leaks and no two objects share
    one.  The remaining methods forward to the system call; what each reports
    through [perror] is modelled with them. *)

From S2P Require Import Prelude Sockets.

Local Open Scope Z_scope.

(** ** The forwarding methods *)

(** A method that forwards a call: its answer, and the text it hands to
    [perror] when the call fails with an errno that is not an expected one. *)
Definition forwarded (name : string) (expected : list Z) (ret errno : Z) : Z * option string :=
  (ret, if (ret =? -1) && negb (bool_decide (errno ∈ expected)) then Some name else None).

(* src/src/net/core/socket_ops.cpp:42-48 socket_ops::bind *)
Definition sock_bind : Z -> Z -> Z * option string := forwarded "bind" [].
(* src/src/net/core/socket_ops.cpp:50-56 socket_ops::listen *)
Definition sock_listen : Z -> Z -> Z * option string := forwarded "listen" [].
(* src/src/net/core/socket_ops.cpp:58-64 socket_ops::accept *)
Definition sock_accept : Z -> Z -> Z * option string := forwarded "accept" [EAGAIN; EWOULDBLOCK; EINTR].
(* src/src/net/core/socket_ops.cpp:66-72 socket_ops::connect *)
Definition sock_connect : Z -> Z -> Z * option string := forwarded "connect" [EINPROGRESS; EINTR].
(* src/src/net/core/socket_ops.cpp:74-80 socket_ops::shutdown *)
Definition sock_shutdown : Z -> Z -> Z * option string := forwarded "shutdown" [].
(* src/src/net/core/socket_ops.cpp:82-88 socket_ops::read *)
Definition sock_read : Z -> Z -> Z * option string := forwarded "read" [].
(* src/src/net/core/socket_ops.cpp:90-96 socket_ops::write *)
Definition sock_write : Z -> Z -> Z * option string := forwarded "write" [].
(* src/src/net/core/socket_ops.cpp:98-104 socket_ops::recv *)
Definition sock_recv : Z -> Z -> Z * option string := forwarded "recv" [EAGAIN; EWOULDBLOCK; EINTR].
(* src/src/net/core/socket_ops.cpp:106-112 socket_ops::send *)
Definition sock_send : Z -> Z -> Z * option string := forwarded "send" [EAGAIN; EWOULDBLOCK; EINTR].
(* src/src/net/core/socket_ops.cpp:114-120 socket_ops::get_option *)
Definition sock_get_option : Z -> Z -> Z * option string := forwarded "getsockopt" [].
(* src/src/net/core/socket_ops.cpp:122-128 socket_ops::set_option *)
Definition sock_set_option : Z -> Z -> Z * option string := forwarded "setsockopt" [].

(** ** Objects and descriptors *)

(** An object is its [fd_]; the kernel's part is the table of open
    descriptors and whether a [close] missed it. *)
(* src/src/net/core/socket_ops.h:6-8 socket_ops *)
Record sock_world := mk_sw {
  objects : gmap nat Z;      (** live objects: their [fd_] *)
  open_fds : gset Z;         (** the process's open descriptors *)
  foreign : gset Z;          (** ghost: open and owned by no object *)
  bad_close : bool;          (** ghost: a descriptor was closed that was not open *)
}.

Definition set_object (w : sock_world) (o : nat) (fd : Z) : sock_world :=
  mk_sw (<[o := fd]> (objects w)) (open_fds w) (foreign w) (bad_close w).

Definition set_foreign (w : sock_world) (f : gset Z) : sock_world :=
  mk_sw (objects w) (open_fds w) f (bad_close w).

(** [::close]. *)
Definition sys_close (w : sock_world) (fd : Z) : sock_world :=
  mk_sw (objects w) (open_fds w ∖ {[fd]}) (foreign w)
    (bad_close w || negb (bool_decide (fd ∈ open_fds w))).

(** What the program opens and closes beside its objects: a call that answers
    a new descriptor, or -1, and its [::close]. *)
Definition kernel_open (w : sock_world) (fd : Z) : sock_world :=
  if fd =? -1 then w
  else mk_sw (objects w) (open_fds w ∪ {[fd]}) (foreign w ∪ {[fd]}) (bad_close w).

Definition kernel_close (w : sock_world) (fd : Z) : sock_world :=
  sys_close (set_foreign w (foreign w ∖ {[fd]})) fd.

Definition fd_of (w : sock_world) (o : nat) : Z := default (-1) (objects w !! o).

(* src/src/net/core/socket_ops.cpp:35-40 socket_ops::reset *)
Definition sock_reset (w : sock_world) (o : nat) (new_fd : Z) : sock_world :=
  let w := if negb (fd_of w o =? -1) then sys_close w (fd_of w o) else w in
  set_object w o new_fd.

(* src/src/net/core/socket_ops.cpp:29-33 socket_ops::release *)
Definition sock_release (w : sock_world) (o : nat) : Z * sock_world :=
  (fd_of w o, set_object w o (-1)).

(** [socket()] answered [fd], open from now on, or -1. *)
(* src/src/net/core/socket_ops.cpp:9-14 socket_ops::socket_ops *)
Definition sock_open (w : sock_world) (o : nat) (fd : Z) : sock_world :=
  mk_sw (<[o := fd]> (objects w)) (if fd =? -1 then open_fds w else open_fds w ∪ {[fd]})
    (foreign w) (bad_close w).

(* src/src/net/core/socket_ops.h:16-16 socket_ops::socket_ops *)
Definition sock_move (w : sock_world) (o other : nat) : sock_world :=
  let fd := fd_of w other in set_object (set_object w o fd) other (-1).

(* src/src/net/core/socket_ops.cpp:16-23 socket_ops::operator= *)
Definition sock_move_assign (w : sock_world) (o other : nat) : sock_world :=
  if (o =? other)%nat then w
  else
    let w := sock_reset w o (-1) in
    let fd := fd_of w other in
    set_object (set_object w o fd) other (-1).

(* src/src/net/core/socket_ops.cpp:25-27 socket_ops::~socket_ops *)
Definition sock_destroy (w : sock_world) (o : nat) : sock_world :=
  let w := sock_reset w o (-1) in
  mk_sw (delete o (objects w)) (open_fds w) (foreign w) (bad_close w).

(** ** Programs *)

Inductive sock_op :=
| SDefault (o : nat)                 (** [socket_ops s;] *)
| SAdopt (o : nat) (fd : Z)          (** [socket_ops s(fd);] *)
| SOpen (o : nat) (fd : Z)           (** [socket_ops s(domain, type, protocol);] *)
| SMove (o other : nat)              (** [socket_ops s(std::move(other));] *)
| SMoveAssign (o other : nat)
| SReset (o : nat) (fd : Z)
| SRelease (o : nat)
| SDestroy (o : nat)
| SForeignOpen (fd : Z)              (** a descriptor opened elsewhere *)
| SForeignClose (fd : Z).

(** What the program may do: constructors make new objects, methods use live
    ones, a descriptor handed over is the program's own (or -1), and the
    kernel returns descriptors that are not open. *)
Definition allowed (w : sock_world) (op : sock_op) : bool :=
  let live o := bool_decide (is_Some (objects w !! o)) in
  let own fd := (fd =? -1) || bool_decide (fd ∈ foreign w) in
  let fresh fd := (0 <=? fd) && negb (bool_decide (fd ∈ open_fds w)) in
  match op with
  | SDefault o => negb (live o)
  | SAdopt o fd => negb (live o) && own fd
  | SOpen o fd => negb (live o) && ((fd =? -1) || fresh fd)
  | SMove o other => negb (live o) && live other
  | SMoveAssign o other => live o && live other
  | SReset o fd => live o && own fd
  | SRelease o => live o
  | SDestroy o => live o
  | SForeignOpen fd => fresh fd
  | SForeignClose fd => bool_decide (fd ∈ foreign w)
  end.

(** One operation; the ghost component follows what is handed over. *)
(* src/src/net/core/socket_ops.h:11-20 socket_ops *)
Definition sock_step (w : sock_world) (op : sock_op) : option sock_world :=
  if negb (allowed w op) then None
  else Some
    match op with
    | SDefault o => set_object w o (-1)
    | SAdopt o fd => set_foreign (set_object w o fd) (foreign w ∖ {[fd]})
    | SOpen o fd => sock_open w o fd
    | SMove o other => sock_move w o other
    | SMoveAssign o other => sock_move_assign w o other
    | SReset o fd => set_foreign (sock_reset w o fd) (foreign w ∖ {[fd]})
    | SRelease o =>
        let '(fd, w') := sock_release w o in
        if fd =? -1 then w' else set_foreign w' (foreign w ∪ {[fd]})
    | SDestroy o => sock_destroy w o
    | SForeignOpen fd => mk_sw (objects w) (open_fds w ∪ {[fd]}) (foreign w ∪ {[fd]}) (bad_close w)
    | SForeignClose fd => sys_close (set_foreign w (foreign w ∖ {[fd]})) fd
    end.

Fixpoint sock_run (w : sock_world) (ops : list sock_op) : option sock_world :=
  match ops with
  | [] => Some w
  | op :: ops => w' ← sock_step w op; sock_run w' ops
  end.

Definition sock_empty : sock_world := mk_sw ∅ ∅ ∅ false.

(** ** Invariant *)

(** Every object's descriptor is open, is its own, and every open descriptor
    has one owner. *)
Record sock_inv (w : sock_world) : Prop := {
  s_owned : forall o fd, objects w !! o = Some fd -> fd <> -1 -> fd ∈ open_fds w /\ fd ∉ foreign w;
  s_inj : forall o o' fd, objects w !! o = Some fd -> objects w !! o' = Some fd -> fd <> -1 -> o = o';
  s_open : forall fd, fd ∈ open_fds w -> fd ∈ foreign w \/ exists o, objects w !! o = Some fd;
  s_foreign : foreign w ⊆ open_fds w;
  s_none : -1 ∉ open_fds w;
  s_close : bad_close w = false;
}.

(** [set_object] to a descriptor nobody has, when nothing is lost by it. *)
Lemma set_object_inv w o fd :
  sock_inv w -> fd_of w o = -1 ->
  fd = -1 \/ (fd ∈ foreign w) ->
  sock_inv (set_foreign (set_object w o fd) (foreign w ∖ {[fd]})).
Proof.
  intros [H1 H2 H3 H4 H5 H6] Ho Hfd. unfold fd_of in Ho.
  assert (forall k x, objects w !! k = Some x -> x <> -1 -> x <> fd /\ k <> o) as Hk.
  { intros k x Hx Hne. split.
    - intros ->. destruct Hfd as [?|Hf]; [done|]. by apply (H1 k fd Hx Hne).
    - intros ->. rewrite Hx in Ho. simpl in Ho. done. }
  constructor; simpl; try done.
  - intros k x [[<- <-]|[Hne Hx]]%lookup_insert_Some Hx1; [set_solver|].
    destruct (H1 k x Hx Hx1). set_solver.
  - intros k k' x [[<- <-]|[Hne Hx]]%lookup_insert_Some [[<- Hx']|[Hne' Hx']]%lookup_insert_Some Hx1; try done.
    + by destruct (Hk k' fd Hx' Hx1).
    + subst x. by destruct (Hk k fd Hx Hx1).
    + by apply (H2 k k' x).
  - intros x Hx. destruct (decide (x = fd)) as [->|Hne].
    + right. exists o. apply lookup_insert_eq.
    + destruct (H3 x Hx) as [?|[k Hkx]]; [left; set_solver|]. right. exists k.
      rewrite lookup_insert_ne; [done|]. intros <-. rewrite Hkx in Ho. simpl in Ho. subst x. done.
  - set_solver.
Qed.

Lemma set_foreign_id w f : f = foreign w -> set_foreign w f = w.
Proof. intros ->. by destruct w. Qed.

Lemma foreign_no_minus w : sock_inv w -> foreign w ∖ {[-1]} = foreign w.
Proof. intros [_ _ _ H4 H5 _]. set_solver. Qed.

(** Closing what an object holds and leaving -1. *)
Lemma sock_reset_inv w o : sock_inv w -> sock_inv (sock_reset w o (-1)) /\
  fd_of (sock_reset w o (-1)) o = -1 /\ foreign (sock_reset w o (-1)) = foreign w /\
  (forall k, k <> o -> objects (sock_reset w o (-1)) !! k = objects w !! k).
Proof.
  intros Hi. pose proof Hi as [H1 H2 H3 H4 H5 H6]. unfold sock_reset.
  destruct (fd_of w o =? -1) eqn:E; simpl; hp_bool.
  - split_and!.
    + rewrite <- (set_foreign_id (set_object w o (-1)) (foreign w ∖ {[-1]}))
        by (simpl; by apply foreign_no_minus). apply set_object_inv; auto.
    + unfold fd_of. simpl. by rewrite lookup_insert_eq.
    + done.
    + intros k Hk. by rewrite lookup_insert_ne.
  - unfold fd_of in E. destruct (objects w !! o) as [fd|] eqn:Eo; simpl in E; [|done].
    unfold fd_of. rewrite Eo. simpl. destruct (H1 o fd Eo E) as [Ho Hnf].
    split_and!; [|by rewrite lookup_insert_eq|done|intros k Hk; by rewrite lookup_insert_ne].
    constructor; simpl; try done.
    + intros k x [[<- <-]|[Hne Hx]]%lookup_insert_Some Hx1; [done|].
      destruct (H1 k x Hx Hx1) as [? ?]. split; [|done]. apply elem_of_difference. split; [done|].
      intros ->%elem_of_singleton. by apply Hne, (H2 o k fd).
    + intros k k' x Hx Hx' Hx1. apply lookup_insert_Some in Hx as [[<- <-]|[_ Hx]]; [done|].
      apply lookup_insert_Some in Hx' as [[<- <-]|[_ Hx']]; [done|]. by apply (H2 k k' x).
    + intros x [Hx Hxf%not_elem_of_singleton]%elem_of_difference.
      destruct (H3 x Hx) as [?|[k Hk]]; [by left|]. right. exists k.
      rewrite lookup_insert_ne; [done|]. intros <-. congruence.
    + intros x Hx. apply elem_of_difference. split; [by apply H4|]. intros ->%elem_of_singleton. done.
    + set_solver.
    + rewrite H6. rewrite bool_decide_true by done. done.
Qed.

(** Handing a descriptor from one object to another that holds none. *)
Lemma sock_hand_over w o other :
  sock_inv w -> o <> other -> fd_of w o = -1 ->
  sock_inv (set_object (set_object w o (fd_of w other)) other (-1)).
Proof.
  intros [H1 H2 H3 H4 H5 H6] Hne Ho. set (fd := fd_of w other).
  assert (fd <> -1 -> objects w !! other = Some fd) as Hfd.
  { unfold fd, fd_of. by destruct (objects w !! other). }
  assert (forall k x, <[other := -1]> (<[o := fd]> (objects w)) !! k = Some x -> x <> -1 ->
    (k = o /\ x = fd) \/ (k <> o /\ k <> other /\ objects w !! k = Some x)) as Hcase.
  { intros k x [[<- <-]|[Hk [[<- <-]|[Hk' Hx]]%lookup_insert_Some]]%lookup_insert_Some Hx1; [done|by left|].
    right. split_and!; done. }
  constructor; simpl; try done.
  - intros k x Hx Hx1. destruct (Hcase k x Hx Hx1) as [[-> ->]|(_ & _ & ?)]; [|by apply (H1 k)].
    apply (H1 other); auto.
  - intros k k' x Hx Hx' Hx1.
    destruct (Hcase k x Hx Hx1) as [[-> E]|(? & ? & Hk)], (Hcase k' x Hx' Hx1) as [[-> E']|(? & ? & Hk')];
      try done; [| |by apply (H2 k k' x)]; exfalso; subst x.
    + specialize (H2 other k' fd (Hfd Hx1) Hk' Hx1). done.
    + specialize (H2 other k fd (Hfd Hx1) Hk Hx1). done.
  - intros x Hx. destruct (H3 x Hx) as [?|[k Hk]]; [by left|]. right.
    assert (x <> -1) as Hx1 by (intros ->; done).
    destruct (decide (k = other)) as [->|Hko].
    + exists o. rewrite lookup_insert_ne by done. rewrite lookup_insert_eq. unfold fd, fd_of. by rewrite Hk.
    + exists k. rewrite !lookup_insert_ne; [done| |done]. intros <-. unfold fd_of in Ho. rewrite Hk in Ho. done.
Qed.

(** A descriptor opened elsewhere is nobody's yet. *)
Lemma foreign_open_inv w fd :
  sock_inv w -> 0 <= fd -> fd ∉ open_fds w ->
  sock_inv (mk_sw (objects w) (open_fds w ∪ {[fd]}) (foreign w ∪ {[fd]}) (bad_close w)).
Proof.
  intros [H1 H2 H3 H4 H5 H6] Hfd Hn. constructor; simpl; try done.
  - intros o x Hx Hx1. destruct (H1 o x Hx Hx1). set_solver.
  - intros x [Hx| ->%elem_of_singleton]%elem_of_union; [|left; set_solver].
    destruct (H3 x Hx) as [?|?]; [left; set_solver|by right].
  - set_solver.
  - intros [?|?%elem_of_singleton]%elem_of_union; [done|lia].
Qed.

Lemma sock_open_inv w o fd :
  sock_inv w -> fd_of w o = -1 -> fd = -1 \/ (0 <= fd /\ fd ∉ open_fds w) -> sock_inv (sock_open w o fd).
Proof.
  intros Hi Ho Hfd. destruct Hfd as [->|[Hfd Hn]].
  - rewrite <- (set_foreign_id (sock_open w o (-1)) (foreign w ∖ {[-1]}))
      by (simpl; by apply foreign_no_minus). apply (set_object_inv w o (-1)); auto.
  - pose proof (set_object_inv _ o fd (foreign_open_inv w fd Hi Hfd Hn) Ho) as Hs. simpl in Hs.
    unfold sock_open. rewrite (proj2 (Z.eqb_neq _ _)) by lia.
    replace (foreign w) with ((foreign w ∪ {[fd]}) ∖ {[fd]}); [apply Hs; right; set_solver|].
    assert (fd ∉ foreign w) by (intros Hf; by apply Hn, (s_foreign _ Hi)). set_solver.
Qed.

Lemma sock_release_inv w o :
  sock_inv w ->
  let '(fd, w') := sock_release w o in
  sock_inv (if fd =? -1 then w' else set_foreign w' (foreign w ∪ {[fd]})).
Proof.
  intros Hi. simpl. destruct (fd_of w o =? -1) eqn:E; hp_bool.
  - rewrite <- (set_foreign_id (set_object w o (-1)) (foreign w ∖ {[-1]}))
      by (simpl; by apply foreign_no_minus). apply set_object_inv; auto.
  - unfold fd_of in *. destruct (objects w !! o) as [fd|] eqn:Eo; [|done]. simpl in *.
    destruct Hi as [H1 H2 H3 H4 H5 H6]. destruct (H1 o fd Eo E) as [Hop Hnf]. constructor; simpl; try done.
    + intros k x Hx Hx1. apply lookup_insert_Some in Hx as [[<- <-]|[Hne Hx]]; [done|].
      destruct (H1 k x Hx Hx1) as [? ?]. split; [done|]. intros [?|?%elem_of_singleton]%elem_of_union; [done|].
      subst x. by apply Hne, (H2 o k fd).
    + intros k k' x Hx Hx' Hx1. apply lookup_insert_Some in Hx as [[<- <-]|[_ Hx]]; [done|].
      apply lookup_insert_Some in Hx' as [[<- <-]|[_ Hx']]; [done|]. by apply (H2 k k' x).
    + intros x Hx. destruct (H3 x Hx) as [?|[k Hk]]; [left; set_solver|].
      destruct (decide (k = o)) as [->|]; [left; rewrite Eo in Hk; simplify_eq; set_solver|].
      right. exists k. by rewrite lookup_insert_ne.
    + set_solver.
Qed.

Lemma sock_destroy_inv w o : sock_inv w -> sock_inv (sock_destroy w o).
Proof.
  intros Hi. destruct (sock_reset_inv w o Hi) as ([H1 H2 H3 H4 H5 H6] & Ho & _). unfold sock_destroy.
  set (w1 := sock_reset w o (-1)) in *. constructor; simpl; try done.
  - intros k x [_ Hx]%lookup_delete_Some. by apply (H1 k x).
  - intros k k' x [_ Hx]%lookup_delete_Some [_ Hx']%lookup_delete_Some. by apply (H2 k k' x).
  - intros x Hx. destruct (H3 x Hx) as [?|[k Hk]]; [by left|]. right. exists k.
    apply lookup_delete_Some. split; [|done]. intros <-. unfold fd_of in Ho. rewrite Hk in Ho. simpl in Ho.
    by subst x.
Qed.

Lemma sock_step_inv w op w' : sock_inv w -> sock_step w op = Some w' -> sock_inv w'.
Proof.
  intros Hi. unfold sock_step. destruct (allowed w op) eqn:Ea; [|done]. intros [= <-].
  assert (forall o, ~ is_Some (objects w !! o) -> fd_of w o = -1) as Hnew.
  { intros o Ho%eq_None_not_Some. unfold fd_of. by rewrite Ho. }
  assert (forall fd, (fd =? -1) || bool_decide (fd ∈ foreign w) = true -> fd = -1 \/ fd ∈ foreign w) as Hown.
  { intros fd [H|H]%orb_true_iff; hp_bool; auto. }
  destruct op as [o|o fd|o fd|o other|o other|o fd|o|o|fd|fd]; simpl in Ea.
  - hp_bool. rewrite <- (set_foreign_id (set_object w o (-1)) (foreign w ∖ {[-1]}))
      by (simpl; by apply foreign_no_minus). apply set_object_inv; auto.
  - hp_bool. apply set_object_inv; [done|by apply Hnew|by apply Hown].
  - apply andb_true_iff in Ea as [Ea Eb]. hp_bool. apply sock_open_inv; [done|by apply Hnew|].
    apply orb_true_iff in Eb as [Eb|Eb]; hp_bool; auto.
  - hp_bool. apply sock_hand_over; [done|congruence|by apply Hnew].
  - unfold sock_move_assign. destruct (o =? other)%nat eqn:E; [done|]. hp_bool.
    destruct (sock_reset_inv w o Hi) as (Hi1 & Ho & _). by apply sock_hand_over.
  - destruct (sock_reset_inv w o Hi) as (Hi1 & Ho & Hf & _). hp_bool.
    pose proof (set_object_inv _ o fd Hi1 Ho) as Hs. rewrite Hf in Hs. specialize (Hs (Hown _ ltac:(done))).
    unfold sock_reset, set_object in *. destruct (negb _); simpl in *; by rewrite insert_insert_eq in Hs.
  - by apply sock_release_inv.
  - by apply sock_destroy_inv.
  - hp_bool. by apply foreign_open_inv.
  - hp_bool. destruct Hi as [H1 H2 H3 H4 H5 H6]. constructor; simpl; try done.
    + intros o x Hx Hx1. destruct (H1 o x Hx Hx1). set_solver.
    + intros x [Hx Hne]%elem_of_difference. destruct (H3 x Hx); [left; set_solver|by right].
    + set_solver.
    + set_solver.
    + rewrite H6, bool_decide_true by set_solver. done.
Qed.

Lemma sock_run_inv w ops w' : sock_inv w -> sock_run w ops = Some w' -> sock_inv w'.
Proof.
  revert w. induction ops as [|op ops IH]; intros w Hi; simpl; [by intros [= <-]|].
  destruct (sock_step w op) as [w1|] eqn:E; [|done]. simpl. apply IH. by eapply sock_step_inv.
Qed.

(** C32: descriptors have one owner.  In every program over [socket_ops] that
    hands objects only descriptors it owns, at every point: no descriptor has
    been closed that was not open; the descriptors of two objects differ; and
    the open descriptors are exactly those of the objects and those the program
    keeps itself, so that when the last object is gone nothing it held is open. *)
Theorem socket_single_owner ops w :
  sock_run sock_empty ops = Some w ->
  bad_close w = false /\
  (forall o o' fd, objects w !! o = Some fd -> objects w !! o' = Some fd -> fd <> -1 -> o = o') /\
  (forall fd, fd ∈ open_fds w <->
     (fd ∈ foreign w \/ (fd <> -1 /\ exists o, objects w !! o = Some fd))) /\
  (objects w = ∅ -> open_fds w = foreign w).
Proof.
  intros Hr. destruct (sock_run_inv sock_empty ops w) as [H1 H2 H3 H4 H5 H6]; [|done|].
  { constructor; simpl; set_solver. }
  split_and!; [done|done| |].
  - intros fd. split.
    + intros Hfd. destruct (H3 fd Hfd); [by left|]. right. split; [by intros ->|done].
    + intros [Hf|[Hne [o Ho]]]; [by apply H4|by apply (H1 o fd)].
  - intros He. apply set_eq. intros fd. split; [|apply H4]. intros Hfd.
    destruct (H3 fd Hfd) as [?|[o Ho]]; [done|]. by rewrite He, lookup_empty in Ho.
Qed.

(** The shape of [connect_upstream]: a candidate per address, the connected one
    moved out, everything destroyed at the end. *)
Lemma socket_single_owner_witness :
  exists w, sock_run sock_empty
    [SDefault 0; SOpen 1 5; SDestroy 1; SOpen 2 5; SMoveAssign 0 2; SDestroy 2; SOpen 3 6; SRelease 3;
     SDestroy 3; SDestroy 0] = Some w /\ objects w = ∅ /\ open_fds w = {[6]}.
Proof.
  destruct (sock_run sock_empty _) as [w|] eqn:E; [|vm_compute in E; discriminate]. exists w.
  split; [done|]. destruct (socket_single_owner _ _ E) as (_ & _ & _ & He).
  assert (objects w = ∅) as Hn by (apply (observe_Some objects _ _ _ E); vm_compute; reflexivity).
  split; [done|]. rewrite (He Hn). apply (observe_Some foreign _ _ _ E). vm_compute. reflexivity.
Defined.
