(* ===== verification/HttpProxy.v ===== *)
(** * HttpProxy: src/src/net/proxy/http_proxy.{h,cpp}

    The upstream side, run by the worker threads: connecting to one of the
    resolved addresses, forwarding a request and reading its response with a
    bounded number of retries, and relaying a CONNECT tunnel.  The answers of
    the kernel and of the resolver are arguments: scripts of [recv], [send],
    [epoll_wait] and [poll] answers; an exhausted script of waits times out.
    [errno] is passed along, since the code reports it after the fact (logging
    leaves it alone).  A loop that runs out of fuel, or would spin, is [None];
    the theorems show it does not happen.

    The theorems: a successful forward has sent the whole request and read a
    complete response, bytes in order, with at most one retry; a tunnel relays
    both streams in order, and everything when it ends well. *)

From S2P Require Import Prelude Bytes Sockets Llhttp HeaderFields HttpRequestParser.
From S2P Require Import HttpResponseParser HttpMessageBuilder Poller.

Local Open Scope Z_scope.

Definition EPROTO : Z := 71.

(* src/src/net/proxy/http_proxy.cpp:20-20 kIoBufferSize *)
Definition kIoBufferSize : nat := Z.to_nat 8192.
(* src/src/net/proxy/http_proxy.cpp:21-21 kMaxPartialReadTimeoutRetries *)
Definition kMaxPartialReadTimeoutRetries : nat := 5.
(* src/src/net/proxy/http_proxy.h:11-11 http_proxy::kIoTimeoutMs *)
Definition kIoTimeoutMs : Z := 20000.

(** ** Reading and writing without blocking *)

(** Reads until the socket would block, ends or fails; [EINTR] retries. *)
(* src/src/net/proxy/http_proxy.cpp:24-46 append_nonblocking_read *)
Fixpoint append_read_loop (fuel : nat) (errno : Z) (out : bytes) (eof : bool) (rx : list recv_answer)
  : option (bool * Z * bytes * bool * list recv_answer) :=
  match fuel with
  | O => None
  | S f =>
      match recv kIoBufferSize rx with
      | (RData b, rx) => append_read_loop f errno (out ++ b) eof rx
      | (REof, rx) => Some (true, errno, out, true, rx)
      | (RErr e, rx) =>
          if e =? EINTR then append_read_loop f e out eof rx
          else if would_block e then Some (true, e, out, eof, rx)
          else Some (false, e, out, eof, rx)
      end
  end.

(** Both overloads, for a descriptor and for a [socket_ops]. *)
(* src/src/net/proxy/http_proxy.cpp:49-71 append_nonblocking_read *)
Definition append_nonblocking_read (errno : Z) (out : bytes) (eof : bool) (rx : list recv_answer)
  : option (bool * Z * bytes * bool * list recv_answer) :=
  append_read_loop (S (rx_size rx)) errno out eof rx.

(** The loop over the offset; [true] with the offset short of the end is a
    socket that would block. *)
(* src/src/net/proxy/http_proxy.cpp:74-94 flush_nonblocking *)
Fixpoint flush_nb_loop (fuel : nat) (errno : Z) (buf : bytes) (offset : nat) (w : wire)
  : option (bool * Z * nat * wire) :=
  match fuel with
  | O => None
  | S f =>
      if (offset <? length buf)%nat then
        match send (drop offset buf) w with
        | (inr n, w) => if (0 <? n)%nat then flush_nb_loop f errno buf (offset + n) w
                        else Some (false, errno, offset, w)
        | (inl e, w) =>
            if e =? EINTR then flush_nb_loop f e buf offset w
            else if would_block e then Some (true, e, offset, w)
            else Some (false, e, offset, w)
        end
      else Some (true, errno, offset, w)
  end.

(** A buffer that was sent to its end is cleared. *)
(* src/src/net/proxy/http_proxy.cpp:97-117 flush_nonblocking *)
Definition flush_nonblocking (errno : Z) (buf : bytes) (offset : nat) (w : wire)
  : option (bool * Z * bytes * nat * wire) :=
  '(ok, e, off, w) ← flush_nb_loop (S (length buf + length (tx w))) errno buf offset w;
  Some (if ok && (length buf <=? off)%nat then (true, e, [], 0%nat, w) else (ok, e, buf, off, w)).

(** ** Waiting *)

(** [epoll_wait]: the events of the descriptor, 0, or -1 with its errno. *)
Inductive wait_answer := WReady (ev : Z) | WTimeout | WErr (e : Z).

(** One call of [wait_fd]: whether its poller and its registration fail, with
    the errno, and the answers of [epoll_wait]. *)
Record wait_call := mk_wait { wc_create : option Z; wc_add : option Z; wc_answers : list wait_answer }.

(* src/src/net/proxy/http_proxy.cpp:161-174 http_proxy::wait_fd *)
Fixpoint wait_loop (errno : Z) (answers : list wait_answer) : bool * Z :=
  match answers with
  | [] | WTimeout :: _ => (false, ETIMEDOUT)
  | WReady ev :: _ => (negb (ev =? 0), errno)
  | WErr e :: rest => if e =? EINTR then wait_loop e rest else (false, e)
  end.

(** The errno of the wait survives the removal. *)
(* src/src/net/proxy/http_proxy.cpp:150-181 http_proxy::wait_fd *)
Definition wait_fd (errno : Z) (wc : wait_call) : bool * Z :=
  match wc_create wc with
  | Some e => (false, e)
  | None => match wc_add wc with
            | Some e => (false, e)
            | None => wait_loop errno (wc_answers wc)
            end
  end.

Definition next_wait (waits : list wait_call) : wait_call * list wait_call :=
  match waits with
  | [] => (mk_wait None None [WTimeout], [])
  | wc :: rest => (wc, rest)
  end.

(** Sends everything, waiting whenever the socket would block. *)
(* src/src/net/proxy/http_proxy.cpp:119-146 send_all_nonblocking_socket *)
Fixpoint send_all_loop (fuel : nat) (errno : Z) (data : bytes) (w : wire) (waits : list wait_call)
  : option (bool * Z * wire * list wait_call) :=
  match fuel, data with
  | _, [] => Some (true, errno, w, waits)
  | O, _ => None
  | S f, _ =>
      match send data w with
      | (inr n, w) => if (0 <? n)%nat then send_all_loop f errno (drop n data) w waits
                      else Some (false, errno, w, waits)
      | (inl e, w) =>
          if e =? EINTR then send_all_loop f e data w waits
          else if would_block e then
            let '(wc, waits) := next_wait waits in
            let '(ok, e) := wait_fd e wc in
            if ok then send_all_loop f e data w waits else Some (false, e, w, waits)
          else Some (false, e, w, waits)
      end
  end.

(** Both copies of the routine. *)
(* src/src/net/proxy/http_proxy.cpp:365-389 http_proxy::send_all_nonblocking *)
Definition send_all_nonblocking (errno : Z) (data : bytes) (w : wire) (waits : list wait_call)
  : option (bool * Z * wire * list wait_call) :=
  send_all_loop (S (length data + length (tx w))) errno data w waits.

(** ** Connecting *)

(** What happens with one resolved address. *)
Record candidate := mk_candidate {
  c_socket : Z;                (** the descriptor, negative on failure *)
  c_socket_errno : Z;
  c_connect : option Z;        (** the errno of [connect], [None] for 0 *)
  c_wait : wait_call;
  c_getsockopt : option Z;     (** the errno of [getsockopt], [None] for 0 *)
  c_so_error : Z;
}.

(* src/src/net/proxy/http_proxy.cpp:200-238 http_proxy::connect_upstream *)
Fixpoint connect_loop (errno : Z) (cands : list candidate) : bool * Z :=
  match cands with
  | [] => (false, errno)
  | c :: rest =>
      if c_socket c <? 0 then connect_loop (c_socket_errno c) rest
      else
        match c_connect c with
        | None => (true, errno)
        | Some e =>
            if e =? EINPROGRESS then
              let '(ok, e) := wait_fd e (c_wait c) in
              if negb ok then connect_loop e rest
              else match c_getsockopt c with
                   | Some e => connect_loop e rest
                   | None => if c_so_error c =? 0 then (true, e) else connect_loop (c_so_error c) rest
                   end
            else connect_loop e rest
        end
  end.

(** [getaddrinfo]: the errno it leaves on failure, or the addresses. *)
(* src/src/net/proxy/http_proxy.cpp:184-246 http_proxy::connect_upstream *)
Definition connect_upstream (errno : Z) (resolve : bytes -> Z -> Z + list candidate)
    (host : bytes) (port : Z) : bool * Z :=
  match resolve host port with
  | inl e => (false, e)
  | inr cands => connect_loop errno cands
  end.

(** ** Forwarding a request *)

Section forward.
Context `{L : Llhttp}.

(** The receive loop of one attempt: whether it ended well, [final_errno], the
    response so far.  [retries] is [partial_read_timeout_retries]. *)
(* src/src/net/proxy/http_proxy.cpp:283-341 http_proxy::forward_request *)
Fixpoint read_response_loop (fuel : nat) (out_response : bytes)
    (response_parser : http_response_parser) (retries : nat)
    (rx : list recv_answer) (waits : list wait_call) : option (bool * Z * bytes) :=
  match fuel with
  | O => None
  | S f =>
      match recv kIoBufferSize rx with
      | (RData b, rx) =>
          let out_response := out_response ++ b in
          let '(parsed, response_parser) := parse response_parser b in
          if negb parsed then Some (false, EPROTO, out_response)
          else if is_message_complete response_parser then Some (true, 0, out_response)
          else read_response_loop f out_response response_parser 0 rx waits
      | (REof, rx) =>
          if negb (is_message_complete response_parser) then
            if (finish response_parser).1 then Some (true, 0, out_response)
            else Some (false, ECONNRESET, out_response)
          else Some (true, 0, out_response)
      | (RErr e, rx) =>
          if e =? EINTR then read_response_loop f out_response response_parser retries rx waits
          else if would_block e then
            let '(wc, waits) := next_wait waits in
            let '(ready, e) := wait_fd e wc in
            if ready then read_response_loop f out_response response_parser retries rx waits
            else if (e =? ETIMEDOUT) && negb (bool_decide (out_response = [])) &&
                    negb (is_message_complete response_parser) &&
                    (retries <? kMaxPartialReadTimeoutRetries)%nat
            then read_response_loop f out_response response_parser (S retries) rx waits
            else Some (false, e, out_response)
          else Some (false, e, out_response)
      end
  end.

(** The world of one attempt: [errno] at its start, when an attempt came before
    it (the code has set [final_errno] by hand, closed the socket and logged);
    the resolver and what the connected upstream and the waits will answer. *)
Record attempt_env := mk_attempt {
  a_errno : Z;
  a_resolve : bytes -> Z -> Z + list candidate;
  a_tx : list send_answer;
  a_rx : list recv_answer;
  a_waits : list wait_call;
}.

(** Every data segment resets the timeout count, so each may be followed by
    the full number of timeouts. *)
Definition read_fuel (rx : list recv_answer) (waits : list wait_call) : nat :=
  S (7 * S (rx_size rx) + length waits).

(** One attempt: the answer, [final_errno], the response, and what the upstream
    was sent when one was reached. *)
(* src/src/net/proxy/http_proxy.cpp:267-347 http_proxy::forward_request *)
Definition run_attempt (errno : Z) (host : bytes) (port : Z) (forward : bytes) (env : attempt_env)
  : option (bool * Z * bytes * option bytes) :=
  let '(connected, errno) := connect_upstream errno (a_resolve env) host port in
  if negb connected then Some (false, errno, [], None)
  else
    '(ok, errno, w, waits) ← send_all_nonblocking errno forward (mk_wire (a_tx env) []) (a_waits env);
    if negb ok then Some (false, errno, [], Some (sent w))
    else
      '(ok, final_errno, response) ←
        read_response_loop (read_fuel (a_rx env) waits) [] parser_new 0 (a_rx env) waits;
      Some (ok, final_errno, response, Some (sent w)).

(** [fr_sent] lists what each attempt sent to its upstream. *)
Record forward_result := mk_forward {
  fr_ok : bool; fr_response : bytes; fr_errno : Z; fr_sent : list (option bytes);
}.

(* src/src/net/proxy/http_proxy.cpp:266-355 http_proxy::forward_request *)
Fixpoint attempt_loop (remaining attempt : nat) (errno : Z) (host : bytes) (port : Z) (forward : bytes)
    (env : nat -> attempt_env) (log : list (option bytes)) (response : bytes) : option forward_result :=
  match remaining with
  | O => Some (mk_forward false response errno log)
  | S remaining =>
      '(ok, final_errno, response, sent) ← run_attempt errno host port forward (env attempt);
      let log := log ++ [sent] in
      if (ok : bool) then Some (mk_forward true response 0 log)
      else if (attempt =? 0)%nat && ((final_errno =? ETIMEDOUT) || (final_errno =? ECONNRESET))
      then attempt_loop remaining (S attempt) (a_errno (env (S attempt))) host port forward env log response
      else Some (mk_forward false response final_errno log)
  end.

(** [final_errno] is also left in [errno]. *)
(* src/src/net/proxy/http_proxy.cpp:249-362 http_proxy::forward_request *)
Definition forward_request `{HeaderOrder} (errno : Z) (req : request_info) (env : nat -> attempt_env)
  : option forward_result :=
  match build_forward_proxy_request req with
  | [] => Some (mk_forward false [] EINVAL [])
  | forward => attempt_loop 2 0 errno (host req) (port req) forward env [] []
  end.

End forward.

(** ** CONNECT tunnels *)

Definition POLLIN : Z := 1.
Definition POLLOUT : Z := 4.
Definition POLLERR : Z := 8.
Definition POLLHUP : Z := 16.
Definition POLLNVAL : Z := 32.
Definition poll_failed : Z := Z.lor (Z.lor POLLERR POLLHUP) POLLNVAL.

(** The locals of the relay loop and the two sockets. *)
(* src/src/net/proxy/http_proxy.cpp:436-443 http_proxy::forward_connect_tunnel *)
Record tunnel := mk_tunnel {
  c2u_buf : bytes; c2u_offset : nat;
  u2c_buf : bytes; u2c_offset : nat;
  client_eof : bool; upstream_eof : bool;
  upstream_write_shutdown : bool; client_write_shutdown : bool;
  client_rx : list recv_answer; client_wire : wire;
  upstream_rx : list recv_answer; upstream_wire : wire;
}.

(** [poll]: a timeout, an error, or the events of the client and the upstream. *)
Inductive poll_answer := PTimeout | PErr (e : Z) | PReady (client upstream : Z).

(** [poll] reports what was asked for, and failures. *)
Definition revents (asked answer : Z) : Z := Z.land answer (Z.lor asked poll_failed).

(* src/src/net/proxy/http_proxy.cpp:446-451 http_proxy::forward_connect_tunnel *)
Definition tunnel_flush (errno : Z) (t : tunnel) : option (bool * Z * tunnel) :=
  '(ok, errno, cb, co, uw) ← flush_nonblocking errno (c2u_buf t) (c2u_offset t) (upstream_wire t);
  let t := mk_tunnel cb co (u2c_buf t) (u2c_offset t) (client_eof t) (upstream_eof t)
             (upstream_write_shutdown t) (client_write_shutdown t) (client_rx t) (client_wire t)
             (upstream_rx t) uw in
  if negb ok then Some (false, errno, t)
  else
    '(ok, errno, ub, uo, cw) ← flush_nonblocking errno (u2c_buf t) (u2c_offset t) (client_wire t);
    Some (ok, errno, mk_tunnel (c2u_buf t) (c2u_offset t) ub uo (client_eof t) (upstream_eof t)
      (upstream_write_shutdown t) (client_write_shutdown t) (client_rx t) cw
      (upstream_rx t) (upstream_wire t)).

(** Half-closes: each once, when its side has ended and is drained. *)
(* src/src/net/proxy/http_proxy.cpp:453-460 http_proxy::forward_connect_tunnel *)
Definition tunnel_shutdown (t : tunnel) : tunnel :=
  let uws := upstream_write_shutdown t || (client_eof t && bool_decide (c2u_buf t = [])) in
  let cws := client_write_shutdown t || (upstream_eof t && bool_decide (u2c_buf t = [])) in
  mk_tunnel (c2u_buf t) (c2u_offset t) (u2c_buf t) (u2c_offset t) (client_eof t) (upstream_eof t)
    uws cws (client_rx t) (client_wire t) (upstream_rx t) (upstream_wire t).

(* src/src/net/proxy/http_proxy.cpp:466-474 http_proxy::forward_connect_tunnel *)
Definition client_events (t : tunnel) : Z :=
  Z.lor (if negb (client_eof t) && bool_decide (c2u_buf t = []) then POLLIN else 0)
        (if negb (bool_decide (u2c_buf t = [])) then POLLOUT else 0).

(* src/src/net/proxy/http_proxy.cpp:476-483 http_proxy::forward_connect_tunnel *)
Definition upstream_events (t : tunnel) : Z :=
  Z.lor (if negb (upstream_eof t) && bool_decide (u2c_buf t = []) then POLLIN else 0)
        (if negb (bool_decide (c2u_buf t = [])) then POLLOUT else 0).

(* src/src/net/proxy/http_proxy.cpp:507-516 http_proxy::forward_connect_tunnel *)
Definition tunnel_read (errno rc ru : Z) (t : tunnel) : option (bool * Z * tunnel) :=
  '(ok, errno, cb, ceof, crx) ←
    (if has_event rc POLLIN
     then append_nonblocking_read errno (c2u_buf t) (client_eof t) (client_rx t)
     else Some (true, errno, c2u_buf t, client_eof t, client_rx t));
  let t := mk_tunnel cb (c2u_offset t) (u2c_buf t) (u2c_offset t) ceof (upstream_eof t)
             (upstream_write_shutdown t) (client_write_shutdown t) crx (client_wire t)
             (upstream_rx t) (upstream_wire t) in
  if negb ok then Some (false, errno, t)
  else
    '(ok, errno, ub, ueof, urx) ←
      (if has_event ru POLLIN
       then append_nonblocking_read errno (u2c_buf t) (upstream_eof t) (upstream_rx t)
       else Some (true, errno, u2c_buf t, upstream_eof t, upstream_rx t));
    Some (ok, errno, mk_tunnel (c2u_buf t) (c2u_offset t) ub (u2c_offset t) (client_eof t) ueof
      (upstream_write_shutdown t) (client_write_shutdown t) (client_rx t) (client_wire t)
      urx (upstream_wire t)).

(** The relay loop, one [poll] per turn.  The [continue] without a poll would
    repeat the same turn for ever: it is [None], and unreachable. *)
(* src/src/net/proxy/http_proxy.cpp:445-517 http_proxy::forward_connect_tunnel *)
Fixpoint tunnel_loop (polls : list poll_answer) (errno : Z) (t : tunnel) {struct polls}
  : option (bool * Z * tunnel) :=
  '(ok, errno, t) ← tunnel_flush errno t;
  if negb ok then Some (false, errno, t)
  else
    let t := tunnel_shutdown t in
    if client_eof t && upstream_eof t && bool_decide (c2u_buf t = []) && bool_decide (u2c_buf t = [])
    then Some (true, errno, t)
    else if (client_events t =? 0) && (upstream_events t =? 0) then None
    else
      match polls with
      | [] | PTimeout :: _ => Some (false, ETIMEDOUT, t)
      | PErr e :: polls => if e =? EINTR then tunnel_loop polls e t else Some (false, e, t)
      | PReady client upstream :: polls =>
          let rc := revents (client_events t) client in
          let ru := revents (upstream_events t) upstream in
          if has_event rc poll_failed || has_event ru poll_failed then Some (false, ECONNRESET, t)
          else
            '(ok, errno, t) ← tunnel_read errno rc ru t;
            if (ok : bool) then tunnel_loop polls errno t else Some (false, errno, t)
      end.

(** The world of a tunnel. *)
Record tunnel_env := mk_tunnel_env {
  te_resolve : bytes -> Z -> Z + list candidate;
  te_client_rx : list recv_answer; te_client_wire : wire;
  te_upstream_rx : list recv_answer; te_upstream_tx : list send_answer;
  te_waits : list wait_call; te_polls : list poll_answer;
}.

(** The answer, [*out_errno], and the bytes sent to the client and to the
    upstream; the last component is the state of the relay, if it was reached. *)
(* src/src/net/proxy/http_proxy.cpp:397-523 http_proxy::forward_connect_tunnel *)
Definition forward_connect_tunnel (errno client_fd : Z) (req : request_info) (env : tunnel_env)
  : option (bool * Z * wire * option tunnel) :=
  if (client_fd <? 0) || bool_decide (host req = [])
  then Some (false, EINVAL, te_client_wire env, None)
  else
    let upstream_port := if port req =? 0 then 443 else port req in
    let '(connected, errno) := connect_upstream errno (te_resolve env) (host req) upstream_port in
    if negb connected then Some (false, errno, te_client_wire env, None)
    else
      '(ok, errno, cw, _) ← send_all_nonblocking errno
          (build_connect_established_response (bs "hpserver")) (te_client_wire env) (te_waits env);
      if negb ok then Some (false, errno, cw, None)
      else
        '(ok, errno, t) ← tunnel_loop (te_polls env) errno
          (mk_tunnel [] 0 [] 0 false false false false (te_client_rx env) cw
             (te_upstream_rx env) (mk_wire (te_upstream_tx env) []));
        Some (ok, if (ok : bool) then 0 else errno, client_wire t, Some t).

(** ** Lemmas: the loops end and keep the streams in order *)

Lemma append_read_loop_spec fuel errno out eof rx :
  (rx_size rx < fuel)%nat ->
  exists ok e d eof' rx', append_read_loop fuel errno out eof rx = Some (ok, e, out ++ d, eof', rx') /\
    rx_data rx = d ++ rx_data rx' /\
    (rx_wf rx -> rx_wf rx' /\ (eof' = true -> eof = true \/ rx_data rx' = [])).
Proof.
  revert errno out rx. induction fuel as [|f IH]; intros errno out rx Hf; [lia|]. cbn [append_read_loop].
  destruct (recv kIoBufferSize rx) as [a rx1] eqn:E.
  destruct (recv_rx_data kIoBufferSize rx a rx1 ltac:(unfold kIoBufferSize; lia) E) as (Hd & Hs & Hw).
  destruct a as [b| |e].
  - destruct (IH errno (out ++ b) rx1) as (ok & e & d & eof' & rx' & -> & I1 & I2).
    { destruct Hs as [?|[?|(_ & _ & ?)]]; [lia|done|done]. }
    exists ok, e, (b ++ d), eof', rx'. rewrite (assoc_L (++)).
    split_and!; [done|by rewrite Hd, I1, (assoc_L (++))|]. intros Hwf. by apply I2, Hw.
  - exists true, errno, [], true, rx1. rewrite app_nil_r. split_and!; [done|done|]. intros Hwf.
    destruct (Hw Hwf) as [? He]. split; [done|]. intros _. right. rewrite <- (He eq_refl). by rewrite Hd.
  - simpl in Hd. destruct (e =? EINTR) eqn:Ei.
    + hp_bool. subst e. destruct (IH EINTR out rx1) as (ok & e & d & eof' & rx' & -> & I1 & I2).
      { destruct Hs as [?|[?|(_ & _ & ?)]]; [lia|done|done]. }
      exists ok, e, d, eof', rx'. split_and!; [done|by rewrite Hd|]. intros Hwf. by apply I2, Hw.
    + exists (would_block e), e, [], eof, rx1. rewrite app_nil_r.
      split_and!; [by destruct (would_block e)|done|]. intros Hwf. split; [by apply Hw|by left].
Qed.

Lemma flush_nb_loop_spec fuel errno buf off w :
  (off <= length buf)%nat -> (length buf - off + length (tx w) < fuel)%nat ->
  exists ok e off' w', flush_nb_loop fuel errno buf off w = Some (ok, e, off', w') /\
    (off' <= length buf)%nat /\ sent w' ++ drop off' buf = sent w ++ drop off buf.
Proof.
  revert errno off w. induction fuel as [|f IH]; intros errno off w Ho Hf; [lia|]. cbn [flush_nb_loop].
  destruct (off <? length buf)%nat eqn:Elt; [|by eexists _, _, _, _]. hp_bool.
  destruct (send (drop off buf) w) as [[e|n] w1] eqn:Es.
  - apply send_err in Es as (E1 & _ & _ & E4).
    destruct (e =? EINTR).
    + destruct (IH e off w1 Ho ltac:(lia)) as (ok & e' & off' & w' & -> & I1 & I2).
      eexists _, _, _, _. split_and!; [done|done|by rewrite I2, E1].
    + destruct (would_block e); eexists _, _, _, _; (split_and!; [done|done|by rewrite E1]).
  - apply send_accept in Es as (E1 & E2 & E3 & E4%suffix_length). rewrite length_drop in E1.
    assert (0 < n)%nat as Hn.
    { apply E2. intros Hnil%(f_equal length). rewrite length_drop in Hnil. simpl in Hnil. lia. }
    rewrite (proj2 (Nat.ltb_lt _ _) Hn).
    destruct (IH errno (off + n)%nat w1 ltac:(lia) ltac:(lia)) as (ok & e' & off' & w' & -> & I1 & I2).
    eexists _, _, _, _. split_and!; [done|done|].
    by rewrite I2, E3, <- drop_drop, <- (assoc_L (++)), take_drop.
Qed.

Lemma flush_nonblocking_spec errno buf off w :
  (off <= length buf)%nat ->
  exists ok e buf' off' w', flush_nonblocking errno buf off w = Some (ok, e, buf', off', w') /\
    (off' <= length buf')%nat /\ sent w' ++ drop off' buf' = sent w ++ drop off buf /\
    (buf = [] -> buf' = [] /\ w' = w).
Proof.
  intros Ho. unfold flush_nonblocking.
  destruct (flush_nb_loop_spec (S (length buf + length (tx w))) errno buf off w Ho ltac:(lia))
    as (ok & e & off' & w' & E & I1 & I2). rewrite E. simpl.
  assert (buf = [] -> ok = true /\ w' = w) as Hnil.
  { intros ->. simpl in E, Ho. destruct off; [|lia]. simpl in E. by simplify_eq. }
  destruct (ok && (length buf <=? off')%nat) eqn:Eb; eexists _, _, _, _, _; (split; [done|]).
  - hp_bool. rewrite (drop_ge buf off') in I2 by lia. split_and!; [done|done|naive_solver].
  - split_and!; [done|done|]. intros Hb. destruct (Hnil Hb) as [-> ->]. by subst buf.
Qed.

Lemma send_all_loop_spec fuel errno data w waits :
  (length data + length (tx w) < fuel)%nat ->
  exists ok e w' waits', send_all_loop fuel errno data w waits = Some (ok, e, w', waits') /\
    exists d, sent w' = sent w ++ d /\ d `prefix_of` data /\ (ok = true -> d = data).
Proof.
  revert errno data w waits. induction fuel as [|f IH]; intros errno data w waits Hf; [lia|].
  destruct data as [|c data].
  { eexists _, _, _, _. split; [done|]. exists []. by rewrite app_nil_r. }
  cbn [send_all_loop]. set (dd := c :: data) in *.
  destruct (send dd w) as [[e|n] w1] eqn:Es.
  - apply send_err in Es as (E1 & _ & _ & E4).
    assert (forall (e' : Z) (ws : list wait_call), exists ok e w' waits', Some (false, e', w1, ws) = Some (ok, e, w', waits') /\
      exists d, sent w' = sent w ++ d /\ d `prefix_of` dd /\ (ok = true -> d = dd)) as Hfail.
    { intros. eexists _, _, _, _. split; [done|]. exists [].
      rewrite app_nil_r. split_and!; [done|apply prefix_nil|done]. }
    rewrite <- E1. destruct (e =? EINTR); [apply IH; lia|]. rewrite E1.
    destruct (would_block e); [|apply Hfail].
    destruct (next_wait waits) as [wc ws]. destruct (wait_fd e wc) as [[] e']; [|apply Hfail].
    rewrite <- E1. apply IH. lia.
  - apply send_accept in Es as (E1 & E2 & E3 & E4%suffix_length).
    assert (0 < n)%nat as Hn by (by apply E2). rewrite (proj2 (Nat.ltb_lt _ _) Hn).
    destruct (IH errno (drop n dd) w1 waits) as (ok & e' & w' & ws & -> & d & D1 & D2 & D3).
    { rewrite length_drop. lia. }
    eexists _, _, _, _. split; [done|]. exists (take n dd ++ d).
    split_and!; [by rewrite D1, E3, (assoc_L (++))| |].
    + rewrite <- (take_drop n dd) at 2. by apply prefix_app.
    + intros Hok. by rewrite (D3 Hok), take_drop.
Qed.

Lemma send_all_spec errno data w waits :
  exists ok e w' waits', send_all_nonblocking errno data w waits = Some (ok, e, w', waits') /\
    exists d, sent w' = sent w ++ d /\ d `prefix_of` data /\ (ok = true -> d = data).
Proof. apply send_all_loop_spec. lia. Qed.

Section forward_lemmas.
Context `{L : Llhttp}.

(** The chunks were parsed and end a message, by themselves or with the stream. *)
Definition response_read (p : http_response_parser) (chunks : list bytes) : Prop :=
  exists p', parse_all p chunks = (true, p') /\
    (is_message_complete p' = true \/ (finish p').1 = true).

(** What a run of the receive loop answers. *)
Definition read_post (p : http_response_parser) (out : bytes) (rx : list recv_answer)
    (r : option (bool * Z * bytes)) : Prop :=
  exists ok e chunks, r = Some (ok, e, out ++ mjoin chunks) /\
    mjoin chunks `prefix_of` rx_data rx /\ (ok = true -> e = 0 /\ response_read p chunks).

Lemma read_post_stop p out rx ok e :
  (ok = true -> e = 0 /\ response_read p []) -> read_post p out rx (Some (ok, e, out)).
Proof.
  intros H. exists ok, e, []. simpl. rewrite app_nil_r. split_and!; [done|apply prefix_nil|done].
Qed.

Lemma read_post_skip p out rx rx' r : rx_data rx = rx_data rx' -> read_post p out rx' r -> read_post p out rx r.
Proof. intros E (ok & e & ch & ? & ? & ?). exists ok, e, ch. by rewrite E. Qed.

Lemma read_post_chunk p p1 out b rx rx' r :
  rx_data rx = b ++ rx_data rx' -> parse p b = (true, p1) ->
  read_post p1 (out ++ b) rx' r -> read_post p out rx r.
Proof.
  intros E Hp (ok & e & ch & -> & Hpre & Hok). exists ok, e, (b :: ch). cbn [mjoin list_join].
  split_and!; [by rewrite (assoc_L (++))|rewrite E; by apply prefix_app|].
  intros H. destruct (Hok H) as (-> & p' & Hp' & Hc). split; [done|]. exists p'.
  cbn [parse_all]. by rewrite Hp.
Qed.

Lemma next_wait_length waits wc ws :
  next_wait waits = (wc, ws) -> (length ws <= length waits)%nat /\
    (waits <> [] -> (length ws < length waits)%nat) /\ (waits = [] -> forall e, (wait_fd e wc).1 = false).
Proof. destruct waits; simpl; intros [= <- <-]; simpl; split_and!; done || lia || (intros; simpl; lia). Qed.

Lemma read_response_spec fuel out p retries rx waits :
  (retries <= kMaxPartialReadTimeoutRetries)%nat ->
  (7 * rx_size rx + length waits + (6 - retries) < fuel)%nat ->
  read_post p out rx (read_response_loop fuel out p retries rx waits).
Proof.
  unfold kMaxPartialReadTimeoutRetries.
  revert out p retries rx waits. induction fuel as [|f IH]; intros out p retries rx waits Hr Hf; [lia|].
  cbn [read_response_loop]. destruct (recv kIoBufferSize rx) as [a rx1] eqn:E.
  destruct (recv_rx_data kIoBufferSize rx a rx1 ltac:(unfold kIoBufferSize; lia) E) as (Hd & Hs & _).
  destruct a as [b| |e].
  - assert (rx_size rx1 < rx_size rx)%nat as Hlt by (destruct Hs as [?|[?|(_ & _ & ?)]]; [lia|done|done]).
    destruct (parse p b) as [[] p1] eqn:Ep; cbn [negb].
    + eapply read_post_chunk; [exact Hd|exact Ep|]. destruct (is_message_complete p1) eqn:Ec.
      * apply read_post_stop. intros _. split; [done|]. exists p1. auto.
      * apply IH; lia.
    + exists false, EPROTO, [b]. split_and!; [simpl; by rewrite app_nil_r| |done].
      simpl. rewrite app_nil_r, Hd. by apply prefix_app_r.
  - destruct (is_message_complete p) eqn:Ec; cbn [negb].
    + apply read_post_stop. intros _. split; [done|]. exists p. auto.
    + destruct (finish p).1 eqn:Efin; apply read_post_stop; [|done].
      intros _. split; [done|]. exists p. auto.
  - apply (read_post_skip _ _ _ rx1); [done|].
    destruct (e =? EINTR) eqn:Ei.
    { hp_bool. subst e. apply IH; [lia|]. destruct Hs as [?|[?|(_ & _ & ?)]]; [lia|done|done]. }
    destruct (would_block e); [|by apply read_post_stop].
    destruct (next_wait waits) as [wc ws] eqn:Ew. apply next_wait_length in Ew as (W1 & W2 & W3).
    assert (rx_size rx1 < rx_size rx \/ (rx = [] /\ rx1 = []))%nat as Hs'
      by (destruct Hs as [?|[?|(? & ? & _)]]; auto; done).
    destruct (wait_fd e wc) as [ready e'] eqn:Ewf. destruct ready.
    + apply IH; [lia|]. destruct Hs' as [?|[-> ->]]; [lia|].
      destruct waits as [|w0 waits]; [|specialize (W2 ltac:(done)); lia].
      specialize (W3 eq_refl e). by rewrite Ewf in W3.
    + destruct ((e' =? ETIMEDOUT) && _ && _ && _) eqn:Eb; [|by apply read_post_stop].
      unfold kMaxPartialReadTimeoutRetries in Eb. hp_bool. apply IH; [lia|].
      destruct Hs' as [?|[-> ->]]; lia.
Qed.

(** One attempt. *)
Lemma run_attempt_spec errno host port fwd env :
  exists ok e resp snt, run_attempt errno host port fwd env = Some (ok, e, resp, snt) /\
    (forall d, snt = Some d -> d `prefix_of` fwd) /\
    (ok = true -> snt = Some fwd /\ exists chunks, resp = mjoin chunks /\
       mjoin chunks `prefix_of` rx_data (a_rx env) /\ response_read parser_new chunks).
Proof.
  unfold run_attempt. destruct (connect_upstream errno (a_resolve env) host port) as [[] e0]; cbn [negb].
  2:{ eexists _, _, _, _. split_and!; done. }
  destruct (send_all_spec e0 fwd (mk_wire (a_tx env) []) (a_waits env))
    as (ok & e & w & ws & -> & d & D1 & D2 & D3). cbn [mbind option_bind]. simpl in D1. rewrite D1.
  destruct ok; cbn [negb].
  2:{ eexists _, _, _, _. split_and!; [done|by intros ? [= <-]|done]. }
  destruct (read_response_spec (read_fuel (a_rx env) ws) [] parser_new 0 (a_rx env) ws)
    as (ok & e' & ch & -> & R1 & R2); [lia|unfold read_fuel; lia|]. simpl.
  eexists _, _, _, _. split_and!; [done|by intros ? [= <-]|]. intros Hok. rewrite (D3 eq_refl).
  split; [done|]. exists ch. split_and!; [done|done|]. by apply R2.
Qed.

(** [data] answers [req]: some run of [forward_request] ended well with it, its
    last upstream received the whole forwarded request, and [data] is a prefix
    of what that upstream sends. *)
Definition upstream_served `{HeaderOrder} (req : request_info) (data : bytes) : Prop :=
  exists errno env r, forward_request errno req env = Some r /\ fr_ok r = true /\ fr_response r = data /\
    last (fr_sent r) = Some (Some (build_forward_proxy_request req)) /\
    data `prefix_of` rx_data (a_rx (env (length (fr_sent r) - 1)%nat)).

Lemma attempts_run errno host port fwd env :
  exists r, attempt_loop 2 0 errno host port fwd env [] [] = Some r /\
    (fr_ok r = true -> last (fr_sent r) = Some (Some fwd) /\
       fr_response r `prefix_of` rx_data (a_rx (env (length (fr_sent r) - 1)%nat))).
Proof.
  cbn [attempt_loop]. destruct (run_attempt_spec errno host port fwd (env 0%nat))
    as (ok & e & resp & snt & -> & _ & P). cbn [mbind option_bind app].
  destruct ok; [eexists; split; [done|]; by destruct (P eq_refl) as (-> & ch & -> & ? & _)|].
  destruct (_ && _); [|by eexists]. destruct (run_attempt_spec (a_errno (env 1%nat)) host port fwd (env 1%nat))
    as (ok & e1 & resp1 & snt1 & -> & _ & P1). cbn [mbind option_bind app].
  destruct ok; (eexists; split; [done|]); [|done]. by destruct (P1 eq_refl) as (-> & ch & -> & ? & _).
Qed.

Lemma forward_request_runs `{HeaderOrder} errno req env :
  exists r, forward_request errno req env = Some r /\
    (fr_ok r = true -> upstream_served req (fr_response r)).
Proof.
  destruct (build_forward_proxy_request req) as [|b fwd] eqn:Eb.
  { eexists. split; [unfold forward_request; by rewrite Eb|done]. }
  destruct (attempts_run errno (host req) (port req) (b :: fwd) env) as (r & E & Hr).
  assert (forward_request errno req env = Some r) as Ef by (unfold forward_request; by rewrite Eb).
  exists r. split; [done|]. intros Hok. destruct (Hr Hok). exists errno, env, r. by rewrite Eb.
Qed.

End forward_lemmas.


(** ** The relay *)

(** Each direction: what was sent, what is buffered and what is still to come
    make up the sender's stream; an ended side has nothing to come; a half-closed
    socket gets nothing more. *)
Record relay_inv (cdata udata prefix : bytes) (t : tunnel) : Prop := {
  r_c2u : sent (upstream_wire t) ++ drop (c2u_offset t) (c2u_buf t) ++ rx_data (client_rx t) = cdata;
  r_u2c : sent (client_wire t) ++ drop (u2c_offset t) (u2c_buf t) ++ rx_data (upstream_rx t)
          = prefix ++ udata;
  r_off : (c2u_offset t <= length (c2u_buf t))%nat /\ (u2c_offset t <= length (u2c_buf t))%nat;
  r_wf : rx_wf (client_rx t) /\ rx_wf (upstream_rx t);
  r_ceof : client_eof t = true -> rx_data (client_rx t) = [];
  r_ueof : upstream_eof t = true -> rx_data (upstream_rx t) = [];
  r_uws : upstream_write_shutdown t = true -> client_eof t = true /\ c2u_buf t = [];
  r_cws : client_write_shutdown t = true -> upstream_eof t = true /\ u2c_buf t = [];
}.

Lemma tunnel_flush_spec cdata udata pre errno t :
  relay_inv cdata udata pre t ->
  exists ok e t', tunnel_flush errno t = Some (ok, e, t') /\ relay_inv cdata udata pre t'.
Proof.
  intros [H1 H2 [H3 H3'] H4 H5 H6 H7 H8]. unfold tunnel_flush.
  destruct (flush_nonblocking_spec errno (c2u_buf t) (c2u_offset t) (upstream_wire t) H3)
    as (ok & e & cb & co & uw & -> & F1 & F2 & F3). cbn [mbind option_bind].
  assert (relay_inv cdata udata pre (mk_tunnel cb co (u2c_buf t) (u2c_offset t) (client_eof t) (upstream_eof t)
    (upstream_write_shutdown t) (client_write_shutdown t) (client_rx t) (client_wire t) (upstream_rx t) uw)) as Hi1.
  { constructor; simpl; try done; [|naive_solver]. by rewrite (assoc_L (++)), F2, <- (assoc_L (++)). }
  destruct ok; cbn [negb]; [|by eexists _, _, _]. simpl.
  destruct (flush_nonblocking_spec e (u2c_buf t) (u2c_offset t) (client_wire t) H3')
    as (ok & e' & ub & uo & cw & -> & G1 & G2 & G3). cbn [mbind option_bind].
  eexists _, _, _. split; [done|]. destruct Hi1 as [I1 I2 [I3 _] I4 I5 I6 I7 I8].
  constructor; simpl in *; try done; [|naive_solver]. by rewrite (assoc_L (++)), G2, <- (assoc_L (++)).
Qed.

Lemma tunnel_shutdown_inv cdata udata pre t :
  relay_inv cdata udata pre t -> relay_inv cdata udata pre (tunnel_shutdown t).
Proof.
  intros [H1 H2 H3 H4 H5 H6 H7 H8]. constructor; simpl; try done.
  - intros [Hb|Hb]%orb_true_iff; [by apply H7|]. hp_bool. done.
  - intros [Hb|Hb]%orb_true_iff; [by apply H8|]. hp_bool. done.
Qed.

(** One side's read, if its socket is readable. *)
Lemma read_side_spec (b : bool) errno out off eof rx (w r : bytes) :
  rx_wf rx -> (off <= length out)%nat -> w ++ drop off out ++ rx_data rx = r ->
  (eof = true -> rx_data rx = []) ->
  exists ok e out' eof' rx',
    (if b then append_nonblocking_read errno out eof rx else Some (true, errno, out, eof, rx))
      = Some (ok, e, out', eof', rx') /\
    rx_wf rx' /\ (off <= length out')%nat /\ w ++ drop off out' ++ rx_data rx' = r /\
    (eof' = true -> rx_data rx' = []) /\ (b = false -> out' = out /\ eof' = eof).
Proof.
  intros Hwf Hoff Hr He. destruct b; [|by eexists _, _, _, _, _; split_and!].
  unfold append_nonblocking_read.
  destruct (append_read_loop_spec (S (rx_size rx)) errno out eof rx ltac:(lia))
    as (ok & e & d & eof' & rx' & -> & A1 & A2). destruct (A2 Hwf) as [A3 A4].
  exists ok, e, (out ++ d), eof', rx'. split_and!; [done|done|rewrite length_app; lia| | |done].
  - by rewrite drop_app_le, <- (assoc_L (++)), <- A1 by done.
  - intros Heof. destruct (A4 Heof) as [Heo|]; [|done]. specialize (He Heo). rewrite He in A1.
    by destruct d; [destruct (rx_data rx')|].
Qed.

(** Reading happens only where nothing has been half-closed. *)
Lemma tunnel_read_spec cdata udata pre errno rc ru t :
  relay_inv cdata udata pre t ->
  (has_event rc POLLIN = true -> client_eof t = false) ->
  (has_event ru POLLIN = true -> upstream_eof t = false) ->
  exists ok e t', tunnel_read errno rc ru t = Some (ok, e, t') /\ relay_inv cdata udata pre t'.
Proof.
  intros [H1 H2 [H3 H3'] [H4 H4'] H5 H6 H7 H8] Hc Hu. unfold tunnel_read.
  destruct (read_side_spec (has_event rc POLLIN) errno (c2u_buf t) (c2u_offset t) (client_eof t)
    (client_rx t) _ _ H4 H3 H1 H5) as (ok & e & cb & ceof & crx & -> & R1 & R2 & R3 & R4 & R5).
  cbn [mbind option_bind]. set (t1 := mk_tunnel _ _ _ _ _ _ _ _ _ _ _ _).
  assert (relay_inv cdata udata pre t1) as Hi1.
  { constructor; simpl; try done. intros Hs. destruct (H7 Hs) as [Hce Hcb].
    destruct (has_event rc POLLIN); [rewrite Hc in Hce by done; done|]. destruct (R5 eq_refl) as [-> ->]. done. }
  destruct ok; cbn [negb]; [|by eexists _, _, _].
  destruct Hi1 as [I1 I2 [I3 I3'] [I4 I4'] I5 I6 I7 I8].
  destruct (read_side_spec (has_event ru POLLIN) e (u2c_buf t1) (u2c_offset t1) (upstream_eof t1)
    (upstream_rx t1) _ _ I4' I3' I2 I6) as (ok & e' & ub & ueof & urx & -> & S1 & S2 & S3 & S4 & S5).
  cbn [mbind option_bind]. eexists _, _, _. split; [done|]. constructor; simpl in *; try done.
  intros Hs. destruct (I8 Hs) as [Hce Hcb].
  destruct (has_event ru POLLIN); [rewrite Hu in Hce by done; done|]. destruct (S5 eq_refl) as [-> ->]. done.
Qed.

(** [POLLIN] is reported only when it was asked for. *)
Lemma revents_pollin (a : bool) (b : bool) r :
  has_event (revents (Z.lor (if a then POLLIN else 0) (if b then POLLOUT else 0)) r) POLLIN = true -> a = true.
Proof.
  unfold has_event, revents. destruct a; [done|]. intros H. exfalso. revert H.
  rewrite <- Z.land_assoc, negb_true_iff, Z.eqb_neq. intros []. destruct b; simpl; apply Z.land_0_r.
Qed.

(** Something is always polled for before both sides have ended. *)
Lemma tunnel_polls t :
  client_eof t && upstream_eof t && bool_decide (c2u_buf t = []) && bool_decide (u2c_buf t = []) = false ->
  (client_events t =? 0) && (upstream_events t =? 0) = false.
Proof.
  unfold client_events, upstream_events.
  by destruct (client_eof t), (upstream_eof t), (bool_decide (c2u_buf t = [])), (bool_decide (u2c_buf t = [])).
Qed.

Lemma tunnel_end t :
  client_eof t && upstream_eof t && bool_decide (c2u_buf t = []) && bool_decide (u2c_buf t = []) = true ->
  upstream_write_shutdown (tunnel_shutdown t) = true /\ client_write_shutdown (tunnel_shutdown t) = true.
Proof.
  simpl. destruct (client_eof t), (upstream_eof t), (bool_decide (c2u_buf t = [])),
    (bool_decide (u2c_buf t = [])); simpl; try done. by rewrite !orb_true_r.
Qed.

(** The part of a turn before the poll. *)
Lemma tunnel_turn polls cdata udata pre errno t :
  relay_inv cdata udata pre t ->
  exists ok e t', relay_inv cdata udata pre t' /\
    ((tunnel_loop polls errno t = Some (ok, e, t') /\
      (ok = true -> upstream_write_shutdown t' = true /\ client_write_shutdown t' = true)) \/
     tunnel_loop polls errno t =
       match polls with
       | [] | PTimeout :: _ => Some (false, ETIMEDOUT, t')
       | PErr e :: polls => if e =? EINTR then tunnel_loop polls e t' else Some (false, e, t')
       | PReady client upstream :: polls =>
           let rc := revents (client_events t') client in
           let ru := revents (upstream_events t') upstream in
           if has_event rc poll_failed || has_event ru poll_failed then Some (false, ECONNRESET, t')
           else '(ok, errno, t) ← tunnel_read e rc ru t';
                if (ok : bool) then tunnel_loop polls errno t else Some (false, errno, t)
       end).
Proof.
  intros Hi. destruct (tunnel_flush_spec _ _ _ errno t Hi) as (ok & e & t1 & E & Hi1).
  destruct ok.
  2:{ exists false, e, t1. split; [done|]. left. split; [|done].
      destruct polls; cbn [tunnel_loop]; rewrite E; done. }
  pose proof (tunnel_shutdown_inv _ _ _ _ Hi1) as Hi2. set (t2 := tunnel_shutdown t1) in *.
  exists true, e, t2. split; [done|].
  destruct (client_eof t2 && upstream_eof t2 && bool_decide (c2u_buf t2 = []) && bool_decide (u2c_buf t2 = []))
    eqn:Eend.
  - left. split; [|intros _; by apply tunnel_end].
    destruct polls; cbn [tunnel_loop]; rewrite E; cbn [mbind option_bind negb]; fold t2; by rewrite Eend.
  - right. pose proof (tunnel_polls t2 Eend) as Hp.
    destruct polls; cbn [tunnel_loop]; rewrite E; cbn [mbind option_bind negb]; fold t2; by rewrite Eend, Hp.
Qed.

Lemma tunnel_loop_spec polls cdata udata pre errno t :
  relay_inv cdata udata pre t ->
  exists ok e t', tunnel_loop polls errno t = Some (ok, e, t') /\ relay_inv cdata udata pre t' /\
    (ok = true -> upstream_write_shutdown t' = true /\ client_write_shutdown t' = true).
Proof.
  revert errno t. induction polls as [|a polls IH]; intros errno t Hi.
  - destruct (tunnel_turn [] _ _ _ errno t Hi) as (ok & e & t2 & Hi2 & [[-> Hok]| ->]); by eexists _, _, _.
  - destruct (tunnel_turn (a :: polls) _ _ _ errno t Hi) as (ok & e & t2 & Hi2 & [[-> Hok]| ->]);
      [by eexists _, _, _|].
    destruct a as [|e'|cl up]; [by eexists _, _, _|destruct (e' =? EINTR); [by apply IH|by eexists _, _, _]|].
    cbn zeta. destruct (_ || _); [by eexists _, _, _|].
    destruct (tunnel_read_spec _ _ _ e (revents (client_events t2) cl) (revents (upstream_events t2) up) t2 Hi2)
      as (ok3 & e3 & t3 & -> & Hi3).
    + intros Hb%revents_pollin. hp_bool. done.
    + intros Hb%revents_pollin. hp_bool. done.
    + cbn [mbind option_bind]. destruct ok3; [by apply IH|by eexists _, _, _].
Qed.

(** A tunnel ends, whatever the peers do. *)
Lemma tunnel_runs errno client_fd (req : request_info) (env : tunnel_env) :
  rx_wf (te_client_rx env) -> rx_wf (te_upstream_rx env) ->
  exists ok e cw t, forward_connect_tunnel errno client_fd req env = Some (ok, e, cw, t).
Proof.
  intros Hwc Hwu. unfold forward_connect_tunnel. destruct (_ || _); [by eexists _, _, _, _|].
  destruct (connect_upstream _ _ _ _) as [[] e0]; cbn [negb]; [|by eexists _, _, _, _].
  destruct (send_all_spec e0 (build_connect_established_response (bs "hpserver")) (te_client_wire env)
    (te_waits env)) as (ok & e1 & cw & ws & -> & _). cbn [mbind option_bind].
  destruct ok; cbn [negb]; [|by eexists _, _, _, _].
  set (t0 := mk_tunnel _ _ _ _ _ _ _ _ _ _ _ _).
  destruct (tunnel_loop_spec (te_polls env) (rx_data (te_client_rx env)) (rx_data (te_upstream_rx env))
    (sent cw) e1 t0) as (ok & e & t & -> & _); [by constructor|]. by eexists _, _, _, _.
Qed.

(** C22: the tunnel relays both streams in order.  For every behaviour of the
    two peers and of [poll], [forward_connect_tunnel] ends; the upstream has
    received a prefix of what the client sends, the client a prefix of the 200
    response followed by what the upstream sends; and if it reports success,
    both have received everything up to the other's end of stream, and each
    was half-closed after that. *)
Theorem tunnel_relays_in_order errno client_fd (req : request_info) (env : tunnel_env) :
  sent (te_client_wire env) = [] -> rx_wf (te_client_rx env) -> rx_wf (te_upstream_rx env) ->
  exists ok e cw t, forward_connect_tunnel errno client_fd req env = Some (ok, e, cw, t) /\
    let established := build_connect_established_response (bs "hpserver") in
    sent cw `prefix_of` established ++ rx_data (te_upstream_rx env) /\
    (forall r, t = Some r -> sent (upstream_wire r) `prefix_of` rx_data (te_client_rx env)) /\
    (ok = true -> e = 0 /\ sent cw = established ++ rx_data (te_upstream_rx env) /\
       exists r, t = Some r /\ sent (upstream_wire r) = rx_data (te_client_rx env) /\
         upstream_write_shutdown r = true /\ client_write_shutdown r = true).
Proof.
  intros Hs Hwc Hwu. unfold forward_connect_tunnel.
  destruct (_ || _); [eexists _, _, _, _; rewrite Hs; split_and!; [done|apply prefix_nil|done|done]|].
  destruct (connect_upstream _ _ _ _) as [[] e0]; cbn [negb];
    [|eexists _, _, _, _; rewrite Hs; split_and!; [done|apply prefix_nil|done|done]].
  destruct (send_all_spec e0 (build_connect_established_response (bs "hpserver")) (te_client_wire env)
    (te_waits env)) as (ok & e1 & cw & ws & -> & d & D1 & D2 & D3). rewrite Hs in D1. simpl in D1.
  cbn [mbind option_bind]. destruct ok; cbn [negb].
  2:{ eexists _, _, _, _. rewrite D1. split_and!; [done|by apply prefix_app_r|done|done]. }
  rewrite (D3 eq_refl) in D1. set (est := build_connect_established_response (bs "hpserver")) in *.
  set (t0 := mk_tunnel _ _ _ _ _ _ _ _ _ _ _ _).
  assert (relay_inv (rx_data (te_client_rx env)) (rx_data (te_upstream_rx env)) est t0) as Hi0.
  { constructor; simpl; try done. by rewrite D1. }
  destruct (tunnel_loop_spec (te_polls env) _ _ _ e1 t0 Hi0) as (ok & e & t & -> & Hi & Hok).
  cbn [mbind option_bind]. eexists _, _, _, _. split; [done|]. destruct Hi as [H1 H2 H3 H4 H5 H6 H7 H8].
  cbn zeta. split_and!.
  - rewrite <- H2. by apply prefix_app_r.
  - intros r [= <-]. rewrite <- H1. by apply prefix_app_r.
  - intros ->. split; [done|]. destruct (Hok eq_refl) as [Hu Hc].
    destruct (H7 Hu) as [Hce Hcb], (H8 Hc) as [Hue Hub].
    rewrite Hub, (H6 Hue), drop_nil, !app_nil_r in H2. rewrite Hcb, (H5 Hce), drop_nil, !app_nil_r in H1.
    split; [done|]. by exists t.
Qed.

(** A resolver with one address that connects at once. *)
Definition demo_resolve (_ : bytes) (_ : Z) : Z + list candidate :=
  inr [mk_candidate 9 0 None (mk_wait None None []) None 0].

Definition demo_connect : request_info :=
  mk_request (bs "CONNECT") (bs "h:443") (bs "1.1") (bs "h") 443 0 false false true ∅ [].

Definition demo_tunnel (upstream_rx : list recv_answer) (polls : list poll_answer) : tunnel_env :=
  mk_tunnel_env demo_resolve [RData (bs "hi"); RErr EAGAIN; REof] (mk_wire [SAccept 3; SErr EAGAIN] [])
    upstream_rx [SErr EAGAIN] [mk_wait None None [WErr EINTR; WReady EPOLLOUT]] polls.

Lemma tunnel_relays_in_order_witness :
  exists cw r, forward_connect_tunnel 0 7 demo_connect
      (demo_tunnel [RData (bs "yo"); REof] [PReady POLLIN POLLIN; PErr EINTR; PReady 0 POLLOUT; PReady POLLIN 0])
    = Some (true, 0, cw, Some r) /\
    sent cw = build_connect_established_response (bs "hpserver") ++ bs "yo" /\
    sent (upstream_wire r) = bs "hi".
Proof.
  destruct (tunnel_relays_in_order 0 7 demo_connect
    (demo_tunnel [RData (bs "yo"); REof] [PReady POLLIN POLLIN; PErr EINTR; PReady 0 POLLOUT; PReady POLLIN 0]))
    as (ok & e & cw & t & E & _ & _ & Hok); [reflexivity|by repeat constructor..|].
  assert (ok = true) as ->.
  { change ok with ((ok, e, cw, t).1.1.1). apply (observe_Some (fun r => r.1.1.1) _ _ _ E). vm_compute. reflexivity. }
  destruct (Hok eq_refl) as (-> & H1 & r & -> & H2 & _). exists cw, r. split; [exact E|].
  rewrite H1, H2. split; [apply (f_equal (app _)); vm_compute; reflexivity|vm_compute; reflexivity].
Defined.

(** A hang-up reported together with readable data ends the relay at once: the
    response the upstream sent before closing never reaches the client. *)
Theorem tunnel_hup_drops_data :
  exists cw r, forward_connect_tunnel 0 7 demo_connect
      (demo_tunnel [RData (bs "yo"); REof]
         [PReady POLLIN 0; PReady 0 POLLOUT; PReady POLLIN 0; PReady 0 (Z.lor POLLIN POLLHUP)])
    = Some (false, ECONNRESET, cw, Some r) /\
    sent cw = build_connect_established_response (bs "hpserver") /\
    client_eof r = true /\ upstream_rx r = [RData (bs "yo"); REof].
Proof. eexists _, _. vm_compute. split_and!; reflexivity. Qed.

(** A first attempt that is reset and a second one that succeeds. *)
Definition demo_forward_env (attempt : nat) : attempt_env :=
  if (attempt =? 0)%nat then mk_attempt 0 demo_resolve [] [RErr ECONNRESET] []
  else mk_attempt 0 demo_resolve [SAccept 4; SErr EAGAIN]
         [RData (bs "HTTP/1.1 2"); RErr EAGAIN; RData (bs "00 OK")]
         [mk_wait None None [WReady EPOLLOUT]; mk_wait None None [WTimeout]].

Example forward_retries_once :
  fmap (fun r => (fr_ok r, fr_response r, fr_errno r, length (fr_sent r)))
    (@forward_request demo_resp_llhttp _ 0 HttpMessageBuilder.demo_request demo_forward_env)
  = Some (true, bs "HTTP/1.1 200 OK", 0, 2%nat).
Proof. vm_compute. reflexivity. Qed.

(** An upstream that closes the connection without sending a byte is taken for
    one that answered: between messages [llhttp_finish] has nothing to object,
    so [finish] succeeds and [forward_request] reports success with an empty
    response; the client is sent nothing, not even a failure. *)
Theorem empty_response_accepted `{Llhttp, HeaderOrder} (req : request_info) p' :
  llhttp_finish llhttp_init = (finish_answer HTTP_FINISH_SAFE, p') ->
  build_forward_proxy_request req <> [] ->
  exists r, forward_request 0 req (fun _ => mk_attempt 0 demo_resolve [] [REof] []) = Some r /\
    fr_ok r = true /\ fr_response r = [] /\ fr_errno r = 0.
Proof.
  intros Hf Hne. unfold forward_request. destruct (build_forward_proxy_request req) as [|c fwd]; [done|].
  exists (mk_forward true [] 0 [Some (c :: fwd)]). split; [|done].
  cbn [attempt_loop]. unfold run_attempt. simpl.
  unfold send_all_nonblocking, send_all_loop, send. simpl. rewrite drop_ge by done.
  unfold finish. simpl. by rewrite Hf.
Qed.
