(* ===== verification/ProxySockets.v ===== *)
(** * ProxySockets: the descriptors of src/src/net/proxy/http_proxy.cpp

    HttpProxy models what [http_proxy] answers and what it sends; this file runs
    the same code over the descriptors of SocketOps: the [socket_ops] of the
    upstream and of each candidate address, with their constructors, move and
    destructors, and the [poller] of every [wait_fd].  The kernel decides which
    descriptor a call answers: [alloc i s] is the answer of the [i]-th call when
    [s] is open.  The world is the job's view: what other threads open and close
    meanwhile shows only in what [alloc] answers.  The ghost flag [jw_bad_use]
    records a system call on a descriptor that is not open.

    The theorem: the answers are those of HttpProxy, every system call is on an
    open descriptor, and a job ends with exactly the descriptors it started
    with, whatever the network does. *)

From S2P Require Import Prelude Bytes Sockets Llhttp HeaderFields HttpRequestParser.
From S2P Require Import HttpResponseParser HttpMessageBuilder SocketOps HttpProxy.

Local Open Scope Z_scope.

(** ** The world of a job *)

Record job_world := mk_job_world {
  jw_sockets : sock_world;
  jw_calls : nat;        (** how many descriptors the kernel has answered *)
  jw_bad_use : bool;     (** ghost: a descriptor was used that was not open *)
}.

(** The two objects: [socket_ops upstream] and [socket_ops candidate]. *)
Definition upstream : nat := 0.
Definition candidate_socket : nat := 1.

Definition on_job (f : sock_world -> sock_world) (w : job_world) : job_world :=
  mk_job_world (f (jw_sockets w)) (jw_calls w) (jw_bad_use w).

(** A system call on [fd]. *)
Definition use (fd : Z) (w : job_world) : job_world :=
  mk_job_world (jw_sockets w) (jw_calls w)
    (jw_bad_use w || negb (bool_decide (fd ∈ open_fds (jw_sockets w)))).

(** [valid()] of an object, and [get_fd()]. *)
Definition job_fd (w : job_world) (o : nat) : Z := fd_of (jw_sockets w) o.

Section descriptors.
Context (alloc : nat -> gset Z -> Z).

(** The descriptor of the next call. *)
Definition hand_out (w : job_world) : Z * job_world :=
  (alloc (jw_calls w) (open_fds (jw_sockets w)),
   mk_job_world (jw_sockets w) (S (jw_calls w)) (jw_bad_use w)).

(** Its poller is closed by its destructor, on every path. *)
(* src/src/net/proxy/http_proxy.cpp:150-181 http_proxy::wait_fd *)
Definition wait_fd_fds (errno fd : Z) (wc : wait_call) (w : job_world) : bool * Z * job_world :=
  match wc_create wc with
  | Some e => (false, e, w)
  | None =>
      let '(epoll_fd, w) := hand_out w in
      let w := use fd (use epoll_fd (on_job (fun s => kernel_open s epoll_fd) w)) in
      let '(ready, e) := match wc_add wc with
                         | Some e => (false, e)
                         | None => wait_loop errno (wc_answers wc)
                         end in
      (ready, e, on_job (fun s => kernel_close s epoll_fd) (use epoll_fd w))
  end.

(* src/src/net/proxy/http_proxy.cpp:121-146 send_all_nonblocking_socket *)
Fixpoint send_all_fds (fuel : nat) (errno fd : Z) (data : bytes) (tx : wire) (waits : list wait_call)
    (w : job_world) : option (bool * Z * wire * list wait_call * job_world) :=
  match fuel, data with
  | _, [] => Some (true, errno, tx, waits, w)
  | O, _ => None
  | S f, _ =>
      let w := use fd w in
      match send data tx with
      | (inr n, tx) => if (0 <? n)%nat then send_all_fds f errno fd (drop n data) tx waits w
                       else Some (false, errno, tx, waits, w)
      | (inl e, tx) =>
          if e =? EINTR then send_all_fds f e fd data tx waits w
          else if would_block e then
            let '(wc, waits) := next_wait waits in
            let '(ok, e, w) := wait_fd_fds e fd wc w in
            if ok then send_all_fds f e fd data tx waits w else Some (false, e, tx, waits, w)
          else Some (false, e, tx, waits, w)
      end
  end.

(** *** Connecting *)

(** [socket_ops candidate(family, type, protocol)]. *)
(* src/src/net/proxy/http_proxy.cpp:202-202 http_proxy::connect_upstream *)
Definition open_candidate (c : candidate) (w : job_world) : job_world :=
  let '(fd, w) := if c_socket c <? 0 then (-1, w) else hand_out w in
  on_job (fun s => sock_open s candidate_socket fd) w.

(** The end of the loop's body: [candidate] is destroyed, also by [continue]
    and [break]. *)
(* src/src/net/core/socket_ops.cpp:25-27 socket_ops::~socket_ops *)
Definition drop_candidate (w : job_world) : job_world :=
  on_job (fun s => sock_destroy s candidate_socket) w.

(** [upstream = std::move(candidate)]. *)
(* src/src/net/core/socket_ops.cpp:16-23 socket_ops::operator= *)
Definition keep_candidate (w : job_world) : job_world :=
  on_job (fun s => sock_move_assign s upstream candidate_socket) w.

(** One address: whether it connected, with errno. *)
(* src/src/net/proxy/http_proxy.cpp:202-237 http_proxy::connect_upstream *)
Definition try_candidate (errno : Z) (c : candidate) (w : job_world) : bool * Z * job_world :=
  let w := open_candidate c w in
  let fd := job_fd w candidate_socket in
  if fd =? -1 then (false, c_socket_errno c, drop_candidate w)
  else
    let w := use fd w in
    match c_connect c with
    | None => (true, errno, drop_candidate (keep_candidate w))
    | Some e =>
        if e =? EINPROGRESS then
          let '(ok, e, w) := wait_fd_fds e fd (c_wait c) w in
          if negb ok then (false, e, drop_candidate w)
          else
            let w := use fd w in
            match c_getsockopt c with
            | Some e => (false, e, drop_candidate w)
            | None => if c_so_error c =? 0 then (true, e, drop_candidate (keep_candidate w))
                      else (false, c_so_error c, drop_candidate w)
            end
        else (false, e, drop_candidate w)
    end.

(* src/src/net/proxy/http_proxy.cpp:200-238 http_proxy::connect_upstream *)
Fixpoint connect_fds (errno : Z) (cands : list candidate) (w : job_world) : bool * Z * job_world :=
  match cands with
  | [] => (false, errno, w)
  | c :: rest =>
      let '(connected, errno, w) := try_candidate errno c w in
      if (connected : bool) then (true, errno, w) else connect_fds errno rest w
  end.

(* src/src/net/proxy/http_proxy.cpp:184-246 http_proxy::connect_upstream *)
Definition connect_upstream_fds (errno : Z) (resolve : bytes -> Z -> Z + list candidate)
    (host : bytes) (port : Z) (w : job_world) : bool * Z * job_world :=
  let w := on_job (fun s => sock_reset s upstream (-1)) w in
  match resolve host port with
  | inl e => (false, e, w)
  | inr cands => connect_fds errno cands w
  end.

(** *** Forwarding *)

Section forward.
Context `{L : Llhttp}.

(* src/src/net/proxy/http_proxy.cpp:283-341 http_proxy::forward_request *)
Fixpoint read_response_fds (fuel : nat) (fd : Z) (out_response : bytes)
    (response_parser : http_response_parser) (retries : nat)
    (rx : list recv_answer) (waits : list wait_call) (w : job_world)
  : option (bool * Z * bytes * job_world) :=
  match fuel with
  | O => None
  | S f =>
      let w := use fd w in
      match recv kIoBufferSize rx with
      | (RData b, rx) =>
          let out_response := out_response ++ b in
          let '(parsed, response_parser) := parse response_parser b in
          if negb parsed then Some (false, EPROTO, out_response, w)
          else if is_message_complete response_parser then Some (true, 0, out_response, w)
          else read_response_fds f fd out_response response_parser 0 rx waits w
      | (REof, rx) =>
          if negb (is_message_complete response_parser) then
            if (finish response_parser).1 then Some (true, 0, out_response, w)
            else Some (false, ECONNRESET, out_response, w)
          else Some (true, 0, out_response, w)
      | (RErr e, rx) =>
          if e =? EINTR then read_response_fds f fd out_response response_parser retries rx waits w
          else if would_block e then
            let '(wc, waits) := next_wait waits in
            let '(ready, e, w) := wait_fd_fds e fd wc w in
            if ready then read_response_fds f fd out_response response_parser retries rx waits w
            else if (e =? ETIMEDOUT) && negb (bool_decide (out_response = [])) &&
                    negb (is_message_complete response_parser) &&
                    (retries <? kMaxPartialReadTimeoutRetries)%nat
            then read_response_fds f fd out_response response_parser (S retries) rx waits w
            else Some (false, e, out_response, w)
          else Some (false, e, out_response, w)
      end
  end.

(** The scope of [socket_ops upstream]: it is destroyed however [body] ends. *)
(* src/src/net/proxy/http_proxy.cpp:269-269 http_proxy::forward_request *)
Definition with_upstream {A} (body : job_world -> option (A * job_world)) (w : job_world)
  : option (A * job_world) :=
  '(a, w) ← body (on_job (fun s => set_object s upstream (-1)) w);
  Some (a, on_job (fun s => sock_destroy s upstream) w).

(* src/src/net/proxy/http_proxy.cpp:267-347 http_proxy::forward_request *)
Definition run_attempt_fds (errno : Z) (host : bytes) (port : Z) (forward : bytes) (env : attempt_env)
  : job_world -> option (bool * Z * bytes * option bytes * job_world) :=
  with_upstream (fun w =>
    let '(connected, errno, w) := connect_upstream_fds errno (a_resolve env) host port w in
    if negb connected then Some (false, errno, [], None, w)
    else
      let upstream_fd := job_fd w upstream in
      '(ok, errno, tx, waits, w) ←
        send_all_fds (S (length forward + length (a_tx env))) errno upstream_fd forward
          (mk_wire (a_tx env) []) (a_waits env) w;
      if negb ok then Some (false, errno, [], Some (sent tx), w)
      else
        '(ok, final_errno, response, w) ←
          read_response_fds (read_fuel (a_rx env) waits) upstream_fd [] parser_new 0 (a_rx env) waits w;
        Some (ok, final_errno, response, Some (sent tx), w)).

(* src/src/net/proxy/http_proxy.cpp:266-355 http_proxy::forward_request *)
Fixpoint attempt_loop_fds (remaining attempt : nat) (errno : Z) (host : bytes) (port : Z) (forward : bytes)
    (env : nat -> attempt_env) (log : list (option bytes)) (response : bytes) (w : job_world)
  : option (forward_result * job_world) :=
  match remaining with
  | O => Some (mk_forward false response errno log, w)
  | S remaining =>
      '(ok, final_errno, response, sent, w) ← run_attempt_fds errno host port forward (env attempt) w;
      let log := log ++ [sent] in
      if (ok : bool) then Some (mk_forward true response 0 log, w)
      else if (attempt =? 0)%nat && ((final_errno =? ETIMEDOUT) || (final_errno =? ECONNRESET))
      then attempt_loop_fds remaining (S attempt) (a_errno (env (S attempt))) host port forward env log response w
      else Some (mk_forward false response final_errno log, w)
  end.

(* src/src/net/proxy/http_proxy.cpp:249-362 http_proxy::forward_request *)
Definition forward_request_fds `{HeaderOrder} (errno : Z) (req : request_info) (env : nat -> attempt_env)
    (w : job_world) : option (forward_result * job_world) :=
  match build_forward_proxy_request req with
  | [] => Some (mk_forward false [] EINVAL [], w)
  | forward => attempt_loop_fds 2 0 errno (host req) (port req) forward env [] [] w
  end.

End forward.

(** *** Tunnels *)

(** The relay opens and closes nothing: its calls are on the client's
    descriptor and on the upstream's. *)
(* src/src/net/proxy/http_proxy.cpp:397-523 http_proxy::forward_connect_tunnel *)
Definition forward_connect_tunnel_fds (errno client_fd : Z) (req : request_info) (env : tunnel_env)
    (w : job_world) : option (bool * Z * wire * option tunnel * job_world) :=
  if (client_fd <? 0) || bool_decide (host req = [])
  then Some (false, EINVAL, te_client_wire env, None, w)
  else
    let upstream_port := if port req =? 0 then 443 else port req in
    with_upstream (fun w =>
      let '(connected, errno, w) := connect_upstream_fds errno (te_resolve env) (host req) upstream_port w in
      if negb connected then Some (false, errno, te_client_wire env, None, w)
      else
        let upstream_fd := job_fd w upstream in
        let established := build_connect_established_response (bs "hpserver") in
        '(ok, errno, cw, _, w) ←
          send_all_fds (S (length established + length (tx (te_client_wire env)))) errno client_fd
            established (te_client_wire env) (te_waits env) w;
        if negb ok then Some (false, errno, cw, None, w)
        else
          '(ok, errno, t) ← tunnel_loop (te_polls env) errno
            (mk_tunnel [] 0 [] 0 false false false false (te_client_rx env) cw
               (te_upstream_rx env) (mk_wire (te_upstream_tx env) []));
          Some (ok, if (ok : bool) then 0 else errno, client_wire t, Some t,
                use client_fd (use upstream_fd w))) w.

(** ** Lemmas *)

(** Only the kernel's count has moved. *)
Record undisturbed (w w' : job_world) : Prop := {
  u_sockets : jw_sockets w' = jw_sockets w;
  u_use : jw_bad_use w' = jw_bad_use w;
}.

#[local] Instance undisturbed_preorder : PreOrder undisturbed.
Proof.
  split; [by constructor|]. intros w1 w2 w3 [A1 B1] [A2 B2]. constructor; congruence.
Qed.

(** [f] on the world answers [r], and leaves the world alone. *)
Definition answers_like {A} (w : job_world) (r : option A) (r' : option (A * job_world)) : Prop :=
  match r, r' with
  | Some a, Some (a', w') => a' = a /\ undisturbed w w'
  | None, None => True
  | _, _ => False
  end.

Lemma answers_like_after {A} w w1 (r : option A) r' :
  undisturbed w w1 -> answers_like w1 r r' -> answers_like w r r'.
Proof. intros Hu. destruct r, r' as [[a' w']|]; simpl; try done. intros [-> ?]. split; [done|by trans w1]. Qed.

Lemma answers_like_now {A} w w1 (a : A) : undisturbed w w1 -> answers_like w (Some a) (Some (a, w1)).
Proof. done. Qed.

Definition is_open (fd : Z) (w : job_world) : Prop := fd ∈ open_fds (jw_sockets w).

Lemma use_open fd w : is_open fd w -> use fd w = w.
Proof.
  intros H. unfold use. rewrite (bool_decide_true _ H), orb_false_r. by destruct w.
Qed.

(** What every world of a job keeps: what belongs elsewhere is open, -1 is
    not. *)
Definition wf_world (w : job_world) : Prop :=
  foreign (jw_sockets w) ⊆ open_fds (jw_sockets w) /\ -1 ∉ open_fds (jw_sockets w).

Lemma is_open_undisturbed fd w w' : undisturbed w w' -> is_open fd w -> is_open fd w'.
Proof. intros [E _]. unfold is_open. by rewrite E. Qed.

Lemma wf_undisturbed w w' : undisturbed w w' -> wf_world w -> wf_world w'.
Proof. intros [E _]. unfold wf_world. by rewrite E. Qed.

(** A new descriptor is not open. *)
Context (alloc_fresh : forall i s, 0 <= alloc i s /\ alloc i s ∉ s).

(** Opened elsewhere and closed again. *)
Lemma kernel_open_close s fd :
  0 <= fd -> fd ∉ open_fds s -> foreign s ⊆ open_fds s -> kernel_close (kernel_open s fd) fd = s.
Proof.
  intros H0 Hn Hf. unfold kernel_open. rewrite (proj2 (Z.eqb_neq _ _)) by lia.
  destruct s as [os op fo bc]. unfold kernel_close, sys_close, set_foreign. simpl in *. f_equal.
  - set_solver.
  - set_solver.
  - rewrite bool_decide_true by set_solver. by rewrite orb_false_r.
Qed.

Lemma wait_fd_fds_spec errno fd wc w :
  wf_world w -> is_open fd w ->
  exists w', wait_fd_fds errno fd wc w = (wait_fd errno wc, w') /\ undisturbed w w'.
Proof.
  intros [Hf _] Hfd. unfold wait_fd_fds, wait_fd. destruct (wc_create wc) as [e|]; [by eexists|].
  cbn [hand_out]. set (ep := alloc _ _). destruct (alloc_fresh (jw_calls w) (open_fds (jw_sockets w))) as [H0 Hn].
  fold ep in H0, Hn. set (w1 := on_job _ (mk_job_world _ _ _)).
  assert (is_open ep w1 /\ is_open fd w1) as [He Ho].
  { unfold is_open, w1, kernel_open. simpl. rewrite (proj2 (Z.eqb_neq _ _)) by lia.
    unfold is_open in Hfd. simpl. set_solver. }
  rewrite !(use_open ep w1), (use_open fd w1), (use_open ep w1) by done.
  assert (forall x : bool * Z, exists w',
    (x.1, x.2, on_job (fun s => kernel_close s ep) w1) = (x, w') /\ undisturbed w w') as Hend.
  { intros [b e]. eexists. split; [done|]. constructor; [|done]. simpl. by apply kernel_open_close. }
  destruct (wc_add wc) as [e|]; [apply (Hend (false, e))|].
  destruct (wait_loop errno (wc_answers wc)) as [b e] eqn:E. apply (Hend (b, e)).
Qed.

Lemma send_all_fds_spec fuel errno fd data tx waits w :
  wf_world w -> is_open fd w ->
  answers_like w (send_all_loop fuel errno data tx waits) (send_all_fds fuel errno fd data tx waits w).
Proof.
  revert errno data tx waits w. induction fuel as [|f IH]; intros errno [|c data] tx waits w Hw Hfd; try done.
  cbn [send_all_loop send_all_fds]. rewrite (use_open fd w Hfd).
  destruct (send (c :: data) tx) as [[e|n] tx1].
  - destruct (e =? EINTR); [by apply IH|]. destruct (would_block e); [|done].
    destruct (next_wait waits) as [wc ws]. destruct (wait_fd_fds_spec e fd wc w Hw Hfd) as (w' & -> & Hu).
    destruct (wait_fd e wc) as [[] e']; [|by apply answers_like_now].
    eapply answers_like_after; [exact Hu|]. apply IH; [by eapply wf_undisturbed|by eapply is_open_undisturbed].
  - destruct (0 <? n)%nat; [by apply IH|done].
Qed.

(** *** The objects' scopes *)

(** [s] with [upstream] holding the new descriptor [fd]. *)
Definition hold (s : sock_world) (fd : Z) : sock_world :=
  mk_sw (<[upstream := fd]> (objects s)) (open_fds s ∪ {[fd]}) (foreign s) (bad_close s).

Lemma open_none s o : sock_open s o (-1) = set_object s o (-1).
Proof. done. Qed.

Lemma destroy_empty s o : objects s !! o = None -> sock_destroy (set_object s o (-1)) o = s.
Proof.
  intros Ho. unfold sock_destroy, sock_reset, fd_of. simpl. rewrite lookup_insert_eq. simpl.
  destruct s. simpl in *. f_equal. by rewrite insert_insert_eq, delete_insert_id.
Qed.

(** Destroying the owner of a new descriptor closes it. *)
Lemma destroy_owner s o fd os :
  fd <> -1 -> fd ∉ open_fds s -> objects s !! o = None -> delete o os = objects s -> os !! o = Some fd ->
  sock_destroy (mk_sw os (open_fds s ∪ {[fd]}) (foreign s) (bad_close s)) o = s.
Proof.
  intros H1 Hn Ho Hd Hfd. unfold sock_destroy, sock_reset, fd_of. simpl. rewrite Hfd. simpl.
  rewrite (proj2 (Z.eqb_neq _ _) H1). simpl. destruct s. simpl in *. f_equal.
  - by rewrite delete_insert_eq.
  - set_solver.
  - rewrite bool_decide_true by set_solver. by rewrite orb_false_r.
Qed.

Lemma destroy_candidate s fd :
  fd <> -1 -> fd ∉ open_fds s -> objects s !! candidate_socket = None ->
  sock_destroy (sock_open s candidate_socket fd) candidate_socket = s.
Proof.
  intros H1 Hn Ho. unfold sock_open. rewrite (proj2 (Z.eqb_neq _ _) H1).
  apply destroy_owner; [done|done|done| |apply lookup_insert_eq]. by rewrite delete_insert_id.
Qed.

Lemma destroy_upstream s fd :
  fd <> -1 -> fd ∉ open_fds s -> objects s !! upstream = None ->
  sock_destroy (hold (set_object s upstream (-1)) fd) upstream = s.
Proof.
  intros H1 Hn Ho. unfold hold. simpl. rewrite insert_insert_eq.
  apply destroy_owner; [done|done|done| |apply lookup_insert_eq]. by rewrite delete_insert_id.
Qed.

(** The connected candidate becomes [upstream]; its own destructor then closes
    nothing. *)
Lemma keep_and_destroy s fd :
  fd <> -1 -> objects s !! upstream = Some (-1) -> objects s !! candidate_socket = None ->
  sock_destroy (sock_move_assign (sock_open s candidate_socket fd) upstream candidate_socket)
    candidate_socket = hold s fd.
Proof.
  intros H1 Hu Hc. unfold sock_open. rewrite (proj2 (Z.eqb_neq _ _) H1).
  unfold sock_move_assign, sock_destroy, sock_reset, fd_of, hold, upstream, candidate_socket in *.
  simpl. rewrite (lookup_insert_ne _ 1%nat 0%nat), Hu by done. simpl. simplify_map_eq. simpl.
  f_equal. apply map_eq. intros k.
  destruct (decide (k = 0%nat)) as [->|Hk0]; [by simplify_map_eq|].
  by destruct (decide (k = 1%nat)) as [->|Hk1]; simplify_map_eq.
Qed.

(** [upstream] is empty, and there is no candidate yet. *)
Record may_connect (w : job_world) : Prop := {
  mc_wf : wf_world w;
  mc_upstream : objects (jw_sockets w) !! upstream = Some (-1);
  mc_candidate : objects (jw_sockets w) !! candidate_socket = None;
}.

(** A connection: [upstream] holds a descriptor that was not open. *)
Definition connected_to (w w' : job_world) (fd : Z) : Prop :=
  0 <= fd /\ fd ∉ open_fds (jw_sockets w) /\
  jw_sockets w' = hold (jw_sockets w) fd /\ jw_bad_use w' = jw_bad_use w.

Definition after_connect (w w' : job_world) (ok : bool) : Prop :=
  if ok then exists fd, connected_to w w' fd else undisturbed w w'.

Lemma after_connect_trans w w1 w2 ok : undisturbed w w1 -> after_connect w1 w2 ok -> after_connect w w2 ok.
Proof.
  intros [A B] H. destruct ok; simpl in *; [|by trans w1]. destruct H as (fd & ?).
  exists fd. unfold connected_to in *. by rewrite <- A, <- B.
Qed.

(** The answer of one address in HttpProxy. *)
Definition candidate_answer (errno : Z) (c : candidate) : bool * Z :=
  if c_socket c <? 0 then (false, c_socket_errno c)
  else match c_connect c with
       | None => (true, errno)
       | Some e =>
           if e =? EINPROGRESS then
             let '(ok, e) := wait_fd e (c_wait c) in
             if negb ok then (false, e)
             else match c_getsockopt c with
                  | Some e => (false, e)
                  | None => if c_so_error c =? 0 then (true, e) else (false, c_so_error c)
                  end
           else (false, e)
       end.

Lemma connect_loop_cons errno c rest :
  connect_loop errno (c :: rest) =
    let '(ok, e) := candidate_answer errno c in if (ok : bool) then (true, e) else connect_loop e rest.
Proof.
  cbn [connect_loop]. unfold candidate_answer. destruct (c_socket c <? 0); [done|].
  destruct (c_connect c) as [e|]; [|done]. destruct (e =? EINPROGRESS); [|done].
  destruct (wait_fd e (c_wait c)) as [[] e']; [|done]. simpl.
  destruct (c_getsockopt c); [done|]. by destruct (c_so_error c =? 0).
Qed.

Lemma try_candidate_spec errno c w :
  may_connect w ->
  exists w', try_candidate errno c w = (candidate_answer errno c, w') /\
    after_connect w w' (candidate_answer errno c).1.
Proof.
  intros [Hw Hu Hc]. unfold try_candidate, open_candidate, candidate_answer.
  destruct (c_socket c <? 0).
  { unfold job_fd, fd_of. simpl. rewrite lookup_insert_eq. eexists. split; [done|].
    constructor; [|done]. simpl. rewrite open_none. by apply destroy_empty. }
  cbn [hand_out]. set (s := jw_sockets w) in *. set (fd := alloc (jw_calls w) (open_fds s)).
  destruct (alloc_fresh (jw_calls w) (open_fds s)) as [H0 Hn]. fold fd in H0, Hn.
  assert (fd <> -1) as H1 by lia. set (w1 := on_job _ (mk_job_world _ _ _)).
  assert (job_fd w1 candidate_socket = fd) as -> by (unfold job_fd, fd_of; simpl; by rewrite lookup_insert_eq).
  rewrite (proj2 (Z.eqb_neq _ _) H1).
  assert (is_open fd w1 /\ wf_world w1) as [Ho Hw1].
  { destruct Hw as [Hf Hm]. unfold is_open, wf_world, w1. simpl. unfold sock_open. simpl.
    rewrite (proj2 (Z.eqb_neq _ _) H1). fold s in Hf, Hm. set_solver. }
  assert (forall w2, undisturbed w1 w2 -> undisturbed w (drop_candidate w2)) as Hdrop.
  { intros w2 [A B]. constructor; simpl; [|by rewrite B]. rewrite A. by apply destroy_candidate. }
  assert (forall w2, undisturbed w1 w2 -> connected_to w (drop_candidate (keep_candidate w2)) fd) as Hkeep.
  { intros w2 [A B]. split_and!; [done|done| |simpl; by rewrite B]. simpl. rewrite A. by apply keep_and_destroy. }
  rewrite (use_open fd w1 Ho). destruct (c_connect c) as [e|].
  2:{ eexists. split; [done|]. exists fd. by apply Hkeep. }
  destruct (e =? EINPROGRESS); [|eexists; split; [done|]; by apply Hdrop].
  destruct (wait_fd_fds_spec e fd (c_wait c) w1 Hw1 Ho) as (w2 & -> & Hu2).
  destruct (wait_fd e (c_wait c)) as [[] e']; cbn [negb]; [|eexists; split; [done|]; by apply Hdrop].
  rewrite (use_open fd w2) by (by eapply is_open_undisturbed).
  destruct (c_getsockopt c); [eexists; split; [done|]; by apply Hdrop|].
  destruct (c_so_error c =? 0); eexists; (split; [done|]); [exists fd; by apply Hkeep|by apply Hdrop].
Qed.

Lemma may_connect_undisturbed w w' : undisturbed w w' -> may_connect w -> may_connect w'.
Proof. intros Hu [A B C]. pose proof (u_sockets _ _ Hu) as E. constructor; [by eapply wf_undisturbed|by rewrite E|by rewrite E]. Qed.

Lemma connect_fds_spec errno cands w :
  may_connect w ->
  exists w', connect_fds errno cands w = (connect_loop errno cands, w') /\
    after_connect w w' (connect_loop errno cands).1.
Proof.
  revert errno w. induction cands as [|c rest IH]; intros errno w Hw; [by eexists|].
  rewrite connect_loop_cons. cbn [connect_fds].
  destruct (try_candidate_spec errno c w Hw) as (w1 & -> & H1).
  destruct (candidate_answer errno c) as [[] e]; simpl in H1; [by eexists|].
  destruct (IH e w1) as (w2 & -> & H2); [by eapply may_connect_undisturbed|].
  eexists. split; [done|]. by eapply after_connect_trans.
Qed.

Lemma connect_upstream_fds_spec errno resolve host port w :
  may_connect w ->
  exists w', connect_upstream_fds errno resolve host port w = (connect_upstream errno resolve host port, w') /\
    after_connect w w' (connect_upstream errno resolve host port).1.
Proof.
  intros Hw. unfold connect_upstream_fds, connect_upstream.
  assert (on_job (fun s => sock_reset s upstream (-1)) w = w) as ->.
  { destruct Hw as [_ Hu _]. destruct w as [s n b]. unfold on_job, sock_reset, fd_of. simpl in *.
    rewrite Hu. simpl. f_equal. destruct s. unfold set_object. simpl in *. f_equal. by apply insert_id. }
  destruct (resolve host port) as [e|cands]; [by eexists|by apply connect_fds_spec].
Qed.

(** *** A connected upstream *)

Lemma connected_undisturbed w w1 w2 fd : connected_to w w1 fd -> undisturbed w1 w2 -> connected_to w w2 fd.
Proof. intros (H0 & Hn & A & B) [A' B']. unfold connected_to. by rewrite A', B'. Qed.

Lemma connected_fd w w' fd : connected_to w w' fd -> job_fd w' upstream = fd /\ is_open fd w'.
Proof.
  intros (_ & _ & E & _). unfold job_fd, is_open, fd_of. rewrite E. simpl.
  rewrite lookup_insert_eq. split; [done|set_solver].
Qed.

Lemma connected_open w w' fd x : connected_to w w' fd -> is_open x w -> is_open x w'.
Proof. intros (_ & _ & E & _). unfold is_open. rewrite E. simpl. set_solver. Qed.

Lemma connected_wf w w' fd : connected_to w w' fd -> wf_world w -> wf_world w'.
Proof. intros (H0 & _ & E & _) [Hf Hm]. unfold wf_world. rewrite E. simpl. set_solver by lia. Qed.

Lemma answers_like_Some {A} w (a : A) r' :
  answers_like w (Some a) r' -> exists w', r' = Some (a, w') /\ undisturbed w w'.
Proof. destruct r' as [[a' w']|]; simpl; [|done]. intros [-> ?]. by eexists. Qed.

Lemma answers_like_None {A} w (r' : option (A * job_world)) : answers_like w None r' -> r' = None.
Proof. by destruct r' as [[a' w']|]. Qed.

(** What the body of the scope of [upstream] may leave. *)
Definition scope_like {A} (w : job_world) (r : option A) (r' : option (A * job_world)) : Prop :=
  match r, r' with
  | Some a, Some (a', w') => a' = a /\ exists ok, after_connect w w' ok
  | None, None => True
  | _, _ => False
  end.

(** No object of the job is there yet. *)
Record job_start (w : job_world) : Prop := {
  js_wf : wf_world w;
  js_upstream : objects (jw_sockets w) !! upstream = None;
  js_candidate : objects (jw_sockets w) !! candidate_socket = None;
}.

Lemma job_start_undisturbed w w' : undisturbed w w' -> job_start w -> job_start w'.
Proof.
  intros Hu [A B C]. pose proof (u_sockets _ _ Hu) as E.
  constructor; [by eapply wf_undisturbed|by rewrite E|by rewrite E].
Qed.

Lemma with_upstream_spec {A} (r : option A) body w :
  job_start w ->
  (forall w0, may_connect w0 -> open_fds (jw_sockets w0) = open_fds (jw_sockets w) -> scope_like w0 r (body w0)) ->
  answers_like w r (with_upstream body w).
Proof.
  intros [Hw Hu Hc] Hb. unfold with_upstream. set (w0 := on_job _ w).
  assert (may_connect w0) as Hm.
  { constructor; [done|apply lookup_insert_eq|]. simpl. by rewrite lookup_insert_ne. }
  specialize (Hb w0 Hm eq_refl). destruct r as [a|], (body w0) as [[a' w1]|]; simpl in *; try done.
  destruct Hb as [-> [[] Hok]]; (split; [done|]).
  - destruct Hok as (fd & H0 & Hn & E & B). constructor; [|simpl; by rewrite B]. simpl. rewrite E.
    apply destroy_upstream; [lia|done|done].
  - destruct Hok as [E B]. constructor; [|simpl; by rewrite B]. simpl. rewrite E. by apply destroy_empty.
Qed.

(** Connecting, then a body that leaves the connected world alone. *)
Lemma connected_scope {A} errno resolve host port (fail : Z -> A) (r : Z -> option A)
    (body : Z -> job_world -> option (A * job_world)) w :
  may_connect w ->
  (forall e w1 fd, connected_to w w1 fd -> answers_like w1 (r e) (body e w1)) ->
  scope_like w
    (let '(connected, e) := connect_upstream errno resolve host port in
     if negb connected then Some (fail e) else r e)
    (let '(connected, e, w) := connect_upstream_fds errno resolve host port w in
     if negb connected then Some (fail e, w) else body e w).
Proof.
  intros Hw Hb. destruct (connect_upstream_fds_spec errno resolve host port w Hw) as (w1 & -> & H1).
  destruct (connect_upstream errno resolve host port) as [[] e]; simpl in *; [|split; [done|by exists false]].
  destruct H1 as (fd & H1). specialize (Hb e w1 fd H1).
  destruct (r e) as [a|], (body e w1) as [[a' w2]|]; simpl in *; try done.
  destruct Hb as [-> Hu]. split; [done|]. exists true, fd. by eapply connected_undisturbed.
Qed.

Section forward_lemmas.
Context `{L : Llhttp}.

Lemma read_response_fds_spec fuel fd out p retries rx waits w :
  wf_world w -> is_open fd w ->
  answers_like w (read_response_loop fuel out p retries rx waits)
    (read_response_fds fuel fd out p retries rx waits w).
Proof.
  revert out p retries rx waits w. induction fuel as [|f IH]; intros out p retries rx waits w Hw Hfd; [done|].
  cbn [read_response_loop read_response_fds]. rewrite (use_open fd w Hfd).
  destruct (recv kIoBufferSize rx) as [[b| |e] rx1].
  - destruct (parse p b) as [[] p1]; [|done]. simpl. destruct (is_message_complete p1); [done|by apply IH].
  - destruct (is_message_complete p); [done|]. simpl. by destruct (finish p).1.
  - destruct (e =? EINTR); [by apply IH|]. destruct (would_block e); [|done].
    destruct (next_wait waits) as [wc ws]. destruct (wait_fd_fds_spec e fd wc w Hw Hfd) as (w' & -> & Hu).
    pose proof (wf_undisturbed _ _ Hu Hw) as Hw'. pose proof (is_open_undisturbed _ _ _ Hu Hfd) as Hfd'.
    destruct (wait_fd e wc) as [[] e']; [eapply answers_like_after; [exact Hu|by apply IH]|].
    destruct (_ && _ && _ && _); [eapply answers_like_after; [exact Hu|by apply IH]|done].
Qed.

Lemma run_attempt_fds_spec errno host port fwd env w :
  job_start w ->
  answers_like w (run_attempt errno host port fwd env) (run_attempt_fds errno host port fwd env w).
Proof.
  intros Hj. apply with_upstream_spec; [done|]. intros w0 Hm _. unfold run_attempt.
  apply (connected_scope errno (a_resolve env) host port (fun e => (false, e, [], None))); [done|].
  intros e w1 fd H1. destruct (connected_fd _ _ _ H1) as [-> Ho].
  pose proof (connected_wf _ _ _ H1 (mc_wf _ Hm)) as Hw1. unfold send_all_nonblocking. cbn [tx].
  pose proof (send_all_fds_spec (S (length fwd + length (a_tx env))) e fd fwd
    (mk_wire (a_tx env) []) (a_waits env) w1 Hw1 Ho) as Hs.
  destruct (send_all_loop _ _ _ _ _) as [[[[ok e1] tx1] ws]|].
  2:{ by rewrite (answers_like_None _ _ Hs). }
  apply answers_like_Some in Hs as (w2 & -> & Hu). cbn [mbind option_bind].
  destruct ok; cbn [negb]; [|done].
  pose proof (read_response_fds_spec (read_fuel (a_rx env) ws) fd [] parser_new 0 (a_rx env) ws w2
    (wf_undisturbed _ _ Hu Hw1) (is_open_undisturbed _ _ _ Hu Ho)) as Hr.
  destruct (read_response_loop _ _ _ _ _ _) as [[[ok' e2] resp]|].
  2:{ by rewrite (answers_like_None _ _ Hr). }
  apply answers_like_Some in Hr as (w3 & -> & Hu'). cbn [mbind option_bind].
  split; [done|]. by trans w2.
Qed.

Lemma attempt_loop_fds_spec remaining attempt errno host port fwd env log resp w :
  job_start w ->
  answers_like w (attempt_loop remaining attempt errno host port fwd env log resp)
    (attempt_loop_fds remaining attempt errno host port fwd env log resp w).
Proof.
  revert attempt errno log resp w. induction remaining as [|n IH]; intros attempt errno log resp w Hj; [done|].
  cbn [attempt_loop attempt_loop_fds].
  pose proof (run_attempt_fds_spec errno host port fwd (env attempt) w Hj) as Hr.
  destruct (run_attempt errno host port fwd (env attempt)) as [[[[ok e] resp1] snt]|].
  2:{ by rewrite (answers_like_None _ _ Hr). }
  apply answers_like_Some in Hr as (w1 & -> & Hu). cbn [mbind option_bind].
  destruct ok; [done|]. destruct (_ && _); [|done].
  eapply answers_like_after; [exact Hu|]. apply IH. by eapply job_start_undisturbed.
Qed.

Lemma forward_request_fds_spec `{HeaderOrder} errno req env w :
  job_start w ->
  answers_like w (forward_request errno req env) (forward_request_fds errno req env w).
Proof.
  intros Hj. unfold forward_request, forward_request_fds.
  destruct (build_forward_proxy_request req); [done|by apply attempt_loop_fds_spec].
Qed.

End forward_lemmas.

Lemma forward_connect_tunnel_fds_spec errno client_fd req env w :
  job_start w -> client_fd < 0 \/ is_open client_fd w ->
  answers_like w (forward_connect_tunnel errno client_fd req env)
    (forward_connect_tunnel_fds errno client_fd req env w).
Proof.
  intros Hj Hc. unfold forward_connect_tunnel, forward_connect_tunnel_fds.
  destruct (client_fd <? 0) eqn:En; [done|]. hp_bool. destruct Hc as [?|Hc]; [lia|].
  destruct (bool_decide (host req = [])); [done|]. cbn [orb]. cbv zeta.
  generalize (build_connect_established_response (bs "hpserver")) as est. intros est.
  apply with_upstream_spec; [done|]. intros w0 Hm Eo.
  apply (connected_scope errno (te_resolve env) (host req) _
    (fun e => (false, e, te_client_wire env, None))); [done|].
  intros e w1 fd H1. destruct (connected_fd _ _ _ H1) as [-> Ho].
  pose proof (connected_wf _ _ _ H1 (mc_wf _ Hm)) as Hw1.
  assert (is_open client_fd w1) as Hc1 by (apply (connected_open w0 w1 fd); [done|]; unfold is_open; by rewrite Eo).
  unfold send_all_nonblocking.
  pose proof (send_all_fds_spec (S (length est + length (tx (te_client_wire env)))) e client_fd est
    (te_client_wire env) (te_waits env) w1 Hw1 Hc1) as Hs.
  destruct (send_all_loop _ _ _ _ _) as [[[[ok e1] cw] ws]|].
  2:{ by rewrite (answers_like_None _ _ Hs). }
  apply answers_like_Some in Hs as (w2 & -> & Hu). cbn [mbind option_bind]. destruct ok; [|done]. cbn [negb].
  destruct (tunnel_loop _ _ _) as [[[ok2 e2] t]|]; [|done]. cbn [mbind option_bind].
  rewrite (use_open fd w2), (use_open client_fd w2) by (by eapply is_open_undisturbed). done.
Qed.
End descriptors.

(** The end of a run that answered. *)
Lemma answers_like_run {A} w (r : option A) r' a :
  answers_like w r r' -> r = Some a ->
  exists w', r' = Some (a, w') /\ jw_sockets w' = jw_sockets w /\ jw_bad_use w' = jw_bad_use w.
Proof. intros H ->. apply answers_like_Some in H as (w' & -> & [? ?]). by eexists. Qed.

(** C23: a proxy job leaves no descriptor behind.  Whatever descriptors the
    kernel answers, as long as they are not open yet, and whatever the resolver,
    the upstreams and the waits do: run over the descriptors, [forward_request]
    and [forward_connect_tunnel] answer what they answer in HttpProxy, every
    system call they make is on an open descriptor (for a tunnel: as long as the
    client's, which the loop owns, stays open), none is closed twice, and
    when they return the open descriptors, their owners and the client's socket
    are what they were before. *)
Theorem proxy_jobs_balance_descriptors `{Llhttp, HeaderOrder} (alloc : nat -> gset Z -> Z) (w : job_world) :
  (forall i s, 0 <= alloc i s /\ alloc i s ∉ s) ->
  sock_inv (jw_sockets w) ->
  objects (jw_sockets w) !! upstream = None -> objects (jw_sockets w) !! candidate_socket = None ->
  (forall errno req env, exists r w',
     forward_request errno req env = Some r /\
     forward_request_fds alloc errno req env w = Some (r, w') /\
     jw_sockets w' = jw_sockets w /\ jw_bad_use w' = jw_bad_use w) /\
  (forall errno client_fd req env,
     client_fd < 0 \/ client_fd ∈ open_fds (jw_sockets w) ->
     rx_wf (te_client_rx env) -> rx_wf (te_upstream_rx env) ->
     exists r w',
       forward_connect_tunnel errno client_fd req env = Some r /\
       forward_connect_tunnel_fds alloc errno client_fd req env w = Some (r, w') /\
       jw_sockets w' = jw_sockets w /\ jw_bad_use w' = jw_bad_use w).
Proof.
  intros Ha Hi Hu Hc.
  assert (job_start w) as Hj by (constructor; [split; apply Hi|done|done]). split.
  - intros errno req env. destruct (forward_request_runs errno req env) as (r & E & _).
    destruct (answers_like_run w _ _ r (forward_request_fds_spec alloc Ha errno req env w Hj) E) as (w' & ? & ?).
    by exists r, w'.
  - intros errno client_fd req env Hfd Hcr Hur.
    destruct (tunnel_runs errno client_fd req env Hcr Hur) as (ok & e & cw & t & E).
    destruct (answers_like_run w _ _ _ (forward_connect_tunnel_fds_spec alloc Ha errno client_fd req env w Hj Hfd) E)
      as (w' & ? & ?). by exists (ok, e, cw, t), w'.
Qed.

(** A kernel that answers some descriptor that is not open. *)
Definition demo_alloc (_ : nat) (s : gset Z) : Z := Z.of_nat (fresh (set_map (D := gset nat) Z.to_nat s)).

Lemma demo_alloc_fresh i s : 0 <= demo_alloc i s /\ demo_alloc i s ∉ s.
Proof.
  unfold demo_alloc. split; [lia|]. intros Hin.
  apply (is_fresh (set_map (D := gset nat) Z.to_nat s)). apply elem_of_map. eexists. split; [|exact Hin]. lia.
Qed.

(** The process of a worker: the client's socket and the server's are open. *)
Definition demo_world : job_world :=
  mk_job_world (mk_sw ∅ {[3; 7]} {[3; 7]} false) 0 false.

(** Two upstream sockets and two pollers, opened and closed. *)
Example demo_retry_balances :
  (r ← @forward_request_fds demo_alloc demo_resp_llhttp _ 0 HttpMessageBuilder.demo_request demo_forward_env
         demo_world;
   Some (fr_ok r.1, jw_calls r.2, elements (open_fds (jw_sockets r.2)), bad_close (jw_sockets r.2),
         jw_bad_use r.2))
  = Some (true, 4%nat, [7; 3], false, false).
Proof. vm_compute. reflexivity. Qed.

Lemma proxy_jobs_balance_descriptors_witness :
  exists r w',
    @forward_request_fds demo_alloc demo_resp_llhttp _ 0 HttpMessageBuilder.demo_request demo_forward_env
      demo_world = Some (r, w') /\ fr_ok r = true /\ jw_sockets w' = jw_sockets demo_world.
Proof.
  destruct (@proxy_jobs_balance_descriptors demo_resp_llhttp _ demo_alloc demo_world) as [Hf _].
  - exact demo_alloc_fresh.
  - constructor; simpl; set_solver.
  - reflexivity.
  - reflexivity.
  - destruct (Hf 0 HttpMessageBuilder.demo_request demo_forward_env) as (r & w' & E & E' & Hs & _).
    exists r, w'. split; [exact E'|]. split; [|exact Hs].
    apply (observe_Some fr_ok _ _ _ E). vm_compute. reflexivity.
Defined.
