(* ===== verification/HpServer.v ===== *)
(** * HpServer: src/src/hpserver.{h,cpp}

    The event loop: connections indexed by descriptor, idle timers, proxy jobs
    handed to the worker pools and their results coming back through a queue
    and an eventfd.  The model composes [HttpConn], [Timer], [Poller],
    [IpFilter] and [HttpMessageBuilder]; what the kernel, the pools and the
    upstream answer is an argument of the steps.  [connection_timer_] is passed
    beside the rest of the state, since its callbacks act on that rest.

    Ghost state numbers the connections and records what arrived for each, the
    requests read from it, what was queued for it, what it had been sent when
    it was closed, and its peer's address, so that the theorems can say whose response is written to
    whom; nothing in the code reads it.  The wire
    of a descriptor is what the connection object sends: while a CONNECT tunnel
    runs, its worker writes to the descriptor directly, which [HttpProxy]
    models. *)

From S2P Require Import Prelude Bytes Sockets Llhttp HeaderFields HttpRequestParser.
From S2P Require Import HttpMessageBuilder IpFilter HttpConnectionIo HttpConn Timer Poller.

Local Open Scope Z_scope.

(* src/src/hpserver.h:18-18 MAX_FD *)
Definition MAX_FD : Z := 65536.
(* src/src/hpserver.h:19-19 MAX_EVENTS *)
Definition MAX_EVENTS : Z := 1024.
(* src/src/hpserver.cpp:18-18 kClientEvents *)
Definition kClientEvents : Z := Z.lor (Z.lor EPOLLIN EPOLLET) EPOLLRDHUP.
(* src/src/hpserver.cpp:19-19 kClientIdleTimeoutMs *)
Definition kClientIdleTimeoutMs : Z := 15000.

(* src/src/hpserver.cpp:21-21 kFallbackProxyWorkers *)
Definition kFallbackProxyWorkers : Z := 8.
(* src/src/hpserver.cpp:22-22 kFallbackTunnelWorkers *)
Definition kFallbackTunnelWorkers : Z := 64.
(* src/src/hpserver.cpp:23-23 kTasksPerProxyWorker *)
Definition kTasksPerProxyWorker : Z := 512.
(* src/src/hpserver.cpp:24-24 kTasksPerTunnelWorker *)
Definition kTasksPerTunnelWorker : Z := 128.

(** ** Pool sizes; [hw] is [std::thread::hardware_concurrency()] *)

(* src/src/hpserver.cpp:27-33 default_proxy_worker_count *)
Definition default_proxy_worker_count (hw : Z) : Z :=
  if hw =? 0 then kFallbackProxyWorkers else Z.max 2 hw.

(* src/src/hpserver.cpp:35-41 default_tunnel_worker_count *)
Definition default_tunnel_worker_count (hw : Z) : Z :=
  if hw =? 0 then kFallbackTunnelWorkers else Z.max 32 (u32 (hw * 8)).

(* src/src/hpserver.cpp:43-45 normalize_proxy_workers *)
Definition normalize_proxy_workers (hw configured : Z) : Z :=
  if configured =? 0 then default_proxy_worker_count hw else configured.

(* src/src/hpserver.cpp:47-49 normalize_tunnel_workers *)
Definition normalize_tunnel_workers (hw configured : Z) : Z :=
  if configured =? 0 then default_tunnel_worker_count hw else configured.

(* src/src/hpserver.cpp:51-54 normalize_proxy_queue_size *)
Definition normalize_proxy_queue_size (configured proxy_workers : Z) : Z :=
  if configured =? 0 then u64 (proxy_workers * kTasksPerProxyWorker) else configured.

(* src/src/hpserver.cpp:56-59 normalize_tunnel_queue_size *)
Definition normalize_tunnel_queue_size (configured tunnel_workers : Z) : Z :=
  if configured =? 0 then u64 (tunnel_workers * kTasksPerTunnelWorker) else configured.

(* src/src/hpserver.cpp:61-63 is_expected_connect_shutdown_errno *)
Definition is_expected_connect_shutdown_errno (err : Z) : bool :=
  (err =? ECONNRESET) || (err =? EPIPE) || (err =? ENOTCONN) || (err =? ECONNABORTED).

(** The members a constructor fixes; [hw] as above. *)
(* src/src/hpserver.h:45-52 hpserver *)
Record server_config := mk_config {
  cfg_port : Z;
  proxy_worker_count_ : Z;
  tunnel_worker_count_ : Z;
  proxy_queue_size_ : Z;
  tunnel_queue_size_ : Z;
}.

(* src/src/hpserver.cpp:90-98 hpserver::hpserver *)
Definition hpserver_new (hw port proxy_workers tunnel_workers proxy_queue_size tunnel_queue_size : Z)
  : server_config :=
  let pw := normalize_proxy_workers hw proxy_workers in
  let tw := normalize_tunnel_workers hw tunnel_workers in
  mk_config port pw tw (normalize_proxy_queue_size proxy_queue_size pw)
    (normalize_tunnel_queue_size tunnel_queue_size tw).

(** The send loop: partial sends continue, [EINTR] retries, anything else ends
    it.  Every call shortens the data or the script. *)
(* src/src/hpserver.cpp:71-84 reject_blacklisted_client *)
Fixpoint reject_loop (fuel : nat) (data : bytes) (w : wire) : wire :=
  match fuel, data with
  | S f, _ :: _ =>
      match send data w with
      | (inr n, w') => if (0 <? n)%nat then reject_loop f (drop n data) w' else w'
      | (inl e, w') => if e =? EINTR then reject_loop f data w' else w'
      end
  | _, _ => w
  end.

(** What a refused client receives before the close. *)
(* src/src/hpserver.cpp:65-87 reject_blacklisted_client *)
Definition reject_blacklisted_client (w : wire) : wire :=
  let response := build_forbidden_response (bs "client ip is blocked") in
  reject_loop (S (length response + length (tx w))) response w.

(** The answers of the two [fcntl] calls, -1 being failure. *)
(* src/src/hpserver.cpp:107-120 hpserver::set_nonblocking *)
Definition set_nonblocking (getfl setfl : Z) : bool :=
  if getfl =? -1 then false else if setfl =? -1 then false else true.

(** ** Starting up *)

(** The eventfd the workers signal, [None] when it cannot be set up. *)
(* src/src/hpserver.cpp:186-200 hpserver::init_proxy_async *)
Definition init_proxy_async (p : poller) (eventfd : Z) : option poller :=
  if eventfd =? -1 then None
  else
    let '(ret, p) := poller_add p eventfd (Z.lor EPOLLIN EPOLLET) in
    if negb (ret =? 0) then None else Some p.

(** What the calls of the start-up answer: whether the cache opens, [fcntl] on
    the listening socket, [bind], [listen] and [eventfd]. *)
Record startup := mk_startup {
  su_cache_open : bool; su_server_fd : Z; su_getfl : Z; su_setfl : Z;
  su_bind : Z; su_listen : Z; su_eventfd : Z;
}.

(** [None] is the early [return -1]. *)
(* src/src/hpserver.cpp:374-398 hpserver::listen *)
Definition listen_start (p : poller) (e : startup) : option poller :=
  if negb (su_cache_open e) then None
  else if negb (set_nonblocking (su_getfl e) (su_setfl e)) then None
  else if negb (su_bind e =? 0) then None
  else if negb (su_listen e =? 0) then None
  else
    let '(ret, p) := poller_add p (su_server_fd e) (Z.lor EPOLLIN EPOLLET) in
    if negb (ret =? 0) then None else init_proxy_async p (su_eventfd e).

(** Registration needs a valid poller. *)
Lemma poller_add_valid p fd ev p' : poller_add p fd ev = (0, p') -> poller_ok p /\ poller_ok p'.
Proof.
  unfold poller_add, control, poller_ok. destruct (epoll_fd_ p =? -1) eqn:E; [by intros [= ?]|]. hp_bool.
  destruct (epoll_ctl _ _ _ _) as [[] m]; by intros [= <-].
Qed.

Lemma listen_start_ok p e p' : listen_start p e = Some p' -> poller_ok p'.
Proof.
  unfold listen_start, init_proxy_async. do 4 (case_match; [done|]).
  destruct (poller_add p (su_server_fd e) _) as [r p1]. case_match; [done|]. case_match; [done|].
  destruct (poller_add p1 (su_eventfd e) _) as [r2 p2] eqn:E2. case_match eqn:Er; [done|]. intros [= <-].
  hp_bool. subst r2. by apply (poller_add_valid _ _ _ _ E2).
Qed.

(** ** State *)

(** A task accepted by a pool and not finished: what its closure captured;
    [j_gen] is ghost. *)
(* src/src/hpserver.cpp:206-206 hpserver::submit_proxy_job *)
Record job := mk_job { j_client_fd : Z; j_req : request_info; j_gen : nat }.

#[export] Instance job_eq_dec : EqDecision job.
Proof. solve_decision. Defined.

(** [d_job], the task the event comes from, is ghost. *)
(* src/src/hpserver.h:34-41 hpserver::proxy_done_event *)
Record proxy_done_event := mk_done {
  d_client_fd : Z; d_ok : bool; d_response : bytes; d_close_after_done : bool;
  d_is_connect : bool; d_err : Z; d_job : job;
}.

Definition d_gen (e : proxy_done_event) : nat := j_gen (d_job e).

(** The result of a task the pool refused. *)
(* src/src/hpserver.cpp:251-256 hpserver::submit_proxy_job *)
Definition refused_event (j : job) : proxy_done_event :=
  mk_done (j_client_fd j) false [] true (is_connect (j_req j)) EAGAIN j.

(** Ghost: what was queued for which connection, and on behalf of which task. *)
Record delivery := mk_delivery { dl_to : nat; dl_for : job; dl_data : bytes }.

Section server.
Context `{L : Llhttp, Q : PriorityQueue} (strerror : Z -> bytes).

(** The three vectors have [vec_size] elements: a connection or flag outside
    the map or set is null or false.  [rx_of] and [wire_of] are the sockets,
    [clock] and [clock_steps] the steady clock and how it advances from one
    reading to the next. *)
(* src/src/hpserver.h:43-63 hpserver *)
Record hpserver := mk_srv {
  vec_size : Z;
  connections_ : gmap Z http_conn;
  proxy_inflight_ : gset Z;
  close_after_flush_ : gset Z;
  poller_ : poller;
  proxy_done_queue_ : list proxy_done_event;
  ip_filter_ : ip_filter;
  jobs : list job;
  rx_of : gmap Z (list recv_answer);
  wire_of : gmap Z wire;
  clock : Z;
  clock_steps : list N;
  conn_gen : gmap Z nat;                 (** ghost: the connection on a descriptor *)
  next_gen : nat;                        (** ghost *)
  delivered : list delivery;             (** ghost *)
  closed_inflight : bool;                (** ghost: a connection was closed under its job *)
  closed_sent : list (nat * bytes);      (** ghost: what closed connections had been sent *)
  arrivals : list (nat * list recv_answer);         (** ghost: what arrived for which connection *)
  submitted : list (nat * bytes * request_info);    (** ghost: the requests read, with their bytes *)
  peers : list (nat * Z);                           (** ghost: the address of each connection *)
}.

Definition set_conns (s : hpserver) (c : gmap Z http_conn) : hpserver :=
  mk_srv (vec_size s) c (proxy_inflight_ s) (close_after_flush_ s) (poller_ s)
    (proxy_done_queue_ s) (ip_filter_ s) (jobs s) (rx_of s) (wire_of s) (clock s) (clock_steps s)
    (conn_gen s) (next_gen s) (delivered s) (closed_inflight s) (closed_sent s) (arrivals s) (submitted s) (peers s).
Definition set_flags (s : hpserver) (i c : gset Z) : hpserver :=
  mk_srv (vec_size s) (connections_ s) i c (poller_ s)
    (proxy_done_queue_ s) (ip_filter_ s) (jobs s) (rx_of s) (wire_of s) (clock s) (clock_steps s)
    (conn_gen s) (next_gen s) (delivered s) (closed_inflight s) (closed_sent s) (arrivals s) (submitted s) (peers s).
Definition set_poller (s : hpserver) (p : poller) : hpserver :=
  mk_srv (vec_size s) (connections_ s) (proxy_inflight_ s) (close_after_flush_ s) p
    (proxy_done_queue_ s) (ip_filter_ s) (jobs s) (rx_of s) (wire_of s) (clock s) (clock_steps s)
    (conn_gen s) (next_gen s) (delivered s) (closed_inflight s) (closed_sent s) (arrivals s) (submitted s) (peers s).
Definition set_work (s : hpserver) (q : list proxy_done_event) (j : list job) : hpserver :=
  mk_srv (vec_size s) (connections_ s) (proxy_inflight_ s) (close_after_flush_ s) (poller_ s)
    q (ip_filter_ s) j (rx_of s) (wire_of s) (clock s) (clock_steps s)
    (conn_gen s) (next_gen s) (delivered s) (closed_inflight s) (closed_sent s) (arrivals s) (submitted s) (peers s).
Definition set_net (s : hpserver) (r : gmap Z (list recv_answer)) (w : gmap Z wire) : hpserver :=
  mk_srv (vec_size s) (connections_ s) (proxy_inflight_ s) (close_after_flush_ s) (poller_ s)
    (proxy_done_queue_ s) (ip_filter_ s) (jobs s) r w (clock s) (clock_steps s)
    (conn_gen s) (next_gen s) (delivered s) (closed_inflight s) (closed_sent s) (arrivals s) (submitted s) (peers s).
Definition set_clock (s : hpserver) (c : Z) (st : list N) : hpserver :=
  mk_srv (vec_size s) (connections_ s) (proxy_inflight_ s) (close_after_flush_ s) (poller_ s)
    (proxy_done_queue_ s) (ip_filter_ s) (jobs s) (rx_of s) (wire_of s) c st
    (conn_gen s) (next_gen s) (delivered s) (closed_inflight s) (closed_sent s) (arrivals s) (submitted s) (peers s).
Definition set_ghost (s : hpserver) (g : gmap Z nat) (n : nat) (d : list delivery) (ci : bool)
  : hpserver :=
  mk_srv (vec_size s) (connections_ s) (proxy_inflight_ s) (close_after_flush_ s) (poller_ s)
    (proxy_done_queue_ s) (ip_filter_ s) (jobs s) (rx_of s) (wire_of s) (clock s) (clock_steps s)
    g n d ci (closed_sent s) (arrivals s) (submitted s) (peers s).
Definition set_closed_sent (s : hpserver) (cl : list (nat * bytes)) : hpserver :=
  mk_srv (vec_size s) (connections_ s) (proxy_inflight_ s) (close_after_flush_ s) (poller_ s)
    (proxy_done_queue_ s) (ip_filter_ s) (jobs s) (rx_of s) (wire_of s) (clock s) (clock_steps s)
    (conn_gen s) (next_gen s) (delivered s) (closed_inflight s) cl (arrivals s) (submitted s) (peers s).
Definition set_input (s : hpserver) (a : list (nat * list recv_answer))
    (r : list (nat * bytes * request_info)) : hpserver :=
  mk_srv (vec_size s) (connections_ s) (proxy_inflight_ s) (close_after_flush_ s) (poller_ s)
    (proxy_done_queue_ s) (ip_filter_ s) (jobs s) (rx_of s) (wire_of s) (clock s) (clock_steps s)
    (conn_gen s) (next_gen s) (delivered s) (closed_inflight s) (closed_sent s) a r (peers s).
Definition set_peers (s : hpserver) (ps : list (nat * Z)) : hpserver :=
  mk_srv (vec_size s) (connections_ s) (proxy_inflight_ s) (close_after_flush_ s) (poller_ s)
    (proxy_done_queue_ s) (ip_filter_ s) (jobs s) (rx_of s) (wire_of s) (clock s) (clock_steps s)
    (conn_gen s) (next_gen s) (delivered s) (closed_inflight s) (closed_sent s) (arrivals s)
    (submitted s) ps.

(** [steady_clock::now()]. *)
Definition srv_now (s : hpserver) : Z * hpserver :=
  match clock_steps s with
  | [] => (clock s, s)
  | d :: ds => let c := clock s + Z.of_N d in (c, set_clock s c ds)
  end.

(** After [init] and the start-up: empty vectors of [MAX_FD] elements; [p] is
    the poller with the listening socket and the eventfd. *)
(* src/src/hpserver.cpp:160-174 hpserver::init *)
Definition srv_init (p : poller) (f : ip_filter) (start : Z) (steps : list N) : hpserver :=
  mk_srv MAX_FD ∅ ∅ ∅ p [] f [] ∅ ∅ start steps ∅ 0 [] false [] [] [] [].

(** [vec[fd] = false], when the guard admits it. *)
Definition clear_flag (s : hpserver) (fd : Z) (v : gset Z) : gset Z :=
  if (0 <=? fd) && (fd <? vec_size s) then v ∖ {[fd]} else v.

(** What the connection on [fd] has been sent. *)
Definition last_sent (s : hpserver) (fd : Z) : list (nat * bytes) :=
  match conn_gen s !! fd, wire_of s !! fd with
  | Some g, Some w => [(g, sent w)]
  | _, _ => []
  end.

(** Resetting the [unique_ptr] closes the descriptor. *)
(* src/src/hpserver.cpp:122-137 hpserver::close_client *)
Definition close_client (s : hpserver) (t : timer Z) (client_fd : Z) : hpserver * timer Z :=
  let t := Timer.remove t client_fd in
  let lost := closed_inflight s || bool_decide (client_fd ∈ proxy_inflight_ s) in
  let s := set_ghost s (conn_gen s) (next_gen s) (delivered s) lost in
  let s := set_closed_sent s (closed_sent s ++ last_sent s client_fd) in
  let s := set_flags s (clear_flag s client_fd (proxy_inflight_ s))
             (clear_flag s client_fd (close_after_flush_ s)) in
  let s := set_poller s (poller_remove (poller_ s) client_fd).2 in
  if (0 <=? client_fd) && (client_fd <? vec_size s)
  then (set_ghost (set_net (set_conns s (delete client_fd (connections_ s)))
          (delete client_fd (rx_of s)) (delete client_fd (wire_of s)))
          (delete client_fd (conn_gen s)) (next_gen s) (delivered s) (closed_inflight s), t)
  else (s, t).

(** The guard most handlers start with. *)
Definition live_conn (s : hpserver) (fd : Z) : option http_conn :=
  if (fd <? 0) || (MAX_FD <=? fd) || (vec_size s <=? fd) then None else connections_ s !! fd.

(* src/src/hpserver.cpp:139-158 hpserver::refresh_client_timeout *)
Definition refresh_client_timeout (s : hpserver) (t : timer Z) (client_fd : Z)
  : hpserver * timer Z :=
  match live_conn s client_fd with
  | None => (s, t)
  | Some _ =>
      if Timer.contains t client_fd
      then let '(t, s) := Timer.adjust srv_now t s client_fd kClientIdleTimeoutMs in (s, t)
      else let '(t, s) := Timer.add srv_now t s client_fd kClientIdleTimeoutMs (Some client_fd) in
           (s, t)
  end.

(** The timer's callback for [client_fd]. *)
(* src/src/hpserver.cpp:150-157 hpserver::refresh_client_timeout *)
Definition on_idle (client_fd : Z) (s : hpserver) (t : timer Z) : hpserver * timer Z :=
  match live_conn s client_fd with
  | None => (s, t)
  | Some _ => close_client s t client_fd
  end.

(** ** Output *)

Inductive flush_outcome := FDrained | FBlocked | FFailed.

(** Every iteration that continues has sent something. *)
(* src/src/hpserver.cpp:344-365 hpserver::flush_client_output *)
Fixpoint flush_output_loop (fuel : nat) (c : http_conn) (w : wire)
  : flush_outcome * http_conn * wire :=
  match fuel with
  | O => (FFailed, c, w)
  | S f =>
      if negb (conn_has_pending_write c) then (FDrained, c, w)
      else
        let '(r, c, w) := conn_flush_to_socket c w in
        match r with
        | inr n =>
            if 0 <? n then flush_output_loop f c w
            else if conn_has_pending_write c then (FBlocked, c, w)
            else (FFailed, c, w)
        | inl e => if would_block e then (FBlocked, c, w) else (FFailed, c, w)
        end
  end.

(* src/src/hpserver.cpp:336-372 hpserver::flush_client_output *)
Definition flush_client_output (s : hpserver) (client_fd : Z) : Z * hpserver :=
  match live_conn s client_fd with
  | None => (-1, s)
  | Some conn =>
      let w := default (mk_wire [] []) (wire_of s !! client_fd) in
      let '(r, conn, w) :=
        flush_output_loop (S (length (pending (io_ conn)))) conn w in
      let s := set_net (set_conns s (<[client_fd := conn]> (connections_ s)))
                 (rx_of s) (<[client_fd := w]> (wire_of s)) in
      match r with
      | FFailed => (-1, s)
      | _ =>
          let ev := match r with FBlocked => Z.lor kClientEvents EPOLLOUT | _ => kClientEvents end in
          let '(ret, p) := poller_modify (poller_ s) client_fd ev in
          (if ret =? 0 then 0 else -1, set_poller s p)
      end
  end.

(** ** Jobs *)

Definition gen_of (s : hpserver) (fd : Z) : nat := default 0%nat (conn_gen s !! fd).

(** [accepted] is the answer of the pool's [try_push]. *)
(* src/src/hpserver.cpp:202-268 hpserver::submit_proxy_job *)
Definition submit_proxy_job (s : hpserver) (client_fd : Z) (req : request_info) (accepted : bool)
  : bool * hpserver :=
  let j := mk_job client_fd req (gen_of s client_fd) in
  if accepted then (true, set_work s (proxy_done_queue_ s) (jobs s ++ [j]))
  else (false, set_work s (proxy_done_queue_ s ++ [refused_event j]) (jobs s)).

(** The end of a task's closure: [ok], [response] and [err] are the answers of
    [http_proxy]; a tunnel has no response. *)
(* src/src/hpserver.cpp:207-233 hpserver::submit_proxy_job *)
Definition finish_job (j : job) (ok : bool) (response : bytes) (err : Z) : proxy_done_event :=
  let connect := is_connect (j_req j) in
  mk_done (j_client_fd j) ok (if connect then [] else response) true connect
    (if negb ok && (err =? 0) then EIO else err) j.

(** Writing to a connection on behalf of a job. *)
Definition queue_to (s : hpserver) (fd : Z) (j : job) (conn : http_conn) (data : bytes) : hpserver :=
  set_ghost (set_conns s (<[fd := conn_queue_write conn data]> (connections_ s)))
    (conn_gen s) (next_gen s) (delivered s ++ [mk_delivery (gen_of s fd) j data]) (closed_inflight s).

(** Close now, or after the rest of the output has been flushed. *)
(* src/src/hpserver.cpp:321-330 hpserver::drain_proxy_done_events *)
Definition close_when_flushed (s : hpserver) (t : timer Z) (fd : Z) : hpserver * timer Z :=
  match connections_ s !! fd with
  | Some conn =>
      if conn_has_pending_write conn
      then (if fd <? vec_size s
            then set_flags s (proxy_inflight_ s) (close_after_flush_ s ∪ {[fd]}) else s, t)
      else close_client s t fd
  | None => (s, t)
  end.

(** One iteration of the drain loop. *)
(* src/src/hpserver.cpp:279-333 hpserver::drain_proxy_done_events *)
Definition handle_done_event (st : hpserver * timer Z) (e : proxy_done_event) : hpserver * timer Z :=
  let '(s, t) := st in
  let fd := d_client_fd e in
  match live_conn s fd with
  | None => (s, t)
  | Some conn =>
      let s := if fd <? vec_size s
               then set_flags s (proxy_inflight_ s ∖ {[fd]}) (close_after_flush_ s) else s in
      if negb (d_ok e) then
        if d_is_connect e && is_expected_connect_shutdown_errno (d_err e) then close_client s t fd
        else
          let s := queue_to s fd (d_job e) conn
                     (build_service_unavailable_response (strerror (d_err e))) in
          let '(r, s) := flush_client_output s fd in
          if r =? -1 then close_client s t fd else close_when_flushed s t fd
      else
        let s := queue_to s fd (d_job e) conn (d_response e) in
        let '(r, s) := flush_client_output s fd in
        if r =? -1 then close_client s t fd
        else if d_close_after_done e then close_when_flushed s t fd
        else refresh_client_timeout s t fd
  end.

(* src/src/hpserver.cpp:270-334 hpserver::drain_proxy_done_events *)
Definition drain_proxy_done_events (s : hpserver) (t : timer Z) : hpserver * timer Z :=
  foldl handle_done_event (set_work s [] (jobs s), t) (proxy_done_queue_ s).

(** ** Input *)

(** Ghost: the request that the connection on [fd] has finished reading, and
    the bytes it was read from. *)
Definition log_request (s : hpserver) (fd : Z) (data : bytes) (req : request_info) : hpserver :=
  set_input s (arrivals s) (submitted s ++ [(gen_of s fd, data, req)]).

(** Ghost: what arrives for the connection on [fd]. *)
Definition log_arrival (s : hpserver) (fd : Z) (arrived : list recv_answer) : hpserver :=
  match conn_gen s !! fd with
  | Some g => set_input s (arrivals s ++ [(g, arrived)]) (submitted s)
  | None => s
  end.

(* src/src/hpserver.cpp:500-538 hpserver::handle_client *)
Definition handle_client (s : hpserver) (client_fd : Z) (pool_accepts : bool) : Z * hpserver :=
  match live_conn s client_fd with
  | None => (-1, s)
  | Some conn =>
      if (client_fd <? vec_size s) && bool_decide (client_fd ∈ proxy_inflight_ s) then (0, s)
      else
        let rx := default [] (rx_of s !! client_fd) in
        let '(r, conn, rx) := conn_read_from_socket conn rx in
        let s := set_net (set_conns s (<[client_fd := conn]> (connections_ s)))
                   (<[client_fd := rx]> (rx_of s)) (wire_of s) in
        match r with
        | inl e => (if would_block e then 0 else -1, s)
        | inr _ =>
            let '(ok, conn) := parse_available_data conn in
            let s := set_conns s (<[client_fd := conn]> (connections_ s)) in
            if negb ok then (-1, s)
            else if negb (is_message_complete (conn_parser_ conn)) then (0, s)
            else
              let req := request_ (conn_parser_ conn) in
              let s := set_conns s
                (<[client_fd := conn_reset_for_next_message conn]> (connections_ s)) in
              let s := log_request s client_fd (read_buffer_ (io_ conn)) req in
              let s := set_flags s (proxy_inflight_ s ∪ {[client_fd]}) (close_after_flush_ s) in
              (0, (submit_proxy_job s client_fd req pool_accepts).2)
        end
  end.

(** One accepted descriptor: its peer address, the answers of [fcntl], and what
    the kernel will make of its sends; or the errno of [accept]. *)
Inductive accept_answer :=
| AcceptFd (client_fd ip getfl setfl : Z) (tx : list send_answer)
| AcceptErr (e : Z).

(** A descriptor the process has open is never returned by [accept]. *)
(* src/src/hpserver.cpp:415-454 hpserver::listen *)
Fixpoint accept_loop (s : hpserver) (t : timer Z) (answers : list accept_answer)
  : hpserver * timer Z :=
  match answers with
  | [] => (s, t)
  | AcceptErr e :: rest => if e =? EINTR then accept_loop s t rest else (s, t)
  | AcceptFd fd ip getfl setfl tx :: rest =>
      if bool_decide (is_Some (connections_ s !! fd)) then (s, t)
      else if is_blocked (ip_filter_ s) ip then accept_loop s t rest
      else
        let '(ret, p) := if set_nonblocking getfl setfl
                         then poller_add (poller_ s) fd kClientEvents else (-1, poller_ s) in
        if negb (ret =? 0) then accept_loop (set_poller s p) t rest
        else if (fd <? 0) || (MAX_FD <=? fd)
             then accept_loop (set_poller s (poller_remove p fd).2) t rest
             else
               let s := set_poller s p in
               let s := set_net (set_conns s (<[fd := conn_new fd]> (connections_ s)))
                          (<[fd := []]> (rx_of s)) (<[fd := mk_wire tx []]> (wire_of s)) in
               let s := set_peers s (peers s ++ [(next_gen s, ip)]) in
               let s := set_ghost s (<[fd := next_gen s]> (conn_gen s)) (S (next_gen s))
                          (delivered s) (closed_inflight s) in
               let '(s, t) := refresh_client_timeout s t fd in
               accept_loop s t rest
  end.

(* src/src/hpserver.cpp:458-491 hpserver::listen *)
Definition on_client_event (s : hpserver) (t : timer Z) (client_fd ev : Z) (pool_accepts : bool)
  : hpserver * timer Z :=
  if has_event ev (Z.lor (Z.lor EPOLLERR EPOLLHUP) EPOLLRDHUP) then close_client s t client_fd
  else
    let '(s, t) := if has_event ev (Z.lor EPOLLIN EPOLLOUT)
                   then refresh_client_timeout s t client_fd else (s, t) in
    let after_in (s : hpserver) :=
      if has_event ev EPOLLIN then
        let '(r, s) := handle_client s client_fd pool_accepts in
        if r =? -1 then close_client s t client_fd else (s, t)
      else (s, t) in
    if has_event ev EPOLLOUT then
      let '(r, s) := flush_client_output s client_fd in
      if r =? -1 then close_client s t client_fd
      else match connections_ s !! client_fd with
           | Some conn =>
               if (client_fd <? vec_size s) && bool_decide (client_fd ∈ close_after_flush_ s) &&
                  negb (conn_has_pending_write conn)
               then close_client s t client_fd
               else after_in s
           | None => after_in s
           end
    else after_in s.

(** A ready descriptor of one [epoll_wait]: the listening socket, the eventfd,
    or a client with its mask and the segments that have arrived. *)
Inductive io_event :=
| OnListen (answers : list accept_answer)
| OnProxyEvent
| OnClient (client_fd ev : Z) (arrived : list recv_answer) (pool_accepts : bool).

(* src/src/hpserver.cpp:413-492 hpserver::listen *)
Definition handle_event (st : hpserver * timer Z) (e : io_event) : hpserver * timer Z :=
  let '(s, t) := st in
  match e with
  | OnListen answers => accept_loop s t answers
  | OnProxyEvent => drain_proxy_done_events s t
  | OnClient fd ev arrived pool_accepts =>
      let s := match rx_of s !! fd with
               | Some rx => log_arrival (set_net s (<[fd := rx ++ arrived]> (rx_of s)) (wire_of s)) fd arrived
               | None => s
               end in
      on_client_event s t fd ev pool_accepts
  end.

(** One turn of the loop; the argument is [epoll_wait]'s answer, [None] for -1. *)
(* src/src/hpserver.cpp:406-495 hpserver::listen *)
Definition loop_iteration (s : hpserver) (t : timer Z) (ready : option (list io_event))
  : option (hpserver * timer Z) :=
  '(_, _, s, t) ← Timer.get_next_timeout_ms srv_now on_idle s t;
  match ready with
  | None => Some (s, t)
  | Some events =>
      let '(s, t) := foldl handle_event (s, t) events in
      '(_, s, t) ← Timer.tick srv_now on_idle s t;
      Some (s, t)
  end.

(** What can happen: a turn of the loop, or a worker finishing the [i]-th job. *)
Inductive srv_action :=
| ALoop (ready : option (list io_event))
| AJobDone (i : nat) (ok : bool) (response : bytes) (err : Z).

Definition srv_step (st : hpserver * timer Z) (a : srv_action) : option (hpserver * timer Z) :=
  let '(s, t) := st in
  match a with
  | ALoop ready => loop_iteration s t ready
  | AJobDone i ok response err =>
      match jobs s !! i with
      | None => Some (s, t)
      | Some j => Some (set_work s (proxy_done_queue_ s ++ [finish_job j ok response err])
                          (delete i (jobs s)), t)
      end
  end.

Fixpoint srv_run (st : hpserver * timer Z) (acts : list srv_action) : option (hpserver * timer Z) :=
  match acts with
  | [] => Some st
  | a :: acts => st' ← srv_step st a; srv_run st' acts
  end.

End server.

Arguments hpserver : clear implicits.
Arguments hpserver {_}.
