(* ===== verification/ServerInvariant.v ===== *)
(** * ServerInvariant: the invariant of the event loop of [HpServer]

    What holds between any two steps of the loop, and that every operation of
    [HpServer] keeps it: the connection table, the timers, the poller and the
    flags agree; the ghost history accounts for every byte in and out; tasks and
    answers belong to requests that were read.  [ServerProperties] and [System]
    draw the theorems from it. *)

From S2P Require Import Prelude Bytes Sockets Llhttp HeaderFields HttpRequestParser.
From S2P Require Import HttpMessageBuilder IpFilter HttpConnectionIo HttpConn Timer Poller.

From S2P Require Import HpServer.

Local Open Scope Z_scope.

Section invariant.
Context `{L : Llhttp, Q : PriorityQueue} (strerror : Z -> bytes).

(** ** Invariant *)

(** What [http_proxy] may answer to a request when it reports success. *)
Variable answers : request_info -> bytes -> Prop.

(** The filter the server was started with. *)
Variable blacklist : ip_filter.

(** The connections with a job or a result under way: jobs, the results still
    to be drained ([pend]) and the queued results. *)
Definition works (s : hpserver) (pend : list proxy_done_event) : list (Z * nat) :=
  ((fun j => (j_client_fd j, j_gen j)) <$> jobs s) ++
  ((fun e => (d_client_fd e, d_gen e)) <$> pend ++ proxy_done_queue_ s).

(** As long as no connection was closed under its job, each result belongs to
    the connection it will be written to, and there is one per connection. *)
Definition isolated (s : hpserver) (pend : list proxy_done_event) : Prop :=
  Forall (fun d => dl_to d = j_gen (dl_for d)) (delivered s) /\ NoDup (works s pend).*1 /\
  (forall fd g, (fd, g) ∈ works s pend -> conn_gen s !! fd = Some g /\ fd ∈ proxy_inflight_ s).

(** What was queued for connection [g], what has arrived for it, and what of
    that was read off as requests. *)
Definition queued_to (g : nat) (d : list delivery) : bytes := gather dl_to dl_data g d.
Definition arrived_for (g : nat) (a : list (nat * list recv_answer)) : list recv_answer :=
  gather fst snd g a.
Definition requests_of (g : nat) (r : list (nat * bytes * request_info)) : bytes :=
  gather (fun e => e.1.1) (fun e => e.1.2) g r.

(** The output side: connections are numbered apart; what a live one has been
    sent, followed by what it still holds, is what was queued for it; what a
    closed one had been sent is a prefix of it. *)
Record out_ok (conns : gmap Z http_conn) (wires : gmap Z wire) (gens : gmap Z nat) (next : nat)
    (d : list delivery) (closed : list (nat * bytes)) : Prop := {
  o_gen : forall fd g, gens !! fd = Some g -> (g < next)%nat;
  o_inj : forall fd fd' g, gens !! fd = Some g -> gens !! fd' = Some g -> fd = fd';
  o_recv : forall e, e ∈ d -> (dl_to e < next)%nat;
  o_live : forall fd c g, conns !! fd = Some c -> gens !! fd = Some g ->
    exists w, wires !! fd = Some w /\ sent w ++ pending (io_ c) = queued_to g d;
  o_closed : forall g b, (g, b) ∈ closed -> b `prefix_of` queued_to g d;
}.

(** A parser before the first byte of a message. *)
Definition parser_ready (q : http_request_parser) : Prop :=
  q = parser_new \/ exists q0, q = reset_for_next_message q0.

(** The parser has read [data], in whatever pieces, and got to [p]. *)
Definition parsed_to (data : bytes) (p : http_request_parser) : Prop :=
  exists q chunks, parser_ready q /\ mjoin chunks = data /\ parse_all q chunks = (true, p).

(** [data] is read as the complete request [r]. *)
Definition reads_as (data : bytes) (r : request_info) : Prop :=
  exists p, parsed_to data p /\ is_message_complete p = true /\ request_ p = r.

(** The parser of a connection has seen the read buffer up to the offset. *)
Definition conn_fed (c : http_conn) : Prop :=
  (parse_offset_ c <= length (read_buffer_ (io_ c)))%nat /\
  (has_parse_error (conn_parser_ c) = false ->
   parsed_to (take (parse_offset_ c) (read_buffer_ (io_ c))) (conn_parser_ c)).

(** The input side: the data arrived for a live connection is the requests read
    so far, what is buffered and what its socket still holds; every request was
    read from the bytes logged for it. *)
Record in_ok (conns : gmap Z http_conn) (gens : gmap Z nat) (rxs : gmap Z (list recv_answer))
    (next : nat) (a : list (nat * list recv_answer)) (r : list (nat * bytes * request_info)) : Prop := {
  n_arrived : forall e, e ∈ a -> (e.1 < next)%nat;
  n_read : forall e, e ∈ r -> (e.1.1 < next)%nat;
  n_live : forall fd c g, conns !! fd = Some c -> gens !! fd = Some g ->
    conn_fed c /\ exists rx, rxs !! fd = Some rx /\
      forall more, rx_data (arrived_for g a ++ more) =
        requests_of g r ++ read_buffer_ (io_ c) ++ rx_data (rx ++ more);
  n_prefix : forall g, requests_of g r `prefix_of` rx_data (arrived_for g a);
  n_reads : forall g data req, (g, data, req) ∈ r -> reads_as data req;
}.

(** What may be written to a client on behalf of a task: what the proxy
    answered to its request, or the report of a failure. *)
Definition reply_to (j : job) (data : bytes) : Prop :=
  answers (j_req j) data \/ exists err, data = build_service_unavailable_response (strerror err).

(** The requests of tasks, and those that were read, with their connections. *)
Definition asked (js : list job) : list (nat * request_info) := (fun j => (j_gen j, j_req j)) <$> js.
#[local] Instance asked_perm : Proper ((≡ₚ) ==> (≡ₚ)) asked.
Proof. intros js js' E. unfold asked. by rewrite E. Qed.
Definition read_off (r : list (nat * bytes * request_info)) : list (nat * request_info) :=
  (fun e => (e.1.1, e.2)) <$> r.

(** Tasks under way, finished and answered are requests that were read, each at
    most once; answers are what they may be. *)
Record log_ok (js : list job) (done : list proxy_done_event) (d : list delivery)
    (r : list (nat * bytes * request_info)) : Prop := {
  l_once : asked (js ++ (d_job <$> done) ++ (dl_for <$> d)) ⊆+ read_off r;
  l_done : forall e, e ∈ done -> d_close_after_done e = true /\
    (d_ok e = true -> answers (j_req (d_job e)) (d_response e));
  l_delivered : forall e, e ∈ d -> reply_to (dl_for e) (dl_data e);
}.

(** Unsent output is waited for, and its connection will be closed after it. *)
Definition watched (s : hpserver) (fd : Z) (c : http_conn) : Prop :=
  conn_has_pending_write c = true ->
  interest (poller_ s) !! fd = Some (Z.lor kClientEvents EPOLLOUT) /\ fd ∈ close_after_flush_ s.

(** The state and its live timers [es]; with [x = Some fd] the timer of [fd]
    may be missing or superfluous and its output unwatched (while it is being
    opened, written to or closed). *)
Record srv_inv (x : option Z) (s : hpserver) (es : gmap Z (entry Z))
    (pend : list proxy_done_event) : Prop := {
  i_size : vec_size s = MAX_FD;
  i_poller : poller_ok (poller_ s);
  i_conn : forall fd c, connections_ s !! fd = Some c ->
    0 <= fd < MAX_FD /\ io_fd (io_ c) = fd /\ io_ok (io_ c) /\ is_Some (interest (poller_ s) !! fd);
  i_timer : forall fd, x <> Some fd -> is_Some (es !! fd) <-> is_Some (connections_ s !! fd);
  i_cb : forall fd e, es !! fd = Some e -> e_callback e = Some fd;
  i_gen : forall fd, is_Some (conn_gen s !! fd) <-> is_Some (connections_ s !! fd);
  i_inflight : forall fd, fd ∈ proxy_inflight_ s -> is_Some (connections_ s !! fd);
  i_caf : forall fd, fd ∈ close_after_flush_ s -> is_Some (connections_ s !! fd);
  i_iso : closed_inflight s = false -> isolated s pend;
  i_work : forall fd, fd ∈ proxy_inflight_ s -> fd ∈ (works s pend).*1;
  i_out : out_ok (connections_ s) (wire_of s) (conn_gen s) (next_gen s) (delivered s) (closed_sent s);
  i_in : in_ok (connections_ s) (conn_gen s) (rx_of s) (next_gen s) (arrivals s) (submitted s);
  i_log : log_ok (jobs s) (pend ++ proxy_done_queue_ s) (delivered s) (submitted s);
  i_filter : ip_filter_ s = blacklist;
  i_peer : forall fd g, conn_gen s !! fd = Some g -> exists ip, (g, ip) ∈ peers s;
  i_allowed : forall g ip, (g, ip) ∈ peers s -> is_blocked blacklist ip = false;
  i_watched : forall fd c, x <> Some fd -> connections_ s !! fd = Some c -> watched s fd c;
}.

(** ** Lemmas *)

Lemma srv_inv_weaken x s es pend : srv_inv None s es pend -> srv_inv x s es pend.
Proof. intros []. by constructor; auto. Qed.

Lemma srv_inv_restore fd s es pend :
  srv_inv (Some fd) s es pend -> (is_Some (es !! fd) <-> is_Some (connections_ s !! fd)) ->
  (forall c, connections_ s !! fd = Some c -> watched s fd c) -> srv_inv None s es pend.
Proof.
  intros [H1 H2 H3 H4 H5 H6 H7 H8 H9 H10 H11 H12 H13 HF HP HA H14] Ht Hw. constructor; try done.
  - intros k _. destruct (decide (k = fd)) as [->|]; [done|]. apply H4. congruence.
  - intros k c _ Hk. destruct (decide (k = fd)) as [->|]; [by apply Hw|]. apply H14; [congruence|done].
Qed.

Lemma live_conn_Some s fd c :
  live_conn s fd = Some c -> connections_ s !! fd = Some c /\ 0 <= fd < MAX_FD /\ fd < vec_size s.
Proof.
  unfold live_conn. destruct (_ || _) eqn:E; [done|]. hp_bool. intros. split; [done|lia].
Qed.

Lemma live_conn_iff x s es pend fd :
  srv_inv x s es pend -> live_conn s fd = connections_ s !! fd.
Proof.
  intros Hi. unfold live_conn. destruct (connections_ s !! fd) as [c|] eqn:E.
  - destruct (i_conn _ _ _ _ Hi fd c E) as ((? & ?) & _). rewrite (i_size _ _ _ _ Hi).
    destruct (_ || _) eqn:Eb; [|done].
    repeat (apply orb_true_iff in Eb as [Eb|Eb]); hp_bool; lia.
  - by destruct (_ || _).
Qed.

Lemma srv_now_fields s :
  exists c st, (srv_now s).2 = set_clock s c st \/ (srv_now s).2 = s.
Proof. unfold srv_now. destruct (clock_steps s); [exists 0, []|eexists _, _]; eauto. Qed.

Lemma now_inv x s es pend : srv_inv x s es pend -> srv_inv x (srv_now s).2 es pend.
Proof.
  intros Hi. destruct (srv_now_fields s) as (c & st & [->| ->]); [|done].
  destruct Hi. by constructor.
Qed.

Lemma srv_steady : steady srv_now.
Proof.
  intros s. unfold srv_now. destruct (clock_steps s) as [|d [|d' ds]] eqn:E; simpl; rewrite ?E; simpl; lia.
Qed.

(** A descriptor out of range has no connection and no flag. *)
Lemma conn_in_range x s es pend fd :
  srv_inv x s es pend -> (0 <=? fd) && (fd <? vec_size s) = false ->
  connections_ s !! fd = None /\ fd ∉ proxy_inflight_ s /\ fd ∉ close_after_flush_ s /\
  conn_gen s !! fd = None.
Proof.
  intros Hi Hr. assert (connections_ s !! fd = None) as Hn.
  { destruct (connections_ s !! fd) as [c|] eqn:E; [|done].
    destruct (i_conn _ _ _ _ Hi fd c E) as ((? & ?) & _). rewrite (i_size _ _ _ _ Hi) in Hr.
    apply andb_false_iff in Hr as [Hr|Hr]; hp_bool; lia. }
  split_and!; [done|..].
  - intros H%(i_inflight _ _ _ _ Hi). rewrite Hn in H. by destruct H.
  - intros H%(i_caf _ _ _ _ Hi). rewrite Hn in H. by destruct H.
  - destruct (conn_gen s !! fd) eqn:E; [|done].
    destruct (proj1 (i_gen _ _ _ _ Hi fd)) as [c Hc]; [by rewrite E|]. by rewrite Hn in Hc.
Qed.

(** The connection on [fd] is replaced, after [data] was queued for it. *)
Lemma out_update conns wires gens next d closed fd c' w' g o data :
  out_ok conns wires gens next d closed -> gens !! fd = Some g ->
  sent w' ++ pending (io_ c') = queued_to g d ++ data ->
  out_ok (<[fd := c']> conns) (<[fd := w']> wires) gens next (d ++ [mk_delivery g o data]) closed.
Proof.
  intros [O1 O2 O3 O4 O5] Hg Hd. constructor; [done|done| | |].
  - intros e [He| ->%list_elem_of_singleton]%elem_of_app; [by apply O3|by apply (O1 fd)].
  - intros k c h Hc Hh. unfold queued_to. rewrite gather_app, gather_one. simpl. destruct (decide (k = fd)) as [->|Hne].
    + rewrite lookup_insert_eq in Hc. rewrite lookup_insert_eq. simplify_eq. exists w'. by rewrite decide_True.
    + rewrite lookup_insert_ne in Hc by done. rewrite lookup_insert_ne by done. destruct (O4 k c h Hc Hh) as (w & Hw & Hs).
      exists w. split; [done|]. rewrite decide_False, app_nil_r; [done|].
      intros <-. by apply Hne, (O2 k fd g).
  - intros h b Hb. unfold queued_to. rewrite gather_app. by apply prefix_app_r, O5.
Qed.

(** The same when only bytes moved between the buffer and the socket. *)
Lemma out_move conns wires gens next d closed fd c w c' w' :
  out_ok conns wires gens next d closed -> conns !! fd = Some c -> wires !! fd = Some w ->
  sent w' ++ pending (io_ c') = sent w ++ pending (io_ c) ->
  out_ok (<[fd := c']> conns) (<[fd := w']> wires) gens next d closed.
Proof.
  intros [O1 O2 O3 O4 O5] Hc Hw Hs. constructor; try done.
  intros k ck h Hk Hh. destruct (decide (k = fd)) as [->|Hne].
  - rewrite lookup_insert_eq in Hk. rewrite lookup_insert_eq. simplify_eq. destruct (O4 fd c h Hc Hh) as (w0 & Hw0 & <-).
    simplify_eq. eauto.
  - rewrite lookup_insert_ne in Hk by done. rewrite lookup_insert_ne by done. by apply (O4 k ck).
Qed.

Lemma out_open conns wires gens next d closed fd c w :
  out_ok conns wires gens next d closed -> sent w ++ pending (io_ c) = [] ->
  out_ok (<[fd := c]> conns) (<[fd := w]> wires) (<[fd := next]> gens) (S next) d closed.
Proof.
  intros [O1 O2 O3 O4 O5] Hs. constructor; [| | | |done].
  - intros k g [[<- <-]|[_ Hk%O1]]%lookup_insert_Some; lia.
  - intros k k' g [[<- <-]|[Hk Hg]]%lookup_insert_Some [[<- Hn]|[Hk' Hg']]%lookup_insert_Some; try done.
    + apply O1 in Hg'. lia.
    + apply O1 in Hg. lia.
    + by apply (O2 k k' g).
  - intros e He%O3. lia.
  - intros k ck h Hk Hh. destruct (decide (k = fd)) as [->|Hne].
    + rewrite lookup_insert_eq in Hk. rewrite lookup_insert_eq in Hh. rewrite lookup_insert_eq. simplify_eq. exists w. rewrite Hs. split; [done|]. symmetry. by apply gather_fresh.
    + rewrite lookup_insert_ne in Hk by done. rewrite lookup_insert_ne in Hh by done.
      rewrite lookup_insert_ne by done. by apply (O4 k ck).
Qed.

(** What only the output, or only the input, changes. *)
Definition same_input (c c' : http_conn) : Prop :=
  io_fd (io_ c') = io_fd (io_ c) /\ read_buffer_ (io_ c') = read_buffer_ (io_ c) /\
  conn_parser_ c' = conn_parser_ c /\ parse_offset_ c' = parse_offset_ c.

Definition same_output (c c' : http_conn) : Prop :=
  io_fd (io_ c') = io_fd (io_ c) /\ pending (io_ c') = pending (io_ c).

Lemma log_pop js e done d r :
  log_ok js (e :: done) d r ->
  log_ok js done d r /\ asked (d_job e :: js ++ (d_job <$> done) ++ (dl_for <$> d)) ⊆+ read_off r.
Proof.
  intros [L1 L2 L3]. rewrite fmap_cons, <- app_comm_cons, <- Permutation_middle in L1. split; [|done].
  constructor; [|by intros e' He; apply L2; right|done].
  etrans; [|exact L1]. unfold asked. rewrite (fmap_cons _ (d_job e)). by apply submseteq_cons.
Qed.

Lemma log_more js done d r rs : log_ok js done d r -> log_ok js done d (r ++ rs).
Proof.
  intros [L1 L2 L3]. constructor; [|done|done]. etrans; [exact L1|]. unfold read_off.
  rewrite fmap_app. by apply submseteq_inserts_r.
Qed.

(** One more request was read: a task for it may be under way. *)
Lemma log_spare js done d r g data req fd :
  log_ok js done d r ->
  asked (mk_job fd req g :: js ++ (d_job <$> done) ++ (dl_for <$> d)) ⊆+ read_off (r ++ [(g, data, req)]).
Proof.
  intros [L1 _ _]. unfold read_off, asked in *. rewrite fmap_app, fmap_cons. simpl.
  rewrite <- Permutation_cons_append. by apply submseteq_skip.
Qed.

Lemma in_same conns gens rxs next a r fd c c' :
  in_ok conns gens rxs next a r -> conns !! fd = Some c -> same_input c c' ->
  in_ok (<[fd := c']> conns) gens rxs next a r.
Proof.
  intros [N1 N2 N3 N4 N5] Hc (_ & Hb & Hp & Ho). constructor; [done|done| |done|done].
  intros k ck h [[<- <-]|[_ Hk]]%lookup_insert_Some Hh; [|by apply N3].
  destruct (N3 fd c h Hc Hh) as (Hf & rx & Hrx & Hd). unfold conn_fed. rewrite Hb, Hp, Ho. eauto.
Qed.

Lemma in_close conns gens rxs rxs' next a r fd :
  in_ok conns gens rxs next a r -> (forall k, k <> fd -> rxs' !! k = rxs !! k) ->
  in_ok (delete fd conns) (delete fd gens) rxs' next a r.
Proof.
  intros [N1 N2 N3 N4 N5] Hr. constructor; [done|done| |done|done].
  intros k c g [Hne Hk]%lookup_delete_Some [_ Hg]%lookup_delete_Some. rewrite Hr by done. by apply N3.
Qed.

Lemma in_open conns gens rxs next a r fd c :
  in_ok conns gens rxs next a r -> conn_fed c -> read_buffer_ (io_ c) = [] ->
  in_ok (<[fd := c]> conns) (<[fd := next]> gens) (<[fd := []]> rxs) (S next) a r.
Proof.
  intros [N1 N2 N3 N4 N5] Hf Hb. constructor; [by intros e ?%N1; lia|by intros e ?%N2; lia| |done|done].
  intros k ck h Hk Hh. destruct (decide (k = fd)) as [->|Hne].
  - rewrite lookup_insert_eq in Hk. rewrite lookup_insert_eq in Hh. rewrite lookup_insert_eq. simplify_eq.
    split; [done|]. eexists. split; [done|]. intros more. unfold arrived_for, requests_of.
    by rewrite !gather_fresh, Hb.
  - rewrite lookup_insert_ne in Hk by done. rewrite lookup_insert_ne in Hh by done.
    rewrite lookup_insert_ne by done. by apply N3.
Qed.

(** The connection on [fd] is replaced: what was read off the socket is in its
    buffer, or is logged as the request [rs] read from the buffer. *)
Lemma in_update conns gens rxs next a r fd g c c' rx rx' rs :
  in_ok conns gens rxs next a r -> conns !! fd = Some c -> gens !! fd = Some g -> rxs !! fd = Some rx ->
  (forall fd', gens !! fd' = Some g -> fd' = fd) -> (g < next)%nat ->
  conn_fed c' -> (forall e, e ∈ rs -> e.1.1 = g /\ reads_as e.1.2 e.2) ->
  (forall more, read_buffer_ (io_ c) ++ rx_data (rx ++ more) =
     mjoin ((fun e => e.1.2) <$> rs) ++ read_buffer_ (io_ c') ++ rx_data (rx' ++ more)) ->
  in_ok (<[fd := c']> conns) gens (<[fd := rx']> rxs) next a (r ++ rs).
Proof.
  intros [N1 N2 N3 N4 N5] Hc Hg Hrx Hinj Hlt Hf Hrs Hd. destruct (N3 fd c g Hc Hg) as (_ & rx0 & Hrx0 & Hall).
  rewrite Hrx in Hrx0. injection Hrx0 as <-.
  assert (requests_of g rs = mjoin ((fun e => e.1.2) <$> rs)) as Hmine.
  { unfold requests_of. clear Hd. induction rs as [|e rs IH]; [done|]. change (e :: rs) with ([e] ++ rs).
    rewrite gather_app, gather_one, fmap_app, join_app, IH by (intros e' ?; apply Hrs; set_solver).
    destruct (Hrs e ltac:(left)) as [He _]. rewrite decide_True by done. simpl. by rewrite app_nil_r. }
  assert (forall h, h <> g -> requests_of h rs = []) as Hother.
  { intros h Hne. unfold requests_of. clear Hd Hmine. induction rs as [|e rs IH]; [done|].
    change (e :: rs) with ([e] ++ rs).
    rewrite gather_app, gather_one, IH by (intros e' ?; apply Hrs; set_solver).
    destruct (Hrs e ltac:(left)) as [He _]. by rewrite decide_False by congruence. }
  assert (forall h, requests_of h (r ++ rs) = requests_of h r ++ requests_of h rs) as Happ
    by (intros h; apply gather_app).
  assert (forall more, rx_data (arrived_for g a ++ more) =
    requests_of g (r ++ rs) ++ read_buffer_ (io_ c') ++ rx_data (rx' ++ more)) as Hmain.
  { intros more. rewrite Hall, Hd, Happ, Hmine. by rewrite <- !(assoc_L (++)). }
  constructor; [done| | | |].
  - intros e [He|He]%elem_of_app; [by apply N2|]. by destruct (Hrs e He) as [-> _].
  - intros k ck h Hk Hh. destruct (decide (k = fd)) as [->|Hne].
    + rewrite lookup_insert_eq in Hk. rewrite lookup_insert_eq. simplify_eq. eauto.
    + rewrite lookup_insert_ne in Hk by done. rewrite lookup_insert_ne by done.
      destruct (N3 k ck h Hk Hh) as (? & rxk & ? & Hk'). split; [done|]. exists rxk. split; [done|].
      intros more. rewrite Happ, Hother, app_nil_r; [done|]. intros ->. by apply Hne, Hinj.
  - intros h. destruct (decide (h = g)) as [->|Hne]; [|by rewrite Happ, Hother, app_nil_r].
    specialize (Hmain []). rewrite app_nil_r in Hmain. rewrite Hmain. by apply prefix_app_r.
  - intros h data req [He|He]%elem_of_app; [by apply (N5 h)|]. by destruct (Hrs _ He).
Qed.

(** More arrives for the connection on [fd]. *)
Lemma in_arrive conns gens rxs next a r fd g rx more :
  in_ok conns gens rxs next a r -> gens !! fd = Some g -> rxs !! fd = Some rx ->
  (forall fd', gens !! fd' = Some g -> fd' = fd) -> (g < next)%nat ->
  in_ok conns gens (<[fd := rx ++ more]> rxs) next (a ++ [(g, more)]) r.
Proof.
  intros [N1 N2 N3 N4 N5] Hg Hrx Hinj Hlt.
  assert (forall h, arrived_for h (a ++ [(g, more)]) =
    arrived_for h a ++ if decide (g = h) then more else []) as Happ
    by (intros h; unfold arrived_for; by rewrite gather_app, gather_one).
  constructor; [|done| | |done].
  - intros e [He| ->%list_elem_of_singleton]%elem_of_app; [by apply N1|done].
  - intros k c h Hk Hh. destruct (N3 k c h Hk Hh) as (Hf & rxk & Hrk & Hall). split; [done|].
    destruct (decide (k = fd)) as [->|Hne].
    + rewrite lookup_insert_eq. simplify_eq. eexists. split; [done|]. intros more'.
      by rewrite Happ, decide_True, <- !(assoc_L (++)).
    + rewrite lookup_insert_ne by done. exists rxk. split; [done|]. intros more'.
      rewrite Happ, decide_False, app_nil_r; [done|]. intros <-. by apply Hne, Hinj.
  - intros h. rewrite Happ. by apply prefix_of_rx_data.
Qed.

Lemma out_close s wires' fd :
  out_ok (connections_ s) (wire_of s) (conn_gen s) (next_gen s) (delivered s) (closed_sent s) ->
  (is_Some (conn_gen s !! fd) <-> is_Some (connections_ s !! fd)) ->
  (forall k, k <> fd -> wires' !! k = wire_of s !! k) ->
  out_ok (delete fd (connections_ s)) wires' (delete fd (conn_gen s)) (next_gen s) (delivered s)
    (closed_sent s ++ last_sent s fd).
Proof.
  intros [O1 O2 O3 O4 O5] Hdom Hw. constructor; [| |done| |].
  - intros k g [_ Hk]%lookup_delete_Some. by apply (O1 k).
  - intros k k' g [_ Hk]%lookup_delete_Some [_ Hk']%lookup_delete_Some. by apply (O2 k k' g).
  - intros k c g [Hne Hk]%lookup_delete_Some [_ Hg]%lookup_delete_Some. rewrite Hw by done.
    by apply (O4 k c g).
  - intros g b [Hb|Hb]%elem_of_app; [by apply O5|]. unfold last_sent in Hb.
    destruct (conn_gen s !! fd) as [h|] eqn:Hh; [|by apply not_elem_of_nil in Hb].
    destruct (proj1 Hdom ltac:(eauto)) as [c Hc]. destruct (O4 fd c h Hc Hh) as (w & Hwf & Hs).
    rewrite Hwf in Hb. apply list_elem_of_singleton in Hb as [= -> ->]. rewrite <- Hs.
    by apply prefix_app_r.
Qed.

(** What closing changes, whatever the descriptor. *)
Lemma close_fields x s t fd pend :
  srv_inv x s (entries_ t) pend -> timer_ok t ->
  let '(s', t') := close_client s t fd in
  timer_ok t' /\ entries_ t' = delete fd (entries_ t) /\
  (length (pq_elems (heap_ t')) <= length (pq_elems (heap_ t)))%nat /\
  vec_size s' = vec_size s /\ connections_ s' = delete fd (connections_ s) /\
  proxy_inflight_ s' = proxy_inflight_ s ∖ {[fd]} /\
  close_after_flush_ s' = close_after_flush_ s ∖ {[fd]} /\
  poller_ok (poller_ s') /\ interest (poller_ s') = delete fd (interest (poller_ s)) /\
  proxy_done_queue_ s' = proxy_done_queue_ s /\ jobs s' = jobs s /\
  conn_gen s' = delete fd (conn_gen s) /\ delivered s' = delivered s /\
  closed_inflight s' = closed_inflight s || bool_decide (fd ∈ proxy_inflight_ s) /\
  next_gen s' = next_gen s /\ closed_sent s' = closed_sent s ++ last_sent s fd /\
  (forall k, k <> fd -> wire_of s' !! k = wire_of s !! k) /\
  (forall k, k <> fd -> rx_of s' !! k = rx_of s !! k) /\
  arrivals s' = arrivals s /\ submitted s' = submitted s /\
  ip_filter_ s' = ip_filter_ s /\ peers s' = peers s.
Proof.
  intros Hi Ht. destruct (remove_ok t fd Ht) as (R1 & R2 & R3).
  destruct (poller_remove_interest (poller_ s) fd (i_poller _ _ _ _ Hi)) as [P1 P2].
  pose proof (conn_in_range x s _ _ fd Hi) as Hout.
  unfold close_client, clear_flag. simpl.
  destruct ((0 <=? fd) && (fd <? vec_size s)); simpl.
  - split_and!; try done; intros k Hk; by apply lookup_delete_ne.
  - destruct (Hout eq_refl) as (N1 & N2 & N3 & N4).
    rewrite (delete_id (connections_ s)), (delete_id (conn_gen s)) by done.
    split_and!; try done; set_solver.
Qed.

(** Closing ends the exception and keeps the rest. *)
Lemma close_inv x s t fd pend :
  srv_inv x s (entries_ t) pend -> x = None \/ x = Some fd -> timer_ok t ->
  let '(s', t') := close_client s t fd in
  srv_inv None s' (entries_ t') pend /\ timer_ok t'.
Proof.
  intros Hi Hx Ht. pose proof (close_fields x s t fd pend Hi Ht) as Hf.
  destruct (close_client s t fd) as [s' t'].
  destruct Hf as (T1 & T2 & _ & F1 & F2 & F3 & F4 & F5 & F6 & F7 & F8 & F9 & F10 & F11 & F12 & F13 & F14 & F15 & F16 & F17 & F18 & F19).
  split; [|done]. destruct Hi as [H1 H2 H3 H4 H5 H6 H7 H8 H9 H10 H11 H12 H13 HF HP HA H14]. constructor.
  - congruence.
  - done.
  - intros k c. rewrite F2, F6, lookup_delete_Some. intros [Hne Hk].
    rewrite lookup_delete_ne by done. by apply H3.
  - intros k _. rewrite T2, F2. destruct (decide (k = fd)) as [->|Hne].
    + rewrite !lookup_delete_eq. by split; intros [? ?].
    + rewrite !lookup_delete_ne by done. apply H4. naive_solver.
  - intros k e. rewrite T2, lookup_delete_Some. intros [_ Hk]. by apply H5.
  - intros k. rewrite F9, F2. destruct (decide (k = fd)) as [->|Hne].
    + rewrite !lookup_delete_eq. by split; intros [? ?].
    + rewrite !lookup_delete_ne by done. apply H6.
  - intros k. rewrite F3, F2. intros [Hk Hne%not_elem_of_singleton]%elem_of_difference.
    rewrite lookup_delete_ne by done. by apply H7.
  - intros k. rewrite F4, F2. intros [Hk Hne%not_elem_of_singleton]%elem_of_difference.
    rewrite lookup_delete_ne by done. by apply H8.
  - rewrite F11. intros [Hci Hni]%orb_false_iff. apply bool_decide_eq_false in Hni.
    destruct (H9 Hci) as (I1 & I2 & I3). unfold isolated, works in *.
    rewrite F7, F8, F9, F10, F3. split_and!; [done|done|].
    intros k g Hk. destruct (I3 k g Hk) as [Hg Hin].
    assert (k <> fd) by (intros ->; done). rewrite lookup_delete_ne by done. set_solver.
  - intros k. rewrite F3. intros [Hk _]%elem_of_difference. unfold works. rewrite F7, F8. by apply H10.
  - rewrite F2, F9, F10, F12, F13. by apply out_close.
  - rewrite F2, F9, F12, F16, F17. by apply (in_close _ _ (rx_of s)).
  - by rewrite F7, F8, F10, F17.
  - by rewrite F18.
  - intros k g. rewrite F9, F19, lookup_delete_Some. intros [_ Hk]. by apply (HP k).
  - intros g ip. rewrite F19. apply HA.
  - intros k c _. rewrite F2, lookup_delete_Some. intros [Hne Hk]. unfold watched.
    rewrite F4, F6, lookup_delete_ne by done. intros Hp. destruct (H14 k c) as [? ?]; [|done..|].
    + naive_solver.
    + split; [done|]. apply elem_of_difference. split; [done|]. by apply not_elem_of_singleton.
Qed.

(** Arming the timer of a live connection ends the exception. *)
Lemma arm_inv x s es pend fd e :
  srv_inv x s es pend -> x = None \/ x = Some fd -> is_Some (connections_ s !! fd) ->
  (x = Some fd -> forall c, connections_ s !! fd = Some c -> watched s fd c) ->
  e_callback e = Some fd -> srv_inv None s (<[fd := e]> es) pend.
Proof.
  intros [H1 H2 H3 H4 H5 H6 H7 H8 H9 H10 H11 H12 H13 HF HP HA H14] Hx Hc Hw He. constructor; try done.
  - intros k _. destruct (decide (k = fd)) as [->|Hne].
    + rewrite lookup_insert_eq. split; [done|eauto].
    + rewrite lookup_insert_ne by done. apply H4. naive_solver.
  - intros k e' [[<- <-]|[_ Hk]]%lookup_insert_Some; [done|by apply H5].
  - intros k c _ Hk. destruct (decide (x = Some k)) as [->|]; [|by apply H14].
    destruct Hx as [|[= ->]]; [done|by apply Hw].
Qed.

Lemma refresh_inv x s t fd pend :
  srv_inv x s (entries_ t) pend -> x = None \/ (x = Some fd /\
    exists c, connections_ s !! fd = Some c /\ conn_has_pending_write c = false) ->
  timer_ok t ->
  let '(s', t') := refresh_client_timeout s t fd in
  srv_inv None s' (entries_ t') pend /\ timer_ok t' /\ connections_ s' = connections_ s.
Proof.
  intros Hi Hx Ht. unfold refresh_client_timeout. rewrite (live_conn_iff x s _ _ fd Hi).
  destruct (connections_ s !! fd) as [c|] eqn:Ec.
  2:{ destruct Hx as [->|[_ (? & ? & _)]]; [|done]. done. }
  destruct (i_conn _ _ _ _ Hi fd c Ec) as ((Hfd & _) & _).
  assert (x = None \/ x = Some fd) as Hx' by naive_solver.
  assert (forall s', connections_ s' = connections_ s -> x = Some fd ->
    forall c0, connections_ s' !! fd = Some c0 -> watched s' fd c0) as Hw.
  { intros s' -> -> c0 Hc0 Hp. destruct Hx as [?|[_ (c1 & Hc1 & Hp1)]]; [done|]. congruence. }
  pose proof (now_inv _ _ _ _ Hi) as Hn. assert (forall s', connections_ (srv_now s').2 = connections_ s') as Hcn
    by (intros s'; destruct (srv_now_fields s') as (? & ? & [->| ->]); done).
  unfold contains. destruct (entries_ t !! fd) as [e|] eqn:Ee; simpl.
  - unfold adjust. rewrite Ee.
    specialize (Hcn s). destruct (srv_now s) as [n s1]. simpl in Hcn, Hn.
    destruct (arm_ok t fd (mk_entry (n + milliseconds kClientIdleTimeoutMs) (e_callback e)
      (u64 (e_version e + 1))) Ht) as (A1 & _ & A3). simpl in A1, A3.
    split_and!; [|done|done]. rewrite A3. eapply arm_inv; [done|done| |by apply Hw|].
    + rewrite Hcn, Ec. eauto.
    + exact (i_cb _ _ _ _ Hi fd e Ee).
  - unfold add. rewrite Ee.
    rewrite (proj2 (Z.ltb_ge _ _)) by done.
    pose proof (Hcn s) as Hcn1. destruct (srv_now s) as [n s1]. simpl in Hcn1, Hn.
    pose proof (now_inv _ _ _ _ Hn) as Hn2. specialize (Hcn s1).
    destruct (arm_ok t fd (mk_entry (n + milliseconds kClientIdleTimeoutMs) (Some fd) 1) Ht)
      as (A1 & _ & A3). simpl in A1, A3. split_and!; [|done|congruence].
    rewrite A3. eapply arm_inv; [done|done| |apply Hw; congruence|done]. rewrite Hcn, Hcn1, Ec. eauto.
Qed.

(** Replacing the connection on a descriptor by one with the same socket. *)
Lemma conn_update_inv x s es pend fd c c' r w d sub :
  srv_inv x s es pend -> connections_ s !! fd = Some c ->
  io_fd (io_ c') = io_fd (io_ c) -> io_ok (io_ c') ->
  out_ok (<[fd := c']> (connections_ s)) w (conn_gen s) (next_gen s) d (closed_sent s) ->
  in_ok (<[fd := c']> (connections_ s)) (conn_gen s) r (next_gen s) (arrivals s) sub ->
  log_ok (jobs s) (pend ++ proxy_done_queue_ s) d sub ->
  (closed_inflight s = false -> Forall (fun e => dl_to e = j_gen (dl_for e)) d) ->
  (x <> Some fd -> watched s fd c') ->
  srv_inv x (set_input (set_ghost (set_net (set_conns s (<[fd := c']> (connections_ s))) r w)
    (conn_gen s) (next_gen s) d (closed_inflight s)) (arrivals s) sub) es pend.
Proof.
  intros [H1 H2 H3 H4 H5 H6 H7 H8 H9 H10 H11 H12 H13 HF HP HA H14] Hc Hfd Hok Hout Hin Hlog Hd Hw.
  assert (forall k, is_Some (<[fd := c']> (connections_ s) !! k) <-> is_Some (connections_ s !! k)) as Hdom.
  { intros k. destruct (decide (k = fd)) as [->|Hne].
    - rewrite lookup_insert_eq, Hc. split; eauto.
    - by rewrite lookup_insert_ne. }
  constructor; simpl; try done.
  - intros k c0 [[<- <-]|[_ Hk]]%lookup_insert_Some; [|by apply H3].
    destruct (H3 fd c Hc) as (? & ? & ? & ?). split_and!; try done; lia.
  - intros k Hk. rewrite Hdom. by apply H4.
  - intros k. rewrite Hdom. apply H6.
  - intros k Hk. apply Hdom. by apply H7.
  - intros k Hk. apply Hdom. by apply H8.
  - intros Hci. destruct (H9 Hci) as (_ & I2 & I3). by split_and!; [apply Hd|..].
  - intros k c0 Hx [[<- <-]|[_ Hk]]%lookup_insert_Some; [by apply Hw|by apply H14].
Qed.

Lemma conn_pending_iff c : conn_has_pending_write c = negb (bool_decide (pending (io_ c) = [])).
Proof.
  unfold conn_has_pending_write, io_has_pending_write, pending. destruct (_ <? _)%nat eqn:E; hp_bool.
  - rewrite bool_decide_false; [done|]. intros Hd%(f_equal length). rewrite length_drop in Hd. simpl in Hd. lia.
  - rewrite bool_decide_true; [done|]. apply drop_ge. lia.
Qed.

(** The connection and its socket on a descriptor. *)
Lemma conn_wire x s es pend fd c :
  srv_inv x s es pend -> connections_ s !! fd = Some c ->
  exists g w, conn_gen s !! fd = Some g /\ wire_of s !! fd = Some w /\
    sent w ++ pending (io_ c) = queued_to g (delivered s).
Proof.
  intros Hi Hc. destruct (proj2 (i_gen _ _ _ _ Hi fd)) as [g Hg]; [eauto|].
  destruct (o_live _ _ _ _ _ _ (i_out _ _ _ _ Hi) fd c g Hc Hg) as (w & Hw & Hs). eauto.
Qed.

Lemma conn_input x s es pend fd c :
  srv_inv x s es pend -> connections_ s !! fd = Some c ->
  exists g rx, conn_gen s !! fd = Some g /\ rx_of s !! fd = Some rx /\ conn_fed c /\
    (forall fd', conn_gen s !! fd' = Some g -> fd' = fd) /\ (g < next_gen s)%nat.
Proof.
  intros Hi Hc. destruct (proj2 (i_gen _ _ _ _ Hi fd)) as [g Hg]; [eauto|].
  destruct (n_live _ _ _ _ _ _ (i_in _ _ _ _ Hi) fd c g Hc Hg) as (Hf & rx & Hrx & _).
  exists g, rx. destruct (i_out _ _ _ _ Hi) as [O1 O2 _ _ _]. split_and!; eauto.
Qed.

(** Moving bytes between the connection's buffer and the socket. *)
Lemma conn_move_inv s es pend fd c c' w w' :
  srv_inv (Some fd) s es pend -> connections_ s !! fd = Some c -> wire_of s !! fd = Some w ->
  same_input c c' -> io_ok (io_ c') -> sent w' ++ pending (io_ c') = sent w ++ pending (io_ c) ->
  srv_inv (Some fd) (set_net (set_conns s (<[fd := c']> (connections_ s))) (rx_of s)
    (<[fd := w']> (wire_of s))) es pend.
Proof.
  intros Hi Hc Hw Hsame Hok Hs.
  pose proof (conn_update_inv (Some fd) s es pend fd c c' (rx_of s) (<[fd := w']> (wire_of s))
    (delivered s) (submitted s) Hi Hc (proj1 Hsame) Hok) as Hu. apply Hu; clear Hu.
  - by apply (out_move _ _ _ _ _ _ _ c w); [apply (i_out _ _ _ _ Hi)|..].
  - by apply (in_same _ _ _ _ _ _ _ c); [apply (i_in _ _ _ _ Hi)|..].
  - apply (i_log _ _ _ _ Hi).
  - intros Hci. by apply (i_iso _ _ _ _ Hi).
  - done.
Qed.

(** Reading from the socket, and logging the requests [rs] that were read. *)
Lemma conn_read_inv x s es pend fd c c' g rx rx' rs :
  srv_inv x s es pend -> connections_ s !! fd = Some c -> conn_gen s !! fd = Some g ->
  rx_of s !! fd = Some rx -> same_output c c' -> (io_ok (io_ c) -> io_ok (io_ c')) -> conn_fed c' ->
  (forall e, e ∈ rs -> e.1.1 = g /\ reads_as e.1.2 e.2) ->
  (forall more, read_buffer_ (io_ c) ++ rx_data (rx ++ more) =
     mjoin ((fun e => e.1.2) <$> rs) ++ read_buffer_ (io_ c') ++ rx_data (rx' ++ more)) ->
  srv_inv x (set_input (set_net (set_conns s (<[fd := c']> (connections_ s)))
    (<[fd := rx']> (rx_of s)) (wire_of s)) (arrivals s) (submitted s ++ rs)) es pend.
Proof.
  intros Hi Hc Hg Hrx [Hfd Hp] Hok Hf Hrs Hd.
  destruct (conn_wire _ _ _ _ fd c Hi Hc) as (g' & w & _ & Hw & _).
  destruct (conn_input _ _ _ _ fd c Hi Hc) as (g0 & _ & Hg0 & _ & _ & Hinj & Hlt).
  rewrite Hg in Hg0. injection Hg0 as <-.
  pose proof (conn_update_inv x s es pend fd c c' (<[fd := rx']> (rx_of s)) (wire_of s)
    (delivered s) (submitted s ++ rs) Hi Hc Hfd) as Hu. apply Hu; clear Hu.
  - apply Hok. by apply (i_conn _ _ _ _ Hi fd c).
  - rewrite <- (insert_id (wire_of s) fd w) by done.
    apply (out_move _ _ _ _ _ _ _ c w); [apply (i_out _ _ _ _ Hi)|done|done|]. by rewrite Hp.
  - by apply (in_update _ _ _ _ _ _ _ g c _ rx); [apply (i_in _ _ _ _ Hi)|..].
  - apply log_more, (i_log _ _ _ _ Hi).
  - intros Hci. by apply (i_iso _ _ _ _ Hi).
  - intros Hx. pose proof (i_watched _ _ _ _ Hi fd c Hx Hc) as Hwt. unfold watched in *.
    by rewrite conn_pending_iff, Hp, <- conn_pending_iff.
Qed.

Lemma flush_output_loop_ok fuel c w r c' w' :
  io_ok (io_ c) -> flush_output_loop fuel c w = (r, c', w') ->
  same_input c c' /\ io_ok (io_ c') /\ sent w' ++ pending (io_ c') = sent w ++ pending (io_ c) /\
  (r = FDrained -> conn_has_pending_write c' = false) /\
  (conn_has_pending_write c' = true -> conn_has_pending_write c = true).
Proof.
  revert c w. induction fuel as [|f IH]; intros c w Hok Hf; cbn [flush_output_loop] in Hf; [by simplify_eq|].
  destruct (conn_has_pending_write c) eqn:Epc; cbn [negb] in Hf; [|by simplify_eq; rewrite Epc].
  unfold conn_flush_to_socket in Hf. destruct (io_flush_to_socket (io_ c) w) as [[r1 io1] w1] eqn:E.
  destruct (flush_spec _ _ _ _ _ Hok E) as (Hok1 & Hfd & Hrb & Hs & _).
  destruct r1 as [e|n].
  - destruct (would_block e); simplify_eq; done.
  - destruct (0 <? n); [|by case_match; simplify_eq].
    destruct (IH (with_io c io1) w1 Hok1 Hf) as ((E1 & E2 & E3 & E4) & E5 & E6 & E7 & E8). simpl in *.
    unfold same_input. split_and!; try congruence; try done.
Qed.

Lemma set_poller_inv x s es pend p :
  srv_inv x s es pend -> poller_ok p ->
  (forall fd, is_Some (connections_ s !! fd) -> is_Some (interest p !! fd)) ->
  (forall fd, x <> Some fd -> is_Some (connections_ s !! fd) -> interest p !! fd = interest (poller_ s) !! fd) ->
  srv_inv x (set_poller s p) es pend.
Proof.
  intros [H1 H2 H3 H4 H5 H6 H7 H8 H9 H10 H11 H12 H13 HF HP HA H14] Hp Hin Heq. constructor; try done.
  - intros k c Hk. destruct (H3 k c Hk) as (? & ? & ? & ?). split_and!; try done; try lia.
    simpl. apply Hin. by eexists.
  - intros k c Hx Hk Hpc. destruct (H14 k c Hx Hk Hpc) as [? ?]. simpl. split; [|done].
    by rewrite Heq by eauto.
Qed.

(** Flushing: unless it fails, what is left is waited for, and was there before. *)
Lemma flush_client_inv s es pend fd :
  srv_inv (Some fd) s es pend ->
  let '(r, s') := flush_client_output s fd in
  srv_inv (Some fd) s' es pend /\ close_after_flush_ s' = close_after_flush_ s /\
  (is_Some (connections_ s' !! fd) <-> is_Some (connections_ s !! fd)) /\
  (r <> -1 -> forall c', connections_ s' !! fd = Some c' -> conn_has_pending_write c' = true ->
     interest (poller_ s') !! fd = Some (Z.lor kClientEvents EPOLLOUT) /\
     exists c, connections_ s !! fd = Some c /\ conn_has_pending_write c = true).
Proof.
  intros Hi. unfold flush_client_output. rewrite (live_conn_iff _ s es pend fd Hi).
  destruct (connections_ s !! fd) as [c|] eqn:Ec; [|by rewrite Ec].
  destruct (conn_wire _ _ _ _ fd c Hi Ec) as (g & w & _ & Hw & _). rewrite Hw. cbn [default].
  destruct (flush_output_loop _ c _) as [[r c'] w'] eqn:Ef.
  destruct (i_conn _ _ _ _ Hi fd c Ec) as (_ & _ & Hok & Hint).
  destruct (flush_output_loop_ok _ _ _ _ _ _ Hok Ef) as (Hsame & Hok' & Hs & Hdr & Hpc).
  pose proof (conn_move_inv s es pend fd c c' w w' Hi Ec Hw Hsame Hok' Hs) as Hi1.
  set (s1 := set_net _ _ _) in *.
  assert (forall ev, srv_inv (Some fd) (set_poller s1 (mk_poller (epoll_fd_ (poller_ s))
            (<[fd := ev]> (interest (poller_ s))))) es pend) as Hmod.
  { intros ev. apply set_poller_inv; [done|apply (i_poller _ _ _ _ Hi)| |].
    - intros k [ck Hk]. simpl. destruct (decide (k = fd)) as [->|]; [rewrite lookup_insert_eq; eauto|].
      rewrite lookup_insert_ne by done. by apply (i_conn _ _ _ _ Hi1 k ck Hk).
    - intros k Hk _. simpl. by rewrite lookup_insert_ne by congruence. }
  assert (connections_ s1 !! fd = Some c') as Hc1 by (simpl; by rewrite lookup_insert_eq).
  destruct r; change (poller_ s1) with (poller_ s);
    rewrite ?(poller_modify_ok _ _ _ (i_poller _ _ _ _ Hi) Hint); cbn [Z.eqb];
    (split_and!; [first [exact (Hmod _)|exact Hi1]|done|simpl; rewrite lookup_insert_eq; split; eauto|]);
    [| |done]; intros _ c0 Hc0 Hp0; simpl in Hc0, Hp0 |- *; rewrite lookup_insert_eq in Hc0;
    injection Hc0 as <-; rewrite lookup_insert_eq; [|eauto].
  by rewrite Hdr in Hp0.
Qed.

(** ** Results *)

Lemma nodup_keys_middle (l1 l2 : list (Z * nat)) x :
  NoDup (l1 ++ x :: l2).*1 -> NoDup (l1 ++ l2).*1 /\ forall g, (x.1, g) ∉ l1 ++ l2.
Proof.
  intros Hn. rewrite <- Permutation_middle in Hn. rewrite fmap_cons in Hn.
  apply NoDup_cons in Hn as [Hx Hn]. split; [done|]. intros g Hin. apply Hx.
  apply list_elem_of_fmap. by exists (x.1, g).
Qed.

Lemma works_cons s e pend :
  works s (e :: pend) =
    ((fun j => (j_client_fd j, j_gen j)) <$> jobs s) ++ (d_client_fd e, d_gen e) ::
    ((fun e => (d_client_fd e, d_gen e)) <$> pend ++ proxy_done_queue_ s).
Proof. done. Qed.

Lemma works_push s e pend k g : (k, g) ∈ works s pend -> (k, g) ∈ works s (e :: pend).
Proof.
  rewrite works_cons. unfold works. rewrite !elem_of_app, elem_of_cons. tauto.
Qed.

Lemma works_pop s e pend k : k ∈ (works s (e :: pend)).*1 -> k <> d_client_fd e -> k ∈ (works s pend).*1.
Proof.
  rewrite works_cons. unfold works. set (l1 := _ <$> jobs s). set (l2 := _ <$> pend ++ _).
  rewrite !fmap_app, fmap_cons, !elem_of_app, elem_of_cons. simpl. tauto.
Qed.

(** The first pending result leaves: its connection is no longer in flight. *)
Lemma pop_result_inv s es e pend c :
  srv_inv None s es (e :: pend) -> connections_ s !! d_client_fd e = Some c ->
  let s' := set_flags s (proxy_inflight_ s ∖ {[d_client_fd e]}) (close_after_flush_ s) in
  srv_inv None s' es pend /\ (closed_inflight s = false -> gen_of s (d_client_fd e) = d_gen e).
Proof.
  intros [H1 H2 H3 H4 H5 H6 H7 H8 H9 H10 H11 H12 H13 HF HP HA H14] Hc s'. split.
  - constructor; try done; simpl.
    + intros k [Hk _]%elem_of_difference. by apply H7.
    + intros Hci. destruct (H9 Hci) as (I1 & I2 & I3).
      rewrite works_cons in I2. destruct (nodup_keys_middle _ _ _ I2) as [N1 N2].
      split_and!; [done|done|]. intros k g Hk.
      assert (k <> d_client_fd e) as Hne by (intros ->; by apply (N2 g)).
      destruct (I3 k g) as [? ?].
      { by apply works_push. }
      split; [done|]. subst s'. simpl. apply elem_of_difference. split; [done|]. by apply not_elem_of_singleton.
    + intros k [Hk Hne%not_elem_of_singleton]%elem_of_difference. apply H10 in Hk.
      by apply (works_pop s e pend).
    + by apply log_pop in H13 as [? _].
  - intros Hci. destruct (H9 Hci) as (_ & _ & I3). unfold gen_of.
    destruct (I3 (d_client_fd e) (d_gen e)) as [-> _]; [|done].
    unfold works. simpl. rewrite elem_of_app. right. by left.
Qed.

Lemma queue_to_inv s es pend fd j c data :
  srv_inv None s es pend -> connections_ s !! fd = Some c ->
  (closed_inflight s = false -> gen_of s fd = j_gen j) -> reply_to j data ->
  asked (j :: jobs s ++ (d_job <$> pend ++ proxy_done_queue_ s) ++ (dl_for <$> delivered s))
    ⊆+ read_off (submitted s) ->
  srv_inv (Some fd) (queue_to s fd j c data) es pend.
Proof.
  intros Hi Hc Hg Hreply Hspare. destruct (i_conn _ _ _ _ Hi fd c Hc) as (_ & _ & Hok & _).
  destruct (queue_write_pending (io_ c) data Hok) as [Hok' Hp].
  destruct (conn_wire _ _ _ _ fd c Hi Hc) as (h & w & Hh & Hw & Hs).
  pose proof (conn_update_inv (Some fd) s es pend fd c (conn_queue_write c data) (rx_of s) (wire_of s)
    (delivered s ++ [mk_delivery (gen_of s fd) j data]) (submitted s) (srv_inv_weaken _ _ _ _ Hi) Hc ltac:(by destruct data) Hok')
    as Hu. apply Hu; clear Hu.
  - unfold gen_of. rewrite Hh. rewrite <- (insert_id (wire_of s) fd w) by done.
    apply out_update; [apply (i_out _ _ _ _ Hi)|done|]. simpl. by rewrite Hp, assoc_L, Hs by apply _.
  - apply (in_same _ _ _ _ _ _ _ c); [apply (i_in _ _ _ _ Hi)|done|by destruct data].
  - destruct (i_log _ _ _ _ Hi) as [_ L2 L3]. constructor; [|done|].
    + rewrite (fmap_app dl_for). change (dl_for <$> [_]) with [j].
      rewrite !(assoc_L (++)), (comm (++) _ [_]). by rewrite !(assoc_L (++)) in Hspare.
    + by intros e [He%L3| ->%list_elem_of_singleton]%elem_of_app.
  - intros Hci. apply Forall_app. split; [by apply (i_iso _ _ _ _ Hi)|]. by constructor; [apply Hg|].
  - done.
Qed.

Lemma close_when_flushed_inv s t pend fd :
  srv_inv (Some fd) s (entries_ t) pend -> timer_ok t ->
  (is_Some (entries_ t !! fd) <-> is_Some (connections_ s !! fd)) ->
  (forall c, connections_ s !! fd = Some c -> conn_has_pending_write c = true ->
     interest (poller_ s) !! fd = Some (Z.lor kClientEvents EPOLLOUT)) ->
  let '(s', t') := close_when_flushed s t fd in
  srv_inv None s' (entries_ t') pend /\ timer_ok t'.
Proof.
  intros Hi Ht Het Hint. unfold close_when_flushed. destruct (connections_ s !! fd) as [c|] eqn:Ec.
  2:{ split; [|done]. apply (srv_inv_restore fd); [done|by rewrite Ec|]. intros c. by rewrite Ec. }
  destruct (conn_has_pending_write c) eqn:Ep; [|by apply (close_inv (Some fd)); [done|by right|done]].
  split; [|done]. destruct (i_conn _ _ _ _ Hi fd c Ec) as ((_ & Hlt) & _).
  rewrite (i_size _ _ _ _ Hi), (proj2 (Z.ltb_lt _ _) Hlt).
  apply (srv_inv_restore fd); [|by simpl; rewrite Ec|].
  - destruct Hi as [H1 H2 H3 H4 H5 H6 H7 H8 H9 H10 H11 H12 H13 HF HP HA H14]. constructor; try done; simpl.
    + intros k [Hk| ->%elem_of_singleton]%elem_of_union; [by apply H8|eauto].
    + intros k ck Hx Hk Hp. destruct (H14 k ck Hx Hk Hp). split; [done|]. simpl. by apply elem_of_union; left.
  - intros c0 Hc0 Hp. split; [by apply (Hint c0); [simpl in Hc0; congruence|]|].
    simpl. apply elem_of_union. right. by apply elem_of_singleton.
Qed.

Lemma handle_done_inv s t e pend :
  srv_inv None s (entries_ t) (e :: pend) -> timer_ok t ->
  let '(s', t') := handle_done_event strerror (s, t) e in
  srv_inv None s' (entries_ t') pend /\ timer_ok t'.
Proof.
  intros Hi Ht. unfold handle_done_event. rewrite (live_conn_iff _ _ _ _ _ Hi).
  destruct (connections_ s !! d_client_fd e) as [c|] eqn:Ec.
  2:{ split; [|done]. destruct Hi as [H1 H2 H3 H4 H5 H6 H7 H8 H9 H10 H11 H12 H13 HF HP HA H14]. constructor; try done.
      3:{ by apply log_pop in H13 as [? _]. }
      2:{ intros k Hk. pose proof (H7 k Hk) as Hc. apply H10 in Hk.
          assert (k <> d_client_fd e) by (intros ->; rewrite Ec in Hc; by destruct Hc).
          by apply (works_pop s e pend). }
      intros Hci. destruct (H9 Hci) as (_ & _ & I3). exfalso.
      destruct (I3 (d_client_fd e) (d_gen e)) as [_ Hin]; [unfold works; simpl; set_solver|].
      apply H7 in Hin. rewrite Ec in Hin. by destruct Hin. }
  destruct (i_conn _ _ _ _ Hi _ c Ec) as ((_ & Hlt) & _).
  rewrite (i_size _ _ _ _ Hi), (proj2 (Z.ltb_lt _ _) Hlt).
  destruct (pop_result_inv s _ e pend c Hi Ec) as [Hi1 Hg]. set (s1 := set_flags _ _ _) in *.
  destruct (l_done _ _ _ _ (i_log _ _ _ _ Hi) e ltac:(left)) as [Hclose Hans].
  destruct (log_pop _ _ _ _ _ (i_log _ _ _ _ Hi)) as [_ Hspare].
  set (fd := d_client_fd e) in *.
  (* writing the answer: closed, or closed when flushed *)
  assert (forall data, reply_to (d_job e) data ->
    let '(r, s3) := flush_client_output (queue_to s1 fd (d_job e) c data) fd in
    let '(s', t') := if r =? -1 then close_client s3 t fd else close_when_flushed s3 t fd in
    srv_inv None s' (entries_ t') pend /\ timer_ok t') as Hwrite.
  { intros data Hreply. pose proof (queue_to_inv s1 _ pend fd (d_job e) c data Hi1 Ec Hg Hreply Hspare) as Hi2.
    pose proof (flush_client_inv _ _ _ fd Hi2) as Hf.
    destruct (flush_client_output _ fd) as [r s3]. destruct Hf as (Hi3 & _ & Hdom & Hint).
    destruct (r =? -1) eqn:Er; hp_bool; [by apply (close_inv (Some fd)); [done|by right|done]|].
    apply close_when_flushed_inv; [done|done| |].
    - rewrite Hdom, (i_timer _ _ _ _ Hi1 fd) by done. simpl. rewrite lookup_insert_eq. split; eauto.
    - intros c3 Hc3 Hp3. by apply (Hint Er c3). }
  destruct (d_ok e); cbn [negb].
  - specialize (Hwrite (d_response e) ltac:(left; auto)). destruct (flush_client_output _ fd) as [r s3].
    by rewrite Hclose.
  - destruct (d_is_connect e && _); [by apply (close_inv None); [done|by left|done]|].
    specialize (Hwrite (build_service_unavailable_response (strerror (d_err e))) ltac:(right; eauto)).
    by destruct (flush_client_output _ fd) as [r s3].
Qed.

(** The queued results become pending. *)
Lemma unqueue_inv s es :
  srv_inv None s es [] -> srv_inv None (set_work s [] (jobs s)) es (proxy_done_queue_ s).
Proof.
  intros [H1 H2 H3 H4 H5 H6 H7 H8 H9 H10 H11 H12 H13 HF HP HA H14]. constructor; try done; simpl;
    [intros Hci; destruct (H9 Hci) as (I1 & I2 & I3)|..];
    unfold isolated, works in *; simpl in *; by rewrite app_nil_r.
Qed.

Lemma drain_inv s t :
  srv_inv None s (entries_ t) [] -> timer_ok t ->
  let '(s', t') := drain_proxy_done_events strerror s t in
  srv_inv None s' (entries_ t') [] /\ timer_ok t'.
Proof.
  intros Hi Ht. unfold drain_proxy_done_events. pose proof (unqueue_inv _ _ Hi) as Hi0.
  clear Hi. revert Hi0 Ht. generalize (set_work s [] (jobs s)) as s0. intros s0. revert s0 t.
  induction (proxy_done_queue_ s) as [|e q IH]; intros s0 t Hi Ht; [done|]. cbn [foldl].
  pose proof (handle_done_inv s0 t e q Hi Ht) as Hh. destruct (handle_done_event strerror (s0, t) e) as [s1 t1].
  destruct Hh. by apply IH.
Qed.

(** ** Requests *)

Lemma read_loop_more fuel buf total rx r buf' rx' :
  read_loop fuel buf total rx = (r, buf', rx') ->
  exists d, buf' = buf ++ d /\ forall more, rx_data (rx ++ more) = d ++ rx_data (rx' ++ more).
Proof.
  revert buf total rx. induction fuel as [|f IH]; intros buf total rx E; cbn [read_loop] in E.
  { simplify_eq. exists []. by rewrite app_nil_r. }
  pose proof (fun more => recv_rx_more kReadChunkSize rx more) as Hr.
  destruct (recv kReadChunkSize rx) as [[b| |e] rx1].
  - apply IH in E as (d & -> & Hd). exists (b ++ d). split; [by rewrite (assoc_L (++))|].
    intros more. by rewrite Hr, Hd, (assoc_L (++)).
  - simplify_eq. exists []. by rewrite app_nil_r.
  - exists []. destruct (would_block e); simplify_eq; by rewrite app_nil_r.
Qed.

(** Reading fills the buffer from the socket. *)
Lemma conn_read_spec c rx r c' rx' :
  conn_read_from_socket c rx = (r, c', rx') -> conn_fed c ->
  same_output c c' /\ (io_ok (io_ c) -> io_ok (io_ c')) /\ conn_fed c' /\
  forall more, read_buffer_ (io_ c) ++ rx_data (rx ++ more) =
    read_buffer_ (io_ c') ++ rx_data (rx' ++ more).
Proof.
  unfold conn_read_from_socket, io_read_from_socket. intros E [Ho Hf].
  destruct (negb _); [by simplify_eq; destruct c|].
  destruct (read_loop _ _ _ _) as [[r1 buf] rx1] eqn:El.
  apply read_loop_more in El as (d & -> & Hd). simplify_eq. unfold conn_fed. simpl.
  rewrite length_app, take_app_le by done. split_and!; try done; [lia|].
  intros more. by rewrite Hd, (assoc_L (++)).
Qed.

Lemma parse_all_snoc q chunks d p :
  parse_all q chunks = (true, p) -> parse_all q (chunks ++ [d]) = parse p d.
Proof.
  revert q. induction chunks as [|d' chunks IH]; intros q E; simpl in *.
  - simplify_eq. by destruct (parse p d) as [[] ?].
  - destruct (parse q d') as [[] q1]; [by apply IH|done].
Qed.

Lemma parse_fails p data p' : parse p data = (false, p') -> has_parse_error p' = true.
Proof.
  unfold parse, has_parse_error. destruct (bool_decide (parse_state_ p = kParseError)) eqn:E; simpl.
  - by intros [= <-].
  - destruct (bool_decide (data = [])); [done|]. destruct (llhttp_execute _ _) as [[evs err] q].
    destruct (err =? HPE_OK); [done|]. destruct (err =? HPE_PAUSED_UPGRADE); [done|]. by intros [= <-].
Qed.

(** Parsing hands the rest of the buffer to the parser. *)
Lemma conn_parse_spec c ok c' :
  parse_available_data c = (ok, c') -> conn_fed c ->
  io_ c' = io_ c /\ conn_fed c' /\
  (ok = true -> parse_offset_ c' = length (read_buffer_ (io_ c)) /\
                parsed_to (read_buffer_ (io_ c)) (conn_parser_ c')).
Proof.
  unfold parse_available_data. intros E [Ho Hf].
  destruct (has_parse_error (conn_parser_ c)) eqn:He; simpl in E.
  { simplify_eq. unfold conn_fed. rewrite He. by split_and!. }
  destruct (Hf eq_refl) as (q & chunks & Hq & Hch & Hp).
  destruct (length _ <=? _)%nat eqn:El; hp_bool.
  { simplify_eq. rewrite take_ge in Hch by done. split_and!; [done|split; [done|by auto]|].
    intros _. split; [lia|]. by exists q, chunks. }
  destruct (parse _ _) as [[] p] eqn:Epar; simpl in E; simplify_eq; simpl.
  - assert (parsed_to (read_buffer_ (io_ c)) p) as Hall.
    { exists q, (chunks ++ [drop (parse_offset_ c) (read_buffer_ (io_ c))]). split_and!; [done| |].
      - by rewrite join_app, Hch; simpl; rewrite app_nil_r, take_drop.
      - by rewrite (parse_all_snoc _ _ _ _ Hp). }
    split_and!; [done| |done]. split; [done|]. simpl. by rewrite firstn_all.
  - apply parse_fails in Epar. unfold conn_fed. simpl. rewrite Epar. by split_and!.
Qed.

(** A request that was read leaves an empty buffer and a parser that is ready. *)
Lemma conn_reset_spec c :
  parse_offset_ c = length (read_buffer_ (io_ c)) ->
  let c' := conn_reset_for_next_message c in
  same_output c c' /\ (io_ok (io_ c) -> io_ok (io_ c')) /\ conn_fed c' /\ read_buffer_ (io_ c') = [].
Proof.
  intros Ho. unfold conn_reset_for_next_message, io_consume_read_bytes, same_output, conn_fed. simpl.
  assert (parsed_to [] (reset_for_next_message (conn_parser_ c))) as Hr
    by (exists (reset_for_next_message (conn_parser_ c)), []; unfold parser_ready; eauto 10).
  rewrite Ho. destruct (0 <? _)%nat eqn:E1; hp_bool.
  - rewrite (proj2 (Nat.eqb_neq _ _)) by lia. rewrite (proj2 (Nat.leb_le _ _)) by lia. simpl.
    by split_and!.
  - assert (read_buffer_ (io_ c) = []) as -> by (apply nil_length_inv; lia). by split_and!.
Qed.

(** A connection that was not in flight gets its one job, accepted or refused. *)
Lemma submit_inv s es fd req acc :
  srv_inv None s es [] -> is_Some (connections_ s !! fd) -> fd ∉ proxy_inflight_ s ->
  asked (mk_job fd req (gen_of s fd) :: jobs s ++ (d_job <$> proxy_done_queue_ s) ++ (dl_for <$> delivered s))
    ⊆+ read_off (submitted s) ->
  srv_inv None (submit_proxy_job (set_flags s (proxy_inflight_ s ∪ {[fd]}) (close_after_flush_ s))
    fd req acc).2 es [].
Proof.
  intros Hi Hc Hni Hspare. destruct Hi as [H1 H2 H3 H4 H5 H6 H7 H8 H9 H10 H11 H12 H13 HF HP HA H14].
  destruct (proj2 (H6 fd) Hc) as [g Hg].
  assert (closed_inflight s = false -> forall w, w ≡ₚ (fd, g) :: works s [] ->
    NoDup w.*1 /\ (forall k h, (k, h) ∈ w ->
      conn_gen s !! k = Some h /\ k ∈ proxy_inflight_ s ∪ {[fd]})) as Hw.
  { intros Hci w Hp. destruct (H9 Hci) as (_ & I2 & I3). rewrite Hp. simpl. split.
    - apply NoDup_cons. split; [|done]. intros ([k h] & Hk & Hin)%list_elem_of_fmap.
      simpl in Hk. subst k. by apply I3 in Hin as [_ ?].
    - intros k h. rewrite Hp. intros [[= -> ->]|Hin]%elem_of_cons; [set_solver|].
      apply I3 in Hin as [? ?]. set_solver. }
  assert (forall w, w ≡ₚ (fd, g) :: works s [] -> forall k, k ∈ proxy_inflight_ s ∪ {[fd]} -> k ∈ w.*1) as Hk.
  { intros w Hp k Hk. rewrite Hp. apply elem_of_union in Hk as [Hk| ->%elem_of_singleton];
      simpl; [right; by apply H10|left]. }
  unfold submit_proxy_job, gen_of in *. cbn [conn_gen set_flags]. rewrite Hg in *. cbn [default] in *.
  set (s' := (if acc then _ else _).2).
  assert (works s' [] ≡ₚ (fd, g) :: works s []) as Hp.
  { unfold s', works. destruct acc; simpl; rewrite !fmap_app; simpl.
    - rewrite <- (assoc_L (++)). simpl. by rewrite <- Permutation_middle.
    - by rewrite (assoc_L (++)), (comm (++) _ [_]). }
  assert (log_ok (jobs s') ([] ++ proxy_done_queue_ s') (delivered s') (submitted s')) as Hlog.
  { destruct H13 as [_ L2 L3]. unfold s'. destruct acc; (constructor; simpl; [|..|done]); try done.
    - rewrite <- (assoc_L (++)). simpl. by rewrite <- Permutation_middle.
    - rewrite fmap_app, <- (assoc_L (++)). simpl. by rewrite <- !Permutation_middle.
    - intros e [He| ->%list_elem_of_singleton]%elem_of_app; [by apply L2|done]. }
  destruct acc; (constructor; try done; simpl;
    [intros k [Hkk| ->%elem_of_singleton]%elem_of_union; [by apply H7|done]|..|exact (Hk _ Hp)]);
    intros Hci; destruct (H9 Hci) as (I1 & _); split; [done|exact (Hw Hci _ Hp)|done|exact (Hw Hci _ Hp)].
Qed.

Lemma handle_client_inv s es fd acc :
  srv_inv None s es [] -> srv_inv None (handle_client s fd acc).2 es [].
Proof.
  intros Hi. unfold handle_client. rewrite (live_conn_iff _ _ _ _ _ Hi).
  destruct (connections_ s !! fd) as [c|] eqn:Ec; [|done].
  destruct (i_conn _ _ _ _ Hi fd c Ec) as ((_ & Hlt) & _ & Hok & _).
  rewrite (i_size _ _ _ _ Hi), (proj2 (Z.ltb_lt _ _) Hlt). cbn [andb].
  destruct (bool_decide _) eqn:Ein; [done|]. apply bool_decide_eq_false in Ein.
  destruct (conn_input _ _ _ _ fd c Hi Ec) as (g & rx & Hg & Hrx & Hfed & _). rewrite Hrx.
  change (default [] (Some rx)) with rx.
  destruct (conn_read_from_socket c rx) as [[r c1] rx1] eqn:Er.
  destruct (conn_read_spec _ _ _ _ _ Er Hfed) as (So1 & Ok1 & Hfed1 & Hd1).
  (* reading, parsing and the reset, as one change of the connection *)
  assert (forall c3 rs, same_output c1 c3 -> (io_ok (io_ c1) -> io_ok (io_ c3)) -> conn_fed c3 ->
    (forall e, e ∈ rs -> e.1.1 = g /\ reads_as e.1.2 e.2) ->
    read_buffer_ (io_ c1) = mjoin ((fun e => e.1.2) <$> rs) ++ read_buffer_ (io_ c3) ->
    srv_inv None (set_input (set_net (set_conns s (<[fd := c3]> (connections_ s)))
      (<[fd := rx1]> (rx_of s)) (wire_of s)) (arrivals s) (submitted s ++ rs)) es []) as Hup.
  { intros c3 rs [? ?] ? ? ? Hb. destruct So1 as [? ?].
    apply (conn_read_inv None s es [] fd c c3 g rx rx1 rs); try done; [split; congruence|auto|].
    intros more. rewrite Hd1, Hb. by rewrite <- (assoc_L (++)). }
  assert (forall c3, same_output c1 c3 -> (io_ok (io_ c1) -> io_ok (io_ c3)) -> conn_fed c3 ->
    read_buffer_ (io_ c3) = read_buffer_ (io_ c1) ->
    srv_inv None (set_net (set_conns s (<[fd := c3]> (connections_ s)))
      (<[fd := rx1]> (rx_of s)) (wire_of s)) es []) as Hquiet.
  { intros c3 ? ? ? Hb. specialize (Hup c3 []). rewrite app_nil_r in Hup.
    apply Hup; try done; [by intros e ?%elem_of_nil]. }
  destruct r as [e|n]; [exact (Hquiet c1 (conj eq_refl eq_refl) id Hfed1 eq_refl)|].
  destruct (parse_available_data c1) as [ok c2] eqn:Ep.
  destruct (conn_parse_spec _ _ _ Ep Hfed1) as (Hio & Hfed2 & Hall). cbn [connections_ set_conns set_net].
  cbn zeta.
  rewrite !insert_insert_eq.
  assert (same_output c1 c2) as So2 by (unfold same_output; by rewrite Hio).
  assert (io_ok (io_ c1) -> io_ok (io_ c2)) as Ok2 by (by rewrite Hio).
  pose proof (Hquiet c2 So2 Ok2 Hfed2 ltac:(by rewrite Hio)) as Hq2.
  destruct ok; simpl; [|exact Hq2].
  destruct (is_message_complete _) eqn:Ecomp; simpl; [|exact Hq2].
  destruct (Hall eq_refl) as [Hoff Hparsed]. rewrite <- Hio in Hoff.
  destruct (conn_reset_spec c2 Hoff) as ([R1 R2] & R3 & R4 & R5).
  assert (gen_of s fd = g) as Hgen by (unfold gen_of; by rewrite Hg).
  apply (submit_inv (log_request (set_conns (set_net s _ _) _) fd _ _));
    [|simpl; rewrite lookup_insert_eq; eauto|done|].
  - unfold log_request. simpl. change (gen_of _ fd) with (gen_of s fd). rewrite Hgen.
    refine (Hup (conn_reset_for_next_message c2) [(g, read_buffer_ (io_ c2), request_ (conn_parser_ c2))] _ _ _ _ _).
    + split; [by rewrite R1, Hio|by rewrite R2, Hio].
    + rewrite Hio in R3. done.
    + done.
    + intros e ->%list_elem_of_singleton. split; [done|]. rewrite Hio. by exists (conn_parser_ c2).
    + rewrite R5. simpl. by rewrite !app_nil_r, Hio.
  - simpl. change (gen_of _ fd) with (gen_of s fd). rewrite Hgen. exact (log_spare _ ([] ++ _) _ _ _ _ _ fd (i_log _ _ _ _ Hi)).
Qed.

(** ** Events *)

(** The kernel adds or refuses: what is registered stays registered. *)
Lemma poller_add_inv s es pend fd ev :
  srv_inv None s es pend ->
  let '(ret, p) := poller_add (poller_ s) fd ev in
  srv_inv None (set_poller s p) es pend /\ (ret = 0 -> is_Some (interest p !! fd)) /\ poller_ok p.
Proof.
  intros Hi. pose proof (i_poller _ _ _ _ Hi) as Hp.
  unfold poller_add, control, epoll_ctl. rewrite (proj2 (Z.eqb_neq _ _)) by exact Hp.
  destruct (interest (poller_ s) !! fd) as [e|] eqn:E.
  - split_and!; [|done|done]. apply set_poller_inv; [done|done| |done]. intros k [c Hk].
    by apply (i_conn _ _ _ _ Hi k c).
  - split_and!; [|simpl; rewrite lookup_insert_eq; eauto|done].
    apply set_poller_inv; [done|done| |]; simpl.
    + intros k [c Hk]. destruct (decide (k = fd)) as [->|]; [rewrite lookup_insert_eq; eauto|].
      rewrite lookup_insert_ne by done. by apply (i_conn _ _ _ _ Hi k c).
    + intros k _ [c Hk]. apply lookup_insert_ne. intros ->.
      destruct (i_conn _ _ _ _ Hi k c Hk) as (_ & _ & _ & [? ?]). congruence.
Qed.

(** A fresh connection on a registered descriptor; its timer is still to come. *)
Lemma new_conn_inv s es pend fd ip tx :
  srv_inv None s es pend -> connections_ s !! fd = None -> is_Some (interest (poller_ s) !! fd) ->
  0 <= fd < MAX_FD -> is_blocked (ip_filter_ s) ip = false ->
  let s0 := set_net (set_conns s (<[fd := conn_new fd]> (connections_ s))) (<[fd := []]> (rx_of s))
              (<[fd := mk_wire tx []]> (wire_of s)) in
  let s1 := set_peers s0 (peers s0 ++ [(next_gen s0, ip)]) in
  srv_inv (Some fd) (set_ghost s1 (<[fd := next_gen s1]> (conn_gen s1)) (S (next_gen s1))
    (delivered s1) (closed_inflight s1)) es pend.
Proof.
  intros [H1 H2 H3 H4 H5 H6 H7 H8 H9 H10 H11 H12 H13 HF HP HA H14] Hn Hint Hfd Hb. simpl.
  assert (forall k, is_Some (connections_ s !! k) -> is_Some (<[fd := conn_new fd]> (connections_ s) !! k)) as Hmono.
  { intros k Hk. destruct (decide (k = fd)) as [->|]; [rewrite lookup_insert_eq; eauto|by rewrite lookup_insert_ne]. }
  constructor; simpl; try done.
  - intros k c [[<- <-]|[_ Hk]]%lookup_insert_Some; [|by apply H3].
    split_and!; try done; [lia|lia|apply Nat.le_refl].
  - intros k Hk. rewrite lookup_insert_ne by naive_solver. by apply H4.
  - intros k. destruct (decide (k = fd)) as [->|].
    + rewrite !lookup_insert_eq. split; eauto.
    + rewrite !lookup_insert_ne by done. apply H6.
  - auto.
  - auto.
  - intros Hci. destruct (H9 Hci) as (I1 & I2 & I3). split_and!; [done|done|].
    intros k g Hk. destruct (I3 k g Hk) as [Hg Hin]. split; [|done]. simpl.
    rewrite lookup_insert_ne; [done|]. intros <-. apply H7 in Hin. rewrite Hn in Hin. by destruct Hin.
  - by apply out_open.
  - apply in_open; [done| |done]. split; [done|]. intros _. exists parser_new, []. by split_and!; [left|..].
  - intros k g [[<- <-]|[_ Hk]]%lookup_insert_Some; [exists ip|destruct (HP k g Hk) as [a Ha]; exists a];
      apply elem_of_app; [right; by apply list_elem_of_singleton|by left].
  - intros g a [Ha|[= -> ->]%list_elem_of_singleton]%elem_of_app; [by apply (HA g)|by rewrite <- HF].
  - intros k c Hx [[<- <-]|[_ Hk]]%lookup_insert_Some; [done|by apply H14].
Qed.

Lemma accept_loop_inv s t accepts pend :
  srv_inv None s (entries_ t) pend -> timer_ok t ->
  let '(s', t') := accept_loop s t accepts in
  srv_inv None s' (entries_ t') pend /\ timer_ok t'.
Proof.
  revert s t. induction accepts as [|[fd ip g1 g2 tx|e] rest IH]; intros s t Hi Ht; [done| |].
  2:{ simpl. destruct (e =? EINTR); [by apply IH|done]. }
  cbn [accept_loop]. destruct (bool_decide _) eqn:Eo; [done|]. apply bool_decide_eq_false in Eo.
  apply eq_None_not_Some in Eo. destruct (is_blocked _ _) eqn:Eblk; [by apply IH|].
  assert (set_poller s (poller_ s) = s) as Hid by (by destruct s).
  destruct (set_nonblocking g1 g2); [|simpl; rewrite Hid; by apply IH].
  pose proof (poller_add_inv s _ _ fd kClientEvents Hi) as Ha.
  destruct (poller_add (poller_ s) fd kClientEvents) as [ret p]. destruct Ha as (Hi1 & Hint & Hp).
  destruct (ret =? 0) eqn:Er; cbn [negb]; [|by apply IH]. hp_bool.
  destruct ((fd <? 0) || (MAX_FD <=? fd)) eqn:Eb.
  - destruct (poller_remove_interest p fd Hp) as [P1 P2].
    apply IH; [|done]. apply (set_poller_inv None (set_poller s p)); [done|done| |].
    + intros k [c Hk]. rewrite P2. simpl in Hk. rewrite lookup_delete_ne by congruence.
      by apply (i_conn _ _ _ _ Hi1 k c).
    + intros k _ [c Hk]. rewrite P2. simpl in Hk. by rewrite lookup_delete_ne by congruence.
  - apply orb_false_iff in Eb as [Eb1 Eb2]. hp_bool.
    pose proof (new_conn_inv (set_poller s p) _ _ fd ip tx
      Hi1 Eo (Hint Er) ltac:(lia) Eblk) as Hi2. cbn zeta in Hi2 |- *.
    set (s2 := set_ghost _ _ _ _ _) in *.
    pose proof (refresh_inv (Some fd) s2 t fd pend Hi2) as Hr.
    destruct (refresh_client_timeout s2 t fd) as [s3 t3]. destruct Hr as (Hi3 & Ht3 & _); [|done|by apply IH].
    right. split; [done|]. exists (conn_new fd). simpl. by rewrite lookup_insert_eq.
Qed.

Lemma on_client_event_inv s t fd ev acc :
  srv_inv None s (entries_ t) [] -> timer_ok t ->
  let '(s', t') := on_client_event s t fd ev acc in
  srv_inv None s' (entries_ t') [] /\ timer_ok t'.
Proof.
  intros Hi Ht. unfold on_client_event.
  destruct (has_event ev _); [by apply (close_inv None); [done|by left|done]|].
  assert (let '(s1, t1) := if has_event ev (Z.lor EPOLLIN EPOLLOUT)
                           then refresh_client_timeout s t fd else (s, t) in
          srv_inv None s1 (entries_ t1) [] /\ timer_ok t1) as H1.
  { destruct (has_event _ _); [|done].
    pose proof (refresh_inv None s t fd [] Hi (or_introl eq_refl) Ht) as Hr.
    destruct (refresh_client_timeout s t fd). naive_solver. }
  destruct (if has_event ev _ then _ else _) as [s1 t1]. destruct H1 as [Hi1 Ht1]. cbn zeta.
  assert (forall s2, srv_inv None s2 (entries_ t1) [] ->
    let '(s', t') := if has_event ev EPOLLIN
      then let '(r, s) := handle_client s2 fd acc in if r =? -1 then close_client s t1 fd else (s, t1)
      else (s2, t1) in srv_inv None s' (entries_ t') [] /\ timer_ok t') as Hin.
  { intros s2 Hi2. destruct (has_event ev EPOLLIN); [|done].
    pose proof (handle_client_inv s2 _ fd acc Hi2) as Hh. destruct (handle_client s2 fd acc) as [r s3].
    destruct (r =? -1); [by apply (close_inv None); [done|by left|done]|done]. }
  destruct (has_event ev EPOLLOUT); [|by apply Hin].
  pose proof (flush_client_inv s1 _ [] fd (srv_inv_weaken _ _ _ _ Hi1)) as Hf.
  destruct (flush_client_output s1 fd) as [r s2]. destruct Hf as (Hi2 & Hcaf & Hdom & Hint).
  destruct (r =? -1) eqn:Er; hp_bool; [by apply (close_inv (Some fd)); [done|by right|done]|].
  assert (srv_inv None s2 (entries_ t1) []) as Hi2'.
  { apply (srv_inv_restore fd); [done|by rewrite Hdom; apply (i_timer _ _ _ _ Hi1)|].
    intros c2 Hc2 Hp2. destruct (Hint Er c2 Hc2 Hp2) as (? & c1 & Hc1 & Hp1). split; [done|].
    rewrite Hcaf. by apply (i_watched _ _ _ _ Hi1 fd c1). }
  destruct (connections_ s2 !! fd); [|by apply Hin].
  destruct (_ && _); [by apply (close_inv None); [done|by left|done]|by apply Hin].
Qed.

(** Data arrives at the socket of a connection. *)
Lemma arrival_inv s es pend fd arrived :
  srv_inv None s es pend ->
  srv_inv None (match rx_of s !! fd with
                | Some rx => log_arrival (set_net s (<[fd := rx ++ arrived]> (rx_of s)) (wire_of s)) fd arrived
                | None => s
                end) es pend.
Proof.
  intros Hi. destruct (rx_of s !! fd) as [rx|] eqn:Hrx; [|done]. unfold log_arrival. simpl.
  pose proof (i_in _ _ _ _ Hi) as Hin. destruct (conn_gen s !! fd) as [g|] eqn:Hg.
  - destruct (proj1 (i_gen _ _ _ _ Hi fd) ltac:(eauto)) as [c Hc].
    destruct (conn_input _ _ _ _ fd c Hi Hc) as (g' & rx' & Hg' & Hrx' & _ & Hinj & Hlt).
    rewrite Hg in Hg'. injection Hg' as <-.
    destruct Hi. constructor; try done. by apply (in_arrive _ _ _ _ _ _ fd g rx arrived).
  - destruct Hin as [N1 N2 N3 N4 N5]. destruct Hi. constructor; try done. constructor; try done.
    intros k ck h Hk Hh. simpl in *. rewrite lookup_insert_ne by congruence. by apply N3.
Qed.

Lemma handle_events_inv s t evs :
  srv_inv None s (entries_ t) [] -> timer_ok t ->
  let '(s', t') := foldl (handle_event strerror) (s, t) evs in
  srv_inv None s' (entries_ t') [] /\ timer_ok t'.
Proof.
  revert s t. induction evs as [|e evs IH]; intros s t Hi Ht; [done|]. cbn [foldl].
  assert (let '(s', t') := handle_event strerror (s, t) e in
    srv_inv None s' (entries_ t') [] /\ timer_ok t') as He.
  { destruct e as [accepts| |fd ev arrived acc]; simpl.
    - by apply accept_loop_inv.
    - by apply drain_inv.
    - apply on_client_event_inv; [|done]. by apply arrival_inv. }
  destruct (handle_event strerror (s, t) e) as [s1 t1]. destruct He. by apply IH.
Qed.

(** ** Ticks and turns *)

Lemma on_idle_own fd : own_timer_only srv_now on_idle fd fd.
Proof.
  intros s t s' t' E. unfold on_idle in E. destruct (live_conn s fd); [|by simplify_eq; split_and!].
  assert (t' = Timer.remove t fd /\ (srv_now s').1 = (srv_now s).1) as [-> ->].
  { unfold close_client, srv_now in *. destruct (_ && _); injection E as <- <-; (split; [done|simpl; by destruct (clock_steps s)]). }
  split_and!; [apply remove_ok| |apply remove_ok|lia].
  intros Hn. unfold Timer.remove. rewrite maybe_compact_entries. by apply delete_id.
Qed.

Lemma inv_callbacks x s t pend :
  srv_inv x s (entries_ t) pend -> callbacks_own_only srv_now on_idle t.
Proof.
  intros Hi fd e cb He Hcb. rewrite (i_cb _ _ _ _ Hi fd e He) in Hcb. simplify_eq. apply on_idle_own.
Qed.

(** The fired timer's entry is gone; its callback closes the connection. *)
Lemma fire_inv s t fd e q :
  srv_inv None s (entries_ t) [] -> entries_ t !! fd = Some e ->
  let t2 := mk_timer q (delete fd (entries_ t)) in
  let '(s', t') := match e_callback e with Some cb => on_idle cb s t2 | None => (s, t2) end in
  srv_inv None s' (entries_ t') [].
Proof.
  intros Hi He t2. rewrite (i_cb _ _ _ _ Hi fd e He).
  assert (srv_inv (Some fd) s (entries_ t2) []) as Hi2.
  { destruct Hi as [H1 H2 H3 H4 H5 H6 H7 H8 H9 H10 H11 H12 H13 HF HP HA H14]. constructor; try done; simpl.
    - intros k Hk. rewrite lookup_delete_ne by naive_solver. by apply H4.
    - intros k e' [_ Hk]%lookup_delete_Some. by apply H5.
    - intros k c _. by apply H14. }
  assert (is_Some (connections_ s !! fd)) as [c Hc].
  { apply (i_timer _ _ _ _ Hi fd); [done|eauto]. }
  unfold on_idle. rewrite (live_conn_iff _ _ _ _ _ Hi), Hc.
  assert (entries_ t2 = entries_ (mk_timer (rebuild (entries_ t2)) (entries_ t2))) as Hrb by done.
  pose proof (close_inv (Some fd) s (mk_timer (rebuild (entries_ t2)) (entries_ t2)) fd []
    Hi2 (or_intror eq_refl)) as Hcl.
  assert (forall t3, close_client s t3 fd = ((close_client s t3 fd).1, Timer.remove t3 fd)) as Heq.
  { intros t3. unfold close_client. by destruct (_ && _). }
  rewrite Heq in Hcl |- *.
  replace (close_client s t2 fd).1 with (close_client s (mk_timer (rebuild (entries_ t2)) (entries_ t2)) fd).1
    by (unfold close_client; by destruct (_ && _)).
  unfold Timer.remove in Hcl |- *. rewrite maybe_compact_entries in Hcl |- *. simpl in Hcl |- *.
  apply Hcl. intros id e' Hid. apply rebuild_elems. simpl in *. eauto.
Qed.

Lemma tick_inv s t :
  srv_inv None s (entries_ t) [] -> timer_ok t ->
  exists fs s' t', Timer.tick srv_now on_idle s t = Some (fs, s', t') /\
    srv_inv None s' (entries_ t') [] /\ tick_post srv_now s t fs t'.
Proof.
  intros Hi Ht. unfold Timer.tick.
  destruct (tick_loop_correct srv_now on_idle _ s t srv_steady Ht (inv_callbacks _ _ _ _ Hi)
    (Nat.lt_succ_diag_r _)) as (fs & s' & t' & E & Hpost).
  exists fs, s', t'. split_and!; [done| |done].
  refine (tick_loop_invariant srv_now on_idle (fun s es => srv_inv None s es []) _ s t fs s' t' _ _ Hi E).
  - intros s0 es. apply now_inv.
  - intros s0 t0 fd e Hi0 He q. by apply fire_inv.
Qed.

Lemma next_timeout_inv s t :
  srv_inv None s (entries_ t) [] -> timer_ok t ->
  exists r fs s' t', Timer.get_next_timeout_ms srv_now on_idle s t = Some (r, fs, s', t') /\
    srv_inv None s' (entries_ t') [] /\ timer_ok t'.
Proof.
  intros Hi Ht. unfold Timer.get_next_timeout_ms.
  destruct (tick_inv s t Hi Ht) as (fs & s1 & t1 & -> & Hi1 & Hok1 & _). simpl.
  destruct (discard_loop_spec (length (pq_elems (heap_ t1))) t1 Hok1 (Nat.le_refl _)) as (D1 & D2 & _).
  fold (discard_stale_top t1) in *. rewrite <- D1 in Hi1.
  destruct (pq_top (heap_ (discard_stale_top t1))) as [top|]; [|by eexists _, _, _, _].
  pose proof (now_inv _ _ _ _ Hi1) as Hn. destruct (srv_now s1) as [n s2]. by eexists _, _, _, _.
Qed.

(** Finishing a job moves its work to the result queue. *)
Lemma job_done_inv s es i j ok response err :
  srv_inv None s es [] -> jobs s !! i = Some j ->
  (ok = true -> answers (j_req j) (if is_connect (j_req j) then [] else response)) ->
  srv_inv None (set_work s (proxy_done_queue_ s ++ [finish_job j ok response err]) (delete i (jobs s))) es [].
Proof.
  intros [H1 H2 H3 H4 H5 H6 H7 H8 H9 H10 H11 H12 H13 HF HP HA H14] Hj Hans.
  assert (works (set_work s (proxy_done_queue_ s ++ [finish_job j ok response err]) (delete i (jobs s))) []
    ≡ₚ works s []) as Hp.
  { unfold works. simpl. pose proof (delete_Permutation _ _ _ Hj) as Hd.
    set (js := delete i (jobs s)) in *. rewrite Hd, fmap_app. simpl.
    by rewrite (assoc_L (++)), (comm (++) _ [_]). }
  constructor; try done; simpl; [intros Hci|intros k; rewrite Hp; apply H10|].
  2:{ destruct H13 as [L1 L2 L3]. constructor; [|intros e [He| ->%list_elem_of_singleton]%elem_of_app|]; try done.
      - rewrite fmap_app, <- (assoc_L (++)). simpl. rewrite <- !Permutation_middle.
        rewrite (delete_Permutation _ _ _ Hj) in L1. done.
      - by apply L2. }
  destruct (H9 Hci) as (I1 & I2 & I3).
  split_and!; [done|by rewrite Hp|]. intros k g. rewrite Hp. apply I3.
Qed.

(** A finished job reports what [http_proxy] may answer to its request. *)
Definition step_answers (s : hpserver) (a : srv_action) : Prop :=
  match a with
  | AJobDone i true response _ => forall j, jobs s !! i = Some j ->
      answers (j_req j) (if is_connect (j_req j) then [] else response)
  | _ => True
  end.

Lemma srv_step_inv s t a :
  srv_inv None s (entries_ t) [] -> timer_ok t -> step_answers s a ->
  exists s' t', srv_step strerror (s, t) a = Some (s', t') /\ srv_inv None s' (entries_ t') [] /\ timer_ok t'.
Proof.
  intros Hi Ht Hans. destruct a as [ready|i ok response err]; simpl in *.
  - unfold loop_iteration. destruct (next_timeout_inv s t Hi Ht) as (r & fs & s1 & t1 & -> & Hi1 & Ht1).
    simpl. destruct ready as [evs|]; [|by eexists _, _].
    pose proof (handle_events_inv s1 t1 evs Hi1 Ht1) as Hh. destruct (foldl _ _ _) as [s2 t2].
    destruct Hh as [Hi2 Ht2]. destruct (tick_inv s2 t2 Hi2 Ht2) as (fs3 & s3 & t3 & -> & Hi3 & Ht3 & _).
    simpl. by eexists _, _.
  - destruct (jobs s !! i) as [j|] eqn:Ej; [|by eexists _, _].
    eexists _, _. split_and!; [done| |done]. apply job_done_inv; [done|done|].
    intros ->. by apply Hans.
Qed.

Lemma srv_run_inv s t acts :
  (forall s' a, step_answers s' a) -> srv_inv None s (entries_ t) [] -> timer_ok t ->
  exists s' t', srv_run strerror (s, t) acts = Some (s', t') /\ srv_inv None s' (entries_ t') [] /\ timer_ok t'.
Proof.
  intros Hans. revert s t. induction acts as [|a acts IH]; intros s t Hi Ht; [by eexists _, _|].
  destruct (srv_step_inv s t a Hi Ht (Hans s a)) as (s1 & t1 & E & Hi1 & Ht1). cbn [srv_run]. rewrite E.
  by apply IH.
Qed.

(** A tick leaves the connections of the timers that did not fire. *)
Lemma tick_conns s t fs s' t' :
  srv_inv None s (entries_ t) [] -> Timer.tick srv_now on_idle s t = Some (fs, s', t') ->
  forall fd, is_Some (entries_ t' !! fd) -> connections_ s' !! fd = connections_ s !! fd.
Proof.
  intros Hi E.
  refine (proj2 (tick_loop_invariant srv_now on_idle (fun s0 es => srv_inv None s0 es [] /\
    forall fd, is_Some (es !! fd) -> connections_ s0 !! fd = connections_ s !! fd) _ s t fs s' t'
    _ _ (conj Hi (fun _ _ => eq_refl)) E)).
  - intros s0 es [Hi0 Hc]. split; [by apply now_inv|]. intros fd Hfd. rewrite <- Hc by done.
    by destruct (srv_now_fields s0) as (c & st & [->| ->]).
  - intros s0 t0 fd e [Hi0 Hc] He q. pose proof (fire_inv s0 t0 fd e q Hi0 He) as Hf. cbn zeta in Hf.
    rewrite (i_cb _ _ _ _ Hi0 fd e He) in Hf |- *. unfold on_idle in Hf |- *.
    destruct (live_conn s0 fd); [|].
    2:{ split; [done|]. simpl. intros k [? [_ Hk]%lookup_delete_Some]. apply Hc. eauto. }
    destruct (close_client s0 _ fd) as [s1 t1] eqn:Ecl. split; [done|]. intros k [ek Hk].
    assert (connections_ s1 !! k = delete fd (connections_ s0) !! k /\
            entries_ t1 = delete fd (delete fd (entries_ t0))) as [-> Ht1].
    { unfold close_client in Ecl. destruct (_ && _) eqn:Eb; injection Ecl as <- <-;
        (split; [|unfold Timer.remove; by rewrite maybe_compact_entries]); [done|].
      destruct (conn_in_range None s0 _ _ fd Hi0 Eb) as [Hnone _]. by rewrite delete_id. }
    rewrite Ht1, !lookup_delete_Some in Hk. destruct Hk as (Hne & _ & Hk).
    rewrite lookup_delete_ne by done. apply Hc. eauto.
Qed.

Lemma on_idle_clock fd s t : clock s <= clock (on_idle fd s t).1.
Proof.
  unfold on_idle, close_client. destruct (live_conn s fd); [|done].
  destruct (_ && _); simpl; lia.
Qed.

Lemma srv_now_clock s : clock (srv_now s).2 = (srv_now s).1 /\ clock s <= (srv_now s).1.
Proof. unfold srv_now. destruct (clock_steps s); simpl; lia. Qed.

(** What a stretch of the loop in which nothing is ready does to connections:
    those overdue at [n] are gone, those not due at its end are as they were,
    with their timers, and none is opened. *)
Record idle_closed (n : Z) (s : hpserver) (t : timer Z) (s' : hpserver) (t' : timer Z) : Prop := {
  ic_overdue : forall fd e, entries_ t !! fd = Some e -> e_expires_at e <= n -> connections_ s' !! fd = None;
  ic_kept : forall fd e, entries_ t !! fd = Some e -> clock s' < e_expires_at e ->
    connections_ s' !! fd = connections_ s !! fd /\ entries_ t' !! fd = Some e;
  ic_none : forall fd, connections_ s !! fd = None -> connections_ s' !! fd = None;
  ic_clock : clock s <= clock s';
}.

(** One tick closes exactly the overdue connections. *)
Lemma tick_idle s t :
  srv_inv None s (entries_ t) [] -> timer_ok t ->
  exists fs s1 t1, Timer.tick srv_now on_idle s t = Some (fs, s1, t1) /\
    srv_inv None s1 (entries_ t1) [] /\ timer_ok t1 /\ idle_closed (srv_now s).1 s t s1 t1.
Proof.
  intros Hi Ht. destruct (tick_inv s t Hi Ht) as (fs & s1 & t1 & E & Hi1 & P1 & _ & P3 & _ & P5 & P6).
  pose proof (tick_conns s t fs s1 t1 Hi E) as Hc. exists fs, s1, t1. split_and!; [done..|].
  assert (clock s <= clock s1 /\ Forall (fun f => f_now f <= clock s1) fs) as [Hcl Hnow].
  { eapply (tick_loop_readings srv_now on_idle clock); [| | |exact E].
    - intros s0. destruct (srv_now_clock s0). lia.
    - intros s0. destruct (srv_now_clock s0). lia.
    - apply on_idle_clock. }
  constructor; [| | |done].
  - intros fd e He Hd. apply eq_None_not_Some. intros Hs.
    apply (i_timer _ _ _ _ Hi1) in Hs as [e1 Hs]; [|done]. rewrite P5 in Hs.
    destruct (decide (fd ∈ f_id <$> fs)) as [|Hn]; [done|].
    assert (entries_ t1 !! fd = Some e) as He1%P6 by (by rewrite P5, decide_False). lia.
  - intros fd e He Hd. assert (entries_ t1 !! fd = Some e) as He1.
    { rewrite P5, decide_False; [done|]. intros (f & -> & Hf)%list_elem_of_fmap.
      destruct (P3 f Hf) as [Hfe Hle]. rewrite He in Hfe. simplify_eq.
      rewrite Forall_forall in Hnow. specialize (Hnow f Hf). lia. }
    split; [|done]. apply Hc. by eauto.
  - intros fd Hfd. apply eq_None_not_Some. intros Hs0. pose proof Hs0 as Hs.
    apply (i_timer _ _ _ _ Hi1) in Hs; [|done]. rewrite Hc, Hfd in Hs0 by done. by destruct Hs0.
Qed.

(** A further reading of the clock changes nothing else. *)
Lemma idle_closed_now n s t s1 t1 t2 :
  entries_ t2 = entries_ t1 -> idle_closed n s t s1 t1 -> idle_closed n s t (srv_now s1).2 t2.
Proof.
  intros Et [H1 H2 H3 H4]. destruct (srv_now_clock s1) as [N1 N2].
  assert (connections_ (srv_now s1).2 = connections_ s1) as Ec.
  { destruct (srv_now_fields s1) as (c & st & [->| ->]); done. }
  constructor; rewrite ?Ec, ?Et; [done| |done|lia]. intros fd e He Hd. apply H2; [done|lia].
Qed.

(** One stretch after another. *)
Lemma idle_closed_trans n n' s t s1 t1 s2 t2 :
  idle_closed n s t s1 t1 -> idle_closed n' s1 t1 s2 t2 -> idle_closed n s t s2 t2.
Proof.
  intros [A1 A2 A3 A4] [B1 B2 B3 B4]. constructor; [| |auto|lia].
  - intros fd e He Hd. apply B3. by eapply A1.
  - intros fd e He Hd. destruct (A2 fd e He ltac:(lia)) as [<- He1]. by apply B2.
Qed.

(** A turn without ready descriptors, whether [epoll_wait] timed out or failed. *)
Lemma turn_closes_idle s t ready :
  srv_inv None s (entries_ t) [] -> timer_ok t -> ready = None \/ ready = Some [] ->
  exists s' t', loop_iteration strerror s t ready = Some (s', t') /\ idle_closed (srv_now s).1 s t s' t'.
Proof.
  intros Hi Ht Hr. destruct (tick_idle s t Hi Ht) as (fs & s1 & t1 & E & Hi1 & Ht1 & H1).
  destruct (discard_loop_spec (length (pq_elems (heap_ t1))) t1 Ht1 (Nat.le_refl _)) as (D1 & D2 & _).
  fold (discard_stale_top t1) in *.
  assert (exists r fs s2 t2, Timer.get_next_timeout_ms srv_now on_idle s t = Some (r, fs, s2, t2) /\
    idle_closed (srv_now s).1 s t s2 t2 /\ srv_inv None s2 (entries_ t2) [] /\ timer_ok t2)
    as (r & fs2 & s2 & t2 & E2 & H2 & Hi2 & Ht2).
  { unfold Timer.get_next_timeout_ms. rewrite E. cbn [mbind option_bind].
    pose proof (idle_closed_now _ _ _ _ _ _ D1 H1) as H2. rewrite <- D1 in Hi1.
    pose proof (now_inv _ _ _ _ Hi1) as Hi2. destruct (pq_top _).
    - destruct (srv_now s1) as [c s2]. do 4 eexists. by split_and!.
    - do 4 eexists. split_and!; [done| |done|done]. destruct H1 as [A1 A2 A3 A4].
      by constructor; rewrite ?D1. }
  unfold loop_iteration. rewrite E2. cbn [mbind option_bind].
  destruct Hr as [-> | ->]; [by eexists _, _|]. cbn [foldl].
  destruct (tick_idle s2 t2 Hi2 Ht2) as (fs3 & s3 & t3 & -> & _ & _ & H3).
  eexists _, _. split; [done|]. by eapply idle_closed_trans.
Qed.

Lemma srv_init_inv p start steps :
  poller_ok p -> srv_inv None (srv_init p blacklist start steps) (entries_ timer_new) [].
Proof.
  intros He. constructor; simpl; try done; try set_solver.
  - intros fd _. rewrite !lookup_empty. split; by intros [? ?].
  - intros fd. rewrite !lookup_empty. split; by intros [? ?].
  - intros _. split_and!; simpl; [done|apply NoDup_nil_2|set_solver].
  - constructor; simpl; try done; set_solver.
  - constructor; simpl; try done; set_solver.
  - constructor; simpl; set_solver.
Qed.

End invariant.
