(* ===== verification/ServerAnswers.v ===== *)
(** * ServerAnswers: what the handlers do to requests, tasks and answers

    Most operations of [HpServer] leave the history of requests, tasks, results
    and answers as it is, and at most close connections ([fades]) or open some
    ([opens]); [handle_client] may read one request and submit its task, and
    [handle_done_event] may answer one.  It follows that the requests of a live
    connection are never lost: each has its task or result under way, or has
    been answered ([kept]). *)

From S2P Require Import Prelude Sockets Llhttp HeaderFields HttpRequestParser.
From S2P Require Import HttpMessageBuilder IpFilter HttpConnectionIo HttpConn Timer Poller.
From S2P Require Import HpServer ServerInvariant.

Local Open Scope Z_scope.

Section answers.
Context `{L : Llhttp, Q : PriorityQueue} (strerror : Z -> bytes).

(** ** Frames *)

Definition history (s : hpserver) :=
  (jobs s, proxy_done_queue_ s, delivered s, submitted s).

(** A connection has a number. *)
Definition numbered (s : hpserver) : Prop :=
  forall fd, is_Some (conn_gen s !! fd) <-> is_Some (connections_ s !! fd).

Record fades (s s' : hpserver) : Prop := {
  fd_history : history s' = history s;
  fd_next : next_gen s' = next_gen s;
  fd_gens : conn_gen s' ⊆ conn_gen s;
  fd_numbered : numbered s -> numbered s';
}.

#[export] Instance fades_preorder : PreOrder fades.
Proof.
  split; [by intros s|]. intros s1 s2 s3 [A1 A2 A3 A4] [B1 B2 B3 B4].
  constructor; [congruence|congruence|by etrans|auto].
Qed.

Lemma fades_same s s' :
  history s' = history s -> next_gen s' = next_gen s -> conn_gen s' = conn_gen s ->
  (forall fd, is_Some (connections_ s' !! fd) <-> is_Some (connections_ s !! fd)) -> fades s s'.
Proof. intros H1 H2 H3 H4. constructor; [done|done|by rewrite H3|]. intros Hn fd. by rewrite H3, H4. Qed.

Lemma now_fades s : fades s (srv_now s).2.
Proof. unfold srv_now. by destruct (clock_steps s); apply fades_same. Qed.

Lemma close_fades s t fd : fades s (close_client s t fd).1.
Proof.
  unfold close_client. destruct (_ && _); [|by apply fades_same]. constructor; [done|done|apply delete_subseteq|].
  intros Hn k. simpl. destruct (decide (k = fd)) as [->|]; [rewrite !lookup_delete_eq; by split; intros []|].
  rewrite !lookup_delete_ne by done. apply Hn.
Qed.

Lemma close_gone s t fd c : live_conn s fd = Some c -> conn_gen (close_client s t fd).1 !! fd = None.
Proof.
  intros (_ & ? & ?)%live_conn_Some. unfold close_client.
  cbn [vec_size set_poller set_flags set_closed_sent set_ghost].
  rewrite (proj2 (Z.leb_le _ _)), (proj2 (Z.ltb_lt _ _)) by lia. apply lookup_delete_eq.
Qed.

Lemma refresh_fades s t fd : fades s (refresh_client_timeout s t fd).1.
Proof.
  unfold refresh_client_timeout. destruct (live_conn s fd); [|done].
  assert (forall s, fades s (srv_now (srv_now s).2).2) as Hnn by (intros s0; etrans; apply now_fades).
  specialize (Hnn s). pose proof (now_fades s) as Hn.
  destruct (Timer.contains t fd); unfold Timer.adjust, Timer.add.
  - destruct (entries_ t !! fd); [|done]. by destruct (srv_now s).
  - destruct (fd <? 0); [done|]. destruct (srv_now s). destruct (entries_ t !! fd); [done|].
    simpl in *. by destruct (srv_now _).
Qed.

(** Replacing a connection that is there. *)
Lemma insert_dom (m : gmap Z http_conn) fd c c' k :
  m !! fd = Some c -> is_Some (<[fd := c']> m !! k) <-> is_Some (m !! k).
Proof.
  intros Hc. destruct (decide (k = fd)) as [->|]; [|by rewrite lookup_insert_ne].
  rewrite lookup_insert_eq, Hc. split; eauto.
Qed.

Lemma flush_fades s fd : fades s (flush_client_output s fd).2.
Proof.
  unfold flush_client_output. destruct (live_conn s fd) as [c0|] eqn:Ec; [|done].
  apply live_conn_Some in Ec as [Hc _].
  destruct (flush_output_loop _ _ _) as [[r c] w].
  destruct r; simpl; try destruct (poller_modify _ _ _);
    (apply fades_same; [done|done|done|intros k; by eapply insert_dom]).
Qed.

Lemma close_when_flushed_fades s t fd : fades s (close_when_flushed s t fd).1.
Proof.
  unfold close_when_flushed. destruct (connections_ s !! fd); [|done].
  destruct (conn_has_pending_write _); [|apply close_fades]. destruct (_ <? _); [by apply fades_same|done].
Qed.

Lemma on_idle_fades fd s t : fades s (on_idle fd s t).1.
Proof. unfold on_idle. destruct (live_conn s fd); [apply close_fades|done]. Qed.

Lemma tick_fades s t fs s' t' :
  Timer.tick srv_now on_idle s t = Some (fs, s', t') -> fades s s'.
Proof.
  unfold Timer.tick.
  apply (tick_loop_invariant srv_now on_idle (fun s0 _ => fades s s0)); [| |done].
  - intros s0 es H. etrans; [exact H|apply now_fades].
  - intros s0 t0 id e H He q. destruct (e_callback e); [|done].
    set (t2 := mk_timer q _). pose proof (on_idle_fades z s0 t2) as Hw.
    cbv zeta. fold t2. destruct (on_idle z s0 t2). etrans; [exact H|exact Hw].
Qed.

Lemma next_timeout_fades s t r fs s' t' :
  Timer.get_next_timeout_ms srv_now on_idle s t = Some (r, fs, s', t') -> fades s s'.
Proof.
  unfold Timer.get_next_timeout_ms.
  destruct (Timer.tick srv_now on_idle s t) as [[[fs1 s1] t1]|] eqn:E; [|done]. simpl.
  apply tick_fades in E. destruct (pq_top _); [|by intros [= <- <- <- <-]].
  pose proof (now_fades s1) as Hn. destruct (srv_now s1). intros [= <- <- <- <-]. by etrans.
Qed.

(** Connections opened get fresh numbers. *)
Definition opens (s s' : hpserver) : Prop :=
  history s' = history s /\ (next_gen s <= next_gen s')%nat /\
  forall fd g, conn_gen s' !! fd = Some g -> conn_gen s !! fd = Some g \/ (next_gen s <= g)%nat.

Lemma fades_opens s s' : fades s s' -> opens s s'.
Proof.
  intros [H1 H2 H3 _]. split_and!; [done|lia|]. intros fd g Hg. left. by eapply lookup_weaken.
Qed.

#[export] Instance opens_preorder : PreOrder opens.
Proof.
  split; [by intros s; apply fades_opens|]. intros s1 s2 s3 (A1 & A2 & A3) (B1 & B2 & B3).
  split_and!; [congruence|lia|]. intros fd g [Hg|?]%B3; [by apply A3|right; lia].
Qed.

Lemma accept_opens s t answers : opens s (accept_loop s t answers).1.
Proof.
  revert s t. induction answers as [|[fd ip g1 g2 tx|e] rest IH]; intros s t; simpl; [done|..].
  - destruct (bool_decide _); [done|]. destruct (is_blocked _ _); [apply IH|].
    destruct (if set_nonblocking g1 g2 then _ else _) as [ret p].
    assert (forall p', opens s (set_poller s p')) as Hp by (intros; apply fades_opens; by apply fades_same).
    destruct (negb _); [etrans; [|apply IH]; apply Hp|]. destruct (_ || _); [etrans; [|apply IH]; exact (Hp _)|].
    set (s2 := set_ghost _ _ _ _ _). assert (opens s s2) as H2.
    { unfold s2. split_and!; [done|simpl; lia|]. intros k g. simpl.
      intros [[_ <-]|[_ Hk]]%lookup_insert_Some; [right; lia|by left]. }
    pose proof (refresh_fades s2 t fd) as Hr.
    destruct (refresh_client_timeout s2 t fd) as [s3 t3]. etrans; [exact H2|].
    etrans; [apply fades_opens, Hr|apply IH].
  - destruct (e =? EINTR); [apply IH|done].
Qed.

(** ** One request, one answer *)

(** The connection on [fd] has read a request, and its task has been submitted
    or refused. *)
Definition asks (s : hpserver) (fd : Z) (acc : bool) (s' : hpserver) : Prop :=
  is_Some (connections_ s !! fd) /\ next_gen s' = next_gen s /\ conn_gen s' = conn_gen s /\
  (forall k, is_Some (connections_ s' !! k) <-> is_Some (connections_ s !! k)) /\
  exists data req, let j := mk_job fd req (gen_of s fd) in
    history s' = (jobs s ++ (if acc then [j] else []),
      proxy_done_queue_ s ++ (if acc then [] else [refused_event j]),
      delivered s, submitted s ++ [(gen_of s fd, data, req)]).

Lemma handle_client_asks s fd acc :
  fades s (handle_client s fd acc).2 \/ asks s fd acc (handle_client s fd acc).2.
Proof.
  unfold handle_client. destruct (live_conn s fd) as [c|] eqn:Ec; [|by left].
  apply live_conn_Some in Ec as [Hc _]. destruct (_ && _); [by left|].
  assert (forall c' k, is_Some (<[fd := c']> (connections_ s) !! k) <-> is_Some (connections_ s !! k)) as Hd
    by (intros; by eapply insert_dom).
  destruct (conn_read_from_socket _ _) as [[[e|n] c1] rx]; [left; apply fades_same; [done..|exact (Hd _)]|].
  destruct (parse_available_data c1) as [ok c2]. cbn [connections_ set_conns set_net]. cbn zeta.
  rewrite !insert_insert_eq. destruct ok; [|left; apply fades_same; [done..|exact (Hd _)]]. cbn [negb].
  destruct (is_message_complete _); [|left; apply fades_same; [done..|exact (Hd _)]]. cbn [negb snd]. right.
  unfold asks, submit_proxy_job. destruct acc; cbn zeta; (split_and!; [by eauto|done|done|exact (Hd _)|]);
    exists (read_buffer_ (io_ c2)), (request_ (conn_parser_ c2)); unfold history; simpl; by rewrite !app_nil_r.
Qed.

(** At most one request is read from [fd]. *)
Definition may_ask (s : hpserver) (fd : Z) (acc : bool) (s' : hpserver) : Prop :=
  fades s s' \/ exists s1 s2, fades s s1 /\ asks s1 fd acc s2 /\ fades s2 s'.

Lemma may_ask_after s s1 fd acc s' : fades s s1 -> may_ask s1 fd acc s' -> may_ask s fd acc s'.
Proof. intros H [H'|(s2 & s3 & H1 & H2 & H3)]; [left; by etrans|right; exists s2, s3; split_and!; [by etrans|done..]]. Qed.

Lemma may_ask_before s s1 fd acc s' : may_ask s fd acc s1 -> fades s1 s' -> may_ask s fd acc s'.
Proof. intros [H'|(s2 & s3 & H1 & H2 & H3)] H; [left; by etrans|right; exists s2, s3; split_and!; [done..|by etrans]]. Qed.

Lemma client_event_asks s t fd ev arrived acc :
  may_ask s fd acc (handle_event strerror (s, t) (OnClient fd ev arrived acc)).1.
Proof.
  simpl. set (s0 := match rx_of s !! fd with Some rx => _ | None => s end).
  assert (fades s s0) as H0.
  { unfold s0. destruct (rx_of s !! fd); [|done]. unfold log_arrival. destruct (_ !! _); by apply fades_same. }
  apply (may_ask_after s s0); [exact H0|]. clearbody s0. clear H0. unfold on_client_event.
  destruct (has_event ev _); [left; apply close_fades|].
  assert (fades s0 (if has_event ev (Z.lor EPOLLIN EPOLLOUT)
    then refresh_client_timeout s0 t fd else (s0, t)).1) as H1 by (destruct (has_event _ _); [apply refresh_fades|done]).
  destruct (if has_event ev (Z.lor _ _) then _ else _) as [s1 t1]. simpl in H1.
  apply (may_ask_after s0 s1); [exact H1|]. clear H1.
  assert (forall s2, may_ask s2 fd acc (if has_event ev EPOLLIN
    then let '(r, s) := handle_client s2 fd acc in if r =? -1 then close_client s t1 fd else (s, t1)
    else (s2, t1)).1) as Hin.
  { intros s2. destruct (has_event ev EPOLLIN); [|by left].
    pose proof (handle_client_asks s2 fd acc) as Hh. destruct (handle_client s2 fd acc) as [r s3].
    apply (may_ask_before _ s3); [|destruct (r =? -1); [apply close_fades|done]].
    destruct Hh as [Hh|Hh]; [by left|right; by exists s2, s3]. }
  cbn zeta. destruct (has_event ev EPOLLOUT); [|apply Hin].
  pose proof (flush_fades s1 fd) as Hf. destruct (flush_client_output s1 fd) as [r s2]. simpl in Hf.
  apply (may_ask_after s1 s2); [exact Hf|].
  destruct (r =? -1); [left; apply close_fades|]. destruct (connections_ s2 !! fd); [|apply Hin].
  destruct (_ && _); [left; apply close_fades|apply Hin].
Qed.

Definition with_answers (s : hpserver) (ds : list delivery) : hpserver :=
  set_ghost s (conn_gen s) (next_gen s) (delivered s ++ ds) (closed_inflight s).

(** A result is written to the connection, or the connection is gone. *)
Lemma handle_done_answers s t e :
  exists ds, fades (with_answers s ds) (handle_done_event strerror (s, t) e).1 /\
    (ds = [] /\ (live_conn s (d_client_fd e) = None \/
       conn_gen (handle_done_event strerror (s, t) e).1 !! d_client_fd e = None) \/
     exists data, ds = [mk_delivery (gen_of s (d_client_fd e)) (d_job e) data]).
Proof.
  assert (fades (with_answers s []) s) as Hnil.
  { apply fades_same; unfold history; simpl; by rewrite ?app_nil_r. }
  unfold handle_done_event. set (fd := d_client_fd e).
  destruct (live_conn s fd) as [conn|] eqn:Ec; [|exists []; split; [exact Hnil|by left; split; [|left]]].
  set (s1 := if _ <? _ then _ else s).
  assert (fades s s1 /\ live_conn s1 fd = Some conn /\ gen_of s1 fd = gen_of s fd /\
    forall ds, fades (with_answers s ds) (with_answers s1 ds)) as (H1 & Ec1 & Hg1 & Ha1).
  { unfold s1. destruct (_ <? _); split_and!; try done; intros; by apply fades_same. }
  assert (forall data (k : hpserver -> hpserver * timer Z), (forall s, fades s (k s).1) ->
    fades (with_answers s [mk_delivery (gen_of s fd) (d_job e) data])
      (let '(r, s) := flush_client_output (queue_to s1 fd (d_job e) conn data) fd in
       if r =? -1 then close_client s t fd else k s).1) as Hw.
  { intros data k Hk. etrans; [apply Ha1|]. rewrite <- Hg1.
    assert (fades (with_answers s1 [mk_delivery (gen_of s1 fd) (d_job e) data])
      (queue_to s1 fd (d_job e) conn data)) as Hq.
    { apply fades_same; try done. intros j. apply live_conn_Some in Ec1 as [Hc _]. by eapply insert_dom. }
    etrans; [exact Hq|]. pose proof (flush_fades (queue_to s1 fd (d_job e) conn data) fd) as Hf.
    destruct (flush_client_output _ _) as [r s2]. etrans; [exact Hf|].
    destruct (r =? -1); [apply close_fades|apply Hk]. }
  destruct (negb (d_ok e)).
  - destruct (_ && _).
    + exists []. split; [etrans; [exact Hnil|etrans; [exact H1|apply close_fades]]|]. left. split; [done|right].
      by eapply close_gone.
    + eexists. split; [|by right; eexists].
      apply (Hw _ (fun s => close_when_flushed s t fd)). intros. apply close_when_flushed_fades.
  - eexists. split; [|by right; eexists].
    apply (Hw _ (fun s => if d_close_after_done e then close_when_flushed s t fd else refresh_client_timeout s t fd)).
    intros. destruct (d_close_after_done e); [apply close_when_flushed_fades|apply refresh_fades].
Qed.

(** ** Nothing is lost *)

(** What the proxy may answer, and the filter the server was started with. *)
Variable answers : request_info -> bytes -> Prop.
Variable blacklist : ip_filter.
#[local] Notation srv_inv := (srv_inv strerror answers blacklist).

#[local] Instance asked_proper : Proper ((≡ₚ) ==> (≡ₚ)) asked.
Proof. intros js js' E. unfold asked. by rewrite E. Qed.

(** The requests of connection [g]. *)
Definition asked_by (g : nat) (r : list (nat * bytes * request_info)) : list (nat * request_info) :=
  filter (fun e => e.1 = g) (read_off r).

(** The tasks under way, as results, and answered. *)
Definition all_tasks (s : hpserver) (pend : list proxy_done_event) : list job :=
  jobs s ++ (d_job <$> pend ++ proxy_done_queue_ s) ++ (dl_for <$> delivered s).

(** While a connection is live, its tasks and results are its descriptor's, and
    each of its requests has a task, a result or an answer. *)
Record kept (s : hpserver) (pend : list proxy_done_event) : Prop := {
  k_home : forall fd g k, conn_gen s !! fd = Some g -> (k, g) ∈ works s pend -> k = fd;
  k_kept : forall fd g, conn_gen s !! fd = Some g -> asked_by g (submitted s) ⊆+ asked (all_tasks s pend);
}.

Lemma history_works s s' pend :
  history s' = history s -> works s' pend = works s pend /\ all_tasks s' pend = all_tasks s pend /\ submitted s' = submitted s.
Proof. unfold history, works, all_tasks. by intros [= -> -> -> ->]. Qed.

Lemma kept_fades s s' pend : kept s pend -> fades s s' -> kept s' pend.
Proof.
  intros [K1 K2] [H _ Hg _]. destruct (history_works s s' pend H) as (E1 & E2 & E3).
  constructor.
  - intros fd g k Hfd. rewrite E1. apply K1. by eapply lookup_weaken.
  - intros fd g Hfd. rewrite E2, E3. apply (K2 fd). by eapply lookup_weaken.
Qed.

(** Tasks and requests belong to connections numbered so far. *)
Lemma works_numbered x s es pend k g : srv_inv x s es pend -> (k, g) ∈ works s pend -> (g < next_gen s)%nat.
Proof.
  intros Hi Hw. assert (exists req, (g, req) ∈ asked (all_tasks s pend)) as [req Hr].
  { unfold works in Hw. apply elem_of_app in Hw as [Hw|Hw]; apply list_elem_of_fmap in Hw as (y & [= -> ->] & Hy).
    - exists (j_req y). unfold asked, all_tasks. apply list_elem_of_fmap. exists y. set_solver.
    - exists (j_req (d_job y)). unfold asked, all_tasks. apply list_elem_of_fmap. exists (d_job y).
      split; [done|]. apply elem_of_app. right. apply elem_of_app. left. by apply list_elem_of_fmap_2. }
  eapply elem_of_submseteq in Hr; [|exact (l_once _ _ _ _ _ _ (i_log _ _ _ _ _ _ _ Hi))].
  apply list_elem_of_fmap in Hr as (e & [= -> _] & He). by apply (n_read _ _ _ _ _ _ (i_in _ _ _ _ _ _ _ Hi)).
Qed.

Lemma kept_opens x s es s' pend : srv_inv x s es pend -> kept s pend -> opens s s' -> kept s' pend.
Proof.
  intros Hi [K1 K2] (H & _ & Hg). destruct (history_works s s' pend H) as (E1 & E2 & E3). constructor.
  - intros fd g k Hfd. rewrite E1. intros Hw. destruct (Hg fd g Hfd) as [Hold|Hnew]; [by eapply K1|].
    apply (works_numbered x s es) in Hw; [lia|done].
  - intros fd g Hfd. rewrite E2, E3. destruct (Hg fd g Hfd) as [Hold|Hnew]; [by eapply K2|].
    assert (asked_by g (submitted s) = []) as ->; [|apply submseteq_nil_l].
    apply elem_of_nil_inv. intros e (<- & He)%list_elem_of_filter.
    apply list_elem_of_fmap in He as (r & -> & Hr). simpl in *.
    apply (n_read _ _ _ _ _ _ (i_in _ _ _ _ _ _ _ Hi)) in Hr. lia.
Qed.

(** Live connections have numbers of their own. *)
Definition well_numbered (s : hpserver) : Prop :=
  numbered s /\ forall fd fd' g, conn_gen s !! fd = Some g -> conn_gen s !! fd' = Some g -> fd = fd'.

Lemma inv_well_numbered x s es pend : srv_inv x s es pend -> well_numbered s.
Proof.
  intros Hi. split; [exact (i_gen _ _ _ _ _ _ _ Hi)|exact (o_inj _ _ _ _ _ _ (i_out _ _ _ _ _ _ _ Hi))].
Qed.

Lemma fades_well_numbered s s' : fades s s' -> well_numbered s -> well_numbered s'.
Proof.
  intros [_ _ Hg Hn] [H1 H2]. split; [by apply Hn|]. intros fd fd' g E1 E2.
  eapply H2; (eapply lookup_weaken; [eassumption|done]).
Qed.

Lemma kept_asks s fd acc s' :
  well_numbered s -> kept s [] -> asks s fd acc s' -> kept s' [].
Proof.
  intros [Hn Hinj] [K1 K2] (Hc & _ & Eg & _ & data & req & H).
  apply Hn in Hc as [g0 Hg0]. unfold gen_of in H. rewrite Hg0 in H. cbn [default] in H.
  set (j := mk_job fd req g0) in H.
  assert (forall k g, (k, g) ∈ works s' [] -> (k, g) = (fd, g0) \/ (k, g) ∈ works s []) as Hw.
  { unfold history in H. injection H as E1 E2 E3 E4. intros k g. unfold works. rewrite E1, E2. simpl.
    rewrite !fmap_app, !elem_of_app. destruct acc; simpl; rewrite list_elem_of_singleton, elem_of_nil; naive_solver. }
  assert (all_tasks s' [] ≡ₚ j :: all_tasks s []) as Ht.
  { unfold history in H. injection H as E1 E2 E3 E4. unfold all_tasks. rewrite E1, E2, E3. simpl.
    destruct acc; rewrite ?app_nil_r, ?fmap_app; simpl; solve_Permutation. }
  assert (submitted s' = submitted s ++ [(g0, data, req)]) as Es by (unfold history in H; by simplify_eq).
  constructor; rewrite Eg.
  - intros fd' g k Hg [[= -> ->]|Hk]%Hw; [|by eapply K1].
    by eapply Hinj.
  - intros fd' g Hg. rewrite Ht, Es. unfold asked_by, read_off. rewrite fmap_app, filter_app. simpl.
    change (asked (j :: all_tasks s [])) with ((g0, req) :: asked (all_tasks s [])).
    rewrite filter_cons, filter_nil. simpl. specialize (K2 fd' g Hg).
    case_decide; [rewrite (comm (++)); by apply submseteq_skip|rewrite app_nil_r; by apply submseteq_cons].
Qed.

(** A request of connection [g] that is not [x]'s. *)
Lemma asked_by_cons g r x (l : list (nat * request_info)) : x.1 <> g -> asked_by g r ⊆+ x :: l -> asked_by g r ⊆+ l.
Proof.
  intros Hx [?|(l' & Hp & _)]%submseteq_cons_r; [done|]. exfalso. apply Hx.
  assert (x ∈ asked_by g r) as Hin by (rewrite Hp; left). by apply list_elem_of_filter in Hin as [? _].
Qed.

Lemma kept_done s t es e pend :
  srv_inv None s es (e :: pend) -> kept s (e :: pend) -> kept (handle_done_event strerror (s, t) e).1 pend.
Proof.
  intros Hi [K1 K2]. destruct (handle_done_answers s t e) as (ds & [H _ Hg _] & Hds).
  set (s' := (handle_done_event strerror (s, t) e).1) in *.
  destruct (history_works _ _ pend H) as (E1 & E2 & E3). change (works _ _) with (works s pend) in E1 at 2.
  assert (forall fd g, conn_gen s' !! fd = Some g -> conn_gen s !! fd = Some g) as Hlive
    by (intros fd g Hfd; by apply (lookup_weaken _ _ _ _ Hfd) in Hg).
  constructor.
  - intros fd g k Hfd. rewrite E1. intros Hk. apply (K1 fd g); [by apply Hlive|]. by apply works_push.
  - intros fd g Hfd. rewrite E2, E3. specialize (K2 fd g (Hlive _ _ Hfd)). simpl.
    assert (asked (all_tasks s (e :: pend)) ≡ₚ (d_gen e, j_req (d_job e)) :: asked (all_tasks s pend)) as Ht.
    { change ((d_gen e, _) :: asked ?l) with (asked (d_job e :: l)). apply asked_proper. unfold all_tasks. simpl.
      by rewrite <- Permutation_middle. }
    rewrite Ht in K2. assert (all_tasks (with_answers s ds) pend ≡ₚ (dl_for <$> ds) ++ all_tasks s pend) as Ha.
    { rewrite (Permutation_app_comm (dl_for <$> ds)). unfold all_tasks. simpl.
      by rewrite !fmap_app, <- !(assoc_L (++)). }
    rewrite Ha. destruct Hds as [[-> Hgone]|[data ->]]; [|exact K2]. simpl.
    apply (asked_by_cons g _ (d_gen e, j_req (d_job e))); [|exact K2]. simpl. intros <-.
    assert (d_client_fd e = fd) as Efd.
    { eapply K1; [by apply Hlive|]. rewrite works_cons. apply elem_of_app. right. left. }
    rewrite Efd in Hgone. destruct Hgone as [Hgone|Hgone]; [|congruence].
    rewrite (live_conn_iff _ _ _ _ _ _ _ _ Hi) in Hgone.
    destruct (proj1 (i_gen _ _ _ _ _ _ _ Hi fd)) as [c Hc]; [by eauto using mk_is_Some|]. congruence.
Qed.

Lemma kept_pop s es e q :
  srv_inv None s es [] -> kept s [] -> proxy_done_queue_ s = e :: q -> kept (set_work s q (jobs s)) [e].
Proof.
  intros _ [K1 K2] E. unfold works, all_tasks in *. constructor; unfold works, all_tasks; simpl in *; by rewrite E in *.
Qed.

Lemma kept_drain s t :
  srv_inv None s (entries_ t) [] -> timer_ok t -> kept s [] -> kept (drain_proxy_done_events strerror s t).1 [].
Proof.
  intros Hi Ht Hk. unfold drain_proxy_done_events. pose proof (unqueue_inv _ _ _ _ _ Hi) as Hi0.
  assert (kept (set_work s [] (jobs s)) (proxy_done_queue_ s)) as Hk0.
  { destruct Hk as [K1 K2]. constructor; unfold works, all_tasks in *; simpl in *; by rewrite app_nil_r. }
  clear Hi Hk. revert Hi0 Hk0 Ht. generalize (set_work s [] (jobs s)) as s0. intros s0. revert s0 t.
  induction (proxy_done_queue_ s) as [|e q IH]; intros s0 t Hi Hk Ht; [done|]. cbn [foldl].
  pose proof (handle_done_inv strerror answers blacklist s0 t e q Hi Ht) as Hh.
  pose proof (kept_done s0 t _ e q Hi Hk) as Hk'.
  destruct (handle_done_event strerror (s0, t) e) as [s1 t1]. destruct Hh. by apply IH.
Qed.

Lemma kept_event s t e :
  srv_inv None s (entries_ t) [] -> timer_ok t -> kept s [] -> kept (handle_event strerror (s, t) e).1 [].
Proof.
  intros Hi Ht Hk. destruct e as [accepts| |fd ev arrived acc].
  - eapply kept_opens; [exact Hi|exact Hk|apply accept_opens].
  - by apply kept_drain.
  - destruct (client_event_asks s t fd ev arrived acc) as [H|(s1 & s2 & H1 & H2 & H3)]; [by eapply kept_fades|].
    eapply kept_fades; [|exact H3]. eapply kept_asks; [|by eapply kept_fades|exact H2].
    eapply fades_well_numbered; [exact H1|]. by eapply inv_well_numbered.
Qed.

(** A task ends: its result takes its place. *)
Lemma kept_job_done s i j ok response err :
  kept s [] -> jobs s !! i = Some j ->
  kept (set_work s (proxy_done_queue_ s ++ [finish_job j ok response err]) (delete i (jobs s))) [].
Proof.
  intros [K1 K2] Hj. pose proof (delete_Permutation _ _ _ Hj) as Hd. constructor; simpl.
  - intros fd g k Hfd Hk. eapply K1; [exact Hfd|]. unfold works in *. simpl in *.
    rewrite Hd at 1. rewrite fmap_app in Hk. rewrite fmap_cons. simpl in *.
    rewrite !elem_of_app, list_elem_of_singleton in Hk. rewrite elem_of_cons, elem_of_app. tauto.
  - intros fd g Hfd. etrans; [by apply (K2 fd)|]. apply Permutation_submseteq, asked_proper. unfold all_tasks. simpl.
    rewrite Hd at 1. rewrite fmap_app. simpl. solve_Permutation.
Qed.

Lemma srv_step_kept s t a s' t' :
  srv_inv None s (entries_ t) [] -> timer_ok t -> kept s [] ->
  srv_step strerror (s, t) a = Some (s', t') -> kept s' [].
Proof.
  intros Hi Ht Hk Hs. destruct a as [ready|i ok response err]; simpl in Hs.
  2:{ destruct (jobs s !! i) as [j|] eqn:Ej; simplify_eq; [|done]. by apply kept_job_done. }
  unfold loop_iteration in Hs.
  destruct (next_timeout_inv strerror answers blacklist s t Hi Ht) as (r & fs & s1 & t1 & E1 & Hi1 & Ht1).
  rewrite E1 in Hs. simpl in Hs. apply next_timeout_fades in E1. apply (kept_fades _ _ _ Hk) in E1.
  destruct ready as [evs|]; [|by simplify_eq].
  assert (kept (foldl (handle_event strerror) (s1, t1) evs).1 []) as Hk2.
  { clear Hs Hi Hk Ht. revert s1 t1 Hi1 Ht1 E1. induction evs as [|e evs IH]; intros s1 t1 Hi Ht Hk; [done|].
    cbn [foldl]. pose proof (kept_event s1 t1 e Hi Ht Hk) as Hk1.
    pose proof (handle_events_inv strerror answers blacklist s1 t1 [e] Hi Ht) as Hh. cbn [foldl] in Hh.
    destruct (handle_event strerror (s1, t1) e) as [s2 t2]. destruct Hh. by apply IH. }
  destruct (foldl _ _ _) as [s2 t2]. destruct (Timer.tick _ _ _ _) as [[[fs3 s3] t3]|] eqn:E3; simplify_eq/=.
  apply tick_fades in E3. by eapply kept_fades.
Qed.

Lemma kept_init p start steps : kept (srv_init p blacklist start steps) [].
Proof. constructor; intros fd g; intros; by simplify_map_eq. Qed.

End answers.
