(* ===== verification/ServerProperties.v ===== *)
(** * ServerProperties: theorems about the event loop of [HpServer]

    What holds after every run of the loop from a successful start, whatever
    the kernel, the clients and the workers do; and runs that show what can go
    wrong. *)

From S2P Require Import Prelude Bytes Sockets Llhttp HeaderFields HttpRequestParser.
From S2P Require Import HttpMessageBuilder IpFilter HttpConnectionIo HttpConn Timer Poller.

From S2P Require Import HpServer ServerInvariant.

Local Open Scope Z_scope.

(** C5: the event loop keeps its tables consistent.  After any sequence of
    turns of the loop and finished jobs, whatever clients, kernel, pools and
    upstreams do, the loop has not got stuck, and: every live connection has a
    descriptor within [MAX_FD], owns that descriptor, is registered with the
    poller, and has a live idle timer whose callback closes that very
    connection; whenever it has unsent output, it is registered for writability
    and flagged to be closed once that is flushed; no timer, in-flight or
    close-after-flush flag is left for a descriptor without a connection; and
    every in-flight connection has a job or a result under way; and no
    connection belongs to an address that the blacklist blocks. *)
Theorem server_invariant `{Llhttp, PriorityQueue} (strerror : Z -> bytes) p0 su p f start steps acts :
  listen_start p0 su = Some p ->
  exists s t, srv_run strerror (srv_init p f start steps, timer_new) acts = Some (s, t) /\
    timer_ok t /\
    (forall fd c, connections_ s !! fd = Some c ->
       0 <= fd < MAX_FD /\ io_fd (io_ c) = fd /\ io_ok (io_ c) /\
       is_Some (interest (poller_ s) !! fd) /\
       (exists e, entries_ t !! fd = Some e /\ e_callback e = Some fd) /\
       (conn_has_pending_write c = true ->
          interest (poller_ s) !! fd = Some (Z.lor kClientEvents EPOLLOUT) /\
          fd ∈ close_after_flush_ s)) /\
    (forall fd, is_Some (entries_ t !! fd) \/ fd ∈ proxy_inflight_ s \/ fd ∈ close_after_flush_ s ->
       is_Some (connections_ s !! fd)) /\
    (forall fd, fd ∈ proxy_inflight_ s -> fd ∈ (works s []).*1) /\
    (forall fd g, conn_gen s !! fd = Some g ->
       exists ip, (g, ip) ∈ peers s /\ is_blocked f ip = false).
Proof.
  intros He. destruct (srv_run_inv strerror (fun _ _ => True) f (srv_init p f start steps) timer_new acts)
    as (s & t & E & Hi & Ht); [by intros ? [|? []]|by apply srv_init_inv, (listen_start_ok p0 su)|apply timer_new_ok|].
  exists s, t. split_and!; [done|done| | |exact (i_work _ _ _ _ _ _ _ Hi)|].
  3:{ intros fd g Hg. destruct (i_peer _ _ _ _ _ _ _ Hi fd g Hg) as [ip Hip]. exists ip. split; [done|].
      by apply (i_allowed _ _ _ _ _ _ _ Hi g). }
  - intros fd c Hc. destruct (i_conn _ _ _ _ _ _ _ Hi fd c Hc) as (I1 & I2 & I3 & I4). split_and!; try done; try lia;
      [|by apply (i_watched _ _ _ _ _ _ _ Hi)].
    destruct (proj2 (i_timer _ _ _ _ _ _ _ Hi fd ltac:(done))) as [e Hfe]; [eauto|].
    exists e. split; [done|]. exact (i_cb _ _ _ _ _ _ _ Hi fd e Hfe).
  - intros fd [Hfd|[Hfd|Hfd]]; [by apply (i_timer _ _ _ _ _ _ _ Hi fd)|by apply (i_inflight _ _ _ _ _ _ _ Hi)|
      by apply (i_caf _ _ _ _ _ _ _ Hi)].
Qed.

(** The runs of the witnesses: a client sends a request in two segments. *)
Definition demo_open (tx : list send_answer) : srv_action :=
  ALoop (Some [OnListen [AcceptFd 7 16909060 0 0 tx; AcceptErr EAGAIN]]).
Definition demo_request : list srv_action :=
  [ALoop (Some [OnClient 7 EPOLLIN [RData (bs "GET ")] true]);
   ALoop (Some [OnClient 7 EPOLLIN [RData (bs "rest")] true])].
(** Its peer goes away and another client is accepted on the same descriptor. *)
Definition demo_replaced (tx : list send_answer) : list srv_action :=
  [ALoop (Some [OnClient 7 (Z.lor EPOLLIN EPOLLRDHUP) [] true]); demo_open tx].
Definition demo_finished : list srv_action :=
  [AJobDone 0 true (bs "secret") 0; ALoop (Some [OnProxyEvent])].
(** A peer that takes four bytes and then blocks. *)
Definition demo_slow : list send_answer := [SAccept 3; SErr EAGAIN; SErr EAGAIN].

(** Listening on descriptor 4, signalled on 5. *)
Definition demo_startup : startup := mk_startup true 4 0 0 0 0 5.
Definition demo_poller : poller := default (poller_new (-1)) (listen_start (poller_new 3) demo_startup).

Definition demo_srv : @hpserver demo_llhttp := srv_init demo_poller (ip_filter_new 8) 0 [5; 7]%N.

Definition demo_run (acts : list srv_action) : option (@hpserver demo_llhttp * timer Z) :=
  @srv_run demo_llhttp _ (fun _ => bs "error") (demo_srv, timer_new) acts.

Lemma server_invariant_witness :
  exists s t, demo_run (demo_open demo_slow :: demo_request) = Some (s, t) /\
    7 ∈ (works s []).*1 /\ exists e, entries_ t !! 7 = Some e /\ e_callback e = Some 7.
Proof.
  destruct (@server_invariant demo_llhttp _ (fun _ => bs "error") (poller_new 3) demo_startup demo_poller
    (ip_filter_new 8) 0 [5; 7]%N
    (demo_open demo_slow :: demo_request) eq_refl) as (s & t & E & _ & Hc & _ & Hw & _).
  exists s, t. split; [exact E|]. split.
  - apply Hw. assert (7 ∈ elements (proxy_inflight_ s)) as Hin; [|by apply elem_of_elements in Hin].
    assert (elements (proxy_inflight_ s) = [7]) as ->; [|left].
    apply (observe_Some (fun st => elements (proxy_inflight_ st.1)) _ _ _ E). vm_compute. reflexivity.
  - assert (exists c, connections_ s !! 7 = Some c) as [c Hcn]; [|by apply (Hc 7 c)].
    apply fmap_is_Some with (f := fun _ => tt).
    assert ((fun _ => tt) <$> connections_ s !! 7 = Some tt) as ->; [|eauto].
    apply (observe_Some (fun st => (fun _ => tt) <$> connections_ st.1 !! 7) _ _ _ E). vm_compute. reflexivity.
Defined.

(** A response can reach the wrong client, when a connection is closed under
    its task: the case the end-to-end theorem excludes.  A client sends a
    request and leaves; a second client is accepted on the same descriptor; the
    first client's job finishes and its response is written to the second. *)
Theorem stale_response_delivered :
  exists s t, demo_run (demo_open demo_slow :: demo_request ++ demo_replaced demo_slow ++ demo_finished)
    = Some (s, t) /\
    (fun d => (dl_to d, j_gen (dl_for d), dl_data d)) <$> delivered s = [(1%nat, 0%nat, bs "secret")] /\
    conn_gen s !! 7 = Some 1%nat /\
    sent <$> wire_of s !! 7 = Some (bs "secr").
Proof.
  destruct (ran_Some (demo_run (demo_open demo_slow :: demo_request ++ demo_replaced demo_slow ++ demo_finished))) as [[s t] E]; [vm_compute; reflexivity|].
  exists s, t. split; [done|].
  split_and!; [apply (observe_Some (fun st => (fun d => (dl_to d, j_gen (dl_for d), dl_data d)) <$> delivered st.1) _ _ _ E)|
      apply (observe_Some (fun st => conn_gen st.1 !! 7) _ _ _ E)|
      apply (observe_Some (fun st => sent <$> wire_of st.1 !! 7) _ _ _ E)]; vm_compute; reflexivity.
Qed.

(** One way to close a connection under its task: while a response is being
    flushed a second request is still read and handed to a worker, and the end
    of the flush closes the connection. *)
Lemma request_taken_while_closing :
  exists s t, demo_run (demo_open demo_slow :: demo_request ++ demo_finished ++ demo_request ++
                        [ALoop (Some [OnClient 7 EPOLLOUT [] true])]) = Some (s, t) /\
    connections_ s !! 7 = None /\ closed_inflight s = true /\ j_client_fd <$> jobs s = [7].
Proof.
  destruct (ran_Some (demo_run (demo_open demo_slow :: demo_request ++ demo_finished ++ demo_request ++
    [ALoop (Some [OnClient 7 EPOLLOUT [] true])]))) as [[s t] E]; [vm_compute; reflexivity|].
  exists s, t. split; [done|].
  assert ((fun _ => tt) <$> connections_ s !! 7 = None) as Hn.
  { apply (observe_Some (fun st => (fun _ => tt) <$> connections_ st.1 !! 7) _ _ _ E). vm_compute. reflexivity. }
  split_and!; [by destruct (connections_ s !! 7)|
    apply (observe_Some (fun st => closed_inflight st.1) _ _ _ E)|
    apply (observe_Some (fun st => j_client_fd <$> jobs st.1) _ _ _ E)]; vm_compute; reflexivity.
Qed.

(** C24: idle connections are closed, and only those.  A turn of the loop in
    which nothing is ready -- [epoll_wait] timed out and reported no event, or
    failed -- ends; it closes every connection whose timer had expired at its
    first clock reading, keeps unchanged every connection whose timer has not
    expired at its end, with its timer, and opens none. *)
Theorem idle_connections_closed `{Llhttp, PriorityQueue} (strerror : Z -> bytes)
    p0 su p f start steps acts s t ready :
  listen_start p0 su = Some p ->
  srv_run strerror (srv_init p f start steps, timer_new) acts = Some (s, t) ->
  ready = Some [] \/ ready = None ->
  exists s' t', srv_step strerror (s, t) (ALoop ready) = Some (s', t') /\
    (forall fd e, entries_ t !! fd = Some e ->
       (e_expires_at e <= (srv_now s).1 -> connections_ s' !! fd = None) /\
       (clock s' < e_expires_at e ->
          connections_ s' !! fd = connections_ s !! fd /\ entries_ t' !! fd = Some e)) /\
    (forall fd, connections_ s !! fd = None -> connections_ s' !! fd = None).
Proof.
  intros He E Hr. destruct (srv_run_inv strerror (fun _ _ => True) f (srv_init p f start steps) timer_new acts)
    as (s1 & t1 & E' & Hi & Ht); [by intros ? [|? []]|by apply srv_init_inv, (listen_start_ok p0 su)|apply timer_new_ok|].
  rewrite E in E'. injection E' as <- <-.
  destruct (turn_closes_idle strerror (fun _ _ => True) f s t ready Hi Ht ltac:(tauto)) as (s' & t' & E' & [H1 H2 H3 _]).
  exists s', t'. split_and!; [done| |done]. intros fd e Hfe. split; [by apply H1|by apply H2].
Qed.

(** A server whose clock is read by [steps]: a client connects. *)
Definition demo_idle (steps : list N) (acts : list srv_action) : option (@hpserver demo_llhttp * timer Z) :=
  @srv_run demo_llhttp _ (fun _ => bs "error")
    (srv_init demo_poller (ip_filter_new 8) 0 steps, timer_new) acts.

(** Twenty seconds later [epoll_wait] times out and the connection is closed; a
    second client, accepted just before, stays. *)
Definition demo_two : list srv_action :=
  [demo_open demo_slow; ALoop (Some [OnListen [AcceptFd 8 16909061 0 0 []; AcceptErr EAGAIN]])].

(** The readings: the second client ten seconds after the first, the idle turn
    ten seconds later. *)
Definition demo_steps : list N := [5; 0; 0; 0; 10000000000; 0; 0; 0; 10000000000; 7]%N.

Lemma idle_connections_closed_witness :
  exists s t, demo_idle demo_steps demo_two = Some (s, t) /\
    is_Some (connections_ s !! 7) /\ is_Some (connections_ s !! 8) /\
  exists s' t', @srv_step demo_llhttp _ (fun _ => bs "error") (s, t) (ALoop (Some [])) = Some (s', t') /\
    connections_ s' !! 7 = None /\ connections_ s' !! 8 = connections_ s !! 8.
Proof.
  destruct (ran_Some (demo_idle demo_steps demo_two)) as [[s t] E]; [vm_compute; reflexivity|].
  exists s, t. split; [done|].
  destruct (@idle_connections_closed demo_llhttp _ (fun _ => bs "error") (poller_new 3) demo_startup demo_poller
    (ip_filter_new 8) 0 demo_steps demo_two s t (Some []) eq_refl E (or_introl eq_refl)) as (s' & t' & E' & Hc & _).
  assert ((fun _ => tt) <$> connections_ s !! 7 = Some tt) as E7.
  { apply (observe_Some (fun st => (fun _ => tt) <$> connections_ st.1 !! 7) _ _ _ E). vm_compute. reflexivity. }
  assert ((fun _ => tt) <$> connections_ s !! 8 = Some tt) as E8.
  { apply (observe_Some (fun st => (fun _ => tt) <$> connections_ st.1 !! 8) _ _ _ E). vm_compute. reflexivity. }
  assert (e_expires_at <$> entries_ t !! 7 = Some 15000000005) as T7.
  { apply (observe_Some (fun st => e_expires_at <$> entries_ st.2 !! 7) _ _ _ E). vm_compute. reflexivity. }
  assert (e_expires_at <$> entries_ t !! 8 = Some 25000000005) as T8.
  { apply (observe_Some (fun st => e_expires_at <$> entries_ st.2 !! 8) _ _ _ E). vm_compute. reflexivity. }
  assert ((srv_now s).1 = 20000000005) as Hn.
  { apply (observe_Some (fun st => (srv_now st.1).1) _ _ _ E). vm_compute. reflexivity. }
  assert (clock s' = 20000000012) as Hk.
  { apply (observe_Some (fun st => clock st.1) _ _ _ E').
    apply (observe_Some (fun st => clock ∘ fst <$> srv_step (fun _ => bs "error") st (ALoop (Some []))) _ _ _ E).
    vm_compute. reflexivity. }
  split; [by destruct (connections_ s !! 7); eauto|]. split; [by destruct (connections_ s !! 8); eauto|].
  exists s', t'. split; [done|]. split.
  - destruct (entries_ t !! 7) as [e|] eqn:He; [|discriminate]. apply (Hc 7 e He). injection T7 as ->. lia.
  - destruct (entries_ t !! 8) as [e|] eqn:He; [|discriminate]. apply (Hc 8 e He). injection T8 as ->. lia.
Defined.
