(* ===== verification/System.v ===== *)
(** * System: the event loop and the proxy workers together

    [HpServer] takes the answers of the worker tasks as given, [HttpProxy] says
    what a task's calls answer.  Here the task's closure is modelled, the two
    are composed, and the theorem follows a request from the bytes a client
    sends to the bytes it receives. *)

From S2P Require Import Prelude Sockets Llhttp HeaderFields HttpRequestParser.
From S2P Require Import IpFilter HttpConnectionIo HttpConn Timer Poller HttpProxy HpServer.
From S2P Require Import ServerInvariant ServerAnswers ServerProperties.

Local Open Scope Z_scope.

Section system.
Context `{L : Llhttp, Q : PriorityQueue, O : HeaderOrder} (strerror : Z -> bytes).

(** What a task meets: the errno of its thread, and the network. *)
Record job_world := mk_world {
  jw_errno : Z;
  jw_attempts : nat -> attempt_env;
  jw_tunnel : tunnel_env;
}.

(** The calls of a task's closure; [finish_job] makes the event of them.  A
    tunnel's own traffic on the client's descriptor stays with HttpProxy's
    model: the third component here is dropped. *)
(* src/src/hpserver.cpp:207-222 hpserver::submit_proxy_job *)
Definition run_job (j : job) (w : job_world) : option (bool * bytes * Z) :=
  if is_connect (j_req j) then
    '(ok, err, _, _) ← forward_connect_tunnel (jw_errno w) (j_client_fd j) (j_req j) (jw_tunnel w);
    Some (ok, [], err)
  else
    r ← forward_request (jw_errno w) (j_req j) (jw_attempts w);
    Some (fr_ok r, fr_response r, fr_errno r).

(** A turn of the loop, or a worker running the [i]-th task to its end. *)
Inductive sys_action :=
| SLoop (ready : option (list io_event))
| SWork (i : nat) (w : job_world).

Definition sys_step (st : hpserver * timer Z) (a : sys_action) : option (hpserver * timer Z) :=
  match a with
  | SLoop ready => srv_step strerror st (ALoop ready)
  | SWork i w =>
      match jobs st.1 !! i with
      | None => Some st
      | Some j => '(ok, response, err) ← run_job j w; srv_step strerror st (AJobDone i ok response err)
      end
  end.

Fixpoint sys_run (st : hpserver * timer Z) (acts : list sys_action) : option (hpserver * timer Z) :=
  match acts with
  | [] => Some st
  | a :: acts => st' ← sys_step st a; sys_run st' acts
  end.

(** ** Specification *)

(** A segment that arrives at a tunnel's ends is not empty. *)
Definition action_ok (a : sys_action) : Prop :=
  match a with
  | SLoop _ => True
  | SWork _ w => rx_wf (te_client_rx (jw_tunnel w)) /\ rx_wf (te_upstream_rx (jw_tunnel w))
  end.

(** What the loop writes for a task that succeeded: nothing after a tunnel,
    else what the upstream answered. *)
Definition served (req : request_info) (data : bytes) : Prop :=
  if is_connect req then data = [] else upstream_served req data.

(** The account of a state: for every live connection, the data that has arrived
    is the requests read so far, what is buffered and what its socket still
    holds, and what its socket has accepted followed by what is still to be sent
    is what was queued for it; what a closed connection had been sent is a prefix
    of that; no two connections are taken for one another; every request is what
    the parser makes of its bytes; each is answered at most once, with the report
    of a failure or what was served to it; while no connection is closed under
    its task, answers go to the connection that asked, and no connection has two
    tasks or results under way; and every request of a live connection has a task
    or a result under way, or an answer. *)
Definition accounted (s : hpserver) : Prop :=
  (forall fd c, connections_ s !! fd = Some c -> exists g w rx,
     conn_gen s !! fd = Some g /\ wire_of s !! fd = Some w /\ rx_of s !! fd = Some rx /\
     rx_data (arrived_for g (arrivals s)) =
       requests_of g (submitted s) ++ read_buffer_ (io_ c) ++ rx_data rx /\
     sent w ++ pending (io_ c) = queued_to g (delivered s)) /\
  (forall g b, (g, b) ∈ closed_sent s -> b `prefix_of` queued_to g (delivered s)) /\
  (forall fd fd' g, conn_gen s !! fd = Some g -> conn_gen s !! fd' = Some g -> fd = fd') /\
  (forall g data req, (g, data, req) ∈ submitted s -> reads_as data req) /\
  asked (dl_for <$> delivered s) ⊆+ read_off (submitted s) /\
  (forall d, d ∈ delivered s -> reply_to strerror served (dl_for d) (dl_data d)) /\
  (closed_inflight s = false ->
     (forall d, d ∈ delivered s -> dl_to d = j_gen (dl_for d)) /\ NoDup (works s []).*1) /\
  (forall fd g, conn_gen s !! fd = Some g -> asked_by g (submitted s) ⊆+ asked (all_tasks s [])).

(** ** Lemmas *)

(** The filter the server is started with. *)
Variable blacklist : ip_filter.

Lemma run_job_served j w :
  action_ok (SWork 0 w) ->
  exists ok response err, run_job j w = Some (ok, response, err) /\
    (ok = true -> served (j_req j) (if is_connect (j_req j) then [] else response)).
Proof.
  intros [Hc Hu]. unfold run_job, served. destruct (is_connect (j_req j)).
  - destruct (tunnel_runs (jw_errno w) (j_client_fd j) (j_req j) (jw_tunnel w) Hc Hu) as (ok & e & cw & t & ->).
    simpl. by eexists _, _, _.
  - destruct (forward_request_runs (jw_errno w) (j_req j) (jw_attempts w)) as (r & -> & Hr).
    simpl. by eexists _, _, _.
Qed.

Lemma srv_accounted s es :
  srv_inv strerror served blacklist None s es [] -> kept s [] -> accounted s.
Proof.
  intros Hi Hk.
  destruct (i_in _ _ _ _ _ _ _ Hi) as [N1 N2 N3 N4 N5], (i_log _ _ _ _ _ _ _ Hi) as [L1 L2 L3],
    (i_out _ _ _ _ _ _ _ Hi) as [O1 O2 O3 O4 O5].
  split_and!; [|done|done|done| |done| |exact (k_kept _ _ Hk)].
  - intros fd c Hc. destruct (conn_wire strerror served blacklist None s es [] fd c Hi Hc) as (g & w & Hg & Hw & Hs).
    destruct (N3 fd c g Hc Hg) as (_ & rx & Hrx & Hd). specialize (Hd []). rewrite !app_nil_r in Hd.
    by exists g, w, rx.
  - etrans; [|exact L1]. unfold asked. rewrite !fmap_app. by do 2 apply submseteq_inserts_l.
  - intros Hci. destruct (i_iso _ _ _ _ _ _ _ Hi Hci) as (I1 & I2 & _). split; [|done].
    intros d Hd. by rewrite Forall_forall in I1; apply I1.
Qed.

(** A step of the system is a step of the loop's model. *)
Lemma sys_step_inv s t a :
  srv_inv strerror served blacklist None s (entries_ t) [] -> timer_ok t -> kept s [] -> action_ok a ->
  exists s' t', sys_step (s, t) a = Some (s', t') /\
    srv_inv strerror served blacklist None s' (entries_ t') [] /\ timer_ok t' /\ kept s' [].
Proof.
  intros Hi Ht Hk Ha.
  assert (forall a', step_answers served s a' -> exists s' t', srv_step strerror (s, t) a' = Some (s', t') /\
    srv_inv strerror served blacklist None s' (entries_ t') [] /\ timer_ok t' /\ kept s' []) as Hstep.
  { intros a' Hans. destruct (srv_step_inv strerror served blacklist s t a' Hi Ht Hans) as (s' & t' & E & Hi' & Ht').
    exists s', t'. split_and!; [done|done|done|]. eapply srv_step_kept; [exact Hi|exact Ht|exact Hk|exact E]. }
  destruct a as [ready|i w]; [by apply Hstep|]. unfold sys_step. cbn [fst].
  destruct (jobs s !! i) as [j|] eqn:Ej; [|by eexists _, _].
  destruct (run_job_served j w Ha) as (ok & response & err & -> & Hs). cbn [mbind option_bind].
  apply Hstep. destruct ok; [|done]. intros j' Hj'. simplify_eq. auto.
Qed.

Lemma sys_run_inv s t acts :
  srv_inv strerror served blacklist None s (entries_ t) [] -> timer_ok t -> kept s [] -> Forall action_ok acts ->
  exists s' t', sys_run (s, t) acts = Some (s', t') /\
    srv_inv strerror served blacklist None s' (entries_ t') [] /\ timer_ok t' /\ kept s' [].
Proof.
  intros Hi Ht Hk Ha. revert s t Hi Ht Hk. induction Ha as [|a acts Ha _ IH]; intros s t Hi Ht Hk; [by eexists _, _|].
  destruct (sys_step_inv s t a Hi Ht Hk Ha) as (s1 & t1 & E & Hi1 & Ht1 & Hk1). cbn [sys_run]. rewrite E.
  by apply IH.
Qed.

End system.

(** C1: from the client's bytes to the client's bytes.  The system runs without
    getting stuck, whatever clients, upstreams and the kernel do, and every state
    it reaches accounts for every byte ([accounted]).  For every
    live connection, the data that has arrived is the requests read so far,
    what is buffered and what its socket still holds, and what its socket has
    accepted followed by what is still to be sent is what was queued for it;
    what a closed connection had been sent is a prefix of that; and no two
    connections are taken for one another.  Every request is what the parser
    makes of its bytes, and is answered at most once; an answer is the report of a failure, or what an upstream sent
    after it had received the whole forwarded request, or nothing after a
    tunnel; and while no connection is closed under its task, it goes to the
    connection the request was read from, and no connection has two tasks or
    results under way.  And no request of a live connection is lost: it has a
    task or a result under way, or an answer.  (What a tunnel's worker itself
    reads from and writes to the client's descriptor is not part of this
    account; [tunnel_relays_in_order] is about that.) *)
Theorem requests_served `{Llhttp, PriorityQueue, HeaderOrder} (strerror : Z -> bytes)
    p0 su p f start steps acts :
  listen_start p0 su = Some p -> Forall action_ok acts ->
  exists s t, sys_run strerror (srv_init p f start steps, timer_new) acts = Some (s, t) /\ accounted strerror s.
Proof.
  intros He Ha. destruct (sys_run_inv strerror f (srv_init p f start steps) timer_new acts)
    as (s & t & E & Hi & _ & Hk); [by apply srv_init_inv, (listen_start_ok p0 su)|apply timer_new_ok|apply kept_init|done|].
  exists s, t. split; [done|]. by eapply srv_accounted.
Qed.

(** A client sends a request in two segments; the task forwards it, is reset
    once, and the second upstream answers. *)
Definition demo_world : job_world :=
  mk_world 0 demo_forward_env (demo_tunnel [] []).
Definition demo_sys : list sys_action :=
  [SLoop (Some [OnListen [AcceptFd 7 16909060 0 0 demo_slow; AcceptErr EAGAIN]]);
   SLoop (Some [OnClient 7 EPOLLIN [RData (bs "GET ")] true]);
   SLoop (Some [OnClient 7 EPOLLIN [RData (bs "rest")] true]);
   SWork 0 demo_world; SLoop (Some [OnProxyEvent])].

Lemma requests_served_witness :
  exists s t, @sys_run demo_llhttp _ _ (fun _ => bs "error") (demo_srv, timer_new) demo_sys = Some (s, t) /\
    (dl_data <$> delivered s = [bs "HTTP/1.1 200 OK"]) /\
    requests_of 0 (submitted s) = bs "GET rest" /\
    exists c w, connections_ s !! 7 = Some c /\ wire_of s !! 7 = Some w /\
      sent w = bs "HTTP" /\ sent w ++ pending (io_ c) = bs "HTTP/1.1 200 OK".
Proof.
  destruct (@requests_served demo_llhttp _ _ (fun _ => bs "error") (poller_new 3) demo_startup demo_poller
    (ip_filter_new 8) 0 [5; 7]%N demo_sys eq_refl) as (s & t & E & Hc & _).
  { repeat constructor; discriminate. }
  exists s, t. split; [exact E|]. split.
  { apply (observe_Some (fun st => dl_data <$> delivered st.1) _ _ _ E). vm_compute. reflexivity. }
  split.
  { apply (observe_Some (fun st => requests_of 0 (submitted st.1)) _ _ _ E). vm_compute. reflexivity. }
  assert ((fun _ => tt) <$> connections_ s !! 7 = Some tt) as Hs.
  { apply (observe_Some (fun st => (fun _ => tt) <$> connections_ st.1 !! 7) _ _ _ E). vm_compute. reflexivity. }
  assert (conn_gen s !! 7 = Some 0%nat) as Hg.
  { apply (observe_Some (fun st => conn_gen st.1 !! 7) _ _ _ E). vm_compute. reflexivity. }
  assert (sent <$> wire_of s !! 7 = Some (bs "HTTP")) as Hw.
  { apply (observe_Some (fun st => sent <$> wire_of st.1 !! 7) _ _ _ E). vm_compute. reflexivity. }
  assert (queued_to 0 (delivered s) = bs "HTTP/1.1 200 OK") as Hq.
  { apply (observe_Some (fun st => queued_to 0 (delivered st.1)) _ _ _ E). vm_compute. reflexivity. }
  destruct (connections_ s !! 7) as [c|] eqn:Ec; [|discriminate].
  destruct (Hc 7 c Ec) as (g & w & rx & Hg' & Hw' & _ & _ & Hs'). rewrite Hg in Hg'. injection Hg' as <-.
  rewrite Hw' in Hw. injection Hw as Hw. exists c, w. split_and!; [done|done|exact Hw|].
  rewrite Hs'. exact Hq.
Defined.
