(* ===== verification/ServerThreads.v ===== *)
(** * ServerThreads: the event loop, the pools, the queue and the eventfd at once

    [System] lets a worker run a task in one step between two turns of the loop.
    Here the loop and every worker are threads whose steps interleave: the loop
    submits, drains and signals through the operations of the shared objects of
    [Shared], which other threads may be inside of; a worker can finish its task,
    push its result and signal at any point of a turn.  What a thread does
    between two accesses to a shared object is private to it and is one step.

    The state of the loop is that of [HpServer]; its fields [jobs] and
    [proxy_done_queue_] are ghosts here: the tasks submitted and not finished,
    and the results pushed and not popped.

    The theorems ([ThreadsProperties]): the end-to-end property of [System] under
    every interleaving; no work is stranded: while a task or a result is under
    way some thread can move without new input, or [epoll_wait] reports the
    eventfd; and such steps come to an end, with every task and result done. *)

From S2P Require Import Prelude Shared Sockets Llhttp HeaderFields HttpRequestParser.
From S2P Require Import IpFilter HttpConnectionIo HttpConn Timer Poller HttpProxy HpServer.
From S2P Require Import ServerInvariant ServerProperties System.

Local Open Scope Z_scope.

Section threads.
Context `{L : Llhttp, Q : PriorityQueue, HO : HeaderOrder} (strerror : Z -> bytes).
Context `{DQ : !SharedQueue proxy_done_event, TP : !TaskPool job, EF : EventFd}.

(** ** State *)

(** The loop: before a turn; in [epoll_wait]; before the next ready descriptor
    ([rest] are those not yet handled); before and inside [try_push]; before and
    inside the push of a refused task's result; before the write to the eventfd;
    in [drain_proxy_done_events]: before the next read of the eventfd, before
    and inside [try_pop]. *)
(* src/src/hpserver.cpp:406-497 hpserver::listen *)
Inductive loop_pc :=
| LTimeout
| LWait
| LEvents (rest : list io_event)
| LTry (j : job) (rest : list io_event)
| LTrying (j : job) (rest : list io_event)
| LPush (e : proxy_done_event) (rest : list io_event)
| LPushing (e : proxy_done_event) (rest : list io_event)
| LSignal (rest : list io_event)
| LRead (rest : list io_event)
| LPop (rest : list io_event)
| LPopping (rest : list io_event).

(** A worker: outside the pool with nothing to do; inside the pool; about to run
    its task; before and inside the push of the result; before the write. *)
(* src/src/hpserver.cpp:206-242 hpserver::submit_proxy_job *)
Inductive work_pc :=
| Idle | Fetching | Running (j : job)
| ToPush (e : proxy_done_event) | Pushing (e : proxy_done_event) | ToSignal.

(** [th_work] has the workers of [tunnel_pool_] (true) and [proxy_pool_]. *)
(* src/src/hpserver.h:43-63 hpserver *)
Record server_threads := mk_threads {
  th_loop : loop_pc;
  th_srv : hpserver;
  th_timer : timer Z;
  th_proxy : tp (T := job);
  th_tunnel : tp (T := job);
  th_done : sq (T := proxy_done_event);
  th_efd : efd;
  th_work : gmap (bool * nat) work_pc;
}.

Definition set_loop (m : server_threads) (pc : loop_pc) : server_threads :=
  mk_threads pc (th_srv m) (th_timer m) (th_proxy m) (th_tunnel m) (th_done m) (th_efd m) (th_work m).
Definition set_srv (m : server_threads) (s : hpserver) (t : timer Z) : server_threads :=
  mk_threads (th_loop m) s t (th_proxy m) (th_tunnel m) (th_done m) (th_efd m) (th_work m).
Definition set_done (m : server_threads) (q : sq) : server_threads :=
  mk_threads (th_loop m) (th_srv m) (th_timer m) (th_proxy m) (th_tunnel m) q (th_efd m) (th_work m).
Definition set_efd (m : server_threads) (e : efd) : server_threads :=
  mk_threads (th_loop m) (th_srv m) (th_timer m) (th_proxy m) (th_tunnel m) (th_done m) e (th_work m).
Definition set_worker (m : server_threads) (b : bool) (w : nat) (pc : work_pc) : server_threads :=
  mk_threads (th_loop m) (th_srv m) (th_timer m) (th_proxy m) (th_tunnel m) (th_done m) (th_efd m)
    (<[(b, w) := pc]> (th_work m)).

(** [is_connect ? tunnel_pool_ : proxy_pool_]. *)
(* src/src/hpserver.cpp:205-205 hpserver::submit_proxy_job *)
Definition pool_of (m : server_threads) (tunnel : bool) : tp :=
  if tunnel then th_tunnel m else th_proxy m.
Definition set_pool (m : server_threads) (tunnel : bool) (p : tp) : server_threads :=
  mk_threads (th_loop m) (th_srv m) (th_timer m) (if tunnel then th_proxy m else p)
    (if tunnel then p else th_tunnel m) (th_done m) (th_efd m) (th_work m).

Definition work_of (m : server_threads) (b : bool) (w : nat) : work_pc :=
  default Idle (th_work m !! (b, w)).

(** The threads of the result queue: 0 is the loop. *)
Definition tid_of (b : bool) (w : nat) : nat := S (2 * w + Nat.b2n b).
Definition worker_at (k : nat) : bool * nat := (Nat.odd k, Nat.div2 k).

(* src/src/hpserver.cpp:90-98 hpserver::hpserver *)
Definition threads_init (cfg : server_config) (s : hpserver) : server_threads :=
  mk_threads LTimeout s timer_new
    (tp_new (Z.to_nat (proxy_worker_count_ cfg)) (proxy_queue_size_ cfg))
    (tp_new (Z.to_nat (tunnel_worker_count_ cfg)) (tunnel_queue_size_ cfg))
    sq_new efd_new ∅.

(** ** Steps *)

(** [proxy_done_queue_.push]: the result takes the place of its task. *)
Definition pushed_result (s : hpserver) (e : proxy_done_event) : hpserver :=
  set_work s (proxy_done_queue_ s ++ [e])
    (match list_find (fun j => j = d_job e) (jobs s) with
     | Some (i, _) => delete i (jobs s)
     | None => jobs s
     end).

(** The handler of a ready descriptor, up to the submission of a task, which
    [HpServer] takes as accepted: the verdict comes later. *)
Definition until_verdict (e : io_event) : io_event :=
  match e with OnClient fd ev arrived _ => OnClient fd ev arrived true | _ => e end.

Definition handle_ready (m : server_threads) (e : io_event) (rest : list io_event) : server_threads :=
  let '(s, t) := handle_event strerror (th_srv m, th_timer m) (until_verdict e) in
  set_loop (set_srv m s t)
    (match drop (length (jobs (th_srv m))) (jobs s) with j :: _ => LTry j rest | [] => LEvents rest end).

(** The loop's own next step; [None] while it waits or is inside an operation. *)
(* src/src/hpserver.cpp:406-497 hpserver::listen *)
Definition loop_step (m : server_threads) : option server_threads :=
  match th_loop m with
  | LTimeout =>
      '(_, _, s, t) ← Timer.get_next_timeout_ms srv_now on_idle (th_srv m) (th_timer m);
      Some (set_loop (set_srv m s t) LWait)
  | LEvents [] =>
      '(_, s, t) ← Timer.tick srv_now on_idle (th_srv m) (th_timer m);
      Some (set_loop (set_srv m s t) LTimeout)
  | LEvents (OnProxyEvent :: rest) => Some (set_loop m (LRead rest))
  | LEvents (e :: rest) => Some (handle_ready m e rest)
  | LTry j rest =>
      p ← tp_submit j (pool_of m (is_connect (j_req j)));
      Some (set_loop (set_pool m (is_connect (j_req j)) p) (LTrying j rest))
  | LPush e rest =>
      q ← sq_begin 0 (OpPush e) (th_done m); Some (set_loop (set_done m q) (LPushing e rest))
  | LSignal rest => Some (set_loop (set_efd m (efd_write (th_efd m))) (LEvents rest))
  | LRead rest =>
      let '(n, e) := efd_read (th_efd m) in
      Some (set_loop (set_efd m e) (if 0 <? n then LRead rest else LPop rest))
  | LPop rest =>
      q ← sq_begin 0 OpPop (th_done m); Some (set_loop (set_done m q) (LPopping rest))
  | LWait | LTrying _ _ | LPushing _ _ | LPopping _ => None
  end.

Definition is_proxy_event (e : io_event) : bool :=
  match e with OnProxyEvent => true | _ => false end.

(** [epoll_wait] returns, with -1 for [None]; it reports the eventfd only when
    that is ready. *)
(* src/src/hpserver.cpp:408-411 hpserver::listen *)
Definition wait_step (ready : option (list io_event)) (m : server_threads) : option server_threads :=
  match th_loop m, ready with
  | LWait, None => Some (set_loop m LTimeout)
  | LWait, Some evs =>
      if existsb is_proxy_event evs then
        if efd_ready (th_efd m)
        then Some (set_loop (set_efd m (efd_report (th_efd m))) (LEvents evs)) else None
      else Some (set_loop m (LEvents evs))
  | _, _ => None
  end.

(** A worker's own next step; [world] is what its task meets. *)
(* src/src/hpserver.cpp:206-242 hpserver::submit_proxy_job *)
Definition work_step (b : bool) (w : nat) (world : job_world) (m : server_threads)
  : option server_threads :=
  match work_of m b w with
  | Idle => p ← tp_fetch w (pool_of m b); Some (set_worker (set_pool m b p) b w Fetching)
  | Running j =>
      '(ok, response, err) ← run_job j world;
      Some (set_worker m b w (ToPush (finish_job j ok response err)))
  | ToPush e =>
      q ← sq_begin (tid_of b w) (OpPush e) (th_done m);
      Some (set_worker (set_done m q) b w (Pushing e))
  | ToSignal => Some (set_worker (set_efd m (efd_write (th_efd m))) b w Idle)
  | Fetching | Pushing _ => None
  end.

(** A step inside a pool; its answer goes to the thread that waits for it. *)
(* src/src/hpserver.cpp:202-268 hpserver::submit_proxy_job *)
Definition inside_pool (b : bool) (a : tp_act) (m : server_threads) : option server_threads :=
  '(p, r) ← tp_step a (pool_of m b);
  let m := set_pool m b p in
  Some (match r with
        | None => m
        | Some (Verdict accepted) =>
            match th_loop m with
            | LTrying j rest => set_loop m (if accepted then LEvents rest else LPush (refused_event j) rest)
            | _ => m
            end
        | Some (Given w j) => set_worker m b w (Running j)
        end).

(** A step inside the queue of results.  A popped result is handled by the loop
    before it pops again. *)
(* src/src/hpserver.cpp:270-334 hpserver::drain_proxy_done_events *)
Definition inside_queue (a : sq_act) (m : server_threads) : option server_threads :=
  '(q, r) ← sq_step a (th_done m);
  let m := set_done m q in
  let s := th_srv m in
  Some (match r with
        | None => m
        | Some (0%nat, ans) =>
            match th_loop m, ans with
            | LPushing e rest, Pushed => set_loop (set_srv m (pushed_result s e) (th_timer m)) (LSignal rest)
            | LPopping rest, Popped None => set_loop m (LEvents rest)
            | LPopping rest, Popped (Some e) =>
                let '(s, t) := handle_done_event strerror
                  (set_work s (tail (proxy_done_queue_ s)) (jobs s), th_timer m) e in
                set_loop (set_srv m s t) (LPop rest)
            | _, _ => m
            end
        | Some (S k, _) =>
            let '(b, w) := worker_at k in
            match work_of m b w with
            | Pushing e => set_worker (set_srv m (pushed_result s e) (th_timer m)) b w ToSignal
            | _ => m
            end
        end).

Inductive thread_action :=
| TLoop
| TWait (ready : option (list io_event))
| TWork (tunnel : bool) (w : nat) (world : job_world)
| TPool (tunnel : bool) (a : tp_act (T := job))
| TQueue (a : sq_act (T := proxy_done_event)).

Definition thread_step (a : thread_action) (m : server_threads) : option server_threads :=
  match a with
  | TLoop => loop_step m
  | TWait ready => wait_step ready m
  | TWork b w world => work_step b w world m
  | TPool b a => inside_pool b a m
  | TQueue a => inside_queue a m
  end.

(** A schedule; a thread that cannot move is skipped. *)
Definition threads_exec (m : server_threads) (a : thread_action) : server_threads :=
  default m (thread_step a m).

End threads.
