(* ===== verification/ThreadsInvariant.v ===== *)
(** * ThreadsInvariant: the invariant of [ServerThreads]

    What holds between any two steps of any two threads: the loop's invariant of
    [ServerInvariant] on its state, every task submitted and not finished is in a
    pool or in the hands of one thread, the shared objects hold what the ghost
    fields say, and every waiting result has been, or is about to be, announced
    through the eventfd.  Every step keeps it, and while work is under way it
    lets some thread move. *)

From S2P Require Import Prelude Shared Sockets Llhttp HeaderFields HttpRequestParser.
From S2P Require Import IpFilter HttpConnectionIo HttpConn Timer Poller HttpProxy HpServer.
From S2P Require Import ServerInvariant ServerAnswers ServerProperties System ServerThreads.

Local Open Scope Z_scope.

Section threads_invariant.
Context `{L : Llhttp, Q : PriorityQueue, HO : HeaderOrder} (strerror : Z -> bytes).
Context `{DQ : !SharedQueue proxy_done_event, TP : !TaskPool job, EF : EventFd}.

(** ** What the handlers do to tasks and results *)

Definition same_work (s s' : hpserver) : Prop :=
  jobs s' = jobs s /\ proxy_done_queue_ s' = proxy_done_queue_ s.

#[local] Instance same_work_preorder : PreOrder same_work.
Proof. split; [done|]. intros ? ? ? [E1 E2] [E3 E4]. split; congruence. Qed.

Lemma fades_work s s' : fades s s' -> same_work s s'.
Proof. intros [H _ _ _]. unfold history in H. by simplify_eq. Qed.

Lemma handle_done_work s t e : same_work s (handle_done_event strerror (s, t) e).1.
Proof. destruct (handle_done_answers strerror s t e) as (ds & H & _). exact (fades_work _ _ H). Qed.

(** At most one task is submitted. *)
Definition more_work (s s' : hpserver) : Prop :=
  exists js, jobs s' = jobs s ++ js /\ (length js <= 1)%nat /\ proxy_done_queue_ s' = proxy_done_queue_ s.

Lemma same_more s s' : same_work s s' -> more_work s s'.
Proof. intros [E1 E2]. exists []. rewrite app_nil_r. split_and!; [done|simpl; lia|done]. Qed.

Lemma handle_ready_work s t e :
  more_work s (handle_event strerror (s, t) (until_verdict e)).1 \/ e = OnProxyEvent.
Proof.
  destruct e as [answers| |fd ev arrived acc]; [left|by right|left].
  - destruct (accept_opens s t answers) as (H & _ & _). apply same_more. unfold history in H. by simplify_eq.
  - destruct (client_event_asks strerror s t fd ev arrived true) as [H|(s1 & s2 & H1 & H2 & H3)];
      [by apply same_more, fades_work|].
    destruct H2 as (_ & _ & _ & _ & data & req & H2). apply fades_work in H1 as [E1 E2], H3 as [E3 E4].
    unfold history in H2. injection H2 as E5 E6 _ _. exists [mk_job fd req (gen_of s1 fd)].
    split_and!; [|done|].
    + cbn [until_verdict]. by rewrite E3, E5, E1.
    + cbn [until_verdict]. by rewrite E4, E6, E2, app_nil_r.
Qed.

(** ** Invariant *)

(** The filter the server is started with, and the sizes of the pools. *)
Variable blacklist : ip_filter.
Variable size : bool -> nat.

Definition pc_at (wk : gmap (bool * nat) work_pc) (b : bool) (w : nat) : work_pc :=
  default Idle (wk !! (b, w)).

(** The task or result a thread has in its hands. *)
Definition loop_job (pc : loop_pc) : option job :=
  match pc with
  | LTry j _ | LTrying j _ => Some j
  | LPush e _ | LPushing e _ => Some (d_job e)
  | _ => None
  end.
Definition work_job (pc : work_pc) : option job :=
  match pc with Running j => Some j | ToPush e | Pushing e => Some (d_job e) | _ => None end.
Definition work_jobs (wk : gmap (bool * nat) work_pc) : list job :=
  omap work_job (map_to_list wk).*2.
Definition loop_result (pc : loop_pc) : option proxy_done_event :=
  match pc with LPush e _ | LPushing e _ => Some e | _ => None end.
Definition work_result (pc : work_pc) : option proxy_done_event :=
  match pc with ToPush e | Pushing e => Some e | _ => None end.

(** The operation on the result queue a thread is inside of. *)
Definition loop_op (pc : loop_pc) : option (queue_op proxy_done_event) :=
  match pc with LPushing e _ => Some (OpPush e) | LPopping _ => Some OpPop | _ => None end.
Definition work_op (pc : work_pc) : option (queue_op proxy_done_event) :=
  match pc with Pushing e => Some (OpPush e) | _ => None end.
Definition op_at (pc : loop_pc) (wk : gmap (bool * nat) work_pc) (tid : nat)
  : option (queue_op proxy_done_event) :=
  match tid with
  | 0%nat => loop_op pc
  | S k => work_op (pc_at wk (worker_at k).1 (worker_at k).2)
  end.

(** The submission under way on a pool. *)
Definition loop_try (pc : loop_pc) (b : bool) : option job :=
  match pc with
  | LTrying j _ => if Bool.eqb (is_connect (j_req j)) b then Some j else None
  | _ => None
  end.

(** The loop will still read the eventfd, or pop results, in this turn. *)
Definition rest_of (pc : loop_pc) : list io_event :=
  match pc with
  | LTimeout | LWait => []
  | LEvents r | LTry _ r | LTrying _ r | LPush _ r | LPushing _ r | LSignal r
  | LRead r | LPop r | LPopping r => r
  end.
Definition will_read (pc : loop_pc) : Prop :=
  OnProxyEvent ∈ rest_of pc \/ match pc with LRead _ => True | _ => False end.
Definition will_drain (pc : loop_pc) : Prop :=
  OnProxyEvent ∈ rest_of pc \/ match pc with LRead _ | LPop _ | LPopping _ => True | _ => False end.

(** A thread has pushed a result and not yet written to the eventfd. *)
Definition will_signal (pc : loop_pc) (wk : gmap (bool * nat) work_pc) : Prop :=
  match pc with LSignal _ => True | _ => False end \/ exists b w, pc_at wk b w = ToSignal.

(** A result is what its task's calls answered. *)
Definition result_ok (e : proxy_done_event) : Prop :=
  exists ok response err, e = finish_job (d_job e) ok response err /\
    (ok = true -> served (j_req (d_job e)) (if is_connect (j_req (d_job e)) then [] else response)).

Definition queue_ok (q : sq) (results : list proxy_done_event) (pc : loop_pc)
    (wk : gmap (bool * nat) work_pc) : Prop :=
  exists P, sq_repr q results P /\ forall tid, P !! tid = op_at pc wk tid.

(** [wt b] are the tasks waiting in pool [b]. *)
Definition pools_ok (pools : bool -> tp) (wt : bool -> list job) (pc : loop_pc)
    (wk : gmap (bool * nat) work_pc) : Prop :=
  forall b, exists F, tp_repr (size b) (pools b) (wt b) (loop_try pc b) F /\
    forall w, w ∈ F <-> pc_at wk b w = Fetching.

Definition jobs_ok (js : list job) (wt : bool -> list job) (pc : loop_pc)
    (wk : gmap (bool * nat) work_pc) : Prop :=
  js ≡ₚ wt false ++ wt true ++ option_list (loop_job pc) ++ work_jobs wk.

Definition results_ok (pc : loop_pc) (wk : gmap (bool * nat) work_pc) : Prop :=
  (forall e, loop_result pc = Some e -> result_ok e) /\
  (forall b w e, work_result (pc_at wk b w) = Some e -> result_ok e).

(** A positive counter is announced by an edge or about to be read; a waiting
    result is about to be announced, announced, or about to be popped. *)
Definition signal_ok (f : efd) (results : list proxy_done_event) (pc : loop_pc)
    (wk : gmap (bool * nat) work_pc) : Prop :=
  (0 < efd_count f -> efd_edge f = true \/ will_read pc) /\
  (results <> [] -> will_signal pc wk \/ efd_ready f = true \/ will_drain pc).

Record threads_inv (m : server_threads) (wt : bool -> list job) : Prop := {
  ti_srv : srv_inv strerror served blacklist None (th_srv m) (entries_ (th_timer m)) [];
  ti_timer : timer_ok (th_timer m);
  ti_queue : queue_ok (th_done m) (proxy_done_queue_ (th_srv m)) (th_loop m) (th_work m);
  ti_pools : pools_ok (pool_of m) wt (th_loop m) (th_work m);
  ti_jobs : jobs_ok (jobs (th_srv m)) wt (th_loop m) (th_work m);
  ti_results : results_ok (th_loop m) (th_work m);
  ti_signal : signal_ok (th_efd m) (proxy_done_queue_ (th_srv m)) (th_loop m) (th_work m);
  ti_kept : kept (th_srv m) [];
}.

(** ** Lemmas *)

Lemma pc_at_insert wk b w pc b' w' :
  pc_at (<[(b, w) := pc]> wk) b' w' = if decide ((b', w') = (b, w)) then pc else pc_at wk b' w'.
Proof.
  unfold pc_at. case_decide as E; [rewrite E; by rewrite lookup_insert_eq|]. by rewrite lookup_insert_ne.
Qed.

Lemma worker_at_tid b w : worker_at (2 * w + Nat.b2n b) = (b, w).
Proof.
  unfold worker_at. rewrite Nat.add_comm, Nat.odd_add_mul_2, Nat.div2_div, Nat.add_comm.
  rewrite Nat.mul_comm, Nat.div_add_l by done. destruct b; simpl; f_equal; lia.
Qed.

Lemma worker_at_inj k k' : worker_at k = worker_at k' -> k = k'.
Proof.
  unfold worker_at. intros [= E1 E2]. rewrite (Nat.div2_odd k), (Nat.div2_odd k'). congruence.
Qed.

Lemma op_at_insert pc wk b w x tid :
  op_at pc (<[(b, w) := x]> wk) tid = if decide (tid = tid_of b w) then work_op x else op_at pc wk tid.
Proof.
  destruct tid as [|k]; [by rewrite decide_False|]. simpl. rewrite pc_at_insert.
  change (Nat.odd k, Nat.div2 k) with (worker_at k). rewrite <- (worker_at_tid b w).
  destruct (decide (S k = tid_of b w)) as [[= ->]|Hne]; [by rewrite decide_True|].
  rewrite decide_False; [done|]. intros E%worker_at_inj. by subst k.
Qed.

Lemma op_at_tid pc wk b w : op_at pc wk (tid_of b w) = work_op (pc_at wk b w).
Proof. unfold tid_of. cbn [op_at]. by rewrite worker_at_tid. Qed.

(** The jobs in the hands of the workers, when one of them moves. *)
Lemma work_jobs_insert wk b w x :
  option_list (work_job x) ++ work_jobs wk ≡ₚ
  option_list (work_job (pc_at wk b w)) ++ work_jobs (<[(b, w) := x]> wk).
Proof.
  unfold work_jobs, pc_at. rewrite <- (insert_delete_eq wk). destruct (wk !! (b, w)) as [y|] eqn:E; simpl.
  - assert (map_to_list wk ≡ₚ ((b, w), y) :: map_to_list (delete (b, w) wk)) as ->.
    { rewrite <- map_to_list_insert by apply lookup_delete_eq. by rewrite insert_delete_id. }
    rewrite map_to_list_insert by apply lookup_delete_eq. simpl. destruct (work_job x), (work_job y); simpl; solve_Permutation.
  - rewrite delete_id, map_to_list_insert by done. simpl. by destruct (work_job x).
Qed.

Lemma queue_work q r pc wk b w x :
  queue_ok q r pc wk -> work_op x = work_op (pc_at wk b w) -> queue_ok q r pc (<[(b, w) := x]> wk).
Proof.
  intros (P & Hq & HP) Hx. exists P. split; [done|]. intros tid. rewrite op_at_insert, HP.
  case_decide as E; [|done]. subst tid. by rewrite op_at_tid.
Qed.

Lemma pools_work pools wt pc wk b w x :
  pools_ok pools wt pc wk -> x <> Fetching -> pc_at wk b w <> Fetching ->
  pools_ok pools wt pc (<[(b, w) := x]> wk).
Proof.
  intros H Hx Hn b'. destruct (H b') as (F & Hp & HF). exists F. split; [done|]. intros w'.
  rewrite HF, pc_at_insert. case_decide as E; [|done]. simplify_eq. done.
Qed.

Lemma jobs_work js wt pc wk b w x :
  jobs_ok js wt pc wk -> work_job x = work_job (pc_at wk b w) -> jobs_ok js wt pc (<[(b, w) := x]> wk).
Proof.
  unfold jobs_ok. intros -> Hx. pose proof (work_jobs_insert wk b w x) as Hp. rewrite Hx in Hp.
  apply Permutation_app_inv_l in Hp. by rewrite Hp.
Qed.

Lemma results_work pc wk b w x :
  results_ok pc wk -> (forall e, work_result x = Some e -> result_ok e) ->
  results_ok pc (<[(b, w) := x]> wk).
Proof.
  intros [H1 H2] Hx. split; [done|]. intros b' w' e. rewrite pc_at_insert. case_decide; [apply Hx|apply H2].
Qed.

Lemma signal_work f r pc wk b w x :
  signal_ok f r pc wk -> pc_at wk b w <> ToSignal -> signal_ok f r pc (<[(b, w) := x]> wk).
Proof.
  intros [H1 H2] Hn. split; [done|]. intros Hr. destruct (H2 Hr) as [[Hl|(b' & w' & Hs)]|H]; [by left; left| |by right].
  left. right. exists b', w'. rewrite pc_at_insert, decide_False; [done|]. congruence.
Qed.

(** A write to the eventfd announces every result. *)
Lemma signal_written f r pc wk :
  (0 < efd_count f -> efd_edge f = true \/ will_read pc) -> signal_ok (efd_write f) r pc wk.
Proof.
  intros H1. pose proof (efd_write_pos f) as Hp. unfold signal_ok, efd_ready.
  rewrite (proj2 (Z.ltb_lt _ _) Hp), andb_true_r.
  assert (efd_edge (efd_write f) = true \/ will_read pc) as He.
  { destruct (efd_write_edge f) as [|[-> Hc]]; [by left|by apply H1]. }
  split; [done|]. intros _. destruct He as [|He]; [by right; left|]. right. right.
  destruct He as [He|He]; [by left|]. right. by destruct pc.
Qed.

Lemma queue_begin q r pc wk pc' wk' tid op q' :
  queue_ok q r pc wk -> op_at pc wk tid = None -> sq_begin tid op q = Some q' ->
  (forall t, op_at pc' wk' t = if decide (t = tid) then Some op else op_at pc wk t) ->
  queue_ok q' r pc' wk'.
Proof.
  intros (P & Hq & HP) Hn Hb Hop. exists (<[tid := op]> P). split.
  - eapply sq_begin_repr; [done|by rewrite HP|done].
  - intros t. rewrite Hop. case_decide as E; [rewrite E; apply lookup_insert_eq|].
    rewrite lookup_insert_ne by done. apply HP.
Qed.

(** A result takes the place of its task. *)
Lemma pushed_inv s es e :
  srv_inv strerror served blacklist None s es [] -> d_job e ∈ jobs s -> result_ok e ->
  srv_inv strerror served blacklist None (pushed_result s e) es [] /\
  (kept s [] -> kept (pushed_result s e) []) /\
  jobs s ≡ₚ d_job e :: jobs (pushed_result s e).
Proof.
  intros Hi Hin (ok & resp & err & He & Hans).
  destruct (list_find_elem_of (fun j => j = d_job e) (jobs s) (d_job e)) as [[i j] Hf]; [done|done|].
  unfold pushed_result. rewrite Hf. apply list_find_Some in Hf as (Hj & -> & _). split_and!.
  - rewrite He at 1. by apply job_done_inv.
  - intros HK. rewrite He at 1. by apply kept_job_done.
  - simpl. by apply delete_Permutation.
Qed.

Lemma refused_ok j : result_ok (refused_event j).
Proof.
  exists false, [], EAGAIN. split; [|done]. unfold refused_event, finish_job. simpl. by destruct (is_connect (j_req j)).
Qed.

(** The first result leaves the queue. *)
Lemma popped_inv s es e q :
  srv_inv strerror served blacklist None s es [] -> proxy_done_queue_ s = e :: q ->
  srv_inv strerror served blacklist None (set_work s q (jobs s)) es [e].
Proof.
  intros [H1 H2 H3 H4 H5 H6 H7 H8 H9 H10 H11 H12 H13 HF HP HA H14] Hq.
  constructor; try done; simpl; unfold isolated, works in *; simpl in *; by rewrite Hq in *.
Qed.

(** ** Every step keeps the invariant *)

(** The loop's state changes, its tasks and results do not. *)
Lemma quiet_loop m wt s t pc :
  threads_inv m wt -> srv_inv strerror served blacklist None s (entries_ t) [] -> timer_ok t ->
  fades (th_srv m) s ->
  loop_op pc = loop_op (th_loop m) -> loop_try pc = loop_try (th_loop m) -> loop_job pc = loop_job (th_loop m) ->
  loop_result pc = loop_result (th_loop m) ->
  signal_ok (th_efd m) (proxy_done_queue_ (th_srv m)) pc (th_work m) ->
  threads_inv (set_loop (set_srv m s t) pc) wt.
Proof.
  intros [H1 H2 H3 H4 H5 H6 H7 HK] Hi Ht Hf Eo Et Ej Er Hs. pose proof (fades_work _ _ Hf) as [E1 E2].
  constructor; simpl; unfold queue_ok, pools_ok, jobs_ok, results_ok, op_at in *; rewrite ?E1, ?E2, ?Et, ?Ej, ?Er; try done.
  - destruct H3 as (P & Hq & HP). exists P. split; [done|]. intros tid. rewrite HP. by destruct tid.
  - by eapply kept_fades.
Qed.

Lemma handle_ready_inv m wt e rest :
  threads_inv m wt -> th_loop m = LEvents (e :: rest) -> e <> OnProxyEvent ->
  threads_inv (handle_ready strerror m e rest) wt.
Proof.
  intros Hi Hpc He. unfold handle_ready. pose proof Hi as [H1 H2 H3 H4 H5 H6 H7 HK].
  pose proof (handle_events_inv strerror served blacklist (th_srv m) (th_timer m) [until_verdict e] H1 H2) as Hh.
  pose proof (kept_event strerror served blacklist (th_srv m) (th_timer m) (until_verdict e) H1 H2 HK) as HK'.
  cbn [foldl] in Hh. destruct (handle_ready_work (th_srv m) (th_timer m) e) as [Hw|]; [|done].
  destruct (handle_event strerror (th_srv m, th_timer m) (until_verdict e)) as [s t]. destruct Hh as [Hi' Ht'].
  destruct Hw as (js & Ej & Hl & Eq). simpl in Ej, Eq. rewrite Ej, drop_app_length.
  rewrite Hpc in H3, H4, H5, H6, H7.
  assert (forall pc, rest_of pc = rest -> will_read pc <-> OnProxyEvent ∈ rest \/ match pc with LRead _ => True | _ => False end) as Hwr.
  { intros pc Hr. unfold will_read. by rewrite Hr. }
  assert (forall pc, rest_of pc = rest -> (forall r, pc <> LRead r) ->
    signal_ok (th_efd m) (proxy_done_queue_ s) pc (th_work m)) as Hsig.
  { intros pc Hr Hn. rewrite Eq. destruct H7 as [S1 S2]. unfold signal_ok, will_read, will_drain in *. rewrite Hr in *.
    simpl in S1, S2. split.
    - intros Hc. destruct (S1 Hc) as [?|[Hp|[]]]; [by left|]. right. left.
      apply elem_of_cons in Hp as [<-|]; done.
    - intros Hc. destruct (S2 Hc) as [[[]|Hp]|[?|[Hp|[]]]]; [by left; right|by right; left|]. right. right. left.
      apply elem_of_cons in Hp as [<-|]; done. }
  clear Hwr. destruct js as [|j js]; constructor; simpl; rewrite ?Eq; try done.
  - unfold jobs_ok in *. by rewrite Ej, app_nil_r.
  - rewrite <- Eq. by apply Hsig.
  - unfold jobs_ok in *. rewrite Ej, H5. destruct js; [|simpl in Hl; lia]. simpl. solve_Permutation.
  - rewrite <- Eq. by apply Hsig.
Qed.

(** A pool changes; the other does not. *)
Lemma pools_update pools wt pc wk b p q o F pc' wk' wt' :
  pools_ok pools wt pc wk -> tp_repr (size b) p q o F ->
  loop_try pc' b = o -> wt' b = q -> (forall w, w ∈ F <-> pc_at wk' b w = Fetching) ->
  (forall w, pc_at wk' (negb b) w = Fetching <-> pc_at wk (negb b) w = Fetching) ->
  loop_try pc' (negb b) = loop_try pc (negb b) -> wt' (negb b) = wt (negb b) ->
  pools_ok (fun b' => if Bool.eqb b' b then p else pools b') wt' pc' wk'.
Proof.
  intros H Hp Ho Hq HF Hwk Hl Hw b'. destruct (Bool.eqb b' b) eqn:E.
  - apply eqb_prop in E as ->. exists F. by rewrite Ho, Hq.
  - apply eqb_false_iff in E. assert (b' = negb b) as -> by (by destruct b', b).
    destruct (H (negb b)) as (F' & Hp' & HF'). exists F'. rewrite Hl, Hw. split; [done|].
    intros w. by rewrite HF', Hwk.
Qed.

Lemma pool_of_set m b p :
  forall b', pool_of (set_pool m b p) b' = if Bool.eqb b' b then p else pool_of m b'.
Proof. by intros []; destruct b. Qed.

Lemma pools_ext pools pools' wt pc wk :
  (forall b, pools b = pools' b) -> pools_ok pools wt pc wk -> pools_ok pools' wt pc wk.
Proof. intros E H b. destruct (H b) as (F & Hp & HF). exists F. by rewrite <- E. Qed.

Lemma loop_step_inv m wt m' :
  threads_inv m wt -> loop_step strerror m = Some m' -> threads_inv m' wt.
Proof.
  intros Hi Hs. pose proof Hi as [H1 H2 H3 H4 H5 H6 H7 HK]. unfold loop_step in Hs.
  destruct (th_loop m) as [| |rest|j rest|j rest|e rest|e rest|rest|rest|rest|rest] eqn:Epc; try done.
  - destruct (next_timeout_inv strerror served blacklist _ _ H1 H2) as (r & fs & s' & t' & E & Hi' & Ht').
    rewrite E in Hs. simplify_eq/=. apply quiet_loop; rewrite ?Epc; try done. by eapply next_timeout_fades.
  - destruct rest as [|e rest].
    { destruct (tick_inv strerror served blacklist _ _ H1 H2) as (fs & s' & t' & E & Hi' & Ht' & _).
      rewrite E in Hs. simplify_eq/=. apply quiet_loop; rewrite ?Epc; try done. by eapply tick_fades. }
    destruct (decide (is_proxy_event e = true)) as [Hp|Hp].
    + destruct e; try done. simplify_eq/=. constructor; try done. simpl. destruct H7 as [S1 S2].
      split; intros; right; [|right]; by right.
    + assert (m' = handle_ready strerror m e rest) as -> by (by destruct e; simplify_eq). by apply handle_ready_inv; [|done|intros ->].
  - destruct (tp_submit j _) as [p|] eqn:E; simplify_eq/=. constructor; try done; simpl.
    destruct (H4 (is_connect (j_req j))) as (F & Hp & HF).
    eapply pools_ext; [intros b; symmetry; apply pool_of_set|].
    eapply pools_update; [exact H4|by eapply tp_submit_repr|..]; try done; simpl; [by rewrite eqb_reflx|].
    by destruct (is_connect (j_req j)).
  - destruct (sq_begin 0 (OpPush e) _) as [q|] eqn:E; simplify_eq/=. constructor; try done; simpl.
    eapply (queue_begin _ _ _ _ _ _ 0); [exact H3|done|exact E|]. intros []; by case_decide.
  - simplify_eq/=. constructor; try done; simpl. apply signal_written, H7.
  - destruct (efd_read (th_efd m)) as [n f] eqn:Er. pose proof (efd_nonneg (th_efd m)).
    assert (efd_count f = 0 /\ (0 <? n) = (0 <? efd_count (th_efd m))) as [Hf Hn].
    { destruct (decide (efd_count (th_efd m) = 0)) as [E0|E0].
      - rewrite (efd_read_empty _ E0) in Er. simplify_eq. split; [done|]. by rewrite E0.
      - destruct (efd_read_ok (th_efd m)) as [R1 R2]; [lia|]. rewrite Er in R1, R2. simpl in *. subst n.
        split; [done|]. symmetry. apply Z.ltb_lt. lia. }
    simplify_eq/=. destruct (0 <? n); (constructor; try done; simpl; split; [lia|]; intros; right; right; by right).
  - destruct (sq_begin 0 OpPop _) as [q|] eqn:E; simplify_eq/=. constructor; try done; simpl.
    eapply (queue_begin _ _ _ _ _ _ 0); [exact H3|done|exact E|]. intros []; by case_decide.
Qed.

Lemma wait_step_inv ready m wt m' :
  threads_inv m wt -> wait_step ready m = Some m' -> threads_inv m' wt.
Proof.
  intros Hi Hs. pose proof Hi as [H1 H2 H3 H4 H5 H6 H7 HK]. unfold wait_step in Hs.
  destruct (th_loop m) eqn:Epc; try done. destruct H7 as [S1 S2]. unfold will_read, will_drain in *. simpl in S1, S2.
  destruct ready as [evs|]; [|by simplify_eq; constructor; try done; rewrite Epc in *].
  assert (OnProxyEvent ∉ (@nil io_event)) as Hnil by (by intros ?%elem_of_nil).
  destruct (existsb is_proxy_event evs) eqn:Ex.
  - destruct (efd_ready (th_efd m)) eqn:Er; [|done]. simplify_eq/=. constructor; try done; simpl.
    apply existsb_exists in Ex as (e & Hin & He). apply list_elem_of_In in Hin. destruct e; try done.
    split; intros; right; [|right]; by left.
  - simplify_eq/=. constructor; try done; simpl. split.
    + intros Hc. destruct (S1 Hc) as [?|[?|[]]]; [by left|done].
    + intros Hc. destruct (S2 Hc) as [[[]|Hw]|[?|[?|[]]]]; [by left; right|by right; left|done].
Qed.

(** The signal a worker owes is the only one that can be lost when it moves. *)
Lemma work_step_inv b w world m wt m' :
  threads_inv m wt -> action_ok (SWork 0 world) -> work_step b w world m = Some m' -> threads_inv m' wt.
Proof.
  intros Hi Ha Hs. pose proof Hi as [H1 H2 H3 H4 H5 H6 H7 HK]. unfold work_step, work_of in Hs.
  change (default Idle (th_work m !! (b, w))) with (pc_at (th_work m) b w) in Hs.
  destruct (pc_at (th_work m) b w) as [| |j|e|e|] eqn:Epc; try done.
  - destruct (tp_fetch w (pool_of m b)) as [p|] eqn:E; simplify_eq/=.
    destruct (H4 b) as (F & Hp & HF). destruct (tp_fetch_repr _ _ _ _ _ _ _ Hp E) as (Hw & _ & Hp').
    constructor; try done; simpl.
    + apply queue_work; [done|by rewrite Epc].
    + eapply pools_ext; [intros b'; symmetry; apply pool_of_set|].
      eapply pools_update; [exact H4|exact Hp'|..]; try done.
      * intros w'. rewrite pc_at_insert, elem_of_union, elem_of_singleton, HF.
        case_decide as Ed; [simplify_eq; tauto|]. split; [intros [->|]; [done|done]|by right].
      * intros w'. rewrite pc_at_insert, decide_False; [done|]. by destruct b.
    + apply jobs_work; [done|by rewrite Epc].
    + by apply results_work.
    + apply signal_work; [done|by rewrite Epc].
  - destruct (run_job_served j world Ha) as (ok & response & err & E & Hok). rewrite E in Hs. simplify_eq/=.
    constructor; try done; simpl.
    + apply queue_work; [done|by rewrite Epc].
    + eapply pools_ext; [intros b'; done|]. apply pools_work; [exact H4|done|by rewrite Epc].
    + apply jobs_work; [done|by rewrite Epc].
    + apply results_work; [done|]. intros e [= <-]. exists ok, response, err. split; [done|]. exact Hok.
    + apply signal_work; [done|by rewrite Epc].
  - destruct (sq_begin (tid_of b w) (OpPush e) (th_done m)) as [q|] eqn:E; simplify_eq/=.
    constructor; try done; simpl.
    + eapply (queue_begin _ _ (th_loop m) _ _ _ (tid_of b w)); [exact H3|by rewrite op_at_tid, Epc|exact E|].
      intros tid. apply op_at_insert.
    + apply pools_work; [exact H4|done|by rewrite Epc].
    + apply jobs_work; [done|by rewrite Epc].
    + apply results_work; [done|]. intros e' [= <-]. apply (proj2 H6 b w). by rewrite Epc.
    + apply signal_work; [done|by rewrite Epc].
  - simplify_eq/=. constructor; try done; simpl.
    + apply queue_work; [done|by rewrite Epc].
    + apply pools_work; [exact H4|done|by rewrite Epc].
    + apply jobs_work; [done|by rewrite Epc].
    + by apply results_work.
    + apply signal_written, H7.
Qed.

Definition waiting_at (wt : bool -> list job) (b : bool) (q : list job) : bool -> list job :=
  fun b' => if Bool.eqb b' b then q else wt b'.

Lemma jobs_waiting js wt b q pc wk pc' wk' :
  jobs_ok js wt pc wk ->
  wt b ++ option_list (loop_job pc) ++ work_jobs wk ≡ₚ q ++ option_list (loop_job pc') ++ work_jobs wk' ->
  jobs_ok js (waiting_at wt b q) pc' wk'.
Proof.
  unfold jobs_ok, waiting_at. intros -> Hq. destruct b; simpl; [by rewrite Hq|].
  rewrite (Permutation_app_swap_app _ (wt true)), Hq. apply Permutation_app_swap_app.
Qed.

Lemma inside_pool_inv b a m wt m' :
  threads_inv m wt -> inside_pool b a m = Some m' -> exists wt', threads_inv m' wt'.
Proof.
  intros Hi Hs. pose proof Hi as [H1 H2 H3 H4 H5 H6 H7 HK]. unfold inside_pool in Hs.
  destruct (tp_step a (pool_of m b)) as [[p r]|] eqn:E; simplify_eq/=.
  destruct (H4 b) as (F & Hp & HF). pose proof (tp_step_repr _ _ _ _ _ _ _ _ Hp E) as Hr.
  assert (forall q o F' pc' wk', tp_repr (size b) p q o F' -> loop_try pc' b = o ->
    (forall w, w ∈ F' <-> pc_at wk' b w = Fetching) ->
    (forall w, pc_at wk' (negb b) w = Fetching <-> pc_at (th_work m) (negb b) w = Fetching) ->
    loop_try pc' (negb b) = loop_try (th_loop m) (negb b) ->
    pools_ok (pool_of (set_pool m b p)) (waiting_at wt b q) pc' wk') as Hpools.
  { intros q o F' pc' wk' ? ? ? ? ?. eapply pools_ext; [intros b'; symmetry; apply pool_of_set|].
    eapply pools_update; try done; unfold waiting_at; [by rewrite eqb_reflx|by destruct b]. }
  destruct r as [[acc|w x]|].
  - destruct Hr as (x & Ho & Hr). unfold loop_try in Ho.
    destruct (th_loop m) as [| | | |j rest| | | | | |] eqn:Epc; try done.
    destruct (Bool.eqb _ b) eqn:Eb; simplify_eq. apply eqb_prop in Eb.
    assert (loop_try (LTrying x rest) (negb b) = None) as Hneg by (simpl; rewrite Eb; by destruct b).
    exists (waiting_at wt b (if acc then wt b ++ [x] else wt b)).
    destruct acc; (constructor; try done; simpl; [|..]).
    + eapply Hpools; [exact Hr|..]; try done.
    + eapply jobs_waiting; [exact H5|]. simpl. solve_Permutation.
    + eapply Hpools; [exact Hr|..]; try done.
    + by eapply jobs_waiting; [exact H5|].
    + split; [|apply H6]. intros e [= <-]. apply refused_ok.
  - destruct Hr as (Hw & q' & Hq & Hr). rewrite HF in Hw. exists (waiting_at wt b q').
    constructor; try done; simpl.
    + apply queue_work; [done|by rewrite Hw].
    + eapply (pools_ext (pool_of (set_pool m b p))); [done|].
      eapply Hpools; [exact Hr|done|..|done].
      * intros w'. rewrite pc_at_insert, elem_of_difference, elem_of_singleton, HF.
        case_decide as Ed; [simplify_eq; naive_solver|]. split; [by intros []|].
        intros Hf. split; [done|]. intros ->. done.
      * intros w'. rewrite pc_at_insert, decide_False; [done|]. by destruct b.
    + eapply jobs_waiting; [exact H5|]. pose proof (work_jobs_insert (th_work m) b w (Running x)) as Hj.
      rewrite Hw in Hj. simpl in Hj. rewrite Hq, <- Hj. solve_Permutation.
    + by apply results_work.
    + apply signal_work; [done|by rewrite Hw].
  - exists wt. constructor; try done; simpl. eapply pools_ext; [intros b'; symmetry; apply pool_of_set|].
    by eapply pools_update.
Qed.

(** The result a thread has pushed. *)
Lemma push_answered m wt e :
  threads_inv m wt -> d_job e ∈ jobs (th_srv m) -> result_ok e ->
  srv_inv strerror served blacklist None (pushed_result (th_srv m) e) (entries_ (th_timer m)) [] /\
  kept (pushed_result (th_srv m) e) [] /\
  jobs (th_srv m) ≡ₚ d_job e :: jobs (pushed_result (th_srv m) e) /\
  proxy_done_queue_ (pushed_result (th_srv m) e) = proxy_done_queue_ (th_srv m) ++ [e].
Proof.
  intros Hi Hin Hok. destruct (pushed_inv _ _ e (ti_srv _ _ Hi) Hin Hok) as (? & Hk & ?).
  split_and!; [done|exact (Hk (ti_kept _ _ Hi))|done|done].
Qed.

(** An operation has been answered: its thread is no longer inside. *)
Lemma queue_answered q' r' pc wk pc' wk' tid (P : gmap nat (queue_op proxy_done_event)) :
  (forall t, P !! t = op_at pc wk t) -> sq_repr q' r' (delete tid P) ->
  (forall t, op_at pc' wk' t = if decide (t = tid) then None else op_at pc wk t) ->
  queue_ok q' r' pc' wk'.
Proof.
  intros HP Hq Hop. exists (delete tid P). split; [done|]. intros t. rewrite Hop.
  case_decide as E; [rewrite E; apply lookup_delete_eq|]. rewrite lookup_delete_ne by done. apply HP.
Qed.

#[local] Arguments handle_done_event : simpl never.

Lemma inside_queue_inv a m wt m' :
  threads_inv m wt -> inside_queue strerror a m = Some m' -> threads_inv m' wt.
Proof.
  intros Hi Hs. pose proof Hi as [H1 H2 H3 H4 H5 H6 H7 HK]. unfold inside_queue in Hs.
  destruct (sq_step a (th_done m)) as [[q r]|] eqn:E; [|done]. cbn [mbind option_bind] in Hs. injection Hs as <-.
  destruct H3 as (P & Hq & HP). pose proof (sq_step_repr _ _ _ _ _ _ Hq E) as Hr.
  destruct r as [[tid ans]|]; [|constructor; try done; simpl; by exists P].
  destruct Hr as (op & q' & Hop & Hf & Hr). rewrite HP in Hop. destruct tid as [|k].
  - simpl in Hop. destruct (th_loop m) as [| | | | | |e rest| | | |rest] eqn:Epc; try done; simplify_eq/=.
    + destruct (push_answered m wt e Hi) as (Hi' & HK' & Hj & Hd).
      { rewrite H5, !elem_of_app. right. right. left. left. }
      { by apply H6. }
      constructor; try done; simpl; rewrite ?Hd.
      * eapply (queue_answered _ _ (LPushing e rest) _ _ _ 0); [exact HP|exact Hr|]. by intros []; case_decide.
      * unfold jobs_ok in *. rewrite Hj in H5. simpl in H5 |- *.
        apply (Permutation_app_inv_l [d_job e]). simpl. rewrite H5. solve_Permutation.
      * by split; [|apply H6].
      * split; [apply H7|]. intros _. by left; left.
    + destruct (proxy_done_queue_ (th_srv m)) as [|e res] eqn:Eres; simplify_eq/=.
      * constructor; try done; simpl; rewrite ?Eres.
        -- eapply (queue_answered _ _ (LPopping rest) _ _ _ 0); [exact HP|exact Hr|]. by intros []; case_decide.
        -- split; [apply H7|done].
      * pose proof (handle_done_inv strerror served blacklist _ (th_timer m) e []
          (popped_inv _ _ _ _ H1 Eres) H2) as Hh.
        pose proof (kept_done strerror served blacklist _ (th_timer m) _ e []
          (popped_inv _ _ _ _ H1 Eres) (kept_pop strerror served blacklist _ _ _ _ H1 HK Eres)) as HK'.
        pose proof (handle_done_work (set_work (th_srv m) q' (jobs (th_srv m))) (th_timer m) e) as [Ej Eq].
        destruct (handle_done_event strerror _ e) as [s t]. destruct Hh as [Hi' Ht']. simpl in Ej, Eq.
        constructor; try done; simpl; rewrite ?Ej, ?Eq; try done.
        -- eapply (queue_answered _ _ (LPopping rest) _ _ _ 0); [exact HP|exact Hr|]. by intros []; case_decide.
        -- split; [apply H7|]. intros _. right. right. by right.
  - simpl in Hop.
    assert (S k = tid_of (Nat.odd k) (Nat.div2 k)) as Ht by (unfold tid_of; by rewrite <- Nat.div2_odd).
    set (b := Nat.odd k) in *. set (w := Nat.div2 k) in *. clearbody b w. cbn beta iota zeta.
    change (work_of (set_done m q) b w) with (pc_at (th_work m) b w).
    destruct (pc_at (th_work m) b w) as [| | | |e|] eqn:Epc; simplify_eq/=.
    destruct (push_answered m wt e Hi) as (Hi' & HK' & Hj & Hd).
    { pose proof (work_jobs_insert (th_work m) b w Idle) as Hw. rewrite Epc in Hw. simpl in Hw.
      rewrite H5, Hw, !elem_of_app. right. right. right. left. }
    { apply (proj2 H6 b w). by rewrite Epc. }
    constructor; try done; simpl; rewrite ?Hd.
    + eapply (queue_answered _ _ (th_loop m) (th_work m) _ _ (tid_of b w)); [exact HP|by rewrite <- Ht|].
      intros t. apply op_at_insert.
    + apply pools_work; [exact H4|done|by rewrite Epc].
    + unfold jobs_ok in *. pose proof (work_jobs_insert (th_work m) b w ToSignal) as Hw. rewrite Epc in Hw. simpl in Hw.
      rewrite Hj, Hw in H5. apply (Permutation_app_inv_l [d_job e]). simpl. rewrite H5. solve_Permutation.
    + by apply results_work.
    + split; [apply H7|]. intros _. left. right. exists b, w. rewrite pc_at_insert. by rewrite decide_True.
Qed.

Definition thread_ok (a : thread_action) : Prop :=
  match a with TWork _ _ world => action_ok (SWork 0 world) | _ => True end.

Lemma thread_step_inv a m wt m' :
  threads_inv m wt -> thread_ok a -> thread_step strerror a m = Some m' -> exists wt', threads_inv m' wt'.
Proof.
  intros Hi Ha Hs. destruct a as [|ready|b w world|b a|a]; simpl in Hs.
  - exists wt. by eapply loop_step_inv.
  - exists wt. by eapply wait_step_inv.
  - exists wt. by eapply work_step_inv.
  - by eapply inside_pool_inv.
  - exists wt. by eapply inside_queue_inv.
Qed.

Lemma threads_run_inv acts m wt :
  threads_inv m wt -> Forall thread_ok acts -> exists wt', threads_inv (foldl (threads_exec strerror) m acts) wt'.
Proof.
  intros Hi Ha. revert m wt Hi. induction Ha as [|a acts Ha _ IH]; intros m wt Hi; cbn [foldl]; [eauto|].
  unfold threads_exec at 2. destruct (thread_step strerror a m) as [m'|] eqn:E; simpl; [|by eapply IH].
  destruct (thread_step_inv a m wt m' Hi Ha E) as [wt' Hi']. by eapply IH.
Qed.

Lemma threads_init_inv cfg s :
  srv_inv strerror served blacklist None s (entries_ timer_new) [] -> kept s [] -> jobs s = [] -> proxy_done_queue_ s = [] ->
  (forall b, size b = Z.to_nat (if b then tunnel_worker_count_ cfg else proxy_worker_count_ cfg)) ->
  threads_inv (threads_init cfg s) (fun _ => []).
Proof.
  intros Hi Hk Hj Hd Hn. constructor; simpl; rewrite ?Hj, ?Hd; try done.
  - exists ∅. split; [apply sq_new_repr|]. intros [|k]; [done|]. unfold op_at, pc_at. by rewrite lookup_empty.
  - intros b. exists ∅. split; [rewrite Hn; destruct b; apply tp_new_repr|].
    intros w. unfold pc_at. rewrite lookup_empty. by split; [intros ?%elem_of_empty|].
  - unfold jobs_ok, work_jobs. by rewrite map_to_list_empty.
  - split; [rewrite efd_new_count; lia|done].
Qed.

(** ** Progress *)

(** Moves that need nothing from outside: everything but a return of
    [epoll_wait], except with the eventfd alone, and a spurious wake-up. *)
Definition inner (a : thread_action) : Prop :=
  match a with TWait r => r = Some [OnProxyEvent] | TPool _ a => tp_inner a | _ => True end.

Definition can_move (m : server_threads) : Prop :=
  exists a, inner a /\ thread_ok a /\ is_Some (thread_step strerror a m).

Lemma queue_moves m a : is_Some (sq_step a (th_done m)) -> can_move m.
Proof.
  intros [[q r] E]. exists (TQueue a). split_and!; [done|done|]. simpl. unfold inside_queue. rewrite E. by eexists.
Qed.

Lemma pool_moves m b a : tp_inner a -> is_Some (tp_step a (pool_of m b)) -> can_move m.
Proof.
  intros Hin [[p r] E]. exists (TPool b a). split_and!; [done|done|]. simpl. unfold inside_pool. rewrite E. by eexists.
Qed.

(** A thread inside the queue, or that cannot get in, waits for one that moves. *)
Lemma queue_live m wt tid op :
  threads_inv m wt -> op_at (th_loop m) (th_work m) tid = Some op \/ sq_begin tid op (th_done m) = None ->
  can_move m.
Proof.
  intros Hi Hop. destruct (ti_queue _ _ Hi) as (P & Hq & HP).
  destruct (sq_live _ _ _ tid op Hq) as [a Ha]; [by rewrite HP|]. by eapply queue_moves.
Qed.

Lemma loop_live m wt : threads_inv m wt -> th_loop m <> LWait -> can_move m.
Proof.
  intros Hi Hn. assert (is_Some (loop_step strerror m) -> can_move m) as Hl by (intros H; by exists TLoop).
  pose proof Hi as [H1 H2 H3 H4 H5 H6 H7 HK]. unfold loop_step in Hl.
  assert (forall j o, (forall b, loop_try (th_loop m) b = if Bool.eqb (is_connect (j_req j)) b then o else None) ->
    is_Some o \/ tp_submit j (pool_of m (is_connect (j_req j))) = None -> can_move m) as Hpool.
  { intros j o Ho Hb. destruct (H4 (is_connect (j_req j))) as (F & Hp & _). rewrite Ho, eqb_reflx in Hp.
    destruct (tp_live _ _ _ _ _ j Hp Hb) as (a & Hin & Ha). by eapply pool_moves. }
  destruct (th_loop m) as [| |rest|j rest|j rest|e rest|e rest|rest|rest|rest|rest] eqn:Epc; try done.
  - apply Hl. destruct (next_timeout_inv strerror served blacklist _ _ H1 H2) as (r & fs & s' & t' & -> & _). by eexists.
  - apply Hl. destruct rest as [|[] rest]; try (by eexists).
    destruct (tick_inv strerror served blacklist _ _ H1 H2) as (fs & s' & t' & -> & _). by eexists.
  - destruct (tp_submit j _) eqn:E; [apply Hl; by eexists|]. apply (Hpool j None); [by intros b; destruct (Bool.eqb _ _)|by right].
  - apply (Hpool j (Some j)); [done|by left].
  - destruct (sq_begin 0 (OpPush e) _) eqn:E; [apply Hl; by eexists|]. eapply (queue_live m wt 0); [done|by right].
  - eapply (queue_live m wt 0); [done|left; by rewrite Epc].
  - apply Hl. by eexists.
  - apply Hl. destruct (efd_read _). by eexists.
  - destruct (sq_begin 0 OpPop _) eqn:E; [apply Hl; by eexists|]. eapply (queue_live m wt 0); [done|by right].
  - eapply (queue_live m wt 0); [done|left; by rewrite Epc].
Qed.

(** A task meets some network. *)
Variable world : job_world.
Hypothesis world_ok : action_ok (SWork 0 world).

Lemma worker_live m wt b w :
  threads_inv m wt -> (pc_at (th_work m) b w = Idle -> (w < size b)%nat) ->
  pc_at (th_work m) b w <> Fetching -> can_move m.
Proof.
  intros Hi Hw Hn.
  assert (is_Some (work_step b w world m) -> can_move m) as Hl by (intros H; by exists (TWork b w world)).
  unfold work_step in Hl. change (work_of m b w) with (pc_at (th_work m) b w) in Hl.
  destruct (pc_at (th_work m) b w) as [| |j|e|e|] eqn:Epc; try done.
  - destruct (ti_pools _ _ Hi b) as (F & Hp & HF).
    destruct (tp_fetch_live _ _ _ _ _ w Hp) as [p E]; [by rewrite HF, Epc|by apply Hw|]. apply Hl. rewrite E. by eexists.
  - destruct (run_job_served j world world_ok) as (ok & response & err & E & _). apply Hl. rewrite E. by eexists.
  - destruct (sq_begin (tid_of b w) (OpPush e) (th_done m)) eqn:E; [apply Hl; by eexists|].
    eapply (queue_live m wt); [done|by right].
  - eapply (queue_live m wt (tid_of b w)); [done|left]. by rewrite op_at_tid, Epc.
  - apply Hl. by eexists.
Qed.

Lemma waiting_live m wt b :
  threads_inv m wt -> (0 < size b)%nat -> wt b <> [] -> can_move m.
Proof.
  intros Hi Hn Hq. destruct (ti_pools _ _ Hi b) as (F & Hp & HF).
  destruct (tp_work _ _ _ _ _ Hp Hn Hq) as [(a & Hin & Ha)|(w & Hw & HwF)]; [by eapply pool_moves|].
  eapply worker_live; [done|done|]. by rewrite <- HF.
Qed.

(** While a task or a result is under way, some thread can move. *)
Lemma work_can_move m wt :
  (forall b, (0 < size b)%nat) -> threads_inv m wt ->
  jobs (th_srv m) <> [] \/ proxy_done_queue_ (th_srv m) <> [] -> can_move m.
Proof.
  intros Hsize Hi Hwork. assert (th_loop m = LWait \/ th_loop m <> LWait) as [Hpc|Hpc]
    by (destruct (th_loop m); by (left + right)); [|by eapply loop_live].
  destruct Hwork as [Hj|Hr].
  - pose proof (ti_jobs _ _ Hi) as Hjobs. unfold jobs_ok in Hjobs. rewrite Hpc in Hjobs. simpl in Hjobs.
    destruct (wt false) as [|j l] eqn:E0; [|eapply (waiting_live m wt false); [done|done|by rewrite E0]].
    destruct (wt true) as [|j l] eqn:E1; [|eapply (waiting_live m wt true); [done|done|by rewrite E1]].
    simpl in Hjobs. destruct (jobs (th_srv m)) as [|j l]; [done|].
    assert (j ∈ work_jobs (th_work m)) as Hin by (rewrite <- Hjobs; left).
    unfold work_jobs in Hin. apply list_elem_of_omap in Hin as (pc & Hin & Hpcj).
    apply list_elem_of_fmap in Hin as ([[b w] pc'] & -> & Hin). apply elem_of_map_to_list in Hin.
    assert (pc_at (th_work m) b w = pc') as Hat by (unfold pc_at; by rewrite Hin).
    eapply (worker_live m wt b w); [done|rewrite Hat; by intros ->|rewrite Hat; by intros ->].
  - destruct (proj2 (ti_signal _ _ Hi) Hr) as [[Hs|(b & w & Hs)]|[Hs|Hs]].
    + by rewrite Hpc in Hs.
    + eapply (worker_live m wt b w); [done|by rewrite Hs|by rewrite Hs].
    + exists (TWait (Some [OnProxyEvent])). split_and!; [done|done|]. simpl. unfold wait_step. rewrite Hpc. simpl.
      rewrite Hs. by eexists.
    + unfold will_drain in Hs. rewrite Hpc in Hs. destruct Hs as [Hs|[]]. by apply elem_of_nil in Hs.
Qed.

End threads_invariant.
