(* ===== verification/ThreadsMeasure.v ===== *)
(** * ThreadsMeasure: steps without new input come to an end

    A measure of the states of [ServerThreads] that every inner step decreases:
    the steps left to each thread, to the threads inside the shared objects, to
    the tasks and results under way, and to the signal on the eventfd.  Each
    activity pays in advance for those it will start: a worker's signal for the
    loop's turn, a task for its result, a ready descriptor for the task its
    request may become. *)

From S2P Require Import Prelude Shared Sockets Llhttp HeaderFields HttpRequestParser.
From S2P Require Import IpFilter HttpConnectionIo HttpConn Timer Poller HttpProxy HpServer.
From S2P Require Import ServerInvariant ServerAnswers ServerProperties System ServerThreads ThreadsInvariant.

Local Open Scope Z_scope.

Section measure.
Context `{L : Llhttp, Q : PriorityQueue, HO : HeaderOrder} (strerror : Z -> bytes).
Context `{DQ : !SharedQueue proxy_done_event, TP : !TaskPool job, EF : EventFd}.
Variable blacklist : ip_filter.
Variable size : bool -> nat.

(** ** The measure *)

#[local] Notation cq := (sq_cost (T := proxy_done_event)).
#[local] Notation cp := (tp_cost (T := job)).

(** A result in the queue: one pop. *)
Definition result_fuel : nat := S cq.

(** The handling of the eventfd, and the turn that an edge causes. *)
Definition proxy_fuel : nat := cq + 3.
Definition edge_fuel : nat := proxy_fuel + 3.

Definition signal_fuel (f : efd) : nat :=
  (if efd_edge f then edge_fuel else 0) + (if (0 <? efd_count f)%Z then 1 else 0).

Definition work_fuel (pc : work_pc) : nat :=
  match pc with
  | ToSignal => cq + cp + edge_fuel + 5
  | Idle => cq + cp + 3
  | Fetching | Running _ => cq + 2
  | ToPush _ => cq + 1
  | Pushing _ => 0
  end.
(** The worker is back at [Fetching] when a task has been served; [Running] is
    entered by a step inside the pool. *)
Definition job_fuel : nat := work_fuel ToSignal + result_fuel.

(** From the submission of a task to the next ready descriptor. *)
Definition push_fuel : nat := cq + result_fuel + edge_fuel + 3.
Definition try_fuel : nat := push_fuel + cp + 1.

Definition event_fuel (e : io_event) : nat :=
  if is_proxy_event e then proxy_fuel else try_fuel + job_fuel + 1.
Definition rest_fuel (rest : list io_event) : nat := 2 + sum_list (event_fuel <$> rest).

Definition loop_fuel (pc : loop_pc) : nat :=
  match pc with
  | LWait => 0
  | LTimeout => 1
  | LEvents rest | LPopping rest => rest_fuel rest
  | LTry _ rest => rest_fuel rest + try_fuel
  | LTrying _ rest | LPush _ rest => rest_fuel rest + push_fuel
  | LPushing _ rest => rest_fuel rest + result_fuel + edge_fuel + 2
  | LSignal rest => rest_fuel rest + edge_fuel + 2
  | LRead rest => rest_fuel rest + cq + 2
  | LPop rest => rest_fuel rest + cq + 1
  end.

Definition workers_left (wk : gmap (bool * nat) work_pc) (b : bool) : nat :=
  sum_list ((fun w => work_fuel (pc_at wk b w)) <$> seq 0 (size b)).

Definition work_left (s : hpserver) : nat :=
  length (jobs s) * job_fuel + length (proxy_done_queue_ s) * result_fuel.

Definition threads_fuel (m : server_threads) : nat :=
  loop_fuel (th_loop m) + work_left (th_srv m) + signal_fuel (th_efd m) +
  workers_left (th_work m) false + workers_left (th_work m) true +
  sq_fuel (th_done m) + tp_fuel (th_proxy m) + tp_fuel (th_tunnel m).

(** Only the workers of the pools are anything but idle. *)
Definition placed (m : server_threads) : Prop :=
  forall b w, pc_at (th_work m) b w <> Idle -> (w < size b)%nat.

(** ** Lemmas *)

Lemma workers_left_insert wk b w pc :
  (w < size b)%nat ->
  (workers_left (<[(b, w) := pc]> wk) false + workers_left (<[(b, w) := pc]> wk) true + work_fuel (pc_at wk b w) =
   workers_left wk false + workers_left wk true + work_fuel pc)%nat.
Proof.
  intros Hw.
  assert (workers_left (<[(b, w) := pc]> wk) (negb b) = workers_left wk (negb b)) as Hn.
  { unfold workers_left. f_equal. apply list_fmap_ext. intros i k _. rewrite pc_at_insert, decide_False; [done|].
    by destruct b. }
  assert (workers_left (<[(b, w) := pc]> wk) b + work_fuel (pc_at wk b w) = workers_left wk b + work_fuel pc)%nat as Hb.
  { pose proof (sum_update (fun k => work_fuel (pc_at wk b k))
      (fun k => work_fuel (pc_at (<[(b, w) := pc]> wk) b k)) (size b) w Hw) as Hs.
    cbv beta in Hs. rewrite (pc_at_insert wk b w pc b w), decide_True in Hs by done. apply Hs.
    intros j Hj. rewrite pc_at_insert, decide_False; [done|]. congruence. }
  destruct b; simpl in Hn; lia.
Qed.

Lemma placed_insert m m' b w pc :
  placed m -> (w < size b)%nat -> th_work m' = <[(b, w) := pc]> (th_work m) -> placed m'.
Proof. intros Hp Hw Ew b' w'. rewrite Ew, pc_at_insert. case_decide as E; [by simplify_eq|apply Hp]. Qed.

Lemma signal_fuel_max f : (signal_fuel f <= edge_fuel + 1)%nat.
Proof. unfold signal_fuel. destruct (efd_edge f), (_ <? _)%Z; lia. Qed.

Lemma signal_fuel_read f n f' :
  efd_read f = (n, f') ->
  (signal_fuel f' + (if (0 <? n)%Z then 1 else 0) <= signal_fuel f)%nat.
Proof.
  intros Er. pose proof (efd_nonneg f). pose proof (efd_read_edge f) as He. rewrite Er in He. simpl in He.
  destruct (decide (efd_count f = 0)) as [E0|E0].
  - rewrite (efd_read_empty _ E0) in Er. simplify_eq. simpl. lia.
  - destruct (efd_read_ok f) as [R1 R2]; [lia|]. rewrite Er in R1, R2. simpl in *. subst n.
    unfold signal_fuel. rewrite R2, (proj2 (Z.ltb_lt 0 (efd_count f))) by lia. simpl.
    destruct (efd_edge f'); [rewrite He by done|]; destruct (efd_edge f); lia.
Qed.

Lemma signal_fuel_report f : efd_ready f = true -> (signal_fuel (efd_report f) + edge_fuel = signal_fuel f)%nat.
Proof.
  unfold efd_ready, signal_fuel. intros [-> Hc]%andb_true_iff.
  rewrite efd_report_edge, efd_report_count. lia.
Qed.

Lemma work_left_same s s' : same_work s s' -> work_left s' = work_left s.
Proof. intros [E1 E2]. unfold work_left. by rewrite E1, E2. Qed.

Lemma rest_fuel_cons e rest : rest_fuel (e :: rest) = (rest_fuel rest + event_fuel e)%nat.
Proof. unfold rest_fuel. rewrite fmap_cons. cbn [sum_list_with]. unfold id. lia. Qed.

(** The result of a task that was under way. *)
Lemma work_left_pushed s e :
  jobs s ≡ₚ d_job e :: jobs (pushed_result s e) ->
  (work_left (pushed_result s e) + job_fuel = work_left s + result_fuel)%nat.
Proof.
  intros Hj. unfold work_left. rewrite Hj. change (proxy_done_queue_ (pushed_result s e)) with (proxy_done_queue_ s ++ [e]).
  rewrite length_app. simpl. lia.
Qed.

(** ** Every inner step decreases it *)

#[local] Ltac fuel :=
  unfold threads_fuel, set_loop, set_srv, set_done, set_efd, set_worker, set_pool in *;
  cbn [th_loop th_srv th_timer th_proxy th_tunnel th_done th_efd th_work loop_fuel] in *.

Lemma handle_ready_fuel m e rest :
  th_loop m = LEvents (e :: rest) -> is_proxy_event e = false ->
  (threads_fuel (handle_ready strerror m e rest) < threads_fuel m)%nat.
Proof.
  intros Hpc He. unfold handle_ready.
  destruct (handle_ready_work strerror (th_srv m) (th_timer m) e) as [Hw| ->]; [|done].
  destruct (handle_event strerror (th_srv m, th_timer m) (until_verdict e)) as [s t].
  destruct Hw as (js & Ej & Hl & Eq). simpl in Ej, Eq. rewrite Ej, drop_app_length. fuel.
  rewrite Hpc. cbn [loop_fuel]. rewrite rest_fuel_cons. unfold event_fuel. rewrite He.
  unfold work_left. rewrite Ej, Eq, length_app. destruct js as [|j js]; cbn [loop_fuel length] in *.
  - lia.
  - assert (length js = 0%nat) as -> by lia. lia.
Qed.

Lemma loop_step_fuel m m' : loop_step strerror m = Some m' -> (threads_fuel m' < threads_fuel m)%nat.
Proof.
  unfold loop_step. destruct (th_loop m) as [| |rest|j rest|j rest|e rest|e rest|rest|rest|rest|rest] eqn:Epc; try done.
  - destruct (Timer.get_next_timeout_ms _ _ _ _) as [[[[r fs] s] t]|] eqn:E; [|done]. intros [= <-].
    apply next_timeout_fades, fades_work, work_left_same in E. fuel. rewrite E, Epc. simpl. lia.
  - destruct rest as [|e rest].
    { destruct (Timer.tick _ _ _ _) as [[[fs s] t]|] eqn:E; [|done]. intros [= <-].
      apply tick_fades, fades_work, work_left_same in E. fuel. rewrite E, Epc. unfold rest_fuel. simpl. lia. }
    destruct (is_proxy_event e) eqn:Ee.
    + destruct e; try done. intros [= <-]. fuel. rewrite Epc. cbn [loop_fuel]. rewrite rest_fuel_cons.
      unfold event_fuel, proxy_fuel. simpl. lia.
    + destruct e; try done; intros [= <-]; by apply handle_ready_fuel.
  - destruct (tp_submit j _) as [p|] eqn:E; [|done]. intros [= <-]. apply tp_submit_fuel in E.
    unfold pool_of in E. fuel. rewrite Epc. cbn [loop_fuel]. unfold try_fuel.
    destruct (is_connect (j_req j)); lia.
  - destruct (sq_begin 0 _ _) as [q|] eqn:E; [|done]. intros [= <-]. apply sq_begin_fuel in E.
    fuel. rewrite Epc. cbn [loop_fuel]. unfold push_fuel. lia.
  - intros [= <-]. fuel. rewrite Epc. cbn [loop_fuel]. pose proof (signal_fuel_max (efd_write (th_efd m))). lia.
  - destruct (efd_read (th_efd m)) as [n f] eqn:Er. intros [= <-]. apply signal_fuel_read in Er.
    fuel. rewrite Epc. destruct (0 <? n)%Z; cbn [loop_fuel]; lia.
  - destruct (sq_begin 0 _ _) as [q|] eqn:E; [|done]. intros [= <-]. apply sq_begin_fuel in E.
    fuel. rewrite Epc. cbn [loop_fuel]. lia.
Qed.

Lemma loop_step_work m m' : loop_step strerror m = Some m' -> th_work m' = th_work m.
Proof.
  unfold loop_step, handle_ready. intros Hs.
  repeat case_match; simplify_eq/=; try done; simplify_option_eq; repeat case_match; by simplify_eq/=.
Qed.

Lemma wait_step_fuel m m' : wait_step (Some [OnProxyEvent]) m = Some m' -> (threads_fuel m' < threads_fuel m)%nat.
Proof.
  unfold wait_step. destruct (th_loop m) eqn:Epc; try done. simpl.
  destruct (efd_ready (th_efd m)) eqn:E; [|done]. intros [= <-]. apply signal_fuel_report in E.
  fuel. rewrite Epc. unfold rest_fuel, event_fuel, edge_fuel in *. simpl. unfold id. lia.
Qed.

(** A worker's step, on what it touches. *)
Lemma worker_fuel m m' b w pc :
  (w < size b)%nat -> th_work m' = <[(b, w) := pc]> (th_work m) ->
  (loop_fuel (th_loop m') + work_left (th_srv m') + signal_fuel (th_efd m') + work_fuel pc +
     sq_fuel (th_done m') + tp_fuel (th_proxy m') + tp_fuel (th_tunnel m') <
   loop_fuel (th_loop m) + work_left (th_srv m) + signal_fuel (th_efd m) + work_fuel (pc_at (th_work m) b w) +
     sq_fuel (th_done m) + tp_fuel (th_proxy m) + tp_fuel (th_tunnel m))%nat ->
  (threads_fuel m' < threads_fuel m)%nat.
Proof.
  intros Hw Ew Hl. unfold threads_fuel. rewrite Ew.
  pose proof (workers_left_insert (th_work m) b w pc Hw). lia.
Qed.

Lemma work_step_fuel b w world m wt m' :
  threads_inv strerror blacklist size m wt -> placed m -> work_step b w world m = Some m' ->
  (threads_fuel m' < threads_fuel m)%nat /\ placed m'.
Proof.
  intros Hi Hp Hs. unfold work_step, work_of in Hs.
  change (default Idle (th_work m !! (b, w))) with (pc_at (th_work m) b w) in Hs.
  assert ((w < size b)%nat /\ exists pc, th_work m' = <[(b, w) := pc]> (th_work m) /\
    (loop_fuel (th_loop m') + work_left (th_srv m') + signal_fuel (th_efd m') + work_fuel pc +
      sq_fuel (th_done m') + tp_fuel (th_proxy m') + tp_fuel (th_tunnel m') <
    loop_fuel (th_loop m) + work_left (th_srv m) + signal_fuel (th_efd m) + work_fuel (pc_at (th_work m) b w) +
      sq_fuel (th_done m) + tp_fuel (th_proxy m) + tp_fuel (th_tunnel m))%nat) as (Hw & pc & Ew & Hl).
  2:{ split; [by eapply worker_fuel|by eapply placed_insert]. }
  assert (pc_at (th_work m) b w <> Idle -> (w < size b)%nat) as Hw by apply Hp.
  destruct (pc_at (th_work m) b w) as [| |j|e|e|] eqn:Epc; try done.
  - destruct (tp_fetch w (pool_of m b)) as [p|] eqn:E; [|done]. simplify_eq/=.
    destruct (ti_pools _ _ _ _ _ Hi b) as (F & Hr & _). destruct (tp_fetch_repr _ _ _ _ _ _ _ Hr E) as (_ & Hlt & _).
    split; [done|]. exists Fetching. split; [done|]. apply tp_fetch_fuel in E. unfold pool_of in E.
    cbn [work_fuel]. destruct b; lia.
  - destruct (run_job j world) as [[[ok response] err]|]; [|done]. simplify_eq/=. split; [by apply Hw|].
    eexists. split; [done|]. cbn [work_fuel]. lia.
  - destruct (sq_begin (tid_of b w) (OpPush e) (th_done m)) as [q|] eqn:E; [|done]. simplify_eq/=.
    split; [by apply Hw|]. eexists. split; [done|]. apply sq_begin_fuel in E. cbn [work_fuel]. lia.
  - simplify_eq/=. split; [by apply Hw|]. eexists. split; [done|]. cbn [work_fuel].
    pose proof (signal_fuel_max (efd_write (th_efd m))). lia.
Qed.

Lemma inside_pool_fuel b a m wt m' :
  threads_inv strerror blacklist size m wt -> placed m -> tp_inner a -> inside_pool b a m = Some m' ->
  (threads_fuel m' < threads_fuel m)%nat.
Proof.
  intros Hi Hp Ha Hs. unfold inside_pool in Hs.
  destruct (tp_step a (pool_of m b)) as [[p r]|] eqn:E; [|done]. simplify_eq/=.
  destruct (ti_pools _ _ _ _ _ Hi b) as (F & Hr & HF).
  pose proof (tp_step_fuel _ _ _ _ _ _ _ _ Hr Ha E) as Hf. unfold pool_of in Hf.
  pose proof (tp_step_repr _ _ _ _ _ _ _ _ Hr E) as Hr'.
  destruct r as [[acc|w x]|].
  - fuel. destruct (th_loop m) eqn:Epc; try destruct acc; fuel; rewrite ?Epc; cbn [loop_fuel]; destruct b; fuel; lia.
  - destruct Hr' as (Hw & _). rewrite HF in Hw. assert (w < size b)%nat as Hlt by (apply Hp; by rewrite Hw).
    eapply worker_fuel; [exact Hlt|done|]. fuel. rewrite Hw. cbn [work_fuel].
    destruct b; fuel; lia.
  - fuel. destruct b; fuel; lia.
Qed.

Lemma inside_pool_placed b a m wt m' :
  threads_inv strerror blacklist size m wt -> placed m -> inside_pool b a m = Some m' -> placed m'.
Proof.
  intros Hi Hp Hs. unfold inside_pool in Hs.
  destruct (tp_step a (pool_of m b)) as [[p r]|] eqn:E; [|done]. simplify_eq/=.
  destruct (ti_pools _ _ _ _ _ Hi b) as (F & Hr & HF). pose proof (tp_step_repr _ _ _ _ _ _ _ _ Hr E) as Hr'.
  destruct r as [[acc|w x]|]; [by destruct (th_loop m), acc| |done].
  destruct Hr' as [Hw _]. rewrite HF in Hw. eapply (placed_insert m _ b w); [done| |done]. apply Hp. by rewrite Hw.
Qed.

#[local] Arguments handle_done_event : simpl never.

Lemma inside_queue_fuel a m wt m' :
  threads_inv strerror blacklist size m wt -> placed m -> inside_queue strerror a m = Some m' ->
  (threads_fuel m' < threads_fuel m)%nat /\ placed m'.
Proof.
  intros Hi Hp Hs. unfold inside_queue in Hs.
  destruct (sq_step a (th_done m)) as [[q r]|] eqn:E; [|done]. cbn [mbind option_bind] in Hs. injection Hs as <-.
  destruct (ti_queue _ _ _ _ _ Hi) as (P & Hq & HP). pose proof (sq_step_fuel _ _ _ _ _ _ Hq E) as Hf.
  pose proof (sq_step_repr _ _ _ _ _ _ Hq E) as Hr.
  destruct r as [[tid ans]|]; [|split; [|done]; fuel; lia].
  destruct Hr as (op & q' & Hop & Hff & _). rewrite HP in Hop. destruct tid as [|k].
  - simpl in Hop. destruct (th_loop m) as [| | | | | |e rest| | | |rest] eqn:Epc; try done; simplify_eq/=.
    + split; [|done]. destruct (push_answered strerror blacklist size m wt e Hi) as (_ & _ & Hj & _).
      { rewrite (ti_jobs _ _ _ _ _ Hi), Epc, !elem_of_app. right. right. left. left. }
      { apply (ti_results _ _ _ _ _ Hi). by rewrite Epc. }
      apply work_left_pushed in Hj. fuel. rewrite Epc. cbn [loop_fuel]. lia.
    + destruct (proxy_done_queue_ (th_srv m)) as [|e res] eqn:Eres; simplify_eq/=.
      * split; [|done]. fuel. rewrite Epc. cbn [loop_fuel]. lia.
      * pose proof (handle_done_work strerror (set_work (th_srv m) q' (jobs (th_srv m))) (th_timer m) e) as Hh.
        destruct (handle_done_event strerror _ e) as [s t]. apply work_left_same in Hh. simpl in Hh.
        split; [|done]. fuel. rewrite Epc, Hh. unfold work_left, result_fuel. simpl. rewrite Eres. simpl. lia.
  - simpl in Hop. change (worker_at k) with (Nat.odd k, Nat.div2 k) in *. cbn [fst snd] in Hop.
    set (b := Nat.odd k) in *. set (w := Nat.div2 k) in *. clearbody b w. cbn beta iota zeta.
    change (work_of (set_done m q) b w) with (pc_at (th_work m) b w).
    destruct (pc_at (th_work m) b w) as [| | | |e|] eqn:Epc; simplify_eq/=.
    assert (w < size b)%nat as Hlt by (apply Hp; by rewrite Epc). split; [|by eapply (placed_insert m _ b w)].
    destruct (push_answered strerror blacklist size m wt e Hi) as (_ & _ & Hj & _).
    { pose proof (work_jobs_insert (th_work m) b w Idle) as Hw. rewrite Epc in Hw. simpl in Hw.
      rewrite (ti_jobs _ _ _ _ _ Hi), Hw, !elem_of_app. right. right. right. left. }
    { apply (proj2 (ti_results _ _ _ _ _ Hi) b w). by rewrite Epc. }
    apply work_left_pushed in Hj. eapply worker_fuel; [exact Hlt|done|]. fuel. rewrite Epc.
    unfold job_fuel in Hj. change (work_fuel (Pushing e)) with 0%nat. lia.
Qed.

Lemma thread_step_fuel a m wt m' :
  threads_inv strerror blacklist size m wt -> placed m -> inner a -> thread_step strerror a m = Some m' ->
  (threads_fuel m' < threads_fuel m)%nat.
Proof.
  intros Hi Hp Hin Hs. destruct a as [|ready|b w world|b a|a]; simpl in Hs, Hin.
  - by eapply loop_step_fuel.
  - subst ready. by eapply wait_step_fuel.
  - by eapply work_step_fuel.
  - by eapply inside_pool_fuel.
  - by eapply inside_queue_fuel.
Qed.

Lemma thread_step_placed a m wt m' :
  threads_inv strerror blacklist size m wt -> placed m -> thread_step strerror a m = Some m' -> placed m'.
Proof.
  intros Hi Hp Hs. destruct a as [|ready|b w world|b a|a]; simpl in Hs.
  - unfold placed. by rewrite (loop_step_work _ _ Hs).
  - unfold wait_step in Hs. destruct (th_loop m); try done. destruct ready; [|by simplify_eq].
    by destruct (existsb _ _); [destruct (efd_ready _)|]; simplify_eq.
  - by eapply work_step_fuel.
  - by eapply inside_pool_placed.
  - by eapply inside_queue_fuel.
Qed.

Lemma threads_run_placed acts m wt :
  threads_inv strerror blacklist size m wt -> placed m -> Forall thread_ok acts ->
  placed (foldl (threads_exec strerror) m acts).
Proof.
  intros Hi Hp Ha. revert m wt Hi Hp. induction Ha as [|a acts Ha _ IH]; intros m wt Hi Hp; cbn [foldl]; [done|].
  unfold threads_exec at 2. destruct (thread_step strerror a m) as [m'|] eqn:E; simpl; [|by eapply IH].
  destruct (thread_step_inv strerror blacklist size a m wt m' Hi Ha E) as [wt' Hi'].
  eapply IH; [exact Hi'|]. eapply thread_step_placed; [exact Hi|exact Hp|exact E].
Qed.

(** ** Runs of inner steps *)

(** Nothing is under way: no task, no result, no connection waits for an answer,
    and every request of a live connection has been answered. *)
Definition completed (s : hpserver) : Prop :=
  jobs s = [] /\ proxy_done_queue_ s = [] /\ proxy_inflight_ s = ∅ /\
  forall fd g, conn_gen s !! fd = Some g -> asked_by g (submitted s) ⊆+ asked (dl_for <$> delivered s).

Lemma drained_completed m wt :
  threads_inv strerror blacklist size m wt -> jobs (th_srv m) = [] -> proxy_done_queue_ (th_srv m) = [] ->
  completed (th_srv m).
Proof.
  intros Hi Hj Hq. split_and!; [done|done|..].
  - apply leibniz_equiv, elem_of_equiv_empty. intros fd Hfd.
    apply (i_work _ _ _ _ _ _ _ (ti_srv _ _ _ _ _ Hi)) in Hfd. unfold works in Hfd. rewrite Hj, Hq in Hfd.
    simpl in Hfd. by apply elem_of_nil in Hfd.
  - intros fd g Hg. pose proof (k_kept _ _ (ti_kept _ _ _ _ _ Hi) fd g Hg) as Hk.
    unfold all_tasks in Hk. by rewrite Hj, Hq in Hk.
Qed.

(** A task meets some network. *)
Variable world : job_world.
Hypothesis world_ok : action_ok (SWork 0 world).
Hypothesis workers : forall b, (0 < size b)%nat.

(** Nothing under way, or somebody can move. *)
Lemma completed_or_moves m wt :
  threads_inv strerror blacklist size m wt -> completed (th_srv m) \/ can_move strerror m.
Proof.
  intros Hi. pose proof (work_can_move strerror blacklist size world world_ok m wt workers Hi) as Hm.
  destruct (jobs (th_srv m)) eqn:Ej; [|right; apply Hm; by left].
  destruct (proxy_done_queue_ (th_srv m)) eqn:Eq; [|right; apply Hm; by right].
  left. by eapply drained_completed.
Qed.

Lemma threads_rest m wt :
  threads_inv strerror blacklist size m wt -> placed m ->
  comes_to_rest (thread_step strerror) (fun a => inner a /\ thread_ok a) (fun m => completed (th_srv m)) m.
Proof.
  intros Hi Hp.
  apply (fuel_comes_to_rest _ _ _ (fun m => (exists wt, threads_inv strerror blacklist size m wt) /\ placed m)
    threads_fuel); [| |by eauto].
  - intros a m0 m1 [[wt0 Hi0] Hp0] [Hin Ha] E. split; [split|].
    + by eapply thread_step_inv.
    + eapply thread_step_placed; [exact Hi0|exact Hp0|exact E].
    + by eapply thread_step_fuel.
  - intros m0 [[wt0 Hi0] _]. destruct (completed_or_moves m0 wt0 Hi0) as [Hc|(a & H1 & H2 & H3)]; [by left|].
    right. by exists a.
Qed.

End measure.
