(* ===== verification/ThreadsProperties.v ===== *)
(** * ThreadsProperties: theorems about all interleavings

    The end-to-end property and the progress property of [ServerThreads], proved
    against the interfaces of [Shared], and the runs of their witnesses, with the
    queue and the pools of the code. *)

From S2P Require Import Prelude Shared Sockets Llhttp HeaderFields HttpRequestParser.
From S2P Require Import IpFilter HttpConnectionIo HttpConn Timer Poller HttpProxy HpServer.
From S2P Require Import ServerInvariant ServerAnswers ServerProperties System ServerThreads ThreadsInvariant ThreadsMeasure.
From S2P Require Import ThreadsafeQueue SharedPool.

Local Open Scope Z_scope.

(** The workers of a pool. *)
Definition pool_size (cfg : server_config) (b : bool) : nat :=
  Z.to_nat (if b then tunnel_worker_count_ cfg else proxy_worker_count_ cfg).

(** Every pool has a worker. *)
Lemma pools_have_workers hw port pw tw pq tq (b : bool) :
  0 <= hw -> 0 <= pw -> 0 <= tw -> (0 < pool_size (hpserver_new hw port pw tw pq tq) b)%nat.
Proof.
  intros Hh Hp Ht. unfold pool_size. destruct b; simpl.
  - unfold normalize_tunnel_workers, default_tunnel_worker_count, kFallbackTunnelWorkers.
    destruct (tw =? 0) eqn:E; hp_bool; [|lia]. destruct (hw =? 0); lia.
  - unfold normalize_proxy_workers, default_proxy_worker_count, kFallbackProxyWorkers.
    destruct (pw =? 0) eqn:E; hp_bool; [|lia]. destruct (hw =? 0); lia.
Qed.

(** Every reachable state satisfies the invariant. *)
Lemma threads_reach
    `{L : Llhttp, PriorityQueue, HeaderOrder, DQ : !SharedQueue proxy_done_event, TP : !TaskPool job, EF : EventFd}
    (strerror : Z -> bytes) p0 su p f start steps cfg acts :
  listen_start p0 su = Some p -> Forall thread_ok acts ->
  exists wt, threads_inv strerror f (pool_size cfg)
    (foldl (threads_exec strerror) (threads_init cfg (srv_init p f start steps)) acts) wt.
Proof.
  intros He Ha. eapply threads_run_inv; [|done].
  apply threads_init_inv; [by apply srv_init_inv, (listen_start_ok p0 su)|apply kept_init|done|done|done].
Qed.

(** Some network. *)
Lemma demo_world_ok : action_ok (SWork 0 demo_world).
Proof. repeat constructor; discriminate. Qed.

(** C2: the end-to-end property under every interleaving.  However the steps of
    the loop, of the workers and of the threads inside the pools and the queue
    are ordered, whatever clients, upstreams and the kernel do, and with any
    queue and pools that keep their contracts, the state the loop reaches
    accounts for every byte and every answer, as in [requests_served], and like
    there without the bytes a tunnel's worker itself moves. *)
Theorem interleavings_accounted
    `{L : Llhttp, PriorityQueue, HeaderOrder, DQ : !SharedQueue proxy_done_event, TP : !TaskPool job, EF : EventFd}
    (strerror : Z -> bytes) p0 su p f start steps cfg acts :
  listen_start p0 su = Some p -> Forall thread_ok acts ->
  accounted strerror (th_srv (foldl (threads_exec strerror) (threads_init cfg (srv_init p f start steps)) acts)).
Proof.
  intros He Ha. destruct (threads_reach strerror p0 su p f start steps cfg acts He Ha) as [wt Hi].
  exact (srv_accounted _ _ _ _ (ti_srv _ _ _ _ _ Hi) (ti_kept _ _ _ _ _ Hi)).
Qed.

(** C3: no work is stranded.  Under every interleaving: while a result waits in
    the queue, the thread that pushed it has yet to write to the eventfd, or
    [epoll_wait] will report the eventfd, or the loop is about to read and drain
    in this turn; and while a task or a result is under way, some thread can
    move without any new input, a return of [epoll_wait] for the eventfd
    included. *)
Theorem work_never_stranded
    `{L : Llhttp, PriorityQueue, HeaderOrder, DQ : !SharedQueue proxy_done_event, TP : !TaskPool job, EF : EventFd}
    (strerror : Z -> bytes) p0 su p f start steps hw port pw tw pq tq acts :
  listen_start p0 su = Some p -> Forall thread_ok acts -> 0 <= hw -> 0 <= pw -> 0 <= tw ->
  let m := foldl (threads_exec strerror)
    (threads_init (hpserver_new hw port pw tw pq tq) (srv_init p f start steps)) acts in
  (proxy_done_queue_ (th_srv m) <> [] ->
     will_signal (th_loop m) (th_work m) \/ efd_ready (th_efd m) = true \/ will_drain (th_loop m)) /\
  (jobs (th_srv m) <> [] \/ proxy_done_queue_ (th_srv m) <> [] ->
     exists a, inner a /\ thread_ok a /\ is_Some (thread_step strerror a m)).
Proof.
  intros He Ha Hh Hpw Htw m.
  destruct (threads_reach strerror p0 su p f start steps (hpserver_new hw port pw tw pq tq) acts He Ha) as [wt Hi].
  fold m in Hi. split; [apply (ti_signal _ _ _ _ _ Hi)|].
  apply (work_can_move strerror f (pool_size (hpserver_new hw port pw tw pq tq)) demo_world demo_world_ok m wt); [|done].
  intros b. by apply pools_have_workers.
Qed.
(** C4: all work is completed.  From every state that some interleaving reaches,
    if no new input comes, the threads can only make a bounded number of steps,
    in whatever order, and as long as a task or a result is under way one of them
    can; so every schedule that keeps moving, and there is one, ends with no task
    and no result under way, no connection marked as waiting for its answer, and
    every request that was read from a connection still live answered. *)
Theorem work_completes
    `{L : Llhttp, PriorityQueue, HeaderOrder, DQ : !SharedQueue proxy_done_event, TP : !TaskPool job, EF : EventFd}
    (strerror : Z -> bytes) p0 su p f start steps hw port pw tw pq tq acts :
  listen_start p0 su = Some p -> Forall thread_ok acts -> 0 <= hw -> 0 <= pw -> 0 <= tw ->
  let m := foldl (threads_exec strerror)
    (threads_init (hpserver_new hw port pw tw pq tq) (srv_init p f start steps)) acts in
  comes_to_rest (thread_step strerror) (fun a => inner a /\ thread_ok a) (fun m => completed (th_srv m)) m.
Proof.
  intros He Ha Hh Hpw Htw m. set (cfg := hpserver_new hw port pw tw pq tq) in *.
  destruct (threads_reach strerror p0 su p f start steps cfg [] He (Forall_nil_2 _)) as [wt0 Hi0].
  assert (forall b, (0 < pool_size cfg b)%nat) as Hsize by (intros b; by apply pools_have_workers).
  assert (placed (pool_size cfg) m) as Hp by (eapply threads_run_placed; [exact Hi0|by intros b w|done]).
  destruct (threads_reach strerror p0 su p f start steps cfg acts He Ha) as [wt Hi].
  exact (threads_rest strerror f _ demo_world demo_world_ok Hsize m wt Hi Hp).
Qed.

(** The run of the witnesses: one worker per pool, the objects of the code.  A
    client sends a request in two segments; its task is started while the loop
    is still inside [try_push]; the result is pushed while the loop is in
    [epoll_wait], and signalled, reported and drained. *)
Definition demo_threads (acts : list (@thread_action threadsafe_shared_queue thread_task_pool))
  : @server_threads demo_llhttp _ threadsafe_shared_queue thread_task_pool demo_eventfd :=
  foldl (threads_exec (fun _ => bs "error"))
    (threads_init (hpserver_new 2 8080 1 1 4 4) (srv_init demo_poller (ip_filter_new 8) 0 [5; 7]%N)) acts.

Definition demo_turn (evs : list io_event) : list (@thread_action threadsafe_shared_queue thread_task_pool) :=
  [TLoop; TWait (Some evs)].

Definition demo_pushed : list (@thread_action threadsafe_shared_queue thread_task_pool) :=
  demo_turn [OnListen [AcceptFd 7 16909060 0 0 demo_slow; AcceptErr EAGAIN]] ++ [TLoop; TLoop] ++
  demo_turn [OnClient 7 EPOLLIN [RData (bs "GET ")] true] ++ [TLoop; TLoop] ++
  demo_turn [OnClient 7 EPOLLIN [RData (bs "rest")] true] ++ [TLoop; TLoop] ++
  [TPool false (InSubmit 0); TWork false 0 demo_world; TPool false (InSubmit 0)] ++
  replicate 5 (TPool false (InWorker 0 0)) ++ [TPool false (InSubmit 0); TLoop; TPool false (InSubmit 0)] ++
  replicate 2 (TPool false (InWorker 0 0)) ++ [TWork false 0 demo_world; TLoop; TWork false 0 demo_world] ++
  replicate 3 (TQueue InPush).

Definition demo_drained : list (@thread_action threadsafe_shared_queue thread_task_pool) :=
  [TWork false 0 demo_world] ++ demo_turn [OnProxyEvent] ++ replicate 4 TLoop ++
  replicate 3 (TQueue InPop) ++ [TLoop; TQueue InPop].

Lemma demo_pushed_ok : Forall thread_ok demo_pushed.
Proof. repeat constructor; discriminate. Qed.

Lemma demo_drained_ok : Forall thread_ok (demo_pushed ++ demo_drained).
Proof. apply Forall_app. split; [apply demo_pushed_ok|repeat constructor; discriminate]. Qed.

Lemma interleavings_accounted_witness :
  let s := th_srv (demo_threads (demo_pushed ++ demo_drained)) in
  dl_data <$> delivered s = [bs "HTTP/1.1 200 OK"] /\ sent <$> wire_of s !! 7 = Some (bs "HTTP") /\
  asked (dl_for <$> delivered s) ⊆+ read_off (submitted s).
Proof.
  cbn zeta. split; [vm_compute; reflexivity|]. split; [vm_compute; reflexivity|].
  destruct (interleavings_accounted (L := demo_llhttp) (EF := demo_eventfd) (fun _ => bs "error") (poller_new 3) demo_startup demo_poller
    (ip_filter_new 8) 0 [5; 7]%N (hpserver_new 2 8080 1 1 4 4) (demo_pushed ++ demo_drained) eq_refl demo_drained_ok)
    as (_ & _ & _ & _ & Ha & _). exact Ha.
Defined.

Lemma work_never_stranded_witness :
  let m := demo_threads demo_pushed in
  length (proxy_done_queue_ (th_srv m)) = 1%nat /\
  (will_signal (th_loop m) (th_work m) \/ efd_ready (th_efd m) = true \/ will_drain (th_loop m)) /\
  exists a, inner a /\ thread_ok a /\ is_Some (thread_step (fun _ => bs "error") a m).
Proof.
  cbn zeta. unfold demo_threads.
  match goal with |- ?l = _ /\ _ => assert (l = 1%nat) as Hl by (vm_compute; reflexivity) end.
  split; [exact Hl|].
  destruct (work_never_stranded (L := demo_llhttp) (EF := demo_eventfd) (fun _ => bs "error") (poller_new 3) demo_startup demo_poller
    (ip_filter_new 8) 0 [5; 7]%N 2 8080 1 1 4 4 demo_pushed eq_refl demo_pushed_ok
    ltac:(discriminate) ltac:(discriminate) ltac:(discriminate)) as [Hs Hm].
  pose proof (length_not_nil _ _ Hl) as Hn.
  split; [exact (Hs Hn)|exact (Hm (or_intror Hn))].
Defined.

(** One result waits to be announced; some run drains it, and none is endless. *)
Lemma work_completes_witness :
  let m := demo_threads demo_pushed in
  length (proxy_done_queue_ (th_srv m)) = 1%nat /\
  comes_to_rest (thread_step (fun _ => bs "error")) (fun a => inner a /\ thread_ok a)
    (fun m => completed (th_srv m)) m.
Proof.
  cbn zeta. unfold demo_threads.
  match goal with |- ?l = _ /\ _ => assert (l = 1%nat) as Hl by (vm_compute; reflexivity) end.
  split; [exact Hl|].
  exact (work_completes (L := demo_llhttp) (EF := demo_eventfd) (fun _ => bs "error") (poller_new 3) demo_startup demo_poller
    (ip_filter_new 8) 0 [5; 7]%N 2 8080 1 1 4 4 demo_pushed eq_refl demo_pushed_ok
    ltac:(discriminate) ltac:(discriminate) ltac:(discriminate)).
Defined.
