(* ===== verification/Main.v ===== *)
(** * Main: src/src/main.cpp

    The command line: options with unsigned values, each checked for its range,
    the last one winning; and what the server is constructed with.  The theorem:
    every accepted command line gives a valid port and pools with at least one
    worker and one place, and every command line written from settings in range
    is accepted with exactly those settings. *)

From S2P Require Import Prelude Bytes HpServer.

Local Open Scope Z_scope.

(* src/src/hpserver.h:20-20 DEFAULT_PORT *)
Definition DEFAULT_PORT : Z := 8080.

(** The whole text must be a number that fits; a C string has no NUL. *)
(* src/src/main.cpp:16-30 parse_unsigned *)
Definition parse_unsigned (text : bytes) : option Z :=
  match text with
  | [] => None
  | _ =>
      match strtoull text with
      | (value, false, Some []) => Some value
      | _ => None
      end
  end.

(* src/src/main.cpp:34-38 main *)
Record options := mk_options {
  port : Z; proxy_workers : Z; tunnel_workers : Z; proxy_queue_size : Z; tunnel_queue_size : Z;
}.

(* src/src/main.cpp:34-38 main *)
Definition default_options : options := mk_options DEFAULT_PORT 0 0 0 0.

(** One option with its value; [None] is the exit with 1.  The range tests of
    the queue sizes cannot fail: both types have 64 bits. *)
(* src/src/main.cpp:59-93 main *)
Definition set_option (arg : bytes) (parsed : Z) (o : options) : option options :=
  if bool_decide (arg = bs "--port") then
    if (parsed =? 0) || (65535 <? parsed) then None
    else Some (mk_options parsed (proxy_workers o) (tunnel_workers o) (proxy_queue_size o) (tunnel_queue_size o))
  else if bool_decide (arg = bs "--proxy-workers") then
    if UINT_MAX <? parsed then None
    else Some (mk_options (port o) parsed (tunnel_workers o) (proxy_queue_size o) (tunnel_queue_size o))
  else if bool_decide (arg = bs "--tunnel-workers") then
    if UINT_MAX <? parsed then None
    else Some (mk_options (port o) (proxy_workers o) parsed (proxy_queue_size o) (tunnel_queue_size o))
  else if bool_decide (arg = bs "--proxy-queue") then
    if SIZE_MAX <? parsed then None
    else Some (mk_options (port o) (proxy_workers o) (tunnel_workers o) parsed (tunnel_queue_size o))
  else if bool_decide (arg = bs "--tunnel-queue") then
    if SIZE_MAX <? parsed then None
    else Some (mk_options (port o) (proxy_workers o) (tunnel_workers o) (proxy_queue_size o) parsed)
  else None.

(** The loop over [argv[1..]]: the exit status, or the options. *)
(* src/src/main.cpp:40-96 main *)
Fixpoint parse_args (args : list bytes) (o : options) : Z + options :=
  match args with
  | [] => inr o
  | arg :: rest =>
      if bool_decide (arg = bs "--help") || bool_decide (arg = bs "-h") then inl 0
      else match rest with
           | [] => inl 1
           | value :: rest =>
               match parse_unsigned value with
               | None => inl 1
               | Some parsed =>
                   match set_option arg parsed o with
                   | None => inl 1
                   | Some o => parse_args rest o
                   end
               end
           end
  end.

(** The exit status; [listen] answers what [hpserver::listen] does, and [hw] is
    the number of hardware threads. *)
(* src/src/main.cpp:33-104 main *)
Definition main (hw : Z) (args : list bytes) (listen : server_config -> Z) : Z :=
  match parse_args args default_options with
  | inl status => status
  | inr o =>
      let server := hpserver_new hw (port o) (proxy_workers o) (tunnel_workers o)
                      (proxy_queue_size o) (tunnel_queue_size o) in
      if listen server =? -1 then 1 else 0
  end.

(** ** Specification *)

Inductive setting :=
| SetPort (n : Z) | SetProxyWorkers (n : Z) | SetTunnelWorkers (n : Z)
| SetProxyQueue (n : Z) | SetTunnelQueue (n : Z).

Definition setting_name (s : setting) : bytes :=
  match s with
  | SetPort _ => bs "--port" | SetProxyWorkers _ => bs "--proxy-workers"
  | SetTunnelWorkers _ => bs "--tunnel-workers" | SetProxyQueue _ => bs "--proxy-queue"
  | SetTunnelQueue _ => bs "--tunnel-queue"
  end.

Definition setting_value (s : setting) : Z :=
  match s with
  | SetPort n | SetProxyWorkers n | SetTunnelWorkers n | SetProxyQueue n | SetTunnelQueue n => n
  end.

Definition setting_ok (s : setting) : Prop :=
  match s with
  | SetPort n => 1 <= n <= 65535
  | SetProxyWorkers n | SetTunnelWorkers n => 0 <= n <= UINT_MAX
  | SetProxyQueue n | SetTunnelQueue n => 0 <= n <= SIZE_MAX
  end.

Definition apply_setting (o : options) (s : setting) : options :=
  match s with
  | SetPort n => mk_options n (proxy_workers o) (tunnel_workers o) (proxy_queue_size o) (tunnel_queue_size o)
  | SetProxyWorkers n => mk_options (port o) n (tunnel_workers o) (proxy_queue_size o) (tunnel_queue_size o)
  | SetTunnelWorkers n => mk_options (port o) (proxy_workers o) n (proxy_queue_size o) (tunnel_queue_size o)
  | SetProxyQueue n => mk_options (port o) (proxy_workers o) (tunnel_workers o) n (tunnel_queue_size o)
  | SetTunnelQueue n => mk_options (port o) (proxy_workers o) (tunnel_workers o) (proxy_queue_size o) n
  end.

(** The command line a user writes for a list of settings. *)
Definition command_line (ss : list setting) : list bytes :=
  mjoin ((fun s => [setting_name s; to_string (setting_value s)]) <$> ss).

Definition options_ok (o : options) : Prop :=
  1 <= port o <= 65535 /\ 0 <= proxy_workers o <= UINT_MAX /\ 0 <= tunnel_workers o <= UINT_MAX /\
  0 <= proxy_queue_size o <= SIZE_MAX /\ 0 <= tunnel_queue_size o <= SIZE_MAX.

(** ** Lemmas *)

Lemma parse_unsigned_range text n : parse_unsigned text = Some n -> 0 <= n <= SIZE_MAX.
Proof.
  unfold parse_unsigned, strtoull, scan_int. destruct text as [|c text]; [done|].
  destruct (scan_sign _) as [neg s1]. destruct (span_digits s1) as [[|d ds] r] eqn:Es; [done|].
  apply span_digits_all in Es as (Hall & _ & _).
  pose proof (digits_value_nonneg 0 (d :: ds) (Z.le_refl 0) Hall) as Hv.
  revert Hv. generalize (digits_value 0 (d :: ds)) as v. intros v Hv.
  destruct (SIZE_MAX <? _) eqn:E; [done|]. hp_bool. destruct r; [|done]. intros [= <-].
  destruct neg; [|lia]. pose proof (u64_range (- v)).
  unfold SIZE_MAX. lia.
Qed.

Lemma parse_unsigned_to_string n : 0 <= n <= SIZE_MAX -> parse_unsigned (to_string n) = Some n.
Proof.
  intros Hn. unfold parse_unsigned, strtoull.
  pose proof (scan_int_to_string n [] ltac:(lia) I) as Hs. rewrite app_nil_r in Hs. rewrite Hs.
  destruct (to_string n) as [|c t] eqn:E.
  { rewrite to_string_nonneg in E by lia. by apply digits_nonempty in E; [|lia]. }
  by rewrite (proj2 (Z.ltb_ge _ _)) by lia.
Qed.

(** What an option does is a setting in range. *)
Lemma set_option_setting arg n o o' :
  0 <= n <= SIZE_MAX -> set_option arg n o = Some o' ->
  exists s, setting_ok s /\ setting_name s = arg /\ setting_value s = n /\ o' = apply_setting o s.
Proof.
  unfold set_option. intros Hn Ho.
  repeat (destruct (bool_decide (arg = _)) eqn:?;
    [hp_bool; subst arg; destruct (_ : bool) eqn:Er in Ho; [done|]; simplify_eq/=|clear Heqb]); [..|done].
  - exists (SetPort n). apply orb_false_iff in Er as [? ?]. hp_bool. simpl. split_and!; done || lia.
  - exists (SetProxyWorkers n). hp_bool. simpl. split_and!; done || lia.
  - exists (SetTunnelWorkers n). hp_bool. simpl. split_and!; done || lia.
  - exists (SetProxyQueue n). hp_bool. simpl. split_and!; done || lia.
  - exists (SetTunnelQueue n). hp_bool. simpl. split_and!; done || lia.
Qed.

Lemma set_option_ok o s : setting_ok s -> set_option (setting_name s) (setting_value s) o = Some (apply_setting o s).
Proof.
  destruct s; simpl; intros Hs; unfold set_option; cbn;
    repeat match goal with
    | |- context [bool_decide (bs ?a = bs ?b)] =>
        first [rewrite (bool_decide_true (bs a = bs b)) by done
              |rewrite (bool_decide_false (bs a = bs b)) by (vm_compute; discriminate)]
    end;
    match goal with |- context [if ?b then _ else _] => destruct b eqn:E end; try done; exfalso;
    try apply orb_true_iff in E as [E|E]; hp_bool; lia.
Qed.

Lemma setting_not_help s :
  bool_decide (setting_name s = bs "--help") || bool_decide (setting_name s = bs "-h") = false.
Proof. by destruct s. Qed.

Lemma setting_value_range s : setting_ok s -> 0 <= setting_value s <= SIZE_MAX.
Proof. destruct s; simpl; unfold UINT_MAX, SIZE_MAX; lia. Qed.

Lemma parse_args_accepts ss o :
  Forall setting_ok ss -> parse_args (command_line ss) o = inr (foldl apply_setting o ss).
Proof.
  intros Hs. revert o. induction Hs as [|s ss Hs _ IH]; intros o; [done|].
  change (command_line (s :: ss)) with (setting_name s :: to_string (setting_value s) :: command_line ss).
  cbn [parse_args foldl]. rewrite setting_not_help, parse_unsigned_to_string by (by apply setting_value_range).
  by rewrite set_option_ok.
Qed.

Lemma parse_args_sound args o o' :
  parse_args args o = inr o' -> exists ss, Forall setting_ok ss /\ o' = foldl apply_setting o ss /\
    length args = (2 * length ss)%nat /\
    forall i s, ss !! i = Some s -> args !! (2 * i)%nat = Some (setting_name s).
Proof.
  revert o. induction args as [|arg|arg value args IH] using list_pair_ind; intros o; cbn [parse_args].
  - intros [= <-]. by exists [].
  - by destruct (_ || _).
  - destruct (_ || _); [done|]. destruct (parse_unsigned value) as [n|] eqn:En; [|done].
    destruct (set_option arg n o) as [o1|] eqn:Eo; [|done]. intros Hr.
    destruct (set_option_setting _ _ _ _ (parse_unsigned_range _ _ En) Eo) as (s & Hs & Hn & _ & ->).
    destruct (IH _ Hr) as (ss & H1 & H2 & H3 & H4). exists (s :: ss).
    split_and!; [by constructor|done|simpl; lia|].
    intros [|i] s' Hi; simpl in Hi; [by simplify_eq|]. rewrite <- (H4 i s' Hi).
    by replace (2 * S i)%nat with (S (S (2 * i))) by lia.
Qed.

Lemma default_options_ok : options_ok default_options.
Proof. repeat split; vm_compute; discriminate. Qed.

Lemma settings_options_ok ss o : options_ok o -> Forall setting_ok ss -> options_ok (foldl apply_setting o ss).
Proof.
  intros Ho Hs. revert o Ho. induction Hs as [|s ss Hs _ IH]; intros o Ho; [done|]. simpl. apply IH.
  unfold options_ok in *. destruct s; simpl in *; lia.
Qed.

Lemma parse_args_status args o status : parse_args args o = inl status -> status = 0 \/ status = 1.
Proof.
  revert o. induction args as [|arg|arg value args IH] using list_pair_ind; intros o; cbn [parse_args]; [done| |].
  - destruct (_ || _); intros [= <-]; auto.
  - destruct (_ || _); [intros [= <-]; auto|]. destruct (parse_unsigned value); [|intros [= <-]; auto].
    destruct (set_option arg _ o) as [o1|]; [by apply IH|intros [= <-]; auto].
Qed.

(** Pools are never empty, whatever the number of hardware threads. *)
Lemma pool_sizes hw pw tw :
  0 <= hw <= UINT_MAX -> 0 <= pw <= UINT_MAX -> 0 <= tw <= UINT_MAX ->
  1 <= normalize_proxy_workers hw pw <= UINT_MAX /\ 1 <= normalize_tunnel_workers hw tw <= UINT_MAX.
Proof.
  unfold normalize_proxy_workers, normalize_tunnel_workers, default_proxy_worker_count,
    default_tunnel_worker_count, kFallbackProxyWorkers, kFallbackTunnelWorkers, UINT_MAX. intros.
  pose proof (u32_range (hw * 8)). split; repeat case_match; hp_bool; lia.
Qed.

(** C33: the command line.  Writing settings in range on the command line makes
    the program run with exactly those settings, the last one winning; a
    command line that is accepted at all is a list of option names with values
    in range; the server is then constructed with a port between 1 and 65535,
    at least one worker and at least one queue place per pool; and the exit
    status is 0 or 1. *)
Theorem command_line_configures hw args listen :
  0 <= hw <= UINT_MAX ->
  (forall ss, Forall setting_ok ss -> args = command_line ss ->
     parse_args args default_options = inr (foldl apply_setting default_options ss)) /\
  (forall o, parse_args args default_options = inr o ->
     (exists ss, Forall setting_ok ss /\ o = foldl apply_setting default_options ss /\
        length args = (2 * length ss)%nat /\
        forall i s, ss !! i = Some s -> args !! (2 * i)%nat = Some (setting_name s)) /\
     let c := hpserver_new hw (port o) (proxy_workers o) (tunnel_workers o)
                (proxy_queue_size o) (tunnel_queue_size o) in
     1 <= cfg_port c <= 65535 /\
     1 <= proxy_worker_count_ c <= UINT_MAX /\ 1 <= tunnel_worker_count_ c <= UINT_MAX /\
     1 <= proxy_queue_size_ c <= SIZE_MAX /\ 1 <= tunnel_queue_size_ c <= SIZE_MAX) /\
  (main hw args listen = 0 \/ main hw args listen = 1).
Proof.
  intros Hhw. split_and!.
  - intros ss Hss ->. by apply parse_args_accepts.
  - intros o Ho. split; [by apply parse_args_sound|].
    destruct (parse_args_sound _ _ _ Ho) as (ss & Hss & -> & _).
    pose proof (settings_options_ok ss default_options default_options_ok Hss)
      as (O1 & O2 & O3 & O4 & O5). revert O1 O2 O3 O4 O5. generalize (foldl apply_setting default_options ss).
    intros o O1 O2 O3 O4 O5. unfold hpserver_new. simpl.
    pose proof (pool_sizes hw (proxy_workers o) (tunnel_workers o) Hhw O2 O3) as [P1 P2].
    revert P1 P2. generalize (normalize_proxy_workers hw (proxy_workers o)) as pw.
    generalize (normalize_tunnel_workers hw (tunnel_workers o)) as tw. intros tw pw P1 P2.
    unfold normalize_proxy_queue_size, normalize_tunnel_queue_size, kTasksPerProxyWorker, kTasksPerTunnelWorker,
      UINT_MAX, SIZE_MAX in *.
    split_and!; try lia; (case_match; hp_bool; [rewrite u64_small by lia|]; lia).
  - unfold main. destruct (parse_args args default_options) as [status|o] eqn:E; [|case_match; auto].
    by apply parse_args_status in E.
Qed.

Lemma command_line_configures_witness :
  0 <= 0 <= UINT_MAX /\
  parse_args (command_line [SetPort 3128; SetProxyWorkers 4; SetPort 80]) default_options
    = inr (mk_options 80 4 0 0 0).
Proof.
  split; [vm_compute; split; discriminate|].
  destruct (command_line_configures 0 (command_line [SetPort 3128; SetProxyWorkers 4; SetPort 80])
    (fun _ => 0) ltac:(vm_compute; split; discriminate)) as [Ha _].
  rewrite (Ha [SetPort 3128; SetProxyWorkers 4; SetPort 80]); [reflexivity| |reflexivity].
  repeat constructor; vm_compute; discriminate.
Defined.

(** A sign is accepted: minus one is the largest queue size. *)
Theorem negative_queue_accepted :
  parse_args [bs "--proxy-queue"; bs "-1"] default_options = inr (mk_options 8080 0 0 SIZE_MAX 0).
Proof. vm_compute. reflexivity. Qed.
