(* ===== verification/LogEntry.v ===== *)
(** * LogEntry: the text of a log entry, src/src/logger/logger.h

    What [write_log] formats before it pushes: the local time, the level, the
    last component of the source file's path, the line and the message.  The
    theorem: everything that went into an entry can be read back from it. *)

From S2P Require Import Prelude Bytes.

Local Open Scope Z_scope.

(* src/src/logger/logger.h:17-17 log_level *)
Inductive log_level := info | warning | error | debug.

(* src/src/logger/logger.h:40-54 logger::write_log *)
Definition level_str (l : log_level) : bytes :=
  match l with
  | info => bs "INFO" | warning => bs "WARN" | error => bs "ERROR" | debug => bs "DEBUG"
  end.

(** [{:0<w>d}]: zeroes after the sign up to the width. *)
Definition zero_pad (w : nat) (z : Z) : bytes :=
  let pad (w : nat) (d : bytes) := replicate (w - length d) "0"%char ++ d in
  if z <? 0 then "-"%char :: pad (w - 1)%nat (to_string (- z)) else pad w (to_string z).

(** [std::filesystem::path(p).filename()]: what follows the last slash. *)
Definition path_filename (p : bytes) : bytes :=
  match rfind_char "/" p with Some n => drop (S n) p | None => p end.

(** [std::tm] and the milliseconds, as the code uses them. *)
Record timestamp := mk_time {
  tm_year : Z; tm_mon : Z; tm_mday : Z; tm_hour : Z; tm_min : Z; tm_sec : Z; now_ms : Z;
}.

(** [t] is what [localtime_r] made of the clock, [file_name] and [line] are the
    caller's source location. *)
(* src/src/logger/logger.h:53-64 logger::write_log *)
Definition log_entry (t : timestamp) (level : log_level) (file_name : bytes) (line : Z) (user_msg : bytes)
  : bytes :=
  let filename := path_filename file_name in
  bs "[" ++ zero_pad 4 (tm_year t + 1900) ++ bs "-" ++ zero_pad 2 (tm_mon t + 1) ++ bs "-" ++
  zero_pad 2 (tm_mday t) ++ bs " " ++ zero_pad 2 (tm_hour t) ++ bs ":" ++ zero_pad 2 (tm_min t) ++
  bs ":" ++ zero_pad 2 (tm_sec t) ++ bs "." ++ zero_pad 3 (now_ms t) ++ bs "] [" ++ level_str level ++
  bs "] [" ++ filename ++ bs ":" ++ to_string line ++ bs "] " ++ user_msg.

(** The arguments of a call of [write_log], with the local time it reads. *)
Record log_call := mk_call {
  call_time : timestamp; call_level : log_level; call_file : bytes; call_line : Z; call_text : bytes;
}.

Definition entry_of_call (c : log_call) : bytes :=
  log_entry (call_time c) (call_level c) (call_file c) (call_line c) (call_text c).

(** ** A reader *)

Definition expect (p s : bytes) : option bytes := if starts_with p s then Some (drop (length p) s) else None.

(** A number and the text after it. *)
Definition read_number (sep s : bytes) : option (Z * bytes) :=
  match span_digits s with
  | ([], _) => None
  | (d, r) => r ← expect sep r; Some (digits_value 0 d, r)
  end.

Definition read_time (s : bytes) : option (timestamp * bytes) :=
  s ← expect (bs "[") s;
  '(y, s) ← read_number (bs "-") s;
  '(mo, s) ← read_number (bs "-") s;
  '(d, s) ← read_number (bs " ") s;
  '(h, s) ← read_number (bs ":") s;
  '(mi, s) ← read_number (bs ":") s;
  '(sec, s) ← read_number (bs ".") s;
  '(ms, s) ← read_number (bs "] [") s;
  Some (mk_time (y - 1900) (mo - 1) d h mi sec ms, s).

Definition read_level (s : bytes) : option (log_level * bytes) :=
  let try l := (fun s => (l, s)) <$> expect (level_str l) s in
  match try info with
  | Some r => Some r
  | None => match try warning with
            | Some r => Some r
            | None => match try error with Some r => Some r | None => try debug end
            end
  end.

(** The file name ends at the last colon before the bracket. *)
Definition read_location (s : bytes) : option (bytes * Z * bytes) :=
  n ← find_char "]" s;
  let loc := take n s in
  c ← rfind_char ":" loc;
  msg ← expect (bs "] ") (drop n s);
  Some (take c loc, digits_value 0 (drop (S c) loc), msg).

Definition read_entry (s : bytes) : option (timestamp * log_level * bytes * Z * bytes) :=
  '(t, s) ← read_time s;
  '(level, s) ← read_level s;
  s ← expect (bs "] [") s;
  '(file, line, msg) ← read_location s;
  Some (t, level, file, line, msg).

(** The fields of a calendar time. *)
Definition time_ok (t : timestamp) : Prop :=
  0 <= tm_year t + 1900 /\ 0 <= tm_mon t + 1 /\ 0 <= tm_mday t /\ 0 <= tm_hour t /\ 0 <= tm_min t /\
  0 <= tm_sec t /\ 0 <= now_ms t.

(** ** Lemmas *)

Lemma expect_app p s : expect p (p ++ s) = Some s.
Proof. unfold expect, starts_with. rewrite bool_decide_true by (by eexists). by rewrite drop_app_length. Qed.

Lemma zero_pad_digits w z :
  0 <= z -> Forall (fun c => is_digit c = true) (zero_pad w z) /\ digits_value 0 (zero_pad w z) = z /\ zero_pad w z <> [].
Proof.
  intros Hz. unfold zero_pad. rewrite (proj2 (Z.ltb_ge _ _)) by lia. rewrite to_string_nonneg by lia. split_and!.
  - apply Forall_app_2; [by apply Forall_replicate|by apply digits_all].
  - rewrite digits_value_app. assert (forall k, digits_value 0 (replicate k "0"%char) = 0) as ->.
    { intros k. unfold digits_value. apply (foldl_invariant (fun v => v = 0)); [done|].
      intros b x ->%elem_of_replicate_inv ->. done. }
    by apply digits_value_digits.
  - intros [_ E]%app_nil. by apply digits_nonempty in E.
Qed.

Lemma read_number_app w z sep r :
  0 <= z -> no_digit_head (sep ++ r) -> read_number sep (zero_pad w z ++ sep ++ r) = Some (z, r).
Proof.
  intros Hz Hr. destruct (zero_pad_digits w z Hz) as (Hd & Hv & Hn). unfold read_number.
  rewrite span_digits_app by done. destruct (zero_pad w z) as [|c d]; [done|]. by rewrite expect_app, Hv.
Qed.

Lemma read_time_app t s :
  time_ok t ->
  read_time (bs "[" ++ zero_pad 4 (tm_year t + 1900) ++ bs "-" ++ zero_pad 2 (tm_mon t + 1) ++ bs "-" ++
    zero_pad 2 (tm_mday t) ++ bs " " ++ zero_pad 2 (tm_hour t) ++ bs ":" ++ zero_pad 2 (tm_min t) ++
    bs ":" ++ zero_pad 2 (tm_sec t) ++ bs "." ++ zero_pad 3 (now_ms t) ++ bs "] [" ++ s) = Some (t, s).
Proof.
  intros (H1 & H2 & H3 & H4 & H5 & H6 & H7). unfold read_time. rewrite expect_app. cbn [mbind option_bind].
  repeat (rewrite read_number_app by done; cbn [mbind option_bind]).
  destruct t. cbn [tm_year tm_mon]. by rewrite !Z.add_simpl_r.
Qed.

Lemma read_level_app l s : read_level (level_str l ++ s) = Some (l, s).
Proof.
  assert (forall l', l' <> l -> expect (level_str l') (level_str l ++ s) = None) as Hne.
  { intros l' Hl. unfold expect, starts_with. rewrite bool_decide_false; [done|]. intros [k E].
    by destruct l, l'. }
  unfold read_level. destruct l; rewrite ?expect_app, ?Hne by done; done.
Qed.

Lemma colon_not_digit n : 0 <= n -> ":"%char ∉ digits n.
Proof. intros Hn Hc. pose proof (proj1 (Forall_forall _ _) (digits_all n Hn) _ Hc). done. Qed.

Lemma bracket_not_digit n : 0 <= n -> "]"%char ∉ digits n.
Proof. intros Hn Hc. pose proof (proj1 (Forall_forall _ _) (digits_all n Hn) _ Hc). done. Qed.

Lemma read_location_app file line msg :
  "]"%char ∉ file -> 0 <= line ->
  read_location (file ++ bs ":" ++ to_string line ++ bs "] " ++ msg) = Some (file, line, msg).
Proof.
  intros Hf Hl. rewrite to_string_nonneg by done. unfold read_location.
  change (bs ":" ++ digits line ++ bs "] " ++ msg) with (":"%char :: digits line ++ "]"%char :: " "%char :: msg).
  rewrite app_comm_cons, (assoc_L (++)), find_char_app.
  2:{ rewrite elem_of_app, elem_of_cons. intros [?|[?|Hd]]; [done|done|by apply (bracket_not_digit line)]. }
  simpl. rewrite take_app_length, drop_app_length, rfind_char_app by (by apply colon_not_digit). simpl.
  rewrite take_app_length, drop_0. do 3 f_equal.
  rewrite drop_app_ge by lia. replace (S (length file) - length file)%nat with 1%nat by lia.
  by apply digits_value_digits.
Qed.

(** The name is part of the path, and has no slash. *)
Lemma path_filename_spec p :
  path_filename p `suffix_of` p /\ "/"%char ∉ path_filename p.
Proof.
  unfold path_filename. induction p as [|c p IH]; simpl; [split; [done|set_solver]|].
  destruct (rfind_char "/" p) as [n|] eqn:E; simpl.
  - destruct IH. split; [by apply suffix_cons_r|done].
  - apply rfind_char_None in E. case_decide as Hc; simpl.
    + split; [by apply suffix_cons_r|]. by rewrite drop_0.
    + split; [done|]. intros [?|?]%elem_of_cons; [by destruct Hc|done].
Qed.

(** C35: a log entry says what was logged.  From the text of an entry the time,
    to the millisecond, the level, the source file's name without its directories,
    the line and the message can be read back, whatever the message contains, as
    long as the path has no closing bracket. *)
Theorem log_entry_reads_back t level file_name line user_msg :
  time_ok t -> 0 <= line -> "]"%char ∉ file_name ->
  read_entry (log_entry t level file_name line user_msg)
    = Some (t, level, path_filename file_name, line, user_msg) /\
  "/"%char ∉ path_filename file_name.
Proof.
  intros Ht Hl Hp. destruct (path_filename_spec file_name) as [[k Hs] Hn]. split; [|done].
  unfold read_entry, log_entry. rewrite read_time_app by done. cbn [mbind option_bind].
  rewrite read_level_app. cbn [mbind option_bind]. rewrite expect_app. cbn [mbind option_bind]. rewrite read_location_app; [done| |done].
  intros Hb. apply Hp. rewrite Hs, elem_of_app. by right.
Qed.

Lemma log_entry_reads_back_witness :
  let t := mk_time 126 2 27 10 0 0 7 in
  log_entry t info (bs "src/main.cpp") 42 (bs "up] [x:1] y") =
    bs "[2026-03-27 10:00:00.007] [INFO] [main.cpp:42] up] [x:1] y" /\
  read_entry (log_entry t info (bs "src/main.cpp") 42 (bs "up] [x:1] y"))
    = Some (t, info, bs "main.cpp", 42, bs "up] [x:1] y").
Proof.
  cbn zeta. split; [vm_compute; reflexivity|].
  destruct (log_entry_reads_back (mk_time 126 2 27 10 0 0 7) info (bs "src/main.cpp") 42 (bs "up] [x:1] y")) as [E _].
  - unfold time_ok. simpl. lia.
  - lia.
  - vm_compute. set_solver.
  - exact E.
Defined.
