(* ===== verification/Logger.v ===== *)
(** * Logger: src/src/logger/logger.{h,cpp}

    The asynchronous logger: callers format an entry and push it to the ring
    buffer, which drops it when full; a writer thread sleeps on a condition
    variable and writes what it pops; the destructor stops and joins it.

    The model is a step machine over the callers, the writer and the
    destructor.  It contains the step machine of [RingBuffer]: a push and a pop
    take several steps, and everything else may happen between them.  The sleep
    is split into the test of the predicate and the wait.

    The theorems: entries are written in the order they were accepted, none
    lost or repeated; whatever the threads are doing when the destructor is
    called, they come to rest with the writer joined and every entry accepted
    before written; and the price of notifying without the mutex, a wake-up that
    can be lost. *)

From S2P Require Import Prelude RingBuffer LogEntry.

(** Where the writer writes: the file when a path was given and it opened. *)
(* src/src/logger/logger.cpp:12-14 logger::init *)
Definition to_file (log_path : bytes) (opened : bool) : bool :=
  negb (bool_decide (log_path = [])) && opened.

(** ** The threads *)

(** The writer: at the loop condition, about to take the mutex, holding it
    before the predicate is tested, between the test and the wait, asleep, and
    inside [pop].  It holds the mutex in [WTest], [WGoSleep] and [WPop]. *)
(* src/src/logger/logger.cpp:16-32 logger::init *)
Inductive writer_pc := WTop | WLock | WTest | WGoSleep | WSleeping | WPop | WExit.

(** The destructor: before it, before the notification, joining, done. *)
(* src/src/logger/logger.cpp:36-45 logger::~logger *)
Inductive dtor_pc := DIdle | DNotify | DJoin | DDone.

#[export] Instance writer_pc_eq_dec : EqDecision writer_pc.
Proof. solve_decision. Defined.
#[export] Instance dtor_pc_eq_dec : EqDecision dtor_pc.
Proof. solve_decision. Defined.

(** [log_queue] has the ring and who is inside its operations; [unnotified]
    counts callers between a successful push and [notify_one]; [accepted] is
    ghost: the entries whose push succeeded. *)
(* src/src/logger/logger.h:76-81 logger *)
Record logger := mk_logger {
  log_queue : ring_state bytes;
  running : bool;
  writer : writer_pc;
  dtor : dtor_pc;
  unnotified : nat;
  written : list bytes;
  accepted : list bytes;
}.

(** The server logs nothing before it has called [init]. *)
(* src/src/logger/logger.cpp:6-10 logger::init *)
Definition logger_init (buffer_size : nat) : logger :=
  mk_logger (ring_init [] buffer_size) true WTop DIdle 0 [] [].

Definition set_writer (s : logger) (pc : writer_pc) : logger :=
  mk_logger (log_queue s) (running s) pc (dtor s) (unnotified s) (written s) (accepted s).

Definition holds_mtx (pc : writer_pc) : bool :=
  match pc with WTest | WGoSleep | WPop => true | _ => false end.

(** A notification wakes the writer if it is waiting. *)
Definition wake (pc : writer_pc) : writer_pc := match pc with WSleeping => WLock | _ => pc end.

(** A step of the ring, and what it shows: an entry pushed is accepted and
    its caller has still to notify, an entry popped is written. *)
Definition on_queue (s : logger) (a : ring_action bytes) : option (logger * list (ring_event bytes)) :=
  '(q, es) ← ring_step a (log_queue s);
  Some (mk_logger q (running s) (writer s) (dtor s) (unnotified s + length (pushed es))
          (written s ++ popped es) (accepted s ++ pushed es), es).

(** The push of [write_log]: caller [tid] enters it with its entry, and then
    its steps; a full queue drops the entry. *)
(* src/src/logger/logger.h:66-67 logger::write_log *)
Definition log_push (s : logger) (a : ring_action bytes) : option logger := fst <$> on_queue s a.

(** Caller [tid] logs: it formats its entry and enters the push. *)
(* src/src/logger/logger.h:29-71 logger::write_log *)
Definition write_log (s : logger) (tid : nat) (c : log_call) : option logger :=
  log_push s (BeginPush tid (entry_of_call c)).

(** A caller's [notify_one], after its push. *)
(* src/src/logger/logger.h:68-68 logger::write_log *)
Definition log_notify (s : logger) : option logger :=
  match unnotified s with
  | O => None
  | S n => Some (mk_logger (log_queue s) (running s) (wake (writer s)) (dtor s) n (written s) (accepted s))
  end.

(** The writer among the threads that use the ring. *)
Definition writer_tid : nat := 0.

(** One step of the writer; [None] when it is asleep or gone.  Nobody else
    pops, so [empty] is one step: the head it reads does not move. *)
(* src/src/logger/logger.cpp:16-32 logger::init *)
Definition writer_step (s : logger) : option logger :=
  let empty := ring_empty (ring (log_queue s)) in
  match writer s with
  | WTop => Some (set_writer s (if running s || negb empty then WLock else WExit))
  | WLock => Some (set_writer s WTest)
  | WTest => Some (set_writer s (if negb (running s) || negb empty then WPop else WGoSleep))
  | WGoSleep => Some (set_writer s WSleeping)
  | WSleeping => None
  | WPop =>
      match head_mutex_ (log_queue s) with
      | None => fst <$> on_queue s (BeginPop writer_tid)
      | Some _ =>
          '(s, es) ← on_queue s StepPop;
          Some (set_writer s (match es with [] => WPop | _ => WTop end))
      end
  | WExit => None
  end.

(** One step of the destructor: [running] is cleared under the mutex. *)
(* src/src/logger/logger.cpp:36-45 logger::~logger *)
Definition dtor_step (s : logger) : option logger :=
  let next r w d := mk_logger (log_queue s) r w d (unnotified s) (written s) (accepted s) in
  match dtor s with
  | DIdle => if holds_mtx (writer s) then None else Some (next false (writer s) DNotify)
  | DNotify => Some (next (running s) (wake (writer s)) DJoin)
  | DJoin => if decide (writer s = WExit) then Some (next (running s) (writer s) DDone) else None
  | DDone => None
  end.

(** [ALog] is [write_log] up to the steps of the push. *)
Inductive log_action :=
| ALog (tid : nat) (c : log_call) | APush | ANotify | AWriter | ADtor
| ASpurious.   (** a condition variable may wake on its own *)

Definition log_step (a : log_action) (s : logger) : option logger :=
  match a with
  | ALog tid c => write_log s tid c
  | APush => log_push s StepPush
  | ANotify => log_notify s
  | AWriter => writer_step s
  | ADtor => dtor_step s
  | ASpurious => Some (set_writer s (wake (writer s)))
  end.

(** A schedule; a step that is not enabled is a blocked thread. *)
Definition log_exec (s : logger) (a : log_action) : logger := default s (log_step a s).

(** The steps of threads that are inside, and the destructor. *)
Definition log_inside (a : log_action) : Prop :=
  match a with APush | ANotify | AWriter | ADtor => True | _ => False end.

(** The destructor was called in [s0] and has returned in [s], and so has
    everyone else: what was accepted by then has been written, in order, and
    nothing but accepted entries; all of it, when no caller was inside [push]. *)
Record log_closed (s0 s : logger) : Prop := {
  lc_dtor : dtor s = DDone;
  lc_writer : writer s = WExit;
  lc_callers : tail_mutex_ (log_queue s) = None /\ unnotified s = 0;
  lc_written : accepted s0 `prefix_of` written s;
  lc_accepted : written s `prefix_of` accepted s;
  lc_exact : tail_mutex_ (log_queue s0) = None -> written s = accepted s0;
}.

(** ** Invariant *)

Record log_inv (s : logger) (q : list bytes) : Prop := {
  l_ring : exists evs, ring_inv (log_queue s) evs q;
  l_order : accepted s = written s ++ q;
  l_running : running s = true <-> dtor s = DIdle;
  l_sleep : running s = false -> writer s <> WGoSleep;
  l_woken : dtor s = DJoin \/ dtor s = DDone -> writer s <> WSleeping;
  l_exit : writer s = WExit -> running s = false;
  l_pop : writer s = WPop -> running s = true -> q <> [];
  l_popping : is_Some (head_mutex_ (log_queue s)) -> writer s = WPop;
  l_join : dtor s = DDone -> writer s = WExit;
}.

(** ** Lemmas *)

Lemma log_empty s q : log_inv s q -> ring_empty (ring (log_queue s)) = bool_decide (q = []).
Proof. intros [[evs Hr] _ _ _ _ _ _ _ _]. apply ring_empty_repr, Hr. Qed.

Lemma log_size s q : log_inv s q -> ring_size (ring (log_queue s)) = length q.
Proof. intros [[evs Hr] _ _ _ _ _ _ _ _]. apply size_test, Hr. Qed.

(** A ring step keeps the ghost lists and the queue in line. *)
Lemma on_queue_spec s q a s' es :
  log_inv s q -> on_queue s a = Some (s', es) ->
  exists q', (exists evs, ring_inv (log_queue s') evs q') /\ accepted s' = written s' ++ q' /\
    q ++ pushed es = popped es ++ q' /\
    foldl (fifo_step (capacity_ (ring (log_queue s)))) (Some q) es = Some q' /\
    ring_step a (log_queue s) = Some (log_queue s', es) /\
    s' = mk_logger (log_queue s') (running s) (writer s) (dtor s) (unnotified s + length (pushed es))
           (written s ++ popped es) (accepted s ++ pushed es).
Proof.
  intros Hi E. destruct (l_ring _ _ Hi) as [evs Hr]. unfold on_queue in E.
  destruct (ring_step a (log_queue s)) as [[r es']|] eqn:Es; simplify_eq/=.
  destruct (ring_step_queue _ _ _ _ _ _ Hr Es) as (q' & Hr' & Hq & Hf). exists q'.
  split_and!; try done; [by eexists|]. by rewrite (l_order _ _ Hi), <- !app_assoc, Hq.
Qed.

(** A producer's step does not concern the consumer. *)
Lemma push_step_facts {T} a (r r' : ring_state T) es :
  match a with BeginPush _ _ | StepPush => True | _ => False end ->
  ring_step a r = Some (r', es) -> head_mutex_ r' = head_mutex_ r /\ popped es = [].
Proof. destruct a; try done; simpl; intros _ E; repeat case_match; by simplify_eq/=. Qed.

Lemma log_push_inv s q a s' :
  match a with BeginPush _ _ | StepPush => True | _ => False end ->
  log_inv s q -> log_push s a = Some s' -> exists q', log_inv s' q' /\ q `prefix_of` q'.
Proof.
  intros Ha Hi E. unfold log_push in E. destruct (on_queue s a) as [[s1 es]|] eqn:Eq; simplify_eq/=.
  destruct (on_queue_spec _ _ _ _ _ Hi Eq) as (q' & Hr & Ho & Hq & _ & Es & Hs).
  destruct (push_step_facts _ _ _ _ Ha Es) as [Hh Hp]. rewrite Hp in Hq. simpl in Hq.
  exists q'. split; [|by exists (pushed es)].
  destruct Hi as [_ _ H3 H4 H5 H6 H7 H8 H9]. rewrite Hs in Ho |- *. constructor; simpl in *; try done.
  - intros Hw Hrun. subst q'. specialize (H7 Hw Hrun). by destruct q.
  - by rewrite Hh.
Qed.

(** Waking the writer harms nothing. *)
Lemma wake_inv s q d un :
  log_inv s q -> (d = DIdle <-> dtor s = DIdle) -> (d = DDone <-> dtor s = DDone) ->
  log_inv (mk_logger (log_queue s) (running s) (wake (writer s)) d un (written s) (accepted s)) q.
Proof.
  intros [H1 H2 H3 H4 H5 H6 H7 H8 H9] Hd Hd'. constructor; simpl; try done.
  - by rewrite H3.
  - intros Hr. specialize (H4 Hr). by destruct (writer s).
  - intros _. by destruct (writer s).
  - intros He. apply H6. by destruct (writer s).
  - intros He. apply H7. by destruct (writer s).
  - intros He. by rewrite H8.
  - intros He. by rewrite H9 by by apply Hd'.
Qed.

(** The writer's step outside [pop]. *)
Lemma writer_move_inv s q pc :
  log_inv s q -> head_mutex_ (log_queue s) = None -> dtor s <> DDone ->
  (running s = false -> pc <> WGoSleep) -> (dtor s <> DIdle -> pc <> WSleeping) ->
  (pc = WExit -> running s = false) -> (pc = WPop -> running s = true -> q <> []) ->
  log_inv (set_writer s pc) q.
Proof.
  intros [H1 H2 H3 H4 H5 H6 H7 H8 H9] Hh Hd A1 A2 A3 A4. constructor; simpl; try done.
  - intros Hj. apply A2. by destruct Hj as [-> | ->].
  - rewrite Hh. by intros [].
Qed.

(** What the writer and the entries in the ring still need, if nobody else does
    anything: seven steps per entry, and what the current round takes. *)
Definition round_left (s : logger) (empty : bool) : nat :=
  match writer s with
  | WTop => if negb (running s) && empty then 1 else 8
  | WLock => 7 | WTest => 6 | WGoSleep => 1 | WSleeping | WExit => 0
  | WPop => match head_mutex_ (log_queue s) with
            | None => 5 | Some (_, PopTest) => 4 | Some (_, PopRead) => 3 | Some (_, PopPublish _ _) => 2
            end
  end.

Definition writer_left (s : logger) (q : list bytes) : nat :=
  7 * length q + round_left s (bool_decide (q = [])).

(** What a writer's step leaves alone, and what it brings nearer. *)
Record writer_advance (s s' : logger) (q q' : list bytes) : Prop := {
  wa_inv : log_inv s' q';
  wa_accepted : accepted s' = accepted s;
  wa_tail : tail_mutex_ (log_queue s') = tail_mutex_ (log_queue s);
  wa_unnotified : unnotified s' = unnotified s;
  wa_dtor : dtor s' = dtor s;
  wa_written : written s `prefix_of` written s';
  wa_exit : writer s' = WExit -> q' = [];
  wa_left : writer_left s' q' < writer_left s q;
}.

(** The writer inside [pop]: it goes on, or leaves with an entry; with none
    only when it was told to stop. *)
Lemma writer_pop_advance s q s1 es :
  log_inv s q -> writer s = WPop -> on_queue s StepPop = Some (s1, es) ->
  exists q', writer_advance s (set_writer s1 (match es with [] => WPop | _ => WTop end)) q q'.
Proof.
  intros Hi Hw E. destruct (l_ring _ _ Hi) as [evs Hr]. unfold on_queue in E.
  destruct (ring_step StepPop (log_queue s)) as [[r es']|] eqn:Es; simplify_eq/=.
  destruct (step_pop_cases _ _ _ _ _ Hr Es) as (q' & Hr' & Hq & Hp & Ht & Hc). exists q'. rewrite Hp.
  pose proof Hi as [_ H2 H3 H4 H5 H6 H7 H8 H9].
  assert (dtor s <> DDone) as Hd by (intros E; by rewrite H9 in Hw).
  constructor; simpl; rewrite ?app_nil_r, ?Nat.add_0_r; try done.
  - constructor; simpl; rewrite ?app_nil_r; try done; [by eexists|by rewrite <- app_assoc, <- Hq| | | | |].
    + by destruct es.
    + by destruct es.
    + by destruct es.
    + intros Hx Hrun. destruct es; [|done]. simpl in Hq. subst q'. by apply H7.
    + intros Hs. destruct es as [|e es]; [done|]. destruct Hc as [Hh _]. rewrite Hh in Hs. by destruct Hs.
  - by eexists.
  - by destruct es.
  - unfold writer_left, round_left. simpl. rewrite Hw. destruct es as [|e es].
    + destruct Hc as (tid & pc & pc' & -> & -> & Hpc). simpl in Hq. subst q'. destruct pc, pc'; try done; lia.
    + destruct Hc as [_ [[[tid ->] ->]|[(tid & h & item & ->) [x ->]]]].
      * destruct (popped _); [simpl in Hq; subst q'|done]. simpl.
        destruct (running s) eqn:Er; [by destruct (H7 Hw eq_refl)|]. simpl. lia.
      * simpl. destruct (_ && _); lia.
Qed.

Lemma writer_step_advance s q s' :
  log_inv s q -> writer_step s = Some s' -> exists q', writer_advance s s' q q'.
Proof.
  intros Hi E. pose proof Hi as [_ H2 H3 H4 H5 H6 H7 H8 H9]. pose proof (log_empty s q Hi) as He.
  assert (forall pc, writer s <> WPop -> writer s <> WExit -> set_writer s pc = s' ->
    (running s = false -> pc <> WGoSleep) -> (dtor s <> DIdle -> pc <> WSleeping) ->
    (pc = WExit -> running s = false /\ q = []) -> (pc = WPop -> running s = true -> q <> []) ->
    writer_left s' q < writer_left s q -> exists q', writer_advance s s' q q') as Hmove.
  { intros pc Hp Hx <- A1 A2 A3 A4 A5. exists q. constructor; simpl; try done; [|by intros [_ ?]%A3].
    assert (dtor s <> DDone) by (intros Hd; by apply Hx, H9).
    apply writer_move_inv; try done; [|by intros [? _]%A3].
    destruct (head_mutex_ (log_queue s)) eqn:Eh; [|done]. by destruct Hp; apply H8. }
  unfold writer_step in E. rewrite He in E. unfold writer_left, round_left in Hmove.
  destruct (writer s) eqn:Ew; simplify_eq.
  - eapply Hmove; try done; [by destruct (_ || _)|by destruct (_ || _)| |by destruct (_ || _)|].
    + destruct (running s), (bool_decide (q = [])) eqn:Eq; simpl; try done. intros _. hp_bool. done.
    + simpl. destruct (running s), (bool_decide (q = [])); simpl; lia.
  - eapply Hmove; try done. simpl. lia.
  - eapply Hmove; try done; [by intros ->|by destruct (_ || _)|by destruct (_ || _)| |].
    + intros Hx Hr. rewrite Hr in Hx. simpl in Hx. intros ->. by rewrite bool_decide_true in Hx.
    + simpl. destruct (_ || _); [|lia]. destruct (head_mutex_ (log_queue s)) as [[? []]|]; lia.
  - eapply Hmove; try done; [|simpl; lia]. intros Hd _.
    destruct (running s) eqn:Er; [by apply Hd, H3|by apply H4].
  - destruct (head_mutex_ (log_queue s)) as [[tid pc]|] eqn:Eh.
    + destruct (on_queue s StepPop) as [[s1 es]|] eqn:Eq; simplify_eq/=. by eapply writer_pop_advance.
    + unfold on_queue in E. simpl in E. rewrite Eh in E. simplify_eq/=. exists q.
      destruct (l_ring _ _ Hi) as [evs Hr]. rewrite !app_nil_r, Nat.add_0_r. constructor; simpl; try done; [|by rewrite Ew|].
      * constructor; simpl; try done; [|by rewrite Ew..]. destruct (ring_step_inv (BeginPop writer_tid) _ _ _
          (mk_rstate (ring (log_queue s)) (tail_mutex_ (log_queue s)) (Some (writer_tid, PopTest))) [] Hr) as (q1 & Hr1 & _);
          [by simpl; rewrite Eh|].
        eexists. destruct Hr. constructor; simpl; try done. by intros ? ? [= <- <-].
      * unfold writer_left, round_left. simpl. rewrite Ew, Eh. lia.
Qed.

Lemma log_notify_inv s q s' : log_inv s q -> log_notify s = Some s' -> log_inv s' q.
Proof. unfold log_notify. destruct (unnotified s); [done|]. intros Hi [= <-]. by apply wake_inv. Qed.

Lemma dtor_step_inv s q s' : log_inv s q -> dtor_step s = Some s' -> log_inv s' q.
Proof.
  intros Hi. pose proof Hi as [H1 H2 H3 H4 H5 H6 H7 H8 H9]. unfold dtor_step.
  destruct (dtor s) eqn:Ed; [| |case_decide; [|done]|done].
  - destruct (holds_mtx (writer s)) eqn:Eh; [done|]. intros [= <-]. constructor; simpl; try done.
    + intros _ Hw. by rewrite Hw in Eh.
    + by intros [?|?].
  - intros [= <-]. apply wake_inv; [done|by rewrite Ed..].
  - intros [= <-]. constructor; simpl; try done; [by rewrite H3|congruence].
Qed.

Lemma log_step_inv a s q s' : log_inv s q -> log_step a s = Some s' -> exists q', log_inv s' q'.
Proof.
  intros Hi. destruct a as [tid e| | | | |]; cbn [log_step]; intros E.
  - by destruct (log_push_inv s q (BeginPush tid (entry_of_call e)) s' I Hi E) as (q' & ? & _); exists q'.
  - by destruct (log_push_inv s q StepPush s' I Hi E) as (q' & ? & _); exists q'.
  - exists q. by eapply log_notify_inv.
  - destruct (writer_step_advance s q s' Hi E) as [q' Ha]. exists q'. apply Ha.
  - exists q. by eapply dtor_step_inv.
  - injection E as <-. exists q. by apply wake_inv.
Qed.

Lemma log_run_inv acts s q : log_inv s q -> exists q', log_inv (foldl log_exec s acts) q'.
Proof.
  revert s q. induction acts as [|a acts IH]; intros s q Hi; simpl; [eauto|].
  unfold log_exec at 2. destruct (log_step a s) as [s'|] eqn:E; simpl; [|by eapply IH].
  destruct (log_step_inv a s q s' Hi E) as [q' Hi']. by eapply IH.
Qed.

Lemma logger_init_inv n : log_inv (logger_init n) [].
Proof. constructor; simpl; try done. eexists; apply ring_init_inv. Qed.

(** ** Coming to rest *)

Definition push_left (r : ring_state bytes) : nat :=
  match tail_mutex_ r with
  | None => 0 | Some (_, PushTest _) => 25 | Some (_, PushWrite _ _) => 24 | Some (_, PushPublish _ _) => 23
  end.

Definition dtor_left (pc : dtor_pc) : nat :=
  match pc with DIdle => 30 | DNotify => 20 | DJoin => 1 | DDone => 0 end.

(** Bounds the steps of the threads inside and of the destructor. *)
Definition log_fuel (s : logger) : nat :=
  let r := ring (log_queue s) in
  push_left (log_queue s) + 8 * unnotified s + (7 * ring_size r + round_left s (ring_empty r)) + dtor_left (dtor s).

Lemma log_fuel_spec s q :
  log_inv s q -> log_fuel s = push_left (log_queue s) + 8 * unnotified s + writer_left s q + dtor_left (dtor s).
Proof. intros Hi. unfold log_fuel, writer_left. by rewrite (log_size s q Hi), (log_empty s q Hi). Qed.

(** Waking the writer costs at most a round. *)
Lemma round_left_wake s s' e :
  log_queue s' = log_queue s -> running s' = running s -> writer s' = wake (writer s) ->
  round_left s' e <= round_left s e + 7.
Proof. unfold round_left. intros -> -> ->. destruct (writer s); simpl; lia. Qed.

(** Telling it to stop costs nothing. *)
Lemma round_left_stop s s' e :
  log_queue s' = log_queue s -> running s' = false -> writer s' = writer s -> round_left s' e <= round_left s e.
Proof. unfold round_left. intros -> -> ->. destruct (writer s), (running s), e; simpl; lia. Qed.

(** A producer's step pays for the entry, its notification and a round. *)
Lemma push_fuel s q s' : log_inv s q -> log_push s StepPush = Some s' -> log_fuel s' < log_fuel s.
Proof.
  intros Hi E. destruct (log_push_inv s q StepPush s' I Hi E) as (q' & Hi' & _).
  rewrite (log_fuel_spec s q Hi), (log_fuel_spec s' q' Hi'). unfold log_push in E.
  destruct (on_queue s StepPush) as [[s1 es]|] eqn:Eq; simplify_eq/=.
  destruct (on_queue_spec _ _ _ _ _ Hi Eq) as (q2 & Hr2 & Ho2 & Hq & _ & Es & Hs).
  assert (q2 = q') as ->. { rewrite (l_order _ _ Hi') in Ho2. by apply app_inv_head in Ho2. }
  destruct (push_step_facts StepPush _ _ _ I Es) as [Hh Hp]. rewrite Hp in Hq. simpl in Hq.
  assert (push_left (log_queue s') + 22 * length (pushed es) < push_left (log_queue s)) as Hl.
  { clear -Es. unfold push_left. simpl in Es.
    destruct (tail_mutex_ (log_queue s)) as [[tid []]|]; [destruct (_ =? _)|..]; simplify_eq/=;
      match goal with H : _ = log_queue s' |- _ => rewrite <- H end; simpl; lia. }
  assert (round_left s' (bool_decide (q' = [])) <= round_left s (bool_decide (q = [])) + 7 * length (pushed es)) as Hw.
  { rewrite Hs. unfold round_left. simpl. rewrite Hh. rewrite <- Hq. destruct (pushed es) as [|x l]; simpl.
    - rewrite app_nil_r, Nat.add_0_r. done.
    - rewrite bool_decide_false by (by destruct q). generalize (bool_decide (q = [])).
      intros e. destruct (writer s), (running s), e; simpl; lia. }
  unfold writer_left. rewrite <- Hq, length_app. rewrite <- Hq in Hw.
  assert (unnotified s' = unnotified s + length (pushed es) /\ dtor s' = dtor s) as [-> ->] by (by rewrite Hs).
  lia.
Qed.

Lemma inside_fuel a s q s' : log_inv s q -> log_inside a -> log_step a s = Some s' -> log_fuel s' < log_fuel s.
Proof.
  intros Hi Ha E. destruct a as [tid e| | | | |]; cbn [log_step] in E; try done.
  - by eapply push_fuel.
  - pose proof (log_notify_inv s q s' Hi E) as Hi'. rewrite (log_fuel_spec s q Hi), (log_fuel_spec s' q Hi').
    unfold log_notify in E. destruct (unnotified s) as [|n] eqn:En; simplify_eq. unfold writer_left. simpl.
    match goal with |- context [round_left ?s' ?e] => pose proof (round_left_wake s s' e eq_refl eq_refl eq_refl) end. lia.
  - destruct (writer_step_advance s q s' Hi E) as [q' [Hi' _ A3 A4 A5 _ _ A8]].
    rewrite (log_fuel_spec s q Hi), (log_fuel_spec s' q' Hi'). unfold push_left. rewrite A3, A4, A5. lia.
  - pose proof (dtor_step_inv s q s' Hi E) as Hi'. rewrite (log_fuel_spec s q Hi), (log_fuel_spec s' q Hi').
    unfold dtor_step in E. destruct (dtor s) eqn:Ed; [| |case_decide; [|done]|done].
    + destruct (holds_mtx (writer s)); simplify_eq. unfold writer_left. simpl.
      match goal with |- context [round_left ?s' ?e] => pose proof (round_left_stop s s' e eq_refl eq_refl eq_refl) end. lia.
    + simplify_eq. unfold writer_left. simpl.
      match goal with |- context [round_left ?s' ?e] => pose proof (round_left_wake s s' e eq_refl eq_refl eq_refl) end. lia.
    + simplify_eq. unfold writer_left, round_left. simpl. lia.
Qed.

(** What stays true from [s0] on, when nobody new comes. *)
Record closing (s0 s : logger) : Prop := {
  cl_inv : exists q, log_inv s q;
  cl_accepted : accepted s0 `prefix_of` accepted s;
  cl_written : writer s = WExit -> accepted s0 `prefix_of` written s;
  cl_quiet : tail_mutex_ (log_queue s0) = None -> tail_mutex_ (log_queue s) = None /\ accepted s = accepted s0;
}.

Lemma closing_step a s0 s s' : closing s0 s -> log_inside a -> log_step a s = Some s' -> closing s0 s'.
Proof.
  intros [[q Hi] H2 H3 H4] Ha E. pose proof (log_step_inv a s q s' Hi E) as Hi'.
  destruct a as [tid e| | | | |]; cbn [log_step] in E; try done.
  - unfold log_push in E. destruct (on_queue s StepPush) as [[s1 es]|] eqn:Eq; simplify_eq/=.
    destruct (on_queue_spec _ _ _ _ _ Hi Eq) as (q' & _ & _ & _ & _ & Es & Hs). constructor; try done.
    + rewrite Hs. simpl. by apply prefix_app_r.
    + rewrite Hs. simpl. intros Hw. by apply prefix_app_r, H3.
    + intros Hq. destruct (H4 Hq) as [Ht _]. simpl in Es. by rewrite Ht in Es.
  - unfold log_notify in E. destruct (unnotified s); simplify_eq. constructor; try done. simpl.
    intros Hw. apply H3. by destruct (writer s).
  - destruct (writer_step_advance s q s' Hi E) as [q' [W1 W2 W3 W4 W5 W6 W7 W8]].
    constructor; rewrite ?W2, ?W3; try done. intros Hw. pose proof (l_order _ _ W1) as Ho.
    rewrite (W7 Hw), app_nil_r in Ho. by rewrite <- Ho, W2.
  - unfold dtor_step in E. destruct (dtor s); [| |case_decide; [|done]|done].
    + destruct (holds_mtx (writer s)); simplify_eq. by constructor.
    + simplify_eq. constructor; try done. simpl. intros Hw. apply H3. by destruct (writer s).
    + simplify_eq. by constructor.
Qed.

(** Inside [pop] the writer can always move. *)
Lemma pop_moves r tid pc : head_mutex_ r = Some (tid, pc) -> is_Some (ring_step (T := bytes) StepPop r).
Proof. intros Eh. simpl. rewrite Eh. destruct pc; repeat case_match; by eexists. Qed.

Lemma writer_moves s : writer s <> WSleeping -> writer s <> WExit -> is_Some (writer_step s).
Proof.
  intros Hs Hx. unfold writer_step. destruct (writer s) eqn:Ew; try done.
  destruct (head_mutex_ (log_queue s)) as [[tid pc]|] eqn:Eh.
  - destruct (pop_moves _ _ _ Eh) as [[r es] E]. unfold on_queue. rewrite E. by eexists.
  - unfold on_queue. simpl. rewrite Eh. by eexists.
Qed.

(** When the destructor has returned, nobody is left. *)
Lemma closing_done s0 s :
  closing s0 s -> dtor s = DDone -> tail_mutex_ (log_queue s) = None -> unnotified s = 0 -> log_closed s0 s.
Proof.
  intros [[q Hi] H2 H3 H4] Ed Et En. assert (writer s = WExit) as Hx by by apply (l_join _ _ Hi).
  constructor; try done; [by apply H3|exists q; apply Hi|].
  intros Hq. destruct (H4 Hq) as [_ Ha]. specialize (H3 Hx).
  assert (written s `prefix_of` accepted s0) as Hp by (rewrite <- Ha, (l_order _ _ Hi); by eexists).
  by apply (anti_symm prefix).
Qed.

Lemma closing_live s0 s : closing s0 s -> log_closed s0 s \/ exists a, log_inside a /\ is_Some (log_step a s).
Proof.
  intros Hc. pose proof Hc as [[q Hi] H2 H3 H4].
  destruct (tail_mutex_ (log_queue s)) as [[tid pc]|] eqn:Et.
  { right. exists APush. split; [done|]. simpl. unfold log_push, on_queue. simpl. rewrite Et.
    destruct pc; [destruct (_ =? _)|..]; by eexists. }
  destruct (unnotified s) as [|n] eqn:En; [|right; exists ANotify; split; [done|]; simpl; unfold log_notify; by rewrite En].
  destruct (decide (writer s = WSleeping \/ writer s = WExit)) as [Hw|Hw];
    [|right; exists AWriter; split; [done|]; apply writer_moves; tauto].
  destruct (dtor s) eqn:Ed; [right; exists ADtor; split; [done|]; simpl; unfold dtor_step; rewrite Ed..|].
  - by destruct Hw as [-> | ->]; eexists.
  - by eexists.
  - pose proof (l_woken _ _ Hi (or_introl Ed)) as Hn. destruct Hw as [Hw|Hw]; [done|].
    rewrite decide_True by done. by eexists.
  - left. by apply closing_done.
Qed.

Lemma ring_step_capacity {T} a (r r' : ring_state T) es :
  ring_step a r = Some (r', es) -> capacity_ (ring r') = capacity_ (ring r).
Proof. destruct a; simpl; intros E; repeat case_match; by simplify_eq/=. Qed.

Lemma log_step_capacity a s s' :
  log_step a s = Some s' -> capacity_ (ring (log_queue s')) = capacity_ (ring (log_queue s)).
Proof.
  assert (forall b s1 es, on_queue s b = Some (s1, es) ->
    capacity_ (ring (log_queue s1)) = capacity_ (ring (log_queue s))) as Hq.
  { intros b s1 es E. unfold on_queue in E. destruct (ring_step b _) as [[r es']|] eqn:Es; simplify_eq/=.
    by eapply ring_step_capacity. }
  destruct a; cbn [log_step]; unfold write_log, log_push, log_notify, writer_step, dtor_step; intros E;
    repeat case_match; simplify_eq/=; try done;
    match goal with H : context [on_queue s ?b] |- _ => destruct (on_queue s b) as [[s1 es]|] eqn:Eq end;
    simplify_eq/=; by eapply Hq.
Qed.

Lemma log_run_capacity acts s :
  capacity_ (ring (log_queue (foldl log_exec s acts))) = capacity_ (ring (log_queue s)).
Proof.
  revert s. induction acts as [|a acts IH]; intros s; simpl; [done|]. rewrite IH. unfold log_exec.
  destruct (log_step a s) as [s'|] eqn:E; [|done]. by apply (log_step_capacity a).
Qed.

(** The texts of the calls in a schedule, and of the call inside [push]. *)
Definition called (acts : list log_action) : list bytes :=
  omap (fun a => match a with ALog _ c => Some (entry_of_call c) | _ => None end) acts.

Definition pushing (r : ring_state bytes) : list bytes :=
  match tail_mutex_ r with
  | Some (_, (PushTest e | PushWrite e _ | PushPublish e _)) => [e]
  | None => []
  end.

(** A step accepts only what is being pushed. *)
Lemma log_step_called a s q s' :
  log_inv s q -> log_step a s = Some s' ->
  accepted s' ++ pushing (log_queue s') ⊆+ (accepted s ++ pushing (log_queue s)) ++ called [a].
Proof.
  intros Hi E. destruct a as [tid c| | | | |]; cbn [log_step] in E.
  - unfold write_log, log_push, on_queue in E. simpl in E.
    destruct (tail_mutex_ (log_queue s)) as [[]|] eqn:Et; simplify_eq/=. unfold pushing. simpl. by rewrite Et, !app_nil_r.
  - unfold log_push, on_queue in E. unfold pushing. simpl in E.
    destruct (tail_mutex_ (log_queue s)) as [[tid [e|e nt|e nt]]|] eqn:Et; [destruct (_ =? _)|..]; simplify_eq/=;
      rewrite ?app_nil_r; try done. by apply submseteq_inserts_r.
  - unfold log_notify in E. destruct (unnotified s); simplify_eq/=. by rewrite app_nil_r.
  - destruct (writer_step_advance s q s' Hi E) as [q' [_ -> Ht _ _ _ _ _]]. unfold pushing. by rewrite Ht, app_nil_r.
  - unfold dtor_step in E. rewrite app_nil_r. repeat case_match; by simplify_eq/=.
  - simplify_eq/=. by rewrite app_nil_r.
Qed.

Lemma log_run_called acts s :
  (exists q, log_inv s q) ->
  accepted (foldl log_exec s acts) ++ pushing (log_queue (foldl log_exec s acts)) ⊆+
    (accepted s ++ pushing (log_queue s)) ++ called acts.
Proof.
  revert s. induction acts as [|a acts IH]; intros s [q Hi]; cbn [foldl]; [by rewrite app_nil_r|].
  change (called (a :: acts)) with (called ([a] ++ acts)). unfold called at 1. rewrite omap_app. fold (called [a]) (called acts).
  unfold log_exec at 2 4. destruct (log_step a s) as [s'|] eqn:E; simpl default.
  - etrans; [apply IH; by eapply log_step_inv|]. rewrite (assoc_L (++)). apply submseteq_skips_r. by eapply log_step_called.
  - etrans; [by apply IH; exists q|]. apply submseteq_skips_l, submseteq_inserts_l. done.
Qed.

(** C29: nothing that was accepted is lost, and shutdown flushes.  Under every
    schedule of callers, writer and destructor, inside the ring's operations
    too, what is accepted is the text of calls, of each at most once; the entries
    written are those accepted, in order and once, except for the at most
    [buffer_size] entries still in the ring.  And from every such
    state in which the writer has not ended, whatever the threads are doing, if no
    new caller comes the threads and the destructor can make only a bounded number
    of steps, and one of them can move until the destructor has returned with the
    writer joined: what had been accepted is then written, all of it and nothing
    else if no caller was inside [push]. *)
Theorem logger_flushes_on_shutdown buffer_size acts :
  let s := foldl log_exec (logger_init buffer_size) acts in
  accepted s ⊆+ called acts /\
  (exists q, accepted s = written s ++ q /\ length q = ring_size (ring (log_queue s)) /\ length q <= buffer_size) /\
  (writer s <> WExit -> comes_to_rest log_step log_inside (log_closed s) s).
Proof.
  intros s. destruct (log_run_inv acts _ _ (logger_init_inv buffer_size)) as [q Hi]. fold s in Hi. split_and!.
  - etrans; [|exact (log_run_called acts (logger_init buffer_size) (ex_intro _ [] (logger_init_inv buffer_size)))].
    by apply submseteq_inserts_r.
  - exists q. split_and!; [apply Hi|symmetry; by apply log_size|]. destruct (l_ring _ _ Hi) as [evs Hr].
    pose proof (repr_len _ _ (inv_repr _ _ _ Hr)) as Hl. unfold s in Hl. by rewrite log_run_capacity in Hl.
  - intros Hw. apply (fuel_comes_to_rest _ _ _ (closing s) log_fuel).
    + intros a s1 s2 Hc Ha E. split; [by eapply closing_step|]. destruct (cl_inv _ _ Hc) as [q1 Hi1]. by eapply inside_fuel.
    + intros s1. apply closing_live.
    + constructor; try done. by exists q.
Qed.

Definition demo_call (text : bytes) : log_call := mk_call (mk_time 126 2 27 10 0 0 7) info (bs "src/main.cpp") 42 text.

(** A caller pushes between the writer's test and its wait. *)
Definition demo_lost : list log_action :=
  [AWriter; AWriter; AWriter; ALog 1 (demo_call (bs "m")); APush; APush; APush; ANotify; AWriter].

Lemma logger_flushes_on_shutdown_witness :
  let s := foldl log_exec (logger_init 4) demo_lost in
  writer s = WSleeping /\
  exists acts s', Forall log_inside acts /\ steps_run log_step s acts = Some s' /\
    dtor s' = DDone /\ written s' = [entry_of_call (demo_call (bs "m"))].
Proof.
  cbn zeta. split; [reflexivity|].
  destruct (logger_flushes_on_shutdown 4 demo_lost) as (_ & _ & Hr).
  destruct (Hr ltac:(discriminate)) as [_ (acts & s' & Ha & Hs & Hc)].
  exists acts, s'. split_and!; [done|done|apply Hc|]. by rewrite (lc_exact _ _ Hc).
Defined.

(** The wake-up is lost: the entry waits in the ring, the writer sleeps, and no
    notification is under way. *)
Theorem logger_lost_wakeup :
  let s := foldl log_exec (logger_init 4) demo_lost in
  writer s = WSleeping /\ unnotified s = 0 /\ running s = true /\
  accepted s = [entry_of_call (demo_call (bs "m"))] /\ written s = [].
Proof. vm_compute. done. Qed.
