(* ===== verification/ProcessExit.v ===== *)
(** * ProcessExit: the end of the process

    When [listen] has given up, [main] destroys the server and returns, and the
    static logger is destroyed after it.  The destructors stop both pools
    ([PoolStop]) and the logger ([Logger]) one after the other, while the
    workers and the writer run; the descriptors go in between ([Lifecycle]).
    The model is the product of those machines with a counter for the main
    thread.  No task was ever submitted, so the workers are on their own.

    The theorem: whatever the workers and the writer were doing when [listen]
    returned, the process ends, with every thread joined, every descriptor given
    back and every log entry written. *)

From S2P Require Import Prelude Bytes RingBuffer ThreadPool SharedPool PoolStop LogEntry Logger SocketOps HpServer Main Lifecycle.

(** ** A pool nobody submits to *)

Section idle_pool.
Context {T : Type}.
Implicit Types (s : thread_pool T).

Record pool_idle (s : thread_pool T) : Prop := {
  id_stop : stop_inv s;
  id_mtx : forall p, mtx s <> Some (OSubmitter p);
  id_full : not_full_asleep s = [] /\ not_full_notified s = [];
  id_outside : outside s = [];
}.

Definition worker_or_stopper (a : pool_action T) : Prop :=
  match a with StepWorker _ _ | StepStop _ => True | _ => False end.

Lemma dequeued_idle s d i s' d' :
  dequeued_step s d i = Some (s', d') -> not_full_asleep s = [] ->
  not_full_asleep s' = [] /\ not_full_notified s' = not_full_notified s /\ outside s' = outside s.
Proof.
  destruct d; simpl; intros E Ha; simplify_eq; [done..|]. unfold notify_not_full in E. rewrite Ha in E.
  simpl in E. by simplify_eq/=.
Qed.

(** What the steps of the workers and of [stop] leave alone. *)
Lemma idle_fields a s s' es :
  worker_or_stopper a -> pool_step a s = Some (s', es) -> not_full_asleep s = [] -> not_full_notified s = [] ->
  (not_full_asleep s' = [] /\ not_full_notified s' = []) /\ outside s' = outside s /\
  (forall p, mtx s' = Some (OSubmitter p) -> mtx s = Some (OSubmitter p)) /\
  length (workers s') = length (workers s) /\ length (stop_flags s') = length (stop_flags s).
Proof.
  intros Ha E Hf Hn. destruct a as [| | |w i| |i| | | |]; try done; simpl in E.
  - unfold worker_step, take in E. destruct (workers s !! w) as [pc|] eqn:Ew; [|done]. simpl in E.
    destruct pc; simpl in E; try done; try (repeat case_match; simplify_eq/=; by rewrite ?length_insert).
    destruct (dequeued_step s d i) as [[s1 d']|] eqn:Ed; simplify_eq/=.
    destruct (dequeued_idle _ _ _ _ _ Ed Hf) as (-> & -> & ->).
    destruct (dequeued_step_core _ _ _ _ _ Ed) as (_ & -> & -> & _ & _ & _ & ->). by rewrite length_insert.
  - destruct (stopper s) as [pc|]; [|done]. simpl in E. unfold stop_step, clear_step in E.
    destruct pc; simpl in E; try (repeat case_match; simplify_eq/=; rewrite ?length_insert, ?Hf, ?Hn; done).
    + destruct (dequeued_step s d i) as [[s1 d']|] eqn:Ed; simplify_eq/=.
      destruct (dequeued_idle _ _ _ _ _ Ed Hf) as (-> & -> & ->).
      by destruct (dequeued_step_core _ _ _ _ _ Ed) as (_ & -> & -> & _ & _ & _ & ->).
    + destruct (mtx s) eqn:Em; simplify_eq/=. unfold wake_all. rewrite Hf, Hn, length_fmap, Em. done.
Qed.

Lemma idle_step a s s' :
  worker_or_stopper a -> pool_move a s = Some s' -> pool_idle s ->
  pool_idle s' /\ stop_fuel s' < stop_fuel s /\
  length (workers s') = length (workers s) /\ length (stop_flags s') = length (stop_flags s).
Proof.
  intros Ha Hm [H1 H2 [H3 H3'] H4]. unfold pool_move in Hm.
  destruct (pool_step a s) as [[s1 es]|] eqn:E; simplify_eq/=.
  destruct (idle_fields _ _ _ _ Ha E H3 H3') as (F1 & F2 & F3 & F4 & F5). split_and!; [|..|done|done].
  - constructor; [by eapply pool_stop_step| |done|by rewrite F2]. intros p Hp. by eapply H2, F3.
  - destruct a; try done; [by eapply worker_stop_fuel|by eapply stopper_step_fuel].
Qed.

(** While it waits to be stopped, it can be; and it can go on until it is. *)
Lemma idle_stops s :
  pool_idle s -> stopper s <> None ->
  stopper s = Some SDone /\ stop_returned s \/ exists a, worker_or_stopper a /\ is_Some (pool_move a s).
Proof.
  intros [H1 H2 [H3 H3'] H4] Hp. destruct (stop_live s H1 Hp) as [Hr|(a & Ha & [s' E])].
  { left. split; [apply Hr|done]. }
  right. exists a. split; [|by eexists]. unfold pool_move in E.
  destruct a as [| | |w i| |i| |k i| |]; try done; simpl in E.
  - destruct (mtx s) as [[p|]|] eqn:Em; try done. by destruct (H2 p).
  - rewrite H3' in E. by destruct (mtx s).
  - by rewrite H4 in E.
Qed.

Lemma idle_returned s : pool_idle s -> stopper s = Some SDone -> stop_returned s.
Proof.
  intros Hi Hp. destruct (idle_stops s Hi) as [[_ Hr]|(a & Ha & [s' E])]; [by rewrite Hp|done|]. exfalso.
  destruct (st_pool _ (id_stop _ Hi)) as [evs Hpool].
  pose proof (inv_joined _ _ Hpool ltac:(by rewrite Hp)) as Hx. unfold pool_move in E.
  destruct a as [| | |w i| |i| |k i| |]; try done; simpl in E.
  - unfold worker_step in E. destruct (workers s !! w) as [pc|] eqn:Ew; [|done].
    rewrite (proj1 (Forall_lookup _ _) Hx w pc Ew) in E. done.
  - by rewrite Hp in E.
Qed.

(** The call of [stop(false)]. *)
Lemma idle_stop_call s s' :
  pool_move (Stop false) s = Some s' -> stopper s = None -> pool_idle s ->
  pool_idle s' /\ stopper s' <> None /\ length (workers s') = length (workers s) /\
  length (stop_flags s') = length (stop_flags s) /\
  stop_fuel s' = stop_fuel s + stopper_fuel (length (workers s)) (length (stop_flags s)) (SFlags 0).
Proof.
  intros Hm Hp [H1 H2 [H3 H3'] H4]. unfold pool_move in Hm.
  destruct (pool_step (Stop false) s) as [[s1 es]|] eqn:E; simplify_eq/=.
  assert (stop_inv s') as Hi by (by eapply (pool_stop_step (Stop false))). rewrite Hp in E.
  destruct (is_stopped s); simplify_eq. split_and!; [by constructor|done..|].
  unfold stop_fuel, pool_fuel, others_fuel. rewrite Hp. simpl. lia.
Qed.

Lemma pool_new_idle n max : pool_idle (pool_new (T := T) n max).
Proof. constructor; try done. apply pool_new_stop. Qed.

(** The workers alone, which may also wake on their own. *)
Definition workers_only (a : pool_action T) : Prop :=
  match a with StepWorker _ _ | Spurious _ => True | _ => False end.

Lemma workers_only_stopper a s s' es :
  workers_only a -> pool_step a s = Some (s', es) -> stopper s' = stopper s /\ is_stopped s' = is_stopped s.
Proof.
  intros Ha E. destruct a as [| | |w i| | | | |w|]; try done; simpl in E.
  - unfold worker_step, take in E. destruct (workers s !! w) as [pc|]; [|done]. simpl in E.
    destruct pc; simpl in E; try done; try (repeat case_match; by simplify_eq/=).
    destruct (dequeued_step s d i) as [[s1 d']|] eqn:Ed; simplify_eq/=.
    by destruct (dequeued_step_core _ _ _ _ _ Ed) as (_ & _ & _ & -> & _ & -> & _).
  - destruct (workers s !! w) as [[]|]; by simplify_eq/=.
Qed.

(** A pool that has not been told to stop. *)
Record pool_waiting (s : thread_pool T) : Prop := {
  wt_idle : pool_idle s;
  wt_stopper : stopper s = None;
  wt_stopped : is_stopped s = false;
}.

Lemma worker_waits a s s' es :
  workers_only a -> pool_step a s = Some (s', es) -> pool_waiting s -> pool_waiting s'.
Proof.
  intros Ha E [Hi Hp Hs]. destruct (workers_only_stopper _ _ _ _ Ha E) as [E1 E2].
  constructor; [|by rewrite E1|by rewrite E2]. destruct a as [| | |w i| | | | |w|]; try done.
  - apply (idle_step (StepWorker w i) s s'); [done|unfold pool_move; by rewrite E|done].
  - destruct Hi as [H1 H2 [H3 H3'] H4]. assert (stop_inv s') by (by eapply (pool_stop_step (Spurious w) s)).
    simpl in E. destruct (workers s !! w) as [[]|]; simplify_eq/=. by constructor.
Qed.

Lemma workers_wait acts s evs :
  Forall workers_only acts -> pool_waiting s -> pool_waiting (foldl pool_exec (s, evs) acts).1.
Proof.
  intros Ha. revert s evs. induction Ha as [|a acts Ha _ IH]; intros s evs Hi; cbn [foldl]; [done|].
  unfold pool_exec at 2. cbn [fst]. destruct (pool_step a s) as [[s' es]|] eqn:E; [|by apply IH].
  cbn [snd]. apply IH. by eapply worker_waits.
Qed.

Lemma pool_new_waiting n max : pool_waiting (pool_new (T := T) n max).
Proof. constructor; [apply pool_new_idle|done..]. Qed.

End idle_pool.

(** ** The main thread *)

Section exit.
Context {T : Type}.

(** Where the main thread is: before the body of [~hpserver], about to stop the
    tunnel pool and inside its [stop], the same for the proxy pool (members die
    in the reverse order of their declaration), before the members that own
    descriptors, in the logger's destructor, gone. *)
(* src/src/hpserver.h:43-60 hpserver *)
Inductive exit_pc := XBody | XTunnel | XTunnelStop | XProxy | XProxyStop | XMembers | XLogger | XDone.

Record exiting := mk_exiting {
  x_pc : exit_pc;
  tunnel_pool_ : thread_pool T;
  proxy_pool_ : thread_pool T;
  x_log : logger;
  x_process : process;
}.

Inductive exit_action :=
| XMain | XTunnelThread (a : pool_action T) | XProxyThread (a : pool_action T) | XLog (a : log_action).

(** [~thread_pool] is [stop(false)]. *)
(* src/src/util/thread_pool.h:40-40 thread_pool::~thread_pool *)
Definition pool_dtor (s : thread_pool T) : option (thread_pool T) := pool_move (Stop false) s.

Definition stop_has_returned (s : thread_pool T) : bool :=
  match stopper s with Some SDone => true | _ => false end.

(** The steps that go from one destructor to the next. *)
(* src/src/hpserver.cpp:100-105 hpserver::~hpserver *)
Definition main_step (x : exiting) : option exiting :=
  let '(mk_exiting pc t p l w) := x in
  match pc with
  | XBody => Some (mk_exiting XTunnel t p l (hpserver_dtor w))
  | XTunnel => t ← pool_dtor t; Some (mk_exiting XTunnelStop t p l w)
  | XTunnelStop => if stop_has_returned t then Some (mk_exiting XProxy t p l w) else None
  | XProxy => p ← pool_dtor p; Some (mk_exiting XProxyStop t p l w)
  | XProxyStop => if stop_has_returned p then Some (mk_exiting XMembers t p l w) else None
  | XMembers => Some (mk_exiting XLogger t p l (destroy_members w))
  | XLogger => if decide (dtor l = DDone) then Some (mk_exiting XDone t p l w) else None
  | XDone => None
  end.

(** A step of the workers, or of the main thread inside [stop] or inside the
    logger's destructor. *)
Definition exit_step (a : exit_action) (x : exiting) : option exiting :=
  match a with
  | XMain => main_step x
  | XTunnelThread a =>
      t ← pool_move a (tunnel_pool_ x);
      Some (mk_exiting (x_pc x) t (proxy_pool_ x) (x_log x) (x_process x))
  | XProxyThread a =>
      p ← pool_move a (proxy_pool_ x);
      Some (mk_exiting (x_pc x) (tunnel_pool_ x) p (x_log x) (x_process x))
  | XLog a =>
      if match a, x_pc x with ADtor, XLogger => true | ADtor, _ => false | _, _ => true end
      then l ← log_step a (x_log x);
           Some (mk_exiting (x_pc x) (tunnel_pool_ x) (proxy_pool_ x) l (x_process x))
      else None
  end.

(** Nobody submits, logs or wakes without reason. *)
Definition exit_inside (a : exit_action) : Prop :=
  match a with
  | XMain => True
  | XTunnelThread a | XProxyThread a => worker_or_stopper a
  | XLog a => log_inside a
  end.
(** How far the main thread is. *)
Definition rank (pc : exit_pc) : nat :=
  match pc with
  | XBody => 0 | XTunnel => 1 | XTunnelStop => 2 | XProxy => 3 | XProxyStop => 4
  | XMembers => 5 | XLogger => 6 | XDone => 7
  end.

(** A pool whose destructor is called at rank [k]. *)
Record pool_phase (k : nat) (pc : exit_pc) (s : thread_pool T) : Prop := {
  ph_idle : pool_idle s;
  ph_before : rank pc <= k -> stopper s = None /\ is_stopped s = false;
  ph_after : k < rank pc -> stopper s <> None;
  ph_returned : S k < rank pc -> stopper s = Some SDone;
}.

(** [l0] and [p0] are what the exit began with. *)
Record exit_inv (l0 : logger) (p0 : process) (x : exiting) : Prop := {
  xi_tunnel : pool_phase 1 (x_pc x) (tunnel_pool_ x);
  xi_proxy : pool_phase 3 (x_pc x) (proxy_pool_ x);
  xi_log : closing l0 (x_log x);
  xi_callers : tail_mutex_ (log_queue (x_log x)) = None /\ unnotified (x_log x) = 0;
  xi_dtor : rank (x_pc x) < 6 -> dtor (x_log x) = DIdle;
  xi_gone : x_pc x = XDone -> dtor (x_log x) = DDone;
  xi_process : x_process x =
    match x_pc x with
    | XBody => p0 | XLogger | XDone => process_exit p0 | _ => hpserver_dtor p0
    end;
}.

(** Everything has ended. *)
Record exited (l0 : logger) (p0 : process) (x : exiting) : Prop := {
  xd_pc : x_pc x = XDone;
  xd_tunnel : stop_returned (tunnel_pool_ x);
  xd_proxy : stop_returned (proxy_pool_ x);
  xd_log : log_closed l0 (x_log x);
  xd_process : x_process x = process_exit p0;
}.

(** ** Lemmas *)

(** A worker, or the main thread inside [stop], moves. *)
Lemma phase_step k pc a s s' :
  worker_or_stopper a -> pool_move a s = Some s' -> pool_phase k pc s -> pool_phase k pc s'.
Proof.
  intros Ha Hm [H1 H2 H3 H4]. destruct (idle_step a s s' Ha Hm H1) as (Hi & _ & _ & _).
  unfold pool_move in Hm. destruct (pool_step a s) as [[s1 es]|] eqn:E; simplify_eq/=.
  destruct a as [| | |w i| |i| | | |]; try done.
  - destruct (workers_only_stopper (StepWorker w i) s s' es I E) as [E1 E2]. constructor; rewrite ?E1, ?E2; done.
  - simpl in E. destruct (stopper s) as [pc0|] eqn:Ep; [|done]. simpl in E. constructor.
    + done.
    + intros Hr. by destruct (H2 Hr).
    + intros Hr. apply (stopper_stays (StepStop i) s s' es); [simpl; by rewrite Ep|by rewrite Ep].
    + intros Hr. specialize (H4 Hr). by simplify_eq.
Qed.

(** The main thread goes on without touching the pool. *)
Lemma phase_next k pc pc' s :
  pool_phase k pc s -> (rank pc' <= k -> rank pc <= k) -> (k < rank pc' -> k < rank pc) ->
  (S k < rank pc' -> S k < rank pc \/ stopper s = Some SDone) -> pool_phase k pc' s.
Proof.
  intros [H1 H2 H3 H4] R1 R2 R3. constructor; [done|auto|auto|]. intros Hr. destruct (R3 Hr); auto.
Qed.

Lemma phase_call k pc pc' s s' :
  pool_dtor s = Some s' -> pool_phase k pc s -> rank pc = k -> rank pc' = S k -> pool_phase k pc' s'.
Proof.
  intros Hm [H1 H2 _ _] Hk Hk'. destruct (H2 ltac:(lia)) as [Hp _].
  destruct (idle_stop_call s s' Hm Hp H1) as (Hi & Hn & _). constructor; [done|lia|done|lia].
Qed.

Lemma phase_can_call k pc s : pool_phase k pc s -> rank pc = k -> is_Some (pool_dtor s).
Proof.
  intros [_ H2 _ _] Hk. destruct (H2 ltac:(lia)) as [Hp Hs]. unfold pool_dtor, pool_move. simpl. rewrite Hp, Hs. by eexists.
Qed.

Lemma stop_has_returned_iff s : stop_has_returned s = true <-> stopper s = Some SDone.
Proof. unfold stop_has_returned. destruct (stopper s) as [[]|]; naive_solver. Qed.

Lemma closing_unnotified a l0 l l' :
  closing l0 l -> log_inside a -> log_step a l = Some l' ->
  tail_mutex_ (log_queue l) = None /\ unnotified l = 0 -> tail_mutex_ (log_queue l') = None /\ unnotified l' = 0.
Proof.
  intros [[q Hi] _ _ _] Ha E [Ht Hu]. destruct a as [tid e| | | | |]; cbn [log_step] in E; try done.
  - unfold log_push, on_queue in E. simpl in E. by rewrite Ht in E.
  - unfold log_notify in E. by rewrite Hu in E.
  - destruct (writer_step_advance l q l' Hi E) as [q' [_ _ -> -> _ _ _ _]]. done.
  - unfold dtor_step in E. repeat case_match; by simplify_eq/=.
Qed.

Lemma writer_keeps_dtor l0 l l' : closing l0 l -> writer_step l = Some l' -> dtor l' = dtor l.
Proof. intros [[q Hi] _ _ _] E. destruct (writer_step_advance l q l' Hi E) as [q' [_ _ _ _ -> _ _ _]]. done. Qed.

(** The main thread passes a pool by. *)
Ltac phase_passes H :=
  eapply phase_next; [exact H|simpl; lia..|simpl; intros; first [lia | left; lia | by right]].

Lemma main_step_inv l0 p0 x x' : exit_inv l0 p0 x -> main_step x = Some x' -> exit_inv l0 p0 x'.
Proof.
  destruct x as [pc t p l w]. intros [H1 H2 H3 H4 H5 H6 H7] E. simpl in *.
  destruct pc; simpl in E; simplify_eq/=.
  - constructor; simpl; try done; [phase_passes H1|phase_passes H2|]. intros _. apply H5. lia.
  - destruct (pool_dtor t) as [t'|] eqn:Et; simplify_eq/=.
    constructor; simpl; try done; [by eapply phase_call|phase_passes H2|]. intros _. apply H5. lia.
  - destruct (stop_has_returned t) eqn:Et; simplify_eq/=. apply stop_has_returned_iff in Et.
    constructor; simpl; try done; [phase_passes H1|phase_passes H2|]. intros _. apply H5. lia.
  - destruct (pool_dtor p) as [p'|] eqn:Et; simplify_eq/=.
    constructor; simpl; try done; [phase_passes H1|by eapply phase_call|]. intros _. apply H5. lia.
  - destruct (stop_has_returned p) eqn:Et; simplify_eq/=. apply stop_has_returned_iff in Et.
    constructor; simpl; try done; [phase_passes H1|phase_passes H2|]. intros _. apply H5. lia.
  - constructor; simpl; try done; [phase_passes H1|phase_passes H2|lia].
  - case_decide as Ed; simplify_eq/=. constructor; simpl; try done; [phase_passes H1|phase_passes H2|lia].
Qed.

Lemma exit_step_inv l0 p0 a x x' :
  exit_inv l0 p0 x -> exit_inside a -> exit_step a x = Some x' -> exit_inv l0 p0 x'.
Proof.
  intros Hi Ha E. destruct a as [|a|a|a]; cbn [exit_step exit_inside] in *; [by eapply main_step_inv|..].
  - destruct (pool_move a (tunnel_pool_ x)) as [t|] eqn:Em; simplify_eq/=.
    destruct Hi as [H1 H2 H3 H4 H5 H6 H7]. constructor; try done. by eapply phase_step.
  - destruct (pool_move a (proxy_pool_ x)) as [t|] eqn:Em; simplify_eq/=.
    destruct Hi as [H1 H2 H3 H4 H5 H6 H7]. constructor; try done. by eapply phase_step.
  - destruct (match a with ADtor => _ | _ => _ end) eqn:Eg; [|done].
    destruct (log_step a (x_log x)) as [l|] eqn:El; simplify_eq/=.
    destruct Hi as [H1 H2 H3 H4 H5 H6 H7]. constructor; simpl; try done.
    + by eapply closing_step.
    + by eapply closing_unnotified.
    + intros Hr. destruct a; try done; cbn [log_step] in El.
      * unfold log_push, on_queue in El. simpl in El. by rewrite (proj1 H4) in El.
      * unfold log_notify in El. by rewrite (proj2 H4) in El.
      * rewrite (writer_keeps_dtor l0 _ _ H3 El). by apply H5.
      * destruct (x_pc x); simpl in *; try done; lia.
    + intros Hd. rewrite Hd in Eg. destruct a; try done; cbn [log_step] in El.
      * unfold log_push, on_queue in El. simpl in El. by rewrite (proj1 H4) in El.
      * unfold log_notify in El. by rewrite (proj2 H4) in El.
      * rewrite (writer_keeps_dtor l0 _ _ H3 El). by apply H6.
Qed.

(** ** The measure *)

(** What a call of [stop(false)] adds. *)
Definition call_fuel (s : thread_pool T) : nat :=
  stopper_fuel (length (workers s)) (length (stop_flags s)) (SFlags 0).

Definition main_left (x : exiting) : nat :=
  match x_pc x with
  | XBody => 9 + call_fuel (tunnel_pool_ x) + call_fuel (proxy_pool_ x)
  | XTunnel => 8 + call_fuel (tunnel_pool_ x) + call_fuel (proxy_pool_ x)
  | XTunnelStop => 7 + call_fuel (proxy_pool_ x) | XProxy => 6 + call_fuel (proxy_pool_ x)
  | XProxyStop => 5 | XMembers => 4 | XLogger => 3 | XDone => 0
  end.

Definition exit_fuel (x : exiting) : nat :=
  main_left x + stop_fuel (tunnel_pool_ x) + stop_fuel (proxy_pool_ x) + log_fuel (x_log x).

Lemma call_fuel_spec k pc s s' :
  pool_dtor s = Some s' -> pool_phase k pc s -> rank pc = k -> stop_fuel s' = stop_fuel s + call_fuel s.
Proof.
  intros Hm [H1 H2 _ _] Hk. destruct (H2 ltac:(lia)) as [Hp _].
  by destruct (idle_stop_call s s' Hm Hp H1) as (_ & _ & _ & _ & ?).
Qed.

Lemma pool_step_left k pc a s s' :
  worker_or_stopper a -> pool_move a s = Some s' -> pool_phase k pc s ->
  stop_fuel s' < stop_fuel s /\ call_fuel s' = call_fuel s.
Proof.
  intros Ha Hm [H1 _ _ _]. destruct (idle_step a s s' Ha Hm H1) as (_ & Hf & E1 & E2).
  unfold call_fuel. by rewrite E1, E2.
Qed.

Lemma exit_step_fuel l0 p0 a x x' :
  exit_inv l0 p0 x -> exit_inside a -> exit_step a x = Some x' -> exit_fuel x' < exit_fuel x.
Proof.
  intros [H1 H2 H3 H4 H5 H6 H7] Ha E. unfold exit_fuel, main_left.
  destruct a as [|a|a|a]; cbn [exit_step exit_inside] in *.
  - destruct x as [pc t p l w]. simpl in *. destruct pc; simpl in E; simplify_eq/=; try lia.
    + destruct (pool_dtor t) as [t'|] eqn:Et; simplify_eq/=. rewrite (call_fuel_spec 1 XTunnel t t') by done. lia.
    + destruct (stop_has_returned t); simplify_eq/=. lia.
    + destruct (pool_dtor p) as [p'|] eqn:Et; simplify_eq/=. rewrite (call_fuel_spec 3 XProxy p p') by done. lia.
    + destruct (stop_has_returned p); simplify_eq/=. lia.
    + case_decide; simplify_eq/=. lia.
  - destruct (pool_move a (tunnel_pool_ x)) as [t|] eqn:Em; simplify_eq/=.
    destruct (pool_step_left _ _ _ _ _ Ha Em H1) as [Hl ->]. lia.
  - destruct (pool_move a (proxy_pool_ x)) as [t|] eqn:Em; simplify_eq/=.
    destruct (pool_step_left _ _ _ _ _ Ha Em H2) as [Hl ->]. lia.
  - destruct (match a with ADtor => _ | _ => _ end); [|done].
    destruct (log_step a (x_log x)) as [l|] eqn:El; simplify_eq/=.
    destruct (cl_inv _ _ H3) as [q Hq]. pose proof (inside_fuel a _ q l Hq Ha El). lia.
Qed.

(** ** Progress *)

Lemma pool_progress k pc s :
  pool_phase k pc s -> rank pc = S k ->
  stop_has_returned s = true \/ exists a, worker_or_stopper a /\ is_Some (pool_move a s).
Proof.
  intros [H1 _ H3 _] Hk. destruct (idle_stops s H1 (H3 ltac:(lia))) as [[Hs _]|]; [left|by right].
  by apply stop_has_returned_iff.
Qed.

Lemma exit_live l0 p0 x :
  exit_inv l0 p0 x -> exited l0 p0 x \/ exists a, exit_inside a /\ is_Some (exit_step a x).
Proof.
  intros [H1 H2 H3 H4 H5 H6 H7]. destruct x as [pc t p l w]. simpl in *.
  assert ((exists x, main_step (mk_exiting pc t p l w) = Some x) ->
    exists a, exit_inside a /\ is_Some (exit_step a (mk_exiting pc t p l w))) as Hmain
    by (intros [x' E]; exists XMain; split; [done|by exists x']).
  destruct pc; simpl in Hmain; try (right; apply Hmain; by eexists).
  - right. destruct (phase_can_call 1 XTunnel t H1 eq_refl) as [t' Et]. apply Hmain. rewrite Et. by eexists.
  - right. destruct (pool_progress 1 XTunnelStop t H1 eq_refl) as [Et|(a & Ha & [t' Et])].
    + apply Hmain. rewrite Et. by eexists.
    + exists (XTunnelThread a). split; [done|]. simpl. rewrite Et. by eexists.
  - right. destruct (phase_can_call 3 XProxy p H2 eq_refl) as [t' Et]. apply Hmain. rewrite Et. by eexists.
  - right. destruct (pool_progress 3 XProxyStop p H2 eq_refl) as [Et|(a & Ha & [t' Et])].
    + apply Hmain. rewrite Et. by eexists.
    + exists (XProxyThread a). split; [done|]. simpl. rewrite Et. by eexists.
  - right. destruct (closing_live l0 l H3) as [Hc|(a & Ha & [l' El])].
    + apply Hmain. rewrite decide_True by apply Hc. by eexists.
    + exists (XLog a). split; [done|]. simpl. rewrite El. destruct a; by eexists.
  - left. constructor; simpl; [done| | | |done].
    + apply idle_returned; [apply H1|]. apply (ph_returned _ _ _ H1). simpl. lia.
    + apply idle_returned; [apply H2|]. apply (ph_returned _ _ _ H2). simpl. lia.
    + destruct H4. apply closing_done; [done|by apply H6|done|done].
Qed.

End exit.
Arguments exiting : clear implicits.
Arguments exit_action : clear implicits.

(** C30: a start-up that fails ends the program.  Take any accepted command line
    and any failing call of the start-up (those of [startup]), and let [listen] return while the
    workers of both pools and the log writer are anywhere.  Then the exit status
    is 1; from there the threads can make only a bounded number of steps, in
    whatever order, and one of them can move until everything has ended: both
    pools have joined their workers, the log has every entry, in order, and the
    process has the descriptors it had before, none closed twice. *)
Theorem failed_start_exits {T} hw args o tunnel_acts proxy_acts buffer_size log_acts fds epoll_fd e :
  parse_args args default_options = inr o ->
  Forall workers_only tunnel_acts -> Forall workers_only proxy_acts ->
  answers_fresh fds epoll_fd e ->
  let c := hpserver_new hw (port o) (proxy_workers o) (tunnel_workers o) (proxy_queue_size o) (tunnel_queue_size o) in
  let tunnel := (foldl pool_exec (pool_new (T := T) (Z.to_nat (tunnel_worker_count_ c)) (tunnel_queue_size_ c), []) tunnel_acts).1 in
  let proxy := (foldl pool_exec (pool_new (T := T) (Z.to_nat (proxy_worker_count_ c)) (proxy_queue_size_ c), []) proxy_acts).1 in
  let log := foldl log_exec (logger_init buffer_size) log_acts in
  dtor log = DIdle -> tail_mutex_ (log_queue log) = None -> unnotified log = 0 ->
  let '(started, p) := listen_fds (process_new (world_of fds) epoll_fd) e in
  started = false ->
  main hw args (fun _ => if started then 0 else -1)%Z = 1%Z /\
  comes_to_rest exit_step exit_inside
    (fun x => exited log p x /\ written (x_log x) = accepted log /\
       open_fds (sockets (x_process x)) = fds /\ bad_close (sockets (x_process x)) = false)
    (mk_exiting XBody tunnel proxy log p).
Proof.
  intros Ho Ht Hp Hf c tunnel proxy log Hd Hm Hu. pose proof (listen_fds_inv fds epoll_fd e Hf) as Hi.
  destruct (listen_fds _ e) as [started p]. intros ->. cbn [snd] in Hi.
  split; [unfold main; by rewrite Ho|].
  destruct (process_exit_spec fds p Hi) as (E1 & E2 & _).
  apply (fuel_comes_to_rest _ _ _ (exit_inv log p) exit_fuel).
  - intros a x x' Hx Ha E. split; [by eapply exit_step_inv|by eapply exit_step_fuel].
  - intros x Hx. destruct (exit_live log p x Hx) as [Hex|?]; [left|by right].
    split_and!; [done|by apply (lc_exact _ _ (xd_log _ _ _ Hex))|by rewrite (xd_process _ _ _ Hex)..].
  - pose proof (workers_wait tunnel_acts (pool_new (Z.to_nat (tunnel_worker_count_ c)) (tunnel_queue_size_ c)) []
      Ht (pool_new_waiting _ _)) as [T1 T2 T3].
    pose proof (workers_wait proxy_acts (pool_new (Z.to_nat (proxy_worker_count_ c)) (proxy_queue_size_ c)) []
      Hp (pool_new_waiting _ _)) as [P1 P2 P3].
    destruct (log_run_inv log_acts _ _ (logger_init_inv buffer_size)) as [q Hq].
    constructor; simpl; try done.
    + by constructor; simpl; [..|lia|lia].
    + by constructor; simpl; [..|lia|lia].
    + constructor; try done; [by exists q|]. intros Hw. pose proof (l_exit _ _ Hq Hw) as Hr.
      by rewrite (proj2 (l_running _ _ Hq) Hd) in Hr.
Qed.

(** The proxy pool's worker sleeps, the tunnel pool's has not begun, an error
    has been logged and the eventfd cannot be made. *)
Lemma failed_start_exits_witness :
  let log := foldl log_exec (logger_init 8) [ALog 1 (demo_call (bs "eventfd creation failed")); APush; APush; APush; ANotify] in
  let tunnel := pool_new (T := unit) 1 128 in
  let proxy := (foldl pool_exec (pool_new (T := unit) 1 512, []) [StepWorker 0 0; StepWorker 0 0; StepWorker 0 0]).1 in
  workers proxy = [WAsleep] /\
  exists acts x, Forall exit_inside acts /\
    steps_run exit_step (mk_exiting XBody tunnel proxy log
      (listen_fds (process_new (world_of {[0; 1; 2]}) 3) (demo_startup (-1))).2)%Z acts = Some x /\
    x_pc x = XDone /\ written (x_log x) = [entry_of_call (demo_call (bs "eventfd creation failed"))] /\
    open_fds (sockets (x_process x)) = ({[0; 1; 2]} : gset Z)%Z.
Proof.
  cbn zeta. split; [vm_compute; reflexivity|].
  pose proof (failed_start_exits (T := unit) 4 [bs "--proxy-workers"; bs "1"; bs "--tunnel-workers"; bs "1"]
    (mk_options 8080 1 1 0 0) [] [StepWorker 0 0; StepWorker 0 0; StepWorker 0 0] 8
    [ALog 1 (demo_call (bs "eventfd creation failed")); APush; APush; APush; ANotify] {[0; 1; 2]}%Z 3 (demo_startup (-1))
    ltac:(vm_compute; reflexivity) ltac:(constructor) ltac:(repeat constructor)
    (demo_fresh (-1) (or_introl eq_refl)) eq_refl eq_refl eq_refl) as H.
  assert ((listen_fds (process_new (world_of {[0; 1; 2]}) 3) (demo_startup (-1))).1 = false)%Z as E by (vm_compute; reflexivity).
  destruct (listen_fds _ _) as [started p]. simpl in E.
  destruct (H E) as [_ [_ (acts & x & Ha & Hs & Hx & Hw & Ho & _)]].
  exists acts, x. split_and!; [done|exact Hs|apply Hx|exact Hw|exact Ho].
Defined.
